(* ===== verification/_CoqProject ===== *)
-Q . S2P
Prelude.v
Text.v
Money.v
Graphs.v
Kahn.v
Json.v
WorkflowIr.v
WorkflowIrProps.v
WorkflowJson.v
Budget.v
Leases.v
ExecTypes.v
Capability.v
CapabilityGraph.v
Resolver.v
ResolverProps.v
Planner.v
PlannerProps.v
Policy.v
Strategy.v
Compiler.v
CompilerProps.v
WorkQueue.v
Scheduler.v
DagQueue.v
SchedulerProps.v
SchedulerCases.v
Runtime.v
RuntimeProps.v
SubgraphRun.v
Pipeline.v
AgentState.v
AgentRunner.v
CircuitBreaker.v
Paths.v
ShellTool.v
HttpTool.v
Utf8.v
Transport.v
FileTools.v
HostResource.v
MeteredStream.v
HostTypes.v
ContextAssembly.v
HostPolicy.v
HostExecutor.v
RequestPipeline.v
ProviderRouting.v
Access.v
Connectors.v
FeatureGate.v
ConfigReload.v
HostPlanner.v
Sessions.v
ExecutionApi.v
Sandbox.v
SemanticCache.v
AgentPersistence.v
ProviderStream.v
