(* ===== verification/Prelude.v ===== *)
(** * FusionRouter: a verification of the router

    FusionRouter answers chat requests by planning a workflow, compiling it
    under the operator's policies and running it on model providers and tools
    within a budget. This library models the crates under [src/crates], which
    hold planner, compiler, scheduler and runtime, and the parts of the host
    under [src/src] that guard a request: access, quotas, policies, routing,
    tools, configuration. Data, operations and names follow the sources.

    ** The parts and how they meet

    A request passes authentication and rate limiting (Access), has its
    context trimmed (ContextAssembly) and its requirements extracted
    (HostPlanner), is planned (Planner, over the capabilities found by
    Resolver in the registry of Capability and ordered by CapabilityGraph)
    into a workflow of the planning IR (WorkflowIr), which
    the compiler (Strategy, Policy, Compiler) checks and lowers to an execution
    graph. The host injects context and client tools (RequestPipeline),
    reserves quota (HostResource), and runs the graph on the scheduler
    (WorkQueue, Scheduler) with the provider-backed executor (Runtime) behind
    its own adapters (HostExecutor); spend is kept within the envelope of
    Budget, and streams are metered (MeteredStream). Model calls go through
    the provider registry (ProviderRouting), its circuit breakers
    (CircuitBreaker), the semantic cache (SemanticCache) and the HTTP transport
    (Transport, ProviderStream); tools are the shell
    tool (ShellTool, Paths), the HTTP tool (HttpTool) and the reading of files
    (FileTools), and capabilities in
    WebAssembly run in a sandbox (Sandbox). Operators change policies (HostPolicy) and configuration
    (ConfigReload, FeatureGate, Connectors) while the server runs. A workflow
    can also be posted as it is to the execution API (ExecutionApi), which
    compiles and runs it in a session (Sessions) and reports it as events.
    Agents with long-lived state are AgentState and AgentRunner; Leases are
    the scheduler's execution leases.

    ** Files

    Shared: Prelude (results, 64-bit arithmetic, stable sorting, hash order,
    tactics and the hint database), Text (strings as UTF-8 bytes), Json
    ([serde_json::Value]), Graphs and Kahn (graph walks and their fuel).

    [crates/fusion-core/src/monetary.rs]: Money.
    [crates/fusion-ir]: WorkflowIr, WorkflowIrProps, WorkflowJson (its text).
    [crates/fusion-types], [crates/fusion-kernel/src/resource]: ExecTypes, Budget.
    [crates/fusion-plugin-api], [crates/fusion-kernel/src/capability]:
    Capability, CapabilityGraph.
    [crates/fusion-planner]: Resolver, ResolverProps, Planner, PlannerProps.
    [crates/fusion-compiler]: Policy, Strategy, Compiler, CompilerProps.
    [crates/fusion-scheduler]: WorkQueue, DagQueue, Scheduler, SchedulerProps,
    SchedulerCases, Leases.
    [crates/fusion-runtime]: Runtime, RuntimeProps, SubgraphRun; with compiler
    and scheduler together: Pipeline.
    [crates/fusion-agent-state]: AgentState, AgentRunner, AgentPersistence.
    [src/providers]: CircuitBreaker, ProviderRouting. [src/security],
    [src/tools], [src/connectors/filesystem.rs]: Paths, ShellTool, HttpTool,
    FileTools. [src/resource]: HostResource,
    MeteredStream. [src/types], [src/context]: HostTypes, ContextAssembly.
    [src/policy], [src/operations/policy_admin.rs]: HostPolicy.
    [src/executor], [src/scheduler]: HostExecutor, Connectors. [src/server],
    [src/compiler/mod.rs]: RequestPipeline. [src/requirements],
    [src/planner], [src/ir]: HostPlanner. [src/middleware]: Access.
    [src/feature_gate], [src/config]: FeatureGate, ConfigReload.
    [src/transport], [src/providers/mod.rs]: Utf8, Transport, ProviderStream.
    [src/runtime]: Sandbox. [src/cache]: SemanticCache.
    [src/session], [src/lifecycle]: Sessions. [src/server/execution.rs],
    [src/events]: ExecutionApi.

    ** How the code is modelled

    A function that may fail returns a [result] with the source's error; a
    method that changes its object takes and returns the object's record.
    Integers that can overflow are [Z] with the wrapping or saturation of the
    source written out; floats are the binary64 and binary32 of [SpecFloat].
    Strings are their bytes. A [HashMap] is a [gmap], and where the code
    iterates over one the order is an instance of [HashIter], any enumeration
    of the entries, so a theorem holds for every order. Objects shared behind
    [Arc] are references into a store where it matters (ProviderRouting).
    Operations on atomics and locks that other threads can interleave are
    split at each access and run by a step relation or a schedule (Budget,
    HostResource, CircuitBreaker, SemanticCache); elsewhere an operation under one lock is one step.

    What a component offers its clients is a class with laws: the resource
    manager ([Budget], [HostResource]), the capability registry and the cache
    of the resolver, the state store of the agent, the session store, the host
    services of a sandboxed guest, the subscribers of the configuration
    manager. The clients' theorems hold for any instance, and
    the implementations in the sources are instances.

    Code outside the repository is a parameter: providers, tools, approval
    authority and clock answer as functions of the calls made so far, so they
    may keep state and answer anything; [serde_json]'s text, [uuid]'s
    derivation, [semver], SHA-256, DNS and the file system are parameters with
    the laws that are used stated as hypotheses or classes.

    ** What the theorems show

    Requests end to end: a node that policy sends to approval succeeds only
    after an approval ([approval_enforced]); tools declared by a client run
    only as far as the operator permits, and no other tool runs for a chat
    request ([chat_tools_confined]); every
    chat request is planned, answered and settled exactly ([chat_settles],
    [quota_ledger_exact]), the same plan for every order of hash maps
    ([plan_order_independent]), a stream exactly what it measured
    ([envelope_settles_to_report], [stream_books_measured_usage]); concurrent
    spending stays within the ceilings ([concurrent_spend_within_ceilings]); a
    workflow posted to the execution API is answered, and reported node by
    node in dependency order ([execution_reported]); sessions are their
    owners' alone ([sessions_isolated]).

    Planning and compiling: validation decides a declarative well-formedness
    ([validate_decides_well_formed]) and a workflow survives its canonical text
    ([canonical_json_roundtrip]); planning, resolution, the topological
    order and each compiler pass are characterized exactly ([plan_exact],
    [resolve_exact], [topological_sort_exact],
    [control_flow_validation_exact], [dead_node_elimination_exact],
    [policy_pass_enforces]); what compiles is sound ([compiled_graph_sound]),
    and strategies expand to well-formed subgraphs ([expansion_well_formed]).

    Running: every plain graph runs to the end, each node after its
    predecessors ([dag_run_total], [dag_run_all_succeed], [host_run_total],
    [subgraph_runs_in_order]); a breach stops the run ([budget_breach_stops]);
    tools fail closed and calls are metered ([tools_fail_closed],
    [calls_are_metered]); leases exclude other workers exactly until they end,
    with every renewal ([lease_exclusive]); patches merge into an agent's state
    by the documented rules ([merge_state_exact]),
    agents commit before they act ([step_commits_before_tool]), and their state in
    SQLite is that of the store in memory ([sqlite_store_refines]).

    The host's guards: access follows the configuration
    ([access_decided_by_config]), rate limits are per client
    ([rate_limiter_isolates]), routing fails closed and over ([route_exact]),
    the breaker refines its three-phase machine ([breaker_refines]), paths and
    addresses are confined ([shell_paths_contained], [file_read_contained],
    [requests_reach_public_hosts]), sandboxed guests keep to the permissions of
    their caller and to their limits ([guests_confined]), requests to providers
    are retried exactly while their failure is transient ([send_exact]) and streams carry what
    their bytes say wherever they were cut ([provider_stream_exact]), hits of the semantic cache are
    fresh and similar ([cache_hits_sound]), administration of policies refines a map
    ([admin_policies_enforced]), validation is exact ([validate_exact]), a
    reload is all or nothing ([reload_atomic]), and capabilities are bound to
    connectors that declare them ([binding_exact], [round_robin_fair]).

    Where the code departs from its comments or from what it means to do, the
    theorems above exclude the case by a hypothesis, which their comments name,
    and theorems on concrete inputs, mostly at the ends of the files, show it:
    a gate whose strategy expands, an override that is dropped from the
    configuration, a session created twice, attached values of shell flags,
    credentials in a URL, timeouts that are retried, a token limit of zero,
    ids with a colon, a [null] inside a new object, patches that are not
    objects, capabilities with only unhealthy connectors.

    ** Fuel

    Loops that are not structural take fuel that is proved enough: the walks
    of Graphs and Kahn a bound from the number of vertices and edges, the
    scheduler's loop one turn per node on plain graphs ([dag_run_total];
    graphs with loops are run on concrete inputs only), five turns for the
    graph of a chat request ([chat_settles]), two per node of a workflow posted
    to the execution API ([execution_reported]), the failure cascade
    two steps per edge, subgraphs one wave per node, the tool loop the round
    limit of the source, the agent runner its step limit. The fuel of a
    sandboxed guest is that of the source: a guest that has none left traps.

    ** Not modelled

    Route scoring, which only feeds a report; telemetry in SQLite; HTTP framing, the stdio transport and the wire
    formats of providers; the WebAssembly engine and its module cache;
    the optimizer of primitive graphs, which the server never
    runs; the broadcast of events, command line and release tooling, which carry
    records or print. The older [ProviderRouter] repeats the registry. Graphs with loops, branches or parallel edges have no general theorem about their
    runs. *)
From stdpp Require Export base gmap strings list fin_maps sets sorting pretty relations.
From Stdlib Require Export ZArith Lia Sorted Permutation.

#[global] Open Scope Z_scope.
#[global] Set Default Proof Using "Type".

(** ** Results and the error monad *)

(** Rust's [Result<A, E>]; the error type comes first so that [result E] is a
    monad. *)
Inductive result (E A : Type) : Type :=
| Ok (a : A)
| Err (e : E).
Arguments Ok {E A} a.
Arguments Err {E A} e.

#[global] Instance result_ret {E} : MRet (result E) := λ A a, Ok a.
#[global] Instance result_bind {E} : MBind (result E) := λ A B f m,
  match m with Ok a => f a | Err e => Err e end.
#[global] Instance result_fmap {E} : FMap (result E) := λ A B f m,
  match m with Ok a => Ok (f a) | Err e => Err e end.

Definition is_ok {E A} (r : result E A) : bool :=
  match r with Ok _ => true | Err _ => false end.

(** [map_err] and [ok_or]. *)
Definition map_err {E F A} (f : E → F) (r : result E A) : result F A :=
  match r with Ok a => Ok a | Err e => Err (f e) end.

Definition ok_or {E A} (e : E) (o : option A) : result E A :=
  match o with Some a => Ok a | None => Err e end.

(** A [for] loop whose body may return early with an error. *)
Fixpoint try_fold {E A S} (f : S → A → result E S) (s : S) (l : list A)
    : result E S :=
  match l with
  | [] => Ok s
  | a :: l => s' ← f s a; try_fold f s' l
  end.

Definition try_for_each {E A} (f : A → result E unit) (l : list A)
    : result E unit :=
  try_fold (λ _ a, f a) tt l.

Lemma try_for_each_cons {E A} (f : A → result E unit) a l :
  try_for_each f (a :: l) =
  match f a with Ok _ => try_for_each f l | Err e => Err e end.
Proof. unfold try_for_each; simpl. by destruct (f a) as [[]|]. Qed.

Lemma try_for_each_ok {E A} (f : A → result E unit) l :
  try_for_each f l = Ok tt ↔ ∀ a, a ∈ l → f a = Ok tt.
Proof.
  induction l as [|a l IH]; [set_solver|].
  rewrite try_for_each_cons. split.
  - destruct (f a) as [[]|] eqn:Hf; [|done].
    intros Hl b [->|Hb]%elem_of_cons; [done|]. by apply IH.
  - intros Hall. rewrite (Hall a) by set_solver. apply IH. set_solver.
Qed.

Lemma try_for_each_err {E A} (f : A → result E unit) l e :
  try_for_each f l = Err e → ∃ a, a ∈ l ∧ f a = Err e.
Proof.
  induction l as [|a l IH]; [done|]. rewrite try_for_each_cons.
  destruct (f a) as [[]|] eqn:Hf; intros; simplify_eq; [|set_solver].
  destruct IH as (b & ? & ?); set_solver.
Qed.

(** A loop with early exit keeps an invariant of the elements processed, or
    stops for a reason [Bad]. *)
Lemma try_fold_inv {E A S} (f : S → A → result E S) (I : list A → S → Prop) (Bad : Prop) s l :
  I [] s →
  (∀ pre a s, a ∈ l → I pre s → match f s a with Ok s' => I (pre ++ [a]) s' | Err _ => Bad end) →
  match try_fold f s l with Ok s' => I l s' | Err _ => Bad end.
Proof.
  intros Hs Hf. assert (∀ l' pre s, l = pre ++ l' → I pre s →
    match try_fold f s l' with Ok s' => I l s' | Err _ => Bad end) as Hgo; [|by apply (Hgo l [])].
  clear Hs s. induction l' as [|a l' IH]; intros pre s Heq HI; simpl.
  - rewrite app_nil_r in Heq. by subst.
  - specialize (Hf pre a s ltac:(set_solver) HI).
    destruct (f s a) as [s'|]; simpl; [|done]. apply (IH (pre ++ [a])); [|done].
    by rewrite <- app_assoc.
Qed.

Lemma filter_ext_in {A} (P Q : A → Prop) `{∀ x, Decision (P x), ∀ x, Decision (Q x)} (l : list A) :
  (∀ x, x ∈ l → P x ↔ Q x) → filter P l = filter Q l.
Proof.
  induction l as [|x l IH]; intros Heq; [done|]. rewrite !filter_cons, IH by set_solver.
  specialize (Heq x ltac:(set_solver)). repeat case_decide; tauto.
Qed.

Lemma not_not_dec (P : Prop) `{Decision P} : ¬ ¬ P ↔ P.
Proof. split; [apply dec_stable|auto]. Qed.

(** ** Machine integers

    A w-bit unsigned integer is a [Z] in [[0, 2^w - 1]]; the operations below
    are those of Rust's [u64], [u32] and [usize] (64-bit targets). *)
Definition u32_max : Z := 2 ^ 32 - 1.
Definition u64_max : Z := 2 ^ 64 - 1.
Definition i64_max : Z := 2 ^ 63 - 1.
Definition is_u32 (z : Z) : Prop := 0 ≤ z ≤ u32_max.
Definition is_u64 (z : Z) : Prop := 0 ≤ z ≤ u64_max.

Definition u64_saturating_add (a b : Z) : Z := Z.min (a + b) u64_max.
Definition u64_saturating_sub (a b : Z) : Z := Z.max (a - b) 0.
Definition u64_saturating_mul (a b : Z) : Z := Z.min (a * b) u64_max.
Definition u64_checked_add (a b : Z) : option Z :=
  if (a + b <=? u64_max)%Z then Some (a + b) else None.
Definition u64_checked_sub (a b : Z) : option Z :=
  if (0 <=? a - b)%Z then Some (a - b) else None.
Definition u64_checked_mul (a b : Z) : option Z :=
  if (a * b <=? u64_max)%Z then Some (a * b) else None.
Definition u64_wrapping_add (a b : Z) : Z := (a + b) `mod` 2 ^ 64.
Definition u64_wrapping_sub (a b : Z) : Z := (a - b) `mod` 2 ^ 64.
Definition u64_wrapping_mul (a b : Z) : Z := (a * b) `mod` 2 ^ 64.
(** [v as u32]. *)
Definition as_u32 (z : Z) : Z := z `mod` 2 ^ 32.
Definition clamp (lo hi z : Z) : Z := Z.min (Z.max z lo) hi.

Declare Scope u64_scope.
Delimit Scope u64_scope with u64.
Infix "+^" := u64_saturating_add (at level 50, left associativity) : u64_scope.
Infix "-^" := u64_saturating_sub (at level 50, left associativity) : u64_scope.
Infix "*^" := u64_saturating_mul (at level 40, left associativity) : u64_scope.
Infix "+?" := u64_checked_add (at level 50, left associativity) : u64_scope.
Infix "-?" := u64_checked_sub (at level 50, left associativity) : u64_scope.
Infix "*?" := u64_checked_mul (at level 40, left associativity) : u64_scope.

(** Exposes the definitions of the integer operations to [lia]. *)
Ltac unfold_ints :=
  unfold is_u64, is_u32, u64_saturating_add, u64_saturating_sub,
    u64_saturating_mul, u64_checked_add, u64_checked_sub, u64_checked_mul,
    u64_wrapping_add, u64_wrapping_sub, clamp, u64_max, u32_max, i64_max in *.
Ltac int_lia := unfold_ints; repeat case_match; simplify_eq; lia.

Create HintDb fusion.

Lemma sat_add_u64 a b : is_u64 a → is_u64 b → is_u64 (a +^ b)%u64.
Proof. int_lia. Qed.
Lemma sat_sub_u64 a b : is_u64 a → is_u64 b → is_u64 (a -^ b)%u64.
Proof. int_lia. Qed.
Lemma sat_mul_u64 a b : is_u64 a → is_u64 b → is_u64 (a *^ b)%u64.
Proof. unfold_ints; nia. Qed.
Lemma sat_add_mono a b : 0 ≤ b → is_u64 a → a ≤ (a +^ b)%u64.
Proof. int_lia. Qed.
Lemma sat_add_exact a b : a + b ≤ u64_max → (a +^ b)%u64 = a + b.
Proof. int_lia. Qed.
Lemma checked_add_spec a b :
  (a +? b)%u64 = (if decide (a + b ≤ u64_max) then Some (a + b) else None).
Proof. unfold u64_checked_add. case_decide; case_match; lia || done. Qed.
#[export] Hint Resolve sat_add_u64 sat_sub_u64 sat_mul_u64 : fusion.

(** ** Stable sorting

    [slice::sort_by] and [sort_by_key] are stable; the stable sort of a list is
    unique, and insertion sort computes it. [leb x y] stands for
    "x is not greater than y". *)
Section stable_sort.
Context {A : Type} (leb : A → A → bool).

Fixpoint insert_by (x : A) (l : list A) : list A :=
  match l with
  | [] => [x]
  | y :: l => if leb x y then x :: y :: l else y :: insert_by x l
  end.

Fixpoint sort_by (l : list A) : list A :=
  match l with
  | [] => []
  | x :: l => insert_by x (sort_by l)
  end.

Lemma insert_by_perm x l : insert_by x l ≡ₚ x :: l.
Proof.
  induction l as [|y l IH]; simpl; [done|].
  case_match; [done|]. rewrite IH. apply Permutation_swap.
Qed.

Lemma sort_by_perm l : sort_by l ≡ₚ l.
Proof. induction l as [|x l IH]; simpl; [done|]. by rewrite insert_by_perm, IH. Qed.

Lemma elem_of_sort_by x l : x ∈ sort_by l ↔ x ∈ l.
Proof. by rewrite sort_by_perm. Qed.

Lemma length_sort_by l : length (sort_by l) = length l.
Proof. by rewrite sort_by_perm. Qed.

Context (leb_total : ∀ x y, leb x y = true ∨ leb y x = true).
Context (leb_trans : ∀ x y z, leb x y = true → leb y z = true → leb x z = true).

Lemma insert_by_sorted x l :
  StronglySorted (λ x y, leb x y = true) l →
  StronglySorted (λ x y, leb x y = true) (insert_by x l).
Proof using All.
  induction 1 as [|y l Hl IH Hy]; simpl; [repeat constructor|].
  destruct (leb x y) eqn:Hxy.
  - repeat constructor; auto. eapply Forall_impl; eauto.
  - constructor; [done|]. rewrite Forall_forall in *.
    intros z Hz. rewrite insert_by_perm in Hz.
    apply elem_of_cons in Hz as [->|Hz]; [|auto].
    destruct (leb_total x y); congruence.
Qed.

Lemma sort_by_sorted l : StronglySorted (λ x y, leb x y = true) (sort_by l).
Proof using All. induction l; simpl; [constructor|]. by apply insert_by_sorted. Qed.

(** A list that is sorted already is left alone. *)
Lemma sort_by_id l :
  StronglySorted (λ x y, leb x y = true) l → sort_by l = l.
Proof.
  induction 1 as [|x l Hl IH Hx]; simpl; [done|]. rewrite IH.
  destruct l as [|y l]; simpl; [done|].
  apply Forall_cons in Hx as [-> _]. done.
Qed.

(** If the order separates the elements, sorting forgets the original order. *)
Lemma sort_by_perm_eq l1 l2 :
  (∀ x y, x ∈ l1 → y ∈ l1 → leb x y = true → leb y x = true → x = y) →
  l1 ≡ₚ l2 → sort_by l1 = sort_by l2.
Proof using All.
  intros Hanti Hperm.
  eapply (StronglySorted_unique_strong (λ x y, leb x y = true));
    [|apply sort_by_sorted..|by rewrite !sort_by_perm].
  intros x y Hx Hy. rewrite sort_by_perm in Hx. rewrite sort_by_perm, <- Hperm in Hy.
  by apply Hanti.
Qed.
End stable_sort.

Lemma insert_by_ext {A} (r r' : A → A → bool) x l :
  (∀ y, y ∈ l → r x y = r' x y) → insert_by r x l = insert_by r' x l.
Proof. induction l as [|y l IH]; intros H; csimpl; [done|]. rewrite H by left. case_match; [done|]. by rewrite IH by set_solver. Qed.
Lemma sort_by_ext {A} (r r' : A → A → bool) l :
  (∀ x y, x ∈ l → y ∈ l → r x y = r' x y) → sort_by r l = sort_by r' l.
Proof.
  induction l as [|x l IH]; intros H; csimpl; [done|]. rewrite IH by set_solver. apply insert_by_ext.
  intros y Hy. rewrite sort_by_perm in Hy. set_solver.
Qed.
Lemma sort_by_fmap {A} (r : A → A → bool) f l :
  (∀ x y, r (f x) (f y) = r x y) → f <$> sort_by r l = sort_by r (f <$> l).
Proof.
  intros Hr. assert (∀ x k, f <$> insert_by r x k = insert_by r (f x) (f <$> k)) as Hi.
  { intros x k. induction k as [|y k IH]; csimpl; [done|]. rewrite Hr. case_match; csimpl; by rewrite ?IH. }
  induction l as [|x l IH]; csimpl; [done|]. by rewrite Hi, IH.
Qed.

(** ** Lexicographic comparison of strings and tuples *)

Definition string_leb (s t : string) : bool := String.leb s t.

Lemma string_leb_total s t : string_leb s t = true ∨ string_leb t s = true.
Proof. apply String.leb_total. Qed.
Lemma string_leb_trans s t u :
  string_leb s t = true → string_leb t u = true → string_leb s u = true.
Proof.
  unfold string_leb. rewrite <- !Is_true_true.
  intros. by trans t.
Qed.
Lemma string_leb_antisym s t :
  string_leb s t = true → string_leb t s = true → s = t.
Proof. apply String.leb_antisym. Qed.
Lemma string_leb_refl s : string_leb s s = true.
Proof. by destruct (string_leb_total s s). Qed.

(** [Vec::dedup]: an element equal to the one before it is removed. *)
Fixpoint dedup (l : list string) : list string :=
  match l with
  | x :: (y :: _) as l' => if decide (x = y) then dedup l' else x :: dedup l'
  | _ => l
  end.
Lemma dedup_cons x y l : dedup (x :: y :: l) = if decide (x = y) then dedup (y :: l) else x :: dedup (y :: l).
Proof. done. Qed.
Lemma elem_of_dedup z l : z ∈ dedup l ↔ z ∈ l.
Proof.
  induction l as [|x [|y l] IH]; [done..|]. rewrite dedup_cons. case_decide as Hxy.
  - subst. rewrite IH. rewrite !elem_of_cons. tauto.
  - rewrite elem_of_cons, IH, (elem_of_cons _ z x). done.
Qed.
(** After a sort no duplicate is left. *)
Lemma dedup_sorted l :
  StronglySorted (λ s t, string_leb s t = true) l → NoDup (dedup l).
Proof.
  induction l as [|x [|y l] IH]; intros Hs; [constructor|by apply NoDup_singleton|].
  apply StronglySorted_inv in Hs as [Hs Hx]. rewrite dedup_cons. case_decide as Hxy; [auto|].
  apply NoDup_cons. split; [|auto]. rewrite elem_of_dedup. intros Hin.
  apply StronglySorted_inv in Hs as [_ Hy]. apply Forall_cons in Hx as [Hle _].
  apply elem_of_cons in Hin as [->|Hin]; [done|].
  rewrite Forall_forall in Hy. apply Hxy, string_leb_antisym; [done|]. by apply Hy.
Qed.
Lemma sort_dedup_nodup l : NoDup (dedup (sort_by string_leb l)).
Proof. apply dedup_sorted, sort_by_sorted; [apply string_leb_total|apply string_leb_trans]. Qed.
Lemma elem_of_sort_dedup x l : x ∈ dedup (sort_by string_leb l) ↔ x ∈ l.
Proof. by rewrite elem_of_dedup, sort_by_perm. Qed.

(** Comparison of the key tuples used by the sorts: the first component that
    differs decides. *)
Definition lex_leb {A B} `{EqDecision A} (la : A → A → bool) (lb : B → B → bool)
    (x y : A * B) : bool :=
  if decide (x.1 = y.1) then lb x.2 y.2 else la x.1 y.1.

Lemma N_leb_total x y : N.leb x y = true ∨ N.leb y x = true.
Proof. rewrite !N.leb_le. lia. Qed.
Lemma N_leb_trans x y z : N.leb x y = true → N.leb y z = true → N.leb x z = true.
Proof. rewrite !N.leb_le. lia. Qed.
Lemma N_leb_anti x y : N.leb x y = true → N.leb y x = true → x = y.
Proof. rewrite !N.leb_le. lia. Qed.

Section lex.
Context {A B} `{EqDecision A} (la : A → A → bool) (lb : B → B → bool).
Context (la_total : ∀ x y, la x y = true ∨ la y x = true).
Context (la_trans : ∀ x y z, la x y = true → la y z = true → la x z = true).
Context (la_anti : ∀ x y, la x y = true → la y x = true → x = y).
Context (lb_total : ∀ x y, lb x y = true ∨ lb y x = true).
Context (lb_trans : ∀ x y z, lb x y = true → lb y z = true → lb x z = true).
Context (lb_anti : ∀ x y, lb x y = true → lb y x = true → x = y).

Lemma lex_leb_total x y : lex_leb la lb x y = true ∨ lex_leb la lb y x = true.
Proof using la_total lb_total. unfold lex_leb. repeat case_decide; try congruence; auto. Qed.
Lemma lex_leb_trans x y z :
  lex_leb la lb x y = true → lex_leb la lb y z = true → lex_leb la lb x z = true.
Proof using la_trans la_anti lb_trans.
  unfold lex_leb. repeat case_decide; eauto; try congruence.
  intros. exfalso. destruct x as [x1 ?], y as [y1 ?], z as [z1 ?]; simpl in *.
  naive_solver.
Qed.
Lemma lex_leb_anti x y : lex_leb la lb x y = true → lex_leb la lb y x = true → x = y.
Proof using la_anti lb_anti.
  unfold lex_leb. destruct x as [a b], y as [c d]; simpl.
  repeat case_decide; naive_solver.
Qed.
End lex.

(** ** Iteration over hash maps

    [HashMap] and [HashSet] iterate in an order the program cannot rely on.
    The model takes the order as an instance of this interface: any
    enumeration of the entries, each exactly once. *)
Class HashIter (K : Type) `{Countable K} := {
  map_iter : ∀ {V}, gmap K V → list (K * V);
  map_iter_perm : ∀ {V} (m : gmap K V), map_iter m ≡ₚ map_to_list m;
  set_iter : gset K → list K;
  set_iter_perm : ∀ X : gset K, set_iter X ≡ₚ elements X;
}.

(** One order, used to run the model on concrete inputs. *)
Definition map_to_list_iter (K : Type) `{Countable K} : HashIter K := {|
  map_iter V m := map_to_list m;
  map_iter_perm V m := reflexivity _;
  set_iter X := elements X;
  set_iter_perm X := reflexivity _;
|}.

Section hash_iter.
Context {K : Type} `{HashIter K}.

Definition map_keys {V} (m : gmap K V) : list K := (map_iter m).*1.
Definition map_values {V} (m : gmap K V) : list V := (map_iter m).*2.

Lemma elem_of_map_iter {V} (m : gmap K V) k v :
  (k, v) ∈ map_iter m ↔ m !! k = Some v.
Proof. by rewrite map_iter_perm, elem_of_map_to_list. Qed.
Lemma elem_of_map_keys {V} (m : gmap K V) k : k ∈ map_keys m ↔ is_Some (m !! k).
Proof.
  unfold map_keys. rewrite list_elem_of_fmap. split.
  - intros ([k' v] & -> & Hin). rewrite elem_of_map_iter in Hin. eauto.
  - intros [v Hv]. exists (k, v). by rewrite elem_of_map_iter.
Qed.
Lemma elem_of_map_values {V} (m : gmap K V) v :
  v ∈ map_values m ↔ ∃ k, m !! k = Some v.
Proof.
  unfold map_values. rewrite list_elem_of_fmap. split.
  - intros ([k v'] & -> & Hin). rewrite elem_of_map_iter in Hin. eauto.
  - intros [k Hk]. exists (k, v). by rewrite elem_of_map_iter.
Qed.
Lemma map_keys_NoDup {V} (m : gmap K V) : NoDup (map_keys m).
Proof. unfold map_keys. rewrite map_iter_perm. apply NoDup_fst_map_to_list. Qed.
Lemma length_map_keys {V} (m : gmap K V) : length (map_keys m) = size m.
Proof. unfold map_keys. by rewrite length_fmap, map_iter_perm, length_map_to_list. Qed.
Lemma elem_of_set_iter (X : gset K) x : x ∈ set_iter X ↔ x ∈ X.
Proof. by rewrite set_iter_perm, elem_of_elements. Qed.
End hash_iter.

Lemma map_values_order {K V} `{Countable K} (I1 I2 : HashIter K) (m : gmap K V) :
  map_values (H0 := I1) m ≡ₚ map_values (H0 := I2) m.
Proof. unfold map_values. by rewrite !map_iter_perm. Qed.

(** [map.entry(k).or_default().push(x)] *)
Definition push_at {K A} `{Countable K} (k : K) (x : A) (m : gmap K (list A))
    : gmap K (list A) :=
  <[k := default [] (m !! k) ++ [x]]> m.

(** [*map.entry(k).or_insert(0) += 1] *)
Definition incr_at {K} `{Countable K} (k : K) (m : gmap K nat) : gmap K nat :=
  <[k := S (default 0%nat (m !! k))]> m.

(** The entry of [k] in a multi-map built by pushing one element per item. *)
Lemma lookup_push_fold {K A B} `{Countable K} (key : B → K) (val : B → A)
    (l : list B) (m : gmap K (list A)) k :
  default [] (foldl (λ m b, push_at (key b) (val b) m) m l !! k) =
  default [] (m !! k) ++ (val <$> filter (λ b, key b = k) l).
Proof.
  revert m. induction l as [|b l IH]; intros m; simpl; [by rewrite app_nil_r|].
  rewrite IH. unfold push_at. rewrite filter_cons.
  destruct (decide (key b = k)) as [<-|Hne].
  - rewrite lookup_insert_eq; simpl. by rewrite <- app_assoc.
  - by rewrite lookup_insert_ne.
Qed.

Lemma lookup_incr_fold {K B} `{Countable K} (key : B → K) (l : list B)
    (m : gmap K nat) k :
  default 0%nat (foldl (λ m b, incr_at (key b) m) m l !! k) =
  (default 0%nat (m !! k) + length (filter (λ b, key b = k) l))%nat.
Proof.
  revert m. induction l as [|b l IH]; intros m; simpl; [lia|].
  rewrite IH. unfold incr_at. rewrite filter_cons.
  destruct (decide (key b = k)) as [<-|Hne].
  - rewrite lookup_insert_eq; simpl. lia.
  - by rewrite lookup_insert_ne.
Qed.
