(* ===== verification/Text.v ===== *)
(** * Rust string operations

    A Rust [str] is its UTF-8 bytes, a [string] of Rocq characters. The
    operations the router applies to strings ([split], [trim], [find],
    [parse::<u64>], padding) are written out here, with the laws the
    components need. *)
From S2P Require Import Prelude.
From Stdlib Require Import Ascii.
Open Scope stdpp_scope.
Open Scope Z_scope.

Fixpoint str_drop (n : nat) (s : string) : string :=
  match n, s with
  | O, _ => s
  | S n, String _ s => str_drop n s
  | S _, "" => ""
  end.

Fixpoint str_repeat (c : ascii) (n : nat) : string :=
  match n with O => "" | S n => String c (str_repeat c n) end.

Fixpoint str_all (P : ascii → bool) (s : string) : bool :=
  match s with "" => true | String c s => P c && str_all P s end.

(** [starts_with] *)
Fixpoint starts_with (p s : string) : bool :=
  match p, s with
  | "", _ => true
  | String a p, String b s => bool_decide (a = b) && starts_with p s
  | String _ _, "" => false
  end.

(** [ends_with] *)
Definition ends_with (suf s : string) : bool :=
  (String.length suf <=? String.length s)%nat
  && bool_decide (str_drop (String.length s - String.length suf) s = suf).

(** [strip_suffix(c)] for a single character. *)
Fixpoint strip_suffix_char (c : ascii) (s : string) : option string :=
  match s with
  | "" => None
  | String a "" => if decide (a = c) then Some "" else None
  | String a s => String a <$> strip_suffix_char c s
  end.

(** [strip_prefix] *)
Definition strip_prefix (p s : string) : option string :=
  if starts_with p s then Some (str_drop (String.length p) s) else None.

(** [find]: the byte offset of the first occurrence. *)
Fixpoint str_find (seg s : string) : option nat :=
  if starts_with seg s then Some O else
  match s with
  | "" => None
  | String _ s => S <$> str_find seg s
  end.

(** [contains] *)
Definition str_contains (seg s : string) : bool := bool_decide (is_Some (str_find seg s)).

(** [to_ascii_lowercase] *)
Definition ascii_lower (c : ascii) : ascii :=
  let n := nat_of_ascii c in
  if ((65 <=? n) && (n <=? 90))%nat then ascii_of_nat (n + 32) else c.
Fixpoint to_ascii_lowercase (s : string) : string :=
  match s with "" => "" | String c s => String (ascii_lower c) (to_ascii_lowercase s) end.

(** [join(sep)] *)
Fixpoint str_join (sep : string) (l : list string) : string :=
  match l with
  | [] => ""
  | [s] => s
  | s :: l => s +:+ sep +:+ str_join sep l
  end.

(** [split(c)] *)
Fixpoint split_on (c : ascii) (s : string) : list string :=
  match s with
  | "" => [""]
  | String a s =>
      if decide (a = c) then "" :: split_on c s
      else match split_on c s with
           | [] => [String a ""]
           | w :: ws => String a w :: ws
           end
  end.

(** [split_once(c)] *)
Fixpoint split_once (c : ascii) (s : string) : option (string * string) :=
  match s with
  | "" => None
  | String a s =>
      if decide (a = c) then Some ("", s)
      else '(p, q) ← split_once c s; Some (String a p, q)
  end.

(** [trim_end_matches(c)] *)
Fixpoint trim_end_char (c : ascii) (s : string) : string :=
  match s with
  | "" => ""
  | String a s =>
      let r := trim_end_char c s in
      if decide (r = "" ∧ a = c) then "" else String a r
  end.

(** [format!("{:0<n}", s)] and [format!("{:0n}", ..)]: padding to a width. *)
Definition pad_right (c : ascii) (n : nat) (s : string) : string :=
  s +:+ str_repeat c (n - String.length s).
Definition pad_left (c : ascii) (n : nat) (s : string) : string :=
  str_repeat c (n - String.length s) +:+ s.

(** [str::is_char_boundary], on valid UTF-8. *)
Definition is_char_boundary (n : nat) (s : string) : bool :=
  match String.get n s with
  | None => (n =? String.length s)%nat
  | Some c => negb ((128 <=? N_of_ascii c)%N && (N_of_ascii c <? 192)%N)
  end.

(** ** [trim]: the White_Space characters of Unicode, UTF-8 encoded. *)
Definition bytes (l : list nat) : string :=
  foldr (λ n s, String (ascii_of_nat n) s) "" l.

Definition white_space : list string :=
  bytes <$> [[9]; [10]; [11]; [12]; [13]; [32]; [194; 133]; [194; 160];
    [225; 154; 128]; [226; 128; 128]; [226; 128; 129]; [226; 128; 130];
    [226; 128; 131]; [226; 128; 132]; [226; 128; 133]; [226; 128; 134];
    [226; 128; 135]; [226; 128; 136]; [226; 128; 137]; [226; 128; 138];
    [226; 128; 168]; [226; 128; 169]; [226; 128; 175]; [226; 129; 159];
    [227; 128; 128]]%nat.

(** Drops, as long as possible, any of the words [ws] from the front. *)
Fixpoint drop_words (fuel : nat) (ws : list string) (s : string) : string :=
  match fuel with
  | O => s
  | S fuel =>
      match list_find (λ w, starts_with w s = true) ws with
      | Some (_, w) => drop_words fuel ws (str_drop (String.length w) s)
      | None => s
      end
  end.

Definition trim_start (s : string) : string :=
  drop_words (String.length s) white_space s.
Definition trim_end (s : string) : string :=
  String.rev (drop_words (String.length s) (String.rev <$> white_space)
                (String.rev s)).
Definition trim (s : string) : string := trim_end (trim_start s).

(** ** [str::parse::<u64>] *)
Inductive ParseIntError := PIE_Empty | PIE_InvalidDigit | PIE_PosOverflow.

Definition to_digit (c : ascii) : option Z := Z.of_nat <$> Ascii.is_nat c.
Definition is_ascii_digit (c : ascii) : bool := bool_decide (is_Some (to_digit c)).

Fixpoint parse_digits (acc : Z) (s : string) : result ParseIntError Z :=
  match s with
  | "" => Ok acc
  | String c s =>
      d ← ok_or PIE_InvalidDigit (to_digit c);
      m ← ok_or PIE_PosOverflow (acc *? 10)%u64;
      a ← ok_or PIE_PosOverflow (m +? d)%u64;
      parse_digits a s
  end.

Definition parse_u64 (s : string) : result ParseIntError Z :=
  match s with
  | "" => Err PIE_Empty
  | String a r =>
      if decide (a = "+"%char) then
        match r with "" => Err PIE_InvalidDigit | _ => parse_digits 0 r end
      else parse_digits 0 s
  end.

(** ** Laws *)
Lemma str_app_nil_r s : s +:+ "" = s.
Proof. induction s as [|c s IH]; simpl; [done|]. unfold String.app in *; simpl. by f_equal. Qed.
Lemma str_app_cons c s t : String c s +:+ t = String c (s +:+ t).
Proof. done. Qed.
Lemma str_app_inv_head s t u : s +:+ t = s +:+ u → t = u.
Proof. induction s as [|c s IH]; [done|]. rewrite !str_app_cons. intros [= H]. by apply IH. Qed.
Lemma str_app_assoc s t u : (s +:+ t) +:+ u = s +:+ (t +:+ u).
Proof. induction s as [|c s IH]; [done|]. by rewrite !str_app_cons, IH. Qed.
Lemma str_length_app s t :
  String.length (s +:+ t) = (String.length s + String.length t)%nat.
Proof. induction s as [|c s IH]; [done|]. rewrite str_app_cons. simpl. by rewrite IH. Qed.
Lemma str_length_repeat c n : String.length (str_repeat c n) = n.
Proof. induction n; simpl; congruence. Qed.
Lemma str_repeat_app c n m : str_repeat c n +:+ str_repeat c m = str_repeat c (n + m).
Proof. induction n as [|n IH]; [done|]. simpl. by rewrite str_app_cons, IH. Qed.
Lemma str_all_app P s t : str_all P (s +:+ t) = str_all P s && str_all P t.
Proof.
  induction s as [|c s IH]; [done|]. rewrite str_app_cons. simpl.
  by rewrite IH, andb_assoc.
Qed.
Lemma str_all_impl (P Q : ascii → bool) s :
  (∀ c, P c = true → Q c = true) → str_all P s = true → str_all Q s = true.
Proof.
  intros HPQ. induction s as [|c s IH]; simpl; [done|].
  rewrite !andb_true_iff. intuition.
Qed.
Lemma str_all_repeat P c n : P c = true → str_all P (str_repeat c n) = true.
Proof. intros HP. induction n; simpl; [done|]. by rewrite HP. Qed.

(** Splitting at a character: the first field holds none of it. *)
Lemma split_on_fresh c s :
  str_all (λ a, negb (bool_decide (a = c))) s = true → split_on c s = [s].
Proof.
  induction s as [|a s IH]; simpl; [done|].
  intros [Ha Hs]%andb_true_iff. rewrite (IH Hs).
  case_decide; [|done]. by rewrite bool_decide_true in Ha.
Qed.
Lemma split_on_app c s t :
  str_all (λ a, negb (bool_decide (a = c))) s = true →
  split_on c (s +:+ String c t) = s :: split_on c t.
Proof.
  induction s as [|a s IH].
  - intros _. simpl. by rewrite decide_True.
  - rewrite str_app_cons. simpl. intros [Ha Hs]%andb_true_iff. rewrite (IH Hs).
    case_decide; [|done]. by rewrite bool_decide_true in Ha.
Qed.

(** Removing trailing characters and padding with them again. *)
Lemma trim_end_char_pad c s :
  trim_end_char c s
  +:+ str_repeat c (String.length s - String.length (trim_end_char c s)) = s.
Proof.
  induction s as [|a s IH]; [done|]. simpl. case_decide as Hc; simpl.
  - destruct Hc as [Hr ->]. rewrite Hr in IH. simpl in IH.
    rewrite Nat.sub_0_r in IH. change ("" +:+ ?x) with x in *.
    by rewrite IH.
  - rewrite str_app_cons. by rewrite IH.
Qed.
Lemma trim_end_char_length c s :
  (String.length (trim_end_char c s) <= String.length s)%nat.
Proof. induction s; simpl; [lia|]. case_decide; simpl; lia. Qed.
Lemma trim_end_char_all P c s :
  str_all P s = true → str_all P (trim_end_char c s) = true.
Proof.
  intros H. rewrite <- (trim_end_char_pad c s), str_all_app in H.
  by apply andb_true_iff in H as [? _].
Qed.

(** Padding to a smaller width first changes nothing. *)
Lemma pad_right_pad_trim c j k s :
  String.length s = k → (j <= k)%nat →
  pad_right c k (pad_right c j (trim_end_char c s)) = s.
Proof.
  intros Hs Hjk. unfold pad_right.
  rewrite str_app_assoc, str_repeat_app, str_length_app, str_length_repeat.
  etrans; [|apply (trim_end_char_pad c)]. do 2 f_equal.
  pose proof (trim_end_char_length c s). lia.
Qed.

(** Text without white space is not trimmed. *)
Definition is_plain (c : ascii) : bool :=
  let n := nat_of_ascii c in ((33 <=? n) && (n <=? 126))%nat.

Definition starts_odd (w : string) : bool :=
  match w with "" => false | String a _ => negb (is_plain a) end.

Lemma drop_words_plain fuel ws c s :
  forallb starts_odd ws = true →
  is_plain c = true → drop_words fuel ws (String c s) = String c s.
Proof.
  intros Hws Hc. destruct fuel; simpl; [done|].
  destruct (list_find _ ws) as [[i w]|] eqn:Hf; [|done].
  apply list_find_Some in Hf as (Hi & Hw & _).
  rewrite forallb_forall in Hws.
  specialize (Hws w (proj1 (list_elem_of_In _ _) (list_elem_of_lookup_2 _ _ _ Hi))).
  destruct w as [|a r]; [done|]. simpl in Hw, Hws.
  apply andb_true_iff in Hw as [->%bool_decide_eq_true _]. by rewrite Hc in Hws.
Qed.

Lemma rev_app_spec s t : String.rev_app s t = String.rev s +:+ t.
Proof.
  unfold String.rev. revert t. induction s as [|c s IH]; intros t; [done|].
  simpl. rewrite IH, (IH (String c "")), str_app_assoc. done.
Qed.
Lemma rev_cons c s : String.rev (String c s) = String.rev s +:+ String c "".
Proof. unfold String.rev at 1. simpl. apply rev_app_spec. Qed.
Lemma rev_str_app s t : String.rev (s +:+ t) = String.rev t +:+ String.rev s.
Proof.
  induction s as [|c s IH]; [by rewrite str_app_nil_r|].
  by rewrite str_app_cons, !rev_cons, IH, str_app_assoc.
Qed.
Lemma str_rev_involutive s : String.rev (String.rev s) = s.
Proof.
  induction s as [|c s IH]; [done|]. by rewrite rev_cons, rev_str_app, IH.
Qed.
Lemma str_all_rev P s : str_all P (String.rev s) = str_all P s.
Proof.
  induction s as [|c s IH]; [done|]. rewrite rev_cons, str_all_app, IH. simpl.
  by rewrite andb_true_r, andb_comm.
Qed.

Lemma trim_plain s : str_all is_plain s = true → trim s = s.
Proof.
  intros Hs. assert (trim_start s = s) as Hts.
  { destruct s as [|c s]; [done|]. simpl in Hs. apply andb_true_iff in Hs as [Hc _].
    by apply drop_words_plain. }
  unfold trim. rewrite Hts. unfold trim_end.
  rewrite <- (str_rev_involutive s) at 3. f_equal.
  rewrite <- str_all_rev in Hs. destruct (String.rev s) as [|c r] eqn:Hr.
  { apply (f_equal String.rev) in Hr. rewrite str_rev_involutive in Hr. by subst. }
  simpl in Hs. apply andb_true_iff in Hs as [Hc _].
  by apply drop_words_plain.
Qed.

(** Decimal printing and parsing. *)
Lemma to_digit_pretty n : (n < 10)%N → to_digit (pretty_N_char n) = Some (Z.of_N n).
Proof.
  intros Hn. assert (n = 0 ∨ n = 1 ∨ n = 2 ∨ n = 3 ∨ n = 4 ∨ n = 5 ∨ n = 6 ∨
    n = 7 ∨ n = 8 ∨ n = 9)%N as Hd by lia.
  by destruct_or! Hd; subst.
Qed.

Lemma parse_digits_pretty_go n s :
  Z.of_N n ≤ u64_max →
  parse_digits 0 (pretty_N_go n s) = parse_digits (Z.of_N n) s.
Proof.
  revert s. induction (N.lt_wf_0 n) as [n _ IH]; intros s Hn.
  destruct (decide (n = 0)%N) as [->|Hn0]; [by rewrite pretty_N_go_0|].
  rewrite pretty_N_go_step by lia.
  assert (n `div` 10 < n)%N by (apply N.div_lt; lia).
  rewrite IH by lia.
  pose proof (N.div_mod n 10 ltac:(lia)) as Hdm.
  pose proof (N.mod_lt n 10 ltac:(lia)) as Hlt.
  simpl. rewrite (to_digit_pretty _ Hlt). simpl.
  rewrite N2Z.inj_div.
  assert (Z.of_N n = 10 * (Z.of_N n `div` 10) + Z.of_N (n `mod` 10)) as Hz
    by (change 10 with (Z.of_N 10); rewrite <- (N2Z.inj_div n 10); lia).
  unfold u64_checked_mul. change (Z.of_N 10) with 10.
  pose proof (N2Z.is_nonneg (n `mod` 10)).
  rewrite (proj2 (Z.leb_le _ u64_max)) by lia. simpl.
  unfold u64_checked_add. rewrite (proj2 (Z.leb_le _ u64_max)) by lia. simpl.
  f_equal. lia.
Qed.

Lemma pretty_N_go_head n s :
  (0 < n)%N → ∃ c r, pretty_N_go n s = String c r ∧ is_ascii_digit c = true.
Proof.
  revert s. induction (N.lt_wf_0 n) as [n _ IH]; intros s Hn.
  rewrite pretty_N_go_step by lia.
  destruct (decide (n `div` 10 = 0)%N) as [->|].
  - rewrite pretty_N_go_0. eexists _, _; split; [done|].
    unfold is_ascii_digit. rewrite to_digit_pretty by (apply N.mod_lt; lia). done.
  - apply IH; [apply N.div_lt; lia|by apply N.neq_0_lt_0].
Qed.

Lemma pretty_N_go_digits n s :
  str_all is_ascii_digit s = true → str_all is_ascii_digit (pretty_N_go n s) = true.
Proof.
  revert s. induction (N.lt_wf_0 n) as [n _ IH]; intros s Hs.
  destruct (decide (n = 0)%N) as [->|]; [by rewrite pretty_N_go_0|].
  rewrite pretty_N_go_step by lia. apply IH; [apply N.div_lt; lia|].
  simpl. rewrite Hs, andb_true_r. unfold is_ascii_digit.
  by rewrite to_digit_pretty by (apply N.mod_lt; lia).
Qed.

Lemma pretty_digits (n : N) : str_all is_ascii_digit (pretty n) = true.
Proof.
  unfold pretty, pretty_N. case_decide; [done|]. by apply pretty_N_go_digits.
Qed.

Lemma parse_digits_pretty (n : N) :
  Z.of_N n ≤ u64_max → parse_digits 0 (pretty n) = Ok (Z.of_N n).
Proof.
  intros Hn. unfold pretty, pretty_N. case_decide as H0; [by subst|].
  by rewrite parse_digits_pretty_go.
Qed.

Lemma parse_u64_digits c s :
  is_ascii_digit c = true → parse_u64 (String c s) = parse_digits 0 (String c s).
Proof. intros Hc. unfold parse_u64. case_decide; [by subst|done]. Qed.

Lemma parse_u64_pretty (n : N) :
  Z.of_N n ≤ u64_max → parse_u64 (pretty n) = Ok (Z.of_N n).
Proof.
  intros Hn. rewrite <- (parse_digits_pretty n Hn).
  unfold pretty, pretty_N. case_decide; [done|].
  destruct (pretty_N_go_head n "" ltac:(lia)) as (c & r & -> & Hc).
  by apply parse_u64_digits.
Qed.

Lemma parse_digits_zeros k s :
  parse_digits 0 (str_repeat "0" k +:+ s) = parse_digits 0 s.
Proof. induction k as [|k IH]; [done|]. etrans; [|exact IH]. done. Qed.

Lemma is_ascii_digit_plain c : is_ascii_digit c = true → is_plain c = true.
Proof. by destruct c as [[] [] [] [] [] [] [] []]. Qed.
Lemma is_ascii_digit_not_dot c :
  is_ascii_digit c = true → negb (bool_decide (c = "."%char)) = true.
Proof. by destruct c as [[] [] [] [] [] [] [] []]. Qed.

(** The printed form of a number below [10^k] has at most [k] characters. *)
Lemma pretty_N_go_length n k s :
  (n < 10 ^ N.of_nat k)%N →
  (String.length (pretty_N_go n s) <= k + String.length s)%nat.
Proof.
  revert n s. induction k as [|k IH]; intros n s Hn.
  - assert (n = 0)%N as -> by (simpl in Hn; lia). by rewrite pretty_N_go_0.
  - destruct (decide (n = 0)%N) as [->|]; [rewrite pretty_N_go_0; lia|].
    rewrite pretty_N_go_step by lia.
    etrans; [apply IH|simpl; lia].
    apply N.Div0.div_lt_upper_bound.
    rewrite Nat2N.inj_succ, N.pow_succ_r' in Hn. lia.
Qed.
Lemma pretty_length n k :
  (0 < k)%nat → (n < 10 ^ N.of_nat k)%N → (String.length (pretty n) <= k)%nat.
Proof.
  intros Hk Hn. unfold pretty, pretty_N. case_decide; [simpl; lia|].
  pose proof (pretty_N_go_length n k "" Hn). simpl in *. lia.
Qed.

(** ** Prefixes, suffixes and search *)
Lemma starts_with_spec p s : starts_with p s = true ↔ ∃ r, s = p +:+ r.
Proof.
  revert s. induction p as [|a p IH]; intros s; simpl.
  { split; [intros _; by exists s|done]. }
  destruct s as [|b s]; simpl.
  { split; [done|]. by intros [r Hr]. }
  rewrite andb_true_iff, bool_decide_eq_true, IH. split.
  - intros [-> [r ->]]. by exists r.
  - intros [r Hr]. rewrite str_app_cons in Hr. simplify_eq. eauto.
Qed.

Lemma starts_with_app p r : starts_with p (p +:+ r) = true.
Proof. apply starts_with_spec. eauto. Qed.

Lemma str_drop_app p r : str_drop (String.length p) (p +:+ r) = r.
Proof. induction p as [|a p IH]; [done|]. rewrite str_app_cons. simpl. done. Qed.

Lemma starts_with_drop p s : starts_with p s = true → s = p +:+ str_drop (String.length p) s.
Proof. intros [r ->]%starts_with_spec. by rewrite str_drop_app. Qed.

Lemma str_app_inj_l s t u : s +:+ t = s +:+ u → t = u.
Proof.
  induction s as [|c s IH]; [done|]. rewrite !str_app_cons. intros [= H]. by apply IH.
Qed.

Lemma str_drop_split n s :
  (n <= String.length s)%nat →
  ∃ p, s = p +:+ str_drop n s ∧ String.length p = n.
Proof.
  revert s. induction n as [|n IH]; intros s Hn; simpl; [by exists ""|].
  destruct s as [|a s]; simpl in *; [lia|].
  destruct (IH s) as (p & Hp & Hl); [lia|]. exists (String a p).
  rewrite str_app_cons. simpl. split; congruence.
Qed.

Lemma ends_with_spec q s : ends_with q s = true ↔ ∃ p, s = p +:+ q.
Proof.
  unfold ends_with. rewrite andb_true_iff, bool_decide_eq_true, Nat.leb_le. split.
  - intros [Hl Hd]. destruct (str_drop_split (String.length s - String.length q) s) as (p & Hp & _);
      [lia|]. exists p. by rewrite Hd in Hp.
  - intros [p ->]. rewrite str_length_app. split; [lia|].
    replace (String.length p + String.length q - String.length q)%nat with (String.length p) by lia.
    apply str_drop_app.
Qed.

(** What follows the first occurrence of [seg] ends every decomposition at an
    occurrence of [seg]: the first match leaves the most behind. *)
Lemma str_find_first seg s m r :
  s = m +:+ seg +:+ r →
  ∃ pos m', str_find seg s = Some pos ∧ str_drop (pos + String.length seg) s = m' +:+ r.
Proof.
  revert s. induction m as [|a m IH]; intros s Hs.
  - exists 0%nat, "". destruct s as [|b s'].
    + destruct seg; [|done]. simpl. by destruct r.
    + cbn [str_find]. rewrite Hs. change ("" +:+ seg +:+ r) with (seg +:+ r).
      rewrite starts_with_app. split; [done|]. simpl. apply str_drop_app.
  - rewrite str_app_cons in Hs. subst s. cbn [str_find].
    destruct (starts_with seg (String a (m +:+ seg +:+ r))) eqn:Hst.
    + exists 0%nat. simpl. apply starts_with_spec in Hst as [q Hq]. rewrite Hq, str_drop_app.
      assert (String.length (String a m) + String.length r = String.length q)%nat as Hlen.
      { apply (f_equal String.length) in Hq. simpl in *. rewrite !str_length_app in Hq. lia. }
      destruct (str_drop_split (String.length (String a m)) q) as (m' & Hm' & Hml); [lia|].
      exists m'. split; [done|]. rewrite Hm' at 1. f_equal.
      assert (str_drop (String.length seg + String.length (String a m)) (seg +:+ q) = r) as Hr.
      { rewrite <- Hq. change (String a (m +:+ seg +:+ r)) with (String a m +:+ seg +:+ r).
        rewrite <- str_app_assoc.
        replace (String.length seg + String.length (String a m))%nat
          with (String.length (String a m +:+ seg)) by (rewrite str_length_app; lia).
        apply str_drop_app. }
      rewrite Hm', <- str_app_assoc in Hr.
      replace (String.length seg + String.length (String a m))%nat
        with (String.length (seg +:+ m')) in Hr by (rewrite str_length_app; lia).
      by rewrite str_drop_app in Hr.
    + destruct (IH _ eq_refl) as (pos & m' & Hf & Hd). rewrite Hf. simpl. eauto.
Qed.

Lemma str_find_sound seg s pos :
  str_find seg s = Some pos →
  ∃ m, s = m +:+ seg +:+ str_drop (pos + String.length seg) s.
Proof.
  revert pos. induction s as [|a s IH]; intros pos; cbn [str_find];
    destruct (starts_with seg _) eqn:Hst.
  - intros [= <-]. exists "". by apply starts_with_drop.
  - done.
  - intros [= <-]. exists "". by apply starts_with_drop.
  - intros (p & Hp & ->)%fmap_Some. destruct (IH p Hp) as [m Hm].
    exists (String a m). rewrite str_app_cons. simpl. by rewrite <- Hm.
Qed.

Lemma split_once_spec c s :
  match split_once c s with
  | Some (p, r) => s = p +:+ String c r ∧ str_all (λ a, negb (bool_decide (a = c))) p = true
  | None => str_all (λ a, negb (bool_decide (a = c))) s = true
  end.
Proof.
  induction s as [|a s IH]; simpl; [done|].
  case_decide as Ha; [by subst|].
  destruct (split_once c s) as [[p r]|]; simpl.
  - destruct IH as [-> Hp]. split; [done|]. by rewrite bool_decide_eq_false_2, Hp.
  - by rewrite bool_decide_eq_false_2.
Qed.

Lemma strip_suffix_char_spec c s :
  match strip_suffix_char c s with
  | Some p => s = p +:+ String c ""
  | None => ∀ p, s ≠ p +:+ String c ""
  end.
Proof.
  induction s as [|a s IH]; simpl; [by intros []|].
  destruct s as [|b s].
  - case_decide as Ha; [by subst|]. intros [|d p]; [by intros [= ->]|].
    rewrite str_app_cons. intros [= _ H]. by destruct p.
  - destruct (strip_suffix_char c (String b s)) as [p|]; simpl.
    + by rewrite IH.
    + intros [|d p]; [done|]. rewrite str_app_cons. intros [= _ H]. by apply (IH p).
Qed.

Lemma str_app_inj_r s t u : s +:+ u = t +:+ u → s = t.
Proof.
  intros Heq. apply (f_equal String.rev) in Heq. rewrite !rev_str_app in Heq.
  apply str_app_inj_l, (f_equal String.rev) in Heq. by rewrite !str_rev_involutive in Heq.
Qed.
