(* ===== verification/Money.v ===== *)
(** * NanoUSD: exact money ([crates/fusion-core/src/monetary.rs])

    An amount is a [u64] count of nano-dollars. The module follows the
    source: constants, checked and saturating arithmetic, the decimal parser
    and printer, the conversion from a binary64 float and the deserializer.
    Error strings built with [format!] are represented by a constructor with
    the same arguments. Floats are the binary64 numbers of [SpecFloat]. *)
From S2P Require Import Prelude Text.
From Stdlib Require Import Ascii.
From Stdlib Require Import Floats.SpecFloat.
Open Scope stdpp_scope.
Open Scope Z_scope.

(** [pub struct NanoUSD(pub u64)] *)
Record NanoUSD := mk_NanoUSD { nanos : Z }.

#[global] Instance NanoUSD_eq_dec : EqDecision NanoUSD.
Proof. solve_decision. Defined.

Definition valid_usd (x : NanoUSD) : Prop := is_u64 (nanos x).

Inductive MoneyError :=
| NonFinite (usd : spec_float)
| Negative (usd : spec_float)
| Overflows (usd : spec_float)
| ExceedsNanoPrecision (usd : spec_float)
| NegativeNano (v : Z)
| NanoOverflow (v : Z)
| NegativeOrOverflowing (v : Z)
| EmptyString
| MultipleDecimalPoints
| InvalidIntegerPart (e : ParseIntError)
| PrecisionExceeds (frac : string)
| InvalidFractionChars
| InvalidFraction (e : ParseIntError)
| OverflowConverting.

(** ** Arithmetic *)
Definition ZERO : NanoUSD := mk_NanoUSD 0.
Definition ONE_MICRO : NanoUSD := mk_NanoUSD 1000.
Definition ONE_CENT : NanoUSD := mk_NanoUSD 10000000.
Definition ONE_DOLLAR : NanoUSD := mk_NanoUSD 1000000000.

Definition from_nanos (n : Z) : NanoUSD := mk_NanoUSD n.
Definition as_nanos (x : NanoUSD) : Z := nanos x.

Definition from_micros (micros : Z) : option NanoUSD :=
  mk_NanoUSD <$> (micros *? 1000)%u64.
Definition as_micros (x : NanoUSD) : Z := nanos x `div` 1000.

Definition checked_add (x y : NanoUSD) : option NanoUSD :=
  mk_NanoUSD <$> (nanos x +? nanos y)%u64.
Definition saturating_add (x y : NanoUSD) : NanoUSD :=
  mk_NanoUSD (nanos x +^ nanos y)%u64.
Definition checked_sub (x y : NanoUSD) : option NanoUSD :=
  mk_NanoUSD <$> (nanos x -? nanos y)%u64.
Definition saturating_sub (x y : NanoUSD) : NanoUSD :=
  mk_NanoUSD (nanos x -^ nanos y)%u64.
Definition checked_mul (x : NanoUSD) (k : Z) : option NanoUSD :=
  mk_NanoUSD <$> (nanos x *? k)%u64.
Definition saturating_mul (x : NanoUSD) (k : Z) : NanoUSD :=
  mk_NanoUSD (nanos x *^ k)%u64.

(** [impl Add] and [impl Sub]: a warning is logged on overflow, and the result
    saturates; the boolean says whether the warning fires. *)
Definition usd_add (x y : NanoUSD) : NanoUSD * bool :=
  (saturating_add x y, bool_decide (checked_add x y = None)).
Definition usd_sub (x y : NanoUSD) : NanoUSD * bool :=
  (saturating_sub x y, bool_decide (checked_sub x y = None)).
(** [impl AddAssign], [impl SubAssign]. *)
Definition add_assign (x y : NanoUSD) : NanoUSD := (usd_add x y).1.
Definition sub_assign (x y : NanoUSD) : NanoUSD := (usd_sub x y).1.

(** ** Decimal strings *)
Definition NANOS_PER_USD : Z := 1000000000.

Definition checked_from_decimal_usd (usd_str : string) : result MoneyError NanoUSD :=
  let s := trim usd_str in
  if decide (s = "") then Err EmptyString else
  let parts := split_on "." s in
  if (2 <? length parts)%nat then Err MultipleDecimalPoints else
  let dollars_str := default "" (parts !! 0%nat) in
  dollars ← (if decide (dollars_str = "") then Ok 0
             else map_err InvalidIntegerPart (parse_u64 dollars_str));
  nanos_from_frac ←
    match parts !! 1%nat with
    | Some frac_str =>
        if (9 <? String.length frac_str)%nat then Err (PrecisionExceeds frac_str) else
        if negb (str_all is_ascii_digit frac_str) then Err InvalidFractionChars else
        let padded_frac := pad_right "0" 9 frac_str in
        map_err InvalidFraction (parse_u64 padded_frac)
    | None => Ok 0
    end;
  total_nanos ← ok_or OverflowConverting
    (d_nanos ← (dollars *? NANOS_PER_USD)%u64; (d_nanos +? nanos_from_frac)%u64);
  Ok (mk_NanoUSD total_nanos).

(** [{n}] of a [u64]. *)
Definition fmt_u64 (n : Z) : string := pretty (Z.to_N n).

Definition to_decimal_usd (x : NanoUSD) : string :=
  let dollars := nanos x `div` NANOS_PER_USD in
  let n := nanos x `mod` NANOS_PER_USD in
  if decide (n = 0) then fmt_u64 dollars +:+ ".00" else
  let s := pad_left "0" 9 (fmt_u64 n) in
  let trimmed := trim_end_char "0" s in
  let frac := if (String.length trimmed <? 2)%nat then pad_right "0" 2 trimmed
              else trimmed in
  fmt_u64 dollars +:+ "." +:+ frac.

(** [impl Display]. *)
Definition usd_display (x : NanoUSD) : string := "$" +:+ to_decimal_usd x.

(** ** Conversion from a float *)
Definition f64 := spec_float.
Definition f64_mul : f64 → f64 → f64 := SFmul 53 1024.
Definition f64_sub : f64 → f64 → f64 := SFsub 53 1024.
Definition is_finite (x : f64) : bool :=
  match x with S754_zero _ | S754_finite _ _ _ => true | _ => false end.

(** [f64::round]: half away from zero. *)
Definition f64_round (x : f64) : f64 :=
  match x with
  | S754_finite s m e =>
      if (0 <=? e)%Z then x else
      let q := (Zpos m + 2 ^ (- e - 1)) `div` 2 ^ (- e) in
      match binary_normalize 53 1024 q 0 false with
      | S754_zero _ => S754_zero s
      | S754_finite _ m' e' => S754_finite s m' e'
      | y => y
      end
  | _ => x
  end.

(** [n as f64] and the operators, rounding to nearest, ties to even. *)
Definition f64_of_int (n : Z) : f64 := binary_normalize 53 1024 n 0 false.
Definition f64_add : f64 → f64 → f64 := SFadd 53 1024.
Definition f64_div : f64 → f64 → f64 := SFdiv 53 1024.
(** [x as u64]: truncation, saturating; NaN becomes 0. *)
Definition f64_as_u64 (x : f64) : Z :=
  match x with
  | S754_finite false m e =>
      clamp 0 u64_max (if (0 <=? e)%Z then Zpos m * 2 ^ e else Zpos m `div` 2 ^ (- e))
  | S754_infinity false => u64_max
  | _ => 0
  end.

Definition f64_1e9 : f64 := S754_finite false 8388608000000000 (-23).
Definition f64_1e_6 : f64 := S754_finite false 4722366482869645 (-72).
(** [u64::MAX as f64] is 2^64. *)
Definition f64_u64_max : f64 := S754_finite false 4503599627370496 12.
Definition f64_zero : f64 := S754_zero false.

Definition checked_from_f64_usd (usd : f64) : result MoneyError NanoUSD :=
  if negb (is_finite usd) then Err (NonFinite usd) else
  if SFltb usd f64_zero then Err (Negative usd) else
  let ns := f64_mul usd f64_1e9 in
  if SFleb f64_u64_max ns then Err (Overflows usd) else
  let rounded := f64_round ns in
  if SFltb f64_zero ns
     && SFltb (f64_mul ns f64_1e_6) (SFabs (f64_sub rounded ns))
  then Err (ExceedsNanoPrecision usd) else
  Ok (mk_NanoUSD (f64_as_u64 rounded)).

Definition to_usd_f64 (x : NanoUSD) : f64 :=
  SFdiv 53 1024 (binary_normalize 53 1024 (nanos x) 0 false) f64_1e9.

(** [NanoUSDVisitor]: the numbers a deserializer may hand over. *)
Inductive Visited :=
| VisitU64 (v : Z)
| VisitI64 (v : Z)
| VisitU128 (v : Z)
| VisitI128 (v : Z)
| VisitF64 (v : f64).

Definition u64_try_from (v : Z) : option Z :=
  if (0 <=? v)%Z && (v <=? u64_max)%Z then Some v else None.

Definition nano_visitor (v : Visited) : result MoneyError NanoUSD :=
  match v with
  | VisitU64 v => Ok (mk_NanoUSD v)
  | VisitI64 v => if (v <? 0)%Z then Err (NegativeNano v) else Ok (mk_NanoUSD v)
  | VisitU128 v => mk_NanoUSD <$> ok_or (NanoOverflow v) (u64_try_from v)
  | VisitI128 v => mk_NanoUSD <$> ok_or (NegativeOrOverflowing v) (u64_try_from v)
  | VisitF64 v => checked_from_f64_usd v
  end.

Definition visited_ok (v : Visited) : Prop :=
  match v with
  | VisitU64 v => is_u64 v
  | VisitI64 v => - 2 ^ 63 ≤ v ≤ i64_max
  | VisitU128 v => 0 ≤ v < 2 ^ 128
  | VisitI128 v => - 2 ^ 127 ≤ v < 2 ^ 127
  | VisitF64 _ => True
  end.

(** ** Properties of the arithmetic *)

Lemma sat_add_valid x y : valid_usd x → valid_usd y → valid_usd (saturating_add x y).
Proof. unfold valid_usd; simpl. auto with fusion. Qed.
Lemma sat_sub_valid x y : valid_usd x → valid_usd y → valid_usd (saturating_sub x y).
Proof. unfold valid_usd; simpl. auto with fusion. Qed.
Lemma sat_mul_valid x k : valid_usd x → is_u64 k → valid_usd (saturating_mul x k).
Proof. unfold valid_usd; simpl. auto with fusion. Qed.
#[export] Hint Resolve sat_add_valid sat_sub_valid sat_mul_valid : fusion.

(** [+] and [-] never leave the [u64] range; they warn exactly when the exact
    result does not fit, and then clamp to the end of the range. *)
Theorem usd_operators_clamp x y :
  valid_usd x → valid_usd y →
  valid_usd (add_assign x y) ∧ valid_usd (sub_assign x y) ∧
  (nanos (add_assign x y) =
     if (usd_add x y).2 then u64_max else nanos x + nanos y) ∧
  (nanos (sub_assign x y) =
     if (usd_sub x y).2 then 0 else nanos x - nanos y) ∧
  ((usd_add x y).2 = true ↔ u64_max < nanos x + nanos y) ∧
  ((usd_sub x y).2 = true ↔ nanos x < nanos y).
Proof.
  intros Hx Hy. split; [by apply sat_add_valid|]. split; [by apply sat_sub_valid|].
  unfold add_assign, sub_assign, usd_add, usd_sub, checked_add, checked_sub,
    saturating_add, saturating_sub, valid_usd in *; simpl.
  unfold u64_checked_add, u64_checked_sub.
  destruct (Z.leb_spec (nanos x + nanos y) u64_max),
    (Z.leb_spec 0 (nanos x - nanos y)); simpl;
    rewrite ?bool_decide_true, ?bool_decide_false by done; unfold_ints;
    split_and!; try split; try done; lia.
Qed.

Lemma usd_operators_clamp_witness :
  nanos (add_assign (mk_NanoUSD u64_max) (mk_NanoUSD 1)) = u64_max ∧
  nanos (sub_assign ZERO (mk_NanoUSD 1)) = 0.
Proof.
  assert (valid_usd (mk_NanoUSD u64_max) ∧ valid_usd (mk_NanoUSD 1) ∧ valid_usd ZERO)
    as (H1 & H2 & H3) by (repeat split; vm_compute; discriminate).
  destruct (usd_operators_clamp (mk_NanoUSD u64_max) (mk_NanoUSD 1) H1 H2) as (_ & _ & Ha & _).
  destruct (usd_operators_clamp ZERO (mk_NanoUSD 1) H3 H2) as (_ & _ & _ & Hs & _).
  split; [exact Ha|exact Hs].
Defined.

(** ** The decimal parser *)

(** The number a string of digits denotes. *)
Fixpoint digits_value (acc : Z) (s : string) : Z :=
  match s with
  | "" => acc
  | String c s => digits_value (acc * 10 + default 0 (to_digit c)) s
  end.

Lemma to_digit_bounds c d : to_digit c = Some d → 0 ≤ d ≤ 9.
Proof.
  unfold to_digit. destruct (Ascii.is_nat c) as [n|] eqn:Hn; [|done].
  intros [= <-]. assert (n <= 9)%nat; [|lia].
  destruct c as [[] [] [] [] [] [] [] []]; simplify_eq/=; lia.
Qed.

Lemma digits_value_ge acc s : 0 ≤ acc → acc ≤ digits_value acc s.
Proof.
  revert acc. induction s as [|c s IH]; intros acc H; simpl; [lia|].
  assert (0 ≤ default 0 (to_digit c)).
  { destruct (to_digit c) eqn:Hd; simpl; [|lia]. apply to_digit_bounds in Hd. lia. }
  etrans; [|apply IH]; lia.
Qed.

Lemma parse_digits_value acc s :
  0 ≤ acc ≤ u64_max → str_all is_ascii_digit s = true →
  parse_digits acc s =
  (if decide (digits_value acc s ≤ u64_max) then Ok (digits_value acc s)
   else Err PIE_PosOverflow).
Proof.
  revert acc. induction s as [|c s IH]; intros acc Hacc Hs; simpl.
  { by rewrite decide_True by lia. }
  apply andb_true_iff in Hs as [[d Hd]%bool_decide_eq_true Hs].
  rewrite Hd. simpl. pose proof (to_digit_bounds _ _ Hd).
  unfold u64_checked_mul.
  destruct (Z.leb_spec (acc * 10) u64_max); simpl.
  - unfold u64_checked_add. destruct (Z.leb_spec (acc * 10 + d) u64_max); simpl.
    + apply IH; [lia|done].
    + rewrite decide_False; [done|].
      pose proof (digits_value_ge (acc * 10 + d) s). lia.
  - rewrite decide_False; [done|].
    pose proof (digits_value_ge (acc * 10 + d) s). lia.
Qed.

Lemma parse_u64_value s :
  s ≠ "" → str_all is_ascii_digit s = true →
  parse_u64 s =
  (if decide (digits_value 0 s ≤ u64_max) then Ok (digits_value 0 s)
   else Err PIE_PosOverflow).
Proof.
  intros Hne Hs. destruct s as [|c s]; [done|].
  pose proof Hs as [Hc _]%andb_true_iff.
  rewrite parse_u64_digits by done. apply parse_digits_value; [unfold u64_max; lia|done].
Qed.

Lemma digits_value_app acc s t :
  digits_value acc (s +:+ t) = digits_value (digits_value acc s) t.
Proof. revert acc. induction s as [|c s IH]; intros acc; [done|]. simpl. apply IH. Qed.

Lemma digits_value_zeros acc k :
  digits_value acc (str_repeat "0" k) = acc * 10 ^ Z.of_nat k.
Proof.
  revert acc. induction k as [|k IH]; intros acc; simpl; [lia|].
  rewrite IH, Nat2Z.inj_succ, Z.pow_succ_r by lia. lia.
Qed.

Lemma digits_value_bound s :
  str_all is_ascii_digit s = true →
  ∀ acc, digits_value acc s < (acc + 1) * 10 ^ Z.of_nat (String.length s).
Proof.
  induction s as [|c s IH]; intros Hs acc; [simpl; lia|].
  cbn [digits_value str_all String.length] in *.
  apply andb_true_iff in Hs as [[d Hd]%bool_decide_eq_true Hs].
  rewrite Hd; simpl. pose proof (to_digit_bounds _ _ Hd).
  eapply Z.lt_le_trans; [by apply IH|].
  change (S (String.length s)) with (1 + String.length s)%nat.
  rewrite Nat2Z.inj_add, Z.pow_add_r by lia. change (10 ^ Z.of_nat 1) with 10.
  pose proof (Z.pow_pos_nonneg 10 (Z.of_nat (String.length s)) ltac:(lia) ltac:(lia)).
  nia.
Qed.

(** The fractional digits, padded to nine places. *)
Lemma padded_frac_value fs :
  str_all is_ascii_digit fs = true → (String.length fs <= 9)%nat →
  parse_u64 (pad_right "0" 9 fs)
  = Ok (digits_value 0 fs * 10 ^ (9 - Z.of_nat (String.length fs))).
Proof.
  intros Hd Hlen.
  assert (digits_value 0 (pad_right "0" 9 fs)
    = digits_value 0 fs * 10 ^ (9 - Z.of_nat (String.length fs))) as Hv.
  { unfold pad_right. rewrite digits_value_app, digits_value_zeros.
    do 2 f_equal. lia. }
  assert (str_all is_ascii_digit (pad_right "0" 9 fs) = true) as Hall.
  { unfold pad_right. rewrite str_all_app, Hd. by apply str_all_repeat. }
  assert (String.length (pad_right "0" 9 fs) = 9%nat) as Hl.
  { unfold pad_right. rewrite str_length_app, str_length_repeat. lia. }
  rewrite parse_u64_value; [|by intros H0; rewrite H0 in Hl|done].
  pose proof (digits_value_bound _ Hall 0) as Hb. rewrite Hl in Hb. simpl in Hb.
  rewrite decide_True by (unfold u64_max; lia). by rewrite Hv.
Qed.

(** A digit string with a point: no character is trimmed and the fields are as
    written. *)
Lemma decimal_fields ds fs :
  str_all is_ascii_digit ds = true → str_all is_ascii_digit fs = true →
  trim (ds +:+ "." +:+ fs) = ds +:+ "." +:+ fs ∧
  split_on "." (ds +:+ "." +:+ fs) = [ds; fs].
Proof.
  intros Hds Hfs. split.
  - apply trim_plain. rewrite !str_all_app. simpl.
    rewrite !(str_all_impl _ is_plain _ is_ascii_digit_plain); done.
  - change ("." +:+ fs) with (String "." fs).
    rewrite split_on_app by by apply (str_all_impl _ _ _ is_ascii_digit_not_dot).
    by rewrite split_on_fresh by by apply (str_all_impl _ _ _ is_ascii_digit_not_dot).
Qed.

Lemma decimal_usd_value ds fs :
  ds ≠ "" → str_all is_ascii_digit ds = true → str_all is_ascii_digit fs = true →
  (String.length fs <= 9)%nat →
  let n := digits_value 0 ds * 10 ^ 9
           + digits_value 0 fs * 10 ^ (9 - Z.of_nat (String.length fs)) in
  checked_from_decimal_usd (ds +:+ "." +:+ fs) =
  (if decide (n ≤ u64_max) then Ok (mk_NanoUSD n)
   else if decide (digits_value 0 ds ≤ u64_max) then Err OverflowConverting
   else Err (InvalidIntegerPart PIE_PosOverflow)).
Proof.
  intros Hne Hds Hfs Hlen n.
  destruct (decimal_fields ds fs Hds Hfs) as [Ht Hsp].
  unfold checked_from_decimal_usd. rewrite Ht, Hsp.
  rewrite decide_False by (destruct ds; done). simpl.
  rewrite decide_False by done.
  rewrite (parse_u64_value ds) by done.
  assert (0 ≤ digits_value 0 fs) by by apply digits_value_ge.
  assert (0 ≤ digits_value 0 ds) by by apply digits_value_ge.
  pose proof (Z.pow_nonneg 10 (9 - Z.of_nat (String.length fs)) ltac:(lia)).
  case_decide as HD; simpl.
  - rewrite (proj2 (Nat.ltb_ge 9 _)) by lia. rewrite Hfs. simpl.
    rewrite padded_frac_value by done. simpl.
    unfold u64_checked_mul, NANOS_PER_USD.
    destruct (Z.leb_spec (digits_value 0 ds * 1000000000) u64_max); simpl.
    + unfold u64_checked_add. subst n. case_match eqn:Hle; simpl.
      * rewrite decide_True by lia. done.
      * rewrite decide_False by lia. done.
    + rewrite decide_False by (subst n; nia). done.
  - rewrite decide_False by (subst n; nia). done.
Qed.

(** Parsing is exact: [ds.fs] with at most nine fractional digits is the
    number of nano-dollars it denotes, or an overflow error; no rounding. *)
Theorem decimal_usd_exact ds fs :
  ds ≠ "" → str_all is_ascii_digit ds = true → str_all is_ascii_digit fs = true →
  (String.length fs <= 9)%nat →
  let n := digits_value 0 ds * 10 ^ 9
           + digits_value 0 fs * 10 ^ (9 - Z.of_nat (String.length fs)) in
  checked_from_decimal_usd (ds +:+ "." +:+ fs) =
  (if decide (n ≤ u64_max) then Ok (mk_NanoUSD n)
   else if decide (digits_value 0 ds ≤ u64_max) then Err OverflowConverting
   else Err (InvalidIntegerPart PIE_PosOverflow)).
Proof. apply decimal_usd_value. Qed.

Lemma decimal_usd_exact_witness :
  checked_from_decimal_usd "12.345678901" = Ok (mk_NanoUSD 12345678901).
Proof.
  pose proof (decimal_usd_exact "12" "345678901" ltac:(done) eq_refl eq_refl
    ltac:(simpl; lia)) as H.
  exact H.
Defined.

(** Printing an amount and parsing it again gives the amount back. *)
Lemma fmt_u64_digits n : str_all is_ascii_digit (fmt_u64 n) = true.
Proof. apply pretty_digits. Qed.
Lemma parse_fmt_u64 n : is_u64 n → parse_u64 (fmt_u64 n) = Ok n.
Proof.
  intros [H0 H1]. unfold fmt_u64. rewrite parse_u64_pretty by (rewrite Z2N.id; lia).
  by rewrite Z2N.id.
Qed.
Lemma fmt_u64_nonempty n : fmt_u64 n ≠ "".
Proof.
  unfold fmt_u64, pretty, pretty_N. case_decide; [done|].
  destruct (pretty_N_go_head (Z.to_N n) "") as (c & r & -> & _); [lia|done].
Qed.

Lemma nine_digits n :
  0 ≤ n < 10 ^ 9 →
  let s := pad_left "0" 9 (fmt_u64 n) in
  String.length s = 9%nat ∧ str_all is_ascii_digit s = true ∧ parse_u64 s = Ok n.
Proof.
  intros Hn s.
  assert (String.length (fmt_u64 n) <= 9)%nat as Hlen by (apply pretty_length; lia).
  assert (String.length s = 9%nat) as Hl.
  { unfold s, pad_left. rewrite str_length_app, str_length_repeat. lia. }
  assert (str_all is_ascii_digit s = true) as Hd.
  { unfold s, pad_left. rewrite str_all_app, fmt_u64_digits, andb_true_r.
    by apply str_all_repeat. }
  split_and!; [done..|].
  rewrite parse_u64_value; [|by intros H0; rewrite H0 in Hl|done].
  unfold s, pad_left. rewrite digits_value_app, digits_value_zeros, Z.mul_0_l.
  rewrite <- parse_u64_value; [|apply fmt_u64_nonempty|apply fmt_u64_digits].
  apply parse_fmt_u64. unfold_ints; lia.
Qed.

Lemma fraction_spec n :
  0 ≤ n < 10 ^ 9 →
  let trimmed := trim_end_char "0" (pad_left "0" 9 (fmt_u64 n)) in
  let frac := if (String.length trimmed <? 2)%nat then pad_right "0" 2 trimmed
              else trimmed in
  str_all is_ascii_digit frac = true ∧ (String.length frac <= 9)%nat ∧
  pad_right "0" 9 frac = pad_left "0" 9 (fmt_u64 n).
Proof.
  intros Hn trimmed frac. destruct (nine_digits n Hn) as (Hl & Hd & _).
  assert (frac = pad_right "0" 2 trimmed) as ->.
  { unfold frac. destruct (Nat.ltb_spec (String.length trimmed) 2); [done|].
    unfold pad_right. replace (2 - _)%nat with 0%nat by lia. by rewrite str_app_nil_r. }
  unfold trimmed. split_and!.
  - unfold pad_right. rewrite str_all_app, trim_end_char_all by done.
    by apply str_all_repeat.
  - unfold pad_right. rewrite str_length_app, str_length_repeat.
    pose proof (trim_end_char_length "0" (pad_left "0" 9 (fmt_u64 n))). lia.
  - apply pad_right_pad_trim; [done|lia].
Qed.

(** The decimal rendering of any amount parses back to the amount. *)
Theorem decimal_usd_roundtrip x :
  valid_usd x → checked_from_decimal_usd (to_decimal_usd x) = Ok x.
Proof.
  destruct x as [v]. intros Hv. unfold valid_usd in Hv. simpl in Hv.
  unfold to_decimal_usd; simpl. unfold NANOS_PER_USD.
  set (d := v `div` 1000000000). set (n := v `mod` 1000000000).
  assert (v = d * 1000000000 + n) as Hvd
    by (pose proof (Z.div_mod v 1000000000); lia).
  assert (0 ≤ n < 10 ^ 9) as Hn by (apply Z.mod_pos_bound; lia).
  assert (0 ≤ d ≤ u64_max) as Hd by (unfold_ints; subst d; lia).
  assert (∀ fs, str_all is_ascii_digit fs = true → (String.length fs <= 9)%nat →
    parse_u64 (pad_right "0" 9 fs) = Ok n →
    checked_from_decimal_usd (fmt_u64 d +:+ "." +:+ fs) = Ok (mk_NanoUSD v)) as Hgo.
  { intros fs Hfs Hlen Hp.
    rewrite decimal_usd_value by auto using fmt_u64_nonempty, fmt_u64_digits.
    rewrite padded_frac_value in Hp by done. simplify_eq.
    assert (digits_value 0 (fmt_u64 d) = d) as ->.
    { pose proof (parse_fmt_u64 d Hd) as Hf.
      rewrite parse_u64_value in Hf by auto using fmt_u64_nonempty, fmt_u64_digits.
      case_decide; by simplify_eq. }
    rewrite decide_True by (unfold_ints; lia). do 2 f_equal. lia. }
  case_decide as Hn0.
  - apply (Hgo "00"); [done|simpl; lia|]. by rewrite Hn0.
  - destruct (fraction_spec n Hn) as (Hfd & Hfl & Hfp).
    apply Hgo; [done..|]. rewrite Hfp. by apply nine_digits.
Qed.

Lemma decimal_usd_roundtrip_witness :
  to_decimal_usd (mk_NanoUSD 12345) = "0.000012345" ∧
  checked_from_decimal_usd (to_decimal_usd (mk_NanoUSD 12345)) = Ok (mk_NanoUSD 12345).
Proof.
  split; [reflexivity|]. apply (decimal_usd_roundtrip (mk_NanoUSD 12345)).
  unfold valid_usd, is_u64, u64_max; simpl. lia.
Defined.

(** ** The deserializer *)

(** The integer a visitor call carries, if it carries one. *)
Definition visited_int (v : Visited) : option Z :=
  match v with
  | VisitU64 z | VisitI64 z | VisitU128 z | VisitI128 z => Some z
  | VisitF64 _ => None
  end.

Lemma f64_as_u64_bounds x : is_u64 (f64_as_u64 x).
Proof.
  unfold f64_as_u64. destruct x as [|[]| |[]]; try (unfold_ints; lia).
Qed.

Lemma checked_from_f64_usd_ok usd x :
  checked_from_f64_usd usd = Ok x →
  valid_usd x ∧ is_finite usd = true ∧ SFltb usd f64_zero = false.
Proof.
  unfold checked_from_f64_usd. intros H.
  destruct (is_finite usd); simpl in H; [|done].
  destruct (SFltb usd f64_zero); [done|].
  repeat case_match; simplify_eq. split_and!; [|done..]. apply f64_as_u64_bounds.
Qed.

(** Every amount that is accepted is a [u64]; an integer is taken exactly and
    refused only when it is negative or does not fit; a float is refused when
    it is negative or not finite. *)
Theorem nano_visitor_fails_closed v :
  visited_ok v →
  match nano_visitor v with
  | Ok x => valid_usd x ∧ (∀ z, visited_int v = Some z → nanos x = z) ∧
            (∀ f, v = VisitF64 f → is_finite f = true ∧ SFltb f f64_zero = false)
  | Err _ => ∀ z, visited_int v = Some z → z < 0 ∨ u64_max < z
  end.
Proof.
  intros Hv. destruct v as [z|z|z|z|f]; simpl in *.
  - split_and!; [done|naive_solver|done].
  - destruct (Z.ltb_spec z 0).
    + intros ? [= <-]. by left.
    + split_and!; [unfold valid_usd; simpl; unfold_ints; lia|naive_solver|done].
  - unfold u64_try_from. destruct (Z.leb_spec 0 z), (Z.leb_spec z u64_max); simpl;
      try (intros ? [= <-]; lia).
    split_and!; [done|naive_solver|done].
  - unfold u64_try_from. destruct (Z.leb_spec 0 z), (Z.leb_spec z u64_max); simpl;
      try (intros ? [= <-]; lia).
    split_and!; [done|naive_solver|done].
  - destruct (checked_from_f64_usd f) eqn:Hf; [|done].
    apply checked_from_f64_usd_ok in Hf as (? & ? & ?). naive_solver.
Qed.

Lemma nano_visitor_fails_closed_witness :
  nano_visitor (VisitF64 (S754_finite false 7205759403792794 (-57)))
    = Ok (mk_NanoUSD 50000000) ∧ valid_usd (mk_NanoUSD 50000000).
Proof.
  assert (nano_visitor (VisitF64 (S754_finite false 7205759403792794 (-57)))
    = Ok (mk_NanoUSD 50000000)) as Hok by (vm_compute; reflexivity).
  split; [exact Hok|].
  pose proof (nano_visitor_fails_closed
    (VisitF64 (S754_finite false 7205759403792794 (-57))) I) as H.
  rewrite Hok in H. apply H.
Defined.

(** An amount with more than nine significant decimal places is accepted when
    it is large enough: 1.0000000005 dollars (as a binary64) becomes
    1000000001 nano-dollars. *)
Theorem f64_sub_nano_amount_accepted :
  checked_from_f64_usd (S754_finite false 4503599629622296 (-52))
  = Ok (mk_NanoUSD 1000000001).
Proof. vm_compute. reflexivity. Qed.
