(* ===== verification/Graphs.v ===== *)
(** * Graph walks shared by the planner IR, the compiler and the scheduler

    Two loops recur in the sources: the iterative three-colour depth-first
    search with an explicit stack ([non_loop_cycle_back_edges] in
    [crates/fusion-ir/src/validate.rs], [three_color_cycle_detect] in
    [crates/fusion-compiler/src/lib.rs]) and the work-list reachability walk
    ([structural_checks], [DeadNodeEliminationPass]). Both are written here
    once over an adjacency function [ch], with fuel, and proved: the fuel
    that the callers pass is enough, the search records a back edge exactly
    when a cycle is reachable, the walk returns exactly the reachable set. *)
From S2P Require Import Prelude.

Inductive Color := White | Grey | Black.
#[global] Instance Color_eq_dec : EqDecision Color.
Proof. solve_decision. Defined.

(** The state of the search: colours, stack of (node, next child index) with
    the top first, back edges in the order they are found. *)
Record DfsState (V : Type) `{Countable V} := mk_dfs {
  dfs_colors : gmap V Color;
  dfs_stack : list (V * nat);
  dfs_back : list (V * V);
}.
Arguments mk_dfs {V _ _} _ _ _.
Arguments dfs_colors {V _ _} _.
Arguments dfs_stack {V _ _} _.
Arguments dfs_back {V _ _} _.

(** Closures of equivalent relations. *)
Lemma rtc_iff {A} (R S : A → A → Prop) x y :
  (∀ a b, R a b ↔ S a b) → rtc R x y ↔ rtc S x y.
Proof. intros HRS. split; apply rtc_subrel; intros ??; apply HRS. Qed.
Lemma tc_iff {A} (R S : A → A → Prop) x y :
  (∀ a b, R a b ↔ S a b) → tc R x y ↔ tc S x y.
Proof. intros HRS. split; (induction 1; [apply tc_once|eapply tc_l; [|done]]; by apply HRS). Qed.

Lemma tc_of_flip {A} (R : A → A → Prop) x y : tc (flip R) x y → tc R y x.
Proof.
  induction 1 as [x y Hxy|x y z Hxy _ IH]; [by apply tc_once|]. by apply (tc_r z y x).
Qed.

(** Steps that only lead to higher ranks form no cycle. *)
Lemma ranked_acyclic {A} (R : A → A → Prop) (rank : A → nat) :
  (∀ u v, R u v → (rank u < rank v)%nat) → ∀ v, ¬ tc R v v.
Proof.
  intros Hr. assert (∀ u v, tc R u v → (rank u < rank v)%nat) as Htc.
  { induction 1 as [? ? H1|? ? ? H1 _ IH]; [auto|]. specialize (Hr _ _ H1). lia. }
  intros v Hv. specialize (Htc v v Hv). lia.
Qed.

Section graph.
Context {V : Type} `{Countable V} (ch : V → list V).

Definition edge (u v : V) : Prop := v ∈ ch u.

Definition color_of (m : gmap V Color) (v : V) : Color := default White (m !! v).

(** One turn of [while let Some((node, child_idx)) = stack.pop()]. *)
Definition dfs_step (st : DfsState V) : DfsState V :=
  match dfs_stack st with
  | [] => st
  | (node, i) :: rest =>
      match ch node !! i with
      | Some next =>
          match color_of (dfs_colors st) next with
          | White => mk_dfs (<[next := Grey]> (dfs_colors st))
                       ((next, 0%nat) :: (node, S i) :: rest) (dfs_back st)
          | Grey => mk_dfs (dfs_colors st) ((node, S i) :: rest)
                       (dfs_back st ++ [(node, next)])
          | Black => mk_dfs (dfs_colors st) ((node, S i) :: rest) (dfs_back st)
          end
      | None => mk_dfs (<[node := Black]> (dfs_colors st)) rest (dfs_back st)
      end
  end.

Fixpoint dfs_loop (fuel : nat) (st : DfsState V) : option (DfsState V) :=
  match dfs_stack st with
  | [] => Some st
  | _ :: _ =>
      match fuel with
      | O => None
      | S fuel => dfs_loop fuel (dfs_step st)
      end
  end.

(** The body of the outer [for] loop. *)
Definition dfs_push_root (st : DfsState V) (n : V) : DfsState V :=
  mk_dfs (<[n := Grey]> (dfs_colors st)) [(n, 0%nat)] (dfs_back st).
Definition dfs_root (fuel : nat) (st : DfsState V) (n : V) : option (DfsState V) :=
  if decide (color_of (dfs_colors st) n = White)
  then dfs_loop fuel (dfs_push_root st n) else Some st.

Fixpoint dfs_roots (fuel : nat) (st : DfsState V) (roots : list V)
    : option (DfsState V) :=
  match roots with
  | [] => Some st
  | n :: roots => st ← dfs_root fuel st n; dfs_roots fuel st roots
  end.

Definition dfs_init : DfsState V := mk_dfs ∅ [] [].

(** Fuel for a graph whose vertices are among [U]: one turn per vertex and one
    per edge. *)
Definition dfs_fuel (U : list V) : nat :=
  sum_list ((λ v, S (length (ch v))) <$> U).

(** ** Termination *)
Definition white_weight (c : gmap V Color) (U : list V) : nat :=
  sum_list ((λ v, if decide (color_of c v = White) then S (length (ch v)) else 0%nat)
    <$> U).
Definition frame_weight (f : V * nat) : nat := S (length (ch f.1) - f.2).
Definition stack_weight (l : list (V * nat)) : nat := sum_list (frame_weight <$> l).
Definition dfs_measure (U : list V) (st : DfsState V) : nat :=
  (white_weight (dfs_colors st) U + stack_weight (dfs_stack st))%nat.

Lemma color_of_insert c v w x :
  color_of (<[v := x]> c) w = if decide (v = w) then x else color_of c w.
Proof. unfold color_of. rewrite lookup_insert. by case_decide. Qed.

Lemma white_weight_cons c u U :
  white_weight c (u :: U) =
  ((if decide (color_of c u = White) then S (length (ch u)) else 0)
   + white_weight c U)%nat.
Proof. done. Qed.

Lemma dfs_fuel_cons u U : dfs_fuel (u :: U) = (S (length (ch u)) + dfs_fuel U)%nat.
Proof. done. Qed.

Lemma stack_weight_cons f l : stack_weight (f :: l) = (frame_weight f + stack_weight l)%nat.
Proof. done. Qed.

Lemma white_weight_le c c' U :
  (∀ v, color_of c' v = White → color_of c v = White) →
  (white_weight c' U <= white_weight c U)%nat.
Proof.
  intros Hc. induction U as [|u U IH]; [done|]. rewrite !white_weight_cons.
  specialize (Hc u). repeat case_decide; naive_solver lia.
Qed.

Lemma white_weight_insert c U v x :
  v ∈ U → color_of c v = White → x ≠ White →
  (white_weight (<[v := x]> c) U + S (length (ch v)) <= white_weight c U)%nat.
Proof.
  intros Hv Hw Hx. induction U as [|u U IH]; [by apply elem_of_nil in Hv|].
  assert (white_weight (<[v := x]> c) U <= white_weight c U)%nat as Hle.
  { apply white_weight_le. intros w. rewrite color_of_insert. by case_decide. }
  rewrite !white_weight_cons, color_of_insert.
  destruct (decide (v = u)) as [<-|Hne].
  - rewrite decide_False, decide_True by done. lia.
  - apply elem_of_cons in Hv as [?|Hv]; [done|]. specialize (IH Hv). lia.
Qed.

Lemma white_weight_fuel c U : (white_weight c U <= dfs_fuel U)%nat.
Proof.
  induction U as [|u U IH]; [done|]. rewrite white_weight_cons, dfs_fuel_cons.
  case_decide; lia.
Qed.

Section universe.
Context (U : list V) (HU : ∀ u w, u ∈ U → edge u w → w ∈ U).

Definition stack_in (st : DfsState V) : Prop := ∀ v, v ∈ (dfs_stack st).*1 → v ∈ U.

Lemma dfs_step_in st : stack_in st → stack_in (dfs_step st).
Proof using HU.
  unfold stack_in, dfs_step. destruct (dfs_stack st) as [|[node i] rest] eqn:Hst; csimpl.
  { rewrite Hst. done. }
  intros Hin. destruct (ch node !! i) as [next|] eqn:Hn; csimpl; [|set_solver].
  assert (next ∈ U).
  { apply (HU node); [apply Hin; set_solver|]. by eapply list_elem_of_lookup_2. }
  destruct (color_of _ next); csimpl; set_solver.
Qed.

Lemma dfs_step_measure st f rest :
  stack_in st → dfs_stack st = f :: rest →
  (dfs_measure U (dfs_step st) < dfs_measure U st)%nat.
Proof using HU.
  intros Hin Hst. destruct f as [node i].
  assert (stack_in (dfs_step st)) as Hin' by by apply dfs_step_in.
  unfold dfs_measure, dfs_step, stack_in in *. rewrite Hst in *.
  destruct (ch node !! i) as [next|] eqn:Hn; csimpl in *.
  - pose proof (lookup_lt_Some _ _ _ Hn).
    destruct (color_of (dfs_colors st) next) eqn:Hc; csimpl in *;
      rewrite !stack_weight_cons; unfold frame_weight; csimpl.
    + pose proof (white_weight_insert (dfs_colors st) U next Grey) as Hw.
      specialize (Hw ltac:(set_solver) Hc ltac:(done)). lia.
    + lia.
    + lia.
  - rewrite stack_weight_cons; unfold frame_weight; csimpl.
    assert (white_weight (<[node:=Black]> (dfs_colors st)) U
            <= white_weight (dfs_colors st) U)%nat; [|lia].
    apply white_weight_le. intros v. rewrite color_of_insert. by case_decide.
Qed.

Lemma dfs_loop_total fuel st :
  stack_in st → (dfs_measure U st <= fuel)%nat →
  ∃ st', dfs_loop fuel st = Some st'.
Proof using HU.
  revert st. induction fuel as [|fuel IH]; intros st Hin Hm; csimpl.
  - destruct (dfs_stack st) as [|f l] eqn:Hst; [eauto|].
    pose proof (dfs_step_measure st f l Hin Hst). lia.
  - destruct (dfs_stack st) as [|f l] eqn:Hst; [eauto|].
    pose proof (dfs_step_measure st f l Hin Hst).
    apply IH; [by apply dfs_step_in|lia].
Qed.
End universe.

(** ** Invariant *)
Fixpoint stack_path (above : option V) (l : list (V * nat)) : Prop :=
  match l with
  | [] => True
  | (v, _) :: l => (∀ a, above = Some a → edge v a) ∧ stack_path (Some v) l
  end.

(** Every child visited by a frame is finished, or is the frame above. *)
Fixpoint frames_done (c : gmap V Color) (above : option V) (l : list (V * nat))
    : Prop :=
  match l with
  | [] => True
  | (v, i) :: l =>
      (∀ j w, (j < i)%nat → ch v !! j = Some w →
         color_of c w = Black ∨ above = Some w) ∧
      frames_done c (Some v) l
  end.

Record dfs_inv (roots : list V) (st : DfsState V) : Prop := {
  inv_grey : ∀ v, color_of (dfs_colors st) v = Grey ↔ v ∈ (dfs_stack st).*1;
  inv_nodup : NoDup (dfs_stack st).*1;
  inv_path : stack_path None (dfs_stack st);
  inv_reach : ∀ v, color_of (dfs_colors st) v ≠ White →
                ∃ r, r ∈ roots ∧ rtc edge r v;
  inv_back : ∀ u w, (u, w) ∈ dfs_back st →
               edge u w ∧ rtc edge w u ∧ ∃ r, r ∈ roots ∧ rtc edge r u;
  inv_done : dfs_back st = [] → frames_done (dfs_colors st) None (dfs_stack st);
  inv_black : dfs_back st = [] → ∀ v w,
    color_of (dfs_colors st) v = Black → edge v w → color_of (dfs_colors st) w = Black;
  inv_acyclic : dfs_back st = [] → ∀ v,
    color_of (dfs_colors st) v = Black → ¬ tc edge v v;
}.

Lemma frames_done_mono c c' above l :
  (∀ w, color_of c w = Black → color_of c' w = Black) →
  frames_done c above l → frames_done c' above l.
Proof.
  intros Hc. revert above. induction l as [|[v i] l IH]; intros above; csimpl; [done|].
  intros [Hv Hl]. split; [|by apply IH]. intros j w Hj Hw.
  destruct (Hv j w Hj Hw); auto.
Qed.

Lemma stack_path_reach v i l w :
  stack_path None ((v, i) :: l) → w ∈ ((v, i) :: l).*1 → rtc edge w v.
Proof.
  revert v i. induction l as [|[u k] l IH]; intros v i Hp Hw; csimpl in *.
  - apply list_elem_of_singleton in Hw as ->. constructor.
  - destruct Hp as (_ & Hu & Hl). apply elem_of_cons in Hw as [->|Hw]; [constructor|].
    eapply rtc_r; [|by apply Hu]. eapply (IH u k); [|done].
    split; [done|]. exact Hl.
Qed.

Lemma color_of_empty v : color_of ∅ v = White.
Proof. done. Qed.

Lemma dfs_inv_init roots : dfs_inv roots dfs_init.
Proof.
  split; csimpl; try setoid_rewrite color_of_empty; try done; try constructor;
    set_solver.
Qed.

Lemma black_closed roots st v w :
  dfs_inv roots st → dfs_back st = [] →
  color_of (dfs_colors st) v = Black → rtc edge v w →
  color_of (dfs_colors st) w = Black.
Proof.
  intros Hinv Hb Hv. induction 1; [done|]. eauto using inv_black.
Qed.

Lemma dfs_inv_push_root roots st n :
  dfs_inv roots st → dfs_stack st = [] → color_of (dfs_colors st) n = White →
  n ∈ roots → dfs_inv roots (dfs_push_root st n).
Proof.
  intros Hinv Hst Hn Hr. pose proof (inv_grey _ _ Hinv) as Hg. rewrite Hst in Hg.
  split; csimpl.
  - intros v. rewrite color_of_insert, list_elem_of_singleton.
    case_decide; [naive_solver|]. rewrite Hg. set_solver.
  - apply NoDup_singleton.
  - naive_solver.
  - intros v. rewrite color_of_insert. case_decide as Hv; [|by apply (inv_reach _ _ Hinv)].
    subst. exists v. split; [done|constructor].
  - apply (inv_back _ _ Hinv).
  - intros _. split; [lia|done].
  - intros Hb v w. rewrite !color_of_insert. case_decide; [done|].
    intros Hv Hvw. pose proof (inv_black _ _ Hinv Hb v w Hv Hvw) as Hw.
    case_decide; [congruence|done].
  - intros Hb v. rewrite color_of_insert. case_decide; [done|].
    by apply (inv_acyclic _ _ Hinv).
Qed.

Lemma dfs_inv_white roots st node i rest next :
  dfs_inv roots st → dfs_stack st = (node, i) :: rest → ch node !! i = Some next →
  color_of (dfs_colors st) next = White →
  dfs_inv roots (mk_dfs (<[next := Grey]> (dfs_colors st))
                  ((next, 0%nat) :: (node, S i) :: rest) (dfs_back st)).
Proof.
  intros Hinv Hst Hch Hw.
  assert (edge node next) as He by by eapply list_elem_of_lookup_2.
  pose proof (inv_grey _ _ Hinv) as Hg. pose proof (inv_nodup _ _ Hinv) as Hnd.
  pose proof (inv_path _ _ Hinv) as Hp. pose proof (inv_done _ _ Hinv) as Hd.
  rewrite Hst in Hg, Hnd, Hp, Hd. csimpl in *.
  assert (next ∉ node :: rest.*1) as Hnin.
  { intros Hin. apply Hg in Hin. congruence. }
  split; csimpl.
  - intros v. rewrite color_of_insert. case_decide; [set_solver|].
    rewrite Hg. set_solver.
  - by constructor.
  - destruct Hp as [_ Hp]. split; [done|]. split; [naive_solver|done].
  - intros v. rewrite color_of_insert. case_decide as Hv; [|by apply (inv_reach _ _ Hinv)].
    subst v. intros _. destruct (inv_reach _ _ Hinv node) as (r & Hr & Hrn).
    { rewrite (proj2 (Hg node)); [done|set_solver]. }
    exists r. split; [done|]. by eapply rtc_r.
  - apply (inv_back _ _ Hinv).
  - intros Hb. split; [lia|]. destruct (Hd Hb) as [Hnode Hrest]. split.
    + intros j w Hj Hjw. destruct (decide (j = i)) as [->|].
      { right. congruence. }
      destruct (Hnode j w ltac:(lia) Hjw) as [Hwb|?]; [|done]. left.
      rewrite color_of_insert. case_decide; congruence.
    + eapply frames_done_mono; [|done]. intros w Hwb. rewrite color_of_insert.
      case_decide; congruence.
  - intros Hb v w. rewrite !color_of_insert. case_decide; [done|].
    intros Hv Hvw. pose proof (inv_black _ _ Hinv Hb v w Hv Hvw).
    case_decide; [congruence|done].
  - intros Hb v. rewrite color_of_insert. case_decide; [done|].
    by apply (inv_acyclic _ _ Hinv).
Qed.

Lemma dfs_inv_grey roots st node i rest next :
  dfs_inv roots st → dfs_stack st = (node, i) :: rest → ch node !! i = Some next →
  color_of (dfs_colors st) next = Grey →
  dfs_inv roots (mk_dfs (dfs_colors st) ((node, S i) :: rest)
                  (dfs_back st ++ [(node, next)])).
Proof.
  intros Hinv Hst Hch Hw.
  assert (edge node next) as He by by eapply list_elem_of_lookup_2.
  pose proof (inv_grey _ _ Hinv) as Hg. pose proof (inv_nodup _ _ Hinv) as Hnd.
  pose proof (inv_path _ _ Hinv) as Hp. rewrite Hst in Hg, Hnd, Hp. csimpl in *.
  split; csimpl; try done.
  - apply (inv_reach _ _ Hinv).
  - intros u w [Huw|Huw]%elem_of_app; [by apply (inv_back _ _ Hinv)|].
    apply list_elem_of_singleton in Huw. simplify_eq. split_and!; [done|..].
    + apply (stack_path_reach node i rest); [done|]. csimpl. by apply Hg.
    + apply (inv_reach _ _ Hinv). rewrite (proj2 (Hg node)); [done|set_solver].
  - by intros [_ ?]%app_nil.
  - by intros [_ ?]%app_nil.
  - by intros [_ ?]%app_nil.
Qed.

Lemma dfs_inv_skip roots st node i rest next :
  dfs_inv roots st → dfs_stack st = (node, i) :: rest → ch node !! i = Some next →
  color_of (dfs_colors st) next = Black →
  dfs_inv roots (mk_dfs (dfs_colors st) ((node, S i) :: rest) (dfs_back st)).
Proof.
  intros Hinv Hst Hch Hw.
  pose proof (inv_grey _ _ Hinv) as Hg. pose proof (inv_nodup _ _ Hinv) as Hnd.
  pose proof (inv_path _ _ Hinv) as Hp. pose proof (inv_done _ _ Hinv) as Hd.
  rewrite Hst in Hg, Hnd, Hp, Hd. csimpl in *.
  split; csimpl; try done; try apply Hinv.
  intros Hb. destruct (Hd Hb) as [Hnode Hrest]. split; [|done].
  intros j w Hj Hjw. destruct (decide (j = i)) as [->|]; [left; congruence|].
  apply Hnode with j; [lia|done].
Qed.

Lemma dfs_inv_finish roots st node i rest :
  dfs_inv roots st → dfs_stack st = (node, i) :: rest → ch node !! i = None →
  dfs_inv roots (mk_dfs (<[node := Black]> (dfs_colors st)) rest (dfs_back st)).
Proof.
  intros Hinv Hst Hch.
  pose proof (inv_grey _ _ Hinv) as Hg. pose proof (inv_nodup _ _ Hinv) as Hnd.
  pose proof (inv_path _ _ Hinv) as Hp. pose proof (inv_done _ _ Hinv) as Hd.
  rewrite Hst in Hg, Hnd, Hp, Hd. csimpl in *.
  apply NoDup_cons in Hnd as [Hnin Hnd].
  assert (color_of (dfs_colors st) node = Grey) as Hng by (apply Hg; set_solver).
  assert (dfs_back st = [] → ∀ w, edge node w → color_of (dfs_colors st) w = Black) as Hnb.
  { intros Hb w (j & Hj)%list_elem_of_lookup. destruct (Hd Hb) as [Hnode _].
    apply lookup_ge_None in Hch.
    destruct (Hnode j w) as [?|?]; [apply lookup_lt_Some in Hj; lia|done..]. }
  split; csimpl.
  - intros v. rewrite color_of_insert. case_decide as Hv; [subst; naive_solver|].
    rewrite Hg. set_solver.
  - done.
  - destruct Hp as [_ Hp]. destruct rest as [|[u k] rest]; csimpl in *; naive_solver.
  - intros v. rewrite color_of_insert. case_decide as Hv; [|by apply (inv_reach _ _ Hinv)].
    subst. intros _. apply (inv_reach _ _ Hinv). by rewrite Hng.
  - apply (inv_back _ _ Hinv).
  - intros Hb. destruct (Hd Hb) as [_ Hrest].
    destruct rest as [|[u k] rest]; csimpl in *; [done|].
    destruct Hrest as [Hu Hrest]. split.
    + intros j w Hj Hjw. left. rewrite color_of_insert. case_decide; [done|].
      destruct (Hu j w Hj Hjw); congruence.
    + eapply frames_done_mono; [|done]. intros w Hwb. rewrite color_of_insert.
      by case_decide.
  - intros Hb v w. rewrite !color_of_insert. intros Hv Hvw.
    destruct (decide (node = w)); [done|].
    case_decide; [subst; by apply Hnb|by eapply (inv_black _ _ Hinv)].
  - intros Hb v. rewrite color_of_insert. case_decide as Hv.
    + subst v. intros _ Hcyc.
      assert (∃ w, edge node w ∧ rtc edge w node) as (w & Hw & Hwn).
      { inversion Hcyc; subst; eauto using tc_rtc, rtc_refl. }
      pose proof (black_closed roots st w node Hinv Hb (Hnb Hb w Hw) Hwn). congruence.
    + by apply (inv_acyclic _ _ Hinv).
Qed.

Lemma dfs_inv_step roots st : dfs_inv roots st → dfs_inv roots (dfs_step st).
Proof.
  intros Hinv. unfold dfs_step. destruct (dfs_stack st) as [|[node i] rest] eqn:Hst; [done|].
  destruct (ch node !! i) as [next|] eqn:Hch; [|by eapply dfs_inv_finish].
  destruct (color_of (dfs_colors st) next) eqn:Hc;
    eauto using dfs_inv_white, dfs_inv_grey, dfs_inv_skip.
Qed.

(** Colours never go back to white. *)
Lemma dfs_step_white st v :
  color_of (dfs_colors (dfs_step st)) v = White → color_of (dfs_colors st) v = White.
Proof.
  unfold dfs_step. destruct (dfs_stack st) as [|[node i] rest]; [done|].
  repeat case_match; csimpl; rewrite ?color_of_insert; try case_decide; congruence.
Qed.

Lemma dfs_loop_spec roots fuel st st' :
  dfs_inv roots st → dfs_loop fuel st = Some st' →
  dfs_inv roots st' ∧ dfs_stack st' = [] ∧
  (∀ v, color_of (dfs_colors st') v = White → color_of (dfs_colors st) v = White).
Proof.
  revert st. induction fuel as [|fuel IH]; intros st Hinv; csimpl;
    destruct (dfs_stack st) eqn:Hst; intros Hl; simplify_eq; auto.
  apply IH in Hl as (? & ? & Hw); [|by apply dfs_inv_step].
  split_and!; auto using dfs_step_white.
Qed.

Lemma dfs_roots_spec all roots fuel st st' :
  (∀ r, r ∈ roots → r ∈ all) → dfs_inv all st → dfs_stack st = [] →
  dfs_roots fuel st roots = Some st' →
  dfs_inv all st' ∧ dfs_stack st' = [] ∧
  (∀ v, color_of (dfs_colors st') v = White → color_of (dfs_colors st) v = White) ∧
  ∀ r, r ∈ roots → color_of (dfs_colors st') r = Black.
Proof.
  revert st. induction roots as [|n roots IH]; intros st Hall Hinv Hst Hr; csimpl in *.
  { simplify_eq. split_and!; [done..|set_solver]. }
  apply bind_Some in Hr as (st1 & Hn & Hr).
  assert (dfs_inv all st1 ∧ dfs_stack st1 = [] ∧
    (∀ v, color_of (dfs_colors st1) v = White → color_of (dfs_colors st) v = White) ∧
    color_of (dfs_colors st1) n ≠ White) as (Hi1 & Hs1 & Hw1 & Hn1).
  { unfold dfs_root in Hn. case_decide as Hc; simplify_eq; [|done].
    apply (dfs_loop_spec all) in Hn as (? & ? & Hw);
      [|apply dfs_inv_push_root; [done..|set_solver]].
    csimpl in Hw. setoid_rewrite color_of_insert in Hw. split_and!; [done..| |].
    - intros v Hv. specialize (Hw v Hv). by case_decide.
    - intros Hv. specialize (Hw n Hv). by rewrite decide_True in Hw. }
  apply (IH st1) in Hr as (? & Hs' & Hw & Hb); [|set_solver|done..].
  split_and!; [done..|by auto|].
  intros r [->|Hrr]%elem_of_cons; [|by apply Hb].
  destruct (color_of (dfs_colors st') n) eqn:Hc; [by apply Hw in Hc| |done].
  apply (inv_grey all) in Hc; [|done]. rewrite Hs' in Hc. set_solver.
Qed.

Lemma dfs_roots_total U roots fuel st :
  (∀ u w, u ∈ U → edge u w → w ∈ U) → (∀ r, r ∈ roots → r ∈ U) →
  (dfs_fuel U <= fuel)%nat → ∃ st', dfs_roots fuel st roots = Some st'.
Proof.
  intros HU. revert st. induction roots as [|n roots IH]; intros st Hr Hf; csimpl; [eauto|].
  assert (∃ st1, dfs_root fuel st n = Some st1) as [st1 ->].
  { unfold dfs_root. case_decide as Hc; [|eauto].
    apply (dfs_loop_total U HU); [set_solver|].
    unfold dfs_measure; csimpl. rewrite stack_weight_cons.
    change (stack_weight []) with 0%nat. unfold frame_weight; csimpl.
    pose proof (white_weight_insert (dfs_colors st) U n Grey) as Hw.
    specialize (Hw ltac:(set_solver) Hc ltac:(done)).
    pose proof (white_weight_fuel (dfs_colors st) U). lia. }
  apply IH; [set_solver|done].
Qed.

(** The search finds no back edge exactly when no vertex that a root reaches
    lies on a cycle; each recorded pair is an edge that closes a cycle. *)
Lemma dfs_correct U roots fuel :
  (∀ u w, u ∈ U → edge u w → w ∈ U) → (∀ r, r ∈ roots → r ∈ U) →
  (dfs_fuel U <= fuel)%nat →
  ∃ st, dfs_roots fuel dfs_init roots = Some st ∧
    (dfs_back st = [] ↔ ∀ r v, r ∈ roots → rtc edge r v → ¬ tc edge v v) ∧
    (∀ u w, (u, w) ∈ dfs_back st → edge u w ∧ rtc edge w u).
Proof.
  intros HU Hr Hf. destruct (dfs_roots_total U roots fuel dfs_init HU Hr Hf) as [st Hst].
  exists st. split; [done|].
  apply (dfs_roots_spec roots) in Hst as (Hinv & _ & _ & Hblack);
    [|done|apply dfs_inv_init|done].
  split; [split|].
  - intros Hb r v Hrr Hrv. apply (inv_acyclic _ _ Hinv Hb).
    eapply black_closed; eauto.
  - intros Hacyc. destruct (dfs_back st) as [|[u w] l] eqn:Hb; [done|].
    destruct (inv_back _ _ Hinv u w) as (He & Hwu & r & Hrr & Hru).
    { rewrite Hb. set_solver. }
    destruct (Hacyc r u Hrr Hru). eapply tc_rtc_r; [by apply tc_once|done].
  - intros u w Huw. by destruct (inv_back _ _ Hinv u w Huw) as (? & ? & _).
Qed.

(** The out-degrees that a walk still has to pay for. *)
Definition unvisited (vis : gset V) (U : list V) : nat :=
  sum_list ((λ v, if decide (v ∈ vis) then 0%nat else length (ch v)) <$> U).
Definition wl_fuel (U roots : list V) : nat :=
  (length roots + unvisited ∅ U)%nat.

Lemma unvisited_cons vis u U :
  unvisited vis (u :: U) =
  ((if decide (u ∈ vis) then 0 else length (ch u)) + unvisited vis U)%nat.
Proof. done. Qed.

Lemma unvisited_le vis v U : (unvisited ({[v]} ∪ vis) U <= unvisited vis U)%nat.
Proof.
  induction U as [|u U IH]; [done|]. rewrite !unvisited_cons.
  repeat case_decide; set_solver by lia.
Qed.

Lemma unvisited_visit vis v U :
  v ∈ U → v ∉ vis →
  (unvisited ({[v]} ∪ vis) U + length (ch v) <= unvisited vis U)%nat.
Proof.
  intros Hv Hn. induction U as [|u U IH]; [by apply elem_of_nil in Hv|].
  pose proof (unvisited_le vis v U). rewrite !unvisited_cons.
  destruct (decide (v = u)) as [<-|Hne].
  - rewrite decide_True, decide_False by set_solver. lia.
  - apply elem_of_cons in Hv as [?|Hv]; [done|]. specialize (IH Hv).
    repeat case_decide; set_solver by lia.
Qed.

(** ** Work-list reachability

    [push vis cur q] adds the successors of [cur] to the pending vertices [q];
    the callers differ in where they push and in what they leave out. *)
Section worklist.
Context (push : gset V → V → list V → list V).

Fixpoint wl_loop (fuel : nat) (queue : list V) (vis : gset V) : option (gset V) :=
  match queue with
  | [] => Some vis
  | cur :: queue =>
      match fuel with
      | O => None
      | S fuel =>
          if decide (cur ∈ vis) then wl_loop fuel queue vis
          else wl_loop fuel (push ({[cur]} ∪ vis) cur queue) ({[cur]} ∪ vis)
      end
  end.

(** What the walk relies on. *)
Record push_ok : Prop := {
  push_sound : ∀ vis cur q x, x ∈ push vis cur q → x ∈ q ∨ edge cur x;
  push_keeps : ∀ vis cur q x, x ∈ q → x ∈ push vis cur q;
  push_new : ∀ vis cur q x, edge cur x → x ∈ vis ∨ x ∈ push vis cur q;
  push_length : ∀ vis cur q,
    (length (push vis cur q) <= length q + length (ch cur))%nat;
}.
Context (Hpush : push_ok).

Record wl_inv (roots queue : list V) (vis : gset V) : Prop := {
  wl_roots : ∀ r, r ∈ roots → r ∈ vis ∨ r ∈ queue;
  wl_sound : ∀ v, v ∈ vis ∨ v ∈ queue → ∃ r, r ∈ roots ∧ rtc edge r v;
  wl_closed : ∀ v w, v ∈ vis → edge v w → w ∈ vis ∨ w ∈ queue;
}.

Lemma wl_inv_skip roots cur queue vis :
  wl_inv roots (cur :: queue) vis → cur ∈ vis → wl_inv roots queue vis.
Proof. clear Hpush push. intros [Hr Hs Hc] Hcur. split; set_solver. Qed.

Lemma wl_inv_visit roots cur queue vis :
  wl_inv roots (cur :: queue) vis →
  wl_inv roots (push ({[cur]} ∪ vis) cur queue) ({[cur]} ∪ vis).
Proof using Hpush.
  intros [Hr Hs Hc]. pose proof (push_keeps Hpush ({[cur]} ∪ vis) cur queue).
  split.
  - set_solver.
  - intros v [Hv|Hv]; [set_solver|].
    apply (push_sound Hpush) in Hv as [Hv|Hv]; [set_solver|].
    destruct (Hs cur) as (r & ? & ?); [set_solver|]. exists r.
    split; [done|]. by eapply rtc_r.
  - intros v w Hv Hvw.
    destruct (decide (v = cur)) as [->|]; [by apply (push_new Hpush)|].
    destruct (Hc v w); set_solver.
Qed.

Lemma wl_loop_spec U roots fuel queue vis :
  (∀ u w, u ∈ U → edge u w → w ∈ U) → (∀ x, x ∈ queue → x ∈ U) →
  (length queue + unvisited vis U <= fuel)%nat → wl_inv roots queue vis →
  ∃ vis', wl_loop fuel queue vis = Some vis' ∧ wl_inv roots [] vis'.
Proof using Hpush.
  intros HU. revert queue vis.
  induction fuel as [|fuel IH]; intros [|cur queue] vis Hq Hf Hinv; csimpl in *; eauto; [lia|].
  case_decide as Hcur.
  - apply IH; [set_solver|lia|by eapply wl_inv_skip].
  - apply IH; [| |by apply wl_inv_visit].
    + intros x [Hx|Hx]%(push_sound Hpush); [set_solver|].
      apply (HU cur); set_solver.
    + pose proof (unvisited_visit vis cur U ltac:(set_solver) Hcur).
      pose proof (push_length Hpush ({[cur]} ∪ vis) cur queue). lia.
Qed.

(** The walk ends within its fuel and returns exactly what the roots reach. *)
Lemma wl_loop_correct U roots queue fuel :
  (∀ u w, u ∈ U → edge u w → w ∈ U) → (∀ x, x ∈ roots → x ∈ U) →
  (wl_fuel U roots <= fuel)%nat → queue ≡ₚ roots →
  ∃ vis, wl_loop fuel queue ∅ = Some vis ∧
    ∀ v, v ∈ vis ↔ ∃ r, r ∈ roots ∧ rtc edge r v.
Proof using Hpush.
  intros HU HR Hf Hp.
  destruct (wl_loop_spec U roots fuel queue ∅) as (vis & -> & [Hr Hs Hc]).
  - done.
  - intros x. rewrite Hp. auto.
  - by rewrite Hp.
  - split; [|intros v [?|Hv]; [set_solver|]|set_solver].
    + intros r ?. right. by rewrite Hp.
    + rewrite Hp in Hv. exists v. split; [done|constructor].
  - exists vis. split; [done|]. intros v. split; [naive_solver|].
    intros (r & Hrr & Hrv). assert (r ∈ vis) as Hin by set_solver. clear Hrr.
    induction Hrv as [|x y z Hxy _ IHr]; [done|]. apply IHr. set_solver.
Qed.
End worklist.

(** [Vec::push] of every successor; the vector's end is the list's head. *)
Definition push_stack (_ : gset V) (cur : V) (q : list V) : list V :=
  reverse (ch cur) ++ q.
(** [VecDeque::push_back] of the successors that are not visited yet. *)
Definition push_fifo (vis : gset V) (cur : V) (q : list V) : list V :=
  q ++ filter (λ x, x ∉ vis) (ch cur).

Lemma push_stack_ok : push_ok push_stack.
Proof.
  unfold push_stack. split; unfold edge.
  - set_solver.
  - set_solver.
  - set_solver.
  - intros. rewrite length_app, length_reverse. lia.
Qed.

Lemma push_fifo_ok : push_ok push_fifo.
Proof.
  unfold push_fifo. split; unfold edge.
  - intros vis cur q x. rewrite elem_of_app, list_elem_of_filter. naive_solver.
  - set_solver.
  - intros vis cur q x Hx. rewrite elem_of_app, list_elem_of_filter.
    destruct (decide (x ∈ vis)); auto.
  - intros vis cur q. rewrite length_app.
    pose proof (length_filter (λ x, x ∉ vis) (ch cur)). lia.
Qed.
End graph.
