(* ===== verification/Kahn.v ===== *)
(** * Kahn's algorithm

    The work loop of [CapabilityGraph::topological_sort]
    ([crates/fusion-kernel/src/capability/graph.rs]): a FIFO queue of the
    vertices without pending predecessors and a map of in-degrees. Its
    invariant shows that the loop emits exactly the vertices that no cycle
    holds back, each once and after all its predecessors. The same holds with
    a stack in place of the queue, as in [ExecutionPlane::topological_order]
    ([src/server/execution.rs]). *)
From S2P Require Import Prelude Graphs.

Section kahn.
Context {V : Type} `{Countable V} (adj : gmap V (list V)).

(** One neighbour of the vertex just emitted: [*deg -= 1], queued at zero. The
    subtraction never underflows ([relax_fold]). *)
Definition relax (st : list V * gmap V nat) (n : V) : list V * gmap V nat :=
  let '(queue, deg) := st in
  match deg !! n with
  | None => st
  | Some d =>
      let d := pred d in
      (if decide (d = 0%nat) then queue ++ [n] else queue, <[n := d]> deg)
  end.

(** [while let Some(curr) = queue.pop_front()]. *)
Fixpoint kahn_loop (fuel : nat) (queue order : list V) (deg : gmap V nat) : list V :=
  match fuel, queue with
  | S fuel, curr :: queue =>
      let '(queue, deg) := foldl relax (queue, deg) (default [] (adj !! curr)) in
      kahn_loop fuel queue (order ++ [curr]) deg
  | _, _ => order
  end.

(** ** One vertex *)
Definition count (v : V) (l : list V) : nat := length (filter (λ x, x = v) l).

Lemma count_cons v x l : count v (x :: l) = ((if decide (x = v) then 1 else 0) + count v l)%nat.
Proof. unfold count. rewrite filter_cons. by case_decide. Qed.
Lemma count_zero v l : count v l = 0%nat ↔ v ∉ l.
Proof.
  induction l as [|x l IH]; [set_solver|]. rewrite count_cons. case_decide; set_solver by lia.
Qed.

Lemma relax_fold ns queue deg :
  (∀ n, n ∈ ns → ∃ d, deg !! n = Some d ∧ (count n ns <= d)%nat) →
  ∃ new deg', foldl relax (queue, deg) ns = (queue ++ new, deg') ∧ NoDup new ∧
    (∀ v, v ∈ new ↔ v ∈ ns ∧ deg !! v = Some (count v ns)) ∧
    ∀ v, deg' !! v = (λ d, d - count v ns)%nat <$> deg !! v.
Proof.
  revert queue deg. induction ns as [|n ns IH]; intros queue deg Hd; csimpl.
  { exists [], deg. rewrite app_nil_r. split_and!; [done|constructor|set_solver|].
    intros v. destruct (deg !! v); csimpl; [|done]. f_equal. unfold count; csimpl. lia. }
  destruct (Hd n ltac:(set_solver)) as (d & Hn & Hc). rewrite Hn.
  rewrite count_cons, decide_True in Hc by done.
  set (queue' := if decide (pred d = 0%nat) then queue ++ [n] else queue).
  destruct (IH queue' (<[n := pred d]> deg)) as (new & deg' & -> & Hnd & Hnew & Hdeg').
  { intros m Hm. destruct (Hd m ltac:(set_solver)) as (dm & Hdm & Hcm).
    rewrite count_cons in Hcm. destruct (decide (n = m)) as [<-|Hne].
    - exists (pred d). rewrite lookup_insert_eq. split; [done|lia].
    - exists dm. rewrite lookup_insert_ne by done. split; [done|lia]. }
  exists ((if decide (pred d = 0%nat) then [n] else []) ++ new), deg'. split_and!.
  - subst queue'. case_decide; [by rewrite <- app_assoc|done].
  - case_decide as Hz; [|done]. apply NoDup_cons. split; [|done].
    rewrite Hnew. intros [Hin _]. apply count_zero in Hin; [done|lia].
  - intros v. rewrite elem_of_app, Hnew, count_cons.
    destruct (decide (n = v)) as [<-|Hne].
    + rewrite lookup_insert_eq, Hn. case_decide as Hz.
      * split; [|set_solver]. intros _. split; [set_solver|]. f_equal. lia.
      * split.
        -- intros [?%elem_of_nil|[? [= ?]]]; [done|]. split; [set_solver|f_equal; lia].
        -- intros [_ [= ->]]. right. split; [|f_equal; lia].
           destruct (decide (n ∈ ns)) as [|Hni%count_zero]; [done|]. lia.
    + rewrite lookup_insert_ne by done. case_decide; set_solver.
  - intros v. rewrite Hdeg', count_cons. destruct (decide (n = v)) as [<-|Hne].
    + rewrite lookup_insert_eq, Hn; csimpl. f_equal. lia.
    + by rewrite lookup_insert_ne.
Qed.

(** ** The whole run, over the edges [E] (source first) between the vertices [N] *)
Context (E : list (V * V)).
Definition pending (done : list V) (v : V) : nat :=
  length (filter (λ e, e.2 = v ∧ e.1 ∉ done) E).
Definition precedes (u v : V) (l : list V) : Prop := ∃ l1 l2, l = l1 ++ v :: l2 ∧ u ∈ l1.

Lemma pending_zero done v : pending done v = 0%nat ↔ ∀ u, (u, v) ∈ E → u ∈ done.
Proof using Type.
  unfold pending. rewrite length_zero_iff_nil. split.
  - intros Hf u Hu. destruct (decide (u ∈ done)) as [|Hn]; [done|].
    assert ((u, v) ∈ filter (λ e, e.2 = v ∧ e.1 ∉ done) E) as Hx
      by (by apply list_elem_of_filter). rewrite Hf in Hx. by apply elem_of_nil in Hx.
  - intros Hall. destruct (filter _ E) as [|[u w] l] eqn:Hf; [done|]. exfalso.
    assert ((u, w) ∈ filter (λ e, e.2 = v ∧ e.1 ∉ done) E) as [[Hw Hd] Hin]%list_elem_of_filter
      by (rewrite Hf; set_solver). simpl in *. subst. by apply Hd, Hall.
Qed.

Lemma precedes_app u v l k : precedes u v l → precedes u v (l ++ k).
Proof using Type.
  intros (l1 & l2 & -> & Hu). exists l1, (l2 ++ k). by rewrite <- app_assoc.
Qed.

(** Every vertex returned, no cycle. *)
Lemma precedes_acyclic (order : list V) :
  NoDup order → (∀ u v, (u, v) ∈ E → v ∈ order → precedes u v order) →
  (∀ u v, (u, v) ∈ E → v ∈ order) → ∀ v, ¬ tc (λ u v, (u, v) ∈ E) v v.
Proof using EqDecision0.
  intros Hnd Hp Hall. set (rank v := default 0%nat (fst <$> list_find (eq v) order)).
  assert (Hrank : ∀ l1 x l2, order = l1 ++ x :: l2 → rank x = length l1).
  { intros l1 x l2 ->. unfold rank. rewrite list_find_app_r; csimpl.
    - rewrite decide_True by done. csimpl. lia.
    - apply list_find_None, Forall_forall. intros y Hy ->.
      apply NoDup_app in Hnd as (_ & Hd & _). by apply (Hd y Hy), elem_of_cons; left. }
  assert (Hlt : ∀ u v, (u, v) ∈ E → (rank u < rank v)%nat).
  { intros u v Huv. destruct (Hp u v Huv (Hall u v Huv)) as (l1 & l2 & Heq & Hu).
    rewrite (Hrank _ _ _ Heq). apply list_elem_of_split in Hu as (k1 & k2 & ->).
    rewrite (Hrank k1 u (k2 ++ v :: l2)) by (by rewrite Heq, <- app_assoc).
    rewrite length_app; csimpl. lia. }
  by apply (ranked_acyclic _ rank).
Qed.

Context (N : list V) (HN : NoDup N) (HE : ∀ u v, (u, v) ∈ E → u ∈ N ∧ v ∈ N).
Context (Hadj : ∀ u, default [] (adj !! u) = (filter (λ e, e.1 = u) E).*2).

Lemma pending_emit done curr v : curr ∉ done →
  (pending (done ++ [curr]) v + count v (default [] (adj !! curr)) = pending done v)%nat.
Proof using Hadj.
  clear HE HN. intros Hc. rewrite Hadj. unfold pending, count. clear Hadj.
  induction E as [|[a b] l IH]; [done|]. rewrite !filter_cons; csimpl.
  destruct (decide (a = curr)) as [->|Ha]; csimpl.
  - rewrite filter_cons. rewrite (decide_False (P := b = v ∧ curr ∉ done ++ [curr])) by set_solver.
    destruct (decide (b = v)).
    + rewrite (decide_True (P := b = v ∧ curr ∉ done)) by done. csimpl. lia.
    + rewrite (decide_False (P := b = v ∧ curr ∉ done)) by tauto. done.
  - repeat case_decide; csimpl; set_solver by lia.
Qed.

Record kahn_inv (queue order : list V) (deg : gmap V nat) : Prop := {
  ki_nodup : NoDup (order ++ queue);
  ki_deg : ∀ v, v ∈ N → deg !! v = Some (pending order v);
  ki_zero : ∀ v, v ∈ order ++ queue ↔ v ∈ N ∧ pending order v = 0%nat;
  ki_order : ∀ u v, (u, v) ∈ E → v ∈ order → precedes u v order;
}.

Lemma kahn_inv_step curr queue order deg :
  kahn_inv (curr :: queue) order deg →
  ∃ queue' deg', foldl relax (queue, deg) (default [] (adj !! curr)) = (queue', deg') ∧
    kahn_inv queue' (order ++ [curr]) deg'.
Proof using All.
  intros [Hnd Hdeg Hz Hord].
  assert (Hfresh : curr ∉ order).
  { apply NoDup_app in Hnd as (_ & Hd & _). intros Hc. by apply (Hd curr Hc), elem_of_cons; left. }
  assert (Hcur : curr ∈ N ∧ pending order curr = 0%nat).
  { apply Hz, elem_of_app. right. apply elem_of_cons. by left. }
  assert (Hns : ∀ n, n ∈ default [] (adj !! curr) → (curr, n) ∈ E).
  { intros n. rewrite Hadj. intros ([a b] & -> & [Ha Hin]%list_elem_of_filter)%list_elem_of_fmap.
    csimpl in *. by subst. }
  destruct (relax_fold (default [] (adj !! curr)) queue deg) as (new & deg' & -> & Hnn & Hnew & Hdeg').
  { intros n Hn%Hns. destruct (HE _ _ Hn) as [_ HnN]. eexists. split; [apply Hdeg, HnN|].
    pose proof (pending_emit order curr n Hfresh). lia. }
  exists (queue ++ new), deg'. split; [done|].
  assert (Hnew' : ∀ v, v ∈ new ↔ v ∈ N ∧ pending (order ++ [curr]) v = 0%nat ∧ pending order v ≠ 0%nat).
  { intros v. rewrite Hnew. pose proof (pending_emit order curr v Hfresh) as Hp. split.
    - intros [Hin Hd]. pose proof (HE _ _ (Hns v Hin)) as [_ HvN]. rewrite Hdeg in Hd by done.
      simplify_eq. split_and!; [done|lia|]. rewrite Hd. intros Hc%count_zero. done.
    - intros (HvN & H0 & H1). rewrite Hdeg by done. split; [|f_equal; lia].
      destruct (decide (v ∈ default [] (adj !! curr))) as [|Hni%count_zero]; [done|]. lia. }
  split.
  - rewrite <- app_assoc. simpl. rewrite (app_comm_cons queue new curr), app_assoc.
    apply NoDup_app. split_and!; [done| |done].
    intros v Hv%Hz Hv'%Hnew'. tauto.
  - intros v Hv. rewrite Hdeg', Hdeg by done. simpl. f_equal.
    pose proof (pending_emit order curr v Hfresh). lia.
  - intros v. rewrite <- app_assoc. simpl. rewrite (app_comm_cons queue new curr), app_assoc.
    rewrite elem_of_app, Hz, Hnew'. pose proof (pending_emit order curr v Hfresh).
    destruct (decide (pending order v = 0%nat)); split; intros; intuition lia.
  - intros u v Huv [Hv|Hv]%elem_of_app.
    + by apply precedes_app, Hord.
    + apply list_elem_of_singleton in Hv as ->. exists order, []. split; [done|].
      destruct Hcur as [_ Hp]. rewrite pending_zero in Hp. by apply Hp.
Qed.

Lemma kahn_inv_bound queue order deg : kahn_inv queue order deg → (length order + length queue <= length N)%nat.
Proof using Type.
  intros Hi. rewrite <- length_app. apply NoDup_incl_length; [apply NoDup_ListNoDup, Hi|].
  intros v Hv%list_elem_of_In%(ki_zero _ _ _ Hi). by apply list_elem_of_In, Hv.
Qed.
Lemma kahn_loop_inv fuel queue order deg :
  (length N <= fuel + length order)%nat → kahn_inv queue order deg →
  ∃ deg', kahn_inv [] (kahn_loop fuel queue order deg) deg'.
Proof using All.
  revert queue order deg. induction fuel as [|fuel IH]; intros queue order deg Hf Hi; csimpl.
  - destruct queue as [|curr queue]; [eauto|]. exfalso.
    pose proof (kahn_inv_bound _ _ _ Hi) as Hb. csimpl in *. lia.
  - destruct queue as [|curr queue]; [eauto|].
    destruct (kahn_inv_step _ _ _ _ Hi) as (queue' & deg' & -> & Hi').
    apply (IH queue' _ deg'); [|done]. rewrite length_app; csimpl. lia.
Qed.

(** What the loop returns from the sources of the graph: each vertex once and
    after its predecessors, and exactly the vertices whose predecessors are
    all returned. *)
Lemma kahn_run queue deg order :
  (∀ v, v ∈ N → deg !! v = Some (pending [] v)) →
  NoDup queue → (∀ v, v ∈ queue ↔ v ∈ N ∧ pending [] v = 0%nat) →
  order = kahn_loop (length N) queue [] deg →
  NoDup order ∧ (∀ u v, (u, v) ∈ E → v ∈ order → precedes u v order) ∧
  ∀ v, v ∈ order ↔ v ∈ N ∧ ∀ u, (u, v) ∈ E → u ∈ order.
Proof using All.
  intros Hdeg Hq Hqs ->. destruct (kahn_loop_inv (length N) queue [] deg) as [deg' [Hnd _ Hz Ho]].
  - lia.
  - split; [done|done|done|set_solver].
  - rewrite app_nil_r in *. split_and!; [done|done|]. intros v. by rewrite Hz, pending_zero.
Qed.

(** No cycle, every vertex returned. *)
Lemma kahn_complete (order : list V) :
  (∀ v, v ∈ order ↔ v ∈ N ∧ ∀ u, (u, v) ∈ E → u ∈ order) →
  (∀ v, ¬ tc (λ u v, (u, v) ∈ E) v v) → ∀ v, v ∈ N → v ∈ order.
Proof using HE.
  clear Hadj HN. intros Ho Hac v Hv.
  assert (Hsn : sn (flip (λ u v, (u, v) ∈ E)) v).
  { apply tc_finite_sn.
    - intros x Hx. apply (Hac x). by apply tc_of_flip in Hx.
    - exists N. intros w Hw. clear -Hw HE. induction Hw as [x y Hxy|]; [|done].
      by apply (HE y x). }
  revert Hv. induction Hsn as [v _ IH]. intros Hv. apply Ho. split; [done|].
  intros u Hu. apply IH; [done|]. by apply (HE u v).
Qed.

(** ** With a stack *)
Definition relax_push (st : list V * gmap V nat) (n : V) : list V * gmap V nat :=
  let '(stack, deg) := st in
  match deg !! n with
  | None => st
  | Some d =>
      let d := pred d in
      (if decide (d = 0%nat) then n :: stack else stack, <[n := d]> deg)
  end.
(** [while let Some(node) = ready.pop()]; the top of the stack is the head. *)
Fixpoint stack_loop (fuel : nat) (stack order : list V) (deg : gmap V nat) : list V :=
  match fuel, stack with
  | S fuel, curr :: stack =>
      let '(stack, deg) := foldl relax_push (stack, deg) (default [] (adj !! curr)) in
      stack_loop fuel stack (order ++ [curr]) deg
  | _, _ => order
  end.

Lemma relax_push_fold ns stack q deg :
  foldl relax_push (reverse q ++ stack, deg) ns =
    let '(q', deg') := foldl relax (q, deg) ns in (reverse q' ++ stack, deg').
Proof.
  revert q deg. induction ns as [|n ns IH]; intros q deg; csimpl; [done|].
  destruct (deg !! n) as [d|]; [|done]. case_decide; [|done].
  rewrite <- IH, reverse_app. done.
Qed.
Lemma relax_fold_app ns stack q deg :
  foldl relax (stack ++ q, deg) ns = let '(q', deg') := foldl relax (q, deg) ns in (stack ++ q', deg').
Proof.
  revert q deg. induction ns as [|n ns IH]; intros q deg; csimpl; [done|].
  destruct (deg !! n) as [d|]; [|done]. case_decide; [|done].
  by rewrite <- IH, app_assoc.
Qed.
Lemma kahn_inv_perm stack queue order deg :
  queue ≡ₚ stack → kahn_inv queue order deg → kahn_inv stack order deg.
Proof. intros Hp [H1 H2 H3 H4]. split; [by rewrite <- Hp|done|intros v; by rewrite <- Hp|done]. Qed.
Lemma stack_loop_inv fuel stack order deg :
  (length N <= fuel + length order)%nat → kahn_inv stack order deg →
  ∃ deg', kahn_inv [] (stack_loop fuel stack order deg) deg'.
Proof using All.
  revert stack order deg. induction fuel as [|fuel IH]; intros stack order deg Hf Hi; csimpl.
  { exists deg. destruct stack as [|v stack]; [done|]. exfalso.
    pose proof (kahn_inv_bound _ _ _ Hi) as Hb. csimpl in Hb. lia. }
  destruct stack as [|curr stack]; [by exists deg|].
  destruct (kahn_inv_step curr stack order deg Hi) as (q' & deg' & Hq & Hi').
  pose proof (relax_push_fold (default [] (adj !! curr)) stack [] deg) as Hp.
  pose proof (relax_fold_app (default [] (adj !! curr)) stack [] deg) as Ha. rewrite app_nil_r in Ha.
  csimpl in Hp. rewrite Hp. destruct (foldl relax ([], deg) _) as [q d]. rewrite Hq in Ha. injection Ha as -> ->.
  apply IH; [rewrite length_app; csimpl; lia|]. eapply kahn_inv_perm; [|exact Hi'].
  by rewrite (Permutation_app_comm stack), reverse_Permutation.
Qed.
Lemma stack_run stack deg order :
  (∀ v, v ∈ N → deg !! v = Some (pending [] v)) →
  NoDup stack → (∀ v, v ∈ stack ↔ v ∈ N ∧ pending [] v = 0%nat) →
  order = stack_loop (length N) stack [] deg →
  NoDup order ∧ (∀ u v, (u, v) ∈ E → v ∈ order → precedes u v order) ∧
  ∀ v, v ∈ order ↔ v ∈ N ∧ ∀ u, (u, v) ∈ E → u ∈ order.
Proof using All.
  intros Hdeg Hq Hqs ->. destruct (stack_loop_inv (length N) stack [] deg) as [deg' [Hnd _ Hz Ho]].
  - lia.
  - split; [done|done|done|set_solver].
  - rewrite app_nil_r in *. split_and!; [done|done|]. intros v. by rewrite Hz, pending_zero.
Qed.

End kahn.
