(* ===== verification/Json.v ===== *)
(** * JSON values as [serde_json] represents them

    [serde_json::Value]: numbers are unsigned, negative or floating point,
    objects are key-sorted maps ([serde_json::Map] without the
    [preserve_order] feature is a [BTreeMap]), here association lists whose
    keys are strictly increasing in a well-formed value ([json_wf]). Also the
    recursive key sorting ([canonicalize]) shared by the hash of a node
    configuration and by the canonical form of a compiled graph. *)
From S2P Require Import Prelude.
From Stdlib Require Import Floats.SpecFloat.

Inductive jnum :=
| PosInt (n : Z)
| NegInt (z : Z)
| Float (f : spec_float).

Inductive json :=
| JNull
| JBool (b : bool)
| JNumber (n : jnum)
| JString (s : string)
| JArray (l : list json)
| JObject (m : list (string * json)).

#[global] Instance spec_float_eq_dec : EqDecision spec_float.
Proof. solve_decision. Defined.
#[global] Instance jnum_eq_dec : EqDecision jnum.
Proof. solve_decision. Defined.

Section json_rect.
Context (P : json → Prop) (Pnull : P JNull) (Pbool : ∀ b, P (JBool b))
  (Pnum : ∀ n, P (JNumber n)) (Pstr : ∀ s, P (JString s))
  (Parr : ∀ l, Forall P l → P (JArray l))
  (Pobj : ∀ m, Forall (λ kv, P kv.2) m → P (JObject m)).

(** Induction with the hypothesis for every element of an array or object. *)
Fixpoint json_ind' (j : json) : P j :=
  match j with
  | JNull => Pnull
  | JBool b => Pbool b
  | JNumber n => Pnum n
  | JString s => Pstr s
  | JArray l =>
      Parr l ((fix go l : Forall P l := match l with
        | [] => Forall_nil_2 _
        | j :: l => Forall_cons_2 _ _ _ (json_ind' j) (go l) end) l)
  | JObject m =>
      Pobj m ((fix go m : Forall (λ kv, P kv.2) m := match m with
        | [] => Forall_nil_2 _
        | kv :: m => Forall_cons_2 _ _ _ (json_ind' kv.2) (go m) end) m)
  end.
End json_rect.

(** ** Accessors *)
Definition is_null (j : json) : bool := match j with JNull => true | _ => false end.
Definition is_object (j : json) : bool := match j with JObject _ => true | _ => false end.
Definition as_str (j : json) : option string :=
  match j with JString s => Some s | _ => None end.
Definition as_bool (j : json) : option bool :=
  match j with JBool b => Some b | _ => None end.
Definition as_array (j : json) : option (list json) :=
  match j with JArray l => Some l | _ => None end.
Definition as_object (j : json) : option (list (string * json)) :=
  match j with JObject m => Some m | _ => None end.
Definition as_u64 (j : json) : option Z :=
  match j with JNumber (PosInt n) => Some n | _ => None end.

(** ** Objects *)
Section objects.
Context {A : Type}.

Fixpoint obj_get (k : string) (m : list (string * A)) : option A :=
  match m with
  | [] => None
  | (k', v) :: m => if decide (k = k') then Some v else obj_get k m
  end.

Fixpoint obj_insert (k : string) (v : A) (m : list (string * A)) : list (string * A) :=
  match m with
  | [] => [(k, v)]
  | (k', v') :: m' =>
      if decide (k = k') then (k, v) :: m'
      else if string_leb k k' then (k, v) :: m
      else (k', v') :: obj_insert k v m'
  end.

Definition obj_remove (k : string) (m : list (string * A)) : list (string * A) :=
  filter (λ kv, kv.1 ≠ k) m.

Definition obj_of_list (l : list (string * A)) : list (string * A) :=
  foldl (λ m kv, obj_insert kv.1 kv.2 m) [] l.

Definition key_lt (k k' : string) : Prop := string_leb k k' = true ∧ k ≠ k'.
Definition obj_sorted (m : list (string * A)) : Prop := StronglySorted key_lt m.*1.

#[global] Instance key_lt_trans : Transitive key_lt.
Proof.
  intros x y z [Hxy ?] [Hyz ?]. split; [by eapply string_leb_trans|].
  intros ->. pose proof (string_leb_antisym _ _ Hxy Hyz). congruence.
Qed.

Lemma obj_get_None k m : obj_get k m = None ↔ k ∉ m.*1.
Proof.
  induction m as [|[k' v] m IH]; csimpl; [set_solver|].
  case_decide; subst; [set_solver|]. rewrite IH. set_solver.
Qed.

Lemma obj_get_Some_elem k v m : obj_get k m = Some v → (k, v) ∈ m.
Proof.
  induction m as [|[k' v'] m IH]; csimpl; [done|].
  case_decide; intros; simplify_eq; set_solver.
Qed.

Lemma obj_get_insert k k' v m :
  obj_get k (obj_insert k' v m) = if decide (k = k') then Some v else obj_get k m.
Proof.
  induction m as [|[k2 v2] m IH]; csimpl; [done|].
  repeat case_match; csimpl; repeat case_decide; simplify_eq; try done.
Qed.

Lemma obj_get_remove k k' m :
  obj_get k (obj_remove k' m) = if decide (k = k') then None else obj_get k m.
Proof.
  unfold obj_remove. induction m as [|[k2 v2] m IH]; csimpl; [by case_decide|].
  rewrite filter_cons; csimpl.
  repeat case_decide; csimpl; repeat case_decide; simplify_eq; done.
Qed.

Lemma obj_insert_keys k v m x : x ∈ (obj_insert k v m).*1 ↔ x = k ∨ x ∈ m.*1.
Proof.
  induction m as [|[k2 v2] m IH]; csimpl; [set_solver|].
  repeat case_match; csimpl; set_solver.
Qed.

Lemma obj_insert_sorted k v m : obj_sorted m → obj_sorted (obj_insert k v m).
Proof.
  unfold obj_sorted. induction m as [|[k2 v2] m IH]; csimpl; [repeat constructor|].
  intros [Hs Hk]%StronglySorted_inv. repeat case_match; csimpl.
  - subst. by constructor.
  - constructor; [by constructor|]. constructor; [done|].
    eapply Forall_impl; [done|]. intros x ?. by trans k2.
  - constructor; [by apply IH|]. rewrite Forall_forall in *. intros x Hx.
    apply obj_insert_keys in Hx as [->|Hx]; [|by apply Hk].
    split; [|done]. destruct (string_leb_total k2 k); congruence.
Qed.

Lemma obj_remove_keys k m : (obj_remove k m).*1 = filter (λ x, x ≠ k) m.*1.
Proof.
  unfold obj_remove. induction m as [|[k2 v2] m IH]; [done|].
  csimpl. rewrite !filter_cons; csimpl. case_decide; csimpl; congruence.
Qed.

Lemma obj_remove_sorted k m : obj_sorted m → obj_sorted (obj_remove k m).
Proof.
  unfold obj_sorted. rewrite obj_remove_keys.
  induction 1 as [|x l Hl IH Hx]; [constructor|]. rewrite filter_cons.
  case_decide; [|done]. constructor; [done|].
  rewrite Forall_forall in *. intros y [_ Hy]%list_elem_of_filter. auto.
Qed.

Lemma obj_of_list_sorted l : obj_sorted (obj_of_list l).
Proof.
  unfold obj_of_list. assert (obj_sorted ([] : list (string * A))) as Hm by constructor.
  revert Hm. generalize ([] : list (string * A)).
  induction l as [|kv l IH]; intros m Hm; csimpl; [done|].
  by apply IH, obj_insert_sorted.
Qed.

Lemma obj_sorted_cons k v m :
  obj_sorted ((k, v) :: m) ↔ (∀ x, x ∈ m.*1 → key_lt k x) ∧ obj_sorted m.
Proof.
  unfold obj_sorted; csimpl. split.
  - intros [? Hk]%StronglySorted_inv. by rewrite Forall_forall in Hk.
  - intros [? ?]. constructor; [done|]. by rewrite Forall_forall.
Qed.

Lemma obj_elem_get k v m : obj_sorted m → (k, v) ∈ m → obj_get k m = Some v.
Proof.
  induction m as [|[k2 v2] m IH]; [set_solver|].
  rewrite obj_sorted_cons. intros [Hk Hs] [Heq|Hin]%elem_of_cons; csimpl.
  - simplify_eq. by rewrite decide_True.
  - rewrite decide_False; [by apply IH|]. intros ->.
    assert (k2 ∈ m.*1) as Hin' by (apply list_elem_of_fmap; by exists (k2, v)).
    by destruct (Hk k2 Hin').
Qed.

(** Two sorted objects with the same entries are the same object. *)
Lemma obj_ext m1 m2 :
  obj_sorted m1 → obj_sorted m2 → (∀ k, obj_get k m1 = obj_get k m2) → m1 = m2.
Proof.
  revert m2. induction m1 as [|[k1 v1] m1 IH]; intros [|[k2 v2] m2] H1 H2 Hget.
  - done.
  - specialize (Hget k2). csimpl in Hget. by rewrite decide_True in Hget.
  - specialize (Hget k1). csimpl in Hget. by rewrite decide_True in Hget.
  - apply obj_sorted_cons in H1 as [Hk1 H1]. apply obj_sorted_cons in H2 as [Hk2 H2].
    assert (k1 = k2) as <-.
    { apply dec_stable. intros Hne.
      pose proof (Hget k1) as G1. pose proof (Hget k2) as G2. csimpl in G1. csimpl in G2.
      rewrite decide_True, decide_False in G1 by done.
      rewrite decide_False, decide_True in G2 by done.
      destruct (Hk2 k1) as [L1 _].
      { symmetry in G1. apply list_elem_of_fmap. eexists (_, _).
        split; [|by apply obj_get_Some_elem]. done. }
      destruct (Hk1 k2) as [L2 _].
      { apply list_elem_of_fmap. eexists (_, _).
        split; [|by apply obj_get_Some_elem]. done. }
      apply Hne. by apply string_leb_antisym. }
    pose proof (Hget k1) as G. csimpl in G. rewrite !decide_True in G by done. simplify_eq.
    f_equal. apply IH; [done..|]. intros k. specialize (Hget k). csimpl in Hget.
    case_decide as Hk; [|done]. subst.
    trans (@None A); [|symmetry]; apply obj_get_None; intros Hin;
      [destruct (Hk1 _ Hin)|destruct (Hk2 _ Hin)]; done.
Qed.
End objects.

(** [Value::get] with a key. *)
Definition json_get (k : string) (j : json) : option json := as_object j ≫= obj_get k.

(** ** Well-formed values *)

(** Every object in the value is a sorted map. *)
Fixpoint json_wf (j : json) : Prop :=
  match j with
  | JArray l => foldr (λ j P, json_wf j ∧ P) True l
  | JObject m => obj_sorted m ∧ foldr (λ kv P, json_wf kv.2 ∧ P) True m
  | _ => True
  end.

(** Every object in the value has distinct keys, in any order. *)
Fixpoint keys_distinct (j : json) : Prop :=
  match j with
  | JArray l => foldr (λ j P, keys_distinct j ∧ P) True l
  | JObject m => NoDup m.*1 ∧ foldr (λ kv P, keys_distinct kv.2 ∧ P) True m
  | _ => True
  end.

Lemma foldr_and_Forall {A} (P : A → Prop) l : foldr (λ x Q, P x ∧ Q) True l ↔ Forall P l.
Proof.
  induction l as [|x l IH]; csimpl; [by rewrite Forall_nil|]. by rewrite Forall_cons, IH.
Qed.

(** The same value up to the order of object keys. *)
Inductive json_sim : json → json → Prop :=
| sim_null : json_sim JNull JNull
| sim_bool b : json_sim (JBool b) (JBool b)
| sim_num n : json_sim (JNumber n) (JNumber n)
| sim_str s : json_sim (JString s) (JString s)
| sim_arr l1 l2 : Forall2 json_sim l1 l2 → json_sim (JArray l1) (JArray l2)
| sim_obj m1 m2 m : m ≡ₚ m2 →
    Forall2 (λ a b, a.1 = b.1 ∧ json_sim a.2 b.2) m1 m →
    json_sim (JObject m1) (JObject m2).

(** ** Canonical form *)
Definition entry_leb {A} (a b : string * A) : bool := string_leb a.1 b.1.

Fixpoint canonicalize (j : json) : json :=
  match j with
  | JObject m =>
      JObject (obj_of_list (sort_by entry_leb ((λ kv : string * json, (kv.1, canonicalize kv.2)) <$> m)))
  | JArray l => JArray (canonicalize <$> l)
  | other => other
  end.

Section entries.
Context {A : Type}.
Implicit Types m : list (string * A).

Lemma entry_leb_total (a b : string * A) : entry_leb a b = true ∨ entry_leb b a = true.
Proof. apply string_leb_total. Qed.
Lemma entry_leb_trans (a b c : string * A) :
  entry_leb a b = true → entry_leb b c = true → entry_leb a c = true.
Proof. apply string_leb_trans. Qed.

Lemma NoDup_entry_inj m x y : NoDup m.*1 → x ∈ m → y ∈ m → x.1 = y.1 → x = y.
Proof.
  induction m as [|kv m IH]; csimpl; [set_solver|].
  intros [Hn Hnd]%NoDup_cons [->|Hx]%elem_of_cons [->|Hy]%elem_of_cons Heq; auto.
  - destruct Hn. rewrite Heq. by apply list_elem_of_fmap_2.
  - destruct Hn. rewrite <- Heq. by apply list_elem_of_fmap_2.
Qed.

Lemma sort_entries_perm m1 m2 :
  NoDup m1.*1 → m1 ≡ₚ m2 → sort_by entry_leb m1 = sort_by entry_leb m2.
Proof.
  intros Hnd. apply sort_by_perm_eq; [apply entry_leb_total|apply entry_leb_trans|].
  intros x y Hx Hy Hxy Hyx. eapply NoDup_entry_inj; [done..|].
  by apply string_leb_antisym.
Qed.

Lemma key_sorted_NoDup (l : list string) : StronglySorted key_lt l → NoDup l.
Proof.
  induction 1 as [|k l _ IH Hk]; constructor; [|done].
  rewrite Forall_forall in Hk. intros Hin. by destruct (Hk k Hin).
Qed.

Lemma obj_sorted_NoDup m : obj_sorted m → NoDup m.*1.
Proof. apply key_sorted_NoDup. Qed.

Lemma sort_entries_id m : obj_sorted m → sort_by entry_leb m = m.
Proof.
  intros Hs. apply sort_by_id. induction m as [|[k v] m IH]; [constructor|].
  apply obj_sorted_cons in Hs as [Hk Hs]. constructor; [by apply IH|].
  rewrite Forall_forall. intros kv Hin. apply Hk. by apply list_elem_of_fmap_2.
Qed.

Lemma obj_insert_last k v m :
  (∀ x, x ∈ m.*1 → key_lt x k) → obj_insert k v m = m ++ [(k, v)].
Proof.
  induction m as [|[k2 v2] m IH]; csimpl; [done|]. intros Hk.
  destruct (Hk k2) as [Hle Hne]; [set_solver|]. rewrite decide_False by done.
  destruct (string_leb k k2) eqn:Hl; [destruct Hne; by apply string_leb_antisym|].
  rewrite IH; [done|set_solver].
Qed.

Lemma obj_of_list_id m : obj_sorted m → obj_of_list m = m.
Proof.
  unfold obj_of_list. cut (∀ p, obj_sorted (p ++ m) →
    foldl (λ m kv, obj_insert kv.1 kv.2 m) p m = p ++ m); [intros H; apply (H [])|].
  induction m as [|[k v] m IH]; intros p Hs; csimpl; [by rewrite app_nil_r|].
  rewrite obj_insert_last.
  - rewrite IH; [by rewrite <- app_assoc|by rewrite <- app_assoc].
  - clear IH. unfold obj_sorted in Hs. rewrite fmap_app in Hs.
    induction p as [|kv p IHp]; csimpl in *; [set_solver|].
    apply StronglySorted_inv in Hs as [Hs Hx]. rewrite Forall_forall in Hx.
    intros x [->|Hin]%elem_of_cons; [apply Hx; set_solver|by apply IHp].
Qed.

Lemma sort_entries_sorted m : NoDup m.*1 → obj_sorted (sort_by entry_leb m).
Proof.
  intros Hnd.
  pose proof (sort_by_sorted _ entry_leb_total entry_leb_trans m) as Hs.
  assert (NoDup (sort_by entry_leb m).*1) as Hnd' by by rewrite sort_by_perm.
  revert Hs Hnd'. generalize (sort_by entry_leb m). clear.
  induction l as [|[k v] l IH]; [constructor|]. csimpl.
  intros [Hs Hk]%StronglySorted_inv [Hn Hnd]%NoDup_cons.
  apply obj_sorted_cons. split; [|by apply IH].
  rewrite Forall_forall in Hk. intros x (kv & -> & Hin)%list_elem_of_fmap.
  split; [by apply Hk|]. intros ->. destruct Hn. by apply list_elem_of_fmap_2.
Qed.
End entries.

Lemma canonicalize_object_keys m :
  ((λ kv : string * json, (kv.1, canonicalize kv.2)) <$> m).*1 = m.*1.
Proof. rewrite <- list_fmap_compose. by apply list_fmap_ext. Qed.

(** The canonical form is a well-formed value, whatever the order was. *)
Lemma canonicalize_wf j : json_wf (canonicalize j).
Proof.
  induction j as [| | | |l IH|m IH] using json_ind'; csimpl; try done.
  - rewrite foldr_and_Forall, Forall_fmap. by eapply Forall_impl.
  - split; [apply obj_of_list_sorted|].
    rewrite (foldr_and_Forall (λ kv : string * json, json_wf kv.2)).
    assert (Forall (λ kv, json_wf kv.2)
      (sort_by entry_leb ((λ kv : string * json, (kv.1, canonicalize kv.2)) <$> m))) as Hall.
    { rewrite Forall_forall. intros kv. rewrite elem_of_sort_by.
      intros (kv' & -> & Hin)%list_elem_of_fmap. rewrite Forall_forall in IH. by apply IH. }
    revert Hall. unfold obj_of_list. generalize (sort_by entry_leb
      ((λ kv : string * json, (kv.1, canonicalize kv.2)) <$> m)). intros l.
    assert (Forall (λ kv, json_wf kv.2) ([] : list (string * json))) as Hnil by constructor.
    revert Hnil. generalize ([] : list (string * json)). clear.
    induction l as [|kv l IH]; intros a Ha; csimpl; [done|].
    intros [Hkv Hl]%Forall_cons. apply IH; [|done]. clear IH Hl.
    induction a as [|[k v] a IHa]; csimpl; [by repeat constructor|].
    apply Forall_cons in Ha as [Hv Ha].
    repeat case_match; repeat constructor; auto.
Qed.

Lemma canonicalize_id j : json_wf j → canonicalize j = j.
Proof.
  induction j as [| | | |l IH|m IH] using json_ind'; csimpl; try done.
  - rewrite foldr_and_Forall. intros Hl. f_equal.
    rewrite <- (list_fmap_id l) at 2. apply list_fmap_ext. intros i x Hx.
    eapply Forall_lookup_1 in IH; [|done]. eapply Forall_lookup_1 in Hl; [|done]. auto.
  - rewrite (foldr_and_Forall (λ kv : string * json, json_wf kv.2)). intros [Hs Hm].
    assert ((λ kv : string * json, (kv.1, canonicalize kv.2)) <$> m = m) as ->.
    { rewrite <- (list_fmap_id m) at 2. apply list_fmap_ext. intros i [k v] Hx.
      eapply Forall_lookup_1 in IH; [|done]. eapply Forall_lookup_1 in Hm; [|done].
      csimpl in *. by rewrite IH. }
    by rewrite sort_entries_id, obj_of_list_id.
Qed.

(** Sorting keys recursively forgets the order in which they were met. *)
Lemma canonicalize_sim j1 j2 :
  keys_distinct j1 → json_sim j1 j2 → canonicalize j1 = canonicalize j2.
Proof.
  revert j2. induction j1 as [| | | |l IH|m IH] using json_ind';
    intros j2 Hd Hsim; inversion Hsim as [| | | |? l2 Hl|? m2 m' Hp Hm]; subst; try done; csimpl in *.
  - f_equal. rewrite foldr_and_Forall in Hd. clear Hsim.
    revert l2 Hl. induction l as [|j l IHl]; intros l2 Hl;
      apply Forall2_cons_inv_l in Hl as (j2 & l2' & ? & ? & ->) || apply Forall2_nil_inv_l in Hl as ->; [done|].
    apply Forall_cons in IH as [IHj IH]. apply Forall_cons in Hd as [Hj Hd].
    csimpl. f_equal; auto.
  - f_equal. f_equal. destruct Hd as [Hnd Hd].
    rewrite (foldr_and_Forall (λ kv : string * json, keys_distinct kv.2)) in Hd.
    apply sort_entries_perm; [by rewrite canonicalize_object_keys|].
    rewrite <- Hp. apply Permutation_refl'. clear Hp Hnd Hsim m2.
    revert m' Hm. induction m as [|[k v] m IHm]; intros m' Hm;
      apply Forall2_cons_inv_l in Hm as ([k2 v2] & m2' & [? ?] & ? & ->) || apply Forall2_nil_inv_l in Hm as ->; [done|].
    apply Forall_cons in IH as [IHv IH]. apply Forall_cons in Hd as [Hv Hd].
    csimpl in *. subst. f_equal; [f_equal; auto|auto].
Qed.

(** Collecting entries with distinct keys does not depend on their order. *)
Lemma obj_of_list_get {A} (l : list (string * A)) k v :
  NoDup l.*1 → obj_get k (obj_of_list l) = Some v ↔ (k, v) ∈ l.
Proof.
  induction l as [|[k' v'] l IH] using rev_ind; [set_solver|].
  rewrite fmap_app. csimpl. intros (Hnd & Hn & _)%NoDup_app.
  unfold obj_of_list. rewrite foldl_app. csimpl. fold (obj_of_list l).
  rewrite obj_get_insert, elem_of_app, list_elem_of_singleton, <- IH by done.
  case_decide as Hk; subst.
  - split; [intros [= <-]; auto|]. intros [Hin|[= ->]]; [|done].
    exfalso. apply (Hn k'); [|set_solver]. apply IH, (list_elem_of_fmap_2 fst) in Hin; [|done]. done.
  - split; [auto|]. by intros [?|[=]].
Qed.

Lemma obj_of_list_perm {A} (l1 l2 : list (string * A)) :
  NoDup l1.*1 → l1 ≡ₚ l2 → obj_of_list l1 = obj_of_list l2.
Proof.
  intros Hnd Hp. apply obj_ext; [apply obj_of_list_sorted..|]. intros k.
  apply option_eq. intros v. rewrite !obj_of_list_get; [by rewrite Hp|by rewrite <- Hp|done].
Qed.
