(* ===== verification/WorkflowIr.v ===== *)
(** * The planning IR: data, validation, builder, canonical form

    Models the crate [fusion-ir] ([crates/fusion-ir/src]): [node.rs],
    [edge.rs], [workflow.rs] (the data), [validate.rs] (structural, semantic
    and architectural checks and the sorted report), [builder.rs] (the fluent
    builder) and [serialize.rs] (canonical order and intake). Validation is
    proved equivalent to a declarative notion of well-formed workflow. *)
From S2P Require Import Prelude Graphs Json Money.

(** ** Data *)
Inductive WorkflowNodeKind :=
| Task | Tool | Retrieval | Memory | Review | Judge | Security | Aggregation | Output.
Inductive WorkflowEdgeKind :=
| Sequential | Parallel | Conditional | Retry | Merge | Loop.
#[global] Instance WorkflowNodeKind_eq_dec : EqDecision WorkflowNodeKind.
Proof. solve_decision. Defined.
#[global] Instance WorkflowEdgeKind_eq_dec : EqDecision WorkflowEdgeKind.
Proof. solve_decision. Defined.

Record WorkflowNode := mkNode {
  n_id : string;
  n_kind : WorkflowNodeKind;
  n_capability : option string;
  n_selected_model : option string;
  n_config : list (string * json);
}.

Record WorkflowEdge := mkEdge {
  e_from : string;
  e_to : string;
  e_kind : WorkflowEdgeKind;
  e_condition : option string;
}.

Record WorkflowMetadata := mkMetadata {
  policy_applied : list string;
  policy_version : Z;
  estimated_cost : NanoUSD;
  estimated_tokens : Z;
}.

Record WorkflowIR := mkWorkflow {
  version : Z;
  workflow_id : N;
  nodes : list WorkflowNode;
  edges : list WorkflowEdge;
  metadata : WorkflowMetadata;
}.

Definition WORKFLOW_IR_VERSION : Z := 1.
Definition default_metadata : WorkflowMetadata := mkMetadata [] 0 ZERO 0.

(** [format!("{:?}", kind)]: the derived [Debug] prints the constructor. *)
Definition edge_kind_debug (k : WorkflowEdgeKind) : string :=
  match k with
  | Sequential => "Sequential" | Parallel => "Parallel" | Conditional => "Conditional"
  | Retry => "Retry" | Merge => "Merge" | Loop => "Loop"
  end.

(** ** Errors and the report *)
Inductive ValidationError :=
| DuplicateNodeId (id : string)
| UnknownNodeRef (id : string)
| UnreachableNode (id : string)
| MissingRoot
| IllegalCycle (from to : string)
| MissingCondition (from to : string)
| NotRetryable (id : string)
| MergeArity (id : string)
| OutputOutgoing (id : string)
| SplitArity (id : string)
| LoopConfig (id : string)
| BarrierArity (id : string)
| ProviderField (key : string)
| VersionMismatch (got expected : Z).

(** [impl Display for ValidationError], part of the sort key of the report. *)
Definition error_display (e : ValidationError) : string :=
  match e with
  | DuplicateNodeId x => "duplicate node id `" +:+ x +:+ "`"
  | UnknownNodeRef x => "edge references unknown node `" +:+ x +:+ "`"
  | UnreachableNode x => "node `" +:+ x +:+ "` is unreachable"
  | MissingRoot => "graph has no root node"
  | IllegalCycle f t =>
      "edge `" +:+ f +:+ "` -> `" +:+ t +:+
      "` may not form a cycle (only Loop edges may cycle)"
  | MissingCondition f t =>
      "conditional edge `" +:+ f +:+ "` -> `" +:+ t +:+ "` requires a condition"
  | NotRetryable x => "retry edge source `" +:+ x +:+ "` is not retryable"
  | MergeArity x =>
      "merge target `" +:+ x +:+ "` requires at least two incoming edges"
  | OutputOutgoing x => "output node `" +:+ x +:+ "` may not have outgoing edges"
  | SplitArity x => "split node `" +:+ x +:+ "` requires at least two outgoing edges"
  | LoopConfig x =>
      "loop edge source `" +:+ x +:+ "` requires `max_iterations` in config"
  | BarrierArity x =>
      "barrier node `" +:+ x +:+
      "` requires at least one incoming and one outgoing edge"
  | ProviderField k =>
      "provider-identifying field `" +:+ k +:+ "` is reserved by the architecture"
  | VersionMismatch g x =>
      "workflow version " +:+ pretty g +:+ " is not supported (expected "
      +:+ pretty x +:+ ")"
  end.

Record ValidationIssue := mkIssue {
  i_node : option string;
  i_edge : option string;
  i_error : ValidationError;
}.
Definition ValidationReport := list ValidationIssue.

Definition first_error (report : ValidationReport) : option ValidationError :=
  i_error <$> head report.

Definition issue_key (i : ValidationIssue) : string * (string * string) :=
  (default "" (i_node i), (default "" (i_edge i), error_display (i_error i))).
Definition issue_leb (a b : ValidationIssue) : bool :=
  lex_leb string_leb (lex_leb string_leb string_leb) (issue_key a) (issue_key b).
Definition sort_deterministic (report : ValidationReport) : ValidationReport :=
  sort_by issue_leb report.

(** ** Structural checks *)
Definition node_ids (ir : WorkflowIR) : list string := n_id <$> nodes ir.
Definition seen_ids (ir : WorkflowIR) : gset string := list_to_set (node_ids ir).
Definition edge_ref (from to : string) : string := from +:+ " -> " +:+ to.

(** [if b { report.push(issue) }] *)
Definition push_if (b : bool) (i : ValidationIssue) : list ValidationIssue :=
  if b then [i] else [].

Fixpoint duplicate_issues (seen : gset string) (ids : list string)
    : list ValidationIssue :=
  match ids with
  | [] => []
  | x :: ids =>
      push_if (bool_decide (x ∈ seen)) (mkIssue (Some x) None (DuplicateNodeId x))
      ++ duplicate_issues ({[x]} ∪ seen) ids
  end.

Definition unknown_ref_issues (seen : gset string) (e : WorkflowEdge)
    : list ValidationIssue :=
  let r := Some (edge_ref (e_from e) (e_to e)) in
  push_if (bool_decide (e_from e ∉ seen)) (mkIssue None r (UnknownNodeRef (e_from e)))
  ++ push_if (bool_decide (e_to e ∉ seen)) (mkIssue None r (UnknownNodeRef (e_to e))).

Definition adjacency (es : list WorkflowEdge) : gmap string (list string) :=
  foldl (λ m e, push_at (e_from e) (e_to e) m) ∅ es.
Definition neighbours (m : gmap string (list string)) (v : string) : list string :=
  default [] (m !! v).
Definition incoming_counts (es : list WorkflowEdge) : gmap string nat :=
  foldl (λ m e, incr_at (e_to e) m) ∅ es.
Definition outgoing_counts (es : list WorkflowEdge) : gmap string nat :=
  foldl (λ m e, incr_at (e_from e) m) ∅ es.
Definition count_of (m : gmap string nat) (v : string) : nat := default 0%nat (m !! v).

Definition non_loop_edges (ir : WorkflowIR) : list WorkflowEdge :=
  filter (λ e, e_kind e ≠ Loop) (edges ir).

Definition roots (ir : WorkflowIR) : list string :=
  let incoming := incoming_counts (filter (λ e, e_to e ∈ seen_ids ir) (non_loop_edges ir)) in
  filter (λ id, count_of incoming id = 0%nat) (node_ids ir).

(** Every identifier the graph mentions. *)
Definition mentioned (ir : WorkflowIR) : list string :=
  node_ids ir ++ (e_from <$> edges ir) ++ (e_to <$> edges ir).

(** [while let Some(cur) = queue.pop()]: the end of the vector is popped first. *)
Definition reachable_ids (ir : WorkflowIR) : gset string :=
  let ch := neighbours (adjacency (edges ir)) in
  default ∅ (wl_loop (push_stack ch) (wl_fuel ch (mentioned ir) (roots ir))
    (reverse (roots ir)) ∅).

Definition structural_checks (ir : WorkflowIR) : list ValidationIssue :=
  let reachable := reachable_ids ir in
  duplicate_issues ∅ (node_ids ir)
  ++ (edges ir ≫= unknown_ref_issues (seen_ids ir))
  ++ push_if (bool_decide (roots ir = [])) (mkIssue None None MissingRoot)
  ++ (nodes ir ≫= λ n, push_if (bool_decide (n_id n ∉ reachable))
        (mkIssue (Some (n_id n)) None (UnreachableNode (n_id n)))).

(** ** Semantic checks *)
Definition find_node (ir : WorkflowIR) (id : string) : option WorkflowNode :=
  snd <$> list_find (λ n, n_id n = id) (nodes ir).
Definition node_kind_of (ir : WorkflowIR) (id : string) : option WorkflowNodeKind :=
  n_kind <$> find_node ir id.
Definition control_flow_marker (ir : WorkflowIR) (id : string) : option string :=
  n ← find_node ir id; v ← obj_get "control_flow" (n_config n); as_str v.

Definition merge_sources (ir : WorkflowIR) (id : string) : nat :=
  size (list_to_set (e_from <$> filter (λ e, e_kind e = Merge ∧ e_to e = id) (edges ir))
    : gset string).

Definition retryable (k : option WorkflowNodeKind) : bool :=
  match k with Some Task | Some Tool | Some Retrieval => true | _ => false end.

Definition edge_semantic_issues (ir : WorkflowIR) (e : WorkflowEdge)
    : list ValidationIssue :=
  let r := Some (edge_ref (e_from e) (e_to e)) in
  match e_kind e with
  | Conditional =>
      push_if (bool_decide (default "" (e_condition e) = ""))
        (mkIssue None r (MissingCondition (e_from e) (e_to e)))
  | Retry =>
      push_if (negb (retryable (node_kind_of ir (e_from e))))
        (mkIssue None r (NotRetryable (e_from e)))
  | Merge =>
      push_if (bool_decide (merge_sources ir (e_to e) < 2)%nat)
        (mkIssue None r (MergeArity (e_to e)))
  | _ => []
  end.

Definition output_issues (out : gmap string nat) (n : WorkflowNode)
    : list ValidationIssue :=
  push_if (bool_decide (n_kind n = Output ∧ (0 < count_of out (n_id n))%nat))
    (mkIssue (Some (n_id n)) None (OutputOutgoing (n_id n))).

(** The iterative three-colour search over the edges that are not loops. *)
Definition non_loop_cycle_back_edges (ir : WorkflowIR) : list (string * string) :=
  let ch := neighbours (adjacency (non_loop_edges ir)) in
  match dfs_roots ch (dfs_fuel ch (mentioned ir)) dfs_init (node_ids ir) with
  | Some st => dfs_back st
  | None => []
  end.

Definition loop_config_issues (ir : WorkflowIR) (e : WorkflowEdge)
    : list ValidationIssue :=
  if decide (e_kind e = Loop) then
    match control_flow_marker ir (e_from e) with
    | Some marker =>
        if decide (marker = "loop") then
          let has_max := match find_node ir (e_from e) with
            | Some n => bool_decide (is_Some (obj_get "max_iterations" (n_config n)))
            | None => false end in
          push_if (negb has_max)
            (mkIssue (Some (e_from e)) (Some (edge_ref (e_from e) (e_to e)))
               (LoopConfig (e_from e)))
        else []
    | None => []
    end
  else [].

Definition marker_arity_issues (ir : WorkflowIR) (inc out : gmap string nat)
    (n : WorkflowNode) : list ValidationIssue :=
  match control_flow_marker ir (n_id n) with
  | Some marker =>
      if decide (marker = "split") then
        push_if (bool_decide (count_of out (n_id n) < 2)%nat)
          (mkIssue (Some (n_id n)) None (SplitArity (n_id n)))
      else if decide (marker = "barrier") then
        push_if (bool_decide (count_of inc (n_id n) < 1 ∨ count_of out (n_id n) < 1)%nat)
          (mkIssue (Some (n_id n)) None (BarrierArity (n_id n)))
      else []
  | None => []
  end.

Definition semantic_checks (ir : WorkflowIR) : list ValidationIssue :=
  let inc := incoming_counts (edges ir) in
  let out := outgoing_counts (edges ir) in
  (edges ir ≫= edge_semantic_issues ir)
  ++ (nodes ir ≫= output_issues out)
  ++ ((λ ft, mkIssue None (Some (edge_ref ft.1 ft.2)) (IllegalCycle ft.1 ft.2))
        <$> non_loop_cycle_back_edges ir)
  ++ (edges ir ≫= loop_config_issues ir)
  ++ (nodes ir ≫= marker_arity_issues ir inc out).

(** ** Architectural checks *)
Definition RESERVED_PROVIDER_KEYS : list string := ["model"; "provider"; "endpoint"].

Fixpoint scan_for_provider_keys (path : string) (value : json) : list ValidationIssue :=
  match value with
  | JObject m =>
      m ≫= λ kv,
        push_if (bool_decide (kv.1 ∈ RESERVED_PROVIDER_KEYS))
          (mkIssue (Some path) None (ProviderField kv.1))
        ++ scan_for_provider_keys path kv.2
  | JArray items => items ≫= scan_for_provider_keys path
  | _ => []
  end.

Definition architectural_checks (ir : WorkflowIR) : list ValidationIssue :=
  push_if (bool_decide (version ir ≠ WORKFLOW_IR_VERSION))
    (mkIssue None None (VersionMismatch (version ir) WORKFLOW_IR_VERSION))
  ++ (nodes ir ≫= λ n, scan_for_provider_keys (n_id n) (JObject (n_config n))).

Definition run_all (ir : WorkflowIR) (report : ValidationReport) : ValidationReport :=
  report ++ structural_checks ir ++ semantic_checks ir ++ architectural_checks ir.

Definition validate (ir : WorkflowIR) : ValidationReport :=
  sort_deterministic (run_all ir []).

(** ** The builder *)
Record WorkflowBuilder := mkBuilder {
  b_workflow_id : option N;
  b_nodes : list WorkflowNode;
  b_edges : list WorkflowEdge;
  b_metadata : WorkflowMetadata;
  b_seen : gset string;
}.

Definition builder_new : WorkflowBuilder := mkBuilder None [] [] default_metadata ∅.
Definition with_workflow_id (id : N) (b : WorkflowBuilder) : WorkflowBuilder :=
  mkBuilder (Some id) (b_nodes b) (b_edges b) (b_metadata b) (b_seen b).
Definition with_metadata (m : WorkflowMetadata) (b : WorkflowBuilder) : WorkflowBuilder :=
  mkBuilder (b_workflow_id b) (b_nodes b) (b_edges b) m (b_seen b).

Definition add_node_with_model (id : string) (kind : WorkflowNodeKind)
    (capability selected_model : option string) (config : list (string * json))
    (b : WorkflowBuilder) : result ValidationError WorkflowBuilder :=
  if decide (id ∈ b_seen b) then Err (DuplicateNodeId id)
  else Ok (mkBuilder (b_workflow_id b)
    (b_nodes b ++ [mkNode id kind capability selected_model config])
    (b_edges b) (b_metadata b) ({[id]} ∪ b_seen b)).
Definition add_node_with_config (id : string) (kind : WorkflowNodeKind)
    (capability : option string) (config : list (string * json)) :=
  add_node_with_model id kind capability None config.
Definition add_node (id : string) (kind : WorkflowNodeKind) (capability : option string) :=
  add_node_with_model id kind capability None [].

(** [iter_mut().find(..)]: only the first match is changed. *)
Fixpoint set_config (id : string) (config : list (string * json))
    (l : list WorkflowNode) : option (list WorkflowNode) :=
  match l with
  | [] => None
  | n :: l =>
      if decide (n_id n = id)
      then Some (mkNode (n_id n) (n_kind n) (n_capability n) (n_selected_model n) config :: l)
      else cons n <$> set_config id config l
  end.
Definition with_config (id : string) (config : list (string * json)) (b : WorkflowBuilder)
    : result ValidationError WorkflowBuilder :=
  ns ← ok_or (UnknownNodeRef id) (set_config id config (b_nodes b));
  Ok (mkBuilder (b_workflow_id b) ns (b_edges b) (b_metadata b) (b_seen b)).

Definition add_edge (from to : string) (kind : WorkflowEdgeKind)
    (condition : option string) (b : WorkflowBuilder)
    : result ValidationError WorkflowBuilder :=
  try_for_each (λ r, if decide (r ∈ b_seen b) then Ok tt else Err (UnknownNodeRef r))
    [from; to];;
  Ok (mkBuilder (b_workflow_id b) (b_nodes b)
    (b_edges b ++ [mkEdge from to kind condition]) (b_metadata b) (b_seen b)).

(** The calls with a fixed kind. *)
Module Builder.
Definition task id cap := add_node id Task (Some cap).
Definition tool id cap := add_node id Tool (Some cap).
Definition retrieval id cap := add_node id Retrieval (Some cap).
Definition memory id cap := add_node id Memory (Some cap).
Definition review id cap := add_node id Review (Some cap).
Definition judge id cap := add_node id Judge (Some cap).
Definition security id cap := add_node id Security (Some cap).
Definition aggregation id cap := add_node id Aggregation (Some cap).
Definition output id := add_node id Output None.
Definition sequential from to := add_edge from to Sequential None.
Definition parallel from to := add_edge from to Parallel None.
Definition conditional from to condition := add_edge from to Conditional (Some condition).
Definition retry from to := add_edge from to Retry None.
Definition merge from to := add_edge from to Merge None.
Definition loop_edge from to := add_edge from to Loop None.
End Builder.

(** [fresh] is what [Uuid::new_v4] returns. *)
Definition build (fresh : N) (b : WorkflowBuilder) : result ValidationError WorkflowIR :=
  let ir := mkWorkflow WORKFLOW_IR_VERSION (default fresh (b_workflow_id b))
    (b_nodes b) (b_edges b) (b_metadata b) in
  match first_error (validate ir) with
  | Some e => Err e
  | None => Ok ir
  end.

(** One call on the builder that succeeds. *)
Inductive builder_step : WorkflowBuilder → WorkflowBuilder → Prop :=
| step_id id b : builder_step b (with_workflow_id id b)
| step_metadata m b : builder_step b (with_metadata m b)
| step_node id k c m cfg b b' :
    add_node_with_model id k c m cfg b = Ok b' → builder_step b b'
| step_config id cfg b b' : with_config id cfg b = Ok b' → builder_step b b'
| step_edge f t k c b b' : add_edge f t k c b = Ok b' → builder_step b b'.

(** ** Canonical form and intake *)
Definition edge_sort_key (e : WorkflowEdge) : string * (string * (string * string)) :=
  (e_from e, (e_to e, (edge_kind_debug (e_kind e), default "" (e_condition e)))).
Definition edge_leb (a b : WorkflowEdge) : bool :=
  lex_leb string_leb (lex_leb string_leb (lex_leb string_leb string_leb))
    (edge_sort_key a) (edge_sort_key b).
Definition node_leb (a b : WorkflowNode) : bool := string_leb (n_id a) (n_id b).

(** The workflow that [to_canonical_json] serializes. *)
Definition canonical (ir : WorkflowIR) : WorkflowIR :=
  mkWorkflow (version ir) (workflow_id ir) (sort_by node_leb (nodes ir))
    (sort_by edge_leb (edges ir)) (metadata ir).

Inductive WorkflowIrError (serde_error : Type) :=
| Serde (e : serde_error)
| Validation (e : ValidationError).
Arguments Serde {_} _.
Arguments Validation {_} _.

Section serde.
(** [serde_json::to_string] and [from_str] on the derived implementations. *)
Context {serde_error : Type}.
Context (to_string : WorkflowIR → result serde_error string).
Context (from_str : string → result serde_error WorkflowIR).

Definition to_canonical_json (ir : WorkflowIR)
    : result (WorkflowIrError serde_error) string :=
  map_err Serde (to_string (canonical ir)).

Definition from_json (s : string) : result (WorkflowIrError serde_error) WorkflowIR :=
  ir ← map_err Serde (from_str s);
  if existsb (λ n, bool_decide (is_Some (n_selected_model n))) (nodes ir)
  then Err (Validation (ProviderField "selected_model"))
  else match first_error (validate ir) with
       | Some e => Err (Validation e)
       | None => Ok ir
       end.
End serde.

(** ** What validation is meant to establish *)

Definition points_to (es : list WorkflowEdge) (u v : string) : Prop :=
  ∃ e, e ∈ es ∧ e_from e = u ∧ e_to e = v.

(** An entry point: a node into which only loop edges lead. *)
Definition is_root (ir : WorkflowIR) (r : string) : Prop :=
  r ∈ node_ids ir ∧ ∀ e, e ∈ edges ir → e_kind e ≠ Loop → e_to e ≠ r.

Inductive mentions_key (k : string) : json → Prop :=
| mentions_here m v : (k, v) ∈ m → mentions_key k (JObject m)
| mentions_below m k' v : (k', v) ∈ m → mentions_key k v → mentions_key k (JObject m)
| mentions_item l j : j ∈ l → mentions_key k j → mentions_key k (JArray l).

Definition out_degree (ir : WorkflowIR) (id : string) : nat :=
  length (filter (λ e, e_from e = id) (edges ir)).
Definition in_degree (ir : WorkflowIR) (id : string) : nat :=
  length (filter (λ e, e_to e = id) (edges ir)).

Definition edge_ok (ir : WorkflowIR) (e : WorkflowEdge) : Prop :=
  match e_kind e with
  | Conditional => ∃ c, e_condition e = Some c ∧ c ≠ ""
  | Retry => ∃ n, find_node ir (e_from e) = Some n ∧ n_kind n ∈ [Task; Tool; Retrieval]
  | Merge => ∃ e1 e2, e1 ∈ edges ir ∧ e2 ∈ edges ir ∧ e_kind e1 = Merge ∧
      e_kind e2 = Merge ∧ e_to e1 = e_to e ∧ e_to e2 = e_to e ∧ e_from e1 ≠ e_from e2
  | Loop => ∀ n, find_node ir (e_from e) = Some n →
      obj_get "control_flow" (n_config n) = Some (JString "loop") →
      is_Some (obj_get "max_iterations" (n_config n))
  | _ => True
  end.

Definition node_ok (ir : WorkflowIR) (n : WorkflowNode) : Prop :=
  (n_kind n = Output → out_degree ir (n_id n) = 0%nat) ∧
  (control_flow_marker ir (n_id n) = Some "split" → (2 <= out_degree ir (n_id n))%nat) ∧
  (control_flow_marker ir (n_id n) = Some "barrier" →
     (1 <= in_degree ir (n_id n))%nat ∧ (1 <= out_degree ir (n_id n))%nat) ∧
  (∀ k, k ∈ RESERVED_PROVIDER_KEYS → ¬ mentions_key k (JObject (n_config n))).

Record well_formed (ir : WorkflowIR) : Prop := {
  wf_version : version ir = WORKFLOW_IR_VERSION;
  wf_ids : NoDup (node_ids ir);
  wf_refs : ∀ e, e ∈ edges ir → e_from e ∈ node_ids ir ∧ e_to e ∈ node_ids ir;
  wf_root : ∃ r, is_root ir r;
  wf_reach : ∀ id, id ∈ node_ids ir →
    ∃ r, is_root ir r ∧ rtc (points_to (edges ir)) r id;
  wf_acyclic : ∀ id, ¬ tc (points_to (non_loop_edges ir)) id id;
  wf_edges : ∀ e, e ∈ edges ir → edge_ok ir e;
  wf_nodes : ∀ n, n ∈ nodes ir → node_ok ir n;
}.

(** ** Lemmas on the checks *)
Lemma bind_nil {A B} (f : A → list B) l : l ≫= f = [] ↔ ∀ x, x ∈ l → f x = [].
Proof.
  induction l as [|x l IH]; csimpl; [set_solver|].
  rewrite app_nil, IH. set_solver.
Qed.

Lemma push_if_nil b i : push_if b i = [] ↔ b = false.
Proof. by destruct b. Qed.

Lemma neighbours_adjacency es u : neighbours (adjacency es) u = e_to <$> filter (λ e, e_from e = u) es.
Proof. unfold neighbours, adjacency. by rewrite lookup_push_fold. Qed.

Lemma edge_adjacency es u v : edge (neighbours (adjacency es)) u v ↔ points_to es u v.
Proof.
  unfold edge, points_to. rewrite neighbours_adjacency, list_elem_of_fmap.
  setoid_rewrite list_elem_of_filter. naive_solver.
Qed.

Lemma incoming_count es v :
  count_of (incoming_counts es) v = length (filter (λ e, e_to e = v) es).
Proof. unfold count_of, incoming_counts. by rewrite lookup_incr_fold. Qed.
Lemma outgoing_count es v :
  count_of (outgoing_counts es) v = length (filter (λ e, e_from e = v) es).
Proof. unfold count_of, outgoing_counts. by rewrite lookup_incr_fold. Qed.

Lemma filter_nil_iff {A} (P : A → Prop) `{∀ x, Decision (P x)} l :
  length (filter P l) = 0%nat ↔ ∀ x, x ∈ l → ¬ P x.
Proof.
  induction l as [|x l IH]; [set_solver|]. rewrite filter_cons.
  case_decide; csimpl; set_solver.
Qed.

Lemma elem_of_roots ir r : r ∈ roots ir ↔ is_root ir r.
Proof.
  unfold roots, is_root. rewrite list_elem_of_filter, incoming_count, filter_nil_iff.
  unfold non_loop_edges, seen_ids. setoid_rewrite list_elem_of_filter.
  setoid_rewrite list_elem_of_filter. setoid_rewrite elem_of_list_to_set.
  split; (intros [H1 H2]; split; [|done]) || (intros [H1 H2]; split; [done|]); naive_solver.
Qed.

Lemma mentioned_closed es ir u w :
  (∀ e, e ∈ es → e ∈ edges ir) →
  u ∈ mentioned ir → edge (neighbours (adjacency es)) u w → w ∈ mentioned ir.
Proof.
  intros Hes _ (e & He & _ & <-)%edge_adjacency. unfold mentioned.
  rewrite !elem_of_app. right; right. apply list_elem_of_fmap_2. auto.
Qed.

Lemma node_ids_mentioned ir x : x ∈ node_ids ir → x ∈ mentioned ir.
Proof. unfold mentioned. set_solver. Qed.

Lemma non_loop_edges_sub ir e : e ∈ non_loop_edges ir → e ∈ edges ir.
Proof. unfold non_loop_edges. rewrite list_elem_of_filter. tauto. Qed.

Lemma reachable_ids_spec ir v :
  v ∈ reachable_ids ir ↔ ∃ r, is_root ir r ∧ rtc (points_to (edges ir)) r v.
Proof.
  unfold reachable_ids.
  destruct (wl_loop_correct (neighbours (adjacency (edges ir)))
    (push_stack (neighbours (adjacency (edges ir)))) (push_stack_ok _)
    (mentioned ir) (roots ir) (reverse (roots ir))
    (wl_fuel (neighbours (adjacency (edges ir))) (mentioned ir) (roots ir)))
    as (vis & -> & Hvis).
  - intros u w. by apply mentioned_closed.
  - intros x (Hx & _)%elem_of_roots. by apply node_ids_mentioned.
  - done.
  - by rewrite reverse_Permutation.
  - csimpl. rewrite Hvis. setoid_rewrite elem_of_roots.
    setoid_rewrite (rtc_iff _ _ _ _ (edge_adjacency (edges ir))). done.
Qed.

Lemma back_edges_spec ir :
  (non_loop_cycle_back_edges ir = [] ↔
   ∀ r v, r ∈ node_ids ir → rtc (points_to (non_loop_edges ir)) r v →
     ¬ tc (points_to (non_loop_edges ir)) v v) ∧
  (∀ u w, (u, w) ∈ non_loop_cycle_back_edges ir →
     points_to (non_loop_edges ir) u w ∧ rtc (points_to (non_loop_edges ir)) w u).
Proof.
  unfold non_loop_cycle_back_edges.
  destruct (dfs_correct (neighbours (adjacency (non_loop_edges ir))) (mentioned ir)
    (node_ids ir) (dfs_fuel (neighbours (adjacency (non_loop_edges ir))) (mentioned ir)))
    as (st & -> & Hst & Hback).
  - intros u w. apply mentioned_closed, non_loop_edges_sub.
  - apply node_ids_mentioned.
  - done.
  - setoid_rewrite (rtc_iff _ _ _ _ (edge_adjacency (non_loop_edges ir))) in Hst.
    setoid_rewrite (tc_iff _ _ _ _ (edge_adjacency (non_loop_edges ir))) in Hst.
    split; [done|]. intros u w Huw. destruct (Hback u w Huw) as [He Hr].
    split; [by apply edge_adjacency|].
    by apply (rtc_iff _ _ _ _ (edge_adjacency (non_loop_edges ir))).
Qed.

Lemma duplicate_issues_nil seen ids :
  duplicate_issues seen ids = [] ↔ NoDup ids ∧ ∀ x, x ∈ ids → x ∉ seen.
Proof.
  revert seen. induction ids as [|x ids IH]; intros seen; csimpl.
  { split; [split; [constructor|set_solver]|done]. }
  rewrite app_nil, push_if_nil, bool_decide_eq_false, IH, NoDup_cons. set_solver.
Qed.

Lemma unknown_ref_issues_nil seen e :
  unknown_ref_issues seen e = [] ↔ e_from e ∈ seen ∧ e_to e ∈ seen.
Proof.
  unfold unknown_ref_issues. rewrite app_nil, !push_if_nil, !bool_decide_eq_false.
  by rewrite !not_not_dec by apply _.
Qed.

Lemma structural_checks_nil ir :
  structural_checks ir = [] ↔
  NoDup (node_ids ir) ∧
  (∀ e, e ∈ edges ir → e_from e ∈ node_ids ir ∧ e_to e ∈ node_ids ir) ∧
  (∃ r, is_root ir r) ∧
  (∀ id, id ∈ node_ids ir → ∃ r, is_root ir r ∧ rtc (points_to (edges ir)) r id).
Proof.
  unfold structural_checks. rewrite !app_nil, duplicate_issues_nil, !bind_nil, push_if_nil.
  rewrite bool_decide_eq_false. setoid_rewrite unknown_ref_issues_nil.
  setoid_rewrite push_if_nil. setoid_rewrite bool_decide_eq_false.
  unfold seen_ids. setoid_rewrite elem_of_list_to_set.
  assert (roots ir ≠ [] ↔ ∃ r, is_root ir r) as ->.
  { setoid_rewrite <- elem_of_roots. destruct (roots ir) as [|r l].
    - split; [done|intros [r Hr]; set_solver].
    - split; [intros _; exists r; set_solver|done]. }
  assert ((∀ n, n ∈ nodes ir → ¬ (n_id n ∉ reachable_ids ir)) ↔
    ∀ id, id ∈ node_ids ir → ∃ r, is_root ir r ∧ rtc (points_to (edges ir)) r id) as ->.
  { setoid_rewrite <- reachable_ids_spec. unfold node_ids.
    setoid_rewrite list_elem_of_fmap. split.
    - intros Hall id (n & -> & Hn). apply dec_stable. auto.
    - intros Hall n Hn Hnot. apply Hnot, Hall. eauto. }
  set_solver.
Qed.

Lemma merge_sources_ge2 ir id :
  (2 <= merge_sources ir id)%nat ↔
  ∃ e1 e2, e1 ∈ edges ir ∧ e2 ∈ edges ir ∧ e_kind e1 = Merge ∧ e_kind e2 = Merge ∧
    e_to e1 = id ∧ e_to e2 = id ∧ e_from e1 ≠ e_from e2.
Proof.
  unfold merge_sources.
  set (X := list_to_set (e_from <$> filter (λ e, e_kind e = Merge ∧ e_to e = id) (edges ir))
            : gset string).
  assert (∀ x, x ∈ X ↔ ∃ e, e ∈ edges ir ∧ e_kind e = Merge ∧ e_to e = id ∧ e_from e = x) as HX.
  { intros x. unfold X. rewrite elem_of_list_to_set, list_elem_of_fmap.
    setoid_rewrite list_elem_of_filter. naive_solver. }
  clearbody X. split.
  - intros Hs. destruct (size_pos_elem_of X) as [x Hx]; [lia|].
    destruct (size_pos_elem_of (X ∖ {[x]})) as [y Hy].
    { rewrite size_difference, size_singleton by set_solver. lia. }
    apply elem_of_difference in Hy as [Hy Hxy].
    apply HX in Hx as (e1 & ? & ? & ? & <-). apply HX in Hy as (e2 & ? & ? & ? & <-).
    exists e1, e2. set_solver.
  - intros (e1 & e2 & H1 & H2 & K1 & K2 & T1 & T2 & Hne).
    assert ({[e_from e1; e_from e2]} ⊆ X) as Hsub.
    { intros x. rewrite elem_of_union, !elem_of_singleton, HX. naive_solver. }
    apply subseteq_size in Hsub. rewrite size_union, !size_singleton in Hsub; [lia|set_solver].
Qed.

Lemma retryable_spec k :
  retryable k = true ↔ ∃ kd, k = Some kd ∧ kd ∈ [Task; Tool; Retrieval].
Proof.
  setoid_rewrite elem_of_cons. setoid_rewrite elem_of_cons. setoid_rewrite elem_of_cons.
  destruct k as [[]|]; csimpl; split; naive_solver (by apply elem_of_nil in H).
Qed.

Lemma edge_issues_nil ir e :
  edge_semantic_issues ir e = [] ∧ loop_config_issues ir e = [] ↔ edge_ok ir e.
Proof.
  unfold edge_semantic_issues, loop_config_issues, edge_ok.
  destruct (e_kind e) eqn:Hk; rewrite ?push_if_nil; try (rewrite decide_False by done); try tauto.
  - rewrite bool_decide_eq_false. destruct (e_condition e) as [c|]; csimpl.
    + split; [intros [? _]; by exists c|by intros (? & [= <-] & ?)].
    + split; [by intros [[] _]|by intros (? & ? & _)].
  - rewrite negb_false_iff, retryable_spec. unfold node_kind_of.
    destruct (find_node ir (e_from e)) as [n|]; csimpl; naive_solver.
  - rewrite bool_decide_eq_false, Nat.nlt_ge, merge_sources_ge2. tauto.
  - rewrite decide_True by done. unfold control_flow_marker.
    destruct (find_node ir (e_from e)) as [n|] eqn:Hf; csimpl; [|naive_solver].
    destruct (obj_get "control_flow" (n_config n)) as [v|] eqn:Hv; csimpl; [|naive_solver].
    destruct v as [| | |s| |]; csimpl; try naive_solver.
    case_decide as Hs; subst; [|naive_solver].
    rewrite push_if_nil, negb_false_iff, bool_decide_eq_true. naive_solver.
Qed.

Lemma scan_nil path j :
  scan_for_provider_keys path j = [] ↔
  ∀ k, k ∈ RESERVED_PROVIDER_KEYS → ¬ mentions_key k j.
Proof.
  induction j as [| | | |l IH|m IH] using json_ind';
    try (split; [intros _ k _ Hm; inversion Hm|done]).
  - csimpl. rewrite bind_nil. rewrite Forall_forall in IH. split.
    + intros Hall k Hk Hm. inversion Hm; subst. by eapply IH; eauto.
    + intros Hno x Hx. apply IH; [done|]. intros k Hk Hm.
      eapply Hno; [done|]. by eapply mentions_item.
  - csimpl. rewrite bind_nil. rewrite Forall_forall in IH.
    setoid_rewrite app_nil. setoid_rewrite push_if_nil.
    setoid_rewrite bool_decide_eq_false. split.
    + intros Hall k Hk Hm. inversion Hm as [? v Hv|? k' v Hv Hm'|]; subst.
      * destruct (Hall _ Hv) as [Hn _]. by apply Hn.
      * destruct (Hall _ Hv) as [_ Hn]. by eapply (IH (k', v)); eauto.
    + intros Hno [k v] Hx. split.
      * intros Hk. eapply Hno; [done|]. by eapply mentions_here.
      * apply (IH (k, v)); [done|]. intros k2 Hk2 Hm.
        eapply Hno; [done|]. by eapply mentions_below.
Qed.

Lemma node_issues_nil ir n :
  output_issues (outgoing_counts (edges ir)) n = [] ∧
  marker_arity_issues ir (incoming_counts (edges ir)) (outgoing_counts (edges ir)) n = [] ∧
  scan_for_provider_keys (n_id n) (JObject (n_config n)) = [] ↔ node_ok ir n.
Proof.
  unfold output_issues, marker_arity_issues, node_ok, out_degree, in_degree.
  rewrite scan_nil, incoming_count, outgoing_count, push_if_nil, bool_decide_eq_false.
  assert (∀ P Q R S, (P ↔ Q) → ∀ T : Prop, (R ↔ S) → P ∧ R ∧ T ↔ Q ∧ S ∧ T) as Hc by tauto.
  rewrite (and_assoc (_ → (2 <= _)%nat)). apply Hc.
  - destruct (decide (n_kind n = Output)); [|tauto].
    split; [intros Hn _|intros Hn [_ ?]]; [|specialize (Hn ltac:(done)); lia].
    destruct (length _) eqn:?; [done|]. destruct Hn. split; [done|lia].
  - destruct (control_flow_marker ir (n_id n)) as [marker|]; [|naive_solver].
    repeat case_decide; subst; rewrite ?push_if_nil, ?bool_decide_eq_false;
      naive_solver lia.
Qed.

Lemma semantic_architectural_nil ir :
  semantic_checks ir = [] ∧ architectural_checks ir = [] ↔
  version ir = WORKFLOW_IR_VERSION ∧ non_loop_cycle_back_edges ir = [] ∧
  (∀ e, e ∈ edges ir → edge_ok ir e) ∧ (∀ n, n ∈ nodes ir → node_ok ir n).
Proof.
  unfold semantic_checks, architectural_checks.
  rewrite !app_nil, !bind_nil, push_if_nil, bool_decide_eq_false.
  setoid_rewrite <- edge_issues_nil. setoid_rewrite <- node_issues_nil.
  assert (¬ version ir ≠ WORKFLOW_IR_VERSION ↔ version ir = WORKFLOW_IR_VERSION) as ->
    by (split; [apply dec_stable|auto]).
  assert (∀ f : string * string → ValidationIssue,
    f <$> non_loop_cycle_back_edges ir = [] ↔ non_loop_cycle_back_edges ir = []) as ->
    by (intros f; split; [apply fmap_nil_inv|by intros ->]).
  split.
  - intros ((He & Ho & Hc & Hl & Hm) & Hv & Hs). split_and!; auto.
  - intros (Hv & Hc & He & Hn).
    split_and!; try done; intros x Hx;
      first [by destruct (He x Hx)|by destruct (Hn x Hx) as (? & ? & ?)].
Qed.

(** A cycle can only be closed through vertices that some edge leaves, and in a
    graph without dangling references those are nodes. *)
Lemma tc_source_node ir v w :
  (∀ e, e ∈ edges ir → e_from e ∈ node_ids ir ∧ e_to e ∈ node_ids ir) →
  tc (points_to (non_loop_edges ir)) v w → v ∈ node_ids ir.
Proof.
  intros Href Htc. assert (∃ x, points_to (non_loop_edges ir) v x) as (x & e & He & <- & _)
    by (inversion Htc; eauto).
  apply Href. by apply non_loop_edges_sub.
Qed.

Lemma validate_nil_iff ir : validate ir = [] ↔ well_formed ir.
Proof.
  unfold validate, sort_deterministic, run_all. rewrite app_nil_l.
  assert (∀ l, sort_by issue_leb l = [] ↔ l = []) as ->.
  { intros l. split; [|by intros ->]. intros Hl.
    apply Permutation_nil_r. by rewrite <- (sort_by_perm issue_leb l), Hl. }
  rewrite !app_nil, structural_checks_nil, semantic_architectural_nil.
  destruct (back_edges_spec ir) as [-> _]. split.
  - intros ((? & Href & ? & ?) & ? & Hac & ? & ?). split; try done.
    intros v Hv. apply (Hac v v); [|constructor|done]. by eapply tc_source_node.
  - intros []. split_and!; auto.
Qed.
