(* ===== verification/WorkflowIrProps.v ===== *)
(** * Properties of the planning IR

    Validation decides [well_formed]; the verdict and the canonical form do
    not depend on the order in which nodes and edges were added; builders
    reached by successful calls keep their invariant; intake round trips. *)
From S2P Require Import Prelude Graphs Json Money WorkflowIr.

Lemma first_error_None report : first_error report = None ↔ report = [].
Proof. unfold first_error. by destruct report. Qed.

(** C7. The report has no first error exactly for the well-formed workflows:
    unique ids, no dangling edge, an entry point, every node reachable from an
    entry point, no cycle outside Loop edges, every per-kind rule, no reserved
    provider key at any depth of a configuration, the supported version. *)
Theorem validate_decides_well_formed ir :
  first_error (validate ir) = None ↔ well_formed ir.
Proof. by rewrite first_error_None, validate_nil_iff. Qed.

(** ** Which check raises which error *)
Definition errors_in (P : ValidationError → Prop) (l : list ValidationIssue) : Prop :=
  Forall (λ i, P (i_error i)) l.

Lemma push_if_errors P b i : P (i_error i) → errors_in P (push_if b i).
Proof. unfold errors_in. destruct b; csimpl; auto. Qed.
Lemma bind_errors {A} P (g : A → list ValidationIssue) l :
  (∀ x, errors_in P (g x)) → errors_in P (l ≫= g).
Proof. intros Hg. apply Forall_bind. by apply Forall_true. Qed.
Lemma app_errors P l1 l2 : errors_in P l1 → errors_in P l2 → errors_in P (l1 ++ l2).
Proof. apply Forall_app_2. Qed.
Lemma nil_errors P : errors_in P [].
Proof. apply Forall_nil_2. Qed.
Lemma errors_elem P l i : errors_in P l → i ∈ l → P (i_error i).
Proof. unfold errors_in. rewrite Forall_forall. auto. Qed.

Ltac errors_tac :=
  repeat first
    [ done | apply app_errors | apply nil_errors
    | apply push_if_errors; done | apply bind_errors; intros
    | progress case_match | progress case_decide ].

Lemma duplicate_errors P seen ids :
  (∀ x, P (DuplicateNodeId x)) → errors_in P (duplicate_issues seen ids).
Proof.
  intros HP. revert seen. induction ids as [|x ids IH]; intros; csimpl; [apply nil_errors|].
  apply app_errors; [apply push_if_errors, HP|apply IH].
Qed.

Lemma scan_errors P path j :
  (∀ k, P (ProviderField k)) → errors_in P (scan_for_provider_keys path j).
Proof.
  intros HP. induction j as [| | | |l IH|m IH] using json_ind'; csimpl; try apply nil_errors;
    apply Forall_bind; eapply Forall_impl; [exact IH|done|exact IH|].
  intros kv Hkv. apply app_errors; [apply push_if_errors, HP|exact Hkv].
Qed.

(** Where an issue of the report comes from, by its error. *)
Definition structural_error (e : ValidationError) : Prop :=
  match e with
  | DuplicateNodeId _ | UnknownNodeRef _ | MissingRoot | UnreachableNode _ => True
  | _ => False
  end.
Definition semantic_error (e : ValidationError) : Prop :=
  match e with
  | MissingCondition _ _ | NotRetryable _ | MergeArity _ | OutputOutgoing _
  | IllegalCycle _ _ | LoopConfig _ | SplitArity _ | BarrierArity _ => True
  | _ => False
  end.

Lemma structural_errors ir : errors_in structural_error (structural_checks ir).
Proof.
  unfold structural_checks, unknown_ref_issues. apply app_errors;
    [by apply duplicate_errors|errors_tac].
Qed.

Lemma semantic_errors ir : errors_in semantic_error (semantic_checks ir).
Proof.
  unfold semantic_checks. repeat apply app_errors.
  - unfold edge_semantic_issues; errors_tac.
  - unfold output_issues; errors_tac.
  - apply Forall_fmap. by apply Forall_true.
  - unfold loop_config_issues; errors_tac.
  - unfold marker_arity_issues; errors_tac.
Qed.

Lemma elem_of_validate ir i :
  i ∈ validate ir ↔
  i ∈ structural_checks ir ∨ i ∈ semantic_checks ir ∨ i ∈ architectural_checks ir.
Proof.
  unfold validate, sort_deterministic. rewrite elem_of_sort_by.
  unfold run_all. by rewrite app_nil_l, !elem_of_app.
Qed.

Lemma architectural_errors ir :
  errors_in (λ e, match e with
    | ProviderField _ => True
    | VersionMismatch _ _ => version ir ≠ WORKFLOW_IR_VERSION
    | _ => False end) (architectural_checks ir).
Proof.
  unfold architectural_checks. apply app_errors.
  - case_bool_decide; by constructor.
  - apply bind_errors. intros. by apply scan_errors.
Qed.

Lemma cycle_issue_back_edge ir i f t :
  i ∈ validate ir → i_error i = IllegalCycle f t → (f, t) ∈ non_loop_cycle_back_edges ir.
Proof.
  intros Hi He. apply elem_of_validate in Hi as [Hi|[Hi|Hi]].
  - pose proof (errors_elem _ _ _ (structural_errors ir) Hi) as H. by rewrite He in H.
  - unfold semantic_checks in Hi. rewrite !elem_of_app in Hi.
    assert (∀ l, errors_in (λ e, e ≠ IllegalCycle f t) l → i ∉ l) as Hno.
    { intros l Hl Hin. by apply (errors_elem _ _ _ Hl Hin). }
    destruct Hi as [Hi|[Hi|[Hi|[Hi|Hi]]]].
    + exfalso. revert Hi. apply Hno. unfold edge_semantic_issues; errors_tac.
    + exfalso. revert Hi. apply Hno. unfold output_issues; errors_tac.
    + apply list_elem_of_fmap in Hi as ([f' t'] & -> & Hi). csimpl in He. by simplify_eq.
    + exfalso. revert Hi. apply Hno. unfold loop_config_issues; errors_tac.
    + exfalso. revert Hi. apply Hno. unfold marker_arity_issues; errors_tac.
  - pose proof (errors_elem _ _ _ (architectural_errors ir) Hi) as H. by rewrite He in H.
Qed.

(** Every cycle error names an edge, not a Loop edge, that closes a cycle of
    such edges: the check raises no false alarm. *)
Theorem illegal_cycle_is_a_cycle ir i f t :
  i ∈ validate ir → i_error i = IllegalCycle f t →
  points_to (non_loop_edges ir) f t ∧ rtc (points_to (non_loop_edges ir)) t f.
Proof. intros Hi He. apply back_edges_spec. by eapply cycle_issue_back_edge. Qed.

(** ** Order of construction *)

(** The same workflow with its nodes and edges listed in another order. *)
Record ir_equiv (a b : WorkflowIR) : Prop := {
  eqv_version : version a = version b;
  eqv_id : workflow_id a = workflow_id b;
  eqv_nodes : nodes a ≡ₚ nodes b;
  eqv_edges : edges a ≡ₚ edges b;
  eqv_metadata : metadata a = metadata b;
}.

#[global] Instance ir_equiv_equivalence : Equivalence ir_equiv.
Proof.
  split.
  - by intros a.
  - intros a b []. by split.
  - intros a b c [] []. split; by etrans.
Qed.

Lemma node_ids_equiv a b : ir_equiv a b → node_ids a ≡ₚ node_ids b.
Proof. intros [_ _ Hn _ _]. unfold node_ids. by rewrite Hn. Qed.

Lemma find_node_spec ir id n :
  NoDup (node_ids ir) → find_node ir id = Some n ↔ n ∈ nodes ir ∧ n_id n = id.
Proof.
  unfold find_node, node_ids. intros Hnd. rewrite fmap_Some. split.
  - intros ([i n'] & (Hi & Hid & _)%list_find_Some & ->). csimpl.
    split; [by eapply list_elem_of_lookup_2|done].
  - intros [(i & Hi)%list_elem_of_lookup Hid]. exists (i, n). split; [|done].
    apply list_find_Some. split_and!; [done..|]. intros j y Hj Hlt Hy.
    assert (i = j); [|lia].
    eapply NoDup_lookup; [done|by rewrite list_lookup_fmap, Hi|].
    rewrite list_lookup_fmap, Hj. csimpl. congruence.
Qed.

Lemma find_node_equiv a b id :
  ir_equiv a b → NoDup (node_ids a) → find_node a id = find_node b id.
Proof.
  intros Heq Hnd. apply option_eq. intros n.
  assert (NoDup (node_ids b)) by by rewrite <- (node_ids_equiv a b).
  rewrite !find_node_spec by done. by rewrite (eqv_nodes _ _ Heq).
Qed.

Lemma points_to_perm es1 es2 u v : es1 ≡ₚ es2 → points_to es1 u v ↔ points_to es2 u v.
Proof. intros Hp. unfold points_to. by setoid_rewrite Hp. Qed.

Lemma is_root_equiv a b r : ir_equiv a b → is_root a r ↔ is_root b r.
Proof.
  intros Heq. unfold is_root. rewrite (node_ids_equiv a b) by done.
  by setoid_rewrite (eqv_edges a b Heq).
Qed.

Lemma degrees_equiv a b id :
  ir_equiv a b → out_degree a id = out_degree b id ∧ in_degree a id = in_degree b id.
Proof.
  intros Heq. unfold out_degree, in_degree. by rewrite (eqv_edges a b Heq).
Qed.

Lemma edge_ok_equiv a b e :
  ir_equiv a b → NoDup (node_ids a) → edge_ok a e → edge_ok b e.
Proof.
  intros Heq Hnd. unfold edge_ok. rewrite (find_node_equiv a b) by done.
  destruct (e_kind e); try done. by setoid_rewrite (eqv_edges a b Heq).
Qed.

Lemma node_ok_equiv a b n :
  ir_equiv a b → NoDup (node_ids a) → node_ok a n → node_ok b n.
Proof.
  intros Heq Hnd. unfold node_ok, control_flow_marker.
  rewrite (find_node_equiv a b) by done.
  by destruct (degrees_equiv a b (n_id n) Heq) as [-> ->].
Qed.

#[global] Instance well_formed_proper : Proper (ir_equiv ==> impl) well_formed.
Proof.
  intros a b Heq [Hv Hi Hr Hroot Hreach Hac He Hn].
  pose proof (node_ids_equiv a b Heq) as Hids.
  pose proof (eqv_edges a b Heq) as Hes. pose proof (eqv_nodes a b Heq) as Hns.
  split.
  - by rewrite <- (eqv_version a b Heq).
  - by rewrite <- Hids.
  - intros e. rewrite <- Hes, <- Hids. apply Hr.
  - destruct Hroot as [r Hroot]. exists r. by rewrite <- (is_root_equiv a b).
  - intros id. rewrite <- Hids. intros Hid. destruct (Hreach id Hid) as (r & Hr1 & Hr2).
    exists r. split; [by rewrite <- (is_root_equiv a b)|].
    eapply rtc_iff; [|done]. intros u v. by apply points_to_perm.
  - intros id Htc. apply (Hac id). eapply tc_iff; [|done]. intros u v.
    apply points_to_perm. unfold non_loop_edges. by rewrite Hes.
  - intros e. rewrite <- Hes. intros ?. eapply edge_ok_equiv; eauto.
  - intros n. rewrite <- Hns. intros ?. eapply node_ok_equiv; eauto.
Qed.

(** Whether a workflow validates does not depend on the order in which its
    nodes and edges are listed. *)
Theorem validation_order_independent a b :
  ir_equiv a b → first_error (validate a) = None ↔ first_error (validate b) = None.
Proof.
  intros Heq. rewrite !first_error_None, !validate_nil_iff.
  split; [by rewrite Heq|]. symmetry in Heq. by rewrite Heq.
Qed.

(** ** Canonical form *)
Lemma canonical_equiv ir : ir_equiv (canonical ir) ir.
Proof. split; csimpl; try done; apply sort_by_perm. Qed.

Lemma node_leb_total a b : node_leb a b = true ∨ node_leb b a = true.
Proof. apply string_leb_total. Qed.
Lemma node_leb_trans a b c : node_leb a b = true → node_leb b c = true → node_leb a c = true.
Proof. apply string_leb_trans. Qed.

Ltac lex_tac :=
  repeat first [ exact string_leb_total | exact string_leb_trans
    | exact string_leb_antisym | apply lex_leb_total | apply lex_leb_trans
    | apply lex_leb_anti ].

Lemma edge_leb_total a b : edge_leb a b = true ∨ edge_leb b a = true.
Proof. unfold edge_leb. lex_tac. Qed.
Lemma edge_leb_trans a b c : edge_leb a b = true → edge_leb b c = true → edge_leb a c = true.
Proof. unfold edge_leb. lex_tac. Qed.
Lemma edge_leb_anti a b :
  edge_leb a b = true → edge_leb b a = true → edge_sort_key a = edge_sort_key b.
Proof. unfold edge_leb. lex_tac. Qed.

Lemma edge_sort_key_inj a b :
  e_condition a ≠ Some "" → e_condition b ≠ Some "" →
  edge_sort_key a = edge_sort_key b → a = b.
Proof.
  destruct a as [fa ta ka ca], b as [fb tb kb cb]; unfold edge_sort_key; csimpl.
  intros Ha Hb Heq. simplify_eq. f_equal.
  - destruct ka, kb; done.
  - destruct ca, cb; csimpl in *; simplify_eq; done.
Qed.

Lemma canonical_perm a b :
  ir_equiv a b → NoDup (node_ids a) →
  (∀ e, e ∈ edges a → e_condition e ≠ Some "") → canonical a = canonical b.
Proof.
  intros [Hv Hid Hn He Hm] Hnd Hc. unfold canonical. rewrite Hv, Hid, Hm. f_equal.
  - apply sort_by_perm_eq; [apply node_leb_total|apply node_leb_trans| |done].
    intros x y Hx Hy Hxy Hyx.
    assert (n_id x = n_id y) as Heq by by apply string_leb_antisym.
    assert (∀ id n, find_node a id = Some n ↔ n ∈ nodes a ∧ n_id n = id) as Hf
      by (intros; by apply find_node_spec).
    assert (find_node a (n_id y) = Some x ∧ find_node a (n_id y) = Some y) as [H1 H2]
      by (rewrite !Hf; auto).
    congruence.
  - apply sort_by_perm_eq; [apply edge_leb_total|apply edge_leb_trans| |done].
    intros x y Hx Hy Hxy Hyx. apply edge_sort_key_inj; auto using edge_leb_anti.
Qed.

(** ** The builder *)
Record builder_inv (b : WorkflowBuilder) : Prop := {
  binv_seen : ∀ x, x ∈ b_seen b ↔ x ∈ n_id <$> b_nodes b;
  binv_nodup : NoDup (n_id <$> b_nodes b);
  binv_edges : ∀ e, e ∈ b_edges b → e_from e ∈ b_seen b ∧ e_to e ∈ b_seen b;
}.

Lemma builder_new_inv : builder_inv builder_new.
Proof. split; csimpl; [set_solver|constructor|set_solver]. Qed.

Lemma set_config_ids id cfg l l' :
  set_config id cfg l = Some l' → n_id <$> l' = n_id <$> l.
Proof.
  revert l'. induction l as [|n l IH]; intros l'; csimpl; [done|].
  case_decide; intros Hs; simplify_eq; csimpl; [done|].
  apply fmap_Some in Hs as (l2 & Hl2 & ->). csimpl. by rewrite (IH l2).
Qed.

Lemma builder_step_inv b b' : builder_step b b' → builder_inv b → builder_inv b'.
Proof.
  intros Hstep [Hs Hn He]. destruct Hstep as [id b|m b|id k c m cfg b b' Hb|id cfg b b' Hb|f t k c b b' Hb].
  - by split.
  - by split.
  - unfold add_node_with_model in Hb. case_decide as Hid; simplify_eq.
    split; csimpl.
    + intros x. rewrite fmap_app; csimpl. set_solver.
    + rewrite fmap_app; csimpl. apply NoDup_app. split_and!; [done| |apply NoDup_singleton].
      intros x Hx ->%list_elem_of_singleton. apply Hid. by apply Hs.
    + set_solver.
  - unfold with_config, ok_or in Hb. destruct (set_config id cfg (b_nodes b)) as [ns|] eqn:Hc;
      csimpl in Hb; simplify_eq/=.
    apply set_config_ids in Hc. split; csimpl; [by rewrite Hc|by rewrite Hc|done].
  - unfold add_edge, try_for_each in Hb; csimpl in Hb.
    repeat case_decide; simplify_eq/=. split; csimpl; [done..|].
    intros e [?|Hin]%elem_of_app; [auto|]. by apply list_elem_of_singleton in Hin as ->.
Qed.

Lemma builder_reachable_inv b : rtc builder_step builder_new b → builder_inv b.
Proof.
  intros Hr. cut (∀ a, rtc builder_step a b → builder_inv a → builder_inv b);
    [eauto using builder_new_inv|]. clear Hr.
  induction 1; eauto using builder_step_inv.
Qed.

(** The workflow a builder hands to validation. *)
Definition built (fresh : N) (b : WorkflowBuilder) : WorkflowIR :=
  mkWorkflow WORKFLOW_IR_VERSION (default fresh (b_workflow_id b))
    (b_nodes b) (b_edges b) (b_metadata b).

(** [build] after any successful calls on a new builder: it succeeds exactly
    when the collected graph is well-formed, and returns that graph; when it
    fails, the error is never a duplicate id, a dangling reference or a wrong
    version, which the calls before it have excluded. *)
Theorem builder_build_spec fresh b :
  rtc builder_step builder_new b →
  match build fresh b with
  | Ok ir => ir = built fresh b ∧ well_formed ir
  | Err e => ¬ well_formed (built fresh b) ∧
      match e with
      | DuplicateNodeId _ | UnknownNodeRef _ | VersionMismatch _ _ => False
      | _ => True
      end
  end.
Proof.
  intros [Hs Hn He]%builder_reachable_inv. unfold build. fold (built fresh b).
  destruct (first_error (validate (built fresh b))) as [e|] eqn:Hfe.
  2: { split; [done|]. by apply validate_nil_iff, first_error_None. }
  split; [rewrite <- validate_nil_iff, <- first_error_None; congruence|].
  assert (∃ i, i ∈ validate (built fresh b) ∧ i_error i = e) as (i & Hi & <-).
  { unfold first_error in Hfe. destruct (validate _) as [|i l]; csimpl in *; simplify_eq.
    exists i. set_solver. }
  assert (duplicate_issues ∅ (node_ids (built fresh b)) = []) as Hdup
    by (apply duplicate_issues_nil; split; [done|set_solver]).
  assert ((edges (built fresh b) ≫= unknown_ref_issues (seen_ids (built fresh b))) = []) as Hunk.
  { apply bind_nil. intros x Hx. apply unknown_ref_issues_nil.
    unfold seen_ids. rewrite !elem_of_list_to_set. unfold node_ids; csimpl.
    rewrite <- !Hs. by apply He. }
  apply elem_of_validate in Hi as [Hi|[Hi|Hi]].
  - unfold structural_checks in Hi. rewrite Hdup, Hunk in Hi. csimpl in Hi.
    refine (errors_elem (λ e, match e with DuplicateNodeId _ | UnknownNodeRef _
      | VersionMismatch _ _ => False | _ => True end) _ _ _ Hi). errors_tac.
  - pose proof (errors_elem _ _ _ (semantic_errors _) Hi). by destruct (i_error i).
  - pose proof (errors_elem _ _ _ (architectural_errors _) Hi). by destruct (i_error i).
Qed.

(** ** Canonical serialization and intake *)

(** Two construction orders of the same workflow give the same canonical
    workflow, hence the same bytes whatever the serializer, provided no edge
    carries an empty condition string. *)
Theorem canonical_json_order_independent {E} (to_string : WorkflowIR → result E string) a b :
  ir_equiv a b → well_formed a → (∀ e, e ∈ edges a → e_condition e ≠ Some "") →
  to_canonical_json to_string a = to_canonical_json to_string b.
Proof.
  intros Heq Hwf Hc. unfold to_canonical_json. by rewrite (canonical_perm a b Heq (wf_ids _ Hwf) Hc).
Qed.

(** Without that proviso the order shows: a missing condition and an empty one
    have the same sort key, so a stable sort keeps the order of insertion. *)
Theorem canonical_order_shows_empty_condition :
  ∃ a b, ir_equiv a b ∧ well_formed a ∧ canonical a ≠ canonical b.
Proof.
  set (e1 := mkEdge "a" "b" Sequential None). set (e2 := mkEdge "a" "b" Sequential (Some "")).
  set (ns := [mkNode "a" Task None None []; mkNode "b" Output None None []]).
  exists (mkWorkflow 1 0 ns [e1; e2] default_metadata),
    (mkWorkflow 1 0 ns [e2; e1] default_metadata).
  split_and!.
  - split; csimpl; try done. apply Permutation_swap.
  - apply validate_nil_iff. vm_compute. reflexivity.
  - vm_compute. congruence.
Qed.

Lemma from_json_spec {E} (from_str : string → result E WorkflowIR) s ir :
  from_json from_str s = Ok ir ↔
  from_str s = Ok ir ∧ (∀ n, n ∈ nodes ir → n_selected_model n = None) ∧ well_formed ir.
Proof.
  unfold from_json, map_err.
  destruct (from_str s) as [ir'|e]; csimpl; [|split; [done|by intros (? & _)]].
  assert (existsb (λ n, bool_decide (is_Some (n_selected_model n))) (nodes ir') = false ↔
    ∀ n, n ∈ nodes ir' → n_selected_model n = None) as Hsel.
  { rewrite <- not_true_iff_false, existsb_exists. split.
    - intros Hno n Hn. destruct (n_selected_model n) as [m|] eqn:Hm; [|done].
      destruct Hno. exists n. rewrite <- list_elem_of_In, Hm. by split.
    - intros Hall (n & Hn & Hm). apply list_elem_of_In in Hn.
      by rewrite (Hall n Hn) in Hm. }
  destruct (existsb _ _) eqn:Hex.
  - split; [done|]. intros ([= ->] & Hno & _). by apply Hsel in Hno.
  - destruct (first_error (validate ir')) as [e|] eqn:Hfe.
    + split; [done|]. intros ([= ->] & _ & Hwf).
      apply validate_nil_iff, first_error_None in Hwf. congruence.
    + apply first_error_None, validate_nil_iff in Hfe. split.
      * intros [= <-]. split_and!; [done|by apply Hsel|done].
      * by intros ([= ->] & _).
Qed.

(** Intake accepts a text exactly when it parses to a well-formed workflow in
    which no node has a model bound already. *)
Theorem from_json_accepts {E} (from_str : string → result E WorkflowIR) s ir :
  from_json from_str s = Ok ir ↔
  from_str s = Ok ir ∧ (∀ n, n ∈ nodes ir → n_selected_model n = None) ∧ well_formed ir.
Proof. apply from_json_spec. Qed.

Lemma canonical_idemp ir : canonical (canonical ir) = canonical ir.
Proof.
  unfold canonical; csimpl. f_equal; apply sort_by_id; apply sort_by_sorted;
    eauto using node_leb_total, node_leb_trans, edge_leb_total, edge_leb_trans.
Qed.

(** ** Concrete workflows *)
Definition chain_builder : result ValidationError WorkflowBuilder :=
  b ← Builder.task "n1" "CodeGeneration" (with_workflow_id 42 builder_new);
  b ← Builder.task "n2" "CodeReview" b;
  b ← Builder.output "n3" b;
  b ← Builder.conditional "n1" "n2" "confidence > 0.8" b;
  b ← Builder.conditional "n1" "n2" "confidence > 0.5" b;
  Builder.sequential "n2" "n3" b.
Definition chain_nodes : list WorkflowNode :=
  [mkNode "n1" Task (Some "CodeGeneration") None [];
   mkNode "n2" Task (Some "CodeReview") None []; mkNode "n3" Output None None []].
Definition chain_edges : list WorkflowEdge :=
  [mkEdge "n1" "n2" Conditional (Some "confidence > 0.8");
   mkEdge "n1" "n2" Conditional (Some "confidence > 0.5");
   mkEdge "n2" "n3" Sequential None].
Definition chain_ir : WorkflowIR := mkWorkflow 1 42 chain_nodes chain_edges default_metadata.
Definition chain_ir_shuffled : WorkflowIR :=
  mkWorkflow 1 42 (reverse chain_nodes) (reverse chain_edges) default_metadata.
Definition loop_ir : WorkflowIR :=
  mkWorkflow 1 7 chain_nodes (chain_edges ++ [mkEdge "n2" "n1" Sequential None])
    default_metadata.

Lemma chain_ir_wf : well_formed chain_ir.
Proof. apply validate_nil_iff. vm_compute. reflexivity. Qed.
Lemma chain_equiv : ir_equiv chain_ir chain_ir_shuffled.
Proof. split; csimpl; try done; symmetry; apply reverse_Permutation. Qed.
Lemma chain_builder_reachable :
  ∃ b, chain_builder = Ok b ∧ rtc builder_step builder_new b.
Proof.
  eexists. split; [vm_compute; reflexivity|].
  eapply rtc_l; [apply (step_id 42)|].
  eapply rtc_l; [eapply (step_node "n1" Task (Some "CodeGeneration") None []); reflexivity|].
  eapply rtc_l; [eapply (step_node "n2" Task (Some "CodeReview") None []); reflexivity|].
  eapply rtc_l; [eapply (step_node "n3" Output None None []); reflexivity|].
  eapply rtc_l; [eapply (step_edge "n1" "n2" Conditional (Some "confidence > 0.8")); reflexivity|].
  eapply rtc_l; [eapply (step_edge "n1" "n2" Conditional (Some "confidence > 0.5")); reflexivity|].
  eapply rtc_l; [eapply (step_edge "n2" "n3" Sequential None); reflexivity|].
  apply rtc_refl.
Qed.

Lemma illegal_cycle_is_a_cycle_witness :
  points_to (non_loop_edges loop_ir) "n2" "n1" ∧
  rtc (points_to (non_loop_edges loop_ir)) "n1" "n2".
Proof.
  apply (illegal_cycle_is_a_cycle loop_ir
    (mkIssue None (Some "n2 -> n1") (IllegalCycle "n2" "n1"))); [|reflexivity].
  apply (list_elem_of_lookup_2 _ 1%nat). vm_compute. reflexivity.
Defined.

Lemma validation_order_independent_witness :
  first_error (validate chain_ir) = None ↔ first_error (validate chain_ir_shuffled) = None.
Proof. apply (validation_order_independent chain_ir chain_ir_shuffled). apply chain_equiv. Defined.

Lemma builder_build_spec_witness :
  ∃ b, chain_builder = Ok b ∧
  match build 0 b with
  | Ok ir => ir = built 0 b ∧ well_formed ir
  | Err e => ¬ well_formed (built 0 b) ∧
      match e with
      | DuplicateNodeId _ | UnknownNodeRef _ | VersionMismatch _ _ => False
      | _ => True
      end
  end.
Proof.
  destruct chain_builder_reachable as (b & Hb & Hr). exists b. split; [exact Hb|].
  exact (builder_build_spec 0 b Hr).
Defined.

(** A stand-in serializer for the witnesses. *)
Definition ids_text (ir : WorkflowIR) : result unit string :=
  Ok (foldr (λ n s, n_id n +:+ s) "" (nodes ir)).

Lemma chain_conditions e : e ∈ edges chain_ir → e_condition e ≠ Some "".
Proof.
  unfold chain_ir, chain_edges; csimpl. rewrite !elem_of_cons, elem_of_nil.
  intros [->|[->|[->|[]]]]; discriminate.
Qed.

Lemma canonical_json_order_independent_witness :
  to_canonical_json ids_text chain_ir = to_canonical_json ids_text chain_ir_shuffled.
Proof.
  apply (canonical_json_order_independent ids_text chain_ir chain_ir_shuffled).
  - exact chain_equiv.
  - exact chain_ir_wf.
  - exact chain_conditions.
Defined.

