(* ===== verification/WorkflowJson.v ===== *)
(** * The text of a workflow ([crates/fusion-ir/src])

    The serializers and deserializers derived for [WorkflowIR] and what it is
    made of ([workflow.rs], [node.rs], [edge.rs], and the one written out for
    [NanoUSD]), over JSON documents: objects with their entries in the order of
    the text. The printer and the parser of documents are [serde_json]'s and
    the text of a UUID is the [uuid] crate's; they are parameters. A workflow
    written in canonical form and read back is the same workflow
    ([canonical_json_roundtrip]). *)
From S2P Require Import Prelude Text Json Money WorkflowIr WorkflowIrProps.
From Stdlib Require Import Ascii Floats.SpecFloat.
Open Scope stdpp_scope.
Open Scope Z_scope.

(** A text that is not JSON, or not the JSON of the type; positions and
    messages are left out. *)
Inductive SerdeError := SyntaxError | DataError.

(** ** Serialization *)
Definition u64_json (z : Z) : json := JNumber (PosInt z).
Definition option_json {A} (f : A → json) (o : option A) : json :=
  match o with Some a => f a | None => JNull end.

Definition node_kind_name (k : WorkflowNodeKind) : string :=
  match k with
  | Task => "Task" | Tool => "Tool" | Retrieval => "Retrieval" | Memory => "Memory" | Review => "Review"
  | Judge => "Judge" | Security => "Security" | Aggregation => "Aggregation" | Output => "Output"
  end.
(** A field that is skipped when it is [None]. *)
Definition skip_none (name : string) (o : option string) : list (string * json) :=
  match o with Some s => [(name, JString s)] | None => [] end.
Definition node_to_json (n : WorkflowNode) : json :=
  JObject ([("id", JString (n_id n)); ("kind", JString (node_kind_name (n_kind n)));
            ("capability", option_json JString (n_capability n))]
           ++ skip_none "selected_model" (n_selected_model n) ++ [("config", JObject (n_config n))]).
Definition edge_to_json (e : WorkflowEdge) : json :=
  JObject [("from", JString (e_from e)); ("to", JString (e_to e)); ("kind", JString (edge_kind_debug (e_kind e)));
           ("condition", option_json JString (e_condition e))].
Definition metadata_to_json (m : WorkflowMetadata) : json :=
  JObject [("policy_applied", JArray (JString <$> policy_applied m)); ("policy_version", u64_json (policy_version m));
           ("estimated_cost", u64_json (nanos (estimated_cost m))); ("estimated_tokens", u64_json (estimated_tokens m))].

(** ** Deserialization *)
Definition de_string (j : json) : result SerdeError string := ok_or DataError (as_str j).
Definition de_option {A} (f : json → result SerdeError A) (j : json) : result SerdeError (option A) :=
  match j with JNull => Ok None | _ => a ← f j; Ok (Some a) end.
Definition de_uint (max : Z) (j : json) : result SerdeError Z :=
  match j with JNumber (PosInt n) => if n <=? max then Ok n else Err DataError | _ => Err DataError end.
Definition de_vec {A} (f : json → result SerdeError A) (j : json) : result SerdeError (list A) :=
  match j with JArray l => mapM f l | _ => Err DataError end.
(** A variant without data is its name, or an object from its name to [null]. *)
Definition de_variant {A} (of_name : string → option A) (j : json) : result SerdeError A :=
  match j with
  | JString s => ok_or DataError (of_name s)
  | JObject [(s, JNull)] => ok_or DataError (of_name s)
  | _ => Err DataError
  end.
(** [BTreeMap<String, Value>]: of two entries with a key the later is kept. *)
Definition de_value_map (j : json) : result SerdeError (list (string * json)) :=
  match j with
  | JObject m => Ok (obj_of_list ((λ kv : string * json, (kv.1, canonicalize kv.2)) <$> m))
  | _ => Err DataError
  end.
Definition de_nano_usd (j : json) : result SerdeError NanoUSD :=
  match j with
  | JNumber (PosInt n) => map_err (λ _, DataError) (nano_visitor (VisitU64 n))
  | JNumber (NegInt z) => map_err (λ _, DataError) (nano_visitor (VisitI64 z))
  | JNumber (Float f) => map_err (λ _, DataError) (nano_visitor (VisitF64 f))
  | _ => Err DataError
  end.

(** The fields of a struct: from an object, none of them twice and, where
    unknown fields are denied, no others; or from an array, all of them in
    their order. *)
Definition occurrences (name : string) (m : list (string * json)) : nat := length (filter (λ kv, kv.1 = name) m).
Definition de_fields (names : list string) (deny_unknown : bool) (j : json) : result SerdeError (list (string * json)) :=
  match j with
  | JObject m =>
      if forallb (λ name, (occurrences name m <=? 1)%nat) names
         && (negb deny_unknown || forallb (λ kv, bool_decide (kv.1 ∈ names)) m)
      then Ok m else Err DataError
  | JArray l => if (length l =? length names)%nat then Ok (zip names l) else Err DataError
  | _ => Err DataError
  end.
Definition required {A} (name : string) (f : json → result SerdeError A) (m : list (string * json)) : result SerdeError A :=
  j ← ok_or DataError (obj_get name m); f j.
(** A missing field of type [Option], or with a default. *)
Definition optional {A} (name : string) (default : A) (f : json → result SerdeError A) (m : list (string * json))
    : result SerdeError A :=
  match obj_get name m with Some j => f j | None => Ok default end.

Definition node_kind_of (s : string) : option WorkflowNodeKind :=
  snd <$> list_find (λ k, node_kind_name k = s) [Task; Tool; Retrieval; Memory; Review; Judge; Security; Aggregation; Output].
Definition edge_kind_of (s : string) : option WorkflowEdgeKind :=
  snd <$> list_find (λ k, edge_kind_debug k = s) [Sequential; Parallel; Conditional; Retry; Merge; Loop].

Definition node_of_json (j : json) : result SerdeError WorkflowNode :=
  m ← de_fields ["id"; "kind"; "capability"; "selected_model"; "config"] true j;
  id ← required "id" de_string m;
  kind ← required "kind" (de_variant node_kind_of) m;
  capability ← optional "capability" None (de_option de_string) m;
  selected_model ← optional "selected_model" None (de_option de_string) m;
  config ← required "config" de_value_map m;
  Ok (mkNode id kind capability selected_model config).
Definition edge_of_json (j : json) : result SerdeError WorkflowEdge :=
  m ← de_fields ["from"; "to"; "kind"; "condition"] true j;
  from ← required "from" de_string m;
  to ← required "to" de_string m;
  kind ← required "kind" (de_variant edge_kind_of) m;
  condition ← optional "condition" None (de_option de_string) m;
  Ok (mkEdge from to kind condition).
Definition metadata_of_json (j : json) : result SerdeError WorkflowMetadata :=
  m ← de_fields ["policy_applied"; "policy_version"; "estimated_cost"; "estimated_tokens"] false j;
  applied ← required "policy_applied" (de_vec de_string) m;
  version ← optional "policy_version" 0 (de_uint u64_max) m;
  cost ← required "estimated_cost" de_nano_usd m;
  tokens ← required "estimated_tokens" (de_uint u64_max) m;
  Ok (mkMetadata applied version cost tokens).

Section text.
(** [Uuid]'s text and its parser; [serde_json]'s printer and parser. *)
Context (uuid_to_string : N → string) (uuid_parse : string → option N).
Context (print : json → string) (parse : string → option json).

Definition ir_to_json (ir : WorkflowIR) : json :=
  JObject [("version", u64_json (version ir)); ("workflow_id", JString (uuid_to_string (workflow_id ir)));
           ("nodes", JArray (node_to_json <$> nodes ir)); ("edges", JArray (edge_to_json <$> edges ir));
           ("metadata", metadata_to_json (metadata ir))].
Definition de_uuid (j : json) : result SerdeError N := ok_or DataError (as_str j ≫= uuid_parse).
Definition ir_of_json (j : json) : result SerdeError WorkflowIR :=
  m ← de_fields ["version"; "workflow_id"; "nodes"; "edges"; "metadata"] true j;
  version ← required "version" (de_uint 65535) m;
  id ← required "workflow_id" de_uuid m;
  nodes ← required "nodes" (de_vec node_of_json) m;
  edges ← required "edges" (de_vec edge_of_json) m;
  metadata ← required "metadata" metadata_of_json m;
  Ok (mkWorkflow version id nodes edges metadata).

(** [serde_json::to_string] and [from_str] for workflows. *)
Definition workflow_to_string (ir : WorkflowIR) : result SerdeError string := Ok (print (ir_to_json ir)).
Definition workflow_from_str (s : string) : result SerdeError WorkflowIR := j ← ok_or SyntaxError (parse s); ir_of_json j.
End text.

Example model_field_rejected :
  node_of_json (JObject [("id", JString "n1"); ("kind", JString "Task"); ("capability", JString "CodeGeneration");
    ("config", JObject []); ("model", JString "gpt-4")]) = Err DataError.
Proof. reflexivity. Qed.
Example float_cost_read :
  metadata_of_json (JObject [("policy_applied", JArray []);
    ("estimated_cost", JNumber (Float (S754_finite false 7205759403792794 (-57)))); ("estimated_tokens", u64_json 0)])
  = Ok (mkMetadata [] 0 (mk_NanoUSD 50000000) 0).
Proof. vm_compute. reflexivity. Qed.

(** ** Reading back what was written *)
Lemma mapM_roundtrip {A} (f : json → result SerdeError A) (g : A → json) l :
  (∀ a, a ∈ l → f (g a) = Ok a) → mapM f (g <$> l) = Ok l.
Proof.
  induction l as [|a l IH]; intros H; [done|].
  change (mapM f (g <$> a :: l)) with (b ← f (g a); k ← mapM f (g <$> l); @Ok SerdeError _ (b :: k)).
  rewrite H by left. cbn. rewrite IH; [done|]. intros b Hb. apply H. by right.
Qed.
Lemma de_option_string o : de_option de_string (option_json JString o) = Ok o.
Proof. by destruct o. Qed.
Lemma node_kind_roundtrip k : de_variant node_kind_of (JString (node_kind_name k)) = Ok k.
Proof. by destruct k. Qed.
Lemma edge_kind_roundtrip k : de_variant edge_kind_of (JString (edge_kind_debug k)) = Ok k.
Proof. by destruct k. Qed.
Lemma de_uint_roundtrip max z : z ≤ max → de_uint max (u64_json z) = Ok z.
Proof. intros H. cbn. by rewrite (proj2 (Z.leb_le _ _) H). Qed.
Lemma de_value_map_id m :
  obj_sorted m → (∀ k v, (k, v) ∈ m → json_wf v) → de_value_map (JObject m) = Ok m.
Proof.
  intros Hs Hv. cbn. f_equal. transitivity (obj_of_list m); [|by apply obj_of_list_id]. f_equal.
  rewrite <- (list_fmap_id m) at 2. apply list_fmap_ext. intros i [k v] Hi%list_elem_of_lookup_2.
  csimpl. by rewrite canonicalize_id by (by eapply Hv).
Qed.

(** What the text can carry of a node: a sorted configuration whose values
    are sorted, hold no floats and are not nested too deeply. *)
Fixpoint integers_only (j : json) : Prop :=
  match j with
  | JNumber (PosInt n) => is_u64 n
  | JNumber (NegInt z) => - 2 ^ 63 ≤ z < 0
  | JNumber (Float _) => False
  | JArray l => foldr (λ j P, integers_only j ∧ P) True l
  | JObject m => foldr (λ kv P, integers_only kv.2 ∧ P) True m
  | _ => True
  end.
Fixpoint json_depth (j : json) : nat :=
  match j with
  | JArray l => S (foldr (λ j d, Nat.max (json_depth j) d) 0%nat l)
  | JObject m => S (foldr (λ kv d, Nat.max (json_depth kv.2) d) 0%nat m)
  | _ => 0
  end.
Record node_carried (n : WorkflowNode) : Prop := {
  nc_sorted : obj_sorted (n_config n);
  nc_values : ∀ k v, (k, v) ∈ n_config n → json_wf v ∧ integers_only v ∧ (json_depth v ≤ 123)%nat;
}.
Record ir_carried (ir : WorkflowIR) : Prop := {
  ic_version : 0 ≤ version ir ≤ 65535;
  ic_id : (workflow_id ir < 2 ^ 128)%N;
  ic_policy_version : is_u64 (policy_version (metadata ir));
  ic_cost : is_u64 (nanos (estimated_cost (metadata ir)));
  ic_tokens : is_u64 (estimated_tokens (metadata ir));
  ic_nodes : ∀ n, n ∈ nodes ir → node_carried n;
}.

(** Reading one field after another. *)
Lemma bind_ok {A B} (r : result SerdeError A) (k : A → result SerdeError B) a b :
  r = Ok a → k a = b → (r ≫= k) = b.
Proof. by intros -> <-. Qed.
Lemma required_ok {A} name (f : json → result SerdeError A) m j a :
  obj_get name m = Some j → f j = Ok a → required name f m = Ok a.
Proof. unfold required. by intros ->. Qed.
Lemma optional_ok {A} name (d : A) f m j a :
  obj_get name m = Some j → f j = Ok a → optional name d f m = Ok a.
Proof. unfold optional. by intros ->. Qed.
Ltac read_field tac :=
  eapply bind_ok; [first [eapply required_ok | eapply optional_ok]; [reflexivity|tac]|].

Lemma node_roundtrip n : node_carried n → node_of_json (node_to_json n) = Ok n.
Proof.
  intros [Hs Hv]. unfold node_of_json, node_to_json.
  assert (de_value_map (JObject (n_config n)) = Ok (n_config n)) as Hc.
  { apply de_value_map_id; [done|]. intros k v Hin. by apply (Hv k v). }
  destruct n as [id kind capability [model|] config]; cbn [n_id n_kind n_capability n_selected_model n_config skip_none app] in *;
    (eapply bind_ok; [reflexivity|]); read_field ltac:(reflexivity); read_field ltac:(apply node_kind_roundtrip);
    read_field ltac:(apply de_option_string).
  - read_field ltac:(reflexivity). by read_field ltac:(exact Hc).
  - eapply bind_ok; [reflexivity|]. by read_field ltac:(exact Hc).
Qed.
Lemma edge_roundtrip e : edge_of_json (edge_to_json e) = Ok e.
Proof.
  unfold edge_of_json, edge_to_json. destruct e as [from to kind condition]; cbn [e_from e_to e_kind e_condition].
  eapply bind_ok; [reflexivity|]. read_field ltac:(reflexivity). read_field ltac:(reflexivity).
  read_field ltac:(apply edge_kind_roundtrip). by read_field ltac:(apply de_option_string).
Qed.
Lemma metadata_roundtrip m :
  policy_version m ≤ u64_max → estimated_tokens m ≤ u64_max → metadata_of_json (metadata_to_json m) = Ok m.
Proof.
  intros Hp Ht. unfold metadata_of_json, metadata_to_json. destruct m as [applied version [cost] tokens].
  eapply bind_ok; [reflexivity|]. read_field ltac:(by apply mapM_roundtrip). read_field ltac:(by apply de_uint_roundtrip).
  read_field ltac:(reflexivity). by read_field ltac:(by apply de_uint_roundtrip).
Qed.

Section roundtrip.
Context (uuid_to_string : N → string) (uuid_parse : string → option N).
Context (print : json → string) (parse : string → option json).
Local Notation to_json := (ir_to_json uuid_to_string).
Local Notation of_json := (ir_of_json uuid_parse).
Local Notation to_string := (workflow_to_string uuid_to_string print).
Local Notation from_str := (workflow_from_str uuid_parse parse).
(** The text of a UUID is read back as it; a printed document is read back as
    it, if it has no floats and is nested at most as deep as the parser goes. *)
Context (uuid_text : ∀ u, (u < 2 ^ 128)%N → uuid_parse (uuid_to_string u) = Some u).
Context (document_text : ∀ j, integers_only j → (json_depth j ≤ 127)%nat → parse (print j) = Some j).

Lemma de_uuid_roundtrip u : (u < 2 ^ 128)%N → de_uuid uuid_parse (JString (uuid_to_string u)) = Ok u.
Proof using uuid_text. intros Hu. unfold de_uuid. cbn [as_str]. change (Some ?x ≫= ?f) with (f x). by rewrite uuid_text. Qed.
Lemma ir_roundtrip ir : ir_carried ir → of_json (to_json ir) = Ok ir.
Proof using uuid_text.
  intros [Hv Hid Hp Hc Ht Hn]. destruct ir as [v id ns es meta]; cbn [version workflow_id nodes edges metadata] in *.
  unfold ir_of_json, ir_to_json; cbn [version workflow_id nodes edges metadata].
  eapply bind_ok; [reflexivity|]. read_field ltac:(apply de_uint_roundtrip; lia).
  read_field ltac:(by apply de_uuid_roundtrip).
  read_field ltac:(apply mapM_roundtrip; intros n Hin; by apply node_roundtrip, Hn).
  read_field ltac:(apply mapM_roundtrip; intros e _; apply edge_roundtrip).
  by read_field ltac:(apply metadata_roundtrip; unfold is_u64 in *; lia).
Qed.

Lemma integers_only_array l : integers_only (JArray l) ↔ Forall integers_only l.
Proof. apply (foldr_and_Forall integers_only). Qed.
Lemma integers_only_object m : integers_only (JObject m) ↔ Forall (λ kv, integers_only kv.2) m.
Proof. apply (foldr_and_Forall (λ kv : string * json, integers_only kv.2)). Qed.
Lemma max_le {A} (f : A → nat) (l : list A) d :
  (foldr (λ x m, Nat.max (f x) m) 0 l ≤ d)%nat ↔ Forall (λ x, (f x ≤ d)%nat) l.
Proof. induction l as [|x l IH]; csimpl; [split; [constructor|lia]|]. rewrite Nat.max_lub_iff, Forall_cons. by rewrite IH. Qed.
Lemma json_depth_array l d : (json_depth (JArray l) ≤ S d)%nat ↔ Forall (λ j, json_depth j ≤ d)%nat l.
Proof. cbn. rewrite <- Nat.succ_le_mono. apply max_le. Qed.
Lemma json_depth_object m d : (json_depth (JObject m) ≤ S d)%nat ↔ Forall (λ kv, json_depth kv.2 ≤ d)%nat m.
Proof. cbn. rewrite <- Nat.succ_le_mono. apply (max_le (λ kv : string * json, json_depth kv.2)). Qed.

(** A document of a given depth. *)
Definition document (d : nat) (j : json) : Prop := integers_only j ∧ (json_depth j ≤ d)%nat.
Lemma document_array d l : Forall (document d) l → document (S d) (JArray l).
Proof.
  intros H. split; [apply integers_only_array|apply json_depth_array]; eapply Forall_impl; try exact H; by intros j [].
Qed.
Lemma document_object d m : Forall (λ kv, document d kv.2) m → document (S d) (JObject m).
Proof.
  intros H. split; [apply integers_only_object|apply json_depth_object]; eapply Forall_impl; try exact H; by intros j [].
Qed.
Lemma document_string d s : document d (JString s).
Proof. split; [done|]. cbn. lia. Qed.
Lemma document_option d o : document d (option_json JString o).
Proof. destruct o; (split; [done|]); cbn; lia. Qed.
Lemma document_u64 d z : is_u64 z → document d (u64_json z).
Proof. intros Hz. split; [done|]. cbn. lia. Qed.
Lemma node_document n : node_carried n → document 125 (node_to_json n).
Proof.
  intros [_ Hv]. apply document_object.
  repeat (apply Forall_cons; split; [apply document_string || apply document_option|]). apply Forall_app. split.
  - destruct (n_selected_model n); repeat constructor; cbn; lia.
  - apply Forall_singleton. apply document_object, Forall_forall. intros [k v] (_ & ? & ?)%Hv. by split.
Qed.
Lemma ir_document ir : ir_carried ir → document 127 (to_json ir).
Proof.
  intros [Hv Hid Hp Hc Ht Hn]. apply document_object. repeat (apply Forall_cons; split).
  - apply document_u64. unfold is_u64, u64_max. lia.
  - apply document_string.
  - apply document_array, Forall_fmap, Forall_forall. intros n Hin. by apply node_document, Hn.
  - apply document_array, Forall_fmap, Forall_forall. intros e Hin. apply document_object.
    repeat (apply Forall_cons; split; [apply document_string || apply document_option|]). constructor.
  - apply document_object. repeat (apply Forall_cons; split); [|by apply document_u64..|constructor].
    apply document_array, Forall_fmap, Forall_forall. intros s _. apply document_string.
  - constructor.
Qed.
Lemma text_roundtrip ir : ir_carried ir → ∃ s, to_string ir = Ok s ∧ from_str s = Ok ir.
Proof using uuid_text document_text.
  intros Hir. exists (print (to_json ir)). split; [done|]. unfold workflow_from_str.
  destruct (ir_document ir Hir). rewrite document_text by done. by apply ir_roundtrip.
Qed.

Lemma canonical_carried ir : ir_carried ir → ir_carried (canonical ir).
Proof.
  intros [Hv Hid Hp Hc Ht Hn]. split; try done. intros n Hin. apply Hn. by rewrite (eqv_nodes _ _ (canonical_equiv ir)) in Hin.
Qed.

(** C39. The canonical text of a well-formed workflow without bound models, whose
    configurations hold no floats and are nested at most 123 deep, is read
    back as that workflow in canonical order: it differs from the original at
    most in the order of its nodes and edges, every field and configuration
    is the same, and its canonical text is the same. *)
Theorem canonical_json_roundtrip ir :
  ir_carried ir → well_formed ir → (∀ n, n ∈ nodes ir → n_selected_model n = None) →
  ∃ s, to_canonical_json to_string ir = Ok s ∧
    from_json from_str s = Ok (canonical ir) ∧ ir_equiv (canonical ir) ir ∧
    to_canonical_json to_string (canonical ir) = Ok s.
Proof using uuid_text document_text.
  intros Hir Hwf Hsel. destruct (text_roundtrip (canonical ir)) as (s & Hto & Hfrom); [by apply canonical_carried|].
  exists s. unfold to_canonical_json. rewrite canonical_idemp, Hto. split_and!; [done| |apply canonical_equiv|done].
  apply from_json_spec. split_and!; [done| |].
  - intros n. rewrite (eqv_nodes _ _ (canonical_equiv ir)). apply Hsel.
  - by rewrite (canonical_equiv ir).
Qed.
End roundtrip.

(** ** A text for documents

    A printer and a parser that the theorem can be tried on: documents are
    numbered, and a number is written in binary. *)
#[local] Instance spec_float_countable : Countable spec_float.
Proof.
  refine (inj_countable'
    (λ f, match f with
          | S754_zero s => inl (inl s) | S754_infinity s => inl (inr s)
          | S754_nan => inr (inl ()) | S754_finite s m e => inr (inr (s, m, e)) end)
    (λ x, match x with
          | inl (inl s) => S754_zero s | inl (inr s) => S754_infinity s
          | inr (inl _) => S754_nan | inr (inr (s, m, e)) => S754_finite s m e end) _).
  by intros [].
Defined.
#[local] Instance jnum_countable : Countable jnum.
Proof.
  refine (inj_countable'
    (λ n, match n with PosInt n => inl n | NegInt z => inr (inl z) | Float f => inr (inr f) end)
    (λ x, match x with inl n => PosInt n | inr (inl z) => NegInt z | inr (inr f) => Float f end) _).
  by intros [].
Defined.
Definition leaf : Type := unit + bool + jnum + string.
Fixpoint to_tree (j : json) : gen_tree leaf :=
  match j with
  | JNull => GenLeaf (inl (inl (inl tt)))
  | JBool b => GenLeaf (inl (inl (inr b)))
  | JNumber n => GenLeaf (inl (inr n))
  | JString s => GenLeaf (inr s)
  | JArray l => GenNode 0 (to_tree <$> l)
  | JObject m => GenNode 1 ((λ kv : string * json, GenNode 2 [GenLeaf (inr kv.1); to_tree kv.2]) <$> m)
  end.
Fixpoint of_tree (t : gen_tree leaf) : json :=
  match t with
  | GenLeaf (inl (inl (inl _))) => JNull
  | GenLeaf (inl (inl (inr b))) => JBool b
  | GenLeaf (inl (inr n)) => JNumber n
  | GenLeaf (inr s) => JString s
  | GenNode 1 l => JObject (omap (λ t, match t with GenNode 2 [GenLeaf (inr k); v] => Some (k, of_tree v) | _ => None end) l)
  | GenNode _ l => JArray (of_tree <$> l)
  end.
Lemma of_to_tree j : of_tree (to_tree j) = j.
Proof.
  induction j as [| | | |l IH|m IH] using json_ind'; try done; cbn; f_equal.
  - induction IH as [|j l Hj _ IHl]; [done|]. csimpl. by rewrite Hj, IHl.
  - induction IH as [|[k v] m Hv _ IHm]; [done|]. csimpl in *. by rewrite Hv, IHm.
Qed.
#[local] Instance to_tree_inj : Inj (=) (=) to_tree.
Proof. intros j j' Heq. by rewrite <- (of_to_tree j), Heq, of_to_tree. Qed.
#[local] Instance json_dec : EqDecision json.
Proof. intros j j'. refine (cast_if (decide (to_tree j = to_tree j'))); [by apply (inj to_tree)|by intros ->]. Defined.
#[local] Instance json_countable : Countable json := inj_countable' to_tree of_tree of_to_tree.

Fixpoint binary (p : positive) : string :=
  match p with xH => "" | xO p => "0" +:+ binary p | xI p => "1" +:+ binary p end.
Fixpoint of_binary (s : string) : positive :=
  match s with
  | String.String a s => if decide (a = "0"%char) then xO (of_binary s) else xI (of_binary s)
  | _ => xH
  end.
Lemma of_binary_binary p : of_binary (binary p) = p.
Proof.
  induction p as [p IH|p IH|]; [| |done].
  - change (of_binary (binary (xI p))) with (xI (of_binary (binary p))). by rewrite IH.
  - change (of_binary (binary (xO p))) with (xO (of_binary (binary p))). by rewrite IH.
Qed.

Definition demo_print (j : json) : string := binary (encode j).
Definition demo_parse (s : string) : option json := decode (of_binary s).
Definition demo_uuid (u : N) : string := binary (encode u).
Definition demo_uuid_parse (s : string) : option N := decode (of_binary s).

Lemma canonical_json_roundtrip_witness :
  let to_string := workflow_to_string demo_uuid demo_print in
  let from_str := workflow_from_str demo_uuid_parse demo_parse in
  ∃ s, to_canonical_json to_string chain_ir = Ok s ∧
    from_json from_str s = Ok (canonical chain_ir) ∧ ir_equiv (canonical chain_ir) chain_ir ∧
    to_canonical_json to_string (canonical chain_ir) = Ok s.
Proof.
  apply (canonical_json_roundtrip demo_uuid demo_uuid_parse demo_print demo_parse).
  - intros u _. unfold demo_uuid, demo_uuid_parse. rewrite of_binary_binary. apply decode_encode.
  - intros j _ _. unfold demo_print, demo_parse. rewrite of_binary_binary. apply decode_encode.
  - split; [vm_compute; split; discriminate|reflexivity|vm_compute; split; discriminate..|].
    intros n Hn. unfold chain_ir, chain_nodes in Hn; csimpl in Hn. rewrite !elem_of_cons, elem_of_nil in Hn.
    destruct Hn as [->|[->|[->|[]]]]; (split; [constructor|by intros k v ?%elem_of_nil]).
  - exact chain_ir_wf.
  - unfold chain_ir, chain_nodes; csimpl. intros n. rewrite !elem_of_cons, elem_of_nil.
    intros [->|[->|[->|[]]]]; reflexivity.
Defined.
