(* ===== verification/Budget.v ===== *)
(** * Spending guards

    [BudgetEnvelope] ([crates/fusion-types/src/lib.rs]), the per-request guard
    whose counters are shared by every clone, and the [ResourceManager] trait
    with [StubResourceManager] ([crates/fusion-kernel/src/resource/mod.rs]).
    The counters are atomics: the sequential operations are state
    transformers, and [Section interleaving] runs [record_and_check] of any
    number of threads one atomic access at a time. *)
From S2P Require Import Prelude Money.

(** ** The request envelope *)
Inductive BudgetExceededError :=
| CostExceeded (spent max : Z)
| TokensExceeded (spent max : Z)
| IterationsExceeded (current max : Z).

(** The ceilings, which no operation changes. *)
Record Ceilings := mkCeilings {
  max_cost : NanoUSD;
  max_tokens : Z;
  max_iterations : Z;
}.
(** The shared [AtomicU64]s. *)
Record Counters := mkCounters {
  c_cost : Z;
  c_tokens : Z;
  c_iterations : Z;
}.

Definition envelope_new : Counters := mkCounters 0 0 0.

(** The checks of [record_and_check], on the values its atomics returned. *)
Definition ceiling_verdict (m : Ceilings) (cost : NanoUSD) (tokens : Z)
    (prev_cost prev_tokens new_cost new_tokens : Z) : result BudgetExceededError unit :=
  match (prev_cost +? as_nanos cost)%u64 with
  | None => Err (CostExceeded new_cost (as_nanos (max_cost m)))
  | Some _ =>
      if (as_nanos (max_cost m) <? new_cost)%Z
      then Err (CostExceeded new_cost (as_nanos (max_cost m)))
      else match (prev_tokens +? tokens)%u64 with
        | None => Err (TokensExceeded new_tokens (max_tokens m))
        | Some _ =>
            if (max_tokens m <? new_tokens)%Z
            then Err (TokensExceeded new_tokens (max_tokens m))
            else Ok tt
        end
  end.

Definition commit_cost (cost : NanoUSD) (c : Counters) : Counters :=
  mkCounters (c_cost c +^ as_nanos cost)%u64 (c_tokens c) (c_iterations c).
Definition commit_tokens (tokens : Z) (c : Counters) : Counters :=
  mkCounters (c_cost c) (c_tokens c +^ tokens)%u64 (c_iterations c).

Definition record_and_check (m : Ceilings) (cost : NanoUSD) (tokens : Z) (c : Counters)
    : result BudgetExceededError unit * Counters :=
  let prev_cost := c_cost c in
  let c1 := commit_cost cost c in
  let prev_tokens := c_tokens c1 in
  let c2 := commit_tokens tokens c1 in
  (ceiling_verdict m cost tokens prev_cost prev_tokens (c_cost c2) (c_tokens c2), c2).

Definition reconcile_refund (cost : NanoUSD) (tokens : Z) (c : Counters) : Counters :=
  mkCounters (c_cost c -^ as_nanos cost)%u64 (c_tokens c -^ tokens)%u64 (c_iterations c).

Definition increment_iteration (m : Ceilings) (c : Counters)
    : result BudgetExceededError Z * Counters :=
  let prev := c_iterations c in
  if (max_iterations m <=? prev)%Z
  then (Err (IterationsExceeded (prev + 1) (max_iterations m)), c)
  else (Ok (prev + 1), mkCounters (c_cost c) (c_tokens c) (prev + 1)).

(** ** Sequential behaviour *)
Record ceilings_ok (m : Ceilings) : Prop := {
  ceil_cost : valid_usd (max_cost m);
  ceil_tokens : is_u64 (max_tokens m);
  ceil_iter : is_u32 (max_iterations m);
}.
Record counters_ok (m : Ceilings) (c : Counters) : Prop := {
  cnt_cost : is_u64 (c_cost c);
  cnt_tokens : is_u64 (c_tokens c);
  cnt_iter : 0 ≤ c_iterations c ≤ max_iterations m;
}.

Lemma ceiling_verdict_ok m cost tokens pc pt nc nt :
  ceiling_verdict m cost tokens pc pt nc nt = Ok tt ↔
  pc + nanos cost ≤ u64_max ∧ nc ≤ nanos (max_cost m) ∧
  pt + tokens ≤ u64_max ∧ nt ≤ max_tokens m.
Proof.
  unfold ceiling_verdict, u64_checked_add, as_nanos.
  repeat case_match; split; intros; simplify_eq; naive_solver lia.
Qed.

(** [record_and_check] commits the spend on every path; it answers [Ok]
    exactly when the true totals fit the ceilings, also at the edge of the
    [u64] range. *)
Theorem record_and_check_exact m cost tokens c :
  ceilings_ok m → counters_ok m c → valid_usd cost → is_u64 tokens →
  let '(r, c') := record_and_check m cost tokens c in
  c_cost c' = Z.min (c_cost c + nanos cost) u64_max ∧
  c_tokens c' = Z.min (c_tokens c + tokens) u64_max ∧
  c_iterations c' = c_iterations c ∧
  (r = Ok tt ↔ c_cost c + nanos cost ≤ nanos (max_cost m) ∧
               c_tokens c + tokens ≤ max_tokens m).
Proof.
  intros [Hmc Hmt _] [Hc Ht _] Hcost Htok. unfold record_and_check.
  split_and!; [done..|]. rewrite ceiling_verdict_ok; csimpl.
  unfold valid_usd, as_nanos in *. unfold_ints. lia.
Qed.

(** A call of the envelope. *)
Inductive envelope_op :=
| OpRecord (cost : NanoUSD) (tokens : Z)
| OpRefund (cost : NanoUSD) (tokens : Z)
| OpIterate.
Definition run_op (m : Ceilings) (c : Counters) (op : envelope_op) : Counters :=
  match op with
  | OpRecord cost tokens => (record_and_check m cost tokens c).2
  | OpRefund cost tokens => reconcile_refund cost tokens c
  | OpIterate => (increment_iteration m c).2
  end.
Definition op_ok (op : envelope_op) : Prop :=
  match op with
  | OpRecord cost tokens | OpRefund cost tokens => valid_usd cost ∧ is_u64 tokens
  | OpIterate => True
  end.

(** How many [increment_iteration] calls of a run answered [Ok]. *)
Fixpoint grants (m : Ceilings) (c : Counters) (ops : list envelope_op) : Z :=
  match ops with
  | [] => 0
  | op :: ops =>
      match op with
      | OpIterate => if is_ok (increment_iteration m c).1 then 1 else 0
      | _ => 0
      end + grants m (run_op m c op) ops
  end.

Lemma run_op_ok m c op : ceilings_ok m → op_ok op → counters_ok m c → counters_ok m (run_op m c op).
Proof.
  intros [_ _ Hi] Hop [Hc Ht Hit].
  destruct op as [cost tokens|cost tokens|]; csimpl; unfold op_ok, valid_usd in Hop.
  - unfold record_and_check. split; csimpl; [..|done]; apply sat_add_u64; naive_solver.
  - split; csimpl; [..|done]; apply sat_sub_u64; naive_solver.
  - unfold increment_iteration. case_match; csimpl; split; csimpl; unfold_ints; lia.
Qed.

Lemma grants_count m c ops :
  c_iterations (foldl (run_op m) c ops) = c_iterations c + grants m c ops.
Proof.
  revert c. induction ops as [|op ops IH]; intros c; csimpl; [lia|]. rewrite IH.
  destruct op; csimpl; [lia..|]. unfold increment_iteration. case_match; csimpl; lia.
Qed.

(** Whatever the calls, the counters stay in their width, and no more than
    [max_iterations] calls of [increment_iteration] ever succeed. *)
Theorem envelope_bounded m ops :
  ceilings_ok m → Forall op_ok ops →
  counters_ok m (foldl (run_op m) envelope_new ops) ∧
  grants m envelope_new ops ≤ max_iterations m.
Proof.
  intros Hm Hops.
  assert (counters_ok m (foldl (run_op m) envelope_new ops)) as Hc.
  { assert (counters_ok m envelope_new) as Hc
      by (destruct Hm as [_ _ Hi]; split; csimpl; unfold_ints; lia).
    revert Hc. generalize envelope_new.
    induction Hops as [|op ops Hop Hops IH]; intros c Hc; [done|].
    csimpl. by apply IH, run_op_ok. }
  split; [done|]. destruct Hc as [_ _ Hit]. rewrite grants_count in Hit. csimpl in Hit. lia.
Qed.

(** ** Concurrent [record_and_check]

    Each atomic access is one step; between two of them any other thread may
    run. [prev_*] are the values [fetch_update] returned. *)
Inductive Pc :=
| Start
| CostCommitted (prev_cost : Z)
| TokensCommitted (prev_cost prev_tokens : Z)
| CostLoaded (prev_cost prev_tokens new_cost : Z)
| Finished (r : result BudgetExceededError unit).

Record Thread := mkThread { t_cost : NanoUSD; t_tokens : Z; t_pc : Pc }.
Definition at_pc (t : Thread) (p : Pc) : Thread := mkThread (t_cost t) (t_tokens t) p.

Definition thread_step (m : Ceilings) (c : Counters) (t : Thread)
    : option (Counters * Thread) :=
  match t_pc t with
  | Start => Some (commit_cost (t_cost t) c, at_pc t (CostCommitted (c_cost c)))
  | CostCommitted pc =>
      Some (commit_tokens (t_tokens t) c, at_pc t (TokensCommitted pc (c_tokens c)))
  | TokensCommitted pc pt => Some (c, at_pc t (CostLoaded pc pt (c_cost c)))
  | CostLoaded pc pt nc =>
      Some (c, at_pc t (Finished
        (ceiling_verdict m (t_cost t) (t_tokens t) pc pt nc (c_tokens c))))
  | Finished _ => None
  end.

Record World := mkWorld { w_counters : Counters; w_threads : list Thread }.

Inductive world_step (m : Ceilings) : World → World → Prop :=
| world_step_thread c ts i t c' t' :
    ts !! i = Some t → thread_step m c t = Some (c', t') →
    world_step m (mkWorld c ts) (mkWorld c' (<[i := t']> ts)).

Definition spawn (calls : list (NanoUSD * Z)) : World :=
  mkWorld envelope_new ((λ ct, mkThread ct.1 ct.2 Start) <$> calls).

(** A thread that runs alone computes [record_and_check]. *)
Lemma thread_alone m cost tokens c :
  rtc (world_step m) (mkWorld c [mkThread cost tokens Start])
    (mkWorld (record_and_check m cost tokens c).2
       [mkThread cost tokens (Finished (record_and_check m cost tokens c).1)]).
Proof.
  do 4 (eapply rtc_l; [by eapply (world_step_thread _ _ _ 0)|csimpl]). apply rtc_refl.
Qed.

Definition committed_cost (t : Thread) : Z :=
  match t_pc t with Start => 0 | _ => nanos (t_cost t) end.
Definition committed_tokens (t : Thread) : Z :=
  match t_pc t with Start | CostCommitted _ => 0 | _ => t_tokens t end.

#[local] Arguments at_pc !_ _ /.
#[local] Arguments committed_cost !_ /.
#[local] Arguments committed_tokens !_ /.

(** The thread will fail, or has failed, with a cost (a token) error, or has
    not looked at the counter since it committed. *)
Definition cost_alarm (m : Ceilings) (t : Thread) : Prop :=
  match t_pc t with
  | Start => False
  | CostCommitted _ | TokensCommitted _ _ => True
  | CostLoaded pc _ nc => u64_max < pc + nanos (t_cost t) ∨ nanos (max_cost m) < nc
  | Finished r => r ≠ Ok tt
  end.
Definition tokens_alarm (m : Ceilings) (t : Thread) : Prop :=
  match t_pc t with
  | Start | CostCommitted _ => False
  | TokensCommitted _ _ | CostLoaded _ _ _ => True
  | Finished r => r ≠ Ok tt
  end.
Definition cost_overflow (t : Thread) : Prop :=
  match t_pc t with
  | Start => False
  | CostCommitted pc | TokensCommitted pc _ | CostLoaded pc _ _ =>
      u64_max < pc + nanos (t_cost t)
  | Finished r => r ≠ Ok tt
  end.
Definition tokens_overflow (t : Thread) : Prop :=
  match t_pc t with
  | Start | CostCommitted _ => False
  | TokensCommitted _ pt | CostLoaded _ pt _ => u64_max < pt + t_tokens t
  | Finished r => r ≠ Ok tt
  end.

Definition zsum (l : list Z) : Z := foldr Z.add 0 l.

Record world_inv (m : Ceilings) (w : World) : Prop := {
  winv_cost : c_cost (w_counters w) = zsum (committed_cost <$> w_threads w) ∨
    Exists cost_overflow (w_threads w);
  winv_tokens : c_tokens (w_counters w) = zsum (committed_tokens <$> w_threads w) ∨
    Exists tokens_overflow (w_threads w);
  winv_cost_max : c_cost (w_counters w) ≤ nanos (max_cost m) ∨
    Exists (cost_alarm m) (w_threads w);
  winv_tokens_max : c_tokens (w_counters w) ≤ max_tokens m ∨
    Exists (tokens_alarm m) (w_threads w);
}.

Lemma zsum_insert (f : Thread → Z) ts i t t' :
  ts !! i = Some t → zsum (f <$> <[i := t']> ts) = zsum (f <$> ts) - f t + f t'.
Proof.
  revert i. induction ts as [|x ts IH]; intros [|i] Hi; csimpl in *; simplify_eq; [lia|].
  rewrite (IH i Hi). lia.
Qed.

(** A step by thread [i] keeps [P] somewhere if it keeps it at [i]. *)
Lemma Exists_insert_keep (P : Thread → Prop) ts i t t' :
  ts !! i = Some t → (P t → P t') → Exists P ts → Exists P (<[i := t']> ts).
Proof.
  intros Hi Hkeep. rewrite !Exists_exists. intros (x & (j & Hj)%list_elem_of_lookup & HP).
  destruct (decide (i = j)) as [<-|Hne].
  - simplify_eq. exists t'. split; [|auto].
    apply list_elem_of_lookup. exists i. by apply list_lookup_insert_eq, lookup_lt_is_Some; eauto.
  - exists x. split; [|done]. apply list_elem_of_lookup. exists j.
    by rewrite list_lookup_insert_ne.
Qed.
Lemma Exists_insert_new (P : Thread → Prop) ts i t t' :
  ts !! i = Some t → P t' → Exists P (<[i := t']> ts).
Proof.
  intros Hi HP. apply Exists_exists. exists t'. split; [|done].
  apply list_elem_of_lookup. exists i.
  apply list_lookup_insert_eq. by eapply lookup_lt_Some.
Qed.

Lemma thread_step_inv m c ts i t c' t' :
  ts !! i = Some t → thread_step m c t = Some (c', t') →
  world_inv m (mkWorld c ts) → world_inv m (mkWorld c' (<[i := t']> ts)).
Proof.
  intros Hi Hstep [Hc Ht Hcm Htm]. unfold thread_step in Hstep; csimpl in *.
  destruct t as [cost tokens pc]; csimpl in *.
  destruct pc as [|pc|pc pt|pc pt nc|r]; simplify_eq; split; csimpl;
    try rewrite (zsum_insert _ _ _ _ _ Hi); csimpl.
  (* the cost is committed *)
  - destruct (decide (c_cost c + nanos cost ≤ u64_max)).
    + destruct Hc as [Hc|Hc]; [left; unfold u64_saturating_add, as_nanos; lia|right].
      by eapply Exists_insert_keep.
    + right. eapply Exists_insert_new; [done|]. unfold cost_overflow; csimpl. lia.
  - destruct Ht as [Ht|Ht]; [left; lia|right]. by eapply Exists_insert_keep.
  - right. by eapply Exists_insert_new.
  - destruct Htm as [Ht'|Ht']; [by left|right]. by eapply Exists_insert_keep.
  (* the tokens are committed *)
  - destruct Hc as [Hc|Hc]; [left; lia|right]. by eapply Exists_insert_keep.
  - destruct (decide (c_tokens c + tokens ≤ u64_max)).
    + destruct Ht as [Ht|Ht]; [left; unfold u64_saturating_add; lia|right].
      by eapply Exists_insert_keep.
    + right. eapply Exists_insert_new; [done|]. unfold tokens_overflow; csimpl. lia.
  - destruct Hcm as [Hcm|Hcm]; [by left|right]. by eapply Exists_insert_keep.
  - right. by eapply Exists_insert_new.
  (* the cost is read back *)
  - destruct Hc as [Hc|Hc]; [left; lia|right]. by eapply Exists_insert_keep.
  - destruct Ht as [Ht|Ht]; [left; lia|right]. by eapply Exists_insert_keep.
  - destruct (decide (c_cost c' ≤ nanos (max_cost m))); [by left|right].
    eapply Exists_insert_new; [done|]. unfold cost_alarm; csimpl. lia.
  - destruct Htm as [Htm|Htm]; [by left|right]. by eapply Exists_insert_keep.
  (* the tokens are read back and the verdict is given *)
  - destruct Hc as [Hc|Hc]; [left; lia|right]. eapply Exists_insert_keep; [done| |done].
    unfold cost_overflow; csimpl. rewrite ceiling_verdict_ok. lia.
  - destruct Ht as [Ht|Ht]; [left; lia|right]. eapply Exists_insert_keep; [done| |done].
    unfold tokens_overflow; csimpl. rewrite ceiling_verdict_ok. lia.
  - destruct Hcm as [Hcm|Hcm]; [by left|right]. eapply Exists_insert_keep; [done| |done].
    unfold cost_alarm; csimpl. rewrite ceiling_verdict_ok. lia.
  - destruct (decide (c_tokens c' ≤ max_tokens m)); [by left|right].
    eapply Exists_insert_new; [done|]. unfold tokens_alarm; csimpl.
    rewrite ceiling_verdict_ok. lia.
Qed.

Lemma spawn_inv m calls : ceilings_ok m → world_inv m (spawn calls).
Proof.
  intros [Hm Ht _].
  split; csimpl; left; try (unfold valid_usd in *; unfold_ints; lia);
    induction calls; csimpl; unfold committed_cost, committed_tokens in *; csimpl; lia.
Qed.

Lemma world_inv_reachable m w w' :
  rtc (world_step m) w w' → world_inv m w → world_inv m w'.
Proof. induction 1 as [|w1 w2 w3 Hs _ IH]; [done|]. destruct Hs. eauto using thread_step_inv. Qed.

Lemma threads_calls m w w' :
  rtc (world_step m) w w' →
  (λ t, (t_cost t, t_tokens t)) <$> w_threads w' = (λ t, (t_cost t, t_tokens t)) <$> w_threads w.
Proof.
  induction 1 as [|w1 w2 w3 Hs _ IH]; [done|]. rewrite IH.
  destruct Hs as [c ts i t c' t' Hi Hs]; csimpl. rewrite list_fmap_insert.
  assert ((t_cost t', t_tokens t') = (t_cost t, t_tokens t)) as ->.
  { unfold thread_step in Hs. destruct (t_pc t); simplify_eq; done. }
  apply list_insert_id. by rewrite list_lookup_fmap, Hi.
Qed.

(** C8. However the accesses of concurrent [record_and_check] calls interleave, if
    every call answers [Ok] then the counters hold exactly the sum of all the
    calls and both sums are within the ceilings: no interleaving lets the
    request overspend unnoticed. *)
Theorem concurrent_spend_within_ceilings m calls w :
  ceilings_ok m → rtc (world_step m) (spawn calls) w →
  Forall (λ t, t_pc t = Finished (Ok tt)) (w_threads w) →
  c_cost (w_counters w) = zsum (nanos ∘ fst <$> calls) ∧
  c_tokens (w_counters w) = zsum (snd <$> calls) ∧
  zsum (nanos ∘ fst <$> calls) ≤ nanos (max_cost m) ∧
  zsum (snd <$> calls) ≤ max_tokens m.
Proof.
  intros Hm Hr Hall.
  destruct (world_inv_reachable m _ _ Hr (spawn_inv m calls Hm)) as [Hc Ht Hcm Htm].
  assert (∀ P : Thread → Prop, (∀ t, t_pc t = Finished (Ok tt) → ¬ P t) →
    ¬ Exists P (w_threads w)) as Hno.
  { intros P HP (t & Hin & HPt)%Exists_exists. rewrite Forall_forall in Hall.
    by apply (HP t); [apply Hall|]. }
  destruct Hc as [Hc|[]%Hno]; [|unfold cost_overflow; by intros t -> []].
  destruct Ht as [Ht|[]%Hno]; [|unfold tokens_overflow; by intros t -> []].
  destruct Hcm as [Hcm|[]%Hno]; [|unfold cost_alarm; by intros t -> []].
  destruct Htm as [Htm|[]%Hno]; [|unfold tokens_alarm; by intros t -> []].
  assert (calls = (λ t, (t_cost t, t_tokens t)) <$> w_threads w) as Hcalls.
  { rewrite (threads_calls m _ _ Hr). csimpl. rewrite <- list_fmap_compose.
    rewrite <- (list_fmap_id calls) at 1. apply list_fmap_ext. by intros _ [] _. }
  assert (committed_cost <$> w_threads w = nanos ∘ fst <$> calls ∧
          committed_tokens <$> w_threads w = snd <$> calls) as [Hcc Hct].
  { rewrite Hcalls, <- !list_fmap_compose. split; apply list_fmap_ext; intros i t Hi;
      eapply Forall_lookup_1 in Hall; [|done| |done];
      unfold committed_cost, committed_tokens; by rewrite Hall. }
  rewrite <- Hcc, <- Hct. split_and!; lia.
Qed.

(** ** Resource managers *)
Record Quota := mkQuota { max_daily_cost : NanoUSD; max_daily_tokens : Z }.

(** The trait [ResourceManager] over the manager's state [S], with what its
    clients rely on: a reservation is all or nothing, an accepted one is
    accounted for and leaves the spend within the quota, [can_afford] predicts
    it, and releasing never adds spend. *)
Class ResourceManager (S : Type) := {
  rm_ok : S → Prop;
  rm_quota : S → Quota;
  rm_spent_cost : S → Z;
  rm_spent_tokens : S → Z;
  rm_can_afford : S → NanoUSD → Z → bool;
  rm_try_reserve : S → NanoUSD → Z → bool * S;
  rm_release : S → NanoUSD → Z → S;
  rm_reserve_spec : ∀ s c t, rm_ok s → valid_usd c → is_u64 t →
    let '(b, s') := rm_try_reserve s c t in
    rm_ok s' ∧ rm_quota s' = rm_quota s ∧ b = rm_can_afford s c t ∧
    if b then
      rm_spent_cost s' = (rm_spent_cost s +^ nanos c)%u64 ∧
      rm_spent_tokens s' = (rm_spent_tokens s +^ t)%u64 ∧
      rm_spent_cost s' ≤ nanos (max_daily_cost (rm_quota s)) ∧
      rm_spent_tokens s' ≤ max_daily_tokens (rm_quota s)
    else s' = s;
  rm_release_spec : ∀ s c t, rm_ok s → valid_usd c → is_u64 t →
    rm_ok (rm_release s c t) ∧ rm_quota (rm_release s c t) = rm_quota s ∧
    rm_spent_cost (rm_release s c t) = Z.max 0 (rm_spent_cost s - nanos c) ∧
    rm_spent_tokens (rm_release s c t) = Z.max 0 (rm_spent_tokens s - t);
}.

Record StubResourceManager := mkStub { s_quota : Quota; s_cost : Z; s_tokens : Z }.

Definition stub_new (q : Quota) : StubResourceManager := mkStub q 0 0.
Definition stub_simulate_spend (s : StubResourceManager) (cost tokens : Z) :=
  mkStub (s_quota s) (u64_wrapping_add (s_cost s) cost) (u64_wrapping_add (s_tokens s) tokens).
Definition stub_can_afford (s : StubResourceManager) (cost : NanoUSD) (tokens : Z) : bool :=
  ((s_cost s +^ as_nanos cost)%u64 <=? as_nanos (max_daily_cost (s_quota s)))%Z &&
  ((s_tokens s +^ tokens)%u64 <=? max_daily_tokens (s_quota s))%Z.
(** The body runs under [reserve_lock]. *)
Definition stub_try_reserve (s : StubResourceManager) (cost : NanoUSD) (tokens : Z)
    : bool * StubResourceManager :=
  if ((as_nanos (max_daily_cost (s_quota s)) <? (s_cost s +^ as_nanos cost)%u64)%Z ||
      (max_daily_tokens (s_quota s) <? (s_tokens s +^ tokens)%u64)%Z)
  then (false, s)
  else (true, mkStub (s_quota s) (s_cost s +^ as_nanos cost)%u64 (s_tokens s +^ tokens)%u64).
Definition stub_release (s : StubResourceManager) (cost : NanoUSD) (tokens : Z)
    : StubResourceManager :=
  mkStub (s_quota s) (u64_wrapping_sub (s_cost s) (Z.min (as_nanos cost) (s_cost s)))
    (u64_wrapping_sub (s_tokens s) (Z.min tokens (s_tokens s))).
Definition stub_record_usage (s : StubResourceManager) (cost : NanoUSD) (tokens : Z) :=
  mkStub (s_quota s) (u64_wrapping_add (s_cost s) (as_nanos cost))
    (u64_wrapping_add (s_tokens s) tokens).

Definition stub_ok (s : StubResourceManager) : Prop :=
  is_u64 (s_cost s) ∧ is_u64 (s_tokens s) ∧
  valid_usd (max_daily_cost (s_quota s)) ∧ is_u64 (max_daily_tokens (s_quota s)).

Lemma stub_try_reserve_spec s c t :
  stub_ok s → valid_usd c → is_u64 t →
  let '(b, s') := stub_try_reserve s c t in
  stub_ok s' ∧ s_quota s' = s_quota s ∧ b = stub_can_afford s c t ∧
  if b then
    s_cost s' = (s_cost s +^ nanos c)%u64 ∧ s_tokens s' = (s_tokens s +^ t)%u64 ∧
    s_cost s' ≤ nanos (max_daily_cost (s_quota s)) ∧
    s_tokens s' ≤ max_daily_tokens (s_quota s)
  else s' = s.
Proof.
  intros (Hc & Ht & Hmc & Hmt) Hcost Htok. unfold stub_try_reserve, stub_can_afford, as_nanos.
  destruct (nanos (max_daily_cost (s_quota s)) <? _)%Z eqn:H1;
    [|destruct (max_daily_tokens (s_quota s) <? _)%Z eqn:H2]; csimpl.
  - split_and!; try done. symmetry. apply andb_false_intro1. lia.
  - split_and!; try done. symmetry. apply andb_false_intro2. lia.
  - unfold stub_ok; csimpl. split_and!; auto with fusion; lia.
Qed.

Lemma stub_release_spec s c t :
  stub_ok s → valid_usd c → is_u64 t →
  stub_ok (stub_release s c t) ∧ s_quota (stub_release s c t) = s_quota s ∧
  s_cost (stub_release s c t) = Z.max 0 (s_cost s - nanos c) ∧
  s_tokens (stub_release s c t) = Z.max 0 (s_tokens s - t).
Proof.
  intros (Hc & Ht & Hmc & Hmt) Hcost Htok. unfold stub_release, stub_ok, as_nanos; csimpl.
  unfold valid_usd in *. unfold_ints. rewrite !Z.mod_small by lia. split_and!; try done; lia.
Qed.

#[global] Instance stub_resource_manager : ResourceManager StubResourceManager := {|
  rm_ok := stub_ok;
  rm_quota := s_quota;
  rm_spent_cost := s_cost;
  rm_spent_tokens := s_tokens;
  rm_can_afford := stub_can_afford;
  rm_try_reserve := stub_try_reserve;
  rm_release := stub_release;
  rm_reserve_spec := stub_try_reserve_spec;
  rm_release_spec := stub_release_spec;
|}.

(** A client of a resource manager: reservations and releases in any order. *)
Inductive rm_op := Reserve (c : NanoUSD) (t : Z) | Release (c : NanoUSD) (t : Z).
Definition rm_op_ok (op : rm_op) : Prop :=
  match op with Reserve c t | Release c t => valid_usd c ∧ is_u64 t end.
Definition rm_run {M} `{!ResourceManager M} (s : M) (op : rm_op) : M :=
  match op with
  | Reserve c t => (rm_try_reserve s c t).2
  | Release c t => rm_release s c t
  end.

Definition within_quota {M} `{!ResourceManager M} (s : M) : Prop :=
  rm_spent_cost s ≤ nanos (max_daily_cost (rm_quota s)) ∧
  rm_spent_tokens s ≤ max_daily_tokens (rm_quota s).

Lemma rm_run_within {M} `{!ResourceManager M} (s : M) op :
  rm_op_ok op → rm_ok s → 0 ≤ rm_spent_cost s → 0 ≤ rm_spent_tokens s → within_quota s →
  rm_ok (rm_run s op) ∧ rm_quota (rm_run s op) = rm_quota s ∧ within_quota (rm_run s op) ∧
  0 ≤ rm_spent_cost (rm_run s op) ∧ 0 ≤ rm_spent_tokens (rm_run s op).
Proof.
  unfold within_quota. destruct op as [c t|c t]; csimpl; intros [Hc Ht] Hs H0 H1 [Hwc Hwt].
  - pose proof (rm_reserve_spec s c t Hs Hc Ht) as Hr.
    destruct (rm_try_reserve s c t) as [b s']; csimpl.
    destruct Hr as (Hs' & Hq & _ & Hb). rewrite Hq. destruct b.
    + destruct Hb as (Ec & Et & ? & ?). split_and!; try done; rewrite ?Ec, ?Et;
        unfold valid_usd in *; unfold_ints; lia.
    + by subst.
  - destruct (rm_release_spec s c t Hs Hc Ht) as (Hs' & Hq & Ec & Et).
    rewrite Hq, Ec, Et. unfold valid_usd in *. unfold_ints. split_and!; try done; lia.
Qed.

(** With any manager that implements the interface, no sequence of
    reservations and releases takes the spend above the quota. *)
Theorem reservations_within_quota {M} `{!ResourceManager M} (s : M) ops :
  Forall rm_op_ok ops → rm_ok s → 0 ≤ rm_spent_cost s → 0 ≤ rm_spent_tokens s →
  within_quota s →
  within_quota (foldl rm_run s ops) ∧ rm_quota (foldl rm_run s ops) = rm_quota s.
Proof.
  intros Hops. revert s. induction Hops as [|op ops Hop Hops IH]; intros s Hs H0 H1 Hw; [done|].
  csimpl. destruct (rm_run_within s op Hop Hs H0 H1 Hw) as (? & Hq & ? & ? & ?).
  destruct (IH (rm_run s op)) as [? ->]; auto.
Qed.

(** *** Two concurrent releases

    [release] reads the counter and subtracts in two accesses, without the
    lock; [release_load] and [release_sub] are those accesses for the cost. *)
Definition release_load (s : StubResourceManager) (cost : NanoUSD) : Z :=
  Z.min (as_nanos cost) (s_cost s).
Definition release_sub (s : StubResourceManager) (amount : Z) : StubResourceManager :=
  mkStub (s_quota s) (u64_wrapping_sub (s_cost s) amount) (s_tokens s).

(** Two releases whose reads both precede both subtractions take the counter
    below zero: it wraps to almost [u64::MAX] and nothing is affordable. *)
Theorem concurrent_release_wraps :
  ∃ s c, stub_ok s ∧ valid_usd c ∧ nanos c = s_cost s ∧
    let a1 := release_load s c in
    let a2 := release_load s c in
    let s' := release_sub (release_sub s a1) a2 in
    s_cost s' = u64_max - nanos c + 1 ∧
    ∀ c' t, valid_usd c' → nanos (max_daily_cost (s_quota s)) < u64_max - nanos c →
      stub_can_afford s' c' t = false.
Proof.
  exists (mkStub (mkQuota ONE_DOLLAR 1000) 10 0), (mk_NanoUSD 10).
  assert (release_sub (release_sub (mkStub (mkQuota ONE_DOLLAR 1000) 10 0) 10) 10
    = mkStub (mkQuota ONE_DOLLAR 1000) (u64_max - 9) 0) as Hs by (vm_compute; reflexivity).
  assert (release_load (mkStub (mkQuota ONE_DOLLAR 1000) 10 0) (mk_NanoUSD 10) = 10) as -> by done.
  csimpl. rewrite Hs. csimpl. unfold stub_ok, valid_usd; csimpl.
  split_and!; try (unfold_ints; lia); try done.
  intros c' t Hc' _. unfold stub_can_afford. apply andb_false_intro1. csimpl.
  unfold as_nanos; csimpl. unfold_ints. lia.
Qed.

(** ** Concrete runs *)
Definition demo_ceilings : Ceilings := mkCeilings ONE_DOLLAR 1000 3.
Lemma demo_ceilings_ok : ceilings_ok demo_ceilings.
Proof. split; csimpl; unfold valid_usd; csimpl; unfold_ints; lia. Qed.

Lemma record_and_check_exact_witness :
  let '(r, c') := record_and_check demo_ceilings ONE_CENT 100 envelope_new in
  c_cost c' = Z.min (0 + nanos ONE_CENT) u64_max ∧ c_tokens c' = Z.min (0 + 100) u64_max ∧
  c_iterations c' = 0 ∧
  (r = Ok tt ↔ 0 + nanos ONE_CENT ≤ nanos ONE_DOLLAR ∧ 0 + 100 ≤ 1000).
Proof.
  apply (record_and_check_exact demo_ceilings ONE_CENT 100 envelope_new).
  - exact demo_ceilings_ok.
  - split; csimpl; unfold_ints; lia.
  - unfold valid_usd; csimpl; unfold_ints; lia.
  - unfold_ints; lia.
Defined.

Definition demo_ops : list envelope_op :=
  [OpIterate; OpRecord ONE_CENT 100; OpIterate; OpIterate; OpRefund ONE_MICRO 5; OpIterate].
Lemma demo_ops_ok : Forall op_ok demo_ops.
Proof. repeat constructor; csimpl; unfold valid_usd; csimpl; unfold_ints; lia. Qed.

Lemma envelope_bounded_witness :
  counters_ok demo_ceilings (foldl (run_op demo_ceilings) envelope_new demo_ops) ∧
  grants demo_ceilings envelope_new demo_ops ≤ 3.
Proof. exact (envelope_bounded demo_ceilings demo_ops demo_ceilings_ok demo_ops_ok). Defined.

(** The thread turns of one interleaving. *)
Definition run_thread (m : Ceilings) (w : World) (i : nat) : World :=
  match w_threads w !! i with
  | Some t => match thread_step m (w_counters w) t with
      | Some (c', t') => mkWorld c' (<[i := t']> (w_threads w))
      | None => w end
  | None => w
  end.
Lemma run_thread_steps m w turns : rtc (world_step m) w (foldl (run_thread m) w turns).
Proof.
  revert w. induction turns as [|i turns IH]; intros w; csimpl; [apply rtc_refl|].
  etrans; [|apply IH]. unfold run_thread. destruct w as [c ts]; csimpl.
  destruct (ts !! i) as [t|] eqn:Hi; [|apply rtc_refl].
  destruct (thread_step m c t) as [[c' t']|] eqn:Hs; [|apply rtc_refl].
  apply rtc_once. by econstructor.
Qed.

Lemma concurrent_spend_within_ceilings_witness :
  let calls := [(ONE_CENT, 100); (ONE_MICRO, 200)] in
  let w := foldl (run_thread demo_ceilings) (spawn calls) [0; 1; 1; 0; 1; 0; 0; 1]%nat in
  c_cost (w_counters w) = zsum (nanos ∘ fst <$> calls) ∧
  c_tokens (w_counters w) = zsum (snd <$> calls) ∧
  zsum (nanos ∘ fst <$> calls) ≤ nanos ONE_DOLLAR ∧ zsum (snd <$> calls) ≤ 1000.
Proof.
  apply (concurrent_spend_within_ceilings demo_ceilings [(ONE_CENT, 100); (ONE_MICRO, 200)]).
  - exact demo_ceilings_ok.
  - apply run_thread_steps.
  - vm_compute. repeat constructor.
Defined.

Lemma reservations_within_quota_witness :
  let s := stub_new (mkQuota ONE_DOLLAR 1000) in
  let ops := [Reserve ONE_CENT 900; Reserve ONE_CENT 200; Release ONE_DOLLAR 100] in
  within_quota (foldl rm_run s ops) ∧ rm_quota (foldl rm_run s ops) = rm_quota s.
Proof.
  apply (reservations_within_quota (stub_new (mkQuota ONE_DOLLAR 1000))).
  - repeat constructor; csimpl; unfold valid_usd; csimpl; unfold_ints; lia.
  - unfold rm_ok, stub_resource_manager, stub_ok, valid_usd; csimpl. unfold_ints; lia.
  - csimpl; lia.
  - csimpl; lia.
  - unfold within_quota; csimpl. lia.
Defined.
