(* ===== verification/Leases.v ===== *)
(** * Execution leases ([crates/fusion-scheduler/src/leases.rs])

    The lease manager's two maps, its clock (an argument of every operation),
    grant, renewal and revocation. [HashMap] iteration order is the
    [HashIter] instance. Properties: one worker per node, live leases are not
    displaced, a bound on the life of a lease, and two behaviours the source's
    comments do not describe. *)
From S2P Require Import Prelude Text.
From Stdlib Require Import Ascii.
Open Scope stdpp_scope.
Open Scope Z_scope.

Definition DEFAULT_MAX_RENEWALS : Z := 100.
Definition MAX_LEASE_ABSOLUTE_LIFETIME_MS : Z := 86400000.
Definition MAX_LEASE_TTL_MS : Z := MAX_LEASE_ABSOLUTE_LIFETIME_MS.
Definition MIN_LEASE_TTL_MS : Z := 1.
Definition DEFAULT_LEASE_TTL_MS : Z := 60000.

Record ExecutionLease := mkLease {
  lease_key : string;
  execution_id : string;
  node_id : string;
  worker_id : string;
  epoch : Z;
  granted_at_ms : Z;
  ttl_ms : Z;
  is_revoked : bool;
  owner : string;
  created_at_ms : Z;
  renewal_count : Z;
  max_renewals : Z;
}.

Definition is_expired (now : Z) (l : ExecutionLease) : bool :=
  is_revoked l || ((0 <? ttl_ms l)%Z && ((granted_at_ms l +^ ttl_ms l)%u64 <=? now)%Z).

Record LeaseManager := mkManager {
  leases : gmap string ExecutionLease;
  epochs : gmap (string * string) Z;
}.
Definition manager_new : LeaseManager := mkManager ∅ ∅.

(** [ERR_LEASE_VIOLATION]: node and the worker that holds it. *)
Inductive LeaseError := LeaseViolation (node holder : string).

(** [format!("lease:{}:{}:{}", exec_id, node_id, worker_id)] *)
Definition format_key (exec node worker : string) : string :=
  "lease:" +:+ exec +:+ ":" +:+ node +:+ ":" +:+ worker.

Definition bound_ttl (ttl : Z) : Z :=
  if decide (ttl = 0) then DEFAULT_LEASE_TTL_MS
  else clamp MIN_LEASE_TTL_MS MAX_LEASE_TTL_MS ttl.

Definition lease_slot (l : ExecutionLease) : string * string := (execution_id l, node_id l).

Section manager.
Context `{!HashIter string}.

(** [map.retain(..)] and the removal of the pruned epochs. *)
Definition prune (now : Z) (s : LeaseManager) : LeaseManager :=
  let pruned := lease_slot <$> map_values (filter (λ kl, is_expired now kl.2 = true) (leases s)) in
  mkManager (filter (λ kl, is_expired now kl.2 = false) (leases s))
    (foldl (λ m k, delete k m) (epochs s) pruned).

Definition conflicts (now : Z) (exec node worker : string) (l : ExecutionLease) : Prop :=
  execution_id l = exec ∧ node_id l = node ∧ is_expired now l = false ∧ worker_id l ≠ worker.

Definition new_lease (now : Z) (exec node worker : string) (ttl ep : Z) : ExecutionLease :=
  mkLease (format_key exec node worker) exec node worker ep now (bound_ttl ttl) false
    worker now 0 DEFAULT_MAX_RENEWALS.

Definition grant_lease (now : Z) (exec node worker : string) (ttl : Z) (s : LeaseManager)
    : result LeaseError ExecutionLease * LeaseManager :=
  let s := prune now s in
  match list_find (conflicts now exec node worker) (map_values (leases s)) with
  | Some (_, l) => (Err (LeaseViolation node (worker_id l)), s)
  | None =>
      let next_epoch := u64_wrapping_add (default 0 (epochs s !! (exec, node))) 1 in
      let lease := new_lease now exec node worker ttl next_epoch in
      (Ok lease, mkManager (<[lease_key lease := lease]> (leases s))
                   (<[(exec, node) := next_epoch]> (epochs s)))
  end.

Definition renewed (now : Z) (l : ExecutionLease) : ExecutionLease :=
  mkLease (lease_key l) (execution_id l) (node_id l) (worker_id l)
    (u64_wrapping_add (epoch l) 1) now (ttl_ms l) (is_revoked l) (owner l)
    (created_at_ms l) (renewal_count l + 1) (max_renewals l).

Definition renew_lease_by (now : Z) (key by_owner : string) (s : LeaseManager)
    : bool * LeaseManager :=
  match leases s !! key with
  | Some l =>
      if decide (owner l ≠ by_owner) then (false, s)
      else if is_expired now l then (false, s)
      else if (max_renewals l <=? renewal_count l)%Z then (false, s)
      else if (MAX_LEASE_ABSOLUTE_LIFETIME_MS <=? (now -^ created_at_ms l)%u64)%Z then (false, s)
      else (true, mkManager (<[key := renewed now l]> (leases s))
                    (<[lease_slot l := epoch (renewed now l)]> (epochs s)))
  | None => (false, s)
  end.

Definition renew_lease (now : Z) (key : string) (s : LeaseManager) : bool * LeaseManager :=
  match leases s !! key with
  | Some l => renew_lease_by now key (owner l) s
  | None => (false, s)
  end.

Definition revoked (l : ExecutionLease) : ExecutionLease :=
  mkLease (lease_key l) (execution_id l) (node_id l) (worker_id l) (epoch l)
    (granted_at_ms l) (ttl_ms l) true (owner l) (created_at_ms l) (renewal_count l)
    (max_renewals l).

Definition revoke_lease (key : string) (s : LeaseManager) : bool * LeaseManager :=
  match leases s !! key with
  | Some l => (true, mkManager (<[key := revoked l]> (leases s)) (epochs s))
  | None => (false, s)
  end.

(** ** Runs *)
Inductive lease_op :=
| Grant (exec node worker : string) (ttl : Z)
| RenewBy (key owner : string)
| Renew (key : string)
| Revoke (key : string).

Definition run_lease_op (s : LeaseManager) (now_op : Z * lease_op) : LeaseManager :=
  let '(now, op) := now_op in
  match op with
  | Grant e n w ttl => (grant_lease now e n w ttl s).2
  | RenewBy k o => (renew_lease_by now k o s).2
  | Renew k => (renew_lease now k s).2
  | Revoke k => (revoke_lease k s).2
  end.

(** Clock readings and requested TTLs are [u64]s. *)
Definition op_in_range (now_op : Z * lease_op) : Prop :=
  is_u64 now_op.1 ∧ match now_op.2 with Grant _ _ _ ttl => is_u64 ttl | _ => True end.

(** What every entry of the map satisfies. *)
Record lease_ok (key : string) (l : ExecutionLease) : Prop := {
  lo_key : key = format_key (execution_id l) (node_id l) (worker_id l);
  lo_ttl : MIN_LEASE_TTL_MS ≤ ttl_ms l ≤ MAX_LEASE_TTL_MS;
  lo_granted : 0 ≤ granted_at_ms l ≤ created_at_ms l + MAX_LEASE_ABSOLUTE_LIFETIME_MS;
  lo_renewals : 0 ≤ renewal_count l ≤ max_renewals l ∧ max_renewals l = DEFAULT_MAX_RENEWALS;
}.

Record manager_inv (s : LeaseManager) : Prop := {
  mi_lease : ∀ k l, leases s !! k = Some l → lease_ok k l;
  mi_worker : ∀ k1 k2 l1 l2, leases s !! k1 = Some l1 → leases s !! k2 = Some l2 →
    lease_slot l1 = lease_slot l2 → worker_id l1 = worker_id l2;
}.

Lemma bound_ttl_range ttl : is_u64 ttl → MIN_LEASE_TTL_MS ≤ bound_ttl ttl ≤ MAX_LEASE_TTL_MS.
Proof.
  unfold bound_ttl, clamp, MIN_LEASE_TTL_MS, MAX_LEASE_TTL_MS,
    MAX_LEASE_ABSOLUTE_LIFETIME_MS, DEFAULT_LEASE_TTL_MS.
  case_decide; lia.
Qed.

Lemma prune_lookup now s k l :
  leases (prune now s) !! k = Some l ↔ leases s !! k = Some l ∧ is_expired now l = false.
Proof. unfold prune; csimpl. by rewrite map_lookup_filter_Some. Qed.

Lemma grant_cases now e n w ttl s :
  (∃ l, l ∈ map_values (leases (prune now s)) ∧ conflicts now e n w l ∧
     grant_lease now e n w ttl s = (Err (LeaseViolation n (worker_id l)), prune now s)) ∨
  ((∀ k l, leases (prune now s) !! k = Some l → ¬ conflicts now e n w l) ∧
   ∃ ep, grant_lease now e n w ttl s =
     (Ok (new_lease now e n w ttl ep),
      mkManager (<[format_key e n w := new_lease now e n w ttl ep]> (leases (prune now s)))
        (<[(e, n) := ep]> (epochs (prune now s))))).
Proof.
  unfold grant_lease. destruct (list_find _ _) as [[i l]|] eqn:Hf.
  - left. apply list_find_Some in Hf as (Hi & Hc & _). exists l.
    split_and!; [by eapply list_elem_of_lookup_2|done|done].
  - right. split; [|by eexists]. intros k l Hl. apply list_find_None in Hf.
    rewrite Forall_forall in Hf. apply Hf, elem_of_map_values. eauto.
Qed.

Lemma prune_inv now s : manager_inv s → manager_inv (prune now s).
Proof.
  intros [Hl Hw]. split.
  - intros k l [Hk _]%prune_lookup. auto.
  - intros k1 k2 l1 l2 [H1 _]%prune_lookup [H2 _]%prune_lookup. eauto.
Qed.

Lemma grant_inv now e n w ttl s :
  is_u64 now → is_u64 ttl → manager_inv s → manager_inv (grant_lease now e n w ttl s).2.
Proof.
  intros Hnow Httl Hinv.
  destruct (grant_cases now e n w ttl s) as [(l & _ & _ & ->)|[Hno [ep ->]]];
    csimpl; [by apply prune_inv|].
  destruct (prune_inv now s Hinv) as [Hl Hw]. split; csimpl.
  - intros k l [[<- <-]|[_ Hk]]%lookup_insert_Some; [|auto].
    split; csimpl; [done|by apply bound_ttl_range|..].
    + unfold MAX_LEASE_ABSOLUTE_LIFETIME_MS. unfold_ints; lia.
    + unfold DEFAULT_MAX_RENEWALS. lia.
  - assert (∀ k l, leases (prune now s) !! k = Some l → lease_slot l = (e, n) → worker_id l = w)
      as Hold.
    { intros k l Hk [= He Hn]. apply dec_stable. intros Hne. apply (Hno k l Hk).
      by apply prune_lookup in Hk as [_ Hx]. }
    intros k1 k2 l1 l2 [[<- <-]|[_ H1]]%lookup_insert_Some [[<- <-]|[_ H2]]%lookup_insert_Some Hs;
      csimpl; eauto. symmetry. eauto.
Qed.

(** Replacing a lease by one for the same slot and worker. *)
Lemma update_inv s k l l' ep :
  manager_inv s → leases s !! k = Some l → lease_ok k l' →
  lease_slot l' = lease_slot l → worker_id l' = worker_id l →
  manager_inv (mkManager (<[k := l']> (leases s)) ep).
Proof.
  intros [Hl Hw] Hk Hok Hslot Hwk. split; csimpl.
  - intros k1 l1 [[<- <-]|[_ H1]]%lookup_insert_Some; auto.
  - intros k1 k2 l1 l2 [[<- <-]|[_ H1]]%lookup_insert_Some [[<- <-]|[_ H2]]%lookup_insert_Some Hs;
      rewrite ?Hwk; eauto; rewrite Hslot in Hs; eauto.
Qed.

Lemma renew_by_inv now key o s :
  is_u64 now → manager_inv s → manager_inv (renew_lease_by now key o s).2.
Proof.
  intros Hnow Hinv. unfold renew_lease_by. destruct (leases s !! key) as [l|] eqn:Hk; [|done].
  repeat case_match; try done. csimpl. eapply update_inv; [done|done| |done|done].
  destruct (mi_lease s Hinv key l Hk) as [Hkey Httl Hg Hr].
  split; csimpl; [done|done| |lia].
  unfold u64_saturating_sub, MAX_LEASE_ABSOLUTE_LIFETIME_MS in *. unfold_ints. lia.
Qed.

Lemma run_op_inv s p :
  op_in_range p → manager_inv s → manager_inv (run_lease_op s p).
Proof.
  destruct p as [now op]; csimpl. intros [Hnow Hop] Hinv. destruct op as [e n w ttl|k o|k|k]; csimpl.
  - by apply grant_inv.
  - by apply renew_by_inv.
  - unfold renew_lease. destruct (leases s !! k); [by apply renew_by_inv|done].
  - unfold revoke_lease. destruct (leases s !! k) as [l|] eqn:Hk; [|done].
    csimpl. eapply update_inv; [done|done| |done|done].
    by destruct (mi_lease s Hinv k l Hk) as [Hkey Httl Hg Hr].
Qed.

Lemma run_inv ops : Forall op_in_range ops → manager_inv (foldl run_lease_op manager_new ops).
Proof.
  intros Hops. assert (manager_inv manager_new) as Hinv.
  { split; csimpl; intros *; by rewrite lookup_empty. }
  revert Hinv. generalize manager_new. induction Hops; intros s Hinv; csimpl; eauto using run_op_inv.
Qed.

(** ** Invariant 12 *)

(** Whatever calls were made, with whatever clock readings, the manager holds
    at most one lease per (execution, node): one worker, under one key. *)
Theorem one_lease_per_node ops k1 k2 l1 l2 :
  Forall op_in_range ops →
  let s := foldl run_lease_op manager_new ops in
  leases s !! k1 = Some l1 → leases s !! k2 = Some l2 → lease_slot l1 = lease_slot l2 →
  k1 = k2 ∧ l1 = l2.
Proof.
  intros Hops s H1 H2 Hslot. destruct (run_inv ops Hops) as [Hl Hw].
  pose proof (Hw _ _ _ _ H1 H2 Hslot) as Hwk. injection Hslot as He Hn.
  assert (k1 = k2) as ->; [|by simplify_eq].
  rewrite (lo_key _ _ (Hl _ _ H1)), (lo_key _ _ (Hl _ _ H2)). congruence.
Qed.

(** No lease outlives its creation by more than twice the absolute lifetime,
    and none is renewed more than [DEFAULT_MAX_RENEWALS] times. *)
Theorem lease_life_bounded ops k l now :
  Forall op_in_range ops → leases (foldl run_lease_op manager_new ops) !! k = Some l →
  created_at_ms l + 2 * MAX_LEASE_ABSOLUTE_LIFETIME_MS ≤ now →
  is_expired now l = true ∧ renewal_count l ≤ DEFAULT_MAX_RENEWALS.
Proof.
  intros Hops Hk Hnow. destruct (mi_lease _ (run_inv ops Hops) k l Hk) as [_ Httl Hg [Hr Hm]].
  split; [|lia]. unfold is_expired. apply orb_true_intro. right.
  unfold MIN_LEASE_TTL_MS, MAX_LEASE_TTL_MS in Httl. unfold u64_saturating_add.
  apply andb_true_intro. lia.
Qed.

(** ** A live lease is not displaced *)
Fixpoint no_colon (s : string) : bool :=
  match s with
  | "" => true
  | String.String c s => negb (Ascii.eqb c ":"%char) && no_colon s
  end.

Lemma no_colon_split a b x y :
  no_colon a = true → no_colon b = true → a +:+ ":" +:+ x = b +:+ ":" +:+ y → a = b ∧ x = y.
Proof.
  revert b. induction a as [|c a IH]; intros [|d b] Ha Hb Heq; csimpl in *.
  - by simplify_eq.
  - injection Heq as <- _. by rewrite Ascii.eqb_refl in Hb.
  - injection Heq as -> _. by rewrite Ascii.eqb_refl in Ha.
  - injection Heq as -> Heq. apply andb_prop in Ha as [_ Ha]. apply andb_prop in Hb as [_ Hb].
    destruct (IH b Ha Hb Heq) as [-> ->]. done.
Qed.

Lemma format_key_inj e n w e' n' w' :
  no_colon e = true → no_colon e' = true → no_colon n = true → no_colon n' = true →
  format_key e n w = format_key e' n' w' → e = e' ∧ n = n' ∧ w = w'.
Proof.
  intros He He' Hn Hn' Heq. unfold format_key in Heq. csimpl in Heq. simplify_eq.
  apply no_colon_split in Heq as [-> Heq]; [|done..].
  by apply no_colon_split in Heq as [-> ->].
Qed.

Definition colon_free_op (op : lease_op) : Prop :=
  match op with Grant e n _ _ => no_colon e = true ∧ no_colon n = true | _ => True end.

(** The time a worker has a node for: its TTL and the end, moved by each of its
    renewals and by each grant of the node to it that is answered with success. *)
Definition extend (e n w : string) (s : LeaseManager) (window : Z * Z) (p : Z * lease_op) : Z * Z :=
  let '(ttl, until) := window in
  let '(now, op) := p in
  let renewal (k : string) (ok : bool) := if bool_decide (k = format_key e n w) && ok then (ttl, now +^ ttl)%u64 else (ttl, until) in
  match op with
  | Grant e' n' w' ttl' =>
      if bool_decide ((e', n', w') = (e, n, w)) && is_ok (grant_lease now e' n' w' ttl' s).1
      then (bound_ttl ttl', now +^ bound_ttl ttl')%u64 else (ttl, until)
  | RenewBy k o => renewal k (renew_lease_by now k o s).1
  | Renew k => renewal k (renew_lease now k s).1
  | Revoke _ => (ttl, until)
  end.
Fixpoint window (e n w : string) (s : LeaseManager) (win : Z * Z) (ops : list (Z * lease_op)) : Z * Z :=
  match ops with
  | [] => win
  | p :: ops => window e n w (run_lease_op s p) (extend e n w s win p) ops
  end.
(** The calls made while a lease is held: each before its end, ids have no
    colon, and nobody revokes it. *)
Fixpoint during (e n w : string) (s : LeaseManager) (win : Z * Z) (ops : list (Z * lease_op)) : Prop :=
  match ops with
  | [] => True
  | p :: ops =>
      p.1 < win.2 ∧ op_in_range p ∧ colon_free_op p.2 ∧ p.2 ≠ Revoke (format_key e n w) ∧
      during e n w (run_lease_op s p) (extend e n w s win p) ops
  end.

(** The manager knows of a lease on (e, n) for [w] that has not been revoked,
    with this TTL and end. *)
Definition holds (s : LeaseManager) (e n w : string) (win : Z * Z) : Prop :=
  ∃ l, leases s !! format_key e n w = Some l ∧ lease_slot l = (e, n) ∧ worker_id l = w ∧
    is_revoked l = false ∧ ttl_ms l = win.1 ∧ (granted_at_ms l +^ ttl_ms l)%u64 = win.2.

Lemma expired_at_end now l :
  is_revoked l = false → 0 < ttl_ms l → is_expired now l = bool_decide ((granted_at_ms l +^ ttl_ms l)%u64 ≤ now).
Proof.
  intros Hr Ht. unfold is_expired. rewrite Hr, (proj2 (Z.ltb_lt _ _) Ht). csimpl.
  apply eq_true_iff_eq. by rewrite Z.leb_le, bool_decide_eq_true.
Qed.

Lemma holds_renew s e n w win now k o :
  holds s e n w win →
  holds (renew_lease_by now k o s).2 e n w
    (if bool_decide (k = format_key e n w) && (renew_lease_by now k o s).1 then (win.1, (now +^ win.1)%u64) else win).
Proof.
  intros (l & Hk & Hslot & Hw & Hrev & Ht & Hu). unfold renew_lease_by.
  destruct (leases s !! k) as [l2|] eqn:Hk2; csimpl; [|rewrite andb_false_r; by exists l].
  case_decide; [|destruct (is_expired now l2); [|destruct (max_renewals l2 <=? _); [|destruct (_ <=? (now -^ _)%u64)]]];
    cbn [fst snd]; rewrite ?andb_false_r, ?andb_true_r; try by exists l.
  case_bool_decide as Hkk; [subst k; simplify_eq|].
  - exists (renewed now l). csimpl. rewrite lookup_insert_eq. by rewrite Ht.
  - exists l. csimpl. by rewrite lookup_insert_ne by done.
Qed.
Lemma holds_grant s e n w win now e' n' w' ttl :
  no_colon e = true → no_colon n = true → no_colon e' = true → no_colon n' = true →
  0 < win.1 → now < win.2 → holds s e n w win →
  holds (grant_lease now e' n' w' ttl s).2 e n w (extend e n w s win (now, Grant e' n' w' ttl)).
Proof.
  intros He Hn He' Hn' Hpos Hnow (l & Hk & Hslot & Hw & Hrev & Ht & Hu). destruct win as [t u]; csimpl in *.
  assert (leases (prune now s) !! format_key e n w = Some l) as Hp.
  { apply prune_lookup. split; [done|]. rewrite expired_at_end by (done || lia). apply bool_decide_eq_false. lia. }
  destruct (grant_cases now e' n' w' ttl s) as [(l2 & _ & _ & ->)|[_ [ep ->]]]; csimpl.
  - rewrite andb_false_r. by exists l.
  - rewrite andb_true_r. case_bool_decide as Heq.
    + injection Heq as -> -> ->. exists (new_lease now e n w ttl ep). csimpl. by rewrite lookup_insert_eq.
    + exists l. csimpl. rewrite lookup_insert_ne; [done|]. intros Hkey. apply Heq.
      by destruct (format_key_inj e' n' w' e n w) as (-> & -> & ->).
Qed.
Lemma holds_step s e n w win now op :
  no_colon e = true → no_colon n = true → 0 < win.1 → holds s e n w win →
  now < win.2 → colon_free_op op → op ≠ Revoke (format_key e n w) →
  holds (run_lease_op s (now, op)) e n w (extend e n w s win (now, op)).
Proof.
  intros He Hn Hpos Hh Hnow Hcf Hnr. destruct win as [t u], op as [e' n' w' ttl|k o|k|k].
  - destruct Hcf. by apply holds_grant.
  - exact (holds_renew s e n w (t, u) now k o Hh).
  - cbn [run_lease_op extend]. unfold renew_lease. destruct (leases s !! k) as [lk|] eqn:Hk.
    + exact (holds_renew s e n w (t, u) now k (owner lk) Hh).
    + cbn [fst snd]. by rewrite andb_false_r.
  - destruct Hh as (l & Hk & Hl). cbn [run_lease_op extend]. unfold revoke_lease.
    destruct (leases s !! k) eqn:Hk2; csimpl; exists l; csimpl; [|done]. by rewrite lookup_insert_ne by congruence.
Qed.
Lemma extend_pos e n w s win now op : op_in_range (now, op) → 0 < win.1 → 0 < (extend e n w s win (now, op)).1.
Proof.
  intros [_ Ht] Hpos. destruct win as [t u]. destruct op as [e' n' w' ttl| | |]; csimpl in *; repeat case_match; csimpl; try done.
  pose proof (bound_ttl_range ttl Ht). unfold MIN_LEASE_TTL_MS in *. lia.
Qed.

Lemma holds_run s e n w win ops :
  no_colon e = true → no_colon n = true → 0 < win.1 → during e n w s win ops → holds s e n w win →
  holds (foldl run_lease_op s ops) e n w (window e n w s win ops) ∧ 0 < (window e n w s win ops).1 ∧
  Forall op_in_range ops.
Proof.
  intros He Hn. revert s win. induction ops as [|[now op] ops IH]; intros s win Hpos; cbn [during window foldl]; [done|].
  intros (Ht & Hr & Hcf & Hnr & Hd) Hh.
  destruct (IH (run_lease_op s (now, op)) (extend e n w s win (now, op))) as (? & ? & ?);
    [by apply extend_pos|done|by apply holds_step|]. by split_and!; [..|constructor].
Qed.

Lemma run_inv_from s ops : Forall op_in_range ops → manager_inv s → manager_inv (foldl run_lease_op s ops).
Proof. intros Hops. revert s. induction Hops; intros s Hinv; csimpl; eauto using run_op_inv. Qed.

(** What another worker is answered, before the end and from the end on. *)
Lemma holds_decides s e n w win now w2 ttl2 :
  manager_inv s → 0 < win.1 → holds s e n w win → w2 ≠ w →
  (now < win.2 → (grant_lease now e n w2 ttl2 s).1 = Err (LeaseViolation n w)) ∧
  (win.2 ≤ now → ∃ l, (grant_lease now e n w2 ttl2 s).1 = Ok l ∧ worker_id l = w2).
Proof.
  intros Hinv Hpos (l & Hk & Hslot & Hw & Hr & Ht & Hu) Hw2. assert (0 < ttl_ms l) as Hpos' by lia.
  pose proof (expired_at_end now l Hr Hpos') as Hx. rewrite Hu in Hx.
  destruct (grant_cases now e n w2 ttl2 s) as [(l2 & Hin & (He2 & Hn2 & Hex & _) & ->)|[Hno [ep ->]]]; csimpl.
  - apply elem_of_map_values in Hin as [k2 [Hk2 _]%prune_lookup].
    assert (worker_id l2 = worker_id l) as Hwk.
    { apply (mi_worker _ Hinv _ _ _ _ Hk2 Hk). unfold lease_slot in *. congruence. }
    split; [by rewrite Hwk, Hw|]. intros Hle. exfalso.
    assert (k2 = format_key e n w) as ->.
    { rewrite (lo_key _ _ (mi_lease _ Hinv _ _ Hk2)). congruence. }
    rewrite bool_decide_true in Hx by done. congruence.
  - split; [|intros _; by eexists]. intros Hlt. exfalso. rewrite bool_decide_false in Hx by lia.
    apply (Hno (format_key e n w) l); [by apply prune_lookup|]. injection Hslot as ? ?. repeat split; congruence.
Qed.

(** C28. Exclusivity over time. Once a worker has been granted a node, each renewal
    and each further grant to it that is answered with success moves the end of
    its lease to that moment plus the TTL; until then every grant of the node
    to another worker is refused with the holder's name, and from then on it
    succeeds, whatever other grants, renewals and revocations happened before
    ([ops0]) and happen in between ([ops]), as long as each happens before the
    end of the lease, none revokes it, and neither its own ids nor those of
    another grant contain a colon. *)
Theorem lease_exclusive ops0 start e n w ttl l s1 ops now w2 ttl2 :
  Forall op_in_range ops0 → is_u64 start → is_u64 ttl →
  grant_lease start e n w ttl (foldl run_lease_op manager_new ops0) = (Ok l, s1) →
  no_colon e = true → no_colon n = true →
  let win := (bound_ttl ttl, (start +^ bound_ttl ttl)%u64) in
  during e n w s1 win ops → w2 ≠ w →
  let until := (window e n w s1 win ops).2 in
  let s2 := foldl run_lease_op s1 ops in
  (now < until → (grant_lease now e n w2 ttl2 s2).1 = Err (LeaseViolation n w)) ∧
  (until ≤ now → ∃ l2, (grant_lease now e n w2 ttl2 s2).1 = Ok l2 ∧ worker_id l2 = w2).
Proof.
  intros Hops0 Hstart Httl Hg He Hn win Hops Hw2 until s2. pose proof (run_inv ops0 Hops0) as Hinv.
  assert (manager_inv s1) as Hinv1.
  { pose proof (grant_inv start e n w ttl _ Hstart Httl Hinv) as H1. by rewrite Hg in H1. }
  assert (0 < win.1) as Hpos by (pose proof (bound_ttl_range ttl Httl); unfold MIN_LEASE_TTL_MS in *; csimpl; lia).
  assert (holds s1 e n w win) as Hh.
  { destruct (grant_cases start e n w ttl (foldl run_lease_op manager_new ops0)) as [(l2 & _ & _ & Hgc)|[_ [ep Hgc]]];
      rewrite Hgc in Hg; simplify_eq. exists (new_lease start e n w ttl ep). csimpl. by rewrite lookup_insert_eq. }
  destruct (holds_run s1 e n w win ops) as (Hh2 & Hpos2 & Hrange); [done..|].
  apply holds_decides; [by apply run_inv_from|done..].
Qed.
End manager.

(** ** Two behaviours the comments do not describe *)

#[local] Instance demo_iter : HashIter string := map_to_list_iter string.

(** Epochs are not monotone across a failover: a lease is granted, renewed and
    revoked, and the next worker's grant, which prunes the revoked lease
    together with its epoch, starts again below the epoch already issued. *)
Theorem epoch_restarts_after_revoke :
  ∃ s1 l1 s2 s3 s4 l4,
    grant_lease 1000 "exec" "node" "w1" 5000 manager_new = (Ok l1, s1) ∧
    renew_lease 2000 (lease_key l1) s1 = (true, s2) ∧
    epochs s2 !! ("exec", "node") = Some 2 ∧
    revoke_lease (lease_key l1) s2 = (true, s3) ∧
    grant_lease 3000 "exec" "node" "w2" 5000 s3 = (Ok l4, s4) ∧
    epoch l4 = 1.
Proof. repeat eexists; vm_compute; reflexivity. Qed.

(** The key is ambiguous when ids contain a colon: a grant of another node of
    another execution replaces the record of a live lease, after which a second
    worker obtains a node whose first lease has not run out. *)
Theorem colon_in_id_breaks_exclusivity :
  ∃ l1 s1 l2 s2 l3 s3,
    grant_lease 1000 "exec" "a:b" "w" 60000 manager_new = (Ok l1, s1) ∧
    grant_lease 1001 "exec:a" "b" "w" 60000 s1 = (Ok l2, s2) ∧
    grant_lease 1002 "exec" "a:b" "other" 60000 s2 = (Ok l3, s3) ∧
    lease_slot l1 = lease_slot l3 ∧ worker_id l1 ≠ worker_id l3 ∧
    is_expired 1002 l1 = false ∧ is_expired 1002 l3 = false.
Proof.
  do 6 eexists. split_and!; try (vm_compute; reflexivity). vm_compute. discriminate.
Qed.

(** ** Concrete runs *)
Definition demo_history : list (Z * lease_op) :=
  [(1000, Grant "e" "n" "w1" 5000); (1200, Grant "e" "n2" "w2" 5000);
   (1500, Renew "lease:e:n:w1"); (1600, Revoke "lease:e:n2:w2")].

Lemma demo_history_ok : Forall op_in_range demo_history.
Proof. repeat constructor; csimpl; unfold_ints; lia. Qed.

Lemma one_lease_per_node_witness :
  ∃ l, leases (foldl run_lease_op manager_new demo_history) !! "lease:e:n:w1" = Some l ∧
    "lease:e:n:w1" = "lease:e:n:w1" ∧ l = l.
Proof.
  eexists. split; [vm_compute; reflexivity|].
  eapply (one_lease_per_node demo_history); [exact demo_history_ok|vm_compute; reflexivity..].
Defined.

Lemma lease_life_bounded_witness :
  ∃ l, leases (foldl run_lease_op manager_new demo_history) !! "lease:e:n:w1" = Some l ∧
    is_expired 172801000 l = true ∧ renewal_count l ≤ DEFAULT_MAX_RENEWALS.
Proof.
  eexists. split; [vm_compute; reflexivity|].
  eapply (lease_life_bounded demo_history "lease:e:n:w1"); [exact demo_history_ok|vm_compute; reflexivity|].
  vm_compute. discriminate.
Defined.

Definition demo_calls : list (Z * lease_op) :=
  [(3000, Grant "e" "n9" "w3" 9000); (4000, Renew "lease:e:n9:w1"); (8000, RenewBy "lease:e:n9:w1" "w1")].
(** Renewed at 4000 and at 8000, the lease granted at 2000 for 5000 ms ends at
    13000. *)
Lemma lease_exclusive_witness :
  ∃ l s1, grant_lease 2000 "e" "n9" "w1" 5000 (foldl run_lease_op manager_new demo_history)
            = (Ok l, s1) ∧
  (grant_lease 12999 "e" "n9" "w2" 5000 (foldl run_lease_op s1 demo_calls)).1 = Err (LeaseViolation "n9" "w1") ∧
  ∃ l2, (grant_lease 13000 "e" "n9" "w2" 5000 (foldl run_lease_op s1 demo_calls)).1 = Ok l2 ∧ worker_id l2 = "w2".
Proof.
  do 2 eexists. split; [vm_compute; reflexivity|]. set (s1 := mkManager _ _).
  assert ((window "e" "n9" "w1" s1 (bound_ttl 5000, (2000 +^ bound_ttl 5000)%u64) demo_calls).2 = 13000) as Hend
    by (vm_compute; reflexivity).
  assert (during "e" "n9" "w1" s1 (bound_ttl 5000, (2000 +^ bound_ttl 5000)%u64) demo_calls) as Hd.
  { unfold demo_calls. cbn [during].
    repeat (split; [vm_compute; reflexivity|split; [split; cbn; unfold_ints; lia|split; [split|split; [discriminate|]]]]);
      reflexivity || exact I. }
  split.
  - eapply (lease_exclusive demo_history 2000 "e" "n9" "w1" 5000 _ s1 demo_calls 12999 "w2" 5000);
      [exact demo_history_ok|unfold_ints; lia|unfold_ints; lia|vm_compute; reflexivity|reflexivity|reflexivity|exact Hd
      |discriminate|rewrite Hend; lia].
  - eapply (lease_exclusive demo_history 2000 "e" "n9" "w1" 5000 _ s1 demo_calls 13000 "w2" 5000);
      [exact demo_history_ok|unfold_ints; lia|unfold_ints; lia|vm_compute; reflexivity|reflexivity|reflexivity|exact Hd
      |discriminate|rewrite Hend; lia].
Defined.
