(* ===== verification/ExecTypes.v ===== *)
(** * The execution-layer types ([crates/fusion-types/src/lib.rs])

    The IR the compiler transforms and the execution graph it produces. A
    [Uuid] is its 128-bit number; a node configuration, a
    [HashMap<String, Value>], is a finite map. Error messages that the source
    builds with [format!] are constructors of [CompilerMsg] with the same
    arguments. *)
From S2P Require Import Prelude Text Json Money.
From Stdlib Require Import Ascii.
Open Scope stdpp_scope.
Open Scope Z_scope.

Notation Uuid := N (only parsing).
Notation Config := (gmap string json) (only parsing).

Inductive IRNodeKind :=
| KGenerate | KReview | KJudge | KTransform | KGate | KConditional | KLoop | KSplit
| KJoin | KBarrier.
#[global] Instance IRNodeKind_eq_dec : EqDecision IRNodeKind.
Proof. solve_decision. Defined.

Inductive StrategyKind :=
| Single | Consensus | Reflection | Chain | Debate | ReAct | Fusion | Custom (name : string).
#[global] Instance StrategyKind_eq_dec : EqDecision StrategyKind.
Proof. solve_decision. Defined.

Record IRNode := mkIRNode {
  ir_id : Uuid;
  ir_kind : IRNodeKind;
  ir_strategy : StrategyKind;
  ir_model : option string;
  ir_config : Config;
}.

Record IREdge := mkIREdge {
  ire_from : Uuid;
  ire_to : Uuid;
  ire_condition : option string;
}.
#[global] Instance IREdge_eq_dec : EqDecision IREdge.
Proof. solve_decision. Defined.

Record IRMetadata := mkIRMetadata {
  m_policy_applied : list string;
  m_policy_version : Z;
  m_estimated_cost : NanoUSD;
  m_estimated_tokens : Z;
}.

Record WorkflowIR := mkIR {
  plan_id : Uuid;
  ir_nodes : list IRNode;
  ir_edges : list IREdge;
  ir_metadata : IRMetadata;
}.

(** [{name:?}]: the derived [Debug] of a string quotes it and escapes quotes,
    backslashes and control characters; other bytes are copied (names are
    printable text). *)
Definition dquote : ascii := ascii_of_nat 34.
Definition backslash : ascii := ascii_of_nat 92.
Fixpoint debug_escape (s : string) : string :=
  match s with
  | "" => ""
  | String.String c s =>
      let n := nat_of_ascii c in
      (if decide (n = 34%nat) then String.String backslash (String.String dquote "")
       else if decide (n = 92%nat) then String.String backslash (String.String backslash "")
       else if decide (n = 10%nat) then String.String backslash "n"
       else if decide (n = 13%nat) then String.String backslash "r"
       else if decide (n = 9%nat) then String.String backslash "t"
       else if decide (n = 0%nat) then String.String backslash "0"
       else String.String c "") +:+ debug_escape s
  end.
Definition str_debug (s : string) : string :=
  String.String dquote (debug_escape s +:+ String.String dquote "").

Definition as_label (s : StrategyKind) : string :=
  match s with
  | Single => "Single" | Consensus => "Consensus" | Reflection => "Reflection"
  | Chain => "Chain" | Debate => "Debate" | ReAct => "ReAct" | Fusion => "Fusion"
  | Custom name => "Custom(" +:+ str_debug name +:+ ")"
  end.

(** ** The execution graph *)
Inductive ExecutionNodeKind :=
| LLMGenerate | LLMReview | LLMJudge | XTransform | XGate | XConditional | XLoop | XSplit
| XJoin | XBarrier.
#[global] Instance ExecutionNodeKind_eq_dec : EqDecision ExecutionNodeKind.
Proof. solve_decision. Defined.

Record RetryPolicy := mkRetry { max_retries : Z; backoff_ms : Z }.
Record FallbackConfig := mkFallback { fb_model : string; fb_provider : string }.
Record ExecutionEdge := mkExecEdge {
  x_from : Uuid;
  x_to : Uuid;
  x_condition : option string;
}.
#[global] Instance ExecutionEdge_eq_dec : EqDecision ExecutionEdge.
Proof. solve_decision. Defined.

#[warnings="-register-all"]
Inductive ExecutionNode : Type := mkExecNode {
  x_id : Uuid;
  x_kind : ExecutionNodeKind;
  x_strategy : StrategyKind;
  x_model : string;
  x_retry_policy : RetryPolicy;
  x_fallback : option FallbackConfig;
  x_config : Config;
  x_subgraph : option ExecutionSubgraph;
}
with ExecutionSubgraph : Type := mkSubgraph {
  sub_nodes : list ExecutionNode;
  sub_edges : list ExecutionEdge;
  entry_node_id : Uuid;
  exit_node_id : Uuid;
}.

Record GraphMetadata := mkGraphMetadata {
  g_estimated_cost : NanoUSD;
  g_estimated_tokens : Z;
  g_policy_version : Z;
  g_max_depth : Z;
  g_node_count : Z;
}.

Record ExecutionGraph := mkGraph {
  graph_id : Uuid;
  g_nodes : list ExecutionNode;
  g_edges : list ExecutionEdge;
  g_metadata : GraphMetadata;
  g_total_tokens : Z;
  g_total_cost : NanoUSD;
  primitive_graph_hash : Z;
}.

(** ** Models and errors *)
Record ModelCatalog := mkCatalog {
  cat_code : string;
  cat_debug : string;
  cat_architecture : string;
  cat_general : string;
  cat_creative : string;
  cat_analysis : string;
  cat_fast : string;
  cat_cheap : string;
}.

Inductive CompilerMsg :=
| MsgNoNodes
| MsgTooManyNodes (n : Z)
| MsgUnknownSource (id : Uuid)
| MsgUnknownTarget (id : Uuid)
| MsgConditionalNoOutgoing
| MsgConditionalNoCondition
| MsgLoopNoOutgoing
| MsgLoopNoMaxIterations
| MsgSplitArity (got : Z)
| MsgJoinArity (got : Z)
| MsgBarrierNoIncoming
| MsgBarrierNoOutgoing
| MsgIllegalCycle
| MsgCustomEmptyName
| MsgCustomUnregistered (name : string)
| MsgConsensusZero
| MsgConsensusTooMany (count : Z)
| MsgConsensusMembersTooMany (len : Z)
| MsgReflectionZero
| MsgChainStagesNotArray
| MsgChainStagesEmpty
| MsgChainStagesTooMany (len : Z)
| MsgChainStepsNotInteger
| MsgChainStepsZero
| MsgDebateRoles (got : Z)
| MsgReActZero
| MsgBudgetExceeded
| MsgPolicyDenies (rule_id target_pattern : string) (node : Uuid).

Inductive CompilerError :=
| ValidationError (pass : string) (node_id : option Uuid) (message : CompilerMsg)
| PassError (pass : string) (message : CompilerMsg).
