(* ===== verification/Capability.v ===== *)
(** * Capabilities ([crates/fusion-plugin-api/src/lib.rs],
      [crates/fusion-kernel/src/capability/registry.rs])

    The permission model of the plugin ABI with its textual form, the contract
    a capability declares, and the registry of contracts that freezes after
    startup. [semver] is a third-party package: its versions, version
    requirements and their order are the [SemVer] interface. The planner's
    resolver is a client of the [CapabilityRegistry] interface below, which
    the in-memory registry implements. *)
From S2P Require Import Prelude Text Json Money.
From Stdlib Require Import Ascii Floats.SpecFloat.
Open Scope stdpp_scope.
Open Scope Z_scope.

Notation CapabilityId := string (only parsing).

(** ** Permissions *)
Inductive PermissionError := EmptyArgument.

Inductive Permission :=
| Network
| Filesystem (path : string)
| Http (endpoint : string)
| Secrets (name : string)
| Environment (name : string).
#[global] Instance Permission_eq_dec : EqDecision Permission.
Proof. solve_decision. Defined.

Definition permission_validate (p : Permission) : result PermissionError unit :=
  match p with
  | Network => Ok tt
  | Filesystem path => if decide (path = "") then Err EmptyArgument else Ok tt
  | Http s | Secrets s | Environment s =>
      if decide (s = "" ∨ s = "*") then Err EmptyArgument else Ok tt
  end.

Definition permission_to_string (p : Permission) : string :=
  match p with
  | Network => "Network"
  | Filesystem path => "Filesystem(" +:+ path +:+ ")"
  | Http endpoint => "Http(" +:+ endpoint +:+ ")"
  | Secrets name => "Secrets(" +:+ name +:+ ")"
  | Environment name => "Environment(" +:+ name +:+ ")"
  end.

(** [s.strip_prefix(p).and_then(|s| s.strip_suffix(')'))] *)
Definition argument_of (p s : string) : option string :=
  strip_prefix p s ≫= strip_suffix_char ")"%char.

Definition permission_from_str (s : string) : result string Permission :=
  match argument_of "Filesystem(" s with Some arg => Ok (Filesystem arg) | None =>
  match argument_of "Http(" s with Some arg => Ok (Http arg) | None =>
  match argument_of "Secrets(" s with Some arg => Ok (Secrets arg) | None =>
  match argument_of "Environment(" s with Some arg => Ok (Environment arg) | None =>
  if decide (s = "Network") then Ok Network
  else Err ("unknown permission variant: " +:+ s)
  end end end end.

(** ** Contracts *)
Class SemVer := {
  Version : Type;
  VersionReq : Type;
  version_leb : Version → Version → bool;
  version_leb_total : ∀ a b, version_leb a b = true ∨ version_leb b a = true;
  version_leb_trans : ∀ a b c,
    version_leb a b = true → version_leb b c = true → version_leb a c = true;
  req_matches : VersionReq → Version → bool;
  req_to_string : VersionReq → string;
  #[global] VersionReq_eq_dec :: EqDecision VersionReq;
  #[global] VersionReq_countable :: Countable VersionReq;
}.

Inductive CapabilityTrait :=
| Streaming | LongContext | StructuredOutput | LowLatency | DeterministicOutput | ComputerUse.

Record CapabilityContract `{SemVer} := mkContract {
  c_id : CapabilityId;
  c_version : Version;
  c_description : string;
  c_inputs_schema : json;
  c_outputs_schema : json;
  c_permissions : list Permission;
  c_dependencies : list CapabilityId;
  c_estimated_cost : NanoUSD;
  c_estimated_latency_ms : Z;
  c_reliability_score : spec_float;
  c_supports_streaming : bool;
  c_traits : list CapabilityTrait;
}.

Record CapabilityInstance `{SemVer} := mkInstance {
  i_contract : CapabilityContract;
  i_runtime_params : json;
}.
Arguments mkContract {_}.
Arguments mkInstance {_}.

(** [a.id.as_str().cmp(b.id.as_str())] *)
Definition contract_id_leb `{SemVer} (a b : CapabilityContract) : bool :=
  string_leb (c_id a) (c_id b).

(** ** The registry *)
Inductive RegistryError :=
| DuplicateId (id : CapabilityId)
| Frozen
| NotFound (id : CapabilityId)
| InvalidContract (msg : string).

Definition permission_error_to_string (e : PermissionError) : string :=
  match e with EmptyArgument => "permission argument must not be empty" end.

Class CapabilityRegistry `{SemVer} (R : Type) := {
  reg_register : CapabilityContract → R → result RegistryError unit * R;
  reg_get : R → CapabilityId → option CapabilityContract;
  reg_contains : R → CapabilityId → bool;
  reg_list : R → list CapabilityContract;
  reg_freeze : R → R;
  reg_is_frozen : R → bool;
}.

(** What a client relies on: a contract is found under its own identifier, and
    [list] enumerates what [get] finds in the order of the identifiers. *)
Class LawfulRegistry `{CapabilityRegistry R} (wf : R → Prop) := {
  reg_get_id : ∀ r id c, wf r → reg_get r id = Some c → c_id c = id;
  reg_contains_get : ∀ r id, wf r → reg_contains r id = bool_decide (is_Some (reg_get r id));
  reg_list_get : ∀ r c, wf r → c ∈ reg_list r ↔ reg_get r (c_id c) = Some c;
  reg_list_sorted : ∀ r, wf r → StronglySorted key_lt (c_id <$> reg_list r);
}.

Section registry.
Context `{SemVer} `{!HashIter string}.

Record InMemoryCapabilityRegistry := mkRegistry {
  contracts : gmap CapabilityId CapabilityContract;
  frozen : bool;
}.

Definition registry_new : InMemoryCapabilityRegistry := mkRegistry ∅ false.

Definition check_permission (p : Permission) : result RegistryError unit :=
  map_err (λ e, InvalidContract ("invalid permission: " +:+ permission_error_to_string e))
    (permission_validate p).

Definition register (c : CapabilityContract) (r : InMemoryCapabilityRegistry)
    : result RegistryError unit * InMemoryCapabilityRegistry :=
  if frozen r then (Err Frozen, r)
  else if decide (is_Some (contracts r !! c_id c)) then (Err (DuplicateId (c_id c)), r)
  else match try_for_each check_permission (c_permissions c) with
    | Err e => (Err e, r)
    | Ok _ => (Ok tt, mkRegistry (<[c_id c := c]> (contracts r)) (frozen r))
    end.

Definition registry_get (r : InMemoryCapabilityRegistry) (id : CapabilityId)
    : option CapabilityContract := contracts r !! id.
Definition registry_contains (r : InMemoryCapabilityRegistry) (id : CapabilityId) : bool :=
  bool_decide (is_Some (contracts r !! id)).
Definition registry_list (r : InMemoryCapabilityRegistry) : list CapabilityContract :=
  sort_by contract_id_leb (map_values (contracts r)).
Definition freeze (r : InMemoryCapabilityRegistry) : InMemoryCapabilityRegistry :=
  mkRegistry (contracts r) true.

#[global] Instance memory_registry : CapabilityRegistry InMemoryCapabilityRegistry := {|
  reg_register := register;
  reg_get := registry_get;
  reg_contains := registry_contains;
  reg_list := registry_list;
  reg_freeze := freeze;
  reg_is_frozen := frozen;
|}.

(** ** Lemmas *)
Definition contract_valid (c : CapabilityContract) : Prop :=
  Forall (λ p, permission_validate p ≠ Err EmptyArgument) (c_permissions c).

Lemma check_permissions_ok c :
  try_for_each check_permission (c_permissions c) = Ok tt ↔ contract_valid c.
Proof.
  rewrite try_for_each_ok. unfold contract_valid, check_permission. rewrite Forall_forall.
  split; intros Hall p Hp; specialize (Hall p Hp); by destruct (permission_validate p) as [[]|[]].
Qed.

#[global] Instance contract_valid_dec c : Decision (contract_valid c).
Proof.
  destruct (try_for_each check_permission (c_permissions c)) as [[]|] eqn:Hp.
  - left. by apply check_permissions_ok.
  - right. intros Hv%check_permissions_ok. congruence.
Defined.

(** Everything stored was checked and sits under its own identifier. *)
Definition registry_wf (r : InMemoryCapabilityRegistry) : Prop :=
  ∀ id c, contracts r !! id = Some c → c_id c = id ∧ contract_valid c.

Lemma register_wf c r : registry_wf r → registry_wf (register c r).2.
Proof.
  intros Hr. unfold register. destruct (frozen r); [done|]. case_decide; [done|].
  destruct (try_for_each _ _) as [[]|] eqn:Hp; [|done].
  unfold registry_wf; csimpl. intros id d [[<- <-]|[Hne Hd]]%lookup_insert_Some; [|by apply Hr].
  split; [done|]. by apply check_permissions_ok.
Qed.

Lemma registry_get_id r id c : registry_wf r → contracts r !! id = Some c → c_id c = id.
Proof. intros Hr Hc. by apply (Hr id c). Qed.

(** Contracts stored under their own identifiers, sorted. *)
Lemma registry_values_sorted (m : gmap CapabilityId CapabilityContract) :
  (∀ id c, m !! id = Some c → c_id c = id) →
  StronglySorted key_lt (c_id <$> sort_by contract_id_leb (map_values m)).
Proof.
  intros Hid. assert (Hnd : NoDup (c_id <$> map_values m)).
  { assert (c_id <$> map_values m = map_keys m) as ->; [|apply map_keys_NoDup].
    unfold map_values, map_keys. rewrite <- list_fmap_compose. apply list_fmap_ext.
    intros i [id c] Hi%list_elem_of_lookup_2. rewrite elem_of_map_iter in Hi. by apply Hid. }
  rewrite <- (sort_by_perm contract_id_leb) in Hnd.
  pose proof (sort_by_sorted contract_id_leb (λ a b, string_leb_total _ _)
    (λ a b c, string_leb_trans _ _ _) (map_values m)) as Hs.
  induction Hs as [|c l Hl IH Hc]; csimpl in *; [constructor|].
  apply NoDup_cons in Hnd as [Hn Hnd]. constructor; [by apply IH|].
  rewrite Forall_fmap. rewrite Forall_forall in *. intros d Hd. split; [by apply Hc|].
  intros Heq. apply Hn, list_elem_of_fmap. by exists d.
Qed.

#[global] Instance memory_registry_lawful : LawfulRegistry registry_wf.
Proof.
  split; csimpl.
  - intros r id c. apply registry_get_id.
  - done.
  - intros r c Hr. unfold registry_list, registry_get. rewrite elem_of_sort_by, elem_of_map_values.
    split; [|eauto]. intros [id Hc]. by rewrite (registry_get_id r id c).
  - intros r Hr. apply registry_values_sorted. intros id c. by apply registry_get_id.
Qed.

(** ** The life of a registry *)
Inductive RegistryOp := OpRegister (c : CapabilityContract) | OpFreeze.
Definition registry_step (r : InMemoryCapabilityRegistry) (op : RegistryOp)
    : InMemoryCapabilityRegistry :=
  match op with OpRegister c => (register c r).2 | OpFreeze => freeze r end.
Definition registry_run (ops : list RegistryOp) : InMemoryCapabilityRegistry :=
  foldl registry_step registry_new ops.

(** The contracts offered before the registry froze. *)
Fixpoint offered (ops : list RegistryOp) : list CapabilityContract :=
  match ops with
  | OpRegister c :: ops => c :: offered ops
  | _ => []
  end.

Lemma frozen_run ops r : frozen r = true → foldl registry_step r ops = r.
Proof.
  revert r. induction ops as [|[c|] ops IH]; intros r Hf; csimpl; [done|..].
  - unfold register. rewrite Hf. by apply IH.
  - unfold freeze. rewrite <- Hf. destruct r. by apply IH.
Qed.

Lemma registry_wf_run ops r : registry_wf r → registry_wf (foldl registry_step r ops).
Proof.
  revert r. induction ops as [|[c|] ops IH]; intros r Hr; csimpl; [done|..].
  - by apply IH, register_wf.
  - by apply IH.
Qed.

Lemma registry_wf_new ops : registry_wf (registry_run ops).
Proof. apply registry_wf_run. by intros id c. Qed.

Lemma run_offered ops r id : frozen r = false →
  contracts (foldl registry_step r ops) !! id =
  match contracts r !! id with
  | Some c => Some c
  | None => head (filter (λ c, c_id c = id ∧ contract_valid c) (offered ops))
  end.
Proof.
  revert r. induction ops as [|[c|] ops IH]; intros r Hf; csimpl.
  - by destruct (contracts r !! id).
  - rewrite filter_cons. unfold register. rewrite Hf. case_decide as Hdup; simpl.
    { rewrite IH by done. destruct Hdup as [d Hd].
      destruct (contracts r !! id) eqn:Hid; [done|]. rewrite decide_False; [done|].
      intros [Heq _]. rewrite Heq in Hd. congruence. }
    apply eq_None_not_Some in Hdup.
    destruct (try_for_each _ _) as [[]|] eqn:Hp; simpl.
    + rewrite IH by done; simpl. apply check_permissions_ok in Hp.
      destruct (decide (c_id c = id)) as [<-|Hne].
      * by rewrite lookup_insert_eq, Hdup, decide_True.
      * rewrite lookup_insert_ne by done. destruct (contracts r !! id); [done|].
        rewrite decide_False; [done|]. by intros [? _].
    + rewrite IH by done. destruct (contracts r !! id); [done|].
      rewrite decide_False; [done|]. intros [_ Hv%check_permissions_ok].
      congruence.
  - rewrite frozen_run by done. unfold freeze; simpl. by destruct (contracts r !! id).
Qed.

(** A registry holds, under each identifier, the first contract with valid
    permissions that was registered under it before the first [freeze]: later
    registrations of the identifier, invalid contracts and everything after
    the freeze leave it as it is. [list] returns those contracts, once each, in
    the order of their identifiers. *)
Theorem registry_history ops :
  (∀ id, reg_get (registry_run ops) id =
     head (filter (λ c, c_id c = id ∧ contract_valid c) (offered ops))) ∧
  (∀ c, c ∈ reg_list (registry_run ops) ↔
     reg_get (registry_run ops) (c_id c) = Some c) ∧
  StronglySorted key_lt (c_id <$> reg_list (registry_run ops)).
Proof.
  split_and!.
  - intros id. simpl. unfold registry_get, registry_run. by rewrite run_offered.
  - intros c. apply reg_list_get, registry_wf_new.
  - apply reg_list_sorted, registry_wf_new.
Qed.
End registry.

(** ** The textual form of permissions *)
Lemma argument_of_spec p s arg : argument_of p s = Some arg ↔ s = p +:+ arg +:+ ")".
Proof.
  unfold argument_of, strip_prefix. split.
  - destruct (starts_with p s) eqn:Hp; [|done]. simpl. intros Ha.
    pose proof (strip_suffix_char_spec ")"%char (str_drop (String.length p) s)) as Hs.
    rewrite Ha in Hs. rewrite (starts_with_drop p s Hp) at 1. by rewrite Hs.
  - intros ->. rewrite starts_with_app, str_drop_app. simpl.
    pose proof (strip_suffix_char_spec ")"%char (arg +:+ ")")) as Hs.
    destruct (strip_suffix_char _ _) as [a|]; [|by destruct (Hs arg)].
    f_equal. symmetry. by apply str_app_inj_r in Hs.
Qed.

(** [Display] and [FromStr] of a permission are inverse: a string parses to a
    permission exactly when it is that permission printed, so the parser
    accepts every printed permission, whatever its argument contains, and
    nothing else. *)
Theorem permission_roundtrip s p :
  permission_from_str s = Ok p ↔ s = permission_to_string p.
Proof.
  unfold permission_from_str. split.
  - destruct (argument_of "Filesystem(" s) eqn:E1; [by apply argument_of_spec in E1; intros [= <-]|].
    destruct (argument_of "Http(" s) eqn:E2; [by apply argument_of_spec in E2; intros [= <-]|].
    destruct (argument_of "Secrets(" s) eqn:E3; [by apply argument_of_spec in E3; intros [= <-]|].
    destruct (argument_of "Environment(" s) eqn:E4; [by apply argument_of_spec in E4; intros [= <-]|].
    case_decide; [|done]. by intros [= <-].
  - intros ->. destruct p as [|a|a|a|a]; simpl; [done|..];
      repeat match goal with |- context [argument_of ?q (?q +:+ a +:+ ")")] =>
        rewrite (proj2 (argument_of_spec q (q +:+ a +:+ ")") a) eq_refl) end; done.
Qed.
