(* ===== verification/CapabilityGraph.v ===== *)
(** * The capability graph ([crates/fusion-kernel/src/capability/graph.rs])

    Capabilities, the dependencies and the conflicts declared between them,
    and the validation that makes the graph usable: no overly broad grant, no
    conflicting pair, no missing dependency, no cycle. The topological order is
    computed by Kahn's algorithm ([Kahn.v]); the hash maps it fills iterate in
    an order that is a parameter. *)
From S2P Require Import Prelude Text Graphs Kahn Capability.
Open Scope stdpp_scope.
Open Scope Z_scope.

Section graph.
Context `{SemVer} `{!HashIter string}.

Record DependencyEdge := mkDep { d_from : CapabilityId; d_to : CapabilityId }.
Record ConflictEdge := mkConflict { capability_a : CapabilityId; capability_b : CapabilityId }.

(** [CapabilityNode] wraps a contract and adds nothing to it. *)
Record CapabilityGraph := mkCapGraph {
  cg_nodes : gmap CapabilityId CapabilityContract;
  cg_dependencies : list DependencyEdge;
  cg_conflicts : list ConflictEdge;
}.

Definition graph_new : CapabilityGraph := mkCapGraph ∅ [] [].
Definition add_node (c : CapabilityContract) (g : CapabilityGraph) : CapabilityGraph :=
  mkCapGraph (<[c_id c := c]> (cg_nodes g)) (cg_dependencies g) (cg_conflicts g).
Definition add_dependency (from to : CapabilityId) (g : CapabilityGraph) : CapabilityGraph :=
  mkCapGraph (cg_nodes g) (cg_dependencies g ++ [mkDep from to]) (cg_conflicts g).
Definition add_conflict (a b : CapabilityId) (g : CapabilityGraph) : CapabilityGraph :=
  mkCapGraph (cg_nodes g) (cg_dependencies g) (cg_conflicts g ++ [mkConflict a b]).
Definition has_node (g : CapabilityGraph) (id : CapabilityId) : Prop := is_Some (cg_nodes g !! id).
Definition get_node (g : CapabilityGraph) (id : CapabilityId) : option CapabilityContract :=
  cg_nodes g !! id.
Definition node_count (g : CapabilityGraph) : nat := size (cg_nodes g).

Fixpoint broad_grant (perms : list Permission) : option Permission :=
  match perms with
  | [] => None
  | (Http s | Secrets s | Environment s) as p :: perms =>
      if decide (s = "" ∨ s = "*") then Some p else broad_grant perms
  | _ :: perms => broad_grant perms
  end.

(** ** Topological order *)

(** [for id in self.nodes.keys() { map.insert(id.clone(), x) }] *)
Definition init_map {A} (x : A) (g : CapabilityGraph) : gmap CapabilityId A :=
  foldl (λ m id, <[id := x]> m) ∅ (map_keys (cg_nodes g)).

Definition count_dependency (g : CapabilityGraph)
    (m : gmap CapabilityId nat * gmap CapabilityId (list CapabilityId)) (dep : DependencyEdge)
    : gmap CapabilityId nat * gmap CapabilityId (list CapabilityId) :=
  if decide (has_node g (d_from dep) ∧ has_node g (d_to dep))
  then (incr_at (d_from dep) m.1, push_at (d_to dep) (d_from dep) m.2)
  else m.

Definition topological_sort (g : CapabilityGraph) : result string (list CapabilityId) :=
  let '(in_degree, adj) :=
    foldl (count_dependency g) (init_map 0%nat g, init_map [] g) (cg_dependencies g) in
  let queue := (filter (λ kd, kd.2 = 0%nat) (map_iter in_degree)).*1 in
  let order := kahn_loop adj (node_count g) queue [] in_degree in
  if decide (length order = node_count g) then Ok order
  else Err "Cyclic dependency detected in CapabilityGraph".

Definition check_grants (c : CapabilityContract) : result string unit :=
  match broad_grant (c_permissions c) with
  | Some broad => Err ("Capability '" +:+ c_id c +:+ "' declares an overly-broad grant '"
      +:+ permission_to_string broad +:+ "' which is not permitted")
  | None => Ok tt
  end.
Definition check_conflict (g : CapabilityGraph) (e : ConflictEdge) : result string unit :=
  if decide (has_node g (capability_a e) ∧ has_node g (capability_b e))
  then Err ("Capability conflict detected between '" +:+ capability_a e +:+ "' and '"
      +:+ capability_b e +:+ "'")
  else Ok tt.
Definition check_dependency (g : CapabilityGraph) (dep : DependencyEdge) : result string unit :=
  if decide (has_node g (d_from dep) ∧ ¬ has_node g (d_to dep))
  then Err ("Unresolved capability dependency: '" +:+ d_from dep
      +:+ "' requires missing capability '" +:+ d_to dep +:+ "'")
  else Ok tt.

Definition graph_validate (g : CapabilityGraph) : result string unit :=
  _ ← try_for_each check_grants (map_values (cg_nodes g));
  _ ← try_for_each (check_conflict g) (cg_conflicts g);
  _ ← try_for_each (check_dependency g) (cg_dependencies g);
  (λ _, tt) <$> topological_sort g.

(** ** Specification *)

(** [u] must run before [v]: [v] depends on [u] and both are present. *)
Definition runs_before (g : CapabilityGraph) (u v : CapabilityId) : Prop :=
  mkDep v u ∈ cg_dependencies g ∧ has_node g u ∧ has_node g v.

Definition broad (p : Permission) : Prop :=
  match p with Http s | Secrets s | Environment s => s = "" ∨ s = "*" | _ => False end.

Record graph_ok (g : CapabilityGraph) : Prop := {
  go_grants : ∀ id c p, cg_nodes g !! id = Some c → p ∈ c_permissions c → ¬ broad p;
  go_conflicts : ∀ e, e ∈ cg_conflicts g → ¬ (has_node g (capability_a e) ∧ has_node g (capability_b e));
  go_dependencies : ∀ d, d ∈ cg_dependencies g → has_node g (d_from d) → has_node g (d_to d);
  go_acyclic : ∀ v, ¬ tc (runs_before g) v v;
}.

(** ** The maps the sort starts from *)
Lemma init_map_lookup {A} (x : A) g v :
  init_map x g !! v = if decide (has_node g v) then Some x else None.
Proof.
  unfold init_map, has_node.
  rewrite (decide_ext _ _ _ _ (symmetry (elem_of_map_keys (cg_nodes g) v))).
  assert (∀ l (m : gmap string A), foldl (λ m id, <[id := x]> m) m l !! v =
    if decide (v ∈ l) then Some x else m !! v) as ->; [|done].
  induction l as [|id l IH]; intros m; csimpl; [done|]. rewrite IH.
  destruct (decide (id = v)) as [->|Hne].
  - rewrite lookup_insert_eq. by repeat case_decide; set_solver.
  - rewrite lookup_insert_ne by done. repeat case_decide; set_solver.
Qed.

(** The dependencies between present capabilities, as [runs_before] pairs. *)
Definition live_pairs (g : CapabilityGraph) : list (CapabilityId * CapabilityId) :=
  (λ d, (d_to d, d_from d)) <$>
    filter (λ d, has_node g (d_from d) ∧ has_node g (d_to d)) (cg_dependencies g).

Lemma elem_of_live_pairs g u v : (u, v) ∈ live_pairs g ↔ runs_before g u v.
Proof.
  unfold live_pairs, runs_before. rewrite list_elem_of_fmap. split.
  - intros ([v' u'] & [= -> ->] & [? ?]%list_elem_of_filter). tauto.
  - intros (Hd & ? & ?). exists (mkDep v u). by rewrite list_elem_of_filter.
Qed.

Lemma count_dependencies g :
  foldl (count_dependency g) (init_map 0%nat g, init_map [] g) (cg_dependencies g) =
  (foldl (λ m e, incr_at e.2 m) (init_map 0%nat g) (live_pairs g),
   foldl (λ m e, push_at e.1 e.2 m) (init_map [] g) (live_pairs g)).
Proof.
  unfold live_pairs. generalize (init_map 0%nat g), (init_map (A := list string) [] g).
  induction (cg_dependencies g) as [|d l IH]; intros m1 m2; csimpl; [done|].
  rewrite filter_cons. unfold count_dependency at 2. case_decide; csimpl; apply IH.
Qed.

Lemma incr_fold_dom (l : list (string * string)) (m : gmap string nat) :
  (∀ e, e ∈ l → is_Some (m !! e.2)) →
  ∀ v, is_Some (foldl (λ m e, incr_at e.2 m) m l !! v) ↔ is_Some (m !! v).
Proof.
  revert m. induction l as [|e l IH]; intros m Hl v; csimpl; [done|].
  assert (∀ w, is_Some (incr_at e.2 m !! w) ↔ is_Some (m !! w)) as Hd.
  { intros w. unfold incr_at. rewrite lookup_insert_is_Some'.
    split; [|tauto]. intros [<-|]; [|done]. apply Hl. set_solver. }
  rewrite IH, Hd; [done|]. intros e' He'. apply Hd, Hl. set_solver.
Qed.

Lemma in_degree_lookup g v : has_node g v →
  foldl (λ m e, incr_at e.2 m) (init_map 0%nat g) (live_pairs g) !! v =
  Some (pending (live_pairs g) [] v).
Proof.
  intros Hv. set (m := foldl _ _ _).
  assert (Hdom : is_Some (m !! v)).
  { apply incr_fold_dom.
    - intros [a b] (_ & _ & Hb)%elem_of_live_pairs. rewrite init_map_lookup, decide_True; eauto.
    - rewrite init_map_lookup, decide_True; eauto. }
  destruct Hdom as [d Hd]. rewrite Hd. f_equal.
  pose proof (lookup_incr_fold snd (live_pairs g) (init_map 0%nat g) v) as Hl.
  fold m in Hl. rewrite Hd, init_map_lookup, decide_True in Hl by done. simpl in Hl. rewrite Hl.
  unfold pending. f_equal. apply filter_ext_in. set_solver.
Qed.

Lemma adj_lookup g u :
  default [] (foldl (λ m e, push_at e.1 e.2 m) (init_map [] g) (live_pairs g) !! u) =
  (filter (λ e, e.1 = u) (live_pairs g)).*2.
Proof.
  rewrite (lookup_push_fold fst snd). rewrite init_map_lookup. by case_decide.
Qed.

Lemma sources_queue g (m : gmap CapabilityId nat) :
  (∀ v, is_Some (m !! v) ↔ has_node g v) →
  (∀ v, has_node g v → m !! v = Some (pending (live_pairs g) [] v)) →
  let queue := (filter (λ kd, kd.2 = 0%nat) (map_iter m)).*1 in
  NoDup queue ∧
  ∀ v, v ∈ queue ↔ v ∈ map_keys (cg_nodes g) ∧ pending (live_pairs g) [] v = 0%nat.
Proof.
  intros Hdom Hm queue. subst queue. split.
  - eapply sublist_NoDup; [apply (map_keys_NoDup m)|]. apply fmap_sublist, sublist_filter.
  - intros v. rewrite list_elem_of_fmap, elem_of_map_keys. split.
    + intros ([k d] & -> & [Hd Hin]%list_elem_of_filter). rewrite elem_of_map_iter in Hin.
      simpl in *. assert (has_node g k) as Hk by (apply Hdom; eauto).
      split; [done|]. rewrite Hm in Hin by done. by simplify_eq.
    + intros [Hv Hp]. exists (v, 0%nat). split; [done|]. rewrite list_elem_of_filter, elem_of_map_iter.
      split; [done|]. by rewrite Hm, Hp.
Qed.

(** What the run of Kahn's loop on the graph returns. *)
Lemma topological_sort_run g :
  ∃ order,
    topological_sort g = (if decide (length order = node_count g) then Ok order
      else Err "Cyclic dependency detected in CapabilityGraph") ∧
    NoDup order ∧ (∀ u v, runs_before g u v → v ∈ order → precedes u v order) ∧
    ∀ v, v ∈ order ↔ has_node g v ∧ ∀ u, runs_before g u v → u ∈ order.
Proof.
  unfold topological_sort. rewrite count_dependencies.
  set (deg := foldl _ (init_map 0%nat g) _). set (adj := foldl _ (init_map [] g) _).
  set (queue := (filter _ _).*1). eexists. split; [done|].
  assert (Hdom : ∀ v, is_Some (deg !! v) ↔ has_node g v).
  { intros v. unfold deg. rewrite incr_fold_dom.
    - rewrite init_map_lookup. case_decide; [|rewrite is_Some_alt]; naive_solver.
    - intros [a b] (_ & _ & Hb)%elem_of_live_pairs. rewrite init_map_lookup, decide_True; eauto. }
  destruct (sources_queue g deg Hdom (in_degree_lookup g)) as [Hnd Hq].
  destruct (kahn_run adj (live_pairs g) (map_keys (cg_nodes g)) (map_keys_NoDup _))
    with (queue := queue) (deg := deg)
      (order := kahn_loop adj (node_count g) queue [] deg) as (Ho1 & Ho2 & Ho3).
  - intros u v (_ & ? & ?)%elem_of_live_pairs. by rewrite !elem_of_map_keys.
  - intros u. apply adj_lookup.
  - intros v Hv%elem_of_map_keys. by apply in_degree_lookup.
  - done.
  - done.
  - unfold node_count. by rewrite <- length_map_keys.
  - split_and!; [done|..].
    + intros u v Huv%elem_of_live_pairs. by apply Ho2.
    + intros v. rewrite Ho3, elem_of_map_keys. unfold has_node.
      by setoid_rewrite elem_of_live_pairs.
Qed.

Lemma live_pairs_acyclic g :
  (∀ v, ¬ tc (λ u v, (u, v) ∈ live_pairs g) v v) ↔ ∀ v, ¬ tc (runs_before g) v v.
Proof.
  apply forall_proper; intros v. apply not_iff_compat, tc_iff, elem_of_live_pairs.
Qed.

Lemma full_order (order : list CapabilityId) g :
  NoDup order → (∀ v, v ∈ order → has_node g v) →
  length order = node_count g ↔ ∀ v, has_node g v → v ∈ order.
Proof using HashIter0.
  intros Hnd Hin. unfold node_count. rewrite <- length_map_keys.
  assert (order ⊆+ map_keys (cg_nodes g)) as Hsub.
  { apply NoDup_submseteq; [done|]. intros v Hv. by apply elem_of_map_keys, Hin. }
  split.
  - intros Hl v Hv. apply submseteq_length_Permutation in Hsub; [|lia].
    rewrite Hsub. by apply elem_of_map_keys.
  - intros Hall. apply Nat.le_antisymm; apply submseteq_length; [done|].
    apply NoDup_submseteq; [apply map_keys_NoDup|]. intros v Hv%elem_of_map_keys. by apply Hall.
Qed.

Lemma topological_sort_ok g order :
  topological_sort g = Ok order →
  order ≡ₚ map_keys (cg_nodes g) ∧ (∀ u v, runs_before g u v → precedes u v order) ∧
  ∀ v, ¬ tc (runs_before g) v v.
Proof.
  destruct (topological_sort_run g) as (o & -> & Hnd & Hp & Ho).
  case_decide as Hl; [|done]. intros [= <-].
  assert (∀ v, has_node g v → v ∈ o) as Hall by (apply full_order; naive_solver).
  assert (∀ u v, runs_before g u v → precedes u v o) as Hp'.
  { intros u v Huv. apply Hp; [done|]. apply Hall, Huv. }
  split_and!; [|done|].
  - apply Permutation_sym, submseteq_length_Permutation; [|rewrite length_map_keys, Hl; done].
    apply NoDup_submseteq; [apply map_keys_NoDup|]. intros v Hv%elem_of_map_keys. by apply Hall.
  - apply live_pairs_acyclic, (precedes_acyclic (live_pairs g) o); [done|..].
    + intros u v Huv%elem_of_live_pairs _. by apply Hp'.
    + intros u v Huv%elem_of_live_pairs. apply Hall, Huv.
Qed.

Lemma topological_sort_total g :
  (∀ v, ¬ tc (runs_before g) v v) → ∃ order, topological_sort g = Ok order.
Proof.
  rewrite <- live_pairs_acyclic. intros Hac. destruct (topological_sort_run g) as (o & -> & Hnd & Hp & Ho).
  exists o. rewrite decide_True; [done|]. apply full_order; [done|naive_solver|].
  intros v Hv. apply (kahn_complete (live_pairs g) (map_keys (cg_nodes g))); [..|by apply elem_of_map_keys].
  - intros a b (_ & ? & ?)%elem_of_live_pairs. by rewrite !elem_of_map_keys.
  - intros w. rewrite Ho, elem_of_map_keys. unfold has_node. by setoid_rewrite elem_of_live_pairs.
  - done.
Qed.

(** C33. [topological_sort] succeeds exactly on graphs without a dependency cycle;
    its order lists every capability once, each after the capabilities it
    depends on, and the only error is the cycle. Neither depends on the
    iteration order of the hash maps. *)
Theorem topological_sort_exact g :
  match topological_sort g with
  | Ok order =>
      order ≡ₚ map_keys (cg_nodes g) ∧ (∀ u v, runs_before g u v → precedes u v order) ∧
      ∀ v, ¬ tc (runs_before g) v v
  | Err e => e = "Cyclic dependency detected in CapabilityGraph" ∧
      ¬ ∀ v, ¬ tc (runs_before g) v v
  end.
Proof.
  destruct (topological_sort g) as [order|e] eqn:Ht; [by apply topological_sort_ok|]. split.
  - destruct (topological_sort_run g) as (o & Heq & _). rewrite Heq in Ht.
    case_decide; by simplify_eq.
  - intros Hac%topological_sort_total. destruct Hac. congruence.
Qed.

(** ** Validation *)
Lemma broad_grant_none perms : broad_grant perms = None ↔ ∀ p, p ∈ perms → ¬ broad p.
Proof.
  induction perms as [|p perms IH]; [set_solver|].
  assert (broad_grant (p :: perms) = None ↔ ¬ broad p ∧ broad_grant perms = None) as ->.
  { destruct p; csimpl; try case_decide; naive_solver. }
  rewrite IH. set_solver.
Qed.

Lemma check_grants_ok c : check_grants c = Ok tt ↔ ∀ p, p ∈ c_permissions c → ¬ broad p.
Proof.
  rewrite <- broad_grant_none. unfold check_grants. by destruct (broad_grant _).
Qed.

Lemma graph_validate_spec g : graph_validate g = Ok tt ↔ graph_ok g.
Proof.
  transitivity (try_for_each check_grants (map_values (cg_nodes g)) = Ok tt ∧
    try_for_each (check_conflict g) (cg_conflicts g) = Ok tt ∧
    try_for_each (check_dependency g) (cg_dependencies g) = Ok tt ∧
    ∃ order, topological_sort g = Ok order).
  { unfold graph_validate.
    destruct (try_for_each check_grants _) as [[]|]; csimpl; [|naive_solver].
    destruct (try_for_each (check_conflict g) _) as [[]|]; csimpl; [|naive_solver].
    destruct (try_for_each (check_dependency g) _) as [[]|]; csimpl; [|naive_solver].
    destruct (topological_sort g); csimpl; naive_solver. }
  rewrite !try_for_each_ok. split.
  - intros (Hg & Hc & Hd & order & Ht). split.
    + intros id c p Hid. apply check_grants_ok, Hg, elem_of_map_values. by exists id.
    + intros e He. specialize (Hc e He). unfold check_conflict in Hc. by case_decide.
    + intros d Hdep Hf. specialize (Hd d Hdep). unfold check_dependency in Hd.
      case_decide as Hdec; [done|]. destruct (decide (has_node g (d_to d))); [done|]. tauto.
    + by eapply topological_sort_ok.
  - intros [Hg Hc Hd Ha]. split_and!.
    + intros c [id Hid]%elem_of_map_values. apply check_grants_ok. eauto.
    + intros e He. unfold check_conflict. rewrite decide_False; [done|]. by apply Hc.
    + intros d Hdep. unfold check_dependency. rewrite decide_False; [done|].
      intros [? Hn]. by apply Hn, Hd.
    + by apply topological_sort_total.
Qed.

(** [validate] accepts exactly the graphs in which no capability holds an
    overly broad grant, no two conflicting capabilities are both present, every
    dependency of a present capability is present and the dependencies form no
    cycle. *)
Theorem graph_validate_exact g : graph_validate g = Ok tt ↔ graph_ok g.
Proof. apply graph_validate_spec. Qed.
End graph.
