(* ===== verification/Resolver.v ===== *)
(** * Capability resolution ([crates/fusion-planner/src/capability/resolver.rs])

    The planner's resolver: requirements in, a closed and validated set of
    capability instances out. It reads the registry through the
    [CapabilityRegistry] interface and caches results through [CacheStore].
    This file is the model; [ResolverProps.v] proves what a resolution returns
    and that the cache does not show. *)
From S2P Require Import Prelude Text Json Money Capability CapabilityGraph.
Open Scope stdpp_scope.
Open Scope Z_scope.

(** ** Requirements *)
Record PolicyContext := mkPolicyContext {
  pc_environment : string;
  pc_allow_list : option (list CapabilityId);
  pc_deny_list : list CapabilityId;
  pc_release_profile : option string;
}.
#[global] Instance PolicyContext_eq_dec : EqDecision PolicyContext.
Proof. solve_decision. Defined.
#[global] Instance PolicyContext_countable : Countable PolicyContext.
Proof.
  refine (inj_countable'
    (λ p, (pc_environment p, pc_allow_list p, pc_deny_list p, pc_release_profile p))
    (λ '(e, a, d, r), mkPolicyContext e a d r) _). by intros [].
Defined.

Section requirements.
Context `{SemVer}.

Record VersionConstraint := mkVersionConstraint {
  capability_prefix : string;
  requirement : VersionReq;
}.
#[global] Instance VersionConstraint_eq_dec : EqDecision VersionConstraint.
Proof. solve_decision. Defined.
#[global] Instance VersionConstraint_countable : Countable VersionConstraint.
Proof.
  refine (inj_countable' (λ v, (capability_prefix v, requirement v))
    (λ '(p, r), mkVersionConstraint p r) _). by intros [].
Defined.

Record RequirementSet := mkRequirements {
  required_capabilities : list CapabilityId;
  optional_capabilities : list CapabilityId;
  version_constraints : list VersionConstraint;
  max_acceptable_latency_ms : option Z;
  max_cost : option NanoUSD;
  rs_policy : option PolicyContext;
}.
#[global] Instance RequirementSet_eq_dec : EqDecision RequirementSet.
Proof. solve_decision. Defined.
#[global] Instance RequirementSet_countable : Countable RequirementSet.
Proof.
  refine (inj_countable'
    (λ r, (required_capabilities r, optional_capabilities r, version_constraints r,
           max_acceptable_latency_ms r, as_nanos <$> max_cost r, rs_policy r))
    (λ '(a, b, c, d, e, f), mkRequirements a b c d (from_nanos <$> e) f) _).
  by intros [? ? ? ? [[]|] ?].
Defined.

Definition requirements_new (required : list CapabilityId) : RequirementSet :=
  mkRequirements required [] [] None None None.

Record ResolvedCapabilitySet := mkResolved {
  rs_graph : CapabilityGraph;
  rs_instances : list CapabilityInstance;
}.

Inductive ResolverError :=
| UnregisteredCapability (id : CapabilityId)
| NoCompatibleVersion (capability requirement : string)
| AmbiguousResolution (capability : string) (matches : list CapabilityId)
| UnresolvedDependency (capability dependency : CapabilityId)
| CircularDependency
| PolicyDenied (capability : CapabilityId) (reason : string)
| LatencyExceeded (capability : CapabilityId) (latency_ms max_ms : Z)
| GraphValidationFailed (msg : string).

(** ** The cache *)
Class CacheStore (S : Type) := {
  cache_get : S → RequirementSet → option ResolvedCapabilitySet;
  cache_put : RequirementSet → ResolvedCapabilitySet → nat → S → S;
  cache_len : S → nat;
  cache_clear : S → S;
}.

(** A cache may forget an entry but never changes one. *)
Class LawfulCache (S : Type) `{CacheStore S} := {
  cache_get_put : ∀ s k v n, cache_get (cache_put k v n s) k = Some v;
  cache_get_put_ne : ∀ s k k' v v' n, k ≠ k' →
    cache_get (cache_put k v n s) k' = Some v' → cache_get s k' = Some v';
  cache_get_clear : ∀ s k, cache_get (cache_clear s) k = None;
}.

(** [InMemoryStore] and [SharedStore]: the same operations on a locked map. *)
Section memory_store.
Context `{!HashIter RequirementSet}.
Notation InMemoryStore := (gmap RequirementSet ResolvedCapabilitySet).

Definition store_put (k : RequirementSet) (v : ResolvedCapabilitySet) (max_capacity : nat)
    (s : InMemoryStore) : InMemoryStore :=
  let s := if (max_capacity <=? size s)%nat
           then match head (map_keys s) with Some k => delete k s | None => s end
           else s in
  <[k := v]> s.

#[global] Instance memory_store : CacheStore InMemoryStore := {|
  cache_get s k := s !! k;
  cache_put := store_put;
  cache_len s := size s;
  cache_clear _ := ∅;
|}.
End memory_store.

(** ** The resolver *)
Section resolver.
Context `{!HashIter string} {R C : Type} `{!CapabilityRegistry R} `{!CacheStore C}.

Record CapabilityResolver := mkResolver {
  registry : R;
  cache : C;
  cache_capacity : nat;
  aliases : gmap CapabilityId CapabilityId;
}.

Definition register_alias (alias target : CapabilityId) (s : CapabilityResolver)
    : CapabilityResolver :=
  mkResolver (registry s) (cache s) (cache_capacity s) (<[alias := target]> (aliases s)).

Definition candidates (reg : R) (vc : VersionConstraint) : list CapabilityContract :=
  filter (λ c, req_matches (requirement vc) (c_version c) = true)
    (filter (λ c, starts_with (capability_prefix vc) (c_id c) = true) (reg_list reg)).

(** [candidates.sort_by(|a, b| b.version.cmp(&a.version))], first element. *)
Definition resolve_version (reg : R) (vc : VersionConstraint)
    : result ResolverError CapabilityContract :=
  match sort_by (λ a b, version_leb (c_version b) (c_version a)) (candidates reg vc) with
  | [] => Err (NoCompatibleVersion (capability_prefix vc) (req_to_string (requirement vc)))
  | c :: _ => Ok c
  end.

Definition apply_policy (requested : CapabilityId) (c : CapabilityContract) (p : PolicyContext)
    : result ResolverError unit :=
  if decide (requested ∈ pc_deny_list p ∨ c_id c ∈ pc_deny_list p)
  then Err (PolicyDenied (c_id c) "capability is in the deny list")
  else match pc_allow_list p with
    | Some allow =>
        if decide (requested ∉ allow ∨ c_id c ∉ allow)
        then Err (PolicyDenied (c_id c) "capability is not in the allow list")
        else Ok tt
    | None => Ok tt
    end.

(** [if let Some(policy) = policy { self.apply_policy(..)? }] *)
Definition check_policy (policy : option PolicyContext) (requested : CapabilityId)
    (c : CapabilityContract) : result ResolverError unit :=
  match policy with Some p => apply_policy requested c p | None => Ok tt end.

(** *** Dependency expansion *)
Record Expansion := mkExpansion {
  result_map : gmap CapabilityId CapabilityContract;
  dep_edges : list DependencyEdge;
  bfs_queue : list CapabilityId;
  in_flight : gset CapabilityId;
}.

Definition add_root (policy : option PolicyContext)
    (acc : gmap CapabilityId CapabilityContract * list CapabilityId) (c : CapabilityContract)
    : result ResolverError (gmap CapabilityId CapabilityContract * list CapabilityId) :=
  _ ← check_policy policy (c_id c) c;
  Ok (<[c_id c := c]> acc.1, acc.2 ++ [c_id c]).

Definition expand_dependency (reg : R) (policy : option PolicyContext) (current_id : CapabilityId)
    (x : Expansion) (dep_id : CapabilityId) : result ResolverError Expansion :=
  _ ← (if decide (dep_id ∈ in_flight x) then
         match reg_get reg dep_id with
         | Some dep =>
             if decide (current_id ∈ c_dependencies dep) then Err CircularDependency else Ok tt
         | None => Ok tt
         end
       else Ok tt);
  x ← (if decide (result_map x !! dep_id = None) then
         dep ← ok_or (UnresolvedDependency current_id dep_id) (reg_get reg dep_id);
         _ ← check_policy policy dep_id dep;
         Ok (mkExpansion (<[dep_id := dep]> (result_map x)) (dep_edges x)
               (bfs_queue x ++ [dep_id]) ({[dep_id]} ∪ in_flight x))
       else Ok x);
  Ok (mkExpansion (result_map x) (dep_edges x ++ [mkDep current_id dep_id])
        (bfs_queue x) (in_flight x)).

Definition expand_current (reg : R) (policy : option PolicyContext) (current_id : CapabilityId)
    (x : Expansion) : result ResolverError Expansion :=
  current ← ok_or (UnregisteredCapability current_id) (result_map x !! current_id);
  try_fold (expand_dependency reg policy current_id) x (c_dependencies current).

Fixpoint expand_loop (fuel : nat) (reg : R) (policy : option PolicyContext) (x : Expansion)
    : result ResolverError Expansion :=
  match fuel, bfs_queue x with
  | S fuel, current_id :: queue =>
      x ← expand_current reg policy current_id
            (mkExpansion (result_map x) (dep_edges x) queue (in_flight x));
      expand_loop fuel reg policy x
  | _, _ => Ok x
  end.

(** Every identifier enters the queue once: as a root or when it is first
    taken from the registry. *)
Definition expand_fuel (reg : R) (roots : list CapabilityContract) : nat :=
  (length roots + length (reg_list reg))%nat.

Definition expand_dependencies (reg : R) (roots : list CapabilityContract)
    (policy : option PolicyContext)
    : result ResolverError (list CapabilityContract * list DependencyEdge) :=
  '(m, queue) ← try_fold (add_root policy) (∅, []) roots;
  x ← expand_loop (expand_fuel reg roots) reg policy
        (mkExpansion m [] queue (list_to_set queue));
  Ok (sort_by contract_id_leb (map_values (result_map x)), dep_edges x).

(** *** Resolution *)

(** [if visited.insert(c.id.clone()) { instances.push(..) }] *)
Definition push_instance (acc : list CapabilityInstance * gset CapabilityId)
    (c : CapabilityContract) : list CapabilityInstance * gset CapabilityId :=
  if decide (c_id c ∈ acc.2) then acc
  else (acc.1 ++ [mkInstance c (JObject [])], {[c_id c]} ∪ acc.2).

Definition target_of (al : gmap CapabilityId CapabilityId) (id : CapabilityId) : CapabilityId :=
  default id (al !! id).

Definition precheck (s : CapabilityResolver) (policy : PolicyContext) (req_id : CapabilityId)
    : result ResolverError unit :=
  match reg_get (registry s) (target_of (aliases s) req_id) with
  | Some c => apply_policy req_id c policy
  | None => Ok tt
  end.

Definition resolve_constraint (s : CapabilityResolver) (reqs : RequirementSet)
    (acc : list CapabilityInstance * gset CapabilityId) (vc : VersionConstraint)
    : result ResolverError (list CapabilityInstance * gset CapabilityId) :=
  c ← resolve_version (registry s) vc;
  _ ← check_policy (rs_policy reqs) (c_id c) c;
  Ok (push_instance acc c).

Definition check_latency (reqs : RequirementSet) (c : CapabilityContract)
    : result ResolverError unit :=
  match max_acceptable_latency_ms reqs with
  | Some max_lat =>
      if (max_lat <? c_estimated_latency_ms c)%Z
      then Err (LatencyExceeded (c_id c) (c_estimated_latency_ms c) max_lat) else Ok tt
  | None => Ok tt
  end.

Definition resolve_required (s : CapabilityResolver) (reqs : RequirementSet)
    (acc : list CapabilityInstance * gset CapabilityId) (req_id : CapabilityId)
    : result ResolverError (list CapabilityInstance * gset CapabilityId) :=
  c ← ok_or (UnregisteredCapability req_id) (reg_get (registry s) (target_of (aliases s) req_id));
  _ ← check_policy (rs_policy reqs) req_id c;
  _ ← check_latency reqs c;
  Ok (push_instance acc c).

Definition resolve_optional (s : CapabilityResolver) (reqs : RequirementSet)
    (acc : list CapabilityInstance * gset CapabilityId) (opt_id : CapabilityId)
    : result ResolverError (list CapabilityInstance * gset CapabilityId) :=
  match reg_get (registry s) (target_of (aliases s) opt_id) with
  | Some c => _ ← check_policy (rs_policy reqs) opt_id c; Ok (push_instance acc c)
  | None => Ok acc
  end.

(** The instances named by the requirements, in order of resolution. *)
Definition resolve_roots (s : CapabilityResolver) (reqs : RequirementSet)
    : result ResolverError (list CapabilityInstance) :=
  _ ← match rs_policy reqs with
      | Some p => try_for_each (precheck s p) (required_capabilities reqs)
      | None => Ok tt
      end;
  acc ← try_fold (resolve_constraint s reqs) ([], ∅) (version_constraints reqs);
  acc ← try_fold (resolve_required s reqs) acc (required_capabilities reqs);
  acc ← try_fold (resolve_optional s reqs) acc (optional_capabilities reqs);
  Ok acc.1.

(** The graph of the expanded set, with one instance per identifier. *)
Definition rebuild_node (acc : CapabilityGraph * (list CapabilityInstance * gset CapabilityId))
    (c : CapabilityContract) : CapabilityGraph * (list CapabilityInstance * gset CapabilityId) :=
  if decide (c_id c ∈ acc.2.2) then acc
  else (add_node c acc.1, push_instance acc.2 c).
Definition rebuild (all : list CapabilityContract) (edges : list DependencyEdge)
    : ResolvedCapabilitySet :=
  let '(g, (instances, _)) := foldl rebuild_node (graph_new, ([], ∅)) all in
  mkResolved (foldl (λ g e, add_dependency (d_from e) (d_to e) g) g edges) instances.

(** [resolve] when the cache has no entry. *)
Definition resolve_fresh (s : CapabilityResolver) (reqs : RequirementSet)
    : result ResolverError ResolvedCapabilitySet :=
  instances ← resolve_roots s reqs;
  '(all, edges) ← expand_dependencies (registry s) (i_contract <$> instances) (rs_policy reqs);
  let r := rebuild all edges in
  _ ← map_err GraphValidationFailed (graph_validate (rs_graph r));
  _ ← try_for_each (λ i, check_policy (rs_policy reqs) (c_id (i_contract i)) (i_contract i))
        (rs_instances r);
  Ok r.

Definition resolve (reqs : RequirementSet) (s : CapabilityResolver)
    : result ResolverError ResolvedCapabilitySet * CapabilityResolver :=
  match cache_get (cache s) reqs with
  | Some cached => (Ok cached, s)
  | None =>
      match resolve_fresh s reqs with
      | Err e => (Err e, s)
      | Ok r => (Ok r, mkResolver (registry s) (cache_put reqs r (cache_capacity s) (cache s))
                         (cache_capacity s) (aliases s))
      end
  end.
End resolver.
End requirements.
