(* ===== verification/ResolverProps.v ===== *)
(** * What a resolution returns

    [resolve_exact]: a resolution succeeds exactly when the requirements are
    admissible, and then returns the dependency closure of the required,
    optional and version-selected capabilities, in the order of their
    identifiers, with a graph that validates. [resolve_transparent]: the cache
    never changes an answer, as long as no alias is registered in between. *)
From S2P Require Import Prelude Text Json Money Graphs Kahn Capability CapabilityGraph Resolver.
Open Scope stdpp_scope.
Open Scope Z_scope.

Section policy.
Context `{SemVer}.

Definition permitted (policy : option PolicyContext) (requested : CapabilityId)
    (c : CapabilityContract) : Prop :=
  ∀ p, policy = Some p →
    requested ∉ pc_deny_list p ∧ c_id c ∉ pc_deny_list p ∧
    ∀ allow, pc_allow_list p = Some allow → requested ∈ allow ∧ c_id c ∈ allow.

Lemma check_policy_spec policy requested c :
  match check_policy policy requested c with
  | Ok _ => permitted policy requested c
  | Err _ => ¬ permitted policy requested c
  end.
Proof.
  unfold check_policy, permitted, apply_policy. destruct policy as [p|]; [|naive_solver].
  case_decide as Hd; [intros Hp; specialize (Hp p eq_refl); tauto|].
  destruct (pc_allow_list p) as [allow|] eqn:Ha.
  - case_decide as Hn.
    + intros Hp. destruct (Hp p eq_refl) as (_ & _ & Hal). specialize (Hal allow Ha). tauto.
    + intros p' [= <-]. split_and!; [tauto..|]. intros al Hal. rewrite Ha in Hal. simplify_eq.
      destruct (decide (requested ∈ al)), (decide (c_id c ∈ al)); tauto.
  - intros p' [= <-]. split_and!; [tauto..|]. congruence.
Qed.
End policy.

Section rebuild.
Context `{SemVer}.

(** ** The graph of the result *)
Lemma rebuild_nodes all g insts visited :
  NoDup (c_id <$> all) → (∀ c, c ∈ all → c_id c ∉ visited) →
  foldl rebuild_node (g, (insts, visited)) all =
  (mkCapGraph (foldl (λ m c, <[c_id c := c]> m) (cg_nodes g) all)
     (cg_dependencies g) (cg_conflicts g),
   (insts ++ ((λ c, mkInstance c (JObject [])) <$> all),
    list_to_set (reverse (c_id <$> all)) ∪ visited)).
Proof using Type.
  revert g insts visited. induction all as [|c all IH]; intros g insts visited Hnd Hv; csimpl.
  { rewrite app_nil_r. destruct g. f_equal. f_equal. set_solver. }
  apply NoDup_cons in Hnd as [Hc Hnd].
  assert (Hcv : c_id c ∉ visited) by (apply Hv; set_solver).
  unfold rebuild_node at 2. csimpl. rewrite decide_False by done.
  unfold push_instance; csimpl. rewrite decide_False by done. rewrite IH; [|done|].
  - csimpl. rewrite <- app_assoc. do 2 f_equal.
    rewrite reverse_cons, list_to_set_app_L. set_solver.
  - intros d Hd [Heq%elem_of_singleton|Hin]%elem_of_union.
    + apply Hc. rewrite <- Heq. by apply list_elem_of_fmap_2.
    + apply (Hv d); [set_solver|done].
Qed.

Lemma add_dependencies_spec edges g :
  foldl (λ g e, add_dependency (d_from e) (d_to e) g) g edges =
  mkCapGraph (cg_nodes g) (cg_dependencies g ++ edges) (cg_conflicts g).
Proof using Type.
  revert g. induction edges as [|[a b] edges IH]; intros g; csimpl.
  - rewrite app_nil_r. by destruct g.
  - rewrite IH; csimpl. by rewrite <- app_assoc.
Qed.

Lemma insert_all_lookup (all : list CapabilityContract) (m : gmap CapabilityId CapabilityContract) id c :
  NoDup (c_id <$> all) → (∀ d, d ∈ all → m !! c_id d = None) →
  foldl (λ m c, <[c_id c := c]> m) m all !! id = Some c ↔
  (c ∈ all ∧ c_id c = id) ∨ m !! id = Some c.
Proof using Type.
  revert m. induction all as [|d all IH]; intros m Hnd Hm; csimpl.
  { rewrite elem_of_nil. tauto. }
  apply NoDup_cons in Hnd as [Hd Hnd]. rewrite IH; [|done|].
  - rewrite elem_of_cons, lookup_insert_Some. split.
    + intros [[? ?]|[[<- <-]|[? ?]]]; auto.
    + intros [[[->|?] <-]|Hmc]; auto. destruct (decide (c_id d = id)) as [<-|]; auto.
      rewrite Hm in Hmc by set_solver. done.
  - intros x Hx. rewrite lookup_insert_ne; [apply Hm; set_solver|].
    intros Heq. apply Hd. rewrite Heq. by apply list_elem_of_fmap_2.
Qed.

Lemma rebuild_spec all edges :
  NoDup (c_id <$> all) →
  ∃ m, rebuild all edges =
    mkResolved (mkCapGraph m edges []) ((λ c, mkInstance c (JObject [])) <$> all) ∧
  ∀ id c, m !! id = Some c ↔ c ∈ all ∧ c_id c = id.
Proof using Type.
  intros Hnd. exists (foldl (λ m c, <[c_id c := c]> m) ∅ all). split.
  - unfold rebuild. rewrite rebuild_nodes; [|done|set_solver]. csimpl.
    by rewrite add_dependencies_spec.
  - intros id c. rewrite insert_all_lookup; [|done|intros; apply lookup_empty].
    rewrite lookup_empty. naive_solver.
Qed.
End rebuild.

Section resolution.
Context `{SemVer} `{!HashIter string} {R C : Type} `{!CapabilityRegistry R} `{!CacheStore C}.
Context {wf : R → Prop} `{!LawfulRegistry (R := R) wf}.

(** ** Dependency expansion *)
Section expand.
Context (reg : R) (Hwf : wf reg) (policy : option PolicyContext).
Context (root : CapabilityContract → Prop).

Definition registered (c : CapabilityContract) : Prop := reg_get reg (c_id c) = Some c.
Definition dep_step (c d : CapabilityContract) : Prop :=
  ∃ id, id ∈ c_dependencies c ∧ reg_get reg id = Some d.
(** [c] is a root or a direct or indirect dependency of one. *)
Definition needed (c : CapabilityContract) : Prop := ∃ r, root r ∧ rtc dep_step r c.
Definition depends (a b : CapabilityId) : Prop :=
  ∃ c, needed c ∧ c_id c = a ∧ b ∈ c_dependencies c.

Record closure_ok : Prop := {
  cl_permitted : ∀ c, needed c → permitted policy (c_id c) c;
  cl_registered : ∀ c id, needed c → id ∈ c_dependencies c → is_Some (reg_get reg id);
  cl_acyclic : ∀ id, ¬ tc depends id id;
}.

Context (roots : list CapabilityContract) (Hroot : ∀ c, c ∈ roots ↔ root c).
Context (Hroots : ∀ c, c ∈ roots → registered c) (Hnd : NoDup (c_id <$> roots)).

Lemma get_registered id c : reg_get reg id = Some c → registered c ∧ c_id c = id.
Proof using Hwf LawfulRegistry0.
  clear Hroots Hnd Hroot. intros Hg. pose proof (reg_get_id reg id c Hwf Hg) as Hid. unfold registered.
  by rewrite Hid.
Qed.

Lemma needed_registered c : needed c → registered c.
Proof using Hwf LawfulRegistry0 Hroot Hroots Hnd.
  intros (r & Hr & Hrc). destruct (rtc_inv_r _ _ Hrc) as [<-|(d & _ & id & _ & Hd)].
  - by apply Hroots, Hroot.
  - by apply (get_registered id).
Qed.

Lemma needed_dep c id d : needed c → id ∈ c_dependencies c → reg_get reg id = Some d → needed d.
Proof using Type.
  intros (r & Hr & Hrc) Hid Hd. exists r. split; [done|]. eapply rtc_r; [done|]. by exists id.
Qed.

(** The state of the search: [popped] identifiers have left the queue, and the
    dependencies [E] have been recorded. *)
Record exp_inv (popped : list CapabilityId) (E : CapabilityId → CapabilityId → Prop)
    (x : Expansion) : Prop := {
  xi_sound : ∀ id c, result_map x !! id = Some c →
    reg_get reg id = Some c ∧ needed c ∧ permitted policy id c;
  xi_roots : ∀ c, c ∈ roots → result_map x !! c_id c = Some c;
  xi_dom : ∀ id, is_Some (result_map x !! id) ↔ id ∈ popped ++ bfs_queue x;
  xi_nodup : NoDup (popped ++ bfs_queue x);
  xi_flight : ∀ id, id ∈ in_flight x ↔ is_Some (result_map x !! id);
  xi_edges : ∀ a b, mkDep a b ∈ dep_edges x ↔ E a b;
  xi_closed : ∀ a b, E a b → is_Some (result_map x !! b);
}.

Lemma expand_dependency_spec popped E x cur c dep :
  exp_inv popped E x → reg_get reg cur = Some c → needed c → dep ∈ c_dependencies c →
  match expand_dependency reg policy cur x dep with
  | Ok x' => exp_inv popped (λ a b, E a b ∨ (a = cur ∧ b = dep)) x'
  | Err _ => ¬ closure_ok
  end.
Proof using Hwf LawfulRegistry0 Hroot Hroots Hnd.
  intros Hi Hcur Hneed Hdep. unfold expand_dependency.
  assert (Hid : c_id c = cur) by (by apply (get_registered cur)).
  assert (Hcirc : ∀ d, reg_get reg dep = Some d → cur ∈ c_dependencies d → ¬ closure_ok).
  { intros d Hd Hc Hok. apply (cl_acyclic Hok cur), (tc_l _ _ dep); [by exists c|].
    apply tc_once. exists d. split_and!; [by eapply needed_dep|by apply (get_registered dep)|done]. }
  destruct (if decide (dep ∈ in_flight x) then _ else _) as [[]|e] eqn:He; csimpl; cycle 1.
  { case_decide; [|done]. destruct (reg_get reg dep) as [d|] eqn:Hd; [|done].
    case_decide; [|done]. by eapply Hcirc. }
  clear He Hcirc. case_decide as Hnew; csimpl.
  - destruct (reg_get reg dep) as [d|] eqn:Hd; csimpl; cycle 1.
    { intros Hok. destruct (cl_registered Hok c dep Hneed Hdep). congruence. }
    assert (Hnd' : needed d) by (by eapply needed_dep).
    pose proof (check_policy_spec policy dep d) as Hp.
    destruct (check_policy policy dep d) as [[]|]; csimpl; cycle 1.
    { intros Hok. apply Hp. rewrite <- (proj2 (get_registered dep d Hd)) at 1.
      by apply (cl_permitted Hok). }
    assert (Hfresh : dep ∉ popped ++ bfs_queue x).
    { rewrite <- (xi_dom _ _ _ Hi). rewrite Hnew. by intros []. }
    split; csimpl.
    + intros id c' [[<- <-]|[? Hc']]%lookup_insert_Some; [done|]. by apply (xi_sound _ _ _ Hi).
    + intros r Hr. pose proof (xi_roots _ _ _ Hi r Hr) as Hx. rewrite lookup_insert_ne; congruence.
    + intros id. rewrite lookup_insert_is_Some', app_assoc, elem_of_app, list_elem_of_singleton,
        <- (xi_dom _ _ _ Hi id). split; intros [?|?]; auto.
    + rewrite app_assoc. apply NoDup_app. split_and!; [apply (xi_nodup _ _ _ Hi)| |apply NoDup_singleton].
      intros id Hin ->%list_elem_of_singleton. done.
    + intros id. rewrite lookup_insert_is_Some', elem_of_union, elem_of_singleton,
        (xi_flight _ _ _ Hi id). split; intros [?|?]; auto.
    + intros a b. rewrite elem_of_app, list_elem_of_singleton, (xi_edges _ _ _ Hi). naive_solver.
    + intros a b [HE|[-> ->]]; rewrite lookup_insert_is_Some'; [right|by left].
      by apply (xi_closed _ _ _ Hi a).
  - split; csimpl; try apply Hi.
    + intros a b. rewrite elem_of_app, list_elem_of_singleton, (xi_edges _ _ _ Hi). naive_solver.
    + intros a b [HE|[-> ->]]; [by apply (xi_closed _ _ _ Hi a)|]. by apply not_eq_None_Some.
Qed.

(** The dependencies a registered contract declares. *)
Definition declared (a b : CapabilityId) : Prop :=
  ∃ c, reg_get reg a = Some c ∧ b ∈ c_dependencies c.

Definition loop_inv (popped : list CapabilityId) (x : Expansion) : Prop :=
  exp_inv popped (λ a b, a ∈ popped ∧ declared a b) x.

Lemma exp_inv_iff popped E E' x :
  (∀ a b, E a b ↔ E' a b) → exp_inv popped E x → exp_inv popped E' x.
Proof using Type.
  intros HE Hi. split; try apply Hi.
  - intros a b. by rewrite (xi_edges _ _ _ Hi).
  - intros a b Hab%HE. by apply (xi_closed _ _ _ Hi a).
Qed.

Lemma expand_current_spec popped m es cur queue fl :
  loop_inv popped (mkExpansion m es (cur :: queue) fl) →
  match expand_current reg policy cur (mkExpansion m es queue fl) with
  | Ok x => loop_inv (popped ++ [cur]) x
  | Err _ => ¬ closure_ok
  end.
Proof using Hwf LawfulRegistry0 Hroot Hroots Hnd.
  intros Hi. unfold expand_current; csimpl.
  destruct (m !! cur) as [c|] eqn:Hc; csimpl; cycle 1.
  { destruct (proj2 (xi_dom _ _ _ Hi cur)) as [d Hd]; csimpl in *; [set_solver|congruence]. }
  destruct (xi_sound _ _ _ Hi cur c Hc) as (Hreg & Hneed & _).
  assert (Hfresh : cur ∉ popped).
  { pose proof (xi_nodup _ _ _ Hi) as Hn; csimpl in Hn. apply NoDup_app in Hn as (_ & Hn & _).
    intros Hin. apply (Hn cur Hin). set_solver. }
  pose proof (try_fold_inv (expand_dependency reg policy cur)
    (λ pre, exp_inv (popped ++ [cur])
       (λ a b, (a ∈ popped ∧ declared a b) ∨ (a = cur ∧ b ∈ pre))) (¬ closure_ok)
    (mkExpansion m es queue fl) (c_dependencies c)) as Hfold.
  destruct (try_fold _ _ _) as [y|]; [eapply (exp_inv_iff _ _ _ y)|]; [|apply Hfold..].
  { intros a b. rewrite elem_of_app, list_elem_of_singleton. unfold declared. split.
    - intros [[? ?]|[-> Hb]]; [tauto|]. split; [by right|]. by exists c.
    - intros [[Ha| ->] Hd]; [by left|]. destruct Hd as (c' & Hc' & Hb).
      right. split; [done|]. congruence. }
  all: clear Hfold.
  1,3: split; csimpl; try apply Hi;
    [intros id; rewrite <- app_assoc; apply (xi_dom _ _ _ Hi id)
    |rewrite <- app_assoc; apply (xi_nodup _ _ _ Hi)
    |intros a b; rewrite (xi_edges _ _ _ Hi); set_solver
    |intros a b [Hab|[_ []%elem_of_nil]]; by apply (xi_closed _ _ _ Hi a)].
  all: intros pre dep x Hdep Hx;
    pose proof (expand_dependency_spec _ _ _ cur c dep Hx Hreg Hneed Hdep) as Hs;
    destruct (expand_dependency reg policy cur x dep) as [x'|]; [|done];
    eapply exp_inv_iff; [|apply Hs]; intros a b; rewrite elem_of_app, list_elem_of_singleton; tauto.
Qed.

Lemma expand_loop_spec fuel popped x :
  (length (reg_list reg) <= fuel + length popped)%nat → loop_inv popped x →
  match expand_loop fuel reg policy x with
  | Ok x' => ∃ popped', loop_inv popped' x' ∧ bfs_queue x' = []
  | Err _ => ¬ closure_ok
  end.
Proof using Hwf LawfulRegistry0 Hroot Hroots Hnd.
  revert popped x. induction fuel as [|fuel IH]; intros popped [m es queue fl] Hf Hi; csimpl.
  - exists popped. split; [done|]. destruct queue as [|cur queue]; [done|]. exfalso.
    assert (length (popped ++ cur :: queue) <= length (c_id <$> reg_list reg))%nat as Hle.
    { apply submseteq_length, NoDup_submseteq; [apply (xi_nodup _ _ _ Hi)|].
      intros id Hid. apply (proj2 (xi_dom _ _ _ Hi id)) in Hid as [c Hc].
      apply (xi_sound _ _ _ Hi) in Hc as [Hc _]. apply list_elem_of_fmap. exists c.
      destruct (get_registered id c Hc). split; [done|]. by apply reg_list_get. }
    rewrite length_app, length_fmap in Hle; csimpl in *. lia.
  - destruct queue as [|cur queue]; [by exists popped|].
    pose proof (expand_current_spec popped m es cur queue fl Hi) as Hs.
    destruct (expand_current _ _ _ _) as [x'|]; csimpl; [|done].
    apply (IH (popped ++ [cur])); [|done]. rewrite length_app; csimpl. lia.
Qed.

Lemma add_roots_spec :
  match try_fold (add_root policy) (∅, []) roots with
  | Ok (m, queue) => queue = c_id <$> roots ∧
      (∀ id c, m !! id = Some c ↔ c ∈ roots ∧ c_id c = id) ∧
      ∀ c, c ∈ roots → permitted policy (c_id c) c
  | Err _ => ¬ closure_ok
  end.
Proof using Hwf LawfulRegistry0 Hroot Hroots Hnd.
  assert (match try_fold (add_root policy) (∅, []) roots with
    | Ok acc => (∀ c, c ∈ roots → c ∈ roots) ∧ acc.2 = c_id <$> roots ∧
        (∀ id c, acc.1 !! id = Some c ↔ c ∈ roots ∧ c_id c = id) ∧
        ∀ c, c ∈ roots → permitted policy (c_id c) c
    | Err _ => ¬ closure_ok end) as Hfold; cycle 1.
  { destruct (try_fold _ _ _) as [[m queue]|]; [|done]. tauto. }
  apply (try_fold_inv _ (λ pre acc, (∀ c, c ∈ pre → c ∈ roots) ∧ acc.2 = c_id <$> pre ∧
    (∀ id c, acc.1 !! id = Some c ↔ c ∈ pre ∧ c_id c = id) ∧
    ∀ c, c ∈ pre → permitted policy (c_id c) c)).
  { split_and!; [set_solver|done| |set_solver]. intros id c. csimpl.
    rewrite lookup_empty. split; [done|]. by intros [?%elem_of_nil _]. }
  intros pre c [m queue] Hc (Hsub & Hq & Hm & Hp); csimpl in *. subst queue. unfold add_root.
  pose proof (check_policy_spec policy (c_id c) c) as Hpol.
  destruct (check_policy _ _ _) as [[]|]; csimpl; cycle 1.
  { intros Hok. apply Hpol, (cl_permitted Hok). exists c. split; [by apply Hroot|apply rtc_refl]. }
  split_and!; [set_solver|by rewrite fmap_app| |set_solver].
  intros id d. rewrite elem_of_app, list_elem_of_singleton.
  destruct (decide (c_id c = id)) as [<-|Hne].
  - rewrite lookup_insert_eq. split; [intros [= ->]; tauto|]. intros [Hd Hid]. f_equal.
    assert (d ∈ roots) as Hd' by (destruct Hd; [auto|by subst]).
    apply Hroots in Hd', Hc. unfold registered in *. congruence.
  - rewrite lookup_insert_ne, Hm by done. naive_solver.
Qed.

Lemma loop_closed popped x c :
  loop_inv popped x → bfs_queue x = [] → result_map x !! c_id c = Some c ↔ needed c.
Proof using Hwf LawfulRegistry0 Hroot Hroots Hnd.
  intros Hi Hq. split; [by intros (_ & Hn & _)%(xi_sound _ _ _ Hi)|].
  assert (Hpop : ∀ id, is_Some (result_map x !! id) → id ∈ popped).
  { intros id. by rewrite (xi_dom _ _ _ Hi), Hq, app_nil_r. }
  intros (r & Hr & Hrc). revert c Hrc. apply rtc_ind_r; [by apply (xi_roots _ _ _ Hi), Hroot|].
  intros d c _ (id & Hid & Hc) IH.
  destruct (xi_closed _ _ _ Hi (c_id d) id) as [c' Hc'].
  { split; [apply Hpop; eauto|]. exists d. split; [|done].
    by apply (xi_sound _ _ _ Hi) in IH as [? _]. }
  rewrite (proj2 (get_registered id c Hc)), Hc'.
  apply (xi_sound _ _ _ Hi) in Hc' as [Hc' _]. congruence.
Qed.

(** The expansion returns the needed contracts, sorted, and the dependencies
    between them. *)
Record expanded (all : list CapabilityContract) (edges : list DependencyEdge) : Prop := {
  ex_needed : ∀ c, c ∈ all ↔ needed c;
  ex_sorted : StronglySorted key_lt (c_id <$> all);
  ex_edges : ∀ a b, mkDep a b ∈ edges ↔ depends a b;
  ex_permitted : ∀ c, needed c → permitted policy (c_id c) c;
  ex_registered : ∀ c id, needed c → id ∈ c_dependencies c → is_Some (reg_get reg id);
}.

Lemma expand_dependencies_spec :
  match expand_dependencies reg roots policy with
  | Ok (all, edges) => expanded all edges
  | Err _ => ¬ closure_ok
  end.
Proof using Hwf LawfulRegistry0 Hroot Hroots Hnd.
  unfold expand_dependencies. pose proof add_roots_spec as Hr.
  destruct (try_fold _ _ _) as [[m queue]|]; csimpl; [|done]. destruct Hr as (-> & Hm & Hp).
  assert (Hi : loop_inv [] (mkExpansion m [] (c_id <$> roots) (list_to_set (c_id <$> roots)))).
  { assert (Hdom : ∀ id, is_Some (m !! id) ↔ id ∈ c_id <$> roots).
    { intros id. rewrite list_elem_of_fmap. split.
      - intros [c [Hc <-]%Hm]. eauto.
      - intros (c & -> & Hc). exists c. by apply Hm. }
    split; csimpl.
    - intros id c [Hc <-]%Hm. split_and!; [by apply Hroots| |by apply Hp].
      exists c. split; [by apply Hroot|apply rtc_refl].
    - intros c Hc. by apply Hm.
    - done.
    - done.
    - intros id. rewrite elem_of_list_to_set. by rewrite Hdom.
    - intros a b. rewrite elem_of_nil. split; [done|]. by intros [?%elem_of_nil _].
    - by intros a b [?%elem_of_nil _]. }
  pose proof (expand_loop_spec (expand_fuel reg roots) [] _ ltac:(unfold expand_fuel; csimpl; lia) Hi) as Hl.
  destruct (expand_loop _ _ _ _) as [x|]; csimpl; [|done]. destruct Hl as (popped & Hx & Hq).
  pose proof (λ c, loop_closed popped x c Hx Hq) as Hcl.
  assert (Hid : ∀ id c, result_map x !! id = Some c → c_id c = id).
  { intros id c Hc%(xi_sound _ _ _ Hx). by apply (get_registered id c), Hc. }
  assert (Hin : ∀ c, c ∈ map_values (result_map x) ↔ needed c).
  { intros c. rewrite elem_of_map_values, <- Hcl. split; [|eauto].
    intros [id Hc]. by rewrite (Hid id c Hc). }
  split.
  - intros c. by rewrite elem_of_sort_by.
  - apply (registry_values_sorted (result_map x) Hid).
  - intros a b. rewrite (xi_edges _ _ _ Hx). unfold depends, declared. split.
    + intros [Ha (c & Hc & Hb)]. exists c. destruct (get_registered a c Hc) as [_ <-].
      split_and!; [|done..].
      assert (is_Some (result_map x !! c_id c)) as [d Hd]
        by (apply (xi_dom _ _ _ Hx), elem_of_app; by left).
      destruct (xi_sound _ _ _ Hx _ _ Hd) as (Hd' & Hn & _). congruence.
    + intros (c & Hn & <- & Hb). pose proof (proj2 (Hcl c) Hn) as Hm'. split.
      * rewrite <- (app_nil_r popped), <- Hq. apply (xi_dom _ _ _ Hx). eauto.
      * exists c. split; [by apply needed_registered|done].
  - intros c Hn%Hcl. by apply (xi_sound _ _ _ Hx).
  - intros c id Hn Hid'. pose proof (proj2 (Hcl c) Hn) as Hm'.
    destruct (xi_closed _ _ _ Hx (c_id c) id) as [d Hd].
    { split.
      - rewrite <- (app_nil_r popped), <- Hq. apply (xi_dom _ _ _ Hx). eauto.
      - exists c. split; [by apply needed_registered|done]. }
    apply (xi_sound _ _ _ Hx) in Hd as [Hd _]. eauto.
Qed.
End expand.

(** ** The roots *)
Section roots.
Context (s : CapabilityResolver (R := R) (C := C)) (reqs : RequirementSet).
Context (Hwf : wf (registry s)).

Definition version_root (vcs : list VersionConstraint) (c : CapabilityContract) : Prop :=
  ∃ vc, vc ∈ vcs ∧ resolve_version (registry s) vc = Ok c.
Definition named_root (ids : list CapabilityId) (c : CapabilityContract) : Prop :=
  ∃ id, id ∈ ids ∧ reg_get (registry s) (target_of (aliases s) id) = Some c.
Definition root (c : CapabilityContract) : Prop :=
  (version_root (version_constraints reqs) c ∨ named_root (required_capabilities reqs) c) ∨
  named_root (optional_capabilities reqs) c.

Definition required_ok (id : CapabilityId) : Prop :=
  ∃ c, reg_get (registry s) (target_of (aliases s) id) = Some c ∧
    permitted (rs_policy reqs) id c ∧
    ∀ max, max_acceptable_latency_ms reqs = Some max → c_estimated_latency_ms c ≤ max.

(** The requirements a resolver accepts: every version constraint has a
    candidate, every required capability is registered, permitted and fast
    enough, the optional ones that exist are permitted, and the closure under
    dependencies is registered, permitted, free of cycles and of broad grants. *)
Record admissible : Prop := {
  ad_versions : ∀ vc, vc ∈ version_constraints reqs → candidates (registry s) vc ≠ [];
  ad_required : ∀ id, id ∈ required_capabilities reqs → required_ok id;
  ad_optional : ∀ id c, id ∈ optional_capabilities reqs →
    reg_get (registry s) (target_of (aliases s) id) = Some c → permitted (rs_policy reqs) id c;
  ad_closure : closure_ok (registry s) (rs_policy reqs) root;
  ad_grants : ∀ c p, needed (registry s) root c → p ∈ c_permissions c → ¬ broad p;
}.

Lemma resolve_version_spec vc :
  match resolve_version (registry s) vc with
  | Ok c => candidates (registry s) vc ≠ [] ∧ registered (registry s) c ∧
      c ∈ candidates (registry s) vc ∧
      ∀ d, d ∈ candidates (registry s) vc → version_leb (c_version d) (c_version c) = true
  | Err _ => candidates (registry s) vc = []
  end.
Proof using Hwf LawfulRegistry0.
  clear reqs. unfold resolve_version.
  set (leb := λ a b : CapabilityContract, version_leb (c_version b) (c_version a)).
  pose proof (sort_by_perm leb (candidates (registry s) vc)) as Hp.
  pose proof (sort_by_sorted leb (λ a b, version_leb_total _ _)
    (λ a b c H1 H2, version_leb_trans _ _ _ H2 H1) (candidates (registry s) vc)) as Hs.
  destruct (sort_by leb _) as [|c l]; [by apply Permutation_nil in Hp|].
  assert (Hc : c ∈ candidates (registry s) vc) by (rewrite <- Hp; set_solver). split_and!.
  - intros Hn. rewrite Hn in Hc. by apply elem_of_nil in Hc.
  - unfold candidates in Hc. rewrite !list_elem_of_filter in Hc. destruct Hc as (_ & _ & Hc).
    by apply (reg_list_get (registry s)) in Hc.
  - done.
  - intros d Hd. rewrite <- Hp in Hd. apply elem_of_cons in Hd as [->|Hd].
    + by destruct (version_leb_total (c_version c) (c_version c)).
    + inversion Hs as [|? ? _ Hall]; subst. rewrite Forall_forall in Hall. by apply Hall.
Qed.

Record acc_ok (P : CapabilityContract → Prop) (acc : list CapabilityInstance * gset CapabilityId)
    : Prop := {
  ac_in : ∀ c, c ∈ i_contract <$> acc.1 ↔ P c;
  ac_nodup : NoDup (c_id <$> (i_contract <$> acc.1));
  ac_visited : ∀ id, id ∈ acc.2 ↔ id ∈ c_id <$> (i_contract <$> acc.1);
  ac_registered : ∀ c, P c → registered (registry s) c;
}.

Lemma push_acc P Q acc c :
  acc_ok P acc → registered (registry s) c → (∀ x, Q x ↔ P x ∨ c = x) →
  acc_ok Q (push_instance acc c).
Proof using Type.
  intros [Hin Hnd Hv Hr] Hc HQ. unfold push_instance. case_decide as Hd.
  - assert (P c) as HPc.
    { apply Hv, list_elem_of_fmap in Hd as (d & Hid & Hd%Hin).
      apply Hr in Hd as Hd'. unfold registered in *. rewrite <- Hid in Hd'.
      rewrite Hc in Hd'. by simplify_eq. }
    split; [|done..|]; intros x; rewrite HQ; [rewrite Hin|]; naive_solver.
  - split; csimpl.
    + intros x. rewrite fmap_app, elem_of_app, Hin, HQ; csimpl. rewrite list_elem_of_singleton.
      naive_solver.
    + rewrite !fmap_app; csimpl. apply NoDup_app. split_and!; [done| |apply NoDup_singleton].
      intros id Hid%Hv ->%list_elem_of_singleton. done.
    + intros id. rewrite !fmap_app, elem_of_app, elem_of_union, elem_of_singleton, Hv; csimpl.
      rewrite list_elem_of_singleton. tauto.
    + intros x. rewrite HQ. naive_solver.
Qed.

Lemma version_root_snoc pre vc c x :
  resolve_version (registry s) vc = Ok c →
  version_root (pre ++ [vc]) x ↔ version_root pre x ∨ c = x.
Proof using Type.
  intros Hc. split.
  - intros (y & [?| ->%list_elem_of_singleton]%elem_of_app & ?); [left; by exists y|].
    right. congruence.
  - intros [(y & ? & ?)| <-]; [exists y|exists vc]; rewrite elem_of_app, list_elem_of_singleton; auto.
Qed.
Lemma named_root_snoc pre id c x :
  reg_get (registry s) (target_of (aliases s) id) = Some c →
  named_root (pre ++ [id]) x ↔ named_root pre x ∨ c = x.
Proof using Type.
  intros Hc. split.
  - intros (y & [?| ->%list_elem_of_singleton]%elem_of_app & ?); [left; by exists y|].
    right. congruence.
  - intros [(y & ? & ?)| <-]; [exists y|exists id]; rewrite elem_of_app, list_elem_of_singleton; auto.
Qed.
Lemma root_needed c : root c → needed (registry s) root c.
Proof using Type. intros Hc. exists c. split; [done|apply rtc_refl]. Qed.

Lemma resolve_constraints_spec :
  match try_fold (resolve_constraint s reqs) ([], ∅) (version_constraints reqs) with
  | Ok acc => acc_ok (version_root (version_constraints reqs)) acc ∧
      ∀ vc, vc ∈ version_constraints reqs → candidates (registry s) vc ≠ []
  | Err _ => ¬ admissible
  end.
Proof using Hwf LawfulRegistry0.
  apply (try_fold_inv _ (λ pre acc, acc_ok (version_root pre) acc ∧
    ∀ vc, vc ∈ pre → candidates (registry s) vc ≠ [])).
  { split; [|set_solver]. split; csimpl; [|constructor|set_solver|]; unfold version_root;
      [intros c|by intros c (vc & ?%elem_of_nil & _)].
    rewrite elem_of_nil. split; [done|]. by intros (vc & ?%elem_of_nil & _). }
  intros pre vc acc Hvc [Hacc Hcs]. unfold resolve_constraint.
  pose proof (resolve_version_spec vc) as Hv.
  destruct (resolve_version (registry s) vc) as [c|] eqn:Hc; csimpl; cycle 1.
  { intros Had. by apply (ad_versions Had vc). }
  destruct Hv as (Hne & Hreg & _).
  pose proof (check_policy_spec (rs_policy reqs) (c_id c) c) as Hp.
  destruct (check_policy _ _ _) as [[]|]; csimpl; cycle 1.
  { intros Had. apply Hp, (cl_permitted _ _ _ (ad_closure Had)), root_needed. left; left.
    by exists vc. }
  split; [|set_solver]. eapply push_acc; [done..|]. intros x. by apply version_root_snoc.
Qed.

Lemma check_latency_spec c :
  match check_latency reqs c with
  | Ok _ => ∀ max, max_acceptable_latency_ms reqs = Some max → c_estimated_latency_ms c ≤ max
  | Err _ => ¬ ∀ max, max_acceptable_latency_ms reqs = Some max → c_estimated_latency_ms c ≤ max
  end.
Proof using Type.
  unfold check_latency. destruct (max_acceptable_latency_ms reqs) as [m|]; [|done].
  destruct (m <? c_estimated_latency_ms c)%Z eqn:Hm.
  - intros Hall. specialize (Hall m eq_refl). lia.
  - intros max [= <-]. lia.
Qed.

Lemma resolve_requireds_spec P acc0 :
  acc_ok P acc0 →
  match try_fold (resolve_required s reqs) acc0 (required_capabilities reqs) with
  | Ok acc => acc_ok (λ c, P c ∨ named_root (required_capabilities reqs) c) acc ∧
      ∀ id, id ∈ required_capabilities reqs → required_ok id
  | Err _ => ¬ admissible
  end.
Proof using Hwf LawfulRegistry0.
  intros Hacc0. apply (try_fold_inv _ (λ pre acc, acc_ok (λ c, P c ∨ named_root pre c) acc ∧
    ∀ id, id ∈ pre → required_ok id)).
  { split; [|set_solver].
    assert (∀ c, P c ∨ named_root [] c ↔ P c) as Heq.
    { intros c. split; [|tauto]. intros [?|(id & ?%elem_of_nil & _)]; done. }
    split; [intros c|apply Hacc0..|intros c]; rewrite Heq; apply Hacc0. }
  intros pre id acc Hid [Hacc Hok]. unfold resolve_required.
  assert (Hbad : ¬ required_ok id → ¬ admissible) by (intros Hb Had; by apply Hb, (ad_required Had)).
  destruct (reg_get _ _) as [c|] eqn:Hc; csimpl; [|apply Hbad; intros (c & ? & _); congruence].
  pose proof (check_policy_spec (rs_policy reqs) id c) as Hp.
  destruct (check_policy _ _ _) as [[]|]; csimpl;
    [|apply Hbad; intros (d & ? & ? & _); simplify_eq; congruence].
  pose proof (check_latency_spec c) as Hl.
  destruct (check_latency _ _) as [[]|]; csimpl;
    [|apply Hbad; intros (d & ? & _ & ?); simplify_eq; congruence].
  split.
  - eapply push_acc; [done| |].
    + by apply (get_registered (registry s) Hwf (target_of (aliases s) id)).
    + intros x. rewrite (named_root_snoc pre id c x Hc). tauto.
  - intros id' [?| ->%list_elem_of_singleton]%elem_of_app; [by apply Hok|]. by exists c.
Qed.

Lemma resolve_optionals_spec P acc0 :
  acc_ok P acc0 →
  match try_fold (resolve_optional s reqs) acc0 (optional_capabilities reqs) with
  | Ok acc => acc_ok (λ c, P c ∨ named_root (optional_capabilities reqs) c) acc ∧
      ∀ id c, id ∈ optional_capabilities reqs →
        reg_get (registry s) (target_of (aliases s) id) = Some c → permitted (rs_policy reqs) id c
  | Err _ => ¬ admissible
  end.
Proof using Hwf LawfulRegistry0.
  intros Hacc0. apply (try_fold_inv _ (λ pre acc, acc_ok (λ c, P c ∨ named_root pre c) acc ∧
    ∀ id c, id ∈ pre → reg_get (registry s) (target_of (aliases s) id) = Some c →
      permitted (rs_policy reqs) id c)).
  { split; [|set_solver].
    assert (∀ c, P c ∨ named_root [] c ↔ P c) as Heq.
    { intros c. split; [|tauto]. intros [?|(id & ?%elem_of_nil & _)]; done. }
    split; [intros c|apply Hacc0..|intros c]; rewrite Heq; apply Hacc0. }
  intros pre id acc Hid [Hacc Hok]. unfold resolve_optional.
  destruct (reg_get _ _) as [c|] eqn:Hc; csimpl; cycle 1.
  { assert (∀ x, named_root (pre ++ [id]) x ↔ named_root pre x) as Heq.
    { intros x. split; intros (y & Hy & Hx); [|exists y; rewrite elem_of_app; auto].
      apply elem_of_app in Hy as [?| ->%list_elem_of_singleton]; [by exists y|congruence]. }
    split; [split; [intros x|apply Hacc..|intros x]; rewrite Heq; apply Hacc|].
    intros id' x [?| ->%list_elem_of_singleton]%elem_of_app; [by apply Hok|congruence]. }
  pose proof (check_policy_spec (rs_policy reqs) id c) as Hp.
  destruct (check_policy _ _ _) as [[]|]; csimpl;
    [|intros Had; by apply Hp, (ad_optional Had)].
  split.
  - eapply push_acc; [done| |].
    + by apply (get_registered (registry s) Hwf (target_of (aliases s) id)).
    + intros x. rewrite (named_root_snoc pre id c x Hc). tauto.
  - intros id' x [?| ->%list_elem_of_singleton]%elem_of_app Hx; [by apply Hok|]. rewrite Hc in Hx. by simplify_eq.
Qed.

Lemma resolve_roots_spec :
  match resolve_roots s reqs with
  | Ok insts => acc_ok root (insts, list_to_set (c_id <$> (i_contract <$> insts))) ∧
      (∀ vc, vc ∈ version_constraints reqs → candidates (registry s) vc ≠ []) ∧
      (∀ id, id ∈ required_capabilities reqs → required_ok id) ∧
      ∀ id c, id ∈ optional_capabilities reqs →
        reg_get (registry s) (target_of (aliases s) id) = Some c → permitted (rs_policy reqs) id c
  | Err _ => ¬ admissible
  end.
Proof using Hwf LawfulRegistry0.
  unfold resolve_roots.
  destruct (match rs_policy reqs with Some _ => _ | None => _ end) as [[]|e] eqn:Hpre; csimpl; cycle 1.
  { destruct (rs_policy reqs) as [p|] eqn:Hpol; [|done].
    apply try_for_each_err in Hpre as (id & Hid & He). unfold precheck in He.
    destruct (reg_get _ _) as [c|] eqn:Hc; [|done]. intros Had.
    destruct (ad_required Had id Hid) as (d & Hd & Hperm & _). simplify_eq.
    pose proof (check_policy_spec (Some p) id c) as Hp. simpl in Hp. rewrite He in Hp.
    apply Hp. by rewrite <- Hpol. }
  clear Hpre. pose proof resolve_constraints_spec as H1.
  destruct (try_fold _ _ (version_constraints reqs)) as [acc1|]; csimpl; [|done].
  destruct H1 as [H1 Hv]. apply resolve_requireds_spec in H1.
  destruct (try_fold _ acc1 _) as [acc2|]; csimpl; [|done].
  destruct H1 as [H1 Hr]. apply resolve_optionals_spec in H1.
  destruct (try_fold _ acc2 _) as [acc3|]; csimpl; [|done].
  destruct H1 as [H1 Ho]. split_and!; [|done..].
  split; [apply H1..| |apply H1]. csimpl. intros id. by rewrite elem_of_list_to_set.
Qed.

(** ** Resolution *)

(** What a successful resolution returns: the needed contracts in the order of
    their identifiers, each permitted, and a valid graph over them whose edges
    are their dependencies. *)
Record resolution (r : ResolvedCapabilitySet) : Prop := {
  rn_instances : ∀ c, mkInstance c (JObject []) ∈ rs_instances r ↔ needed (registry s) root c;
  rn_sorted : StronglySorted key_lt ((λ i, c_id (i_contract i)) <$> rs_instances r);
  rn_nodes : ∀ id c, cg_nodes (rs_graph r) !! id = Some c ↔
    needed (registry s) root c ∧ c_id c = id;
  rn_edges : ∀ a b, mkDep a b ∈ cg_dependencies (rs_graph r) ↔ depends (registry s) root a b;
  rn_valid : graph_ok (rs_graph r);
  rn_permitted : ∀ i, i ∈ rs_instances r →
    permitted (rs_policy reqs) (c_id (i_contract i)) (i_contract i);
}.

Lemma resolve_graph_ok all edges r :
  expanded (registry s) (rs_policy reqs) root all edges →
  (∀ id c, cg_nodes (rs_graph r) !! id = Some c ↔ needed (registry s) root c ∧ c_id c = id) →
  cg_dependencies (rs_graph r) = edges → cg_conflicts (rs_graph r) = [] →
  graph_ok (rs_graph r) ↔
  (∀ c p, needed (registry s) root c → p ∈ c_permissions c → ¬ broad p) ∧
  ∀ id, ¬ tc (depends (registry s) root) id id.
Proof using Hwf LawfulRegistry0.
  intros Hex Hn He Hc.
  assert (Hhas : ∀ id, has_node (rs_graph r) id ↔ ∃ c, needed (registry s) root c ∧ c_id c = id).
  { intros id. unfold has_node, is_Some. by setoid_rewrite Hn. }
  assert (Hto : ∀ a b, depends (registry s) root a b → has_node (rs_graph r) b).
  { intros a b (c & Hneed & _ & Hb). apply Hhas.
    destruct (ex_registered _ _ _ _ _ Hex c b Hneed Hb) as [d Hd]. exists d. split.
    - by eapply needed_dep.
    - by apply (get_registered (registry s) Hwf). }
  assert (Hrb : ∀ a b, runs_before (rs_graph r) a b ↔ depends (registry s) root b a).
  { intros a b. unfold runs_before. rewrite He, (ex_edges _ _ _ _ _ Hex). split; [tauto|].
    intros Hd. split_and!; [done|by eapply Hto|]. apply Hhas. destruct Hd as (c & ? & ? & _). eauto. }
  assert (Hcyc : (∀ v, ¬ tc (runs_before (rs_graph r)) v v) ↔
    ∀ id, ¬ tc (depends (registry s) root) id id).
  { apply forall_proper. intros v. apply not_iff_compat.
    rewrite (tc_iff _ (flip (depends (registry s) root)) v v) by (intros; apply Hrb).
    split; apply tc_of_flip. }
  split.
  - intros [Hg _ _ Ha]. split; [|by apply Hcyc]. intros c p Hneed. apply (Hg (c_id c)). by apply Hn.
  - intros [Hg Ha]. split.
    + intros id c p [Hneed _]%Hn. by apply Hg.
    + intros e. rewrite Hc. by intros ?%elem_of_nil.
    + intros [a b]. rewrite He, (ex_edges _ _ _ _ _ Hex). intros Hab _. by apply (Hto a).
    + by apply Hcyc.
Qed.

Lemma resolve_fresh_spec :
  match resolve_fresh s reqs with
  | Ok r => admissible ∧ resolution r
  | Err _ => ¬ admissible
  end.
Proof using Hwf LawfulRegistry0.
  unfold resolve_fresh. pose proof resolve_roots_spec as Hr.
  destruct (resolve_roots s reqs) as [insts|]; csimpl; [|done].
  destruct Hr as (Hacc & Hv & Hreq & Hopt).
  pose proof (expand_dependencies_spec (registry s) Hwf (rs_policy reqs) root
    (i_contract <$> insts) (ac_in _ _ Hacc)
    (λ c Hc, ac_registered _ _ Hacc c (proj1 (ac_in _ _ Hacc c) Hc)) (ac_nodup _ _ Hacc)) as Hex.
  destruct (expand_dependencies _ _ _) as [[all edges]|]; csimpl;
    [|intros Had; by apply Hex, (ad_closure Had)].
  assert (Hnd : NoDup (c_id <$> all)).
  { apply key_sorted_NoDup, (ex_sorted _ _ _ _ _ Hex). }
  destruct (rebuild_spec all edges Hnd) as (m & Heq & Hm). rewrite Heq.
  set (r := mkResolved _ _). assert (Hnodes : ∀ id c, cg_nodes (rs_graph r) !! id = Some c ↔
    needed (registry s) root c ∧ c_id c = id).
  { intros id c. csimpl. by rewrite Hm, (ex_needed _ _ _ _ _ Hex). }
  pose proof (resolve_graph_ok all edges r Hex Hnodes eq_refl eq_refl) as Hg.
  destruct (graph_validate (rs_graph r)) as [[]|e] eqn:Hval; csimpl; cycle 1.
  { intros Had. assert (graph_validate (rs_graph r) = Ok tt); [|congruence].
    apply graph_validate_spec, Hg. split; [apply (ad_grants Had)|apply (cl_acyclic _ _ _ (ad_closure Had))]. }
  apply graph_validate_spec in Hval. apply Hg in Hval as Hval'. destruct Hval' as [Hgr Hac].
  assert (Hcl : closure_ok (registry s) (rs_policy reqs) root) by (split; [apply Hex..|done]).
  assert (Hin : ∀ i, i ∈ (λ c, mkInstance c (JObject [])) <$> all →
    permitted (rs_policy reqs) (c_id (i_contract i)) (i_contract i)).
  { intros i (c & -> & Hc)%list_elem_of_fmap. csimpl. by apply Hex, (ex_needed _ _ _ _ _ Hex). }
  destruct (try_for_each _ _) as [[]|e] eqn:Hpol; csimpl; cycle 1.
  { apply try_for_each_err in Hpol as (i & Hi & He). exfalso.
    pose proof (check_policy_spec (rs_policy reqs) (c_id (i_contract i)) (i_contract i)) as Hp.
    rewrite He in Hp. by apply Hp, Hin. }
  split; [by split|]. split; [..|done|done]; csimpl.
  - intros c. rewrite <- (ex_needed _ _ _ _ _ Hex), list_elem_of_fmap. split.
    + by intros (d & [= ->] & ?).
    + intros Hc. by exists c.
  - rewrite <- list_fmap_compose. apply (ex_sorted _ _ _ _ _ Hex).
  - done.
  - apply (ex_edges _ _ _ _ _ Hex).
Qed.
End roots.

(** C11. A resolution succeeds exactly when the requirements are admissible. It then
    returns the dependency closure of the capabilities that were required,
    available as optional or selected by a version constraint: one instance per
    capability in the order of the identifiers, every one of them permitted by
    the policy, with a graph that validates. Nothing the requirements do not
    need is returned, and no other error can occur. *)
Theorem resolve_exact (s : CapabilityResolver) (reqs : RequirementSet) :
  wf (registry s) →
  match resolve_fresh s reqs with
  | Ok r => admissible s reqs ∧ resolution s reqs r
  | Err _ => ¬ admissible s reqs
  end.
Proof using LawfulRegistry0. intros Hwf. by apply resolve_fresh_spec. Qed.

(** ** The cache *)
Definition cache_sound (s : CapabilityResolver (R := R) (C := C)) : Prop :=
  ∀ k r, cache_get (cache s) k = Some r → resolve_fresh s k = Ok r.

(** A session: the answers to a sequence of requests. *)
Fixpoint resolve_all (reqs : list RequirementSet) (s : CapabilityResolver (R := R) (C := C))
    : list (result ResolverError ResolvedCapabilitySet) :=
  match reqs with
  | [] => []
  | q :: reqs => let '(a, s) := resolve q s in a :: resolve_all reqs s
  end.

Context `{!LawfulCache C}.

Lemma resolve_cached (s : CapabilityResolver (R := R) (C := C)) reqs :
  cache_sound s →
  (resolve reqs s).1 = resolve_fresh s reqs ∧ cache_sound (resolve reqs s).2 ∧
  registry (resolve reqs s).2 = registry s ∧ aliases (resolve reqs s).2 = aliases s.
Proof using LawfulCache0.
  intros Hs. unfold resolve. destruct (cache_get (cache s) reqs) as [r|] eqn:Hc.
  { by rewrite (Hs reqs r Hc). }
  destruct (resolve_fresh s reqs) as [r|] eqn:Hf; csimpl; [|done].
  split_and!; [done| |done..]. intros k r' Hk. csimpl in Hk.
  destruct (decide (reqs = k)) as [<-|Hne].
  - rewrite cache_get_put in Hk. by simplify_eq.
  - by apply cache_get_put_ne, Hs in Hk.
Qed.

(** The cache is transparent: every answer of a resolver whose cache holds
    only its own results is the answer of a resolution without the cache,
    whatever the cache evicts. *)
Theorem resolve_transparent (s : CapabilityResolver) reqs :
  cache_sound s → resolve_all reqs s = resolve_fresh s <$> reqs.
Proof using LawfulCache0.
  revert s. induction reqs as [|q reqs IH]; intros s Hs; [done|].
  cbn [resolve_all]. destruct (resolve_cached s q Hs) as (H1 & H2 & H3 & H4).
  destruct (resolve q s) as [a s']; csimpl in *. rewrite H1, IH by done. f_equal.
  destruct s, s'; csimpl in *. by subst.
Qed.
End resolution.

(** ** The in-memory store *)
Section memory_store.
Context `{SemVer} `{!HashIter RequirementSet}.
Notation InMemoryStore := (gmap RequirementSet ResolvedCapabilitySet).

#[global] Instance memory_store_lawful : LawfulCache InMemoryStore.
Proof.
  split; csimpl.
  - intros s k v n. apply lookup_insert_eq.
  - intros s k k' v v' n Hne. unfold store_put; cbv zeta. rewrite lookup_insert_ne by done.
    case_match; [|done]. destruct (head (map_keys s)) as [d|]; [|done].
    by intros [_ ?]%lookup_delete_Some.
  - intros s k. apply lookup_empty.
Qed.

Lemma size_insert_le k v (s : InMemoryStore) : (size (<[k := v]> s) <= S (size s))%nat.
Proof. rewrite map_size_insert. destruct (s !! k); simpl; lia. Qed.

Lemma store_put_size k v n (s : InMemoryStore) :
  (size s <= max 1 n)%nat → (size (store_put k v n s) <= max 1 n)%nat.
Proof.
  intros Hs. unfold store_put; cbv zeta. destruct (n <=? size s)%nat eqn:Hn.
  - apply Nat.leb_le in Hn. destruct (head (map_keys s)) as [d|] eqn:Hd.
    + assert (is_Some (s !! d)) as [x Hx].
      { apply elem_of_map_keys. destruct (map_keys s); simplify_eq/=. set_solver. }
      pose proof (map_size_delete_Some d s (ex_intro _ x Hx)).
      assert (size s ≠ 0%nat) by (apply map_size_non_empty_iff; intros ->; by rewrite lookup_empty in Hx).
      pose proof (size_insert_le k v (delete d s)). lia.
    + assert (size s = 0%nat) as Hz.
      { rewrite <- length_map_keys. by destruct (map_keys s). }
      apply map_size_empty_inv in Hz as ->. rewrite insert_empty, map_size_singleton. lia.
  - apply Nat.leb_gt in Hn. pose proof (size_insert_le k v s). lia.
Qed.
End memory_store.

(** ** Examples *)

(** A version scheme to run the resolver with: one number, matched exactly. *)
#[local] Instance one_number : SemVer := {|
  Version := N; VersionReq := N;
  version_leb a b := (a <=? b)%N;
  version_leb_total := N_leb_total;
  version_leb_trans := N_leb_trans;
  req_matches r v := (r =? v)%N;
  req_to_string r := pretty r;
|}.
#[local] Instance string_order : HashIter string := map_to_list_iter string.
#[local] Instance requirement_order : HashIter RequirementSet := map_to_list_iter RequirementSet.

Definition sample (id : CapabilityId) (deps : list CapabilityId) : CapabilityContract :=
  mkContract id (1%N : Version (SemVer := one_number)) "" JNull JNull [] deps (from_nanos 5) 10
    (SpecFloat.S754_zero false) false [].

Definition sample_registry : InMemoryCapabilityRegistry :=
  registry_run [OpRegister (sample "search" ["fetch"]); OpRegister (sample "fetch" []);
                OpRegister (sample "echo" []); OpFreeze].
Definition sample_resolver : CapabilityResolver :=
  mkResolver sample_registry (∅ : gmap RequirementSet ResolvedCapabilitySet) 100 ∅.

Definition resolved_ids (r : ResolvedCapabilitySet) : list CapabilityId :=
  (λ i, c_id (i_contract i)) <$> rs_instances r.

Lemma resolve_exact_witness :
  registry_wf sample_registry ∧
  (∃ r, resolve_fresh sample_resolver (requirements_new ["search"]) = Ok r ∧
    resolved_ids r = ["fetch"; "search"] ∧
    admissible sample_resolver (requirements_new ["search"]) ∧
    resolution sample_resolver (requirements_new ["search"]) r).
Proof.
  pose proof (registry_wf_new [OpRegister (sample "search" ["fetch"]);
    OpRegister (sample "fetch" []); OpRegister (sample "echo" []); OpFreeze]) as Hwf.
  split; [exact Hwf|].
  pose proof (resolve_exact (wf := registry_wf) sample_resolver (requirements_new ["search"]) Hwf) as Hr.
  assert (Hids : resolved_ids <$> resolve_fresh sample_resolver (requirements_new ["search"]) =
    Ok ["fetch"; "search"]) by (vm_compute; reflexivity).
  destruct (resolve_fresh sample_resolver (requirements_new ["search"])) as [r|e]; [|discriminate Hids].
  exists r. split; [reflexivity|]. split; [|exact Hr]. injection Hids as Hids. exact Hids.
Defined.

Lemma resolve_transparent_witness :
  cache_sound sample_resolver ∧
  is_ok <$> resolve_all [requirements_new ["search"]; requirements_new ["nothing"];
    requirements_new ["search"]] sample_resolver = [true; false; true].
Proof.
  assert (Hs : cache_sound sample_resolver) by (intros k r Hk; vm_compute in Hk; discriminate Hk).
  split; [exact Hs|].
  rewrite (resolve_transparent sample_resolver [requirements_new ["search"];
    requirements_new ["nothing"]; requirements_new ["search"]] Hs).
  vm_compute. reflexivity.
Defined.

(** Registering an alias does not touch the cache: a requirement answered
    before the alias is answered the same way after it, although the resolver
    would now resolve it to another capability. *)
Theorem alias_leaves_stale_entry :
  let s1 := (resolve (requirements_new ["echo"]) sample_resolver).2 in
  let s2 := register_alias "echo" "fetch" s1 in
  resolved_ids <$> (resolve (requirements_new ["echo"]) s2).1 = Ok ["echo"] ∧
  resolved_ids <$> resolve_fresh s2 (requirements_new ["echo"]) = Ok ["fetch"].
Proof. vm_compute. split; reflexivity. Qed.

(** [max_cost] is part of the requirements but no resolution consults it. *)
Lemma max_cost_ignored `{SemVer} `{!HashIter string} {R C : Type} `{!CapabilityRegistry R}
    (s : CapabilityResolver (R := R) (C := C)) reqs cost :
  resolve_fresh s reqs =
  resolve_fresh s (mkRequirements (required_capabilities reqs) (optional_capabilities reqs)
    (version_constraints reqs) (max_acceptable_latency_ms reqs) cost (rs_policy reqs)).
Proof. reflexivity. Qed.
