(* ===== verification/Planner.v ===== *)
(** * The intent planner ([crates/fusion-planner/src/lib.rs],
      [planning_request.rs])

    [IntentPlanner::plan] turns a request snapshot into a sequential workflow:
    it chooses the stages, resolves a model per stage, and drives the workflow
    builder. The version-5 UUID of the request's identity string and
    [serde_json::to_string] are third-party code and parameters. *)
From S2P Require Import Prelude Text Json Money Graphs ExecTypes WorkflowIr WorkflowIrProps.
From Stdlib Require Import Floats.SpecFloat.
Open Scope stdpp_scope.
Open Scope Z_scope.

(** ** Requests *)
Inductive ExecutionIntent :=
| Quality | Speed | Balanced | Exhaustive | Constrained (max_cost : option NanoUSD).

Record PolicyDeclarationSnapshot := mkPolicyDecl {
  decl_id : string; decl_name : string; decl_rule : string }.
Record PolicySnapshot := mkPolicySnapshot {
  ps_version : Z;
  ps_policies : list PolicyDeclarationSnapshot;
  ps_created_at : Z;
}.
Record RoutingTelemetrySnapshot := mkTelemetry {
  avg_latency_ms : Z;
  error_rate : spec_float;
  healthy_provider_count : Z;
}.
Record RequirementsSnapshot := mkRequirementsSnapshot {
  complexity : string;
  execution_intent : option ExecutionIntent;
  rq_required_capabilities : list string;
}.
Record PlanningRequest := mkRequest {
  intent : ExecutionIntent;
  user_prompt : string;
  requested_model : option string;
  requested_strategy : option string;
  strategy_config : option (list (string * json));
  requirements : RequirementsSnapshot;
  policies : PolicySnapshot;
  capability_catalog : gmap string (list string);
  model_catalog : ModelCatalog;
  telemetry : RoutingTelemetrySnapshot;
}.

Inductive PlatformError :=
| PlannerError (code message recovery_suggestion : string).

Definition default_policies : PolicySnapshot := mkPolicySnapshot 0 [] 0.
Definition default_requirements : RequirementsSnapshot := mkRequirementsSnapshot "" None [].
Definition default_telemetry : RoutingTelemetrySnapshot := mkTelemetry 0 (S754_zero false) 0.
Definition default_catalog : ModelCatalog := mkCatalog "" "" "" "" "" "" "" "".

(** ** The stages *)
Record Stage := mkStage {
  st_id : string;
  st_kind : WorkflowNodeKind;
  st_capability : string;
  st_strategy : string;
}.

Definition default_capabilities (i : ExecutionIntent) : list string :=
  match i with
  | Speed => ["CodeGeneration"]
  | Balanced => ["CodeGeneration"; "CodeGeneration"; "CodeReview"]
  | Quality =>
      ["CodeGeneration"; "CodeReview"; "CodeGeneration"; "CodeReview"; "CodeGeneration"]
  | Exhaustive =>
      ["CodeGeneration"; "CodeReview"; "CodeGeneration"; "CodeReview"; "CodeGeneration"; "Judgment"]
  | Constrained max_cost =>
      match max_cost with
      | Some c => if (20000000 <=? as_nanos c)%Z
                  then ["CodeGeneration"; "CodeGeneration"; "CodeReview"]
                  else ["CodeGeneration"]
      | None => ["CodeGeneration"]
      end
  end.

(** [capabilities.len().max(1)] *)
Definition at_least_one (caps : list string) : Z := Z.max (Z.of_nat (length caps)) 1.

Definition intent_limit (i : ExecutionIntent) (caps : list string) : Z :=
  match i with
  | Speed => 1
  | Constrained (Some c) => if (as_nanos c <? 20000000)%Z then 1 else at_least_one caps
  | _ => at_least_one caps
  end.
Definition telemetry_limit (t : RoutingTelemetrySnapshot) (caps : list string) : Z :=
  if (healthy_provider_count t =? 0)%Z then at_least_one caps else healthy_provider_count t.

Definition kind_of_capability (capability : string) : WorkflowNodeKind :=
  if str_contains "review" (to_ascii_lowercase capability) then Review else Task.

(** [format!("n{}", i + 1)] *)
Definition stage_id (i : nat) : string := "n" +:+ pretty (N.of_nat (S i)).

Definition stages_of (req : PlanningRequest) : list Stage :=
  match requested_strategy req with
  | Some strat =>
      [mkStage "n1" Task
         (default "CodeGeneration" (head (rq_required_capabilities (requirements req)))) strat]
  | None =>
      let required := rq_required_capabilities (requirements req) in
      let caps := if decide (required = []) then default_capabilities (intent req) else required in
      let limit := Z.min (intent_limit (intent req) caps) (telemetry_limit (telemetry req) caps) in
      imap (λ i c, mkStage (stage_id i) (kind_of_capability c) c "Single")
        (take (Z.to_nat limit) caps)
  end.

(** ** Models *)
Definition resolve_stage_model (own : ModelCatalog) (kind : WorkflowNodeKind)
    (req : PlanningRequest) : string :=
  let from_catalog :=
    let catalog := if decide (cat_code (model_catalog req) ≠ "") then model_catalog req else own in
    match kind with
    | Task => if decide (cat_code catalog ≠ "") then cat_code catalog else cat_general catalog
    | Review =>
        if decide (cat_analysis catalog ≠ "") then cat_analysis catalog
        else if decide (cat_architecture catalog ≠ "") then cat_architecture catalog
        else cat_general catalog
    | Judge =>
        if decide (cat_architecture catalog ≠ "") then cat_architecture catalog
        else cat_general catalog
    | _ => cat_general catalog
    end in
  match requested_model req with
  | Some explicit => if decide (trim explicit ≠ "") then explicit else from_catalog
  | None => from_catalog
  end.

(** ** Planning *)

(** [{:?}] of the intent: derived [Debug]. *)
Definition intent_debug (i : ExecutionIntent) : string :=
  match i with
  | Quality => "Quality" | Speed => "Speed" | Balanced => "Balanced" | Exhaustive => "Exhaustive"
  | Constrained None => "Constrained { max_cost: None }"
  | Constrained (Some c) =>
      "Constrained { max_cost: Some(NanoUSD(" +:+ pretty (as_nanos c) +:+ ")) }"
  end.
Definition intent_label (i : ExecutionIntent) : string :=
  match i with
  | Quality => "quality" | Speed => "speed" | Balanced => "balanced"
  | Exhaustive => "exhaustive" | Constrained _ => "constrained"
  end.

Section plan.
Context (uuid_v5_url : string → N) (json_to_string : json → string).

(** [canonical_json_value] *)
Definition canonical_json_value (v : json) : string := json_to_string (canonicalize v).

Definition identity (req : PlanningRequest) : string :=
  str_join "|" [
    intent_debug (intent req); user_prompt req; complexity (requirements req);
    str_join "," (rq_required_capabilities (requirements req));
    pretty (ps_version (policies req)); cat_code (model_catalog req);
    pretty (avg_latency_ms (telemetry req)); pretty (healthy_provider_count (telemetry req));
    default "" (requested_strategy req); default "" (requested_model req);
    match strategy_config req with
    | Some m => canonical_json_value (JObject m)
    | None => "null"
    end].

Definition stage_config (req : PlanningRequest) (idx : nat) (st : Stage)
    : list (string * json) :=
  let config := obj_insert "strategy" (JString (st_strategy st)) [] in
  let config := obj_insert "stage_index" (JNumber (PosInt (Z.of_nat idx))) config in
  let config := if decide (user_prompt req ≠ "")
                then obj_insert "prompt" (JString (user_prompt req)) config else config in
  match strategy_config req with
  | Some extra => foldl (λ config kv, obj_insert kv.1 kv.2 config) config extra
  | None => config
  end.

Definition add_stage (own : ModelCatalog) (req : PlanningRequest) (b : WorkflowBuilder)
    (ist : nat * Stage) : result PlatformError WorkflowBuilder :=
  let '(idx, st) := ist in
  map_err (λ e, PlannerError "BUILDER_ERR"
      ("Failed to add node " +:+ st_id st +:+ ": " +:+ error_display e)
      "Check workflow node topology")
    (add_node_with_model (st_id st) (st_kind st) (Some (st_capability st))
       (Some (resolve_stage_model own (st_kind st) req)) (stage_config req idx st) b).

Definition wire_stage (b : WorkflowBuilder) (ft : Stage * Stage)
    : result PlatformError WorkflowBuilder :=
  let '(from, to) := ft in
  map_err (λ e, PlannerError "EDGE_ERR"
      ("Failed to wire edge " +:+ st_id from +:+ " -> " +:+ st_id to +:+ ": " +:+ error_display e)
      "Ensure source and target nodes exist")
    (Builder.sequential (st_id from) (st_id to) b).

Definition plan_metadata (req : PlanningRequest) (n : nat) : WorkflowMetadata :=
  let tokens := (Z.of_nat n *^ 1000)%u64 in
  mkMetadata
    (["planner:synthesized"; "intent:" +:+ intent_label (intent req)]
       ++ (decl_name <$> ps_policies (policies req)))
    (ps_version (policies req)) (from_nanos (tokens *^ 10000)%u64) tokens.

Definition plan (own : ModelCatalog) (req : PlanningRequest) : result PlatformError WorkflowIR :=
  let stages := stages_of req in
  let b := with_workflow_id (uuid_v5_url (identity req)) builder_new in
  b ← try_fold (add_stage own req) b (zip (seq 0 (length stages)) stages);
  b ← try_fold wire_stage b (zip stages (tail stages));
  map_err (λ e, PlannerError "BUILD_ERR"
      ("Failed to finalize workflow IR: " +:+ error_display e)
      "Validate workflow DAG acyclicity and metadata")
    (build 0 (with_metadata (plan_metadata req (length stages)) b)).

(** ** [PlannerService] *)
Record PlannerService := mkService {
  capability_system : gmap string (list string);
  service_catalog : gmap string (list string);
  service_models : ModelCatalog;
}.

(** [CapabilityCatalog::new] ([crates/fusion-kernel/src/lib.rs]) *)
Definition capability_catalog_new : gmap string (list string) :=
  list_to_map [("Vision", ["ImageInput"]); ("JSON", ["StructuredOutput"]);
    ("ToolCalling", ["FunctionCalling"]); ("Reasoning", ["ChainOfThought"]);
    ("Streaming", ["SSE"]); ("Embeddings", ["VectorEmbedding"]);
    ("Audio", ["AudioInputOutput"]); ("ImageGen", ["Diffusion"]);
    ("Video", ["VideoInput"]); ("MCP", ["ModelContextProtocol"])].
Definition supports (catalog : gmap string (list string)) (capability : string) : bool :=
  bool_decide (is_Some (catalog !! capability)).

Definition service_new (system : gmap string (list string)) : PlannerService :=
  mkService system capability_catalog_new default_catalog.

Definition plan_with_intent (s : PlannerService) (intent_text : string) (i : ExecutionIntent)
    : result PlatformError WorkflowIR :=
  if decide (intent_text = "") then
    Err (PlannerError "EMPTY_INTENT" "Intent cannot be empty"
           "Provide a valid natural language prompt or workflow spec")
  else plan (service_models s)
         (mkRequest i intent_text None None None default_requirements default_policies
            (service_catalog s) (service_models s) default_telemetry).
Definition service_plan (s : PlannerService) (intent_text : string)
    : result PlatformError WorkflowIR := plan_with_intent s intent_text Balanced.
End plan.
