(* ===== verification/PlannerProps.v ===== *)
(** * What the planner emits

    [plan_exact]: planning fails only when the caller's strategy configuration
    smuggles in a reserved provider key or a split or barrier marker;
    otherwise it returns a well-formed chain of stages. [plan_stage_count]
    bounds the stages by the intent and by the healthy providers.
    The last theorems exhibit requests with different plans and the same
    workflow id. *)
From S2P Require Import Prelude Text Json Money Graphs ExecTypes WorkflowIr WorkflowIrProps Planner.
From Stdlib Require Import Floats.SpecFloat.
Open Scope stdpp_scope.
Open Scope Z_scope.

(** ** Adjacent pairs *)
Lemma zip_tail_elem {A} (l : list A) a b :
  (a, b) ∈ zip l (tail l) ↔ ∃ i, l !! i = Some a ∧ l !! S i = Some b.
Proof.
  rewrite list_elem_of_lookup. apply exist_proper. intros i.
  rewrite lookup_zip_Some. destruct l as [|x l]; [|done]. by rewrite !lookup_nil.
Qed.

Lemma filter_none {A} (P : A → Prop) `{∀ x, Decision (P x)} (l : list A) :
  (∀ x, x ∈ l → ¬ P x) → length (filter P l) = 0%nat.
Proof.
  induction l as [|x l IH]; intros Hn; [done|]. rewrite filter_cons, decide_False by set_solver.
  apply IH. set_solver.
Qed.

(** ** The stages *)
Lemma stage_id_inj i j : stage_id i = stage_id j → i = j.
Proof.
  intros Heq. apply (str_app_inj_l "n"), (inj pretty), Nat2N.inj in Heq. lia.
Qed.

Lemma stage_ids req i st : stages_of req !! i = Some st → st_id st = stage_id i.
Proof.
  unfold stages_of. destruct (requested_strategy req) as [strat|].
  - destruct i as [|i]; [|done]. by intros [= <-].
  - rewrite list_lookup_imap. by intros (c & _ & ->)%fmap_Some.
Qed.

Lemma at_least_one_pos caps : 1 ≤ at_least_one caps.
Proof. unfold at_least_one. lia. Qed.

(** A count of providers is a [usize]. *)
Definition request_wf (req : PlanningRequest) : Prop :=
  0 ≤ healthy_provider_count (telemetry req) ∧
  ∀ extra, strategy_config req = Some extra → obj_sorted extra.

Lemma limits_pos req caps : 0 ≤ healthy_provider_count (telemetry req) →
  1 ≤ intent_limit (intent req) caps ∧ 1 ≤ telemetry_limit (telemetry req) caps.
Proof.
  intros Hh. pose proof (at_least_one_pos caps). unfold intent_limit, telemetry_limit.
  split; repeat case_match; lia.
Qed.

Lemma stages_nonempty req :
  0 ≤ healthy_provider_count (telemetry req) → (0 < length (stages_of req))%nat.
Proof.
  intros Hh. unfold stages_of. destruct (requested_strategy req); [csimpl; lia|].
  rewrite length_imap, length_take. set (caps := if decide _ then _ else _).
  destruct (limits_pos req caps Hh).
  assert (0 < length caps)%nat; [|lia]. subst caps. case_decide as Hr.
  - destruct (intent req) as [| | | |[c|]]; csimpl; try lia. case_match; csimpl; lia.
  - destruct (rq_required_capabilities _); [done|csimpl; lia].
Qed.

(** The number of stages: one with an explicit strategy; otherwise one per
    required (or default) capability, cut to a single stage for speed and for
    tight budgets, and to the number of healthy providers when that is known. *)
Theorem plan_stage_count req :
  length (stages_of req) =
  match requested_strategy req with
  | Some _ => 1%nat
  | None =>
      let required := rq_required_capabilities (requirements req) in
      let caps := if decide (required = []) then default_capabilities (intent req) else required in
      Nat.min (length caps) (Nat.min (Z.to_nat (intent_limit (intent req) caps))
        (Z.to_nat (telemetry_limit (telemetry req) caps)))
  end.
Proof.
  unfold stages_of. destruct (requested_strategy req); [done|].
  rewrite length_imap, length_take. set (caps := if decide _ then _ else _).
  rewrite Z2Nat.inj_min. lia.
Qed.

(** ** Building *)
Section plan.
Context (uuid_v5_url : string → N) (json_to_string : json → string) (own : ModelCatalog).

Definition stage_node (req : PlanningRequest) (ist : nat * Stage) : WorkflowNode :=
  mkNode (st_id ist.2) (st_kind ist.2) (Some (st_capability ist.2))
    (Some (resolve_stage_model own (st_kind ist.2) req)) (stage_config req ist.1 ist.2).
Definition stage_edge (ft : Stage * Stage) : WorkflowEdge :=
  mkEdge (st_id ft.1) (st_id ft.2) Sequential None.

Definition planned (req : PlanningRequest) : WorkflowIR :=
  let stages := stages_of req in
  mkWorkflow WORKFLOW_IR_VERSION (uuid_v5_url (identity json_to_string req))
    (stage_node req <$> zip (seq 0 (length stages)) stages)
    (stage_edge <$> zip stages (tail stages)) (plan_metadata req (length stages)).

Lemma add_stages_ok req l b :
  NoDup ((λ ist : nat * Stage, st_id ist.2) <$> l) →
  (∀ ist, ist ∈ l → st_id ist.2 ∉ b_seen b) →
  try_fold (add_stage own req) b l =
  Ok (mkBuilder (b_workflow_id b) (b_nodes b ++ (stage_node req <$> l)) (b_edges b) (b_metadata b)
        (list_to_set (reverse ((λ ist : nat * Stage, st_id ist.2) <$> l)) ∪ b_seen b)).
Proof.
  clear uuid_v5_url json_to_string. revert b. induction l as [|[idx st] l IH]; intros b Hnd Hs; csimpl in *.
  { rewrite app_nil_r. destruct b; csimpl. do 2 f_equal. set_solver. }
  apply NoDup_cons in Hnd as [Hn Hnd].
  unfold add_node_with_model. rewrite decide_False by (apply (Hs (idx, st)); set_solver). csimpl.
  rewrite IH; csimpl; [|done|].
  - rewrite <- app_assoc; csimpl. do 2 f_equal. rewrite reverse_cons, list_to_set_app_L. set_solver.
  - intros [i st'] Hin [Heq%elem_of_singleton|Hb]%elem_of_union; csimpl in *.
    + apply Hn. rewrite <- Heq. apply list_elem_of_fmap. by exists (i, st').
    + apply (Hs (i, st')); [set_solver|done].
Qed.

Lemma wire_stages_ok l b :
  (∀ f t, (f, t) ∈ l → st_id f ∈ b_seen b ∧ st_id t ∈ b_seen b) →
  try_fold wire_stage b l =
  Ok (mkBuilder (b_workflow_id b) (b_nodes b) (b_edges b ++ (stage_edge <$> l)) (b_metadata b)
        (b_seen b)).
Proof.
  clear. revert b. induction l as [|[f t] l IH]; intros b Hs; csimpl in *.
  { rewrite app_nil_r. by destruct b. }
  destruct (Hs f t ltac:(set_solver)) as [Hf Ht].
  unfold Builder.sequential, add_edge, try_for_each; csimpl. rewrite !decide_True by done. csimpl.
  rewrite IH; csimpl.
  - by rewrite <- app_assoc.
  - intros f' t' Hin. apply Hs. set_solver.
Qed.

Lemma zip_seq_stage req i st :
  (i, st) ∈ zip (seq 0 (length (stages_of req))) (stages_of req) → stages_of req !! i = Some st.
Proof.
  clear. intros (k & Hk)%list_elem_of_lookup. apply lookup_zip_Some in Hk as [Hi Hst].
  apply lookup_seq in Hi as [-> _]. done.
Qed.

Lemma stage_ids_list req :
  (λ ist : nat * Stage, st_id ist.2) <$> zip (seq 0 (length (stages_of req))) (stages_of req) =
  stage_id <$> seq 0 (length (stages_of req)).
Proof.
  clear. apply list_eq. intros i. rewrite !list_lookup_fmap.
  destruct (stages_of req !! i) as [st|] eqn:Hst.
  - assert (i < length (stages_of req))%nat by (by eapply lookup_lt_Some).
    assert (zip (seq 0 (length (stages_of req))) (stages_of req) !! i = Some (i, st)) as ->.
    { apply lookup_zip_Some. split; [|done]. by apply lookup_seq. }
    rewrite (proj2 (lookup_seq 0 (length (stages_of req)) i i)) by lia.
    csimpl. f_equal. by apply (stage_ids req).
  - apply lookup_ge_None in Hst. rewrite (lookup_ge_None_2 (seq _ _)) by (by rewrite length_seq).
    rewrite lookup_ge_None_2; [done|]. rewrite length_zip_with, length_seq. lia.
Qed.

Lemma stage_ids_nodup n : NoDup (stage_id <$> seq 0 n).
Proof. clear. apply NoDup_fmap_2_strong; [|apply NoDup_seq]. intros; by apply stage_id_inj. Qed.

(** The builder accepts every stage and edge, so only the final validation
    decides. *)
Lemma plan_builds req :
  plan uuid_v5_url json_to_string own req =
  match first_error (validate (planned req)) with
  | Some e => Err (PlannerError "BUILD_ERR"
      ("Failed to finalize workflow IR: " +:+ error_display e)
      "Validate workflow DAG acyclicity and metadata")
  | None => Ok (planned req)
  end.
Proof.
  unfold plan. rewrite add_stages_ok; [|rewrite stage_ids_list; apply stage_ids_nodup|set_solver].
  csimpl. rewrite wire_stages_ok; csimpl.
  - unfold build; csimpl. fold (planned req). by destruct (first_error (validate (planned req))).
  - intros f t (i & Hf & Ht)%zip_tail_elem. rewrite stage_ids_list.
    rewrite elem_of_union, elem_of_list_to_set, elem_of_reverse, !list_elem_of_fmap.
    rewrite elem_of_union, elem_of_list_to_set, elem_of_reverse, !list_elem_of_fmap.
    split; left; [exists i|exists (S i)]; (split; [by apply (stage_ids req)|]);
      apply elem_of_seq; [apply lookup_lt_Some in Hf|apply lookup_lt_Some in Ht]; lia.
Qed.

(** ** Validity of the chain *)
Section chain.
Context (req : PlanningRequest) (Hreq : request_wf req).
Notation n := (length (stages_of req)).
Notation ir := (planned req).

Lemma planned_ids : node_ids ir = stage_id <$> seq 0 n.
Proof using Type.
  unfold node_ids, planned; csimpl. rewrite <- list_fmap_compose. apply stage_ids_list.
Qed.

Lemma planned_edge e :
  e ∈ edges ir ↔ ∃ i, (S i < n)%nat ∧ e = mkEdge (stage_id i) (stage_id (S i)) Sequential None.
Proof using Type.
  unfold planned; csimpl. rewrite list_elem_of_fmap. split.
  - intros ([f t] & -> & (i & Hf & Ht)%zip_tail_elem). exists i. split; [by eapply lookup_lt_Some|].
    unfold stage_edge; csimpl. by rewrite (stage_ids req i f), (stage_ids req (S i) t).
  - intros (i & Hi & ->). destruct (lookup_lt_is_Some_2 (stages_of req) i) as [f Hf]; [lia|].
    destruct (lookup_lt_is_Some_2 (stages_of req) (S i)) as [t Ht]; [lia|].
    exists (f, t). split; [|apply zip_tail_elem; eauto].
    unfold stage_edge; csimpl. by rewrite (stage_ids req i f), (stage_ids req (S i) t).
Qed.

Lemma planned_points u v :
  points_to (edges ir) u v ↔ ∃ i, (S i < n)%nat ∧ u = stage_id i ∧ v = stage_id (S i).
Proof using Type.
  split.
  - intros (e & (i & Hi & ->)%planned_edge & <- & <-). by exists i.
  - intros (i & Hi & -> & ->). eexists. split; [apply planned_edge; by exists i|done].
Qed.

Lemma planned_root : is_root ir (stage_id 0).
Proof using Hreq.
  split.
  - rewrite planned_ids. apply list_elem_of_fmap. exists 0%nat. split; [done|].
    apply elem_of_seq. pose proof (stages_nonempty req (proj1 Hreq)). lia.
  - intros e (i & _ & ->)%planned_edge _; csimpl. by intros ?%stage_id_inj.
Qed.

Lemma planned_reach i : (i < n)%nat → rtc (points_to (edges ir)) (stage_id 0) (stage_id i).
Proof using Type.
  induction i as [|i IH]; intros Hi; [apply rtc_refl|].
  eapply rtc_r; [apply IH; lia|]. apply planned_points. by exists i.
Qed.

Lemma planned_acyclic id : ¬ tc (points_to (non_loop_edges ir)) id id.
Proof using Type.
  assert (Htc : ∀ u v, tc (points_to (non_loop_edges ir)) u v →
    ∃ i j, (i < j)%nat ∧ u = stage_id i ∧ v = stage_id j).
  { assert (Hstep : ∀ u v, points_to (non_loop_edges ir) u v →
      ∃ i, u = stage_id i ∧ v = stage_id (S i)).
    { intros u v (e & [_ He]%list_elem_of_filter & <- & <-).
      apply planned_edge in He as (i & _ & ->). by exists i. }
    induction 1 as [u v (i & -> & ->)%Hstep|u v w (i & -> & ->)%Hstep _ IH].
    - exists i, (S i). split_and!; [lia|done..].
    - destruct IH as (k & j & Hkj & <-%stage_id_inj & ->). exists i, j. split_and!; [lia|done..]. }
  intros (i & j & Hij & -> & ?%stage_id_inj)%Htc. lia.
Qed.

Lemma planned_node nd :
  nd ∈ nodes ir ↔ ∃ i st, stages_of req !! i = Some st ∧ nd = stage_node req (i, st).
Proof using Type.
  unfold planned; csimpl. rewrite list_elem_of_fmap. split.
  - intros ([i st] & -> & Hin%zip_seq_stage). eauto.
  - intros (i & st & Hst & ->). exists (i, st). split; [done|].
    apply list_elem_of_lookup. exists i. apply lookup_zip_Some. split; [|done].
    apply lookup_seq. apply lookup_lt_Some in Hst. lia.
Qed.

Lemma planned_find i st :
  stages_of req !! i = Some st → find_node ir (stage_id i) = Some (stage_node req (i, st)).
Proof using Type.
  intros Hst. apply find_node_spec; [rewrite planned_ids; apply stage_ids_nodup|].
  split; [apply planned_node; eauto|]. by apply (stage_ids req).
Qed.

(** *** Configurations *)
Definition base_config (idx : nat) (st : Stage) : list (string * json) :=
  stage_config (mkRequest (intent req) (user_prompt req) None None None (requirements req)
    (policies req) ∅ (model_catalog req) (telemetry req)) idx st.

Lemma base_config_entry idx st k v :
  obj_get k (base_config idx st) = Some v →
  k ∈ ["strategy"; "stage_index"; "prompt"] ∧ ((∃ x, v = JString x) ∨ ∃ x, v = JNumber x).
Proof using Type.
  clear Hreq. unfold base_config, stage_config. cbn [strategy_config user_prompt].
  case_decide; rewrite !obj_get_insert; repeat case_decide; subst; intros; simplify_eq/=;
    (split; [set_solver|eauto]).
Qed.

Lemma stage_config_get idx st k :
  obj_get k (stage_config req idx st) =
  match strategy_config req ≫= obj_get k with
  | Some v => Some v
  | None => obj_get k (base_config idx st)
  end.
Proof using Hreq.
  destruct Hreq as [_ Hex]. unfold stage_config at 1.
  change (obj_get k (match strategy_config req with
    | Some extra => foldl (λ config kv, obj_insert kv.1 kv.2 config) (base_config idx st) extra
    | None => base_config idx st end) = match strategy_config req ≫= obj_get k with
    | Some v => Some v | None => obj_get k (base_config idx st) end).
  destruct (strategy_config req) as [extra|]; csimpl; [|done].
  specialize (Hex extra eq_refl). generalize (base_config idx st). clear -Hex.
  induction extra as [|[k' v'] extra IH]; intros base; csimpl; [done|].
  apply obj_sorted_cons in Hex as [Hk Hs]. rewrite (IH Hs), obj_get_insert.
  case_decide as Heq; [|done]. subst k'. destruct (obj_get k extra) as [v|] eqn:Hg; [|done].
  apply obj_get_Some_elem, (list_elem_of_fmap_2 fst), Hk in Hg. by destruct Hg.
Qed.

Lemma stage_config_sorted idx st : obj_sorted (stage_config req idx st).
Proof using Type.
  unfold stage_config. set (base := if decide _ then _ else _).
  assert (Hb : obj_sorted base).
  { subst base. case_decide; repeat apply obj_insert_sorted; constructor. }
  destruct (strategy_config req) as [extra|]; [|done]. revert Hb. generalize base.
  induction extra as [|kv extra IH]; intros m Hm; csimpl; [done|]. by apply IH, obj_insert_sorted.
Qed.

Lemma mentions_object k m : obj_sorted m →
  mentions_key k (JObject m) ↔ ∃ k' v, obj_get k' m = Some v ∧ (k' = k ∨ mentions_key k v).
Proof using Type.
  clear. intros Hs. split.
  - inversion 1 as [m' v Hin|m' k' v Hin Hv|]; subst;
      [exists k, v|exists k', v]; (split; [by apply obj_elem_get|auto]).
  - intros (k' & v & Hg%obj_get_Some_elem & [->|Hv]); [by eapply mentions_here|by eapply mentions_below].
Qed.

Lemma stage_mentions k idx st : k ∈ RESERVED_PROVIDER_KEYS →
  mentions_key k (JObject (stage_config req idx st)) ↔
  ∃ extra, strategy_config req = Some extra ∧ mentions_key k (JObject extra).
Proof using Hreq.
  intros Hk. rewrite mentions_object by apply stage_config_sorted.
  setoid_rewrite stage_config_get. split.
  - intros (k' & v & Hg & Hm). destruct (strategy_config req ≫= obj_get k') as [v'|] eqn:He.
    + simplify_eq. apply bind_Some in He as (extra & He & Hg). exists extra. split; [done|].
      apply mentions_object; [by apply Hreq|]. eauto.
    + exfalso. apply base_config_entry in Hg as [Hin Hv]. destruct Hm as [->|Hm].
      * clear -Hk Hin. unfold RESERVED_PROVIDER_KEYS in Hk. set_solver.
      * destruct Hv as [[x ->]|[x ->]]; inversion Hm.
  - intros (extra & He & Hm). rewrite mentions_object in Hm by (by apply Hreq).
    destruct Hm as (k' & v & Hg & Hm). exists k', v. by rewrite He; csimpl; rewrite Hg.
Qed.

(** The configurations a plan can carry: no reserved provider key at any
    depth, and no marker that turns every stage into a split or barrier. *)
Definition config_ok : Prop := ∀ extra, strategy_config req = Some extra →
  (∀ k, k ∈ RESERVED_PROVIDER_KEYS → ¬ mentions_key k (JObject extra)) ∧
  ∀ m, obj_get "control_flow" extra = Some (JString m) → m ≠ "split" ∧ m ≠ "barrier".

Lemma stage_marker i st m : stages_of req !! i = Some st →
  control_flow_marker ir (stage_id i) = Some m ↔
  ∃ extra, strategy_config req = Some extra ∧ obj_get "control_flow" extra = Some (JString m).
Proof using Hreq.
  intros Hst. unfold control_flow_marker. rewrite (planned_find i st Hst).
  cbn [mbind option_bind stage_node n_config]. rewrite stage_config_get; csimpl. split.
  - intros (v & Hv & Hs)%bind_Some. destruct v; simplify_eq/=.
    destruct (strategy_config req ≫= obj_get "control_flow") as [v'|] eqn:He.
    + simplify_eq. by apply bind_Some in He.
    + apply base_config_entry in Hv as [Hv _]. set_solver.
  - intros (extra & -> & He); csimpl. by rewrite He.
Qed.

Lemma planned_wf_config : well_formed ir → config_ok.
Proof using Hreq.
  pose proof (stages_nonempty req (proj1 Hreq)) as Hne.
  destruct (lookup_lt_is_Some_2 (stages_of req) 0) as [st0 Hst0]; [lia|].
  destruct (lookup_lt_is_Some_2 (stages_of req) (n - 1)) as [stl Hstl]; [lia|].
  intros Hwf extra He. split.
  + intros k Hk Hm. destruct (wf_nodes _ Hwf (stage_node req (0%nat, st0))) as (_ & _ & _ & Hkeys).
    { apply planned_node. eauto. }
    apply (Hkeys k Hk), stage_mentions; [done|]. eauto.
  + intros m Hm. split; intros ->.
    * destruct (wf_nodes _ Hwf (stage_node req ((n - 1)%nat, stl))) as (_ & Hsplit & _).
      { apply planned_node. eauto. }
      cbn [stage_node n_id snd fst] in Hsplit. rewrite (stage_ids req (n - 1) stl Hstl) in Hsplit.
      specialize (Hsplit (proj2 (stage_marker _ _ "split" Hstl) (ex_intro _ extra (conj He Hm)))).
      assert (out_degree ir (stage_id (n - 1)) = 0%nat) as Hz; [|lia].
      apply filter_none. intros e (i & Hi & ->)%planned_edge Hf. apply stage_id_inj in Hf. lia.
    * destruct (wf_nodes _ Hwf (stage_node req (0%nat, st0))) as (_ & _ & Hbar & _).
      { apply planned_node. eauto. }
      cbn [stage_node n_id snd fst] in Hbar. rewrite (stage_ids req 0 st0 Hst0) in Hbar.
      destruct (Hbar (proj2 (stage_marker _ _ "barrier" Hst0) (ex_intro _ extra (conj He Hm)))) as [Hin _].
      assert (in_degree ir (stage_id 0) = 0%nat) as Hz; [|lia].
      apply filter_none. intros e (i & Hi & ->)%planned_edge Hf. by apply stage_id_inj in Hf.
Qed.

Lemma config_planned_wf : config_ok → well_formed ir.
Proof using Hreq.
  intros Hok. split.
  + done.
  + rewrite planned_ids. apply stage_ids_nodup.
  + intros e (i & Hi & ->)%planned_edge; csimpl. rewrite planned_ids.
    split; apply list_elem_of_fmap_2, elem_of_seq; lia.
  + exists (stage_id 0). apply planned_root.
  + intros id. rewrite planned_ids. intros (i & -> & [_ Hi]%elem_of_seq)%list_elem_of_fmap.
    exists (stage_id 0). split; [apply planned_root|apply planned_reach; lia].
  + apply planned_acyclic.
  + by intros e (i & Hi & ->)%planned_edge.
  + intros nd (i & st & Hst & ->)%planned_node. unfold node_ok.
    cbn [stage_node n_id n_kind n_config snd fst]. rewrite (stage_ids req i st Hst). split_and!.
    * intros Hk. exfalso. revert Hst Hk. clear. unfold stages_of.
      destruct (requested_strategy req); [destruct i; [|done]; by intros [= <-]|].
      rewrite list_lookup_imap. intros (c & _ & ->)%fmap_Some; csimpl.
      unfold kind_of_capability. by case_match.
    * intros (extra & He & Hm)%(stage_marker _ _ _ Hst).
      by destruct (proj2 (Hok extra He) _ Hm).
    * intros (extra & He & Hm)%(stage_marker _ _ _ Hst).
      by destruct (proj2 (Hok extra He) _ Hm).
    * intros k Hk (extra & He & Hm)%stage_mentions; [|done]. by apply (proj1 (Hok extra He) k).
Qed.

Lemma planned_wf : well_formed ir ↔ config_ok.
Proof using Hreq. split; [apply planned_wf_config|apply config_planned_wf]. Qed.
End chain.

(** C12. Planning succeeds exactly on the configurations a plan can carry. The plan
    is then a well-formed workflow: the stages [n1], [n2], ... in order, each
    with the capability, strategy and model chosen for it, linked one to the
    next by sequential edges. The only error is the final validation's. *)
Theorem plan_exact req : request_wf req →
  match plan uuid_v5_url json_to_string own req with
  | Ok ir => config_ok req ∧ ir = planned req ∧ well_formed ir ∧
      node_ids ir = stage_id <$> seq 0 (length (stages_of req)) ∧
      ∀ e, e ∈ edges ir ↔ ∃ i, (S i < length (stages_of req))%nat ∧
        e = mkEdge (stage_id i) (stage_id (S i)) Sequential None
  | Err (PlannerError code _ _) => code = "BUILD_ERR" ∧ ¬ config_ok req
  end.
Proof.
  intros Hreq. rewrite plan_builds. pose proof (planned_wf req Hreq) as Hwf.
  rewrite <- validate_nil_iff, <- first_error_None in Hwf.
  destruct (first_error (validate (planned req))) as [e|] eqn:Hv.
  - split; [done|]. intros Hok%Hwf. done.
  - split_and!; [by apply Hwf|done| |apply planned_ids|apply planned_edge].
    apply validate_nil_iff, first_error_None, Hv.
Qed.
End plan.

(** ** Examples *)
Definition sample_catalog : ModelCatalog :=
  mkCatalog "coder" "debugger" "architect" "general" "writer" "analyst" "fast" "cheap".
Definition sample_request (prompt level : string) (catalog : ModelCatalog) : PlanningRequest :=
  mkRequest Balanced prompt None None (Some [("temperature", JNumber (PosInt 1))])
    (mkRequirementsSnapshot level None []) default_policies ∅ catalog default_telemetry.

Lemma plan_exact_witness :
  request_wf (sample_request "build" "low" sample_catalog) ∧
  ∃ ir, plan (λ _, 7%N) (λ _, "") default_catalog (sample_request "build" "low" sample_catalog) = Ok ir ∧
    well_formed ir ∧ length (nodes ir) = 3%nat.
Proof.
  assert (Hreq : request_wf (sample_request "build" "low" sample_catalog)).
  { split; [vm_compute; discriminate|]. intros extra [= <-]. repeat constructor. }
  split; [exact Hreq|].
  pose proof (plan_exact (λ _, 7%N) (λ _, "") default_catalog _ Hreq) as Hp.
  assert (Hlen : (length ∘ nodes) <$> plan (λ _, 7%N) (λ _, "") default_catalog
    (sample_request "build" "low" sample_catalog) = Ok 3%nat) by (vm_compute; reflexivity).
  destruct (plan _ _ _ _) as [ir|]; [|discriminate Hlen].
  exists ir. split; [reflexivity|]. split; [apply Hp|]. injection Hlen as Hlen. exact Hlen.
Defined.

(** The identity joins the request's fields with an unescaped separator: two
    requests that split the same text differently between prompt and
    complexity get the same workflow id and different plans. *)
Theorem identity_separator_collision uuid_v5_url json_to_string own :
  ∃ ir1 ir2,
    plan uuid_v5_url json_to_string own (sample_request "a|b" "c" sample_catalog) = Ok ir1 ∧
    plan uuid_v5_url json_to_string own (sample_request "a" "b|c" sample_catalog) = Ok ir2 ∧
    workflow_id ir1 = workflow_id ir2 ∧ nodes ir1 ≠ nodes ir2.
Proof.
  eexists _, _. split_and!; [vm_compute; reflexivity..|reflexivity|]. vm_compute. discriminate.
Qed.

(** Of the model catalog only the [code] model enters the identity: requests
    whose catalogs name different review models collide as well. *)
Theorem identity_ignores_review_model uuid_v5_url json_to_string own :
  let other := mkCatalog "coder" "debugger" "architect" "general" "writer" "critic" "fast" "cheap" in
  ∃ ir1 ir2,
    plan uuid_v5_url json_to_string own (sample_request "build" "low" sample_catalog) = Ok ir1 ∧
    plan uuid_v5_url json_to_string own (sample_request "build" "low" other) = Ok ir2 ∧
    workflow_id ir1 = workflow_id ir2 ∧ nodes ir1 ≠ nodes ir2.
Proof.
  eexists _, _. split_and!; [vm_compute; reflexivity..|reflexivity|]. vm_compute. discriminate.
Qed.
