(* ===== verification/Policy.v ===== *)
(** * Policy rules ([crates/fusion-compiler/src/policy.rs])

    Pattern matching of rule targets, rule conditions over the facts of a
    node, and the precedence engine that picks one rule. *)
From S2P Require Import Prelude Text Json.
From Stdlib Require Import Ascii.
Open Scope stdpp_scope.
Open Scope Z_scope.

Inductive PolicyEffect := Deny | Approval | Allow.
#[global] Instance PolicyEffect_eq_dec : EqDecision PolicyEffect.
Proof. solve_decision. Defined.

Record PolicyCondition := mkCondition { pc_field : string; pc_expected : json }.
Record PolicyAction := mkAction { action_type : string; parameters : gmap string json }.
Record PolicyRule := mkRule {
  rule_id : string;
  target_pattern : string;
  priority : Z;
  effect : PolicyEffect;
  conditions : list PolicyCondition;
  actions : list PolicyAction;
}.
Record PolicyIR := mkPolicyIR { rules : list PolicyRule }.

Record PolicyFacts := mkFacts {
  f_model : string;
  f_strategy : string;
  f_node_kind : option string;
  f_capability : option string;
}.

(** ** Patterns *)
Definition star : ascii := "*"%char.

(** [for seg in middle.split('*') { match cursor.find(seg) ... }] *)
Fixpoint find_segments (segs : list string) (cursor : string) : bool :=
  match segs with
  | [] => true
  | seg :: segs =>
      match str_find seg cursor with
      | Some pos => find_segments segs (str_drop (pos + String.length seg) cursor)
      | None => false
      end
  end.

Definition pattern_matches (pattern candidate : string) : bool :=
  match split_once star pattern with
  | None => bool_decide (pattern = candidate)
  | Some (prefix, suffix) =>
      if negb (starts_with prefix candidate) then false
      else
        let rest := str_drop (String.length prefix) candidate in
        if decide (suffix = "") then true
        else match strip_suffix_char star suffix with
          | Some middle => find_segments (split_on star middle) rest
          | None => ends_with suffix rest
          end
  end.

(** ** Conditions and precedence *)
Section engine.
(** [Value::to_string] of [serde_json], used when the expected value is not a
    string. *)
Context (json_to_string : json → string).

Definition evaluate_condition (c : PolicyCondition) (facts : PolicyFacts) : bool :=
  let actual :=
    if decide (pc_field c = "kind") then f_node_kind facts
    else if decide (pc_field c = "model") then Some (f_model facts)
    else if decide (pc_field c = "strategy") then Some (f_strategy facts)
    else if decide (pc_field c = "capability") then f_capability facts
    else None in
  match actual with
  | Some value =>
      bool_decide (value = default (json_to_string (pc_expected c)) (as_str (pc_expected c)))
  | None => false
  end.

Definition rule_matches (symbol : string) (facts : PolicyFacts) (r : PolicyRule) : bool :=
  pattern_matches (target_pattern r) symbol &&
  forallb (λ c, evaluate_condition c facts) (conditions r).

(** The declaration order is [Deny < Approval < Allow]; [Reverse] flips it. *)
Definition effect_rank (e : PolicyEffect) : Z :=
  match e with Deny => 2 | Approval => 1 | Allow => 0 end.
Definition rule_le (a b : PolicyRule) : bool :=
  if decide (effect_rank (effect a) = effect_rank (effect b))
  then (priority a <=? priority b)%Z
  else (effect_rank (effect a) <=? effect_rank (effect b))%Z.

(** [max_by_key]: the last of the greatest elements. *)
Definition max_rule (acc : option PolicyRule) (r : PolicyRule) : option PolicyRule :=
  match acc with
  | None => Some r
  | Some a => if rule_le a r then Some r else Some a
  end.

Definition evaluate_matching_rule (ir : PolicyIR) (symbol : string) (facts : PolicyFacts)
    : option PolicyRule :=
  foldl max_rule None (filter (λ r, rule_matches symbol facts r = true) (rules ir)).

(** ** Precedence *)
Lemma rule_le_total a b : rule_le a b = true ∨ rule_le b a = true.
Proof. unfold rule_le. repeat case_decide; try congruence; lia. Qed.
Lemma rule_le_trans a b c : rule_le a b = true → rule_le b c = true → rule_le a c = true.
Proof. unfold rule_le. repeat case_decide; try congruence; lia. Qed.

(** The running maximum of a list, as a split of the list. *)
Lemma max_rule_spec l :
  match foldl max_rule None l with
  | None => l = []
  | Some r => ∃ l1 l2, l = l1 ++ r :: l2 ∧
      (∀ x, x ∈ l1 → rule_le x r = true) ∧ (∀ x, x ∈ l2 → rule_le r x = false)
  end.
Proof.
  induction l as [|a l IH] using rev_ind; [done|]. rewrite foldl_app. csimpl.
  destruct (foldl max_rule None l) as [r|]; csimpl.
  - destruct IH as (l1 & l2 & -> & H1 & H2). destruct (rule_le r a) eqn:Hra.
    + exists (l1 ++ r :: l2), []. split_and!; [done| |set_solver].
      intros x. rewrite elem_of_app, elem_of_cons. intros [Hx|[->|Hx]]; [|done|].
      * eauto using rule_le_trans.
      * specialize (H2 x Hx). destruct (rule_le_total r x) as [?|Hxr]; [congruence|].
        eauto using rule_le_trans.
    + exists l1, (l2 ++ [a]). split_and!; [by rewrite <- app_assoc|done|].
      intros x [Hx|Hx]%elem_of_app; [auto|]. by apply list_elem_of_singleton in Hx as ->.
  - subst. exists [], []. split_and!; [done|set_solver..].
Qed.

Lemma evaluate_spec ir symbol facts :
  match evaluate_matching_rule ir symbol facts with
  | None => ∀ r, r ∈ rules ir → rule_matches symbol facts r = false
  | Some r => r ∈ rules ir ∧ rule_matches symbol facts r = true ∧
      ∀ x, x ∈ rules ir → rule_matches symbol facts x = true → rule_le x r = true
  end.
Proof.
  unfold evaluate_matching_rule. pose proof (max_rule_spec
    (filter (λ r, rule_matches symbol facts r = true) (rules ir))) as Hs.
  destruct (foldl max_rule None _) as [r|].
  - destruct Hs as (l1 & l2 & Hl & H1 & H2).
    assert (r ∈ filter (λ r, rule_matches symbol facts r = true) (rules ir)) as Hr
      by (rewrite Hl; set_solver).
    apply list_elem_of_filter in Hr as [Hm Hr]. split_and!; [done..|].
    intros x Hx Hxm. assert (x ∈ l1 ++ r :: l2) as Hin
      by (rewrite <- Hl; by apply list_elem_of_filter).
    apply elem_of_app in Hin as [Hin|[->|Hin]%elem_of_cons]; [auto| |].
    + by destruct (rule_le_total r r).
    + specialize (H2 x Hin). destruct (rule_le_total r x); congruence.
  - intros r Hr. apply not_true_is_false. intros Hm.
    assert (r ∈ filter (λ r, rule_matches symbol facts r = true) (rules ir)) as Hin
      by by apply list_elem_of_filter.
    rewrite Hs in Hin. set_solver.
Qed.

(** The rule that is applied matches and no matching rule outranks it, in the
    order Deny, Approval, Allow and then by priority; no rule is applied
    exactly when none matches; among equals the last one is taken. *)
Theorem policy_precedence ir symbol facts :
  match evaluate_matching_rule ir symbol facts with
  | None => ∀ r, r ∈ rules ir → rule_matches symbol facts r = false
  | Some r =>
      rule_matches symbol facts r = true ∧
      (∀ x, x ∈ rules ir → rule_matches symbol facts x = true →
         effect_rank (effect x) < effect_rank (effect r) ∨
         effect x = effect r ∧ priority x ≤ priority r) ∧
      ∃ l1 l2, rules ir = l1 ++ r :: l2 ∧
        ∀ x, x ∈ l2 → rule_matches symbol facts x = true → rule_le r x = false
  end.
Proof.
  pose proof (evaluate_spec ir symbol facts) as Hs.
  unfold evaluate_matching_rule in *.
  pose proof (max_rule_spec (filter (λ r, rule_matches symbol facts r = true) (rules ir))) as Hm.
  destruct (foldl max_rule None _) as [r|]; [|done].
  destruct Hs as (Hin & Hr & Hmax). destruct Hm as (l1 & l2 & Hl & _ & H2). split_and!; [done| |].
  - intros x Hx Hxm. specialize (Hmax x Hx Hxm). unfold rule_le in Hmax.
    case_decide as He; [right|left; lia]. split; [|lia].
    by destruct (effect x), (effect r).
  - clear Hin Hmax. destruct ir as [ir]; csimpl in *. revert l1 Hl. induction ir as [|a ir IH]; intros l1 Hl.
    { by destruct l1. }
    rewrite filter_cons in Hl. case_decide as Ha.
    + destruct l1 as [|b l1]; csimpl in Hl; injection Hl as -> Hl.
      * exists [], ir. split; [done|]. intros x Hx Hxm. apply H2.
        rewrite <- Hl. by apply list_elem_of_filter.
      * destruct (IH l1 Hl) as (k1 & k2 & -> & Hk). by exists (b :: k1), k2.
    + destruct (IH l1 Hl) as (k1 & k2 & -> & Hk). by exists (a :: k1), k2.
Qed.
End engine.

(** ** Patterns against their reading as globs *)

(** [glob segs s]: the segments between stars occur in [s] in order, the first
    at the start and the last at the end. *)
Inductive glob : list string → string → Prop :=
| glob_last s : glob [s] s
| glob_star p mid rest segs : glob segs rest → glob (p :: segs) (p +:+ mid +:+ rest).

(** The reading of a whole pattern. *)
Definition glob_pattern (pattern candidate : string) : Prop :=
  glob (split_on star pattern) candidate.

(** Scanning for the segments from the left finds them whenever they occur. *)
Lemma find_segments_spec segs s :
  find_segments segs s = true ↔
  ∃ mid rest, s = mid +:+ rest ∧ glob (segs ++ [""]) rest.
Proof.
  split.
  - revert s. induction segs as [|seg segs IH]; intros s; csimpl.
    + intros _. exists s, "". rewrite str_app_nil_r. split; [done|constructor].
    + destruct (str_find seg s) as [pos|] eqn:Hf; [|done]. intros Hs.
      destruct (IH _ Hs) as (mid & rest & Hd & Hg).
      apply str_find_sound in Hf as [m Hm]. rewrite Hd in Hm.
      exists m, (seg +:+ mid +:+ rest). split; [done|]. by constructor.
  - intros (mid & rest & -> & Hg). revert mid rest Hg.
    induction segs as [|seg segs IH]; intros mid rest Hg; csimpl; [done|].
    inversion Hg as [? Hnil|? m2 r2 ? Hg2 Hp]; subst; [by destruct segs|].
    destruct (str_find_first seg (mid +:+ seg +:+ m2 +:+ r2) mid (m2 +:+ r2) eq_refl)
      as (pos & m' & -> & ->).
    rewrite <- str_app_assoc. by apply IH.
Qed.

Lemma split_on_star_app p s :
  str_all (λ a, negb (bool_decide (a = star))) p = true →
  split_on star (p +:+ String.String star s) = p :: split_on star s.
Proof. apply split_on_app. Qed.

Lemma split_on_nonempty c s : split_on c s ≠ [].
Proof.
  destruct s as [|a s]; csimpl; [done|]. case_decide; [done|]. by destruct (split_on c s).
Qed.

Lemma split_on_snoc c s : split_on c (s +:+ String.String c "") = split_on c s ++ [""].
Proof.
  induction s as [|a s IH]; [by csimpl; rewrite decide_True|].
  rewrite str_app_cons. cbn [split_on]. rewrite IH. case_decide; [done|].
  pose proof (split_on_nonempty c s). by destruct (split_on c s).
Qed.

Lemma glob_prefix p segs s :
  segs ≠ [] → glob (p :: segs) s ↔
  starts_with p s = true ∧ ∃ mid rest, str_drop (String.length p) s = mid +:+ rest ∧ glob segs rest.
Proof.
  intros Hne. split.
  - intros Hg. inversion Hg; subst; [done|]. rewrite starts_with_app, str_drop_app. eauto.
  - intros [[q ->]%starts_with_spec (mid & rest & Hq & Hg)]. rewrite str_drop_app in Hq. subst q.
    by constructor.
Qed.

Definition one_star_or_open (pattern : string) : Prop :=
  match split_once star pattern with
  | None => True
  | Some (_, suffix) =>
      str_all (λ a, negb (bool_decide (a = star))) suffix = true ∨
      ∃ m, suffix = m +:+ String.String star ""
  end.

(** A pattern with at most one star, or one that ends in a star, matches what
    it reads as. *)
Theorem pattern_matches_glob pattern candidate :
  one_star_or_open pattern →
  pattern_matches pattern candidate = true ↔ glob_pattern pattern candidate.
Proof.
  unfold one_star_or_open, pattern_matches, glob_pattern.
  pose proof (split_once_spec star pattern) as Hsp.
  destruct (split_once star pattern) as [[prefix suffix]|].
  2: { intros _. rewrite bool_decide_eq_true, split_on_fresh by done. split.
       - intros ->. constructor.
       - intros Hg. inversion Hg as [|? ? ? ? Hg']; subst; [done|]. inversion Hg'. }
  destruct Hsp as [-> Hp]. rewrite split_on_star_app by done. intros Hcase.
  rewrite glob_prefix by apply split_on_nonempty.
  destruct (starts_with prefix candidate); csimpl; [|naive_solver].
  set (rest := str_drop (String.length prefix) candidate). clearbody rest.
  case_decide as Hs; [subst|].
  { split; [|done]. intros _. split; [done|]. exists rest, "".
    rewrite str_app_nil_r. split; [done|constructor]. }
  pose proof (strip_suffix_char_spec star suffix) as Hstrip.
  destruct (strip_suffix_char star suffix) as [middle|].
  - subst suffix. rewrite split_on_snoc, find_segments_spec. naive_solver.
  - destruct Hcase as [Hfresh|[m Hm]]; [|by destruct (Hstrip m)].
    rewrite (split_on_fresh star suffix Hfresh), ends_with_spec. split.
    + intros [p ->]. split; [done|]. exists p, suffix. split; [done|constructor].
    + intros [_ (mid & r & -> & Hg)]. inversion Hg as [|? ? ? ? Hg']; subst; [eauto|].
      inversion Hg'.
Qed.

(** A star in the middle of the part after the first star is compared as a
    letter: [a*b*c] does not match what it reads as, so a rule that denies
    [a*b*c] lets [a1b2c] through. *)
Theorem inner_star_taken_literally :
  pattern_matches "a*b*c" "a1b2c" = false ∧ glob_pattern "a*b*c" "a1b2c" ∧
  ∀ json_to_string facts,
    evaluate_matching_rule json_to_string
      (mkPolicyIR [mkRule "deny-abc" "a*b*c" 10 Deny [] []]) "a1b2c" facts
    = None.
Proof.
  split_and!.
  - vm_compute. reflexivity.
  - apply (glob_star "a" "1" "b2c"), (glob_star "b" "2" "c"), glob_last.
  - intros. vm_compute. reflexivity.
Qed.

Lemma pattern_matches_glob_witness :
  pattern_matches "openai/*" "openai/gpt-4o" = true ↔ glob_pattern "openai/*" "openai/gpt-4o".
Proof.
  apply (pattern_matches_glob "openai/*" "openai/gpt-4o").
  unfold one_star_or_open. csimpl. left. reflexivity.
Defined.
