(* ===== verification/Strategy.v ===== *)
(** * Strategies: validation and expansion

    [crates/fusion-compiler/src/strategy_compiler.rs] (the lowering pass and
    its per-strategy validators) and [strategy_expansion.rs] (the subgraph
    each strategy expands to). Version-5 UUIDs and the text of a UUID come
    from the [uuid] crate and are parameters. *)
From S2P Require Import Prelude Text Json Money ExecTypes Graphs.

Definition MAX_CONSENSUS_MEMBERS : Z := 64.
Definition MIN_CHAIN_STEPS : Z := 1.
Definition MAX_CHAIN_STEPS : Z := 32.
Definition DEFAULT_CHAIN_STEPS : nat := 2.

(** ** Validators *)
Definition lowering_error (n : IRNode) (m : CompilerMsg) : result CompilerError unit :=
  Err (ValidationError "strategy_lowering" (Some (ir_id n)) m).
Definition len {A} (l : list A) : Z := Z.of_nat (length l).

Definition validate_consensus_config (n : IRNode) : result CompilerError unit :=
  match ir_config n !! "count" ≫= as_u64 with
  | Some count =>
      if decide (count = 0) then lowering_error n MsgConsensusZero
      else if (MAX_CONSENSUS_MEMBERS <? count)%Z then lowering_error n (MsgConsensusTooMany count)
      else Ok tt
  | None => Ok tt
  end;;
  match ir_config n !! "members" ≫= as_array with
  | Some members =>
      if (MAX_CONSENSUS_MEMBERS <? len members)%Z
      then lowering_error n (MsgConsensusMembersTooMany (len members)) else Ok tt
  | None => Ok tt
  end.

Definition validate_reflection_config (n : IRNode) : result CompilerError unit :=
  match ir_config n !! "max_cycles" ≫= as_u64 with
  | Some cycles => if decide (cycles = 0) then lowering_error n MsgReflectionZero else Ok tt
  | None => Ok tt
  end.

Definition validate_chain_config (n : IRNode) : result CompilerError unit :=
  match ir_config n !! "stages" with
  | Some stages_val =>
      match as_array stages_val with
      | None => lowering_error n MsgChainStagesNotArray
      | Some stages =>
          if decide (stages = []) then lowering_error n MsgChainStagesEmpty
          else if (MAX_CHAIN_STEPS <? len stages)%Z
          then lowering_error n (MsgChainStagesTooMany (len stages))
          else Ok tt
      end
  | None =>
      match ir_config n !! "steps" with
      | Some steps_val =>
          match as_u64 steps_val with
          | None => lowering_error n MsgChainStepsNotInteger
          | Some steps => if decide (steps = 0) then lowering_error n MsgChainStepsZero else Ok tt
          end
      | None => Ok tt
      end
  end.

Definition validate_debate_config (n : IRNode) : result CompilerError unit :=
  match ir_config n !! "roles" ≫= as_array with
  | Some roles =>
      if (len roles <? 2)%Z then lowering_error n (MsgDebateRoles (len roles)) else Ok tt
  | None => Ok tt
  end.

Definition validate_react_config (n : IRNode) : result CompilerError unit :=
  match ir_config n !! "max_tool_rounds" ≫= as_u64 with
  | Some rounds => if decide (rounds = 0) then lowering_error n MsgReActZero else Ok tt
  | None => Ok tt
  end.

Definition validate_fusion_config (_ : IRNode) : result CompilerError unit := Ok tt.

(** [StrategyLoweringPass::apply]; [registered] is [registered_custom]. *)
Definition validate_strategy (registered : gset string) (n : IRNode)
    : result CompilerError unit :=
  match ir_strategy n with
  | Single => Ok tt
  | Consensus => validate_consensus_config n
  | Reflection => validate_reflection_config n
  | Chain => validate_chain_config n
  | Debate => validate_debate_config n
  | ReAct => validate_react_config n
  | Fusion => validate_fusion_config n
  | Custom name =>
      if decide (name = "") then lowering_error n MsgCustomEmptyName
      else if decide (name ∉ registered) then lowering_error n (MsgCustomUnregistered name)
      else Ok tt
  end.
Definition strategy_lowering (registered : gset string) (ir : WorkflowIR)
    : result CompilerError WorkflowIR :=
  try_for_each (validate_strategy registered) (ir_nodes ir);; Ok ir.

(** ** Expansion *)
Definition resolved_chain_steps (config : Config) : nat :=
  match config !! "stages" ≫= as_array with
  | Some stages => Z.to_nat (clamp MIN_CHAIN_STEPS MAX_CHAIN_STEPS (len stages))
  | None =>
      match config !! "steps" ≫= as_u64 with
      | Some steps => Z.to_nat (clamp MIN_CHAIN_STEPS MAX_CHAIN_STEPS steps)
      | None => DEFAULT_CHAIN_STEPS
      end
  end.

(** [Uuid::NAMESPACE_URL] *)
Definition NAMESPACE_URL : Uuid := 0x6ba7b8119dad11d180b400c04fd430c8%N.

Section expansion.
Context (new_v5 : Uuid → string → Uuid) (uuid_display : Uuid → string).

Definition child_id (parent : Uuid) (role : string) (index : nat) : Uuid :=
  new_v5 NAMESPACE_URL
    (uuid_display parent +:+ ":" +:+ role +:+ ":" +:+ pretty (N.of_nat index)).

(** The record every expansion builds for a child: the parent's retry policy,
    fallback and configuration, strategy [Single], no subgraph. *)
Definition child (node : ExecutionNode) (id : Uuid) (kind : ExecutionNodeKind)
    (model : string) : ExecutionNode :=
  mkExecNode id kind Single model (x_retry_policy node) (x_fallback node) (x_config node) None.

Definition plain_edge (from to : Uuid) : ExecutionEdge := mkExecEdge from to None.

Definition consensus_count (node : ExecutionNode) : nat :=
  Z.to_nat (clamp 1 MAX_CONSENSUS_MEMBERS (default 3 (x_config node !! "count" ≫= as_u64))).
Definition consensus_members (node : ExecutionNode) : list string :=
  let members := take (Z.to_nat MAX_CONSENSUS_MEMBERS)
    match x_config node !! "members" ≫= as_array with
    | Some items => omap as_str items
    | None => []
    end in
  if decide (members = []) then replicate (consensus_count node) (x_model node) else members.

Definition expand_consensus (node : ExecutionNode) : ExecutionSubgraph :=
  let gens := imap (λ i model, child node (child_id (x_id node) "gen" i) LLMGenerate model)
    (consensus_members node) in
  let judge := child node (child_id (x_id node) "judge" 0) LLMJudge (x_model node) in
  mkSubgraph (gens ++ [judge]) ((λ g, plain_edge (x_id g) (x_id judge)) <$> gens)
    (default (x_id judge) (x_id <$> head gens)) (x_id judge).

Definition expand_reflection (node : ExecutionNode) : ExecutionSubgraph :=
  let gen_id := child_id (x_id node) "generator" 0 in
  let rev_id := child_id (x_id node) "reviewer" 0 in
  mkSubgraph [child node gen_id LLMGenerate (x_model node); child node rev_id LLMReview (x_model node)]
    [plain_edge gen_id rev_id] gen_id rev_id.

Definition expand_chain (node : ExecutionNode) : ExecutionSubgraph :=
  let steps := resolved_chain_steps (x_config node) in
  let nodes := (λ i, child node (child_id (x_id node) "step" i) LLMGenerate (x_model node))
    <$> seq 0 steps in
  let edges := (λ i, plain_edge (child_id (x_id node) "step" (i - 1)%nat)
    (child_id (x_id node) "step" i)) <$> seq 1 (steps - 1) in
  mkSubgraph nodes edges (default (x_id node) (x_id <$> head nodes))
    (default (x_id node) (x_id <$> last nodes)).

Definition expand_debate (node : ExecutionNode) : ExecutionSubgraph :=
  let prop_id := child_id (x_id node) "proposer" 0 in
  let opp_id := child_id (x_id node) "opposer" 0 in
  let judge_id := child_id (x_id node) "judge" 0 in
  mkSubgraph
    [child node prop_id LLMGenerate (x_model node); child node opp_id LLMGenerate (x_model node);
     child node judge_id LLMJudge (x_model node)]
    [plain_edge prop_id opp_id; plain_edge opp_id judge_id] prop_id judge_id.

Definition expand_react (node : ExecutionNode) : ExecutionSubgraph :=
  let reason_id := child_id (x_id node) "reason" 0 in
  let tool_id := child_id (x_id node) "tool" 0 in
  mkSubgraph
    [child node reason_id LLMGenerate (x_model node); child node tool_id XTransform (x_model node)]
    [plain_edge reason_id tool_id] reason_id tool_id.

Definition expand_fusion (node : ExecutionNode) : ExecutionSubgraph :=
  let cand1_id := child_id (x_id node) "candidate" 0 in
  let cand2_id := child_id (x_id node) "candidate" 1 in
  let merger_id := child_id (x_id node) "merger" 0 in
  mkSubgraph
    [child node cand1_id LLMGenerate (x_model node); child node cand2_id LLMGenerate (x_model node);
     child node merger_id LLMJudge (x_model node)]
    [plain_edge cand1_id merger_id; plain_edge cand2_id merger_id] cand1_id merger_id.

Definition expand_custom (node : ExecutionNode) (custom_name : string) : ExecutionSubgraph :=
  let custom_id := child_id (x_id node) custom_name 0 in
  mkSubgraph [child node custom_id LLMGenerate (x_model node)] [] custom_id custom_id.

(** A [StrategyCompiler] is its [compile_subgraph] method. *)
Definition StrategyCompiler : Type := ExecutionNode → string → ExecutionSubgraph.

Definition expanded_subgraph_with_custom (custom : option StrategyCompiler)
    (node : ExecutionNode) : option ExecutionSubgraph :=
  match x_strategy node with
  | Single => None
  | Consensus => Some (expand_consensus node)
  | Reflection => Some (expand_reflection node)
  | Chain => Some (expand_chain node)
  | Debate => Some (expand_debate node)
  | ReAct => Some (expand_react node)
  | Fusion => Some (expand_fusion node)
  | Custom name => (λ c : StrategyCompiler, c node name) <$> custom
  end.
Definition expanded_subgraph (node : ExecutionNode) : option ExecutionSubgraph :=
  expanded_subgraph_with_custom None node.
Definition expanded_subgraph_with_compilers (compilers : gmap string StrategyCompiler)
    (node : ExecutionNode) : option ExecutionSubgraph :=
  match x_strategy node with
  | Custom name => (λ c : StrategyCompiler, c node name) <$> compilers !! name
  | _ => expanded_subgraph node
  end.

(** ** Well-formed subgraphs *)
Definition sub_ids (g : ExecutionSubgraph) : list Uuid := x_id <$> sub_nodes g.
Definition sub_edge (g : ExecutionSubgraph) (u v : Uuid) : Prop :=
  ∃ e, e ∈ sub_edges g ∧ x_from e = u ∧ x_to e = v.

Record sub_wf (g : ExecutionSubgraph) : Prop := {
  sw_ids : NoDup (sub_ids g);
  sw_entry : entry_node_id g ∈ sub_ids g;
  sw_exit : exit_node_id g ∈ sub_ids g;
  sw_edges : ∀ e, e ∈ sub_edges g → x_from e ∈ sub_ids g ∧ x_to e ∈ sub_ids g;
  sw_acyclic : ∀ v, ¬ tc (sub_edge g) v v;
  sw_flow : ∀ v, v ∈ sub_ids g → rtc (sub_edge g) v (exit_node_id g);
  sw_flat : ∀ n, n ∈ sub_nodes g → x_strategy n = Single ∧ x_subgraph n = None;
}.

(** Every name an expansion derives an id from, for one parent. *)
Definition child_names : list (string * nat) :=
  (pair "gen" <$> seq 0 64) ++ (pair "step" <$> seq 0 32) ++
  [("judge", 0); ("generator", 0); ("reviewer", 0); ("proposer", 0); ("opposer", 0);
   ("reason", 0); ("tool", 0); ("candidate", 0); ("candidate", 1); ("merger", 0)]%nat.

(** The ids derived for [parent] do not collide. *)
Definition ids_distinct (parent : Uuid) : Prop :=
  NoDup ((λ ri, child_id parent ri.1 ri.2) <$> child_names).

(** The text a child's id is the digest of. *)
Definition child_text (parent : Uuid) (ri : string * nat) : string :=
  uuid_display parent +:+ ":" +:+ ri.1 +:+ ":" +:+ pretty (N.of_nat ri.2).
(** The digest tells the texts of one parent's children apart, as far as they
    differ. *)
Definition digest_separates (parent : Uuid) : Prop :=
  ∀ x y, x ∈ child_names → y ∈ child_names →
    new_v5 NAMESPACE_URL (child_text parent x) = new_v5 NAMESPACE_URL (child_text parent y) →
    child_text parent x = child_text parent y.
Lemma child_names_differ :
  NoDup ((λ ri : string * nat, ri.1 +:+ ":" +:+ pretty (N.of_nat ri.2)) <$> child_names).
Proof. apply (bool_decide_unpack _). vm_compute. exact I. Qed.
Lemma digest_ids_distinct parent : digest_separates parent → ids_distinct parent.
Proof.
  intros Hsep. unfold ids_distinct. apply NoDup_fmap_2_strong; [|eapply NoDup_fmap_1, child_names_differ].
  intros x y Hx Hy Heq. apply (Hsep x y Hx Hy) in Heq. unfold child_text in Heq.
  do 2 apply str_app_inv_head in Heq.
  apply list_elem_of_lookup in Hx as [i Hi], Hy as [j Hj].
  assert (i = j) as ->; [|congruence].
  eapply (NoDup_lookup _ i j); [exact child_names_differ|by rewrite list_lookup_fmap, Hi|].
  by rewrite list_lookup_fmap, Hj; csimpl; rewrite Heq.
Qed.

Lemma child_id_inj parent r i r' i' :
  ids_distinct parent → (r, i) ∈ child_names → (r', i') ∈ child_names →
  child_id parent r i = child_id parent r' i' → r = r' ∧ i = i'.
Proof.
  unfold ids_distinct. intros Hnd (a & Ha)%list_elem_of_lookup (b & Hb)%list_elem_of_lookup Heq.
  assert (a = b) as ->.
  { eapply (NoDup_lookup _ a b); [exact Hnd|by rewrite list_lookup_fmap, Ha|].
    rewrite list_lookup_fmap, Hb. csimpl. by rewrite Heq. }
  rewrite Ha in Hb. by simplify_eq.
Qed.

Lemma elem_names_gen i : (i < 64)%nat → ("gen", i) ∈ child_names.
Proof. intros Hi. apply elem_of_app. left. apply list_elem_of_fmap. exists i. split; [done|]. apply elem_of_seq. lia. Qed.
Lemma elem_names_step i : (i < 32)%nat → ("step", i) ∈ child_names.
Proof.
  intros Hi. apply elem_of_app. right. apply elem_of_app. left. apply list_elem_of_fmap.
  exists i. split; [done|]. apply elem_of_seq. lia.
Qed.
Lemma elem_names_rest x :
  x ∈ [("judge", 0); ("generator", 0); ("reviewer", 0); ("proposer", 0); ("opposer", 0);
   ("reason", 0); ("tool", 0); ("candidate", 0); ("candidate", 1); ("merger", 0)]%nat →
  x ∈ child_names.
Proof. intros Hx. unfold child_names. rewrite !elem_of_app. auto. Qed.

(** A subgraph whose nodes are listed so that edges lead forward and every node
    but the last has an edge is well-formed, with the last node as exit. *)
Section forward.
Context (parent : Uuid) (names : list (string * nat)) (g : ExecutionSubgraph).
Let f (ri : string * nat) : Uuid := child_id parent ri.1 ri.2.
Context (Hdist : ids_distinct parent) (Hsub : ∀ x, x ∈ names → x ∈ child_names).
Context (Hnd : NoDup names) (Hids : sub_ids g = f <$> names).

Definition edge_between (e : ExecutionEdge) (i j : nat) : Prop :=
  ∃ a b, names !! i = Some a ∧ names !! j = Some b ∧ x_from e = f a ∧ x_to e = f b.

Context (Hfwd : ∀ e, e ∈ sub_edges g → ∃ i j, (i < j)%nat ∧ edge_between e i j).
Context (Hout : ∀ i, (S i < length names)%nat →
  ∃ e j, e ∈ sub_edges g ∧ (i < j)%nat ∧ edge_between e i j).
Context (Hexit : last (sub_ids g) = Some (exit_node_id g)).

Lemma ids_lookup i a : names !! i = Some a → sub_ids g !! i = Some (f a).
Proof using Hids. intros Ha. by rewrite Hids, list_lookup_fmap, Ha. Qed.

Lemma sub_ids_NoDup : NoDup (sub_ids g).
Proof using All.
  rewrite Hids. apply NoDup_fmap_2_strong; [|done].
  intros [r i] [r' i'] Hx Hy Heq.
  destruct (child_id_inj parent r i r' i') as [-> ->]; auto.
Qed.

Lemma forward_flow i a : names !! i = Some a → rtc (sub_edge g) (f a) (exit_node_id g).
Proof using All.
  remember (length names - i)%nat as k eqn:Hk. revert i a Hk.
  induction (lt_wf k) as [k _ IH]; intros i a Hk Ha.
  pose proof (lookup_lt_Some _ _ _ Ha) as Hi.
  destruct (decide (S i < length names)%nat) as [Hlt|Hge].
  - destruct (Hout i Hlt) as (e & j & He & Hij & a' & b & Ha' & Hb & Hf & Ht).
    simplify_eq. apply (rtc_l _ _ (f b)); [by exists e|].
    pose proof (lookup_lt_Some _ _ _ Hb). eapply (IH (length names - j)%nat); [lia|done..].
  - rewrite last_lookup, Hids, length_fmap in Hexit.
    replace (pred (length names)) with i in Hexit by lia.
    rewrite list_lookup_fmap, Ha in Hexit. csimpl in Hexit. injection Hexit as <-. apply rtc_refl.
Qed.

Lemma forward_wf :
  entry_node_id g ∈ sub_ids g →
  (∀ n, n ∈ sub_nodes g → x_strategy n = Single ∧ x_subgraph n = None) → sub_wf g.
Proof using All.
  intros Hentry Hflat. pose proof sub_ids_NoDup as Hnd'. split; try done.
  - rewrite last_lookup in Hexit. by eapply list_elem_of_lookup_2.
  - intros e He. destruct (Hfwd e He) as (i & j & _ & a & b & Ha & Hb & -> & ->).
    split; eapply list_elem_of_lookup_2; by apply ids_lookup.
  - apply (ranked_acyclic _ (λ u, default 0%nat (fst <$> list_find (eq u) (sub_ids g)))).
    intros u v (e & He & <- & <-).
    destruct (Hfwd e He) as (i & j & Hij & a & b & Ha & Hb & -> & ->).
    assert (∀ k c, names !! k = Some c → list_find (eq (f c)) (sub_ids g) = Some (k, f c)) as Hk.
    { intros k c Hc. apply list_find_Some. split_and!; [by apply ids_lookup|done|].
      intros k' y Hy Hlt <-. assert (k = k'); [|lia].
      eapply NoDup_lookup; [done|by apply ids_lookup|done]. }
    by rewrite (Hk i a), (Hk j b).
  - intros v Hv. rewrite Hids in Hv. apply list_elem_of_fmap in Hv as (a & -> & Ha).
    apply list_elem_of_lookup in Ha as [i Hi]. by eapply forward_flow.
Qed.
End forward.

(** ** The expansions are well-formed *)
Ltac names_tac :=
  intros ?; rewrite !elem_of_cons, elem_of_nil; intuition subst; apply elem_names_rest; set_solver.
(** Closes the side conditions of [forward_wf] for a fixed, small subgraph. *)
Ltac small_sub_tac :=
  match goal with
  | |- NoDup _ => rewrite !NoDup_cons, !elem_of_cons, !elem_of_nil; split_and!;
      try apply NoDup_nil_2; intuition discriminate
  | |- ∀ n, n ∈ _ → _ ∧ _ => intros ?; csimpl; rewrite !elem_of_cons, elem_of_nil; intuition subst; done
  | |- _ ∈ _ => unfold sub_ids; csimpl; set_solver
  | |- _ => done
  end.

Lemma expand_reflection_wf node : ids_distinct (x_id node) → sub_wf (expand_reflection node).
Proof.
  intros Hd. apply (forward_wf (x_id node) [("generator", 0); ("reviewer", 0)]%nat); try small_sub_tac.
  - names_tac.
  - csimpl. intros e ->%list_elem_of_singleton. exists 0%nat, 1%nat. split; [lia|]. by do 2 eexists.
  - intros i Hi. csimpl in Hi. assert (i = 0%nat) as -> by lia. eexists _, 1%nat.
    split; [by apply list_elem_of_singleton|]. split; [lia|]. by do 2 eexists.
Qed.

Lemma expand_react_wf node : ids_distinct (x_id node) → sub_wf (expand_react node).
Proof.
  intros Hd. apply (forward_wf (x_id node) [("reason", 0); ("tool", 0)]%nat); try small_sub_tac.
  - names_tac.
  - csimpl. intros e ->%list_elem_of_singleton. exists 0%nat, 1%nat. split; [lia|]. by do 2 eexists.
  - intros i Hi. csimpl in Hi. assert (i = 0%nat) as -> by lia. eexists _, 1%nat.
    split; [by apply list_elem_of_singleton|]. split; [lia|]. by do 2 eexists.
Qed.

Lemma expand_debate_wf node : ids_distinct (x_id node) → sub_wf (expand_debate node).
Proof.
  intros Hd. apply (forward_wf (x_id node) [("proposer", 0); ("opposer", 0); ("judge", 0)]%nat);
    try small_sub_tac.
  - names_tac.
  - csimpl. intros e. rewrite !elem_of_cons, elem_of_nil. intros [-> | [-> | []]].
    + exists 0%nat, 1%nat. split; [lia|]. by do 2 eexists.
    + exists 1%nat, 2%nat. split; [lia|]. by do 2 eexists.
  - intros i Hi. csimpl in Hi. assert (i = 0%nat ∨ i = 1%nat) as [->| ->] by lia.
    + eexists _, 1%nat. split; [left|]. split; [lia|]. by do 2 eexists.
    + eexists _, 2%nat. split; [right; left|]. split; [lia|]. by do 2 eexists.
Qed.

Lemma expand_fusion_wf node : ids_distinct (x_id node) → sub_wf (expand_fusion node).
Proof.
  intros Hd. apply (forward_wf (x_id node) [("candidate", 0); ("candidate", 1); ("merger", 0)]%nat);
    try small_sub_tac.
  - names_tac.
  - csimpl. intros e. rewrite !elem_of_cons, elem_of_nil. intros [-> | [-> | []]].
    + exists 0%nat, 2%nat. split; [lia|]. by do 2 eexists.
    + exists 1%nat, 2%nat. split; [lia|]. by do 2 eexists.
  - intros i Hi. csimpl in Hi. assert (i = 0%nat ∨ i = 1%nat) as [->| ->] by lia.
    + eexists _, 2%nat. split; [left|]. split; [lia|]. by do 2 eexists.
    + eexists _, 2%nat. split; [right; left|]. split; [lia|]. by do 2 eexists.
Qed.

Lemma resolved_chain_steps_range config : (1 <= resolved_chain_steps config <= 32)%nat.
Proof.
  unfold resolved_chain_steps, clamp, MIN_CHAIN_STEPS, MAX_CHAIN_STEPS, DEFAULT_CHAIN_STEPS.
  repeat case_match; lia.
Qed.

Lemma consensus_members_range node : (1 <= length (consensus_members node) <= 64)%nat.
Proof.
  unfold consensus_members, consensus_count, clamp, MAX_CONSENSUS_MEMBERS.
  case_decide as Hm; [rewrite length_replicate; lia|].
  match goal with |- context [length (take ?n ?l)] =>
    assert (length (take n l) <= n)%nat by (rewrite length_take; lia);
    destruct (take n l) end; [done|]. csimpl in *. lia.
Qed.

Lemma expand_chain_wf node : ids_distinct (x_id node) → sub_wf (expand_chain node).
Proof.
  intros Hd. pose proof (resolved_chain_steps_range (x_config node)) as Hr.
  unfold expand_chain. set (k := resolved_chain_steps (x_config node)) in *. clearbody k.
  assert (∀ i, (i < k)%nat → (pair "step" <$> seq 0 k) !! i = Some ("step", i)) as Hlk.
  { intros i Hi. by rewrite list_lookup_fmap, lookup_seq_lt. }
  apply (forward_wf (x_id node) (pair "step" <$> seq 0 k)).
  - done.
  - intros x (i & -> & Hi%elem_of_seq)%list_elem_of_fmap. apply elem_names_step. lia.
  - apply NoDup_fmap_2; [by intros ?? [=]|apply NoDup_seq].
  - unfold sub_ids; csimpl. by rewrite <- !list_fmap_compose.
  - csimpl. intros e (i & -> & Hi%elem_of_seq)%list_elem_of_fmap.
    exists (i - 1)%nat, i. split; [lia|]. exists ("step", (i - 1)%nat), ("step", i).
    rewrite !Hlk by lia. done.
  - rewrite length_fmap, length_seq. intros i Hi.
    eexists _, (S i). split; [|split; [lia|]].
    + csimpl. apply list_elem_of_fmap. exists (S i). split; [done|]. apply elem_of_seq. lia.
    + exists ("step", i), ("step", S i). rewrite !Hlk by lia. csimpl. rewrite Nat.sub_0_r. done.
  - unfold sub_ids; csimpl. rewrite fmap_last.
    destruct (last _) eqn:Hl; [done|]. apply last_None, fmap_nil_inv in Hl.
    destruct k; [lia|done].
  - unfold sub_ids; csimpl. destruct k as [|k]; [lia|]. csimpl. set_solver.
  - csimpl. by intros n (i & -> & _)%list_elem_of_fmap.
Qed.

Lemma expand_consensus_wf node : ids_distinct (x_id node) → sub_wf (expand_consensus node).
Proof.
  intros Hd. pose proof (consensus_members_range node) as Hr.
  unfold expand_consensus. set (ms := consensus_members node) in *. clearbody ms.
  set (gens := imap _ ms).
  assert (∀ i, (i < length ms)%nat → ((pair "gen" <$> seq 0 (length ms)) ++ [("judge", 0%nat)]) !! i
    = Some ("gen", i)) as Hlk.
  { intros i Hi. rewrite lookup_app_l by (rewrite length_fmap, length_seq; lia).
    by rewrite list_lookup_fmap, lookup_seq_lt. }
  assert (((pair "gen" <$> seq 0 (length ms)) ++ [("judge", 0%nat)]) !! length ms
    = Some ("judge", 0%nat)) as Hlast.
  { rewrite lookup_app_r by (rewrite length_fmap, length_seq; lia).
    by rewrite length_fmap, length_seq, Nat.sub_diag. }
  assert (x_id <$> gens = (λ i, child_id (x_id node) "gen" i) <$> seq 0 (length ms)) as Hgens.
  { apply list_eq. intros i. unfold gens. rewrite !list_lookup_fmap, list_lookup_imap.
    destruct (decide (i < length ms)%nat) as [Hi|Hi].
    - destruct (lookup_lt_is_Some_2 ms i Hi) as [m ->]. by rewrite lookup_seq_lt.
    - rewrite (lookup_ge_None_2 ms), (lookup_ge_None_2 (seq _ _)); [done|rewrite ?length_seq; lia..]. }
  assert (∀ x, x ∈ gens → x_strategy x = Single ∧ x_subgraph x = None ∧
    ∃ i, (i < length ms)%nat ∧ x_id x = child_id (x_id node) "gen" i) as Hin.
  { intros x (i & Hi)%list_elem_of_lookup. unfold gens in Hi. rewrite list_lookup_imap in Hi.
    apply fmap_Some in Hi as (m & Hm & ->). split_and!; [done..|]. exists i.
    split; [by eapply lookup_lt_Some|done]. }
  apply (forward_wf (x_id node) ((pair "gen" <$> seq 0 (length ms)) ++ [("judge", 0%nat)])).
  - done.
  - intros x [(i & -> & Hi%elem_of_seq)%list_elem_of_fmap|Hx]%elem_of_app.
    + apply elem_names_gen. lia.
    + apply list_elem_of_singleton in Hx as ->. apply elem_names_rest. set_solver.
  - apply NoDup_app. split_and!.
    + apply NoDup_fmap_2; [by intros ?? [=]|apply NoDup_seq].
    + intros x (i & -> & _)%list_elem_of_fmap. by intros [=]%list_elem_of_singleton.
    + apply NoDup_singleton.
  - unfold sub_ids; csimpl. rewrite !fmap_app, Hgens, <- list_fmap_compose. done.
  - csimpl. intros e (x & -> & Hx)%list_elem_of_fmap.
    destruct (Hin x Hx) as (_ & _ & i & Hi & Hid). exists i, (length ms). split; [done|].
    exists ("gen", i), ("judge", 0%nat). rewrite Hlk by done. csimpl. by rewrite Hid.
  - rewrite length_app, length_fmap, length_seq. csimpl. intros i Hi.
    assert (i < length ms)%nat as Hi' by lia.
    destruct (lookup_lt_is_Some_2 ms i Hi') as [m Hm].
    eexists _, (length ms). split; [|split; [done|]].
    + csimpl. apply list_elem_of_fmap. eexists. split; [done|].
      apply list_elem_of_lookup. exists i. unfold gens. by rewrite list_lookup_imap, Hm.
    + exists ("gen", i), ("judge", 0%nat). by rewrite Hlk.
  - unfold sub_ids; csimpl. rewrite fmap_app. apply last_snoc.
  - unfold sub_ids; csimpl. rewrite fmap_app. destruct gens as [|x l] eqn:Hg; csimpl; set_solver.
  - csimpl. intros n [Hn|Hn]%elem_of_app; [by destruct (Hin n Hn) as (? & ? & _)|].
    by apply list_elem_of_singleton in Hn as ->.
Qed.

(** Children never expand again and are configured as their parent. *)
Lemma expanded_child node g n :
  expanded_subgraph_with_compilers ∅ node = Some g → n ∈ sub_nodes g →
  x_subgraph n = None ∧ x_config n = x_config node.
Proof.
  unfold expanded_subgraph_with_compilers, expanded_subgraph, expanded_subgraph_with_custom.
  destruct (x_strategy node); intros Hg Hn; simplify_eq/=; rewrite ?elem_of_app, ?elem_of_cons in Hn;
    repeat match goal with
    | H : _ ∨ _ |- _ => destruct H as [H|H]
    | H : _ ∈ [] |- _ => by apply elem_of_nil in H
    | H : _ ∈ imap _ _ |- _ => apply elem_of_lookup_imap in H as (? & ? & -> & _)
    | H : _ ∈ _ <$> _ |- _ => apply list_elem_of_fmap in H as (? & -> & _)
    | H : n = _ |- _ => subst n
    end; done.
Qed.

(** The expansion a custom strategy has unless its compiler defines another. *)
Lemma expand_custom_wf node name : sub_wf (expand_custom node name).
Proof.
  unfold expand_custom. split; csimpl; unfold sub_ids; csimpl.
  - apply NoDup_singleton.
  - by apply list_elem_of_singleton.
  - by apply list_elem_of_singleton.
  - by intros e ?%elem_of_nil.
  - intros v Hv. inversion Hv as [? ? (e & He & _)|? ? ? (e & He & _)]; by apply elem_of_nil in He.
  - intros v ->%list_elem_of_singleton. apply rtc_refl.
  - by intros n ->%list_elem_of_singleton.
Qed.

(** C38. Whatever the configuration, a built-in strategy expands to a well-formed
    subgraph: distinct ids, entry and exit among the nodes, no dangling edge,
    no cycle, every node leading to the exit, children that do not expand
    again, and at most 65 nodes. [Single] and an unregistered [Custom] do not
    expand, and the default of a custom compiler ([expand_custom]) is well formed.
    The digest behind [Uuid::new_v5] must separate the different names that
    children of one node have. *)
Theorem expansion_well_formed node :
  digest_separates (x_id node) →
  match expanded_subgraph node with
  | Some g => sub_wf g ∧ (1 <= length (sub_nodes g) <= 65)%nat
  | None => x_strategy node = Single ∨ ∃ name, x_strategy node = Custom name
  end ∧ ∀ name, sub_wf (expand_custom node name).
Proof.
  intros Hd%digest_ids_distinct. split; [|apply expand_custom_wf].
  unfold expanded_subgraph, expanded_subgraph_with_custom.
  destruct (x_strategy node) eqn:Hs; eauto.
  - split; [by apply expand_consensus_wf|]. csimpl.
    rewrite length_app, length_imap. pose proof (consensus_members_range node). csimpl. lia.
  - split; [by apply expand_reflection_wf|]. csimpl. lia.
  - split; [by apply expand_chain_wf|]. csimpl. rewrite length_fmap, length_seq.
    pose proof (resolved_chain_steps_range (x_config node)). lia.
  - split; [by apply expand_debate_wf|]. csimpl. lia.
  - split; [by apply expand_react_wf|]. csimpl. lia.
  - split; [by apply expand_fusion_wf|]. csimpl. lia.
  - csimpl. eauto.
Qed.

(** Numbers in a configuration are [u64]s. *)
Definition config_ok (c : Config) : Prop :=
  ∀ k n, c !! k ≫= as_u64 = Some n → is_u64 n.

Definition string_members (c : Config) : list string :=
  match c !! "members" ≫= as_array with Some items => omap as_str items | None => [] end.

Lemma length_omap_le {A B} (f : A → option B) l : (length (omap f l) <= length l)%nat.
Proof. induction l as [|x l IH]; csimpl; [lia|]. destruct (f x); csimpl; lia. Qed.

Lemma consensus_validated n :
  config_ok (ir_config n) → validate_consensus_config n = Ok tt →
  (∀ c, ir_config n !! "count" ≫= as_u64 = Some c → 1 ≤ c ≤ MAX_CONSENSUS_MEMBERS) ∧
  (length (string_members (ir_config n)) <= 64)%nat.
Proof.
  intros Hok Hv. unfold validate_consensus_config, lowering_error in Hv.
  destruct (ir_config n !! "count" ≫= as_u64) as [c|] eqn:Hc.
  - pose proof (Hok "count" c Hc) as Hr. case_decide; [done|].
    destruct (MAX_CONSENSUS_MEMBERS <? c)%Z eqn:Hm; [done|]. csimpl in Hv. split.
    + intros ? [= <-]. unfold_ints. lia.
    + unfold string_members, MAX_CONSENSUS_MEMBERS, len in *.
      destruct (ir_config n !! "members" ≫= as_array) as [ms|]; csimpl; [|lia].
      pose proof (length_omap_le as_str ms). case_match; [done|]. lia.
  - csimpl in Hv. split; [done|]. unfold string_members, MAX_CONSENSUS_MEMBERS, len in *.
    destruct (ir_config n !! "members" ≫= as_array) as [ms|]; csimpl; [|lia].
    pose proof (length_omap_le as_str ms). case_match; [done|]. lia.
Qed.

(** The lowering pass and the expansion agree: once a configuration is
    accepted, expansion does not change the fan-out that was asked for. A
    Consensus node gets one generator per named member, or [count] of them
    (3 when absent); a Chain gets one node per stage, or [steps] of them up to
    32 (2 when absent). *)
Theorem validated_expansion_exact n x :
  x_config x = ir_config n → config_ok (ir_config n) →
  (validate_consensus_config n = Ok tt →
     length (sub_nodes (expand_consensus x)) =
     S (if decide (string_members (ir_config n) = [])
        then Z.to_nat (default 3 (ir_config n !! "count" ≫= as_u64))
        else length (string_members (ir_config n)))) ∧
  (validate_chain_config n = Ok tt →
     length (sub_nodes (expand_chain x)) =
     match ir_config n !! "stages" ≫= as_array with
     | Some stages => length stages
     | None => match ir_config n !! "steps" ≫= as_u64 with
               | Some steps => Z.to_nat (Z.min steps MAX_CHAIN_STEPS)
               | None => 2%nat
               end
     end).
Proof.
  intros Hx Hok. split; intros Hv.
  - destruct (consensus_validated n Hok Hv) as [Hcount Hlen].
    csimpl. rewrite length_app, length_imap. csimpl. rewrite Nat.add_comm. csimpl. f_equal.
    unfold consensus_members. rewrite Hx. fold (string_members (ir_config n)).
    rewrite take_ge by (unfold MAX_CONSENSUS_MEMBERS; lia).
    case_decide; [|done]. rewrite length_replicate. unfold consensus_count. rewrite Hx.
    destruct (ir_config n !! "count" ≫= as_u64) as [c|] eqn:Hc; csimpl; [|done].
    specialize (Hcount c eq_refl). unfold clamp. lia.
  - csimpl. rewrite length_fmap, length_seq. unfold resolved_chain_steps. rewrite Hx.
    unfold validate_chain_config, lowering_error in Hv.
    destruct (ir_config n !! "stages") as [v|] eqn:Hst; csimpl.
    + destruct (as_array v) as [stages|]; [|done]. case_decide as Hne; [done|].
      destruct (MAX_CHAIN_STEPS <? len stages)%Z eqn:Hm; [done|].
      unfold clamp, len, MIN_CHAIN_STEPS, MAX_CHAIN_STEPS in *.
      assert (length stages ≠ 0%nat) by by destruct stages. lia.
    + destruct (ir_config n !! "steps") as [v|] eqn:Hsp; csimpl; [|done].
      destruct (as_u64 v) as [steps|] eqn:Hu; [|done]. case_decide as Hne; [done|].
      pose proof (Hok "steps" steps) as Hr. rewrite Hsp in Hr. specialize (Hr Hu).
      unfold clamp, MIN_CHAIN_STEPS, MAX_CHAIN_STEPS. unfold_ints. lia.
Qed.
End expansion.

(** The lowering pass never changes the workflow, and it accepts it exactly
    when every node's strategy is accepted. *)
Lemma strategy_lowering_ok registered ir ir' :
  strategy_lowering registered ir = Ok ir' ↔
  ir' = ir ∧ ∀ n, n ∈ ir_nodes ir → validate_strategy registered n = Ok tt.
Proof.
  unfold strategy_lowering. rewrite <- try_for_each_ok.
  destruct (try_for_each _ _) as [[]|e]; csimpl; split.
  - intros [= <-]. done.
  - by intros [-> _].
  - done.
  - by intros [_ ?].
Qed.

(** ** Concrete expansions *)

(** An id derivation without collisions, for the witnesses. *)
Definition demo_v5 (_ : Uuid) (name : string) : Uuid := N.pos (encode name).
Definition demo_display (u : Uuid) : string := pretty u.
Definition demo_node (s : StrategyKind) (c : Config) : ExecutionNode :=
  mkExecNode 7 LLMGenerate s "gpt-4o" (mkRetry 2 1000) None c None.

Lemma demo_digest_separates : digest_separates demo_v5 demo_display 7.
Proof.
  assert (Forall (λ x, Forall (λ y,
    demo_v5 NAMESPACE_URL (child_text demo_display 7 x) = demo_v5 NAMESPACE_URL (child_text demo_display 7 y) →
    child_text demo_display 7 x = child_text demo_display 7 y) child_names) child_names) as Hall
    by (apply (bool_decide_unpack _); vm_compute; exact I).
  intros x y Hx Hy. rewrite Forall_forall in Hall. specialize (Hall x Hx). rewrite Forall_forall in Hall. auto.
Qed.

Lemma expansion_well_formed_witness :
  match expanded_subgraph demo_v5 demo_display
          (demo_node Consensus {["count" := JNumber (PosInt 1000000)]}) with
  | Some g => sub_wf g ∧ (1 <= length (sub_nodes g) <= 65)%nat
  | None => Consensus = Single ∨ ∃ name, Consensus = Custom name
  end ∧ ∀ name, sub_wf (expand_custom demo_v5 demo_display
          (demo_node Consensus {["count" := JNumber (PosInt 1000000)]}) name).
Proof.
  exact (expansion_well_formed demo_v5 demo_display
    (demo_node Consensus {["count" := JNumber (PosInt 1000000)]}) demo_digest_separates).
Defined.

Definition demo_config : Config := {["stages" := JArray [JNull; JNull; JNull]]}.
Definition demo_ir_node : IRNode := mkIRNode 7 KGenerate Chain None demo_config.
Lemma validated_expansion_exact_witness :
  (validate_consensus_config demo_ir_node = Ok tt →
     length (sub_nodes (expand_consensus demo_v5 demo_display (demo_node Chain demo_config))) =
     S (if decide (string_members demo_config = [])
        then Z.to_nat (default 3 (demo_config !! "count" ≫= as_u64))
        else length (string_members demo_config))) ∧
  (validate_chain_config demo_ir_node = Ok tt →
     length (sub_nodes (expand_chain demo_v5 demo_display (demo_node Chain demo_config))) =
     match demo_config !! "stages" ≫= as_array with
     | Some stages => length stages
     | None => match demo_config !! "steps" ≫= as_u64 with
               | Some steps => Z.to_nat (Z.min steps MAX_CHAIN_STEPS)
               | None => 2%nat
               end
     end).
Proof.
  apply (validated_expansion_exact demo_v5 demo_display demo_ir_node (demo_node Chain demo_config)).
  - reflexivity.
  - intros k n. change (ir_config demo_ir_node) with demo_config. unfold demo_config.
    destruct (decide (k = "stages")) as [->|Hne]; [discriminate|].
    rewrite lookup_singleton_ne by congruence. discriminate.
Defined.
