(* ===== verification/Compiler.v ===== *)
(** * The compiler: passes, lowering, pipeline
    ([crates/fusion-compiler/src/lib.rs], [content_hash.rs])

    Every pass is a function from workflow to workflow or error; the engine
    runs a list of them and lowers the result to an execution graph. Hash
    order, UUID derivation and [serde_json]'s printer are parameters; the
    resource manager is the class of [Budget]. Route scoring and wall-clock
    durations, which only feed the report, are left out. *)
From S2P Require Import Prelude Graphs Text Json Money Budget ExecTypes Policy Strategy.

Definition MAX_IR_NODES : Z := 10000.
Definition pass_result := result CompilerError WorkflowIR.
Definition with_nodes (ir : WorkflowIR) (ns : list IRNode) (es : list IREdge) : WorkflowIR :=
  mkIR (plan_id ir) ns es (ir_metadata ir).

(** ** Constraint validation *)
Definition constraint_validation (ir : WorkflowIR) : pass_result :=
  if decide (ir_nodes ir = []) then
    Err (ValidationError "constraint_validation" None MsgNoNodes)
  else if (MAX_IR_NODES <? len (ir_nodes ir))%Z then
    Err (ValidationError "constraint_validation" None (MsgTooManyNodes (len (ir_nodes ir))))
  else Ok ir.

(** ** Model resolution *)
Definition is_control_flow (k : IRNodeKind) : bool :=
  match k with KConditional | KLoop | KSplit | KJoin | KBarrier => true | _ => false end.
Definition resolve_model (cat : ModelCatalog) (n : IRNode) : IRNode :=
  if is_control_flow (ir_kind n) then n
  else match ir_model n with
    | None => mkIRNode (ir_id n) (ir_kind n) (ir_strategy n) (Some (cat_fast cat)) (ir_config n)
    | Some _ => n
    end.
Definition model_resolution (cat : ModelCatalog) (ir : WorkflowIR) : pass_result :=
  Ok (with_nodes ir (resolve_model cat <$> ir_nodes ir) (ir_edges ir)).

(** ** Control-flow validation *)
Definition cf_error (id : option Uuid) (m : CompilerMsg) : result CompilerError unit :=
  Err (ValidationError "control_flow_validation" id m).
Definition outgoing (ir : WorkflowIR) (id : Uuid) : list IREdge :=
  filter (λ e, ire_from e = id) (ir_edges ir).
Definition incoming (ir : WorkflowIR) (id : Uuid) : list IREdge :=
  filter (λ e, ire_to e = id) (ir_edges ir).

Definition check_edge_refs (ids : gset Uuid) (e : IREdge) : result CompilerError unit :=
  if decide (ire_from e ∉ ids) then cf_error None (MsgUnknownSource (ire_from e))
  else if decide (ire_to e ∉ ids) then cf_error None (MsgUnknownTarget (ire_to e))
  else Ok tt.

Definition check_node_kind (ir : WorkflowIR) (n : IRNode) : result CompilerError unit :=
  let id := Some (ir_id n) in
  match ir_kind n with
  | KConditional =>
      if decide (outgoing ir (ir_id n) = []) then cf_error id MsgConditionalNoOutgoing
      else if negb (existsb (λ e, bool_decide (is_Some (ire_condition e))) (outgoing ir (ir_id n)))
      then cf_error id MsgConditionalNoCondition else Ok tt
  | KLoop =>
      if decide (outgoing ir (ir_id n) = []) then cf_error id MsgLoopNoOutgoing
      else if decide (ir_config n !! "max_iterations" = None)
      then cf_error id MsgLoopNoMaxIterations else Ok tt
  | KSplit =>
      if (len (outgoing ir (ir_id n)) <? 2)%Z
      then cf_error id (MsgSplitArity (len (outgoing ir (ir_id n)))) else Ok tt
  | KJoin =>
      if (len (incoming ir (ir_id n)) <? 2)%Z
      then cf_error id (MsgJoinArity (len (incoming ir (ir_id n)))) else Ok tt
  | KBarrier =>
      if decide (incoming ir (ir_id n) = []) then cf_error id MsgBarrierNoIncoming
      else if decide (outgoing ir (ir_id n) = []) then cf_error id MsgBarrierNoOutgoing
      else Ok tt
  | _ => Ok tt
  end.

(** The graph map of [three_color_cycle_detect]: every endpoint is a key. *)
Definition cycle_graph (es : list (Uuid * Uuid)) : gmap Uuid (list Uuid) :=
  foldl (λ m ft, let m := push_at ft.1 ft.2 m in
                 <[ft.2 := default [] (m !! ft.2)]> m) ∅ es.
Definition children (m : gmap Uuid (list Uuid)) (v : Uuid) : list Uuid := default [] (m !! v).

(** The inner [while] loop; [Err node] is the early return on a grey child. *)
Fixpoint cycle_loop (ch : Uuid → list Uuid) (fuel : nat) (colors : gmap Uuid Color)
    (stack : list (Uuid * nat)) : option (result Uuid (gmap Uuid Color)) :=
  match stack with
  | [] => Some (Ok colors)
  | (node, i) :: rest =>
      match fuel with
      | O => None
      | S fuel =>
          match ch node !! i with
          | Some next =>
              match color_of colors next with
              | Grey => Some (Err node)
              | White => cycle_loop ch fuel (<[next := Grey]> colors)
                           ((next, 0%nat) :: (node, S i) :: rest)
              | Black => cycle_loop ch fuel colors ((node, S i) :: rest)
              end
          | None => cycle_loop ch fuel (<[node := Black]> colors) rest
          end
      end
  end.

Fixpoint cycle_roots (ch : Uuid → list Uuid) (fuel : nat) (colors : gmap Uuid Color)
    (roots : list Uuid) : option (result Uuid unit) :=
  match roots with
  | [] => Some (Ok tt)
  | r :: roots =>
      if decide (color_of colors r = White) then
        res ← cycle_loop ch fuel (<[r := Grey]> colors) [(r, 0%nat)];
        match res with
        | Ok colors => cycle_roots ch fuel colors roots
        | Err n => Some (Err n)
        end
      else cycle_roots ch fuel colors roots
  end.

Section order.
Context `{!HashIter N}.

Definition three_color_cycle_detect (es : list (Uuid * Uuid)) : result Uuid unit :=
  let g := cycle_graph es in
  let keys := map_keys g in
  default (Ok tt) (cycle_roots (children g) (dfs_fuel (children g) keys) ∅ keys).

Definition plain_pairs (ir : WorkflowIR) : list (Uuid * Uuid) :=
  (λ e, (ire_from e, ire_to e)) <$> filter (λ e, ire_condition e ≠ Some "loop") (ir_edges ir).

Definition detect_illegal_cycles (ir : WorkflowIR) : result CompilerError unit :=
  match three_color_cycle_detect (plain_pairs ir) with
  | Ok _ => Ok tt
  | Err node => cf_error (Some node) MsgIllegalCycle
  end.

Definition control_flow_validation (ir : WorkflowIR) : pass_result :=
  let ids : gset Uuid := list_to_set (ir_id <$> ir_nodes ir) in
  try_for_each (check_edge_refs ids) (ir_edges ir);;
  try_for_each (check_node_kind ir) (ir_nodes ir);;
  detect_illegal_cycles ir;;
  Ok ir.

(** ** Dead-node elimination *)
Definition entry_points (ir : WorkflowIR) : gset Uuid :=
  let has_incoming : gset Uuid := list_to_set (ire_to <$> ir_edges ir) in
  let has_outgoing : gset Uuid := list_to_set (ire_from <$> ir_edges ir) in
  list_to_set (filter (λ id, id ∉ has_incoming ∧ id ∈ has_outgoing) (ir_id <$> ir_nodes ir)).

(** The targets of the edges that leave a node, in edge order. *)
Definition successors (ir : WorkflowIR) (id : Uuid) : list Uuid := ire_to <$> outgoing ir id.
Definition edge_ids (ir : WorkflowIR) : list Uuid :=
  (ire_from <$> ir_edges ir) ++ (ire_to <$> ir_edges ir).

Definition live_ids (ir : WorkflowIR) : gset Uuid :=
  let roots := set_iter (entry_points ir) in
  default ∅ (wl_loop (push_fifo (successors ir))
    (wl_fuel (successors ir) (roots ++ edge_ids ir) roots) roots ∅).

Definition dead_node_elimination (ir : WorkflowIR) : pass_result :=
  if decide (ir_nodes ir = []) then Ok ir
  else if decide (ir_edges ir = []) then Ok ir
  else if decide (entry_points ir = ∅) then Ok ir
  else
    let reachable := live_ids ir in
    Ok (with_nodes ir (filter (λ n, ir_id n ∈ reachable) (ir_nodes ir))
          (filter (λ e, ire_from e ∈ reachable ∧ ire_to e ∈ reachable) (ir_edges ir))).
End order.

(** ** Budget *)
Definition budget_optimisation {M} `{!ResourceManager M} (rm : M) (ir : WorkflowIR)
    : pass_result :=
  if rm_can_afford rm (m_estimated_cost (ir_metadata ir)) (m_estimated_tokens (ir_metadata ir))
  then Ok ir
  else Err (ValidationError "budget_optimisation" None MsgBudgetExceeded).

(** ** Policy *)
Definition kind_tag (k : IRNodeKind) : string :=
  match k with
  | KGenerate => "Generate" | KReview => "Review" | KJudge => "Judge"
  | KTransform => "Transform" | KGate => "Gate" | KConditional => "Conditional"
  | KLoop => "Loop" | KSplit => "Split" | KJoin => "Join" | KBarrier => "Barrier"
  end.

Inductive PolicyMatchEvent :=
| RuleMatched (rule symbol : string) (eff : PolicyEffect)
| NodeInserted (gate target : Uuid).

Section policy.
Context (json_to_string : json → string) (new_v5 : Uuid → string → Uuid).

Definition node_capability (n : IRNode) : option string :=
  ir_config n !! "capability" ≫= as_str.
Definition symbol_key (n : IRNode) : string :=
  match node_capability n with
  | Some c => c
  | None => default "general" (ir_model n)
  end.
Definition node_facts (n : IRNode) : PolicyFacts :=
  mkFacts (default "" (ir_model n)) (as_label (ir_strategy n)) (Some (kind_tag (ir_kind n)))
    (node_capability n).
Definition rule_for (p : PolicyIR) (n : IRNode) : option PolicyRule :=
  evaluate_matching_rule json_to_string p (symbol_key n) (node_facts n).

Definition gate_id (n : IRNode) : Uuid := new_v5 (ir_id n) "policy_approval_gate".
Definition gate_node (n : IRNode) : IRNode :=
  mkIRNode (gate_id n) KGate Single (Some "policy.approval_gate") ∅.

(** The state of the loop: edges, gates to append, trace. *)
Record PolicyAcc := mkPolicyAcc {
  pa_edges : list IREdge;
  pa_gates : list IRNode;
  pa_trace : list PolicyMatchEvent;
}.

Definition already_guarded (ns : list IRNode) (es : list IREdge) (n : IRNode) : bool :=
  existsb (λ e, bool_decide (ire_to e = ir_id n) &&
    existsb (λ m, bool_decide (ir_id m = ire_from e ∧ ir_kind m = KGate)) ns) es.

Definition policy_node (p : PolicyIR) (ns : list IRNode) (acc : PolicyAcc) (n : IRNode)
    : result CompilerError PolicyAcc :=
  match rule_for p n with
  | None => Ok acc
  | Some r =>
      let trace := pa_trace acc ++ [RuleMatched (rule_id r) (symbol_key n) (effect r)] in
      match effect r with
      | Deny => Err (ValidationError "policy" (Some (ir_id n))
          (MsgPolicyDenies (rule_id r) (target_pattern r) (ir_id n)))
      | Approval =>
          if already_guarded ns (pa_edges acc) n
          then Ok (mkPolicyAcc (pa_edges acc) (pa_gates acc) trace)
          else Ok (mkPolicyAcc (pa_edges acc ++ [mkIREdge (gate_id n) (ir_id n) None])
                 (pa_gates acc ++ [gate_node n])
                 (trace ++ [NodeInserted (gate_id n) (ir_id n)]))
      | Allow => Ok (mkPolicyAcc (pa_edges acc) (pa_gates acc) trace)
      end
  end.

Definition policy_pass (p : PolicyIR) (ir : WorkflowIR) : pass_result :=
  acc ← try_fold (policy_node p (ir_nodes ir)) (mkPolicyAcc (ir_edges ir) [] []) (ir_nodes ir);
  Ok (with_nodes ir (ir_nodes ir ++ pa_gates acc) (pa_edges acc)).
End policy.

(** ** The content hash *)
Section hash.
Context `{!HashIter string} (json_to_string : json → string).

Definition FNV_OFFSET : Z := 0xcbf29ce484222325.
Definition FNV_PRIME : Z := 0x100000001b3.
Definition mix (h byte : Z) : Z := u64_wrapping_mul (Z.lxor h byte) FNV_PRIME.
Definition le_bytes (v : Z) : list Z :=
  (λ i, Z.land (Z.shiftr v (8 * Z.of_nat i)) 255) <$> seq 0 8.
Definition mix_u64 (h v : Z) : Z := foldl mix h (le_bytes v).
Definition string_bytes (s : string) : list Z :=
  (λ c, Z.of_nat (Ascii.nat_of_ascii c)) <$> String.list_ascii_of_string s.
Definition mix_str (h : Z) (s : string) : Z :=
  foldl mix (mix_u64 h (Z.of_nat (String.length s))) (string_bytes s).

(** [as_u128() as u64] and [(as_u128() >> 64) as u64]. *)
Definition low64 (u : Uuid) : Z := Z.of_N u `mod` 2 ^ 64.
Definition high64 (u : Uuid) : Z := Z.shiftr (Z.of_N u) 64 `mod` 2 ^ 64.

Definition canonical_config_json (config : Config) : option string :=
  if decide (config = ∅) then None
  else Some (json_to_string (canonicalize (JObject (obj_of_list (map_iter config))))).

Definition mix_option (h : Z) (o : option string) : Z :=
  match o with Some s => mix_str h s | None => mix h 0 end.
Definition mix_node (h : Z) (n : IRNode) : Z :=
  let h := mix_u64 (mix_u64 h (low64 (ir_id n))) (high64 (ir_id n)) in
  let h := mix_str (mix_str h (kind_tag (ir_kind n))) (as_label (ir_strategy n)) in
  let h := mix_option h (ir_model n) in
  match canonical_config_json (ir_config n) with Some c => mix_str h c | None => h end.
Definition mix_edge (h : Z) (e : IREdge) : Z :=
  mix_option (mix_u64 (mix_u64 h (low64 (ire_from e))) (low64 (ire_to e))) (ire_condition e).

Definition node_id_leb (a b : IRNode) : bool := (ir_id a <=? ir_id b)%N.
Definition edge_pair (e : IREdge) : N * N := (ire_from e, ire_to e).
Definition edge_id_leb (a b : IREdge) : bool := lex_leb N.leb N.leb (edge_pair a) (edge_pair b).

Definition compute_workflow_content_hash (ir : WorkflowIR) : Z :=
  let h := mix_u64 (mix_u64 FNV_OFFSET (low64 (plan_id ir))) (high64 (plan_id ir)) in
  let h := mix_u64 (mix_u64 h (m_policy_version (ir_metadata ir))) (len (ir_nodes ir)) in
  let h := foldl mix_node h (sort_by node_id_leb (ir_nodes ir)) in
  foldl mix_edge h (sort_by edge_id_leb (ir_edges ir)).
End hash.

(** ** Lowering *)
Definition lower_kind (k : IRNodeKind) : ExecutionNodeKind :=
  match k with
  | KGenerate => LLMGenerate | KReview => LLMReview | KJudge => LLMJudge
  | KTransform => XTransform | KGate => XGate | KConditional => XConditional
  | KLoop => XLoop | KSplit => XSplit | KJoin => XJoin | KBarrier => XBarrier
  end.

Section lower.
Context `{!HashIter string} `{!HashIter N}.
Context (json_to_string : json → string).
Context (new_v5 : Uuid → string → Uuid) (uuid_display : Uuid → string).

Definition node_retry (n : IRNode) : RetryPolicy :=
  mkRetry
    match ir_config n !! "max_retries" ≫= as_u64 with
    | Some v => as_u32 (clamp 0 10 v) | None => 2 end
    match ir_config n !! "backoff_ms" ≫= as_u64 with
    | Some v => clamp 0 60000 v | None => 1000 end.

Definition lower_node (compilers : gmap string StrategyCompiler) (n : IRNode) : ExecutionNode :=
  let x := mkExecNode (ir_id n) (lower_kind (ir_kind n)) (ir_strategy n)
    (default "" (ir_model n)) (node_retry n) None (ir_config n) None in
  mkExecNode (x_id x) (x_kind x) (x_strategy x) (x_model x) (x_retry_policy x) (x_fallback x)
    (x_config x) (expanded_subgraph_with_compilers new_v5 uuid_display compilers x).

Definition lower_to_graph_with_compilers (compilers : gmap string StrategyCompiler)
    (ir : WorkflowIR) : result CompilerError ExecutionGraph :=
  Ok (mkGraph (plan_id ir) (lower_node compilers <$> ir_nodes ir)
    ((λ e, mkExecEdge (ire_from e) (ire_to e) (ire_condition e)) <$> ir_edges ir)
    (mkGraphMetadata (m_estimated_cost (ir_metadata ir)) (m_estimated_tokens (ir_metadata ir))
       (m_policy_version (ir_metadata ir)) 1 (as_u32 (len (ir_nodes ir))))
    (m_estimated_tokens (ir_metadata ir)) (m_estimated_cost (ir_metadata ir))
    (compute_workflow_content_hash json_to_string ir)).

(** ** The engine *)
Record Pass := mkPass { pass_name : string; pass_apply : WorkflowIR → pass_result }.
Record CompilerEngine := mkEngine {
  passes : list Pass;
  custom_compilers : gmap string StrategyCompiler;
}.

Inductive PlatformError :=
| EmptyIntent
| PassFailed (pass : string) (e : CompilerError)
| LowerFailed (e : CompilerError).

Record PassDiff := mkDiff { d_number : nat; d_name : string; d_input : nat; d_output : nat }.

(** [run_pass_pipeline]; [idx] is the number of passes already run. *)
Fixpoint run_passes (idx : nat) (ps : list Pass) (ir : WorkflowIR)
    : result PlatformError (list PassDiff * WorkflowIR) :=
  match ps with
  | [] => Ok ([], ir)
  | p :: ps =>
      ir' ← map_err (PassFailed (pass_name p)) (pass_apply p ir);
      '(ds, out) ← run_passes (S idx) ps ir';
      Ok (mkDiff (S idx) (pass_name p) (length (ir_nodes ir)) (length (ir_nodes ir')) :: ds, out)
  end.

Definition compile_and_lower (eng : CompilerEngine) (intent : string) (ir : WorkflowIR)
    : result PlatformError (list PassDiff * ExecutionGraph) :=
  if decide (intent = "") then Err EmptyIntent
  else
    '(ds, out) ← run_passes 0 (passes eng) ir;
    g ← map_err LowerFailed (lower_to_graph_with_compilers (custom_compilers eng) out);
    Ok (ds, g).

Definition add_pass (eng : CompilerEngine) (p : Pass) : CompilerEngine :=
  mkEngine (passes eng ++ [p]) (custom_compilers eng).
Definition register_custom_compiler (name : string) (c : StrategyCompiler)
    (eng : CompilerEngine) : CompilerEngine :=
  mkEngine (passes eng) (<[name := c]> (custom_compilers eng)).

(** The passes that every constructor installs, in order. *)
Definition mandatory_passes {M} `{!ResourceManager M} (cat : ModelCatalog) (rm : M) : list Pass :=
  [mkPass "constraint_validation" constraint_validation;
   mkPass "control_flow_validation" control_flow_validation;
   mkPass "strategy_lowering" (strategy_lowering ∅);
   mkPass "dead_node_elimination" dead_node_elimination;
   mkPass "model_resolution" (model_resolution cat);
   mkPass "budget_optimisation" (budget_optimisation rm)].

Definition build_compiler {M} `{!ResourceManager M} (cat : ModelCatalog) (rm : M)
    (policy : option PolicyIR) : CompilerEngine :=
  let eng := foldl add_pass (mkEngine [] ∅) (mandatory_passes cat rm) in
  match policy with
  | Some p => add_pass eng (mkPass "policy" (policy_pass json_to_string new_v5 p))
  | None => eng
  end.
End lower.
