(* ===== verification/CompilerProps.v ===== *)
(** * Properties of the compiler

    Each pass is characterized on its own (control flow, dead nodes, budget,
    policy), then the pipeline: a workflow that compiles gives an execution
    graph whose edges join its nodes, without cycles but for loop back-edges,
    with bounded retries and an affordable estimate
    ([compiled_graph_sound]), and lowering keeps metadata and identities. *)
From S2P Require Import Prelude Graphs Text Json Money Budget ExecTypes Policy Strategy Compiler.

(** ** Cycle detection *)
Lemma cycle_graph_children es m v :
  default [] (foldl (λ m ft, let m := push_at ft.1 ft.2 m in
                 <[ft.2 := default [] (m !! ft.2)]> m) m es !! v) =
  default [] (m !! v) ++ (snd <$> filter (λ ft : Uuid * Uuid, ft.1 = v) es).
Proof.
  revert m. induction es as [|[f t] es IH]; intros m; csimpl; [by rewrite app_nil_r|].
  rewrite IH, filter_cons. csimpl.
  assert (default [] (<[t:=default [] (push_at f t m !! t)]> (push_at f t m) !! v) =
    default [] (push_at f t m !! v)) as ->.
  { rewrite lookup_insert. case_decide; by subst. }
  unfold push_at. rewrite lookup_insert. case_decide; subst; csimpl; [by rewrite <- app_assoc|done].
Qed.

Lemma cycle_graph_keys es m v :
  is_Some (foldl (λ m ft, let m := push_at ft.1 ft.2 m in
                 <[ft.2 := default [] (m !! ft.2)]> m) m es !! v) ↔
  is_Some (m !! v) ∨ ∃ ft : Uuid * Uuid, ft ∈ es ∧ (ft.1 = v ∨ ft.2 = v).
Proof.
  revert m. induction es as [|[f t] es IH]; intros m; csimpl; [set_solver|].
  rewrite IH. unfold push_at. rewrite !lookup_insert_is_Some'. split.
  - intros [[->|[->|Hm]]|(ft & Hin & Hor)]; [| |by left|].
    + right. exists (f, v). set_solver.
    + right. exists (v, t). set_solver.
    + right. exists ft. set_solver.
  - intros [Hm|(ft & [->|Hin]%elem_of_cons & Hor)]; csimpl in *; [tauto|tauto|].
    right. eauto.
Qed.

Definition pair_edge (es : list (Uuid * Uuid)) (u v : Uuid) : Prop := (u, v) ∈ es.

Lemma edge_cycle_graph es u v : edge (children (cycle_graph es)) u v ↔ pair_edge es u v.
Proof.
  unfold edge, children, cycle_graph, pair_edge. rewrite cycle_graph_children.
  rewrite lookup_empty. csimpl. rewrite list_elem_of_fmap. setoid_rewrite list_elem_of_filter.
  split; [by intros ([f t] & -> & <- & ?)|]. intros ?. by exists (u, v).
Qed.

Section early_exit.
Context (ch : Uuid → list Uuid).

Lemma dfs_loop_back_prefix fuel st st' :
  dfs_loop ch fuel st = Some st' → ∃ l, dfs_back st' = dfs_back st ++ l.
Proof.
  revert st. induction fuel as [|fuel IH]; intros st; csimpl;
    destruct (dfs_stack st) as [|[node i] rest] eqn:Hst; intros Hl; simplify_eq;
    try (exists []; by rewrite app_nil_r).
  destruct (IH _ Hl) as [l ->]. unfold dfs_step. rewrite Hst.
  repeat case_match; csimpl; try (by eexists). rewrite <- app_assoc. by eexists.
Qed.

Lemma dfs_roots_back_prefix fuel st roots st' :
  dfs_roots ch fuel st roots = Some st' → ∃ l, dfs_back st' = dfs_back st ++ l.
Proof.
  revert st. induction roots as [|r roots IH]; intros st; csimpl.
  { intros [= <-]. exists []. by rewrite app_nil_r. }
  intros (st1 & H1 & H2)%bind_Some. destruct (IH _ H2) as [l ->].
  unfold dfs_root in H1. case_decide; simplify_eq; [|by eexists].
  apply dfs_loop_back_prefix in H1 as [l' ->]. csimpl. rewrite <- app_assoc. by eexists.
Qed.

(** What the early exit returns, in terms of the full search. *)
Definition first_back (st : DfsState Uuid) : result Uuid (gmap Uuid Color) :=
  match dfs_back st with [] => Ok (dfs_colors st) | (u, _) :: _ => Err u end.

Lemma cycle_loop_dfs fuel c s st' :
  dfs_loop ch fuel (mk_dfs c s []) = Some st' → cycle_loop ch fuel c s = Some (first_back st').
Proof.
  revert c s. induction fuel as [|fuel IH]; intros c [|[node i] rest] Hl; csimpl in *; simplify_eq; try done.
  unfold dfs_step in Hl; csimpl in Hl.
  destruct (ch node !! i) as [next|]; [|by apply IH].
  destruct (color_of c next); [by apply IH| |by apply IH].
  apply dfs_loop_back_prefix in Hl as [l Hl]. csimpl in Hl. unfold first_back. by rewrite Hl.
Qed.

Lemma dfs_loop_empty_stack fuel st st' :
  dfs_loop ch fuel st = Some st' → dfs_stack st' = [].
Proof.
  revert st. induction fuel as [|fuel IH]; intros st; csimpl;
    destruct (dfs_stack st) eqn:Hst; intros; simplify_eq; eauto.
Qed.

Lemma cycle_roots_dfs fuel c roots st' :
  dfs_roots ch fuel (mk_dfs c [] []) roots = Some st' →
  cycle_roots ch fuel c roots =
  Some (match dfs_back st' with [] => Ok tt | (u, _) :: _ => Err u end).
Proof.
  revert c. induction roots as [|r roots IH]; intros c Hr; csimpl in *; [by simplify_eq|].
  apply bind_Some in Hr as (st1 & H1 & H2). unfold dfs_root, dfs_push_root in H1; csimpl in H1.
  case_decide as Hc; simplify_eq; [|by apply IH].
  pose proof (dfs_loop_empty_stack _ _ _ H1) as Hs1.
  rewrite (cycle_loop_dfs _ _ _ _ H1). csimpl. unfold first_back.
  destruct st1 as [c1 s1 b1]; csimpl in *; subst s1.
  destruct b1 as [|[u w] b1]; [by apply IH|].
  apply dfs_roots_back_prefix in H2 as [l ->]. done.
Qed.
End early_exit.

Section passes.
Context `{!HashIter N}.

Lemma three_color_spec es :
  match three_color_cycle_detect es with
  | Ok _ => ∀ v, ¬ tc (pair_edge es) v v
  | Err u => tc (pair_edge es) u u
  end.
Proof.
  unfold three_color_cycle_detect. set (g := cycle_graph es).
  assert (∀ v, v ∈ map_keys g ↔ ∃ ft, ft ∈ es ∧ (ft.1 = v ∨ ft.2 = v)) as Hkeys.
  { intros v. rewrite elem_of_map_keys. unfold g, cycle_graph. rewrite cycle_graph_keys.
    rewrite lookup_empty, is_Some_alt. naive_solver. }
  assert (∀ u w, edge (children g) u w → u ∈ map_keys g ∧ w ∈ map_keys g) as Hedge.
  { intros u w He%edge_cycle_graph. rewrite !Hkeys. split; exists (u, w); auto. }
  destruct (dfs_correct (children g) (map_keys g) (map_keys g) (dfs_fuel (children g) (map_keys g)))
    as (st & Hst & Hback & Hcyc); [intros u w _ He; by apply Hedge in He as [_ ?]|done..|].
  rewrite (cycle_roots_dfs _ _ _ _ st Hst). csimpl.
  assert (∀ u v, tc (edge (children g)) u v ↔ tc (pair_edge es) u v) as Htc.
  { intros u v. apply tc_iff, edge_cycle_graph. }
  destruct (dfs_back st) as [|[u w] l] eqn:Hb.
  - intros v Hv. apply (proj1 Hback eq_refl v v); [|constructor|by apply Htc].
    apply Htc in Hv. inversion Hv as [? ? He|? ? ? He]; subst; by apply Hedge in He as [? _].
  - destruct (Hcyc u w) as [He Hwu]; [set_solver|].
    apply Htc. eapply tc_rtc_r; [by apply tc_once|done].
Qed.

(** ** What control-flow validation establishes *)
Definition ir_ids (ir : WorkflowIR) : list Uuid := ir_id <$> ir_nodes ir.

Definition kind_ok (ir : WorkflowIR) (n : IRNode) : Prop :=
  match ir_kind n with
  | KConditional => ∃ e c, e ∈ ir_edges ir ∧ ire_from e = ir_id n ∧ ire_condition e = Some c
  | KLoop => (∃ e, e ∈ ir_edges ir ∧ ire_from e = ir_id n) ∧
      is_Some (ir_config n !! "max_iterations")
  | KSplit => (2 <= length (outgoing ir (ir_id n)))%nat
  | KJoin => (2 <= length (incoming ir (ir_id n)))%nat
  | KBarrier => (∃ e, e ∈ ir_edges ir ∧ ire_to e = ir_id n) ∧
      (∃ e, e ∈ ir_edges ir ∧ ire_from e = ir_id n)
  | _ => True
  end.

Record flow_ok (ir : WorkflowIR) : Prop := {
  fo_refs : ∀ e, e ∈ ir_edges ir → ire_from e ∈ ir_ids ir ∧ ire_to e ∈ ir_ids ir;
  fo_kinds : ∀ n, n ∈ ir_nodes ir → kind_ok ir n;
  fo_acyclic : ∀ v, ¬ tc (λ u w, ∃ e, e ∈ ir_edges ir ∧ ire_condition e ≠ Some "loop" ∧
                           ire_from e = u ∧ ire_to e = w) v v;
}.

Lemma filter_edges_nil (P : IREdge → Prop) `{∀ e, Decision (P e)} (l : list IREdge) :
  filter P l ≠ [] ↔ ∃ e, e ∈ l ∧ P e.
Proof.
  split.
  - intros Hno. destruct (filter P l) as [|e l'] eqn:Hf; [done|]. exists e.
    assert (e ∈ filter P l) as Hin by (rewrite Hf; set_solver).
    by apply list_elem_of_filter in Hin as [? ?].
  - intros (e & He & HP) Hf. assert (e ∈ filter P l) as Hin by by apply list_elem_of_filter.
    rewrite Hf in Hin. set_solver.
Qed.

Lemma check_edge_refs_ok ids e :
  check_edge_refs ids e = Ok tt ↔ ire_from e ∈ ids ∧ ire_to e ∈ ids.
Proof.
  unfold check_edge_refs, cf_error. repeat case_decide; split; try done; tauto.
Qed.

Lemma check_node_kind_ok ir n : check_node_kind ir n = Ok tt ↔ kind_ok ir n.
Proof.
  unfold check_node_kind, kind_ok, cf_error, len.
  pose proof (filter_edges_nil (λ e, ire_from e = ir_id n) (ir_edges ir)) as Hout.
  pose proof (filter_edges_nil (λ e, ire_to e = ir_id n) (ir_edges ir)) as Hin.
  fold (outgoing ir (ir_id n)) in Hout. fold (incoming ir (ir_id n)) in Hin.
  destruct (ir_kind n); try (split; done).
  - case_decide as Ho.
    { split; [done|]. intros (e & c & ? & ? & _). destruct (proj2 Hout); eauto. }
    destruct (existsb _ _) eqn:Hx; csimpl.
    + split; [intros _|done]. apply existsb_exists in Hx as (e & He & Hc).
      apply list_elem_of_In, list_elem_of_filter in He as [Hf He].
      apply bool_decide_eq_true in Hc as [c Hc]. eauto.
    + split; [done|]. intros (e & c & He & Hf & Hc). exfalso.
      apply not_true_iff_false in Hx. apply Hx, existsb_exists. exists e.
      rewrite <- list_elem_of_In, bool_decide_eq_true. split; [|by eexists].
      by apply list_elem_of_filter.
  - rewrite <- Hout. repeat case_decide; split; try done; try tauto.
    + intros [_ [? ?]]. congruence.
    + intros _. split; [done|]. by apply not_eq_None_Some.
  - case_match; split; intros; done || lia.
  - case_match; split; intros; done || lia.
  - rewrite <- Hout, <- Hin. repeat case_decide; split; done || tauto.
Qed.

Lemma control_flow_ok ir ir' :
  control_flow_validation ir = Ok ir' ↔ ir' = ir ∧ flow_ok ir.
Proof.
  unfold control_flow_validation, detect_illegal_cycles.
  assert (∀ u w, pair_edge (plain_pairs ir) u w ↔ ∃ e, e ∈ ir_edges ir ∧
    ire_condition e ≠ Some "loop" ∧ ire_from e = u ∧ ire_to e = w) as Hpair.
  { intros u w. unfold pair_edge, plain_pairs. rewrite list_elem_of_fmap.
    setoid_rewrite list_elem_of_filter. naive_solver. }
  pose proof (try_for_each_ok (check_edge_refs (list_to_set (ir_id <$> ir_nodes ir))) (ir_edges ir)) as H1.
  pose proof (try_for_each_ok (check_node_kind ir) (ir_nodes ir)) as H2.
  setoid_rewrite check_edge_refs_ok in H1. setoid_rewrite check_node_kind_ok in H2.
  setoid_rewrite elem_of_list_to_set in H1.
  pose proof (three_color_spec (plain_pairs ir)) as H3.
  destruct (try_for_each (check_edge_refs _) _) as [[]|e1]; csimpl.
  2: { split; [done|]. intros [_ [Hr _ _]]. by apply H1 in Hr. }
  destruct (try_for_each (check_node_kind ir) _) as [[]|e2]; csimpl.
  2: { split; [done|]. intros [_ [_ Hk _]]. by apply H2 in Hk. }
  assert (∀ v, tc (pair_edge (plain_pairs ir)) v v ↔ tc (λ u w, ∃ e, e ∈ ir_edges ir ∧
    ire_condition e ≠ Some "loop" ∧ ire_from e = u ∧ ire_to e = w) v v) as Htc.
  { intros v. by apply tc_iff. }
  destruct (three_color_cycle_detect _) as [[]|u]; csimpl.
  - split; [intros [= <-]|by intros [-> _]]. split; [done|]. split.
    + by apply H1.
    + by apply H2.
    + intros v Hv%Htc. by apply (H3 v).
  - split; [done|]. intros [_ [_ _ Hac]]. exfalso. by apply (Hac u), Htc.
Qed.

(** Control-flow validation passes a workflow on unchanged exactly when every
    edge joins known nodes, every control-flow node has the edges and settings
    of its kind, and there is no cycle outside loop back-edges; whatever the
    order in which the graph map is walked. *)
Theorem control_flow_validation_exact ir ir' :
  control_flow_validation ir = Ok ir' ↔ ir' = ir ∧ flow_ok ir.
Proof. apply control_flow_ok. Qed.

(** ** Dead-node elimination *)
Definition ir_points_to (ir : WorkflowIR) (u v : Uuid) : Prop :=
  ∃ e, e ∈ ir_edges ir ∧ ire_from e = u ∧ ire_to e = v.
Definition is_entry (ir : WorkflowIR) (r : Uuid) : Prop :=
  r ∈ ir_ids ir ∧ (∃ e, e ∈ ir_edges ir ∧ ire_from e = r) ∧
  ∀ e, e ∈ ir_edges ir → ire_to e ≠ r.
Definition live (ir : WorkflowIR) (v : Uuid) : Prop :=
  ∃ r, is_entry ir r ∧ rtc (ir_points_to ir) r v.

Lemma elem_of_entry_points ir r : r ∈ entry_points ir ↔ is_entry ir r.
Proof.
  unfold entry_points, is_entry, ir_ids. rewrite elem_of_list_to_set, list_elem_of_filter.
  rewrite !elem_of_list_to_set, !list_elem_of_fmap. naive_solver.
Qed.

Lemma edge_successors ir u v : edge (successors ir) u v ↔ ir_points_to ir u v.
Proof.
  unfold edge, successors, outgoing, ir_points_to. rewrite list_elem_of_fmap.
  setoid_rewrite list_elem_of_filter. naive_solver.
Qed.

Lemma live_ids_spec ir v : v ∈ live_ids ir ↔ live ir v.
Proof.
  unfold live_ids. set (rs := set_iter (entry_points ir)).
  destruct (wl_loop_correct (successors ir) (push_fifo (successors ir)) (push_fifo_ok _)
    (rs ++ edge_ids ir) rs rs (wl_fuel (successors ir) (rs ++ edge_ids ir) rs))
    as (vis & -> & Hvis).
  - intros u w _ (e & He & _ & <-)%edge_successors. unfold edge_ids. rewrite !elem_of_app.
    right; right. by apply list_elem_of_fmap_2.
  - set_solver.
  - done.
  - done.
  - csimpl. rewrite Hvis. unfold live, rs. setoid_rewrite elem_of_set_iter.
    setoid_rewrite elem_of_entry_points.
    by setoid_rewrite (rtc_iff _ _ _ _ (edge_successors ir)).
Qed.

Lemma dead_nodes_ok ir :
  ∃ ir', dead_node_elimination ir = Ok ir' ∧ plan_id ir' = plan_id ir ∧
    ir_metadata ir' = ir_metadata ir ∧
    if decide (ir_edges ir = [] ∨ entry_points ir = ∅) then ir' = ir
    else ∃ P `(!∀ v, Decision (P v)), (∀ v, P v ↔ live ir v) ∧
      ir_nodes ir' = filter (λ n, P (ir_id n)) (ir_nodes ir) ∧
      ir_edges ir' = filter (λ e, P (ire_from e) ∧ P (ire_to e)) (ir_edges ir).
Proof.
  unfold dead_node_elimination.
  destruct (decide (ir_nodes ir = [])) as [Hn|Hn].
  { exists ir. split_and!; [done..|]. rewrite decide_True; [done|right].
    unfold entry_points. by rewrite Hn. }
  destruct (decide (ir_edges ir = [])) as [He|He].
  { exists ir. split_and!; [done..|]. rewrite decide_True; auto. }
  destruct (decide (entry_points ir = ∅)) as [Hr|Hr].
  { exists ir. split_and!; [done..|]. rewrite decide_True; auto. }
  eexists. split_and!; [done..|]. rewrite decide_False by tauto.
  exists (λ v, v ∈ live_ids ir), _. split_and!; [apply live_ids_spec|done..].
Qed.

(** Elimination leaves no dangling edge and cuts no edge of a kept node. *)
Lemma dead_nodes_closed ir ir' :
  flow_ok ir → dead_node_elimination ir = Ok ir' →
  (∀ e, e ∈ ir_edges ir' → ire_from e ∈ ir_ids ir' ∧ ire_to e ∈ ir_ids ir') ∧
  (∀ e, e ∈ ir_edges ir' → e ∈ ir_edges ir) ∧
  (∀ n, n ∈ ir_nodes ir' → n ∈ ir_nodes ir) ∧
  (∀ n, n ∈ ir_nodes ir' → outgoing ir' (ir_id n) = outgoing ir (ir_id n)).
Proof.
  intros [Href _ _] Hd. destruct (dead_nodes_ok ir) as (ir2 & Hd2 & _ & _ & Hcase).
  rewrite Hd in Hd2. injection Hd2 as <-. case_decide as Hc; [by subst|].
  destruct Hcase as (P & HP & Hlive & Hn & He).
  assert (∀ u v, P u → ir_points_to ir u v → P v) as Hclosed.
  { intros u v Hu Huv. apply Hlive. apply Hlive in Hu as (r & Hr & Hru). exists r.
    split; [done|]. by eapply rtc_r. }
  split_and!.
  - intros e. rewrite He. intros [[Hf Ht] Hin]%list_elem_of_filter. unfold ir_ids. rewrite Hn.
    destruct (Href e Hin) as [(n1 & H1 & Hn1)%list_elem_of_fmap (n2 & H2 & Hn2)%list_elem_of_fmap].
    split; apply list_elem_of_fmap; [exists n1|exists n2];
      (split; [done|]); apply list_elem_of_filter; by rewrite <- ?H1, <- ?H2.
  - intros e. rewrite He. by intros [_ ?]%list_elem_of_filter.
  - intros n. rewrite Hn. by intros [_ ?]%list_elem_of_filter.
  - intros n. rewrite Hn. intros [HPn _]%list_elem_of_filter. unfold outgoing. rewrite He.
    rewrite list_filter_filter. apply filter_ext_in. intros e Hin. split; [tauto|].
    intros Hf. split; [done|]. rewrite Hf. split; [done|].
    apply (Hclosed (ir_id n)); [done|]. by exists e.
Qed.

(** Elimination never fails. It keeps exactly the nodes that an entry point
    reaches and exactly the edges between kept nodes, in their order; a workflow
    without edges, or without an entry point, is left alone. *)
Theorem dead_node_elimination_exact ir :
  ∃ ir', dead_node_elimination ir = Ok ir' ∧ plan_id ir' = plan_id ir ∧
    ir_metadata ir' = ir_metadata ir ∧
    sublist (ir_nodes ir') (ir_nodes ir) ∧ sublist (ir_edges ir') (ir_edges ir) ∧
    if decide (ir_edges ir = [] ∨ entry_points ir = ∅) then ir' = ir
    else (∀ n, n ∈ ir_nodes ir' ↔ n ∈ ir_nodes ir ∧ live ir (ir_id n)) ∧
      (∀ e, e ∈ ir_edges ir' ↔ e ∈ ir_edges ir ∧ live ir (ire_from e) ∧ live ir (ire_to e)).
Proof.
  destruct (dead_nodes_ok ir) as (ir' & Hd & Hp & Hm & Hcase). exists ir'.
  case_decide as Hc; [subst; split_and!; done|].
  destruct Hcase as (P & HP & Hlive & Hn & He).
  split_and!; [done..|rewrite Hn; apply sublist_filter|rewrite He; apply sublist_filter| |].
  - intros n. rewrite Hn, list_elem_of_filter, Hlive. tauto.
  - intros e. rewrite He, list_elem_of_filter, !Hlive. tauto.
Qed.
End passes.

(** ** The policy pass *)
Section policy_props.
Context (json_to_string : json → string) (new_v5 : Uuid → string → Uuid).
Notation rule_for := (rule_for json_to_string).
Notation gate_node := (gate_node new_v5).
Notation gate_id := (gate_id new_v5).
Notation policy_node := (policy_node json_to_string new_v5).

Definition needs_approval (p : PolicyIR) (n : IRNode) : Prop :=
  ∃ r, rule_for p n = Some r ∧ effect r = Approval.
Definition guarded_by (ns : list IRNode) (es : list IREdge) (n : IRNode) : Prop :=
  ∃ e g, e ∈ es ∧ ire_to e = ir_id n ∧ g ∈ ns ∧ ir_id g = ire_from e ∧ ir_kind g = KGate.

Lemma already_guarded_spec ns es n : already_guarded ns es n = true ↔ guarded_by ns es n.
Proof.
  unfold already_guarded, guarded_by. rewrite existsb_exists. split.
  - intros (e & He & [Ht Hg]%andb_prop). apply bool_decide_eq_true in Ht.
    apply existsb_exists in Hg as (g & Hg & [Hid Hk]%bool_decide_eq_true).
    apply list_elem_of_In in He, Hg. naive_solver.
  - intros (e & g & He & Ht & Hg & Hid & Hk). exists e. rewrite <- list_elem_of_In.
    split; [done|]. apply andb_true_intro. rewrite bool_decide_eq_true, existsb_exists.
    split; [done|]. exists g. by rewrite <- list_elem_of_In, bool_decide_eq_true.
Qed.

(** The gates that a run of the loop has added, for the nodes [ts]. *)
Definition gates_added (ts : list IRNode) (acc acc' : PolicyAcc) : Prop :=
  pa_edges acc' = pa_edges acc ++ ((λ n, mkIREdge (gate_id n) (ir_id n) None) <$> ts) ∧
  pa_gates acc' = pa_gates acc ++ (gate_node <$> ts).

Lemma policy_fold_spec p ns l acc :
  match try_fold (policy_node p ns) acc l with
  | Ok acc' => ∃ ts, gates_added ts acc acc' ∧ sublist ts l ∧
      (∀ n, n ∈ l → ∀ r, rule_for p n = Some r → effect r ≠ Deny) ∧
      (∀ n, n ∈ ts → needs_approval p n) ∧
      (∀ n, n ∈ l → needs_approval p n → n ∈ ts ∨ guarded_by ns (pa_edges acc') n)
  | Err e => ∃ n r, n ∈ l ∧ rule_for p n = Some r ∧ effect r = Deny ∧
      e = ValidationError "policy" (Some (ir_id n))
            (MsgPolicyDenies (rule_id r) (target_pattern r) (ir_id n))
  end.
Proof.
  revert acc. induction l as [|n l IH]; intros acc; csimpl.
  { exists []. unfold gates_added. csimpl. rewrite !app_nil_r. split_and!; try done; set_solver. }
  (* a step that changes neither edges nor gates *)
  assert (∀ tr, (∀ r, rule_for p n = Some r → effect r ≠ Deny) →
    (needs_approval p n → guarded_by ns (pa_edges acc) n) →
    match try_fold (policy_node p ns) (mkPolicyAcc (pa_edges acc) (pa_gates acc) tr) l with
    | Ok acc' => ∃ ts, gates_added ts acc acc' ∧ sublist ts (n :: l) ∧
        (∀ m, m ∈ n :: l → ∀ r, rule_for p m = Some r → effect r ≠ Deny) ∧
        (∀ m, m ∈ ts → needs_approval p m) ∧
        (∀ m, m ∈ n :: l → needs_approval p m → m ∈ ts ∨ guarded_by ns (pa_edges acc') m)
    | Err e => ∃ m r, m ∈ n :: l ∧ rule_for p m = Some r ∧ effect r = Deny ∧
        e = ValidationError "policy" (Some (ir_id m))
              (MsgPolicyDenies (rule_id r) (target_pattern r) (ir_id m))
    end) as Hskip.
  { intros tr Hnd Hg. specialize (IH (mkPolicyAcc (pa_edges acc) (pa_gates acc) tr)).
    destruct (try_fold _ _ l) as [acc'|e]; [|naive_solver set_solver].
    destruct IH as (ts & [He Hgs] & Hs & Hd & Ha & Happ). csimpl in *. exists ts.
    split_and!; [by split|by apply sublist_cons| |done|].
    - intros m [->|Hm]%elem_of_cons; [exact Hnd|exact (Hd m Hm)].
    - intros m [->|Hm]%elem_of_cons Hneed; [|auto]. right.
      destruct (Hg Hneed) as (e & g & ? & ? & ?). exists e, g. rewrite He. set_solver. }
  remember (policy_node p ns acc n) as step eqn:Hstep. unfold Compiler.policy_node in Hstep.
  destruct (rule_for p n) as [r|] eqn:Hr; csimpl in Hstep.
  2: { subst step. csimpl. destruct acc as [es gs tr]. apply (Hskip tr); [done|].
       intros (? & ? & _). congruence. }
  destruct (effect r) eqn:Heff.
  - subst step. csimpl. exists n, r. split_and!; [set_solver|done..].
  - destruct (already_guarded ns (pa_edges acc) n) eqn:Hag; subst step; csimpl.
    { apply Hskip; [intros ? [= <-]; by rewrite Heff|]. intros _. by apply already_guarded_spec. }
    match goal with |- context [try_fold _ ?a l] => specialize (IH a) end.
    destruct (try_fold _ _ l) as [acc'|e]; [|naive_solver set_solver].
    destruct IH as (ts & [He Hgs] & Hs & Hd & Ha & Happ). csimpl in *. exists (n :: ts).
    unfold gates_added; csimpl. rewrite He, Hgs, <- !app_assoc. split_and!.
    + done.
    + done.
    + by apply sublist_skip.
    + intros m [->|Hm]%elem_of_cons r' Hr'; [congruence|exact (Hd m Hm r' Hr')].
    + intros m [->|Hm]%elem_of_cons; [by exists r|auto].
    + intros m [->|Hm]%elem_of_cons Hneed; [left; set_solver|].
      destruct (Happ m Hm Hneed) as [?|Hg]; [left; set_solver|right].
      destruct Hg as (e & g & Hin & ?). exists e, g. rewrite He, <- app_assoc in Hin. done.
  - subst step. csimpl. apply Hskip; [intros ? [= <-]; by rewrite Heff|]. intros (r' & Hr' & ?). congruence.
Qed.

(** The policy pass fails exactly on a node for which a Deny rule wins, with
    that rule in the error. When it succeeds no node is denied, every node that
    needs approval has a Gate in front of it, and the only change is one new
    gate and one new edge for each of some nodes that need approval. *)
Theorem policy_pass_enforces p ir :
  match policy_pass json_to_string new_v5 p ir with
  | Ok ir' =>
      (∀ n, n ∈ ir_nodes ir → ∀ r, rule_for p n = Some r → effect r ≠ Deny) ∧
      (∀ n, n ∈ ir_nodes ir → needs_approval p n → guarded_by (ir_nodes ir') (ir_edges ir') n) ∧
      plan_id ir' = plan_id ir ∧ ir_metadata ir' = ir_metadata ir ∧
      ∃ ts, sublist ts (ir_nodes ir) ∧ (∀ n, n ∈ ts → needs_approval p n) ∧
        ir_nodes ir' = ir_nodes ir ++ (gate_node <$> ts) ∧
        ir_edges ir' = ir_edges ir ++ ((λ n, mkIREdge (gate_id n) (ir_id n) None) <$> ts)
  | Err e => ∃ n r, n ∈ ir_nodes ir ∧ rule_for p n = Some r ∧ effect r = Deny ∧
      e = ValidationError "policy" (Some (ir_id n))
            (MsgPolicyDenies (rule_id r) (target_pattern r) (ir_id n))
  end.
Proof.
  unfold policy_pass.
  pose proof (policy_fold_spec p (ir_nodes ir) (ir_nodes ir) (mkPolicyAcc (ir_edges ir) [] [])) as Hs.
  destruct (try_fold _ _ _) as [acc'|e]; csimpl; [|done].
  destruct Hs as (ts & [He Hg] & Hsub & Hd & Ha & Happ). csimpl in *. rewrite He, Hg in *.
  split_and!; [done| |done|done|by exists ts].
  intros n Hn Hneed. destruct (Happ n Hn Hneed) as [Hts|(e & g & ? & ? & ? & ? & ?)].
  - exists (mkIREdge (gate_id n) (ir_id n) None), (gate_node n).
    split_and!; [|done| |done|done]; apply elem_of_app; right.
    + apply list_elem_of_fmap. eauto.
    + by apply list_elem_of_fmap_2.
  - exists e, g. set_solver.
Qed.
End policy_props.

(** ** The pipeline *)
Section pipeline.
Context `{!HashIter string} `{!HashIter N}.
Context (json_to_string : json → string).
Context (new_v5 : Uuid → string → Uuid) (uuid_display : Uuid → string).
Context {M} `{!ResourceManager M}.
Notation build_compiler := (build_compiler json_to_string new_v5).
Notation compile_and_lower := (compile_and_lower json_to_string new_v5 uuid_display).
Notation lower_node := (lower_node new_v5 uuid_display).

Lemma run_passes_cons idx p ps ir ds out :
  run_passes idx (p :: ps) ir = Ok (ds, out) ↔
  ∃ ir1 ds1, pass_apply p ir = Ok ir1 ∧ run_passes (S idx) ps ir1 = Ok (ds1, out) ∧
    ds = mkDiff (S idx) (pass_name p) (length (ir_nodes ir)) (length (ir_nodes ir1)) :: ds1.
Proof.
  csimpl. destruct (pass_apply p ir) as [ir1|e]; csimpl;
    [|split; [done|by intros (? & ? & ? & _)]].
  destruct (run_passes (S idx) ps ir1) as [[ds1 out1]|e] eqn:Hr; csimpl;
    [|split; [done|]; intros (? & ? & [= <-] & Hr' & _); congruence].
  split; [intros [= <- <-]; eauto|]. intros (? & ? & [= <-] & Hr' & ->).
  rewrite Hr in Hr'. by simplify_eq.
Qed.

Lemma run_passes_names idx ps ir ds out :
  run_passes idx ps ir = Ok (ds, out) → d_name <$> ds = pass_name <$> ps.
Proof.
  revert idx ir ds. induction ps as [|p ps IH]; intros idx ir ds.
  - csimpl. by intros [= <- _].
  - intros (ir1 & ds1 & _ & Hr & ->)%run_passes_cons. csimpl. by rewrite (IH _ _ _ Hr).
Qed.

(** A failing pipeline reports the first pass that fails, on the workflow that
    the passes before it produced. *)
Lemma run_passes_err idx ps ir e :
  run_passes idx ps ir = Err e →
  ∃ ps1 p ps2 ds mid ce, ps = ps1 ++ p :: ps2 ∧ run_passes idx ps1 ir = Ok (ds, mid) ∧
    pass_apply p mid = Err ce ∧ e = PassFailed (pass_name p) ce.
Proof.
  revert idx ir. induction ps as [|p ps IH]; intros idx ir; csimpl; [done|].
  destruct (pass_apply p ir) as [ir1|ce] eqn:Hp; csimpl.
  - destruct (run_passes (S idx) ps ir1) as [[ds1 out1]|e1] eqn:Hr; csimpl; [done|].
    intros [= <-]. destruct (IH _ _ Hr) as (ps1 & q & ps2 & ds & mid & ce & -> & H1 & H2 & ->).
    exists (p :: ps1), q, ps2. eexists _, mid, ce. split; [done|].
    split; [|done]. apply run_passes_cons. eauto.
  - intros [= <-]. by exists [], p, ps, [], ir, ce.
Qed.

(** What a successful compilation has gone through. *)
Record compiled (cat : ModelCatalog) (rm : M) (policy : option PolicyIR) (ir mid out : WorkflowIR)
    : Prop := {
  co_size : ir_nodes ir ≠ [] ∧ len (ir_nodes ir) ≤ MAX_IR_NODES;
  co_flow : flow_ok ir;
  co_strategy : ∀ n, n ∈ ir_nodes ir → validate_strategy ∅ n = Ok tt;
  co_live : dead_node_elimination ir = Ok mid;
  co_afford : rm_can_afford rm (m_estimated_cost (ir_metadata ir))
                (m_estimated_tokens (ir_metadata ir)) = true;
  co_policy : let res := with_nodes mid (resolve_model cat <$> ir_nodes mid) (ir_edges mid) in
    match policy with
    | None => out = res
    | Some p => policy_pass json_to_string new_v5 p res = Ok out
    end;
}.

Lemma constraint_ok ir ir' :
  constraint_validation ir = Ok ir' →
  ir' = ir ∧ ir_nodes ir ≠ [] ∧ len (ir_nodes ir) ≤ MAX_IR_NODES.
Proof. unfold constraint_validation. repeat case_match; intros; simplify_eq. split_and!; [done..|lia]. Qed.

Lemma build_compiler_passes cat (rm : M) policy :
  passes (build_compiler cat rm policy) =
  mandatory_passes cat rm ++
  match policy with Some p => [mkPass "policy" (policy_pass json_to_string new_v5 p)] | None => [] end.
Proof. by destruct policy. Qed.

Lemma compile_inv cat (rm : M) policy intent ir ds g :
  compile_and_lower (build_compiler cat rm policy) intent ir = Ok (ds, g) →
  ∃ mid out, compiled cat rm policy ir mid out ∧
    d_name <$> ds = pass_name <$> passes (build_compiler cat rm policy) ∧
    lower_to_graph_with_compilers json_to_string new_v5 uuid_display ∅ out = Ok g.
Proof.
  unfold compile_and_lower. case_decide; [done|].
  destruct (run_passes 0 _ ir) as [[ds' out]|e] eqn:Hr; csimpl; [|done].
  intros [= <- <-]. pose proof (run_passes_names _ _ _ _ _ Hr) as Hnames.
  rewrite build_compiler_passes in Hr.
  apply run_passes_cons in Hr as (i1 & d1 & [-> H1]%constraint_ok & Hr & _).
  apply run_passes_cons in Hr as (i2 & d2 & [-> H2]%control_flow_ok & Hr & _).
  apply run_passes_cons in Hr as (i3 & d3 & [-> H3]%strategy_lowering_ok & Hr & _).
  apply run_passes_cons in Hr as (mid & d4 & H4 & Hr & _). csimpl in H4.
  apply run_passes_cons in Hr as (i5 & d5 & H5 & Hr & _). csimpl in H5.
  unfold model_resolution in H5. injection H5 as <-.
  apply run_passes_cons in Hr as (i6 & d6 & H6 & Hr & _). csimpl in H6.
  unfold budget_optimisation in H6. destruct (rm_can_afford _ _ _) eqn:Haff; [|done]. injection H6 as <-.
  exists mid, out. split; [|split; [exact Hnames|destruct policy; reflexivity]].
  destruct (dead_nodes_ok ir) as (mid' & Hd & _ & Hmeta & _).
  rewrite H4 in Hd. injection Hd as <-. csimpl in Haff. rewrite Hmeta in Haff.
  split; try done. destruct policy as [p|].
  - apply run_passes_cons in Hr as (i7 & d7 & H7 & Hr & _). csimpl in *. by simplify_eq.
  - csimpl in Hr. by simplify_eq.
Qed.

(** The plan's estimates come through unchanged. *)
Lemma compiled_metadata cat (rm : M) policy ir mid out :
  compiled cat rm policy ir mid out → ir_metadata out = ir_metadata ir.
Proof.
  intros Hco. destruct (dead_nodes_ok ir) as (mid' & Hd & _ & Hm & _).
  rewrite (co_live _ _ _ _ _ _ Hco) in Hd. injection Hd as <-.
  pose proof (co_policy _ _ _ _ _ _ Hco) as Hp. destruct policy as [p|]; csimpl in Hp; [|by subst].
  unfold policy_pass in Hp. destruct (try_fold _ _ _) as [acc|e]; csimpl in Hp; by simplify_eq.
Qed.

Definition exec_plain (g : ExecutionGraph) (u w : Uuid) : Prop :=
  ∃ e, e ∈ g_edges g ∧ x_condition e ≠ Some "loop" ∧ x_from e = u ∧ x_to e = w.
Definition ir_plain (ir : WorkflowIR) (u w : Uuid) : Prop :=
  ∃ e, e ∈ ir_edges ir ∧ ire_condition e ≠ Some "loop" ∧ ire_from e = u ∧ ire_to e = w.

(** The shape of the workflow that is lowered: what survived elimination, with
    models resolved, plus gates in front of some of its nodes. *)
Lemma compiled_shape_sub cat (rm : M) policy ir mid out :
  compiled cat rm policy ir mid out →
  ∃ ts, sublist ts (resolve_model cat <$> ir_nodes mid) ∧
    ir_nodes out = (resolve_model cat <$> ir_nodes mid) ++ (gate_node new_v5 <$> ts) ∧
    ir_edges out = ir_edges mid ++ ((λ n, mkIREdge (gate_id new_v5 n) (ir_id n) None) <$> ts).
Proof.
  intros Hco. pose proof (co_policy _ _ _ _ _ _ Hco) as Hp. csimpl in Hp.
  destruct policy as [p|].
  - unfold policy_pass in Hp. csimpl in Hp.
    pose proof (policy_fold_spec json_to_string new_v5 p (resolve_model cat <$> ir_nodes mid)
      (resolve_model cat <$> ir_nodes mid) (mkPolicyAcc (ir_edges mid) [] [])) as Hs.
    destruct (try_fold _ _ _) as [acc'|e]; csimpl in Hp; [|done]. injection Hp as <-.
    destruct Hs as (ts & [He Hg] & Hsub & _). csimpl in *. exists ts. by rewrite He, Hg.
  - subst out. exists []. csimpl. rewrite !app_nil_r. split_and!; [apply sublist_nil_l|done..].
Qed.
Lemma compiled_shape cat (rm : M) policy ir mid out :
  compiled cat rm policy ir mid out →
  ∃ ts, (∀ n, n ∈ ts → n ∈ resolve_model cat <$> ir_nodes mid) ∧
    ir_nodes out = (resolve_model cat <$> ir_nodes mid) ++ (gate_node new_v5 <$> ts) ∧
    ir_edges out = ir_edges mid ++ ((λ n, mkIREdge (gate_id new_v5 n) (ir_id n) None) <$> ts).
Proof.
  intros (ts & Hsub & Hn & He)%compiled_shape_sub. exists ts. split_and!; [|done..].
  intros n Hin. by eapply elem_of_submseteq; [|apply sublist_submseteq].
Qed.

Lemma resolve_model_id cat n : ir_id (resolve_model cat n) = ir_id n.
Proof. unfold resolve_model. by repeat case_match. Qed.
Lemma resolve_model_kind cat n : ir_kind (resolve_model cat n) = ir_kind n.
Proof. unfold resolve_model. by repeat case_match. Qed.
Lemma resolve_model_strategy cat n : ir_strategy (resolve_model cat n) = ir_strategy n.
Proof. unfold resolve_model. by repeat case_match. Qed.

(** Sources that no edge enters cannot lie on a cycle. *)
Lemma acyclic_add_sources (R S : Uuid → Uuid → Prop) (old : Uuid → Prop) :
  (∀ u w, S u w → old w) → (∀ u w, old u → S u w → R u w) →
  (∀ v, ¬ tc R v v) → ∀ v, ¬ tc S v v.
Proof.
  intros Hold HSR Hac.
  assert (∀ u w, tc S u w → old u → tc R u w) as Htc.
  { induction 1 as [u w Huw|u x w Hux _ IH]; intros Hu; [by apply tc_once, HSR|].
    eapply tc_l; [by apply HSR|]. apply IH. by eapply Hold. }
  intros v Hv. apply (Hac v), Htc; [done|].
  assert (∃ u, S u v) as [u Hu]; [|by eapply Hold].
  clear -Hv. induction Hv; eauto.
Qed.

Lemma lower_node_facts n :
  let x := lower_node ∅ n in
  x_id x = ir_id n ∧ x_strategy x = ir_strategy n ∧
  0 ≤ max_retries (x_retry_policy x) ≤ 10 ∧ 0 ≤ backoff_ms (x_retry_policy x) ≤ 60000.
Proof.
  csimpl. split_and!; try done; unfold node_retry, clamp, as_u32; csimpl; repeat case_match;
    try lia; match goal with |- context [Z.min (Z.max ?v 0) 10] =>
      rewrite (Z.mod_small (Z.min (Z.max v 0) 10)) by lia end; lia.
Qed.

(** A node of the compiled graph is a node of the plan that no policy rule
    denies, with the model the plan names or the catalog's fast one when it names
    none, or the gate of a plan's node for which an approval rule wins. *)
Definition compiled_from (cat : ModelCatalog) (policy : option PolicyIR) (ir : WorkflowIR) (x : ExecutionNode) : Prop :=
  (∃ n, n ∈ ir_nodes ir ∧ x_id x = ir_id n ∧ x_kind x = lower_kind (ir_kind n) ∧ x_strategy x = ir_strategy n ∧
     (is_control_flow (ir_kind n) = false → x_model x = default (cat_fast cat) (ir_model n)) ∧
     ∀ p r, policy = Some p → rule_for json_to_string p (resolve_model cat n) = Some r → effect r ≠ Deny) ∨
  (∃ p n, policy = Some p ∧ n ∈ ir_nodes ir ∧ needs_approval json_to_string p (resolve_model cat n) ∧
     x_id x = gate_id new_v5 n ∧ x_kind x = XGate).

Lemma resolve_model_model cat n :
  is_control_flow (ir_kind n) = false → ir_model (resolve_model cat n) = Some (default (cat_fast cat) (ir_model n)).
Proof. intros Hk. unfold resolve_model. rewrite Hk. by destruct (ir_model n) eqn:Hm; csimpl. Qed.
Lemma compiled_origin cat (rm : M) policy ir mid out irn :
  compiled cat rm policy ir mid out → irn ∈ ir_nodes out → compiled_from cat policy ir (lower_node ∅ irn).
Proof.
  intros Hco Hirn.
  destruct (dead_nodes_closed ir mid (co_flow _ _ _ _ _ _ Hco) (co_live _ _ _ _ _ _ Hco)) as (_ & _ & Hsubn & _).
  assert (∀ n, n ∈ ir_nodes mid →
    (∀ p r, policy = Some p → rule_for json_to_string p (resolve_model cat n) = Some r → effect r ≠ Deny) →
    compiled_from cat policy ir (lower_node ∅ (resolve_model cat n))) as Hplan.
  { intros n Hn Hd. left. exists n. csimpl. rewrite resolve_model_id, resolve_model_kind, resolve_model_strategy.
    split_and!; [by apply Hsubn|done|done|done| |done]. intros Hk. by rewrite resolve_model_model. }
  pose proof (co_policy _ _ _ _ _ _ Hco) as Hp. csimpl in Hp. destruct policy as [p|].
  - pose proof (policy_pass_enforces json_to_string new_v5 p
      (with_nodes mid (resolve_model cat <$> ir_nodes mid) (ir_edges mid))) as Hpp. rewrite Hp in Hpp.
    destruct Hpp as (Hdeny & _ & _ & _ & ts & Hts & Happ & Hn & _). csimpl in *. rewrite Hn in Hirn.
    apply elem_of_app in Hirn as [(n & -> & Hin)%list_elem_of_fmap|(n & -> & Hin)%list_elem_of_fmap].
    + apply Hplan; [done|]. intros p' r [= <-]. apply Hdeny. by apply list_elem_of_fmap_2.
    + right. exists p. pose proof (Happ n Hin) as Hneed. apply sublist_submseteq in Hts.
      apply (elem_of_submseteq _ _ _ Hin), list_elem_of_fmap in Hts as (n0 & -> & Hn0).
      exists n0. split_and!; [done|by apply Hsubn|done| |done]. csimpl. unfold gate_id. by rewrite resolve_model_id.
  - subst out. csimpl in Hirn. apply list_elem_of_fmap in Hirn as (n & -> & Hn). by apply Hplan.
Qed.

(** C6. A graph that comes out of the standard pipeline: the plan has at least one
    and at most [MAX_IR_NODES] nodes; every edge of the graph joins nodes of the graph,
    there is no cycle outside loop back-edges, retries and back-off are within
    bounds and no custom strategy is left; every node is a node of the plan with
    its model resolved that the policy does not deny, or the gate of one that
    needs approval ([compiled_from]); the passes ran in their mandatory order and
    the plan's estimate was affordable. The ids derived for approval gates must
    not be ids of the plan. *)
Theorem compiled_graph_sound cat (rm : M) policy intent ir ds g :
  compile_and_lower (build_compiler cat rm policy) intent ir = Ok (ds, g) →
  (∀ n, n ∈ ir_nodes ir → gate_id new_v5 n ∉ ir_ids ir) →
  (∀ e, e ∈ g_edges g → x_from e ∈ x_id <$> g_nodes g ∧ x_to e ∈ x_id <$> g_nodes g) ∧
  (∀ v, ¬ tc (exec_plain g) v v) ∧
  (∀ x, x ∈ g_nodes g →
     0 ≤ max_retries (x_retry_policy x) ≤ 10 ∧ 0 ≤ backoff_ms (x_retry_policy x) ≤ 60000 ∧
     ∀ s, x_strategy x ≠ Custom s) ∧
  (∀ x, x ∈ g_nodes g → compiled_from cat policy ir x) ∧
  ir_nodes ir ≠ [] ∧ len (ir_nodes ir) ≤ MAX_IR_NODES ∧
  d_name <$> ds = ["constraint_validation"; "control_flow_validation"; "strategy_lowering";
    "dead_node_elimination"; "model_resolution"; "budget_optimisation"] ++
    (if policy then ["policy"] else []) ∧
  rm_can_afford rm (m_estimated_cost (ir_metadata ir)) (m_estimated_tokens (ir_metadata ir)) = true.
Proof.
  intros (mid & out & Hco & Hnames & Hlow)%compile_inv Hfresh.
  destruct (compiled_shape _ _ _ _ _ _ Hco) as (ts & Hts & Hn & He).
  destruct (dead_nodes_closed ir mid (co_flow _ _ _ _ _ _ Hco) (co_live _ _ _ _ _ _ Hco))
    as (Hrefs & Hsube & Hsubn & _).
  injection Hlow as <-. csimpl.
  assert (x_id <$> (lower_node ∅ <$> ir_nodes out) = ir_ids out) as Hxid
    by (rewrite <- list_fmap_compose; by apply list_fmap_ext).
  assert (ir_ids out = ir_ids mid ++ (gate_id new_v5 <$> ts)) as Hids.
  { unfold ir_ids. rewrite Hn, fmap_app, <- !list_fmap_compose. f_equal.
    apply list_fmap_ext. intros. apply resolve_model_id. }
  assert (∀ n, n ∈ ts → ir_id n ∈ ir_ids mid ∧ ∃ n0, n0 ∈ ir_nodes ir ∧ ir_id n0 = ir_id n) as Htid.
  { intros n (n0 & -> & H0)%Hts%list_elem_of_fmap. rewrite resolve_model_id.
    split; [by apply list_elem_of_fmap_2|]. eauto. }
  split_and!.
  - rewrite Hxid, Hids. intros e (e0 & -> & He0)%list_elem_of_fmap. csimpl. rewrite !elem_of_app.
    rewrite He in He0. apply elem_of_app in He0 as [He0|(n & -> & Hin)%list_elem_of_fmap]; csimpl.
    + destruct (Hrefs e0 He0). auto.
    + split; [right; by apply list_elem_of_fmap_2|left; by apply Htid].
  - apply (acyclic_add_sources (ir_plain ir) _ (λ u, u ∈ ir_ids ir)); [| |apply (fo_acyclic _ (co_flow _ _ _ _ _ _ Hco))].
    + intros u w (e & (e0 & -> & He0)%list_elem_of_fmap & _ & _ & <-). csimpl.
      rewrite He in He0. apply elem_of_app in He0 as [He0|(n & -> & Hin)%list_elem_of_fmap]; csimpl.
      * by apply (fo_refs _ (co_flow _ _ _ _ _ _ Hco)), Hsube.
      * destruct (Htid n Hin) as [_ (n0 & Hn0 & <-)]. by apply list_elem_of_fmap_2.
    + intros u w Hu (e & (e0 & -> & He0)%list_elem_of_fmap & Hc & <- & <-). csimpl in *.
      rewrite He in He0. apply elem_of_app in He0 as [He0|(n & -> & Hin)%list_elem_of_fmap].
      * exists e0. auto.
      * exfalso. csimpl in Hu. destruct (Htid n Hin) as [_ (n0 & Hn0 & Heq)].
        apply (Hfresh n0 Hn0). unfold gate_id in *. by rewrite Heq.
  - intros x (n & -> & Hin)%list_elem_of_fmap. destruct (lower_node_facts n) as (_ & Hs & Hr & Hb).
    split_and!; [apply Hr|apply Hr|apply Hb|apply Hb|]. intros s. csimpl. rewrite Hn in Hin.
    apply elem_of_app in Hin as [(n0 & -> & H0)%list_elem_of_fmap|(n0 & -> & _)%list_elem_of_fmap];
      [|done]. rewrite resolve_model_strategy. intros Hcus.
    pose proof (co_strategy _ _ _ _ _ _ Hco n0 (Hsubn n0 H0)) as Hv.
    unfold validate_strategy, lowering_error in Hv. rewrite Hcus in Hv.
    case_decide; [done|]. rewrite decide_True in Hv; [done|set_solver].
  - intros x (n & -> & Hin)%list_elem_of_fmap. by eapply compiled_origin.
  - apply (co_size _ _ _ _ _ _ Hco).
  - apply (co_size _ _ _ _ _ _ Hco).
  - rewrite Hnames, build_compiler_passes. by destruct policy.
  - apply (co_afford _ _ _ _ _ _ Hco).
Qed.

(** No custom strategy survives compilation: the lowering pass that every
    constructor installs has an empty registry, so a workflow with a [Custom]
    node fails whatever compilers were registered with the engine. *)
Theorem custom_strategy_never_compiles cat (rm : M) policy name c intent ir n s :
  n ∈ ir_nodes ir → ir_strategy n = Custom s →
  ∃ e, compile_and_lower (register_custom_compiler name c (build_compiler cat rm policy)) intent ir
       = Err e.
Proof.
  intros Hn Hs. unfold compile_and_lower. case_decide; [eauto|]. csimpl.
  rewrite build_compiler_passes.
  destruct (run_passes 0 _ ir) as [[ds out]|e] eqn:Hr; csimpl; [|eauto]. exfalso.
  apply run_passes_cons in Hr as (i1 & d1 & [-> H1]%constraint_ok & Hr & _).
  apply run_passes_cons in Hr as (i2 & d2 & [-> H2]%control_flow_ok & Hr & _).
  apply run_passes_cons in Hr as (i3 & d3 & [-> H3]%strategy_lowering_ok & Hr & _).
  specialize (H3 n Hn). unfold validate_strategy in H3. rewrite Hs in H3.
  unfold lowering_error in H3. case_decide; [done|]. rewrite decide_True in H3; [done|set_solver].
Qed.
End pipeline.

(** ** The content hash *)
Section hash_props.
Context (json_to_string : json → string).

Lemma canonical_config_any_order (I1 I2 : HashIter string) c :
  canonical_config_json (HashIter0 := I1) json_to_string c =
  canonical_config_json (HashIter0 := I2) json_to_string c.
Proof.
  unfold canonical_config_json. case_decide; [done|]. do 4 f_equal.
  apply obj_of_list_perm.
  - rewrite (map_iter_perm (HashIter := I1)). apply NoDup_fst_map_to_list.
  - by rewrite (map_iter_perm (HashIter := I1)), (map_iter_perm (HashIter := I2)).
Qed.

Lemma mix_nodes_any_order (I1 I2 : HashIter string) h l :
  foldl (mix_node (HashIter0 := I1) json_to_string) h l =
  foldl (mix_node (HashIter0 := I2) json_to_string) h l.
Proof.
  revert h. induction l as [|n l IH]; intros h; csimpl; [done|]. rewrite IH. f_equal.
  unfold mix_node. by rewrite (canonical_config_any_order I1 I2).
Qed.

Lemma NoDup_fmap_inj_in {A B} (f : A → B) l x y :
  NoDup (f <$> l) → x ∈ l → y ∈ l → f x = f y → x = y.
Proof.
  intros Hnd (i & Hi)%list_elem_of_lookup (j & Hj)%list_elem_of_lookup Heq.
  assert (i = j) as ->.
  { eapply (NoDup_lookup _ i j); [exact Hnd|by rewrite list_lookup_fmap, Hi|].
    rewrite list_lookup_fmap, Hj. csimpl. by rewrite Heq. }
  congruence.
Qed.

(** The hash of a plan depends neither on the order in which hash maps are
    walked nor on the order in which nodes and edges are listed, as long as ids
    are distinct and no two edges join the same pair of nodes. *)
Theorem content_hash_order_independent (I1 I2 : HashIter string) a b :
  plan_id a = plan_id b → m_policy_version (ir_metadata a) = m_policy_version (ir_metadata b) →
  ir_nodes a ≡ₚ ir_nodes b → ir_edges a ≡ₚ ir_edges b →
  NoDup (ir_ids a) → NoDup (edge_pair <$> ir_edges a) →
  compute_workflow_content_hash (HashIter0 := I1) json_to_string a =
  compute_workflow_content_hash (HashIter0 := I2) json_to_string b.
Proof.
  intros Hp Hv Hn He Hnd Hnde. unfold compute_workflow_content_hash, len.
  rewrite Hp, Hv, (Permutation_length Hn), (mix_nodes_any_order I1 I2).
  assert (sort_by node_id_leb (ir_nodes a) = sort_by node_id_leb (ir_nodes b)) as ->.
  { apply sort_by_perm_eq; [intros; apply N_leb_total|intros ???; apply N_leb_trans| |done].
    intros x y Hx Hy Hxy Hyx. apply (NoDup_fmap_inj_in ir_id (ir_nodes a)); auto.
    by apply N_leb_anti. }
  assert (sort_by edge_id_leb (ir_edges a) = sort_by edge_id_leb (ir_edges b)) as ->; [|done].
  apply sort_by_perm_eq; [| | |done]; unfold edge_id_leb.
  - intros. apply lex_leb_total; apply N_leb_total.
  - intros ???. apply lex_leb_trans; [apply N_leb_trans|apply N_leb_anti|apply N_leb_trans].
  - intros x y Hx Hy Hxy Hyx. apply (NoDup_fmap_inj_in edge_pair (ir_edges a)); auto.
    revert Hxy Hyx. apply lex_leb_anti; apply N_leb_anti.
Qed.
End hash_props.

(** ** Concrete compilations *)
Section demo.
#[local] Instance demo_iter_string : HashIter string := map_to_list_iter string.
#[local] Instance demo_iter_N : HashIter N := map_to_list_iter N.

Definition demo_json (_ : json) : string := "".
Definition demo_gate_v5 (ns : Uuid) (name : string) : Uuid := (ns + 1000)%N.
Definition demo_catalog : ModelCatalog := mkCatalog "c" "d" "a" "g" "r" "n" "fast" "cheap".
Definition demo_rm : StubResourceManager := stub_new (mkQuota ONE_DOLLAR 100000).
Definition demo_plan : WorkflowIR :=
  mkIR 9 [mkIRNode 1 KGenerate Chain None ∅; mkIRNode 2 KReview Single (Some "gpt-4o") ∅;
          mkIRNode 3 KGate Single None ∅; mkIRNode 4 KJudge Single None ∅]
    [mkIREdge 1 2 None; mkIREdge 2 3 None; mkIREdge 3 1 (Some "loop")]
    (mkIRMetadata [] 1 ONE_CENT 500).
Definition demo_policy : PolicyIR :=
  mkPolicyIR [mkRule "r1" "gpt-*" 5 Approval [] []].
Definition custom_plan : WorkflowIR :=
  mkIR 9 [mkIRNode 1 KGenerate (Custom "mine") None ∅] [] (mkIRMetadata [] 1 ONE_CENT 500).

(** An approval rule for [*] puts a gate in front of the gate when the pass
    runs again on its own output: the pass is not idempotent although its
    comment announces idempotence. *)
Theorem wildcard_approval_gates_the_gate :
  ∃ p ir ir1 ir2,
    policy_pass demo_json demo_gate_v5 p ir = Ok ir1 ∧
    policy_pass demo_json demo_gate_v5 p ir1 = Ok ir2 ∧
    length (ir_nodes ir) = 1%nat ∧ length (ir_nodes ir1) = 2%nat ∧ length (ir_nodes ir2) = 3%nat.
Proof.
  exists (mkPolicyIR [mkRule "all" "*" 1 Approval [] []]),
    (mkIR 9 [mkIRNode 1 KGenerate Single (Some "gpt-4o") ∅] [] (mkIRMetadata [] 1 ONE_CENT 500)).
  do 2 eexists. split_and!; vm_compute; reflexivity.
Qed.

Lemma compiled_graph_sound_witness :
  ∃ ds g,
  compile_and_lower demo_json demo_gate_v5 demo_display
    (build_compiler demo_json demo_gate_v5 demo_catalog demo_rm (Some demo_policy)) "go" demo_plan
    = Ok (ds, g) ∧
  (∀ e, e ∈ g_edges g → x_from e ∈ x_id <$> g_nodes g ∧ x_to e ∈ x_id <$> g_nodes g) ∧
  (∀ v, ¬ tc (exec_plain g) v v) ∧
  (∀ x, x ∈ g_nodes g →
     0 ≤ max_retries (x_retry_policy x) ≤ 10 ∧ 0 ≤ backoff_ms (x_retry_policy x) ≤ 60000 ∧
     ∀ s, x_strategy x ≠ Custom s) ∧
  (∀ x, x ∈ g_nodes g → compiled_from demo_json demo_gate_v5 demo_catalog (Some demo_policy) demo_plan x) ∧
  ir_nodes demo_plan ≠ [] ∧ len (ir_nodes demo_plan) ≤ MAX_IR_NODES ∧
  d_name <$> ds = ["constraint_validation"; "control_flow_validation"; "strategy_lowering";
    "dead_node_elimination"; "model_resolution"; "budget_optimisation"; "policy"] ∧
  rm_can_afford demo_rm ONE_CENT 500 = true.
Proof.
  destruct (compile_and_lower demo_json demo_gate_v5 demo_display
    (build_compiler demo_json demo_gate_v5 demo_catalog demo_rm (Some demo_policy)) "go" demo_plan)
    as [[ds g]|e] eqn:Hc.
  - exists ds, g. split; [reflexivity|].
    apply (compiled_graph_sound demo_json demo_gate_v5 demo_display demo_catalog demo_rm
      (Some demo_policy) "go" demo_plan ds g Hc).
    intros n Hn. unfold demo_plan, ir_ids, gate_id, demo_gate_v5 in *. csimpl in *.
    rewrite !elem_of_cons, !elem_of_nil in *. destruct_or! Hn; subst; csimpl; lia || done.
  - exfalso. vm_compute in Hc. discriminate.
Defined.

Lemma custom_strategy_never_compiles_witness :
  ∃ e, compile_and_lower demo_json demo_gate_v5 demo_display
    (register_custom_compiler "mine" (expand_custom demo_gate_v5 demo_display)
       (build_compiler demo_json demo_gate_v5 demo_catalog demo_rm None)) "go" custom_plan = Err e.
Proof.
  apply (custom_strategy_never_compiles demo_json demo_gate_v5 demo_display demo_catalog demo_rm
    None "mine" (expand_custom demo_gate_v5 demo_display) "go" custom_plan
    (mkIRNode 1 KGenerate (Custom "mine") None ∅) "mine").
  - unfold custom_plan; csimpl. left.
  - reflexivity.
Defined.

Lemma content_hash_order_independent_witness :
  compute_workflow_content_hash demo_json demo_plan =
  compute_workflow_content_hash demo_json
    (with_nodes demo_plan (reverse (ir_nodes demo_plan)) (reverse (ir_edges demo_plan))).
Proof.
  apply (content_hash_order_independent demo_json demo_iter_string demo_iter_string).
  - reflexivity.
  - reflexivity.
  - csimpl. symmetry. apply reverse_Permutation.
  - csimpl. symmetry. apply reverse_Permutation.
  - apply (bool_decide_unpack _). vm_compute. exact I.
  - apply (bool_decide_unpack _). vm_compute. exact I.
Defined.
End demo.
