(* ===== verification/WorkQueue.v ===== *)
(** * The scheduler's work queue ([crates/fusion-scheduler/src/work_queue.rs])

    [WorkQueue::new] indexes a frozen execution graph, classifies the
    iteration back-edges into loop heads and computes the initially ready
    nodes; the other operations move nodes between the sets [ready],
    [in_progress], [completed] and [failed] and count activated incoming
    edges. The proofs describe the classification and the initial state
    exactly, and show by induction over the operations that a node that is
    not a loop head only becomes ready once all its incoming edges were
    activated. *)
From S2P Require Import Prelude Text Json Money ExecTypes Graphs.
Open Scope stdpp_scope.
Open Scope Z_scope.

(** [NodeState] of [crates/fusion-types/src/lib.rs]. *)
Inductive NodeState :=
| Pending | Running | Succeeded | Failed (reason : string) | Skipped.
#[global] Instance NodeState_eq_dec : EqDecision NodeState.
Proof. solve_decision. Defined.

(** [matches!(.., Some(Succeeded | Failed(_) | Skipped))] *)
Definition is_terminal (o : option NodeState) : bool :=
  match o with Some (Succeeded | Failed _ | Skipped) => true | _ => false end.

Record WorkQueue := mkQueue {
  q_graph : ExecutionGraph;
  completed : gset Uuid;
  in_progress : gset Uuid;
  failed : gset Uuid;
  ready : gset Uuid;
  outgoing : gmap Uuid (list (Uuid * option string));
  incoming : gmap Uuid (list Uuid);
  outgoing_edges_map : gmap Uuid (list ExecutionEdge);
  incoming_edges_map : gmap Uuid (list ExecutionEdge);
  total_incoming : gmap Uuid nat;
  satisfied_incoming : gmap Uuid nat;
  activated_edges : gset (Uuid * Uuid);
  selective_sources : gset Uuid;
  back_edges : gset (Uuid * Uuid);
  max_concurrent_nodes : nat;
}.

(** The five fields the operations change. *)
Definition set_sets (q : WorkQueue) (c p f r : gset Uuid) : WorkQueue :=
  mkQueue (q_graph q) c p f r (outgoing q) (incoming q) (outgoing_edges_map q)
    (incoming_edges_map q) (total_incoming q) (satisfied_incoming q) (activated_edges q)
    (selective_sources q) (back_edges q) (max_concurrent_nodes q).
Definition set_counts (q : WorkQueue) (s : gmap Uuid nat) (a : gset (Uuid * Uuid)) : WorkQueue :=
  mkQueue (q_graph q) (completed q) (in_progress q) (failed q) (ready q) (outgoing q)
    (incoming q) (outgoing_edges_map q) (incoming_edges_map q) (total_incoming q) s a
    (selective_sources q) (back_edges q) (max_concurrent_nodes q).
Definition add_ready (q : WorkQueue) (v : Uuid) : WorkQueue :=
  set_sets q (completed q) (in_progress q) (failed q) ({[v]} ∪ ready q).

(** ** Construction *)

(** [map.entry(k).or_default()] *)
Definition or_default {A} (k : Uuid) (d : A) (m : gmap Uuid A) : gmap Uuid A :=
  match m !! k with Some _ => m | None => <[k := d]> m end.

(** The walk of the back-edge classification marks a vertex when it is
    pushed. *)
Definition push_unseen (st : list Uuid * gset Uuid) (v : Uuid) : list Uuid * gset Uuid :=
  let '(stack, seen) := st in
  if decide (v ∈ seen) then (stack, seen) else (v :: stack, {[v]} ∪ seen).

Fixpoint body_walk (ch : Uuid → list Uuid) (fuel : nat) (stack : list Uuid)
    (seen : gset Uuid) : option (gset Uuid) :=
  match stack with
  | [] => Some seen
  | current :: stack =>
      match fuel with
      | O => None
      | S fuel =>
          let '(stack, seen) := foldl push_unseen (stack, seen) (ch current) in
          body_walk ch fuel stack seen
      end
  end.

Definition targets_of (out : gmap Uuid (list (Uuid * option string))) (v : Uuid) : list Uuid :=
  (default [] (out !! v)).*1.

(** [matches!(node.kind, Loop | Conditional)] *)
Definition selective (k : ExecutionNodeKind) : Prop := k = XLoop ∨ k = XConditional.
#[global] Instance selective_dec k : Decision (selective k) := _.

Definition loop_node_ids (g : ExecutionGraph) : gset Uuid :=
  foldl (λ s n, if decide (x_kind n = XLoop) then {[x_id n]} ∪ s else s) ∅ (g_nodes g).
Definition selective_ids (g : ExecutionGraph) : gset Uuid :=
  foldl (λ s n, if decide (selective (x_kind n)) then {[x_id n]} ∪ s else s) ∅ (g_nodes g).

Definition outgoing_of (g : ExecutionGraph) : gmap Uuid (list (Uuid * option string)) :=
  foldl (λ m e, push_at (x_from e) (x_to e, x_condition e) m)
    (foldl (λ m n, or_default (x_id n) [] m) ∅ (g_nodes g)) (g_edges g).
Definition incoming_of (g : ExecutionGraph) : gmap Uuid (list Uuid) :=
  foldl (λ m e, push_at (x_to e) (x_from e) m)
    (foldl (λ m n, or_default (x_id n) [] m) ∅ (g_nodes g)) (g_edges g).
Definition outgoing_edges_of (g : ExecutionGraph) : gmap Uuid (list ExecutionEdge) :=
  foldl (λ m e, push_at (x_from e) e m)
    (foldl (λ m n, or_default (x_id n) [] m) ∅ (g_nodes g)) (g_edges g).
Definition incoming_edges_of (g : ExecutionGraph) : gmap Uuid (list ExecutionEdge) :=
  foldl (λ m e, push_at (x_to e) e m)
    (foldl (λ m n, or_default (x_id n) [] m) ∅ (g_nodes g)) (g_edges g).

(** Every push of the walk marks the target of an edge, so one step per edge
    and one for the head are enough. *)
Definition body_fuel (g : ExecutionGraph) : nat := S (length (g_edges g)).

(** The edges into [loop_id] from itself or from what it reaches. *)
Definition body_back_edges (g : ExecutionGraph) (loop_id : Uuid) : option (gset (Uuid * Uuid)) :=
  seen ← body_walk (targets_of (outgoing_of g)) (body_fuel g) [loop_id] ∅;
  Some (foldl (λ s e,
    if decide (x_to e = loop_id ∧ (x_from e = loop_id ∨ x_from e ∈ seen))
    then {[(x_from e, x_to e)]} ∪ s else s) ∅ (g_edges g)).

(** [edge.condition.as_deref() == Some("loop")] into a loop head. *)
Definition marker_back_edges (g : ExecutionGraph) : gset (Uuid * Uuid) :=
  foldl (λ s e,
    if decide (x_to e ∈ loop_node_ids g ∧ x_condition e = Some "loop")
    then {[(x_from e, x_to e)]} ∪ s else s) ∅ (g_edges g).

Section construction.
Context `{!HashIter N}.

Definition classify_back_edges (g : ExecutionGraph) : option (gset (Uuid * Uuid)) :=
  s ← foldl (λ (acc : option (gset (Uuid * Uuid))) h,
          s ← acc; b ← body_back_edges g h; Some (b ∪ s))
        (Some ∅) (set_iter (loop_node_ids g));
  Some (marker_back_edges g ∪ s).

Definition total_incoming_of (g : ExecutionGraph) (back : gset (Uuid * Uuid)) : gmap Uuid nat :=
  foldl (λ m e, if decide ((x_from e, x_to e) ∈ back) then m else incr_at (x_to e) m)
    (foldl (λ m n, or_default (x_id n) 0%nat m) ∅ (g_nodes g)) (g_edges g).

Definition count_at (m : gmap Uuid nat) (v : Uuid) : nat := default 0%nat (m !! v).

Definition initial_ready (g : ExecutionGraph) (total : gmap Uuid nat) : gset Uuid :=
  foldl (λ s n, if decide (count_at total (x_id n) = 0%nat) then {[x_id n]} ∪ s else s)
    ∅ (g_nodes g).

(** [WorkQueue::new]; [None] would be a walk that does not end. *)
Definition new (g : ExecutionGraph) : option WorkQueue :=
  back ← classify_back_edges g;
  let total := total_incoming_of g back in
  Some (mkQueue g ∅ ∅ ∅ (initial_ready g total) (outgoing_of g) (incoming_of g)
          (outgoing_edges_of g) (incoming_edges_of g) total ∅ ∅ (selective_ids g) back 16).
End construction.

Definition with_max_concurrent_nodes (n : nat) (q : WorkQueue) : WorkQueue :=
  mkQueue (q_graph q) (completed q) (in_progress q) (failed q) (ready q) (outgoing q)
    (incoming q) (outgoing_edges_map q) (incoming_edges_map q) (total_incoming q)
    (satisfied_incoming q) (activated_edges q) (selective_sources q) (back_edges q)
    (n `max` 1)%nat.

(** ** Operations *)

(** The counting step shared by [try_activate_downstream] and
    [activate_edge]: the edge is not activated yet. *)
Definition count_activation (from to : Uuid) (q : WorkQueue) : WorkQueue :=
  let satisfied := incr_at to (satisfied_incoming q) in
  let q := set_counts q satisfied ({[(from, to)]} ∪ activated_edges q) in
  if decide (count_at satisfied to = count_at (total_incoming q) to ∧
             to ∉ completed q ∧ to ∉ failed q)
  then add_ready q to else q.

Definition try_activate_downstream (from : Uuid) (q : WorkQueue) : WorkQueue :=
  if decide (from ∈ selective_sources q) then q
  else match outgoing q !! from with
    | None => q
    | Some edges =>
        foldl (λ q '(to, _),
          if decide ((from, to) ∈ activated_edges q) then q else count_activation from to q)
          q edges
    end.

Definition get_ready (node_states : gmap Uuid NodeState) (q : WorkQueue) : list ExecutionNode :=
  let result := filter (λ n,
    x_id n ∈ ready q ∧ x_id n ∉ completed q ∧ x_id n ∉ in_progress q ∧ x_id n ∉ failed q ∧
    is_terminal (node_states !! x_id n) = false) (g_nodes (q_graph q)) in
  let available := (max_concurrent_nodes q - size (in_progress q))%nat in
  if decide (available < length result)%nat
  then take available (sort_by (λ a b, (x_id a <=? x_id b)%N) result)
  else result.

Definition mark_conditional_completed (v : Uuid) (q : WorkQueue) : WorkQueue :=
  set_sets q ({[v]} ∪ completed q) (in_progress q ∖ {[v]}) (failed q) (ready q ∖ {[v]}).
Definition mark_completed (v : Uuid) (q : WorkQueue) : WorkQueue :=
  try_activate_downstream v (mark_conditional_completed v q).
Definition activate_edge (from to : Uuid) (q : WorkQueue) : WorkQueue :=
  if decide ((from, to) ∈ back_edges q) then add_ready q to
  else if decide ((from, to) ∈ activated_edges q) then q
  else count_activation from to q.
Definition mark_failed (v : Uuid) (q : WorkQueue) : WorkQueue :=
  set_sets q (completed q) (in_progress q ∖ {[v]}) ({[v]} ∪ failed q) (ready q ∖ {[v]}).
Definition mark_in_progress (v : Uuid) (q : WorkQueue) : WorkQueue :=
  set_sets q (completed q) ({[v]} ∪ in_progress q) (failed q) (ready q ∖ {[v]}).

Definition reset_body_node (q : WorkQueue) (v : Uuid) : WorkQueue :=
  let q := set_sets q (completed q ∖ {[v]}) (in_progress q ∖ {[v]}) (failed q ∖ {[v]})
             (ready q ∖ {[v]}) in
  let total := count_at (total_incoming q) v in
  let satisfied := length (filter (λ from, from ∈ completed q ∧ (from, v) ∈ activated_edges q)
                             (default [] (incoming q !! v))) in
  let q := set_counts q (<[v := satisfied]> (satisfied_incoming q)) (activated_edges q) in
  if decide (satisfied = total ∧ (0 < satisfied)%nat) then add_ready q v else q.
Definition reset_loop_body (body_ids : list Uuid) (q : WorkQueue) : WorkQueue :=
  foldl reset_body_node q body_ids.

Definition is_done (node_states : gmap Uuid NodeState) (q : WorkQueue) : bool :=
  forallb (λ n, bool_decide (x_id n ∈ completed q) || bool_decide (x_id n ∈ failed q)
                || is_terminal (node_states !! x_id n)) (g_nodes (q_graph q)).
Definition any_in_progress (q : WorkQueue) : bool := bool_decide (in_progress q ≠ ∅).
Definition outgoing_edges (q : WorkQueue) (v : Uuid) : list ExecutionEdge :=
  default [] (outgoing_edges_map q !! v).
Definition incoming_edges (q : WorkQueue) (v : Uuid) : list ExecutionEdge :=
  default [] (incoming_edges_map q !! v).
Definition loop_back_target (q : WorkQueue) (v : Uuid) : option Uuid :=
  edges ← outgoing q !! v;
  fst <$> (snd <$> list_find (λ e, (v, e.1) ∈ back_edges q) edges).
Definition has_loop_back_edge (q : WorkQueue) (v : Uuid) : bool :=
  match outgoing q !! v with
  | Some edges => existsb (λ e, bool_decide ((v, e.1) ∈ back_edges q)) edges
  | None => false
  end.
Definition reset_ready (v : Uuid) (q : WorkQueue) : WorkQueue :=
  set_sets q (completed q ∖ {[v]}) (in_progress q ∖ {[v]}) (failed q ∖ {[v]}) ({[v]} ∪ ready q).

(** ** The indexed graph *)
Definition gedge (g : ExecutionGraph) (u v : Uuid) : Prop :=
  ∃ e, e ∈ g_edges g ∧ x_from e = u ∧ x_to e = v.
(** The edges into [v], and the ones that gate it. *)
Definition edges_into (g : ExecutionGraph) (v : Uuid) : list ExecutionEdge :=
  filter (λ e, x_to e = v) (g_edges g).
Definition loop_head (g : ExecutionGraph) (v : Uuid) : Prop :=
  ∃ n, n ∈ g_nodes g ∧ x_id n = v ∧ x_kind n = XLoop.

Lemma lookup_or_default_fold {A} (d : A) (ns : list ExecutionNode) (m : gmap Uuid A) v :
  default d (foldl (λ m n, or_default (x_id n) d m) m ns !! v) = default d (m !! v).
Proof.
  revert m. induction ns as [|n ns IH]; intros m; csimpl; [done|]. rewrite IH.
  unfold or_default. case_match; [done|].
  destruct (decide (x_id n = v)) as [<-|]; [by rewrite lookup_insert_eq, H|].
  by rewrite lookup_insert_ne.
Qed.

Lemma lookup_outgoing_of g v :
  default [] (outgoing_of g !! v) =
  (λ e, (x_to e, x_condition e)) <$> filter (λ e, x_from e = v) (g_edges g).
Proof. unfold outgoing_of. by rewrite lookup_push_fold, lookup_or_default_fold. Qed.
Lemma lookup_incoming_of g v :
  default [] (incoming_of g !! v) = x_from <$> edges_into g v.
Proof. unfold incoming_of. by rewrite lookup_push_fold, lookup_or_default_fold. Qed.
Lemma lookup_outgoing_edges_of g v :
  default [] (outgoing_edges_of g !! v) = filter (λ e, x_from e = v) (g_edges g).
Proof.
  unfold outgoing_edges_of. rewrite (lookup_push_fold x_from id), lookup_or_default_fold.
  by rewrite list_fmap_id.
Qed.
Lemma elem_of_targets g u v : v ∈ targets_of (outgoing_of g) u ↔ gedge g u v.
Proof.
  unfold targets_of. rewrite lookup_outgoing_of, <- list_fmap_compose, list_elem_of_fmap.
  unfold gedge. setoid_rewrite list_elem_of_filter. naive_solver.
Qed.

Lemma elem_of_collect {A B} `{Countable B} (P : A → Prop) `{∀ x, Decision (P x)} (f : A → B)
    (l : list A) (s : gset B) y :
  y ∈ foldl (λ s x, if decide (P x) then {[f x]} ∪ s else s) s l ↔
  y ∈ s ∨ ∃ x, x ∈ l ∧ P x ∧ f x = y.
Proof.
  revert s. induction l as [|x l IH]; intros s; csimpl; [set_solver|].
  rewrite IH. case_decide; set_solver.
Qed.
Lemma elem_of_loop_node_ids g v : v ∈ loop_node_ids g ↔ loop_head g v.
Proof. unfold loop_node_ids, loop_head. rewrite elem_of_collect. set_solver. Qed.
Lemma elem_of_selective_ids g v :
  v ∈ selective_ids g ↔ ∃ n, n ∈ g_nodes g ∧ x_id n = v ∧ selective (x_kind n).
Proof. unfold selective_ids. rewrite elem_of_collect. set_solver. Qed.

(** ** The walk that finds a loop's body *)
Lemma tc_closed {A} (R : A → A → Prop) x z (P : A → Prop) :
  tc R x z → (∀ y, R x y → P y) → (∀ u v, P u → R u v → P v) → P z.
Proof. induction 1; eauto. Qed.

Lemma size_list_to_set_le (l : list Uuid) :
  (size (list_to_set l : gset Uuid) <= length l)%nat.
Proof.
  induction l as [|x l IH]; csimpl; [done|].
  rewrite size_union_alt, size_singleton.
  pose proof (subseteq_size (list_to_set l ∖ {[x]} : gset Uuid) (list_to_set l)).
  specialize (H ltac:(set_solver)). lia.
Qed.

Lemma push_unseen_spec l stack seen stack' seen' (T : gset Uuid) :
  foldl push_unseen (stack, seen) l = (stack', seen') → list_to_set l ⊆ T →
  seen' = seen ∪ list_to_set l ∧
  (∀ x, x ∈ stack' ↔ x ∈ stack ∨ (x ∈ l ∧ x ∉ seen)) ∧
  (length stack' + size (T ∖ seen') <= length stack + size (T ∖ seen))%nat.
Proof.
  revert stack seen. induction l as [|v l IH]; intros stack seen Hf HT; csimpl in *.
  { simplify_eq. split_and!; [set_solver|set_solver|lia]. }
  case_decide as Hv.
  - apply IH in Hf as (-> & Hs & ?); [|set_solver]. split_and!; [set_solver| |lia].
    intros x. rewrite Hs, elem_of_cons. naive_solver.
  - apply IH in Hf as (-> & Hs & Hm); [|set_solver]. split_and!; [set_solver| |].
    + intros x. rewrite Hs, !elem_of_cons. destruct (decide (x = v)); set_solver.
    + csimpl in Hm. assert (size (T ∖ seen) = S (size (T ∖ ({[v]} ∪ seen)))) as ->; [|lia].
      transitivity (size ({[v]} ∪ (T ∖ ({[v]} ∪ seen)))).
      * f_equal. apply set_eq. intros x. destruct (decide (x = v)); set_solver.
      * rewrite size_union, size_singleton by set_solver. done.
Qed.

Section walk.
Context (ch : Uuid → list Uuid).
Notation edge := (λ u v, v ∈ ch u).

Lemma body_walk_spec (T : gset Uuid) h fuel stack seen :
  (∀ u, list_to_set (ch u) ⊆ T) →
  (length stack + size (T ∖ seen) <= fuel)%nat →
  (∀ x, x ∈ stack → x = h ∨ x ∈ seen) → (∀ x, x ∈ seen → tc edge h x) →
  (∀ x y, x = h ∨ x ∈ seen → edge x y → y ∈ seen ∨ x ∈ stack) →
  ∃ seen', body_walk ch fuel stack seen = Some seen' ∧ ∀ v, v ∈ seen' ↔ tc edge h v.
Proof.
  intros HT. revert stack seen.
  induction fuel as [|fuel IH]; intros [|cur stack] seen Hf Hst Hsound Hcl; csimpl in *; try lia.
  1, 2: exists seen; split; [done|]; intros v; split; [by apply Hsound|];
    intros Hv; apply (tc_closed edge h v (.∈ seen)); [done|..];
    [intros y Hy; destruct (Hcl h y); set_solver
    |intros x y Hx Hy; destruct (Hcl x y); set_solver].
  destruct (foldl push_unseen (stack, seen) (ch cur)) as [stack' seen'] eqn:Hp.
  destruct (push_unseen_spec _ _ _ _ _ T Hp (HT cur)) as (-> & Hs & Hm).
  apply IH; [lia|..].
  - intros x. rewrite Hs. set_solver.
  - intros x [Hx|Hx]%elem_of_union; [by apply Hsound|].
    apply elem_of_list_to_set in Hx. destruct (Hst cur) as [-> | Hc]; [set_solver|by apply tc_once|].
    eapply tc_r; [by apply Hsound|done].
  - intros x y Hx Hy. rewrite Hs.
    destruct (decide (x = cur)) as [->|]; [set_solver|].
    destruct (decide (x = h ∨ x ∈ seen)) as [Hx'|Hx']; [|set_solver].
    destruct (Hcl x y Hx' Hy); set_solver.
Qed.
End walk.

Lemma body_back_edges_spec (g : ExecutionGraph) h :
  ∃ b, body_back_edges g h = Some b ∧
    ∀ u v, (u, v) ∈ b ↔ v = h ∧ gedge g u v ∧ rtc (gedge g) h u.
Proof.
  unfold body_back_edges.
  destruct (body_walk_spec (targets_of (outgoing_of g)) (list_to_set (x_to <$> g_edges g))
              h (body_fuel g) [h] ∅) as (seen & -> & Hseen).
  - intros u v. rewrite elem_of_list_to_set, elem_of_targets, elem_of_list_to_set, list_elem_of_fmap.
    unfold gedge. naive_solver.
  - unfold body_fuel; csimpl. apply le_n_S. rewrite difference_empty_L.
    rewrite <- (length_fmap x_to). apply size_list_to_set_le.
  - set_solver.
  - set_solver.
  - set_solver.
  - csimpl. eexists; split; [done|]. intros u v. rewrite elem_of_collect.
    setoid_rewrite Hseen. rewrite rtc_tc. unfold gedge at 1.
    assert (Htc : ∀ w, tc (λ a b, b ∈ targets_of (outgoing_of g) a) h w ↔ tc (gedge g) h w)
      by (intros w; apply tc_iff; intros; apply elem_of_targets).
    setoid_rewrite Htc. split; [intros [?|(e & ? & [? ?] & ?)]; [set_solver|naive_solver]|].
    intros (-> & (e & ? & <- & <-) & Hr). right. exists e. naive_solver.
Qed.

Section construction_props.
Context `{!HashIter N}.

Lemma fold_back_edges_spec (g : ExecutionGraph) (l : list Uuid) (s : gset (Uuid * Uuid)) :
  ∃ b : gset (Uuid * Uuid), foldl (λ (acc : option (gset (Uuid * Uuid))) h,
          s ← acc; b ← body_back_edges g h; Some (b ∪ s)) (Some s) l = Some b ∧
    ∀ u v, (u, v) ∈ b ↔ (u, v) ∈ s ∨ (v ∈ l ∧ gedge g u v ∧ rtc (gedge g) v u).
Proof.
  revert s. induction l as [|h l IH]; intros s; csimpl; [exists s; set_solver|].
  destruct (body_back_edges_spec g h) as (b & -> & Hb). csimpl.
  destruct (IH (b ∪ s)) as (b' & -> & Hb'). exists b'. split; [done|].
  intros u v. rewrite Hb', elem_of_union, Hb, elem_of_cons. naive_solver.
Qed.

(** What makes (u, v) a back edge. *)
Definition back_edge (g : ExecutionGraph) (u v : Uuid) : Prop :=
  loop_head g v ∧ gedge g u v ∧
  (rtc (gedge g) v u ∨ ∃ e, e ∈ g_edges g ∧ x_from e = u ∧ x_to e = v ∧
                           x_condition e = Some "loop").

Lemma classify_back_edges_spec (g : ExecutionGraph) :
  ∃ b, classify_back_edges g = Some b ∧ ∀ u v, (u, v) ∈ b ↔ back_edge g u v.
Proof.
  unfold classify_back_edges.
  destruct (fold_back_edges_spec g (set_iter (loop_node_ids g)) ∅) as (b & -> & Hb). csimpl.
  eexists; split; [done|]. intros u v. unfold marker_back_edges, back_edge.
  rewrite elem_of_union, elem_of_collect, Hb, elem_of_set_iter.
  setoid_rewrite elem_of_loop_node_ids. unfold gedge at 1 3.
  split.
  - intros [[?|(e & ? & [? ?] & ?)]|[?|?]]; [set_solver|simplify_eq; split_and!; eauto 8|set_solver|].
    naive_solver.
  - intros (? & ? & [?|(e & ? & ? & ? & ?)]); [right; right; naive_solver|].
    left. right. exists e. subst. naive_solver.
Qed.
End construction_props.

(** ** Exact construction *)
Lemma lookup_total_fold (back : gset (Uuid * Uuid)) (es : list ExecutionEdge)
    (m : gmap Uuid nat) (v : Uuid) :
  default 0%nat (foldl (λ m e,
    if decide ((x_from e, x_to e) ∈ back) then m else incr_at (x_to e) m) m es !! v) =
  (default 0%nat (m !! v) +
   length (filter (λ e, (x_from e, v) ∉ back) (filter (λ e, x_to e = v) es)))%nat.
Proof.
  revert m. induction es as [|e es IH]; intros m; csimpl; [lia|].
  rewrite IH, (filter_cons _ e). destruct (decide (x_to e = v)) as [<-|Hne].
  - rewrite filter_cons. destruct (decide ((x_from e, x_to e) ∈ back)) as [Hin|Hin].
    + by rewrite decide_False by tauto.
    + rewrite decide_True by done. unfold incr_at. rewrite lookup_insert_eq. csimpl. lia.
  - case_decide; [done|]. unfold incr_at. by rewrite lookup_insert_ne.
Qed.

Lemma count_total_incoming (g : ExecutionGraph) (back : gset (Uuid * Uuid)) (v : Uuid) :
  count_at (total_incoming_of g back) v =
  length (filter (λ e, (x_from e, v) ∉ back) (edges_into g v)).
Proof.
  unfold total_incoming_of, count_at, edges_into.
  by rewrite lookup_total_fold, lookup_or_default_fold.
Qed.

Lemma filter_not_nil_iff {A} (P : A → Prop) `{∀ x, Decision (P x)} (l : list A) :
  length (filter (λ x, ¬ P x) l) = 0%nat ↔ ∀ x, x ∈ l → P x.
Proof.
  induction l as [|a l IH]; [set_solver|]. rewrite filter_cons. case_decide as Ha; csimpl.
  - split; [lia|]. intros Hall. destruct Ha. apply Hall. set_solver.
  - rewrite IH. set_solver.
Qed.

Lemma elem_of_initial_ready (g : ExecutionGraph) total v :
  v ∈ initial_ready g total ↔ v ∈ x_id <$> g_nodes g ∧ count_at total v = 0%nat.
Proof.
  unfold initial_ready. rewrite elem_of_collect, list_elem_of_fmap. split.
  - intros [?|(n & ? & ? & <-)]; [set_solver|]. eauto.
  - intros ((n & -> & ?) & ?). right. eauto.
Qed.

(** The fields no operation changes, as [WorkQueue::new] computes them. *)
Record static_ok (q : WorkQueue) : Prop := {
  st_outgoing : outgoing q = outgoing_of (q_graph q);
  st_incoming : incoming q = incoming_of (q_graph q);
  st_outgoing_edges : outgoing_edges_map q = outgoing_edges_of (q_graph q);
  st_incoming_edges : incoming_edges_map q = incoming_edges_of (q_graph q);
  st_selective : selective_sources q = selective_ids (q_graph q);
  st_back : ∀ u v, (u, v) ∈ back_edges q ↔ back_edge (q_graph q) u v;
  st_total : total_incoming q = total_incoming_of (q_graph q) (back_edges q);
}.

Lemma new_spec `{!HashIter N} (g : ExecutionGraph) :
  ∃ q, new g = Some q ∧ static_ok q ∧ q_graph q = g ∧
    completed q = ∅ ∧ in_progress q = ∅ ∧ failed q = ∅ ∧
    satisfied_incoming q = ∅ ∧ activated_edges q = ∅ ∧
    ready q = initial_ready g (total_incoming q) ∧ max_concurrent_nodes q = 16%nat.
Proof.
  unfold new. destruct (classify_back_edges_spec g) as (b & -> & Hb). csimpl.
  eexists; split; [done|]. split_and!; try done.
Qed.

(** [WorkQueue::new] returns: the walk over every loop body ends. An edge is
    a back edge exactly when it enters a loop head from the head itself, from
    a node the head reaches, or carries the ["loop"] marker; the initially
    ready nodes are exactly the nodes all of whose incoming edges are back
    edges; nothing has started. *)
Theorem new_queue_exact `{!HashIter N} (g : ExecutionGraph) :
  ∃ q, new g = Some q ∧
    (∀ u v, (u, v) ∈ back_edges q ↔ back_edge g u v) ∧
    (∀ v, v ∈ ready q ↔ v ∈ x_id <$> g_nodes g ∧ ∀ u, gedge g u v → back_edge g u v) ∧
    completed q = ∅ ∧ in_progress q = ∅ ∧ failed q = ∅ ∧ activated_edges q = ∅.
Proof.
  destruct (new_spec g) as (q & -> & Hst & Hg & ? & ? & ? & ? & ? & Hr & ?).
  destruct Hst as [_ _ _ _ _ Hb Ht]. rewrite Hg in *.
  exists q. split; [done|]. split; [exact Hb|]. split; [|done]. intros v.
  rewrite Hr, elem_of_initial_ready, Ht, count_total_incoming.
  rewrite (filter_not_nil_iff (λ e, (x_from e, v) ∈ back_edges q)).
  unfold edges_into, gedge. setoid_rewrite list_elem_of_filter.
  setoid_rewrite Hb. apply and_iff_compat_l. split; [|naive_solver].
  intros Hall u (e & ? & <- & <-). by apply Hall.
Qed.

(** ** Dispatch *)
Definition dispatchable (ns : gmap Uuid NodeState) (q : WorkQueue) (n : ExecutionNode) : Prop :=
  x_id n ∈ ready q ∧ x_id n ∉ completed q ∧ x_id n ∉ in_progress q ∧ x_id n ∉ failed q ∧
  is_terminal (ns !! x_id n) = false.

Lemma id_leb_total (a b : ExecutionNode) :
  (x_id a <=? x_id b)%N = true ∨ (x_id b <=? x_id a)%N = true.
Proof. rewrite !N.leb_le. lia. Qed.
Lemma id_leb_trans (a b c : ExecutionNode) :
  (x_id a <=? x_id b)%N = true → (x_id b <=? x_id c)%N = true → (x_id a <=? x_id c)%N = true.
Proof. rewrite !N.leb_le. lia. Qed.

Lemma StronglySorted_take {A} (R : A → A → Prop) k (l : list A) :
  StronglySorted R l → ∀ x y, x ∈ take k l → y ∈ drop k l → R x y.
Proof.
  revert k. induction l as [|a l IH]; intros [|k] Hs x y; csimpl; try set_solver.
  apply StronglySorted_inv in Hs as [Hs Ha]. rewrite Forall_forall in Ha.
  intros [->|Hx]%elem_of_cons Hy; [|by eapply IH].
  apply Ha. by eapply (subseteq_drop k).
Qed.

Lemma get_ready_spec ns q :
  let r := get_ready ns q in
  let available := (max_concurrent_nodes q - size (in_progress q))%nat in
  (∀ n, n ∈ r → n ∈ g_nodes (q_graph q) ∧ dispatchable ns q n) ∧
  (length r <= available)%nat ∧
  (∀ n, n ∈ g_nodes (q_graph q) → dispatchable ns q n → n ∉ r →
     length r = available ∧ ∀ m, m ∈ r → (x_id m ≤ x_id n)%N).
Proof.
  unfold get_ready; csimpl.
  set (P := λ n : ExecutionNode, _). set (l := filter P _).
  assert (Hl : ∀ n, n ∈ l ↔ n ∈ g_nodes (q_graph q) ∧ dispatchable ns q n).
  { intros n. unfold l. rewrite list_elem_of_filter. unfold dispatchable, P. tauto. }
  case_decide as Hlen.
  - set (s := sort_by _ l). assert (Hp : s ≡ₚ l) by apply sort_by_perm.
    split_and!.
    + intros n Hn. apply Hl. rewrite <- Hp. by eapply subseteq_take.
    + rewrite length_take. lia.
    + intros n Hn Hd Hni. rewrite length_take, Hp. split; [lia|]. intros m Hm.
      apply N.leb_le.
      eapply (StronglySorted_take (λ a b, (x_id a <=? x_id b)%N = true)); [|exact Hm|].
      { apply sort_by_sorted; [apply id_leb_total|apply id_leb_trans]. }
      assert (n ∈ s) as Hs by (rewrite Hp; by apply Hl).
      rewrite <- (take_drop (max_concurrent_nodes q - size (in_progress q)) s) in Hs. by apply elem_of_app in Hs as [?|?].
  - split_and!; [intros n; apply Hl|lia|]. intros n Hn Hd []. by apply Hl.
Qed.

Lemma get_ready_nodup ns q :
  NoDup (x_id <$> g_nodes (q_graph q)) → NoDup (x_id <$> get_ready ns q).
Proof.
  intros Hnd. unfold get_ready; csimpl. set (P := λ n : ExecutionNode, _).
  assert (Hf : NoDup (x_id <$> filter P (g_nodes (q_graph q)))).
  { eapply sublist_NoDup; [exact Hnd|]. apply fmap_sublist, sublist_filter. }
  case_decide; [|done]. rewrite fmap_take.
  eapply sublist_NoDup; [|apply sublist_take]. by rewrite sort_by_perm.
Qed.

(** [get_ready] offers only nodes of the graph that are ready and neither
    finished, failed nor running, never more than the free slots; a node it
    leaves out has the batch full of nodes with no larger id. *)
Theorem get_ready_exact ns q :
  let r := get_ready ns q in
  let available := (max_concurrent_nodes q - size (in_progress q))%nat in
  (∀ n, n ∈ r → n ∈ g_nodes (q_graph q) ∧ dispatchable ns q n) ∧
  (length r <= available)%nat ∧
  (∀ n, n ∈ g_nodes (q_graph q) → dispatchable ns q n → n ∉ r →
     length r = available ∧ ∀ m, m ∈ r → (x_id m ≤ x_id n)%N).
Proof. apply get_ready_spec. Qed.

(** ** Gating: the operations as steps *)
Inductive queue_step (q : WorkQueue) : WorkQueue → Prop :=
| step_in_progress v : queue_step q (mark_in_progress v q)
| step_completed v : queue_step q (mark_completed v q)
| step_conditional v : queue_step q (mark_conditional_completed v q)
| step_activate u v : gedge (q_graph q) u v → queue_step q (activate_edge u v q)
| step_failed v : queue_step q (mark_failed v q)
| step_reset_body ids : queue_step q (reset_loop_body ids q)
| step_rearm v : loop_head (q_graph q) v → queue_step q (reset_ready v q).

(** The edges into [v] that were activated, parallel edges counted apart. *)
Definition activated_into (q : WorkQueue) (v : Uuid) : nat :=
  length (filter (λ e, (x_from e, v) ∈ activated_edges q) (edges_into (q_graph q) v)).

Record gate_inv (q : WorkQueue) : Prop := {
  gate_static : static_ok q;
  gate_count : ∀ v, ¬ loop_head (q_graph q) v →
    (count_at (satisfied_incoming q) v <= activated_into q v)%nat;
  gate_ready : ∀ v, v ∈ ready q → ¬ loop_head (q_graph q) v →
    ∀ u, gedge (q_graph q) u v → (u, v) ∈ activated_edges q;
}.

Lemma filter_length_full {A} (P : A → Prop) `{∀ x, Decision (P x)} (l : list A) :
  (length l <= length (filter P l))%nat → ∀ x, x ∈ l → P x.
Proof.
  induction l as [|a l IH]; [set_solver|]. rewrite filter_cons. case_decide; csimpl; intros Hl.
  - intros x [->|Hx]%elem_of_cons; [done|]. apply IH; [lia|done].
  - pose proof (length_filter P l). lia.
Qed.

Lemma filter_length_all {A} (P : A → Prop) `{∀ x, Decision (P x)} (l : list A) :
  (∀ x, x ∈ l → P x) → length (filter P l) = length l.
Proof.
  induction l as [|a l IH]; intros Hall; [done|].
  rewrite filter_cons, decide_True by set_solver. csimpl. rewrite IH; [done|set_solver].
Qed.

Lemma filter_fmap_length {A B} (f : A → B) (P : B → Prop) `{∀ x, Decision (P x)} (l : list A) :
  length (filter P (f <$> l)) = length (filter (λ x, P (f x)) l).
Proof.
  induction l as [|a l IH]; csimpl; [done|]. rewrite !filter_cons.
  case_decide; csimpl; by rewrite IH.
Qed.

Lemma filter_length_mono {A} (P Q : A → Prop) `{∀ x, Decision (P x), ∀ x, Decision (Q x)}
    (l : list A) :
  (∀ x, x ∈ l → P x → Q x) → (length (filter P l) <= length (filter Q l))%nat.
Proof.
  induction l as [|a l IH]; intros HPQ; [done|]. rewrite !filter_cons.
  specialize (IH ltac:(set_solver)). pose proof (HPQ a ltac:(set_solver)).
  repeat case_decide; csimpl; try lia. tauto.
Qed.

Lemma filter_length_lt {A} (P Q : A → Prop) `{∀ x, Decision (P x), ∀ x, Decision (Q x)}
    (l : list A) x :
  (∀ x, x ∈ l → P x → Q x) → x ∈ l → Q x → ¬ P x →
  (length (filter P l) < length (filter Q l))%nat.
Proof.
  induction l as [|a l IH]; intros HPQ Hx HQ HP; [set_solver|]. rewrite !filter_cons.
  pose proof (filter_length_mono P Q l ltac:(set_solver)).
  apply elem_of_cons in Hx as [<-|Hx].
  - rewrite decide_False, decide_True by done. csimpl. lia.
  - specialize (IH ltac:(set_solver) Hx HQ HP). pose proof (HPQ a ltac:(set_solver)).
    repeat case_decide; csimpl; try lia. tauto.
Qed.

(** A node that is no loop head waits for all its incoming edges. *)
Lemma total_not_loop q v :
  static_ok q → ¬ loop_head (q_graph q) v →
  count_at (total_incoming q) v = length (edges_into (q_graph q) v).
Proof.
  intros [_ _ _ _ _ Hb Ht] Hv. rewrite Ht, count_total_incoming.
  apply filter_length_all. intros e _ Hin. apply Hb in Hin as [? _]. done.
Qed.

Lemma full_activation q v :
  static_ok q → ¬ loop_head (q_graph q) v →
  (count_at (total_incoming q) v <= activated_into q v)%nat →
  ∀ u, gedge (q_graph q) u v → (u, v) ∈ activated_edges q.
Proof.
  intros Hst Hv Hle u (e & He & <- & <-). rewrite total_not_loop in Hle by done.
  apply (filter_length_full (λ e', (x_from e', x_to e) ∈ activated_edges q) _ Hle).
  unfold edges_into. by rewrite list_elem_of_filter.
Qed.

Lemma gate_inv_new `{!HashIter N} g q : new g = Some q → gate_inv q.
Proof.
  intros Hnew. destruct (new_spec g) as (q' & Hq & Hst & Hg & ? & ? & ? & Hs & Ha & Hr & _).
  simplify_eq. split; [done|..].
  - intros v _. rewrite Hs. unfold count_at. rewrite lookup_empty. csimpl. lia.
  - intros v Hv Hn. rewrite Hr, elem_of_initial_ready in Hv. destruct Hv as [_ Hv].
    apply full_activation; [done..|]. lia.
Qed.

(** Moving nodes between the sets keeps the invariant if [ready] does not
    grow, loop heads excepted. *)
Lemma gate_inv_sets q c p f r :
  gate_inv q → (∀ v, v ∈ r → ¬ loop_head (q_graph q) v → v ∈ ready q) →
  gate_inv (set_sets q c p f r).
Proof.
  intros [[] Hc Hr] Hsub. split; [by split|done|].
  intros v Hv Hn. csimpl in *. by apply Hr, Hn; auto.
Qed.

Lemma activated_into_insert q u v s :
  gedge (q_graph q) u v → (u, v) ∉ activated_edges q → ∀ w,
  (activated_into q w + (if decide (w = v) then 1 else 0) <=
   activated_into (set_counts q s ({[(u, v)]} ∪ activated_edges q)) w)%nat.
Proof.
  intros (e & He & <- & <-) Hu w. unfold activated_into; csimpl. case_decide as Hw.
  - subst w. rewrite Nat.add_1_r. apply (filter_length_lt _ _ _ e); [set_solver| |set_solver|done].
    unfold edges_into. by rewrite list_elem_of_filter.
  - rewrite Nat.add_0_r. apply filter_length_mono. set_solver.
Qed.

Lemma gate_inv_count_activation q u v :
  gate_inv q → gedge (q_graph q) u v → (u, v) ∉ activated_edges q →
  gate_inv (count_activation u v q).
Proof.
  intros [Hst Hc Hr] He Hu. unfold count_activation.
  set (q1 := set_counts q _ _).
  assert (Hcount : ∀ w, ¬ loop_head (q_graph q) w →
    (count_at (satisfied_incoming q1) w <= activated_into q1 w)%nat).
  { intros w Hw. specialize (Hc w Hw). unfold q1.
    pose proof (activated_into_insert q u v (incr_at v (satisfied_incoming q)) He Hu w) as Hi.
    etrans; [|exact Hi]. csimpl. unfold count_at, incr_at in *.
    case_decide as Hwv; [subst; rewrite lookup_insert_eq|rewrite lookup_insert_ne by done];
      csimpl; lia. }
  assert (Hst1 : static_ok q1) by (destruct Hst; by split).
  assert (Hinv1 : gate_inv q1).
  { split; [done|done|]. intros w Hw Hn x Hx. csimpl. apply elem_of_union_r. by eapply Hr. }
  case_decide as Hd; [|done]. destruct Hd as [Heq _].
  destruct Hst1. split; [by split|done|].
  intros w [->%elem_of_singleton|Hw]%elem_of_union Hn; [|by eapply (gate_ready q1)].
  apply (full_activation q1); [by split|done|]. rewrite <- Heq. by apply Hcount.
Qed.

Lemma try_activate_inv q u (es : list (Uuid * option string)) :
  gate_inv q → (∀ v c, (v, c) ∈ es → gedge (q_graph q) u v) →
  gate_inv (foldl (λ q '(to, _),
    if decide ((u, to) ∈ activated_edges q) then q else count_activation u to q) q es).
Proof.
  revert q. induction es as [|[v c] es IH]; intros q Hq Hes; csimpl; [done|].
  case_decide as Hd; [apply IH; [done|set_solver]|].
  apply IH; [apply gate_inv_count_activation; [done| |done]; by eapply Hes, list_elem_of_here|].
  intros w c' Hw. assert (q_graph (count_activation u v q) = q_graph q) as ->.
  { unfold count_activation. by case_decide. }
  apply (Hes w c'). set_solver.
Qed.

Lemma gate_inv_try_activate q u : gate_inv q → gate_inv (try_activate_downstream u q).
Proof.
  intros Hq. unfold try_activate_downstream. case_decide; [done|].
  destruct (outgoing q !! u) as [es|] eqn:Ho; [|done].
  apply try_activate_inv; [done|]. intros v c Hv. apply elem_of_targets.
  unfold targets_of. rewrite <- (st_outgoing q (gate_static q Hq)), Ho. csimpl.
  apply list_elem_of_fmap. by exists (v, c).
Qed.

Lemma gate_inv_reset_node q v : gate_inv q → gate_inv (reset_body_node q v).
Proof.
  intros Hq. unfold reset_body_node.
  set (q0 := set_sets q _ _ _ _). assert (Hq0 : gate_inv q0) by (apply gate_inv_sets; set_solver).
  set (sat := length _). set (q1 := set_counts q0 _ _).
  assert (Hsat : ¬ loop_head (q_graph q) v → (sat <= activated_into q1 v)%nat).
  { intros _. unfold sat, activated_into. rewrite (st_incoming q0 (gate_static q0 Hq0)).
    rewrite lookup_incoming_of. change (q_graph q1) with (q_graph q0).
    rewrite filter_fmap_length. apply filter_length_mono. tauto. }
  assert (Hst1 : static_ok q1) by (destruct (gate_static q0 Hq0); by split).
  assert (Hcount : ∀ w, ¬ loop_head (q_graph q1) w →
    (count_at (satisfied_incoming q1) w <= activated_into q1 w)%nat).
  { intros w Hw. unfold count_at. csimpl. destruct (decide (w = v)) as [->|].
    - rewrite lookup_insert_eq. by apply Hsat.
    - rewrite lookup_insert_ne by done. by apply (gate_count q0 Hq0). }
  assert (Hinv1 : gate_inv q1) by (split; [done|done|apply (gate_ready q0 Hq0)]).
  case_decide as Hd; [|done]. destruct Hst1. split; [by split|done|].
  intros w [->%elem_of_singleton|Hw]%elem_of_union Hn; [|by eapply (gate_ready q1)].
  apply (full_activation q1); [by split|done|]. destruct Hd as [Heq _].
  change (count_at (total_incoming q1) v) with (count_at (total_incoming q0) v).
  rewrite <- Heq. by apply Hsat.
Qed.

Lemma gate_inv_step q q' : queue_step q q' → gate_inv q → gate_inv q'.
Proof.
  intros Hs Hq. destruct Hs as [v|v|v|u v He|v|ids|v Hl].
  - apply gate_inv_sets; [done|set_solver].
  - apply gate_inv_try_activate, gate_inv_sets; [done|set_solver].
  - apply gate_inv_sets; [done|set_solver].
  - unfold activate_edge. case_decide as Hb.
    + apply gate_inv_sets; [done|]. intros w Hw Hn.
      apply (st_back q (gate_static q Hq)) in Hb as [Hh _]. set_solver.
    + case_decide; [done|]. by apply gate_inv_count_activation.
  - apply gate_inv_sets; [done|set_solver].
  - revert q Hq. unfold reset_loop_body. induction ids; intros q Hq; csimpl; [done|].
    by apply IHids, gate_inv_reset_node.
  - apply gate_inv_sets; [done|set_solver].
Qed.

Lemma gate_inv_reachable q q' : rtc queue_step q q' → gate_inv q → gate_inv q'.
Proof. induction 1; eauto using gate_inv_step. Qed.

(** Whatever operations run, in whatever order, loop resets included: a node
    that is not a loop head is ready only when every edge into it has been
    activated. *)
Theorem ready_gated `{!HashIter N} (g : ExecutionGraph) (q0 q : WorkQueue) :
  new g = Some q0 → rtc queue_step q0 q →
  ∀ v, v ∈ ready q → ¬ loop_head (q_graph q) v →
  ∀ u, gedge (q_graph q) u v → (u, v) ∈ activated_edges q.
Proof. intros Hn Hr. apply gate_inv_new, (gate_inv_reachable _ _ Hr) in Hn. apply Hn. Qed.

(** Two nodes, the second waiting for the first. *)
Definition pair_graph : ExecutionGraph :=
  let node i := mkExecNode i LLMGenerate Single "m" (mkRetry 0 0) None ∅ None in
  mkGraph 0%N [node 1%N; node 2%N] [mkExecEdge 1%N 2%N None]
    (mkGraphMetadata ZERO 0 0 0 0) 0 ZERO 0.
Definition pair_queue : WorkQueue :=
  default (mkQueue pair_graph ∅ ∅ ∅ ∅ ∅ ∅ ∅ ∅ ∅ ∅ ∅ ∅ ∅ 0) (@new (map_to_list_iter N) pair_graph).

Lemma ready_gated_witness :
  let q := mark_completed 1%N (mark_in_progress 1%N pair_queue) in
  2%N ∈ ready q ∧ ∀ u, gedge (q_graph q) u 2%N → (u, 2%N) ∈ activated_edges q.
Proof.
  cbv zeta. set (q := mark_completed 1%N (mark_in_progress 1%N pair_queue)).
  assert (Hr : 2%N ∈ ready q) by (apply (bool_decide_unpack _); by vm_compute).
  split; [exact Hr|].
  apply (@ready_gated (map_to_list_iter N) pair_graph pair_queue q).
  - vm_compute. reflexivity.
  - eapply rtc_l; [apply step_in_progress|]. eapply rtc_l; [apply step_completed|]. apply rtc_refl.
  - exact Hr.
  - intros (n & Hn & Hid & Hk). revert n Hn Hid Hk.
    change (∀ n, n ∈ g_nodes pair_graph → x_id n = 2%N → x_kind n = XLoop → False).
    intros n [->|[->|[]%not_elem_of_nil]%elem_of_cons]%elem_of_cons _ Hk; discriminate Hk.
Defined.
