(* ===== verification/Scheduler.v ===== *)
(** * The DAG scheduler ([DefaultScheduler], [crates/fusion-scheduler/src/lib.rs])

    [run_inner] in full: dispatch of a batch, cost accounting against the
    budget envelope, the [Conditional], [Loop] and plain success branches with
    loop-back re-arming, the failure cascade and the final verdict. The
    executor is a parameter, a function of the number of node executions so
    far, the node and its context, so it may keep state; [join_all] returns
    the results of a batch in the order of the batch. A cancellation token is
    the pair of answers its polls get: at the loop head, per wave, and in the
    race with a node, per execution. *)
From S2P Require Import Prelude Text Json Money Budget ExecTypes Graphs WorkQueue.
Open Scope stdpp_scope.
Open Scope Z_scope.

(** ** Types *)
Record Usage := mkUsage { prompt_tokens : Z; completion_tokens : Z; total_tokens : Z }.
Record NodeExecutionResult := mkResult {
  r_state : NodeState;
  r_usage : option Usage;
  r_latency_ms : Z;
  r_output : option json;
}.
Record NodeExecContext := mkCtx {
  parent_outputs : gmap Uuid json;
  graph_outputs : gmap Uuid json;
}.
Record TokenPricing := mkPricing {
  input_nanos_per_token : Z;
  output_nanos_per_token : Z;
}.
Definition flat_fallback : TokenPricing := mkPricing 2000 10000.

Record ExecutionOutcome := mkOutcome {
  success : bool;
  o_outputs : gmap Uuid json;
  o_node_states : gmap Uuid NodeState;
  total_latency_ms : Z;
  o_total_cost : NanoUSD;
  o_total_tokens : Z;
}.

(** The [PlatformError::Scheduler] values [run_inner] builds. *)
Inductive SchedulerError :=
| Cancelled
| NodeNotFound (id : Uuid)
| LoopNodeNotFound (id : Uuid).

Record CancellationToken := mkToken {
  cancelled_at_wave : nat → bool;
  cancelled_during : nat → bool;
}.

Record DefaultScheduler := mkScheduler {
  max_concurrent : nat;
  pricing : option (string → TokenPricing);
}.
Definition scheduler_new : DefaultScheduler := mkScheduler 16 None.
Definition with_max_concurrent (n : nat) : DefaultScheduler := mkScheduler n None.
Definition with_pricing (r : string → TokenPricing) (s : DefaultScheduler) : DefaultScheduler :=
  mkScheduler (max_concurrent s) (Some r).
Definition price_for (s : DefaultScheduler) (model : string) : TokenPricing :=
  match pricing s with Some resolve => resolve model | None => flat_fallback end.

(** The local variables of [run_inner], the shared envelope counters, and the
    number of node executions so far. *)
Record Run := mkRun {
  queue : WorkQueue;
  node_states : gmap Uuid NodeState;
  outputs : gmap Uuid json;
  total_cost : NanoUSD;
  run_tokens : Z;
  loop_iterations : gmap Uuid Z;
  envelope : Counters;
  calls : nat;
}.
Definition set_queue (q : WorkQueue) (s : Run) : Run :=
  mkRun q (node_states s) (outputs s) (total_cost s) (run_tokens s) (loop_iterations s)
    (envelope s) (calls s).
Definition on_queue (f : WorkQueue → WorkQueue) (s : Run) : Run := set_queue (f (queue s)) s.
Definition set_state (v : Uuid) (st : NodeState) (s : Run) : Run :=
  mkRun (queue s) (<[v := st]> (node_states s)) (outputs s) (total_cost s) (run_tokens s)
    (loop_iterations s) (envelope s) (calls s).
Definition set_output (v : Uuid) (o : json) (s : Run) : Run :=
  mkRun (queue s) (node_states s) (<[v := o]> (outputs s)) (total_cost s) (run_tokens s)
    (loop_iterations s) (envelope s) (calls s).
Definition set_envelope (c : Counters) (s : Run) : Run :=
  mkRun (queue s) (node_states s) (outputs s) (total_cost s) (run_tokens s)
    (loop_iterations s) c (calls s).
Definition set_iterations (m : gmap Uuid Z) (s : Run) : Run :=
  mkRun (queue s) (node_states s) (outputs s) (total_cost s) (run_tokens s) m
    (envelope s) (calls s).
Definition add_spend (cost : NanoUSD) (tokens : Z) (s : Run) : Run :=
  mkRun (queue s) (node_states s) (outputs s) (saturating_add (total_cost s) cost)
    (u64_wrapping_add (run_tokens s) tokens) (loop_iterations s) (envelope s) (calls s).
Definition count_call (s : Run) : Run :=
  mkRun (queue s) (node_states s) (outputs s) (total_cost s) (run_tokens s)
    (loop_iterations s) (envelope s) (S (calls s)).

(** Where control goes after a result: on with the batch, out of ['sched_loop],
    or out of the function. *)
Inductive Flow :=
| Go (s : Run)
| BreakLoop (s : Run)
| Return (r : result SchedulerError ExecutionOutcome).

Section run.
Context `{!HashIter N}.
Context (sched : DefaultScheduler).
Context (execute_node : nat → ExecutionNode → NodeExecContext → NodeExecutionResult).
Context (cancel : option CancellationToken).
Context (ceilings : option Ceilings).
Context (elapsed_ms : Z).
Context (graph : ExecutionGraph).

Definition node_index : gmap Uuid nat :=
  foldl (λ m '(i, n), <[x_id n := i]> m) ∅ (imap pair (g_nodes graph)).

Definition parents_of (v : Uuid) : list Uuid :=
  x_from <$> filter (λ e, x_to e = v) (g_edges graph).
Definition context_for (v : Uuid) (outs : gmap Uuid json) : NodeExecContext :=
  mkCtx (foldl (λ m p, match outs !! p with Some o => <[p := o]> m | None => m end)
           ∅ (parents_of v)) outs.

(** The future of one node: the race with the token is biased towards it. *)
Definition node_future (k : nat) (n : ExecutionNode) (ctx : NodeExecContext)
    : NodeExecutionResult :=
  match cancel with
  | Some t => if cancelled_during t k
              then mkResult (Failed "Cancelled by client") None 0 None
              else execute_node k n ctx
  | None => execute_node k n ctx
  end.

(** The dispatch of a batch: every node is marked before any future runs; the
    contexts hold the outputs of the previous waves. *)
Fixpoint dispatch (batch : list Uuid) (s : Run)
    : result SchedulerError (Run * list (Uuid * NodeExecutionResult)) :=
  match batch with
  | [] => Ok (s, [])
  | v :: batch =>
      let s := set_state v Running (on_queue (mark_in_progress v) s) in
      match node_index !! v ≫= (λ i, g_nodes graph !! i) with
      | None => Err (NodeNotFound v)
      | Some n =>
          let r := node_future (calls s) n (context_for v (outputs s)) in
          '(s, rs) ← dispatch batch (count_call s);
          Ok (s, (x_id n, r) :: rs)
      end
  end.

(** ** Budget accounting *)
Definition node_cost (v : Uuid) (u : Usage) : NanoUSD :=
  let model := default "" (x_model <$> (node_index !! v ≫= (λ i, g_nodes graph !! i))) in
  let price := price_for sched model in
  let input_cost := from_nanos (prompt_tokens u *^ input_nanos_per_token price)%u64 in
  let output_cost := from_nanos (completion_tokens u *^ output_nanos_per_token price)%u64 in
  saturating_add input_cost output_cost.

(** The [Display] of the error. *)
Definition budget_error_display (e : BudgetExceededError) : string :=
  match e with
  | CostExceeded spent max =>
      "Cost budget exceeded: " +:+ pretty spent +:+ " nano-USD spent, " +:+ pretty max
        +:+ " nano-USD max"
  | TokensExceeded spent max =>
      "Token budget exceeded: " +:+ pretty spent +:+ " tokens spent, " +:+ pretty max +:+ " max"
  | IterationsExceeded current max =>
      "Iteration budget exceeded: " +:+ pretty current +:+ " iterations, " +:+ pretty max
        +:+ " max"
  end.
Definition breach_message (e : BudgetExceededError) : string :=
  "Budget breached: " +:+ budget_error_display e.

Definition fail_unfinished (msg : string) (s : Run) (v : Uuid) : Run :=
  if is_terminal (node_states s !! v) then s else set_state v (Failed msg) s.
Definition skip_unfinished (s : Run) (n : ExecutionNode) : Run :=
  match node_states s !! x_id n with
  | None | Some (Pending | Running) => set_state (x_id n) Skipped s
  | _ => s
  end.

Definition breach_outcome (batch : list Uuid) (v : Uuid) (r : NodeExecutionResult)
    (e : BudgetExceededError) (s : Run) : ExecutionOutcome :=
  let s := match r_state r with
           | Succeeded => set_output v (default JNull (r_output r)) (set_state v Succeeded s)
           | other => set_state v other s
           end in
  let s := foldl (fail_unfinished (breach_message e)) s batch in
  let s := foldl skip_unfinished s (g_nodes graph) in
  mkOutcome false (outputs s) (node_states s) elapsed_ms (total_cost s) (run_tokens s).

(** ** The result of one node *)

(** The targets of [v]'s edges that are not conditioned ["exit"], and of those
    that are. *)
Definition body_targets (q : WorkQueue) (v : Uuid) : list Uuid :=
  x_to <$> filter (λ e, x_condition e ≠ Some "exit") (outgoing_edges q v).
Definition exit_targets (q : WorkQueue) (v : Uuid) : list Uuid :=
  x_to <$> filter (λ e, x_condition e = Some "exit") (outgoing_edges q v).
Definition matched_targets (q : WorkQueue) (v : Uuid) (val : string) : list Uuid :=
  x_to <$> filter (λ e, x_condition e = None ∨ x_condition e = Some val) (outgoing_edges q v).

Definition activate_all (v : Uuid) (targets : list Uuid) (s : Run) : Run :=
  foldl (λ s t, on_queue (activate_edge v t) s) s targets.
Definition pend_all (ids : list Uuid) (s : Run) : Run :=
  foldl (λ s b, set_state b Pending s) s ids.

Definition conditional_succeeded (v : Uuid) (s : Run) : Run :=
  let s := on_queue (mark_conditional_completed v) s in
  let val := default "true" (outputs s !! v ≫= as_str) in
  activate_all v (matched_targets (queue s) v val) s.

Definition loop_succeeded (v : Uuid) (s : Run) : Flow :=
  let s := on_queue (mark_completed v) s in
  if default false (outputs s !! v ≫= as_bool) then
    let continue (s : Run) : Flow :=
      let body_ids := body_targets (queue s) v in
      let s := pend_all body_ids s in
      let s := on_queue (reset_loop_body body_ids) s in
      Go (activate_all v body_ids s) in
    match ceilings with
    | Some m =>
        match increment_iteration m (envelope s) with
        | (Err _, c) => BreakLoop (set_envelope c s)
        | (Ok _, c) => continue (set_envelope c s)
        end
    | None => continue s
    end
  else Go (activate_all v (exit_targets (queue s) v) s).

Definition max_iters_of (i : nat) : Z :=
  as_u32 (default 10
    (n ← g_nodes graph !! i; v ← x_config n !! "max_iterations"; as_u64 v)).

Definition plain_succeeded (v : Uuid) (s : Run) : Flow :=
  let s := on_queue (mark_completed v) s in
  if has_loop_back_edge (queue s) v then
    match loop_back_target (queue s) v with
    | None => Go s
    | Some h =>
        let s := set_iterations (or_default h 0 (loop_iterations s)) s in
        let iter_count := default 0 (loop_iterations s !! h) in
        match node_index !! h with
        | None => Return (Err (LoopNodeNotFound h))
        | Some i =>
            if (iter_count <? max_iters_of i)%Z then
              let s := set_iterations (<[h := iter_count + 1]> (loop_iterations s)) s in
              let body_ids := body_targets (queue s) h in
              let s := pend_all body_ids s in
              let s := on_queue (reset_loop_body body_ids) s in
              let s := set_state h Pending s in
              let s := on_queue (reset_ready h) s in
              Go (on_queue (activate_edge v h) s)
            else Go s
        end
    end
  else Go s.

Definition succeeded (v : Uuid) (out : option json) (s : Run) : Flow :=
  let s := set_output v (default JNull out) (set_state v Succeeded s) in
  match node_index !! v with
  | None => Return (Err (NodeNotFound v))
  | Some i =>
      match x_kind <$> g_nodes graph !! i with
      | Some XConditional => Go (conditional_succeeded v s)
      | Some XLoop => loop_succeeded v s
      | _ => plain_succeeded v s
      end
  end.

(** The cascade below a failed node; the stack's top is the list's head. *)
Fixpoint cascade (fuel : nat) (stack : list Uuid) (visited : gset Uuid) (s : Run) : Run :=
  match fuel, stack with
  | S fuel, d :: stack =>
      if decide (d ∈ visited) then cascade fuel stack visited s
      else
        let visited := {[d]} ∪ visited in
        match node_states s !! d with
        | Some Pending | None =>
            let s := on_queue (mark_failed d) (set_state d (Failed "dependency failed") s) in
            cascade fuel (reverse (x_to <$> outgoing_edges (queue s) d) ++ stack) visited s
        | _ => cascade fuel stack visited s
        end
  | _, _ => s
  end.
(** A vertex extends the stack at its first pop only, so every edge is pushed
    at most twice: as an edge of the failed node and of a visited one. *)
Definition cascade_fuel : nat := (2 * length (g_edges graph))%nat.

Definition node_failed (v : Uuid) (msg : string) (s : Run) : Run :=
  let s := set_state v (Failed msg) (on_queue (mark_failed v) s) in
  cascade cascade_fuel (reverse (x_to <$> outgoing_edges (queue s) v)) ∅ s.

Definition settle (v : Uuid) (r : NodeExecutionResult) (s : Run) : Flow :=
  match r_state r with
  | Succeeded => succeeded v (r_output r) s
  | Failed msg => Go (node_failed v msg s)
  | st => Go (set_state v st (on_queue (mark_completed v) s))
  end.

Definition process_result (batch : list Uuid) (s : Run) (vr : Uuid * NodeExecutionResult) : Flow :=
  let '(v, r) := vr in
  match r_usage r with
  | None => settle v r s
  | Some u =>
      let cost := node_cost v u in
      let s := add_spend cost (total_tokens u) s in
      match ceilings with
      | None => settle v r s
      | Some m =>
          let '(verdict, c) := record_and_check m cost (total_tokens u) (envelope s) in
          let s := set_envelope c s in
          match verdict with
          | Err e => Return (Ok (breach_outcome batch v r e s))
          | Ok _ => settle v r s
          end
      end
  end.

Fixpoint process_results (batch : list Uuid) (s : Run)
    (rs : list (Uuid * NodeExecutionResult)) : Flow :=
  match rs with
  | [] => Go s
  | vr :: rs =>
      match process_result batch s vr with
      | Go s => process_results batch s rs
      | f => f
      end
  end.

(** ** The loop *)
Definition finish (s : Run) : ExecutionOutcome :=
  mkOutcome (forallb (λ n, match node_states s !! x_id n with
                           | Some (Succeeded | Skipped) => true | _ => false end) (g_nodes graph))
    (outputs s) (node_states s) elapsed_ms (total_cost s) (run_tokens s).

(** One turn of ['sched_loop]. *)
Definition wave (k : nat) (s : Run) : Flow :=
  if match cancel with Some t => cancelled_at_wave t k | None => false end
  then Return (Err Cancelled)
  else if is_done (node_states s) (queue s) then BreakLoop s
  else match get_ready (node_states s) (queue s) with
    | [] => if any_in_progress (queue s) then Go s else BreakLoop s
    | ready =>
        let batch := x_id <$> take (max_concurrent sched) ready in
        match dispatch batch s with
        | Err e => Return (Err e)
        | Ok (s, rs) => process_results batch s rs
        end
    end.

(** [None]: still running after [fuel] turns. *)
Fixpoint sched_loop (fuel k : nat) (s : Run)
    : option (result SchedulerError ExecutionOutcome) :=
  match fuel with
  | O => None
  | S fuel =>
      match wave k s with
      | Go s => sched_loop fuel (S k) s
      | BreakLoop s => Some (Ok (finish s))
      | Return r => Some r
      end
  end.

Definition initial_run (q : WorkQueue) (c : Counters) : Run :=
  mkRun (with_max_concurrent_nodes (max_concurrent sched) q) ∅ ∅ ZERO 0 ∅ c 0.

Definition run_inner (fuel : nat) (c : Counters)
    : option (result SchedulerError ExecutionOutcome) :=
  q ← new graph;
  sched_loop fuel 0 (initial_run q c).
End run.

(** The public entry points. *)
Definition run `{!HashIter N} sched exec elapsed fuel graph :=
  run_inner sched exec None None elapsed graph fuel envelope_new.
Definition run_with_budget `{!HashIter N} sched exec elapsed fuel graph m c :=
  run_inner sched exec None (Some m) elapsed graph fuel c.
Definition run_with_cancellation `{!HashIter N} sched exec elapsed fuel graph token :=
  run_inner sched exec (Some token) None elapsed graph fuel envelope_new.
Definition run_with_cancellation_and_budget `{!HashIter N} sched exec elapsed fuel graph token m c :=
  run_inner sched exec (Some token) (Some m) elapsed graph fuel c.
