(* ===== verification/DagQueue.v ===== *)
(** * The work queue on plain DAGs

    On graphs without loops, branches and parallel edges ([plain_dag]) the
    counters of the queue have a simple meaning, the invariant [dagq]: an edge
    is activated exactly when its source is completed, and a node is ready
    exactly when all its predecessors are completed and it has not started.
    Every operation the scheduler uses on such graphs keeps it. *)
From S2P Require Import Prelude Text Json Money Budget ExecTypes Graphs WorkQueue Scheduler.
Open Scope stdpp_scope.
Open Scope Z_scope.

(** ** Plain DAGs *)
Definition node_ids (g : ExecutionGraph) : list Uuid := x_id <$> g_nodes g.

Record plain_dag (g : ExecutionGraph) : Prop := {
  dag_ids : NoDup (node_ids g);
  dag_closed : ∀ u v, gedge g u v → u ∈ node_ids g ∧ v ∈ node_ids g;
  dag_simple : NoDup ((λ e, (x_from e, x_to e)) <$> g_edges g);
  dag_plain : ∀ n, n ∈ g_nodes g → ¬ selective (x_kind n);
  dag_acyclic : ∀ v, ¬ tc (gedge g) v v;
}.

Lemma plain_no_loop_head g v : plain_dag g → ¬ loop_head g v.
Proof. intros Hg (n & Hn & _ & Hk). apply (dag_plain g Hg n Hn). by left. Qed.

(** A ranking shows that a concrete graph has no cycle. *)
Lemma acyclic_by_rank (g : ExecutionGraph) (rank : Uuid → nat) :
  forallb (λ e, Nat.ltb (rank (x_from e)) (rank (x_to e))) (g_edges g) = true →
  ∀ v, ¬ tc (gedge g) v v.
Proof.
  intros Hr. rewrite forallb_forall in Hr. apply (ranked_acyclic _ rank).
  intros a b (e & He & <- & <-). apply Nat.ltb_lt, Hr, list_elem_of_In, He.
Qed.
Lemma plain_dag_by_rank (g : ExecutionGraph) (rank : Uuid → nat) :
  bool_decide (NoDup (node_ids g)) = true →
  forallb (λ e, bool_decide (x_from e ∈ node_ids g) && bool_decide (x_to e ∈ node_ids g)) (g_edges g) = true →
  bool_decide (NoDup ((λ e, (x_from e, x_to e)) <$> g_edges g)) = true →
  forallb (λ n, negb (bool_decide (selective (x_kind n)))) (g_nodes g) = true →
  forallb (λ e, Nat.ltb (rank (x_from e)) (rank (x_to e))) (g_edges g) = true →
  plain_dag g.
Proof.
  intros Hi Hc Hs Hp Hr. split; [by apply bool_decide_eq_true in Hi| |by apply bool_decide_eq_true in Hs| |].
  - intros u v (e & He & <- & <-). apply list_elem_of_In in He. eapply forallb_forall in Hc; [|done].
    by apply andb_true_iff in Hc as [?%bool_decide_eq_true ?%bool_decide_eq_true].
  - intros n Hn%list_elem_of_In. eapply forallb_forall in Hp; [|done].
    by apply negb_true_iff, bool_decide_eq_false in Hp.
  - by eapply acyclic_by_rank.
Qed.

(** Counting the edges whose source lies in a growing set. *)
Lemma count_sources_insert (es : list ExecutionEdge) (C : gset Uuid) (v w : Uuid) :
  NoDup ((λ e, (x_from e, x_to e)) <$> es) → v ∉ C →
  length (filter (λ e, x_from e ∈ {[v]} ∪ C) (filter (λ e, x_to e = w) es)) =
  (length (filter (λ e, x_from e ∈ C) (filter (λ e, x_to e = w) es)) +
   if decide ((v, w) ∈ (λ e, (x_from e, x_to e)) <$> es) then 1 else 0)%nat.
Proof.
  intros Hnd Hv. induction es as [|e es IH]; [by rewrite decide_False by set_solver|].
  csimpl in *. apply NoDup_cons in Hnd as [Hne Hnd]. specialize (IH Hnd).
  rewrite !(filter_cons _ e). destruct (decide (x_to e = w)) as [<-|Hw].
  - rewrite !(filter_cons _ e). destruct (decide (x_from e = v)) as [<-|Hf].
    + rewrite decide_True by set_solver. rewrite (decide_False (P := x_from e ∈ C)) by done.
      csimpl. rewrite IH, (decide_False (P := _ ∈ _ <$> es)) by done.
      rewrite decide_True by set_solver. lia.
    + rewrite (decide_ext (x_from e ∈ {[v]} ∪ C) (x_from e ∈ C)) by set_solver.
      rewrite (decide_ext ((v, x_to e) ∈ _ :: _) ((v, x_to e) ∈ (λ e, (x_from e, x_to e)) <$> es))
        by (rewrite elem_of_cons; naive_solver).
      destruct (decide (x_from e ∈ C)); csimpl; rewrite IH; lia.
  - rewrite IH. f_equal. apply decide_ext. rewrite elem_of_cons. naive_solver.
Qed.

Lemma count_sources_full (es : list ExecutionEdge) (C : gset Uuid) :
  length (filter (λ e, x_from e ∈ C) es) = length es ↔ ∀ e, e ∈ es → x_from e ∈ C.
Proof.
  split; [|apply filter_length_all]. intros Heq.
  apply (filter_length_full (λ e, x_from e ∈ C)). lia.
Qed.

(** What blanket activation of the edges to fresh, distinct targets does. *)
Definition activation_step (u : Uuid) (q : WorkQueue) (te : Uuid * option string) : WorkQueue :=
  let '(to, _) := te in
  if decide ((u, to) ∈ activated_edges q) then q else count_activation u to q.

Lemma count_activation_spec u t q (q' := count_activation u t q) :
  completed q' = completed q ∧ in_progress q' = in_progress q ∧ failed q' = failed q ∧
  (static_ok q → static_ok q') ∧ q_graph q' = q_graph q ∧
  max_concurrent_nodes q' = max_concurrent_nodes q ∧
  total_incoming q' = total_incoming q ∧
  activated_edges q' = {[(u, t)]} ∪ activated_edges q ∧
  satisfied_incoming q' = incr_at t (satisfied_incoming q) ∧
  ∀ v, v ∈ ready q' ↔ v ∈ ready q ∨ (v = t ∧
    S (count_at (satisfied_incoming q) t) = count_at (total_incoming q) t ∧
    t ∉ completed q ∧ t ∉ failed q).
Proof.
  subst q'. unfold count_activation.
  assert (count_at (incr_at t (satisfied_incoming q)) t = S (count_at (satisfied_incoming q) t)) as ->.
  { unfold count_at, incr_at. by rewrite lookup_insert_eq. }
  case_decide as Hd; csimpl in *; split_and!; try done; try (by intros []; split).
  all: intros v; set_solver.
Qed.

Lemma fold_activation_spec u (es : list (Uuid * option string)) q
    (q' := foldl (activation_step u) q es) :
  NoDup es.*1 → (∀ t, t ∈ es.*1 → (u, t) ∉ activated_edges q) →
  completed q' = completed q ∧ in_progress q' = in_progress q ∧ failed q' = failed q ∧
  (static_ok q → static_ok q') ∧ q_graph q' = q_graph q ∧
  max_concurrent_nodes q' = max_concurrent_nodes q ∧
  (∀ a b, (a, b) ∈ activated_edges q' ↔ (a, b) ∈ activated_edges q ∨ (a = u ∧ b ∈ es.*1)) ∧
  (∀ v, count_at (satisfied_incoming q') v =
        (count_at (satisfied_incoming q) v + if decide (v ∈ es.*1) then 1 else 0)%nat) ∧
  ∀ v, v ∈ ready q' ↔ v ∈ ready q ∨ (v ∈ es.*1 ∧
    S (count_at (satisfied_incoming q) v) = count_at (total_incoming q) v ∧
    v ∉ completed q ∧ v ∉ failed q).
Proof.
  subst q'. revert q. induction es as [|[t c] es IH]; intros q Hnd Hfresh; csimpl in *.
  { split_and!; try done; try set_solver; intros v; lia. }
  apply NoDup_cons in Hnd as [Ht Hnd]. rewrite decide_False by apply Hfresh, list_elem_of_here.
  destruct (count_activation_spec u t q) as (Ec & Ep & Ef & Hst & Eg & Em & Et & Ea & Es & Er).
  destruct (IH (count_activation u t q)) as (Ec' & Ep' & Ef' & Hst' & Eg' & Em' & Ha & Hs & Hr);
    [done| |].
  { intros b Hb. rewrite Ea. clear -Hb Ht Hfresh. set_solver. }
  assert (Hc : ∀ v, count_at (satisfied_incoming (count_activation u t q)) v =
    (count_at (satisfied_incoming q) v + if decide (v = t) then 1 else 0)%nat).
  { intros v. rewrite Es. unfold count_at, incr_at. case_decide as Hv.
    - subst. rewrite lookup_insert_eq. csimpl. lia.
    - rewrite lookup_insert_ne by done. lia. }
  split_and!; try congruence; [by auto|..].
  - intros a b. rewrite Ha, Ea, elem_of_union, elem_of_singleton, elem_of_cons.
    rewrite pair_eq. clear. tauto.
  - intros v. rewrite Hs, Hc. clear -Ht. destruct (decide (v = t)) as [->|Hv].
    + rewrite (decide_False (P := t ∈ es.*1)), decide_True by set_solver. lia.
    + rewrite (decide_ext (v ∈ t :: es.*1) (v ∈ es.*1)) by set_solver. lia.
  - intros v. rewrite Hr, Er, Ec, Ef, Et, Hc. destruct (decide (v = t)) as [->|Hv].
    + rewrite elem_of_cons. clear -Ht. tauto.
    + rewrite elem_of_cons, Nat.add_0_r. clear -Hv. tauto.
Qed.

Lemma gedge_pair g u v : gedge g u v ↔ (u, v) ∈ (λ e, (x_from e, x_to e)) <$> g_edges g.
Proof. unfold gedge. rewrite list_elem_of_fmap. naive_solver. Qed.
#[global] Instance gedge_dec g u v : Decision (gedge g u v).
Proof. destruct (decide ((u, v) ∈ (λ e, (x_from e, x_to e)) <$> g_edges g)); [left|right];
  by rewrite gedge_pair. Defined.


Lemma node_index_spec g v :
  v ∈ node_ids g → ∃ i n, node_index g !! v = Some i ∧ g_nodes g !! i = Some n ∧ x_id n = v.
Proof.
  unfold node_index, node_ids. intros Hv.
  assert (Hgen : ∀ l k (m : gmap Uuid nat),
    (∀ j n, l !! j = Some n → g_nodes g !! (k + j)%nat = Some n) →
    (∀ i, m !! v = Some i → ∃ n, g_nodes g !! i = Some n ∧ x_id n = v) →
    (v ∈ x_id <$> l ∨ is_Some (m !! v)) →
    ∃ i n, foldl (λ m '(i, n), <[x_id n := i]> m) m (imap (λ i n, (k + i, n)%nat) l) !! v = Some i ∧
      g_nodes g !! i = Some n ∧ x_id n = v).
  { induction l as [|a l IH]; intros k m Hl Hm Hin; csimpl.
    { destruct Hin as [?|[i Hi]]; [set_solver|]. destruct (Hm i Hi) as (n & ? & ?). eauto. }
    rewrite (imap_ext _ (λ i n, (S k + i, n)%nat)) by (intros; csimpl; f_equal; lia).
    rewrite Nat.add_0_r. apply IH.
    - intros j n Hj. specialize (Hl (S j) n Hj). by rewrite Nat.add_succ_r in Hl.
    - intros i. destruct (decide (x_id a = v)) as [Ha|Ha].
      + rewrite Ha, lookup_insert_eq. intros [= <-]. exists a. split; [|done].
        specialize (Hl 0%nat a eq_refl). by rewrite Nat.add_0_r in Hl.
      + rewrite lookup_insert_ne by done. apply Hm.
    - destruct (decide (x_id a = v)) as [<-|Ha]; [right; by rewrite lookup_insert_eq|].
      rewrite lookup_insert_ne by done. set_solver. }
  apply (Hgen (g_nodes g) 0%nat ∅); [done|set_solver|by left].
Qed.

Lemma context_parents g v outs p :
  parent_outputs (context_for g v outs) !! p = if decide (gedge g p v) then outs !! p else None.
Proof.
  unfold context_for; csimpl.
  assert (Hgen : ∀ l (m : gmap Uuid json),
    foldl (λ m p, match outs !! p with Some o => <[p := o]> m | None => m end) m l !! p =
    if decide (p ∈ l) then match outs !! p with Some o => Some o | None => m !! p end else m !! p).
  { induction l as [|a l IH]; intros m; csimpl; [done|]. rewrite IH.
    destruct (decide (p = a)) as [->|Hpa].
    - rewrite (decide_True (P := a ∈ a :: l)) by set_solver.
      destruct (outs !! a) eqn:Ha; case_decide; try done. by rewrite lookup_insert_eq.
    - rewrite (decide_ext (p ∈ a :: l) (p ∈ l)) by set_solver.
      destruct (outs !! a); [|done]. by rewrite lookup_insert_ne by done. }
  rewrite Hgen, lookup_empty.
  rewrite (decide_ext (p ∈ parents_of g v) (gedge g p v)).
  - case_decide; [|done]. by destruct (outs !! p).
  - unfold parents_of, gedge. rewrite list_elem_of_fmap. setoid_rewrite list_elem_of_filter.
    naive_solver.
Qed.

Section dag.
Context (g : ExecutionGraph) (Hg : plain_dag g).

(** The queue of a plain DAG, in terms of the completed nodes. *)
Definition enabled (q : WorkQueue) (v : Uuid) : Prop := ∀ u, gedge g u v → u ∈ completed q.

Record dagq (q : WorkQueue) : Prop := {
  dq_static : static_ok q;
  dq_graph : q_graph q = g;
  dq_activated : ∀ u v, (u, v) ∈ activated_edges q ↔ gedge g u v ∧ u ∈ completed q;
  dq_satisfied : ∀ v, count_at (satisfied_incoming q) v =
    length (filter (λ e, x_from e ∈ completed q) (edges_into g v));
  dq_ready : ∀ v, v ∈ ready q ↔ v ∈ node_ids g ∧ enabled q v ∧
    v ∉ completed q ∧ v ∉ failed q ∧ v ∉ in_progress q;
  dq_started : ∀ v, v ∈ completed q ∨ v ∈ in_progress q → v ∈ node_ids g ∧ enabled q v;
  dq_disjoint : ∀ v, (v ∈ completed q → v ∉ failed q ∧ v ∉ in_progress q) ∧
                     (v ∈ failed q → v ∉ in_progress q);
}.

Lemma dag_total q v : dagq q → count_at (total_incoming q) v = length (edges_into g v).
Proof using Hg.
  intros Hq. rewrite <- (dq_graph q Hq). apply total_not_loop; [apply Hq|].
  rewrite (dq_graph q Hq). by apply plain_no_loop_head.
Qed.

Lemma dag_no_back q u v : dagq q → (u, v) ∉ back_edges q.
Proof using Hg.
  intros Hq Hb. apply (st_back q (dq_static q Hq)) in Hb as [Hl _].
  rewrite (dq_graph q Hq) in Hl. by eapply plain_no_loop_head.
Qed.

Lemma enabled_iff_full q v :
  enabled q v ↔ length (filter (λ e, x_from e ∈ completed q) (edges_into g v)) =
                length (edges_into g v).
Proof.
  rewrite count_sources_full. unfold enabled, gedge, edges_into.
  setoid_rewrite list_elem_of_filter. naive_solver.
Qed.

Lemma dagq_new `{!HashIter N} q : new g = Some q → dagq q.
Proof using Hg.
  intros Hnew. destruct (new_spec g) as (q' & Hq & Hst & Hgr & Hc & Hp & Hf & Hs & Ha & Hr & _).
  simplify_eq.
  assert (Hempty : ∀ l, length (filter (λ e, x_from e ∈ completed q) l) = 0%nat).
  { intros l. rewrite Hc. induction l; [done|]. by rewrite filter_cons, decide_False by set_solver. }
  split; try done.
  - rewrite Ha, Hc. set_solver.
  - intros v. by rewrite Hs, Hempty.
  - intros v. rewrite Hr, elem_of_initial_ready, <- Hgr.
    rewrite total_not_loop by (rewrite ?Hgr; auto using plain_no_loop_head).
    unfold enabled. rewrite Hgr. pose proof (enabled_iff_full q v) as He.
    unfold enabled in He. rewrite Hempty in He. unfold node_ids.
    rewrite He, Hc, Hf, Hp. split; [|naive_solver]. intros [??]. split_and!; set_solver.
  - rewrite Hc, Hp. set_solver.
  - rewrite Hc, Hf, Hp. set_solver.
Qed.

Lemma dagq_in_progress q v : dagq q → v ∈ ready q → dagq (mark_in_progress v q).
Proof using Hg.
  intros [Hst Hgr Ha Hs Hr Hstart Hd] Hv. pose proof (proj1 (Hr v) Hv) as (?&?&?&?&?).
  destruct Hst. split; csimpl; try done.
  - intros w. rewrite elem_of_difference, Hr. unfold enabled; csimpl. set_solver.
  - intros w. unfold enabled in *; csimpl. specialize (Hstart w). set_solver.
  - intros w. specialize (Hd w). set_solver.
Qed.

Lemma dagq_failed q v : dagq q → v ∉ completed q → dagq (mark_failed v q).
Proof using Hg.
  intros [Hst Hgr Ha Hs Hr Hstart Hd] Hv. destruct Hst. split; csimpl; try done.
  - intros w. rewrite elem_of_difference, Hr. unfold enabled; csimpl. set_solver.
  - intros w. unfold enabled in *; csimpl. specialize (Hstart w). set_solver.
  - intros w. specialize (Hd w). set_solver.
Qed.

Lemma dag_targets q v :
  dagq q → NoDup (default [] (outgoing q !! v)).*1 ∧
    ∀ w, w ∈ (default [] (outgoing q !! v)).*1 ↔ gedge g v w.
Proof using Hg.
  intros Hq. rewrite (st_outgoing q (dq_static q Hq)), (dq_graph q Hq). split.
  - rewrite lookup_outgoing_of, <- list_fmap_compose.
    pose proof (dag_simple g Hg) as Hnd. induction (g_edges g) as [|e es IH]; [constructor|].
    csimpl in Hnd. apply NoDup_cons in Hnd as [Hne Hnd]. rewrite filter_cons.
    case_decide as He; [|by apply IH]. csimpl. apply NoDup_cons. split; [|by apply IH].
    rewrite list_elem_of_fmap. intros (e' & Hto & [Hf Hin]%list_elem_of_filter).
    apply Hne, list_elem_of_fmap. exists e'. split; [|done]. csimpl in Hto. congruence.
  - apply elem_of_targets.
Qed.

Lemma dagq_completed q v :
  dagq q → v ∈ in_progress q →
  dagq (mark_completed v q) ∧
  completed (mark_completed v q) = {[v]} ∪ completed q ∧
  in_progress (mark_completed v q) = in_progress q ∖ {[v]} ∧
  failed (mark_completed v q) = failed q ∧
  max_concurrent_nodes (mark_completed v q) = max_concurrent_nodes q.
Proof using Hg.
  intros Hq Hv. destruct (dq_started q Hq v (or_intror Hv)) as [Hid Hen].
  assert (Hvc : v ∉ completed q) by (pose proof (dq_disjoint q Hq v); tauto).
  unfold mark_completed, try_activate_downstream.
  set (q1 := mark_conditional_completed v q).
  rewrite decide_False; [|].
  2: { csimpl. rewrite (st_selective q (dq_static q Hq)), elem_of_selective_ids, (dq_graph q Hq).
       intros (n & Hn & _ & Hk). by apply (dag_plain g Hg n Hn). }
  destruct (dag_targets q v Hq) as [Hnd Htg].
  set (es := default [] (outgoing q !! v)) in *.
  assert (match outgoing q1 !! v with Some edges => foldl (activation_step v) q1 edges
          | None => q1 end = foldl (activation_step v) q1 es) as Hfold.
  { change (outgoing q1) with (outgoing q). unfold es. by destruct (outgoing q !! v). }
  unfold activation_step in Hfold at 1. rewrite Hfold. clear Hfold.
  destruct (fold_activation_spec v es q1) as (Ec & Ep & Ef & Hst & Eg & Em & Ha & Hs & Hr); [done|..].
  { intros t _. csimpl. rewrite (dq_activated q Hq). naive_solver. }
  split; [|done]. set (q2 := foldl _ _ _) in *.
  assert (Hcnt : ∀ w, count_at (satisfied_incoming q2) w =
     length (filter (λ e, x_from e ∈ completed q2) (edges_into g w))).
  { intros w. rewrite Hs, Ec. csimpl. rewrite (dq_satisfied q Hq). unfold edges_into.
    rewrite count_sources_insert; [|apply Hg|done]. f_equal. apply decide_ext.
    by rewrite Htg, gedge_pair. }
  split.
  - apply Hst. destruct (dq_static q Hq). by split.
  - rewrite Eg. apply Hq.
  - intros a b. rewrite Ha, Ec. csimpl. rewrite (dq_activated q Hq), Htg. set_solver.
  - done.
  - intros w. rewrite Hr. csimpl. rewrite elem_of_difference, (dq_ready q Hq).
    change (S (count_at (satisfied_incoming q) w)) with (1 + count_at (satisfied_incoming q) w)%nat.
    assert (Hen2 : w ∈ es.*1 →
      ((1 + count_at (satisfied_incoming q) w)%nat = count_at (total_incoming q) w ↔ enabled q2 w)).
    { intros Hw. rewrite enabled_iff_full, <- Hcnt, Hs, decide_True, (dag_total q w Hq) by done.
      change (satisfied_incoming q1) with (satisfied_incoming q). lia. }
    assert (Hmono : enabled q w → enabled q2 w).
    { unfold enabled. rewrite Ec. set_solver. }
    assert (Hold : w ∉ es.*1 → enabled q2 w → enabled q w).
    { unfold enabled. rewrite Ec, Htg. intros Hn He u Hu. specialize (He u Hu). set_solver. }
    assert (Hnew : w ∈ es.*1 → w ∉ in_progress q).
    { rewrite Htg. intros Hvw Hw. destruct (dq_started q Hq w (or_intror Hw)) as [_ He].
      by apply Hvc, He. }
    assert (w ∈ es.*1 → w ∈ node_ids g) by (rewrite Htg; apply (dag_closed g Hg)).
    rewrite Ec, Ep, Ef. csimpl. rewrite elem_of_union, elem_of_difference, elem_of_singleton.
    pose proof (dag_acyclic g Hg v) as Hcyc.
    assert (w ∈ es.*1 → w ≠ v) by (rewrite Htg; intros ? ->; by apply Hcyc, tc_once).
    assert (w ∉ es.*1 → w = v → enabled q v) by done.
    destruct (decide (w ∈ es.*1)); tauto.
  - intros w. rewrite Ec, Ep. csimpl. intros Hw.
    assert (w ∈ node_ids g ∧ enabled q w) as [? He].
    { apply (dq_started q Hq). clear -Hw Hv. destruct Hw; set_solver. }
    split; [done|]. unfold enabled in *. rewrite Ec. set_solver.
  - intros w. rewrite Ec, Ep, Ef. csimpl. pose proof (dq_disjoint q Hq w).
    pose proof (dq_disjoint q Hq v). set_solver.
Qed.
End dag.
