(* ===== verification/SchedulerProps.v ===== *)
(** * Scheduler: correctness of the runs

    Graphs without loops, branches and parallel edges ([plain_dag]) run to the
    end: within one turn per node every node reaches a terminal state, a node
    succeeds only after all its predecessors did, and its output is the
    executor's answer to their outputs ([dag_run_total],
    [dag_run_all_succeed]). *)
From S2P Require Import Prelude Text Json Money Budget ExecTypes Graphs WorkQueue Scheduler DagQueue.
Open Scope stdpp_scope.
Open Scope Z_scope.

(** ** Runs *)
Section dag.
Context (g : ExecutionGraph) (Hg : plain_dag g).
Context `{!HashIter N}.
Context (sched : DefaultScheduler).
Context (execute_node : nat → ExecutionNode → NodeExecContext → NodeExecutionResult).
Context (cancel : option CancellationToken).
Context (ceilings : option Ceilings).
Context (elapsed_ms : Z).

(** [r] is what the executor (or the cancelled race) answered for node [v] on
    the outputs of its direct predecessors in [outs]. *)
Definition asked (outs : gmap Uuid json) (v : Uuid) (r : NodeExecutionResult) : Prop :=
  ∃ n k ctx, n ∈ g_nodes g ∧ x_id n = v ∧ r = node_future execute_node cancel k n ctx ∧
    ∀ p, parent_outputs ctx !! p = if decide (gedge g p v) then outs !! p else None.
Definition produced (outs : gmap Uuid json) (v : Uuid) : Prop :=
  ∃ r, asked outs v r ∧ r_state r = WorkQueue.Succeeded ∧
    outs !! v = Some (default JNull (r_output r)).

Definition state_ok (s : Run) (v : Uuid) : Prop :=
  match node_states s !! v with
  | None => v ∉ completed (queue s) ∧ v ∉ failed (queue s) ∧ v ∉ in_progress (queue s)
  | Some Running => v ∈ in_progress (queue s)
  | Some (Succeeded | Skipped) => v ∈ completed (queue s)
  | Some (Failed _) => v ∈ failed (queue s)
  | Some Pending => False
  end.

(** [pend] holds the results of the batch that are not processed yet. *)
Record run_inv (s : Run) (pend : list (Uuid * NodeExecutionResult)) : Prop := {
  ri_queue : dagq g (queue s);
  ri_max : (0 < max_concurrent_nodes (queue s))%nat;
  ri_nodup : NoDup pend.*1;
  ri_pend : ∀ v, v ∈ in_progress (queue s) ↔ v ∈ pend.*1;
  ri_asked : ∀ v r, (v, r) ∈ pend → asked (outputs s) v r;
  ri_states : ∀ v, state_ok s v;
  ri_outputs : ∀ v, is_Some (outputs s !! v) → v ∈ completed (queue s);
  ri_produced : ∀ v, node_states s !! v = Some Succeeded → produced (outputs s) v;
  ri_cause : failed (queue s) ≠ ∅ →
    ∃ k n ctx msg, r_state (node_future execute_node cancel k n ctx) = Failed msg;
  ri_skipped : ∀ v, node_states s !! v = Some Skipped →
    ∃ k n ctx, r_state (node_future execute_node cancel k n ctx) = Skipped;
}.
Definition failures_closed (s : Run) : Prop :=
  ∀ u v, u ∈ failed (queue s) → gedge g u v → v ∈ failed (queue s).
Definition settled (s : Run) : gset Uuid := completed (queue s) ∪ failed (queue s).

Lemma asked_insert q v o outs w r :
  enabled g q w → v ∉ completed q → asked outs w r → asked (<[v := o]> outs) w r.
Proof.
  intros Hen Hv (n & k & ctx & ? & ? & ? & Hp). exists n, k, ctx. split_and!; try done.
  intros p. rewrite Hp. case_decide as Hpw; [|done].
  rewrite lookup_insert_ne; [done|]. intros ->. by apply Hv, Hen.
Qed.


(** *** Failure and its cascade *)
Definition edges_left (s : Run) : nat :=
  length (filter (λ e, x_from e ∉ failed (queue s)) (g_edges g)).

Lemma edges_left_fail (F : gset Uuid) d (es : list ExecutionEdge) :
  d ∉ F →
  (length (filter (λ e, x_from e ∉ {[d]} ∪ F) es) + length (filter (λ e, x_from e = d) es) =
   length (filter (λ e, x_from e ∉ F) es))%nat.
Proof.
  clear. intros Hd. induction es as [|e es IH]; [done|]. rewrite !filter_cons.
  destruct (decide (x_from e = d)) as [<-|Hne].
  - rewrite decide_False by set_solver. rewrite decide_True by done. csimpl. lia.
  - rewrite (decide_ext (x_from e ∉ {[d]} ∪ F) (x_from e ∉ F)) by set_solver.
    case_decide; csimpl; lia.
Qed.

Lemma out_targets q d :
  dagq g q → x_to <$> outgoing_edges q d = x_to <$> filter (λ e, x_from e = d) (g_edges g).
Proof.
  clear. intros Hq. unfold outgoing_edges.
  by rewrite (st_outgoing_edges q (dq_static g q Hq)), (dq_graph g q Hq), lookup_outgoing_edges_of.
Qed.
Lemma elem_of_out_targets q d w : dagq g q → w ∈ x_to <$> outgoing_edges q d ↔ gedge g d w.
Proof.
  clear. intros Hq. rewrite out_targets by done. rewrite list_elem_of_fmap.
  setoid_rewrite list_elem_of_filter. unfold gedge. naive_solver.
Qed.

(** A successor of a failed node has neither finished nor started. *)
Lemma below_failed q u w :
  dagq g q → u ∈ failed q → gedge g u w → w ∉ completed q ∧ w ∉ in_progress q.
Proof.
  clear. intros Hq Hu Huw.
  assert (¬ (w ∈ completed q ∨ w ∈ in_progress q)) as ?; [|tauto].
  intros [_ Hen]%(dq_started g q Hq). pose proof (dq_disjoint g q Hq u) as [Hd _].
  by apply Hd in Hu; [|apply Hen].
Qed.

Definition fail_with (d : Uuid) (msg : string) (s : Run) : Run :=
  on_queue (mark_failed d) (set_state d (Failed msg) s).

Lemma run_inv_fail s pend d msg (r : option NodeExecutionResult) :
  run_inv s (match r with Some r => [(d, r)] | None => [] end ++ pend) →
  d ∉ completed (queue s) → (d ∈ in_progress (queue s) → is_Some r) →
  (failed (queue s) ≠ ∅ ∨ ∃ k n ctx msg,
     r_state (node_future execute_node cancel k n ctx) = Failed msg) →
  run_inv (fail_with d msg s) pend.
Proof using Hg.
  intros [Hq Hmax Hnd Hp Hask Hst Hout Hprod Hcause Hskip] Hd Hin Hc. split; csimpl.
  - by apply dagq_failed.
  - done.
  - destruct r; [by apply NoDup_cons in Hnd as [_ ?]|done].
  - intros v. rewrite elem_of_difference, Hp. destruct r as [r|]; csimpl in *.
    + apply NoDup_cons in Hnd as [Hnd _]. clear -Hnd. set_solver.
    + assert (d ∉ in_progress (queue s)) as Hni by (intros [? ?]%Hin; done).
      rewrite Hp in Hni. clear -Hni. set_solver.
  - intros v r' Hv. apply Hask. destruct r; set_solver.
  - intros v. specialize (Hst v). unfold state_ok in *; csimpl.
    destruct (decide (v = d)) as [->|Hne].
    + rewrite lookup_insert_eq. set_solver.
    + rewrite lookup_insert_ne by done. clear -Hst Hne. repeat case_match; set_solver.
  - done.
  - intros v. destruct (decide (v = d)) as [->|Hne]; [by rewrite lookup_insert_eq|].
    rewrite lookup_insert_ne by done. apply Hprod.
  - intros _. destruct Hc as [Hc|Hc]; [by apply Hcause|done].
  - intros v. destruct (decide (v = d)) as [->|Hne]; [by rewrite lookup_insert_eq|].
    rewrite lookup_insert_ne by done. apply Hskip.
Qed.

Lemma cascade_spec fuel stack visited s pend :
  run_inv s pend → failed (queue s) ≠ ∅ →
  (∀ u w, u ∈ failed (queue s) → gedge g u w → w ∈ failed (queue s) ∨ w ∈ stack) →
  (∀ d, d ∈ stack → d ∉ completed (queue s) ∧ d ∉ in_progress (queue s)) →
  visited ⊆ failed (queue s) → (length stack + edges_left s <= fuel)%nat →
  let s' := cascade fuel stack visited s in
  run_inv s' pend ∧ failures_closed s' ∧ completed (queue s') = completed (queue s) ∧
  failed (queue s) ⊆ failed (queue s').
Proof using Hg.
  revert stack visited s.
  induction fuel as [|fuel IH]; intros [|d stack] visited s Hinv Hne Hcl Hstk Hvis Hf; csimpl in *;
    try lia; try (split_and!; [done| |done|done]; intros u w Hu Hw;
                  destruct (Hcl u w Hu Hw); [done|by apply not_elem_of_nil in H]).
  assert (Hskip : d ∈ failed (queue s) → ∀ vis, vis ⊆ failed (queue s) →
    let s' := cascade fuel stack vis s in
    run_inv s' pend ∧ failures_closed s' ∧ completed (queue s') = completed (queue s) ∧
    failed (queue s) ⊆ failed (queue s')).
  { intros Hd vis Hv. apply IH; [done|done| | |done|lia].
    - intros u w Hu Hw. destruct (Hcl u w Hu Hw) as [?|[-> | ?]%elem_of_cons]; auto.
    - intros x Hx. apply Hstk. set_solver. }
  case_decide as Hdv; [by apply Hskip; [apply Hvis|]|].
  pose proof (ri_states s pend Hinv d) as Hsd. unfold state_ok in Hsd.
  destruct (Hstk d (list_elem_of_here _ _)) as [Hdc Hdp].
  destruct (node_states s !! d) as [[| | | |]|] eqn:Hs; try done.
  { apply Hskip; [done|]. clear -Hvis Hsd. set_solver. }
  destruct Hsd as (_ & Hdf & _).
  set (s1 := on_queue (mark_failed d) (set_state d (Failed "dependency failed") s)).
  assert (Hinv1 : run_inv s1 pend).
  { apply (run_inv_fail s pend d _ None); auto. done. }
  destruct (IH (reverse (x_to <$> outgoing_edges (queue s1) d) ++ stack) ({[d]} ∪ visited) s1)
    as (? & ? & ? & Hsub); [done|csimpl; set_solver|..].
  - intros u w. csimpl. intros [->%elem_of_singleton|Hu]%elem_of_union Hw.
    + right. apply elem_of_app. left. rewrite elem_of_reverse.
      by apply elem_of_out_targets; [apply Hinv1|].
    + destruct (Hcl u w Hu Hw) as [?|[-> | ?]%elem_of_cons]; set_solver.
  - intros x [Hx|Hx]%elem_of_app.
    + rewrite elem_of_reverse, elem_of_out_targets in Hx by apply Hinv1.
      apply (below_failed _ d); [apply Hinv1|csimpl; set_solver|done].
    + csimpl. destruct (Hstk x); set_solver.
  - csimpl. set_solver.
  - rewrite length_app, length_reverse, out_targets, length_fmap by apply Hinv1.
    pose proof (edges_left_fail (failed (queue s)) d (g_edges g) Hdf) as He.
    unfold edges_left in *. csimpl. lia.
  - split_and!; try done. etrans; [|exact Hsub]. csimpl. set_solver.
Qed.

Lemma node_failed_spec s pend v r msg :
  run_inv s ((v, r) :: pend) → failures_closed s → r_state r = Failed msg →
  let s' := node_failed g v msg s in
  run_inv s' pend ∧ failures_closed s' ∧ {[v]} ∪ settled s ⊆ settled s'.
Proof using Hg.
  intros Hinv Hcl Hr. unfold node_failed.
  assert (Hvp : v ∈ in_progress (queue s)) by (apply (ri_pend _ _ Hinv); csimpl; set_solver).
  assert (Hvc : v ∉ completed (queue s) ∧ v ∉ failed (queue s)).
  { pose proof (dq_disjoint g _ (ri_queue _ _ Hinv) v). tauto. }
  set (s1 := set_state v (Failed msg) (on_queue (mark_failed v) s)).
  assert (Hinv1 : run_inv s1 pend).
  { apply (run_inv_fail s pend v msg (Some r)); [done|tauto|eauto|]. right.
    destruct (ri_asked _ _ Hinv v r) as (n & k & ctx & _ & _ & -> & _); [set_solver|]. eauto. }
  destruct (cascade_spec (cascade_fuel g) (reverse (x_to <$> outgoing_edges (queue s1) v)) ∅ s1 pend)
    as (? & ? & Hc & Hf); [done|csimpl; set_solver| | |set_solver| |].
  - intros u w. csimpl. intros [->%elem_of_singleton|Hu]%elem_of_union Hw.
    + right. rewrite elem_of_reverse. by apply elem_of_out_targets; [apply Hinv1|].
    + left. apply elem_of_union_r. by apply (Hcl u).
  - intros x Hx. rewrite elem_of_reverse, elem_of_out_targets in Hx by apply Hinv1.
    apply (below_failed _ v); [apply Hinv1|csimpl; set_solver|done].
  - rewrite length_reverse, out_targets, length_fmap by apply Hinv1.
    unfold cascade_fuel, edges_left.
    pose proof (length_filter (λ e, x_from e = v) (g_edges g)).
    pose proof (length_filter (λ e, x_from e ∉ failed (queue s1)) (g_edges g)). lia.
  - split_and!; [done..|]. unfold settled. rewrite Hc. csimpl in Hf. csimpl. set_solver.
Qed.

(** *** Success *)
Definition finished_state (st : NodeState) : Prop := st = Succeeded ∨ st = Skipped.

Lemma run_inv_complete s pend v r s' :
  run_inv s ((v, r) :: pend) → failures_closed s → finished_state (r_state r) →
  queue s' = mark_completed v (queue s) →
  node_states s' = <[v := r_state r]> (node_states s) →
  outputs s' = (if decide (r_state r = Succeeded)
                then <[v := default JNull (r_output r)]> (outputs s) else outputs s) →
  run_inv s' pend ∧ failures_closed s' ∧ {[v]} ∪ settled s ⊆ settled s'.
Proof using Hg.
  intros [Hq Hmax Hnd Hp Hask Hst Hout Hprod Hcause Hskip] Hcl Hr Eq En Eo.
  assert (Hvp : v ∈ in_progress (queue s)) by (apply Hp; csimpl; set_solver).
  assert (Hvc : v ∉ completed (queue s) ∧ v ∉ failed (queue s)).
  { pose proof (dq_disjoint g _ Hq v). tauto. }
  destruct (dagq_completed g Hg (queue s) v Hq Hvp) as (Hq' & Ec & Ep & Ef & Em).
  rewrite <- Eq in *. csimpl in Hnd. apply NoDup_cons in Hnd as [Hvn Hnd].
  assert (Hstable : ∀ w r', w ∈ completed (queue s) ∨ w ∈ in_progress (queue s) →
    asked (outputs s) w r' → asked (outputs s') w r').
  { intros w r' Hw Ha. rewrite Eo. case_decide; [|done].
    eapply asked_insert; [by apply (dq_started g _ Hq w)|tauto|done]. }
  split; [|split].
  - split; try done.
    + by rewrite Em.
    + intros w. rewrite Ep, elem_of_difference, Hp. csimpl. clear -Hvn. set_solver.
    + intros w r' Hw. apply Hstable; [right; apply Hp; csimpl; right|apply Hask; by right].
      apply list_elem_of_fmap. by exists (w, r').
    + intros w. specialize (Hst w). unfold state_ok in *. rewrite En, Ec, Ep, Ef.
      destruct (decide (w = v)) as [->|Hne].
      * rewrite lookup_insert_eq. destruct Hr as [-> | ->]; set_solver.
      * rewrite lookup_insert_ne by done. clear -Hst Hne. repeat case_match; set_solver.
    + intros w. rewrite Eo, Ec. case_decide; [|intros ?%Hout; set_solver].
      destruct (decide (w = v)) as [->|]; [set_solver|].
      rewrite lookup_insert_ne by done. intros ?%Hout. set_solver.
    + intros w. rewrite En. destruct (decide (w = v)) as [->|Hne].
      * rewrite lookup_insert_eq. intros [= Hs]. exists r. split_and!; [|done|].
        -- apply Hstable; [by right|]. apply Hask. by left.
        -- rewrite Eo, decide_True by done. by rewrite lookup_insert_eq.
      * rewrite lookup_insert_ne by done. intros Hw. pose proof (Hst w) as Hsw.
        unfold state_ok in Hsw. rewrite Hw in Hsw. destruct (Hprod w Hw) as (r' & ? & ? & Ho).
        exists r'. split_and!; [by auto|done|]. rewrite Eo.
        case_decide; [by rewrite lookup_insert_ne|done].
    + by rewrite Ef.
    + intros w. rewrite En. destruct (decide (w = v)) as [->|Hne].
      * rewrite lookup_insert_eq. intros [= Hs].
        destruct (Hask v r) as (n & k & ctx & _ & _ & -> & _); [by left|]. eauto.
      * rewrite lookup_insert_ne by done. apply Hskip.
  - intros a b. rewrite Ef. apply Hcl.
  - unfold settled. rewrite Ec, Ef. set_solver.
Qed.

Lemma plain_succeeded_dag s v :
  dagq g (queue s) → v ∈ in_progress (queue s) →
  plain_succeeded g v s = Go (on_queue (mark_completed v) s).
Proof using Hg.
  intros Hq Hvp. destruct (dagq_completed g Hg (queue s) v Hq Hvp) as (Hq' & _).
  unfold plain_succeeded. csimpl.
  assert (has_loop_back_edge (mark_completed v (queue s)) v = false) as ->; [|done].
  unfold has_loop_back_edge. case_match; [|done]. apply not_true_is_false.
  rewrite existsb_exists. intros (e & _ & Hb%bool_decide_eq_true).
  by apply (dag_no_back g Hg _ v (e.1) Hq').
Qed.

Lemma settle_spec s pend v r :
  run_inv s ((v, r) :: pend) → failures_closed s → is_terminal (Some (r_state r)) = true →
  ∃ s', settle ceilings g v r s = Go s' ∧ run_inv s' pend ∧ failures_closed s' ∧
    {[v]} ∪ settled s ⊆ settled s'.
Proof using Hg.
  intros Hinv Hcl Ht. unfold settle.
  assert (Hid : v ∈ node_ids g).
  { apply (dq_started g _ (ri_queue _ _ Hinv)). right. apply (ri_pend _ _ Hinv). csimpl. set_solver. }
  destruct (r_state r) as [| | |msg|] eqn:Hr; try done.
  - unfold succeeded. destruct (node_index_spec g v Hid) as (i & n & -> & Hn & _).
    rewrite Hn. csimpl.
    assert (Hk : ¬ selective (x_kind n)) by (apply (dag_plain g Hg), list_elem_of_lookup; eauto).
    set (s1 := set_output _ _ _).
    assert (match x_kind n with XConditional => Go (conditional_succeeded v s1)
            | XLoop => loop_succeeded ceilings v s1 | _ => plain_succeeded g v s1 end =
            Go (on_queue (mark_completed v) s1)) as ->.
    { assert (plain_succeeded g v s1 = Go (on_queue (mark_completed v) s1)) as Hp.
      { apply plain_succeeded_dag; [apply Hinv|]. apply (ri_pend _ _ Hinv). csimpl. set_solver. }
      destruct (x_kind n) eqn:E; try done; exfalso; apply Hk; unfold selective; auto. }
    eexists; split; [done|]. apply (run_inv_complete s pend v r); try done.
    + rewrite Hr. by left.
    + by rewrite Hr.
    + by rewrite decide_True.
  - eexists; split; [done|]. by eapply node_failed_spec.
  - eexists; split; [done|]. apply (run_inv_complete s pend v r); try done.
    + rewrite Hr. by right.
    + by rewrite Hr.
    + by rewrite decide_False by (by rewrite Hr).
Qed.

(** *** Outcomes *)
(** Succeeded, or skipped by the executor's own answer. *)
Definition finished (o : option NodeState) : Prop :=
  o = Some Succeeded ∨
  (o = Some Skipped ∧ ∃ k n ctx, r_state (node_future execute_node cancel k n ctx) = Skipped).

(** Every success rests on finished predecessors and carries the executor's
    answer to their outputs. *)
Definition dependencies_met (ns : gmap Uuid NodeState) (outs : gmap Uuid json) : Prop :=
  ∀ v, ns !! v = Some Succeeded → produced outs v ∧ ∀ u, gedge g u v → finished (ns !! u).

Definition outcome_ok (o : ExecutionOutcome) : Prop :=
  (∀ v, v ∈ node_ids g → is_terminal (o_node_states o !! v) = true) ∧
  dependencies_met (o_node_states o) (o_outputs o).

Lemma completed_finished s pend v :
  run_inv s pend → v ∈ completed (queue s) → finished (node_states s !! v).
Proof.
  clear. intros Hinv Hv. pose proof (ri_states _ _ Hinv v) as Hs.
  pose proof (dq_disjoint g _ (ri_queue _ _ Hinv) v) as Hd. unfold state_ok in Hs. unfold finished.
  pose proof (ri_skipped _ _ Hinv v) as Hk.
  destruct (node_states s !! v) as [[]|]; tauto.
Qed.

Lemma run_inv_dependencies s pend :
  run_inv s pend → dependencies_met (node_states s) (outputs s).
Proof.
  clear Hg. intros Hinv v Hv. split; [by apply (ri_produced _ _ Hinv)|]. intros u Hu.
  apply (completed_finished s pend); [done|].
  pose proof (ri_states _ _ Hinv v) as Hs. unfold state_ok in Hs. rewrite Hv in Hs.
  by apply (dq_started g _ (ri_queue _ _ Hinv) v (or_introl Hs)).
Qed.

(** Overwriting unfinished states by anything but success. *)
Definition patches (ns ns' : gmap Uuid NodeState) : Prop :=
  ∀ v, if is_terminal (ns !! v) then ns' !! v = ns !! v else ns' !! v ≠ Some Succeeded.

Lemma patches_met ns ns' outs :
  patches ns ns' → dependencies_met ns outs → dependencies_met ns' outs.
Proof.
  clear. intros Hp Hd v Hv. pose proof (Hp v) as Hpv.
  destruct (is_terminal (ns !! v)) eqn:Ht; [|congruence].
  rewrite Hpv in Hv. destruct (Hd v Hv) as [? Hu]. split; [done|]. intros u Huv.
  specialize (Hu u Huv). specialize (Hp u). unfold finished in *.
  destruct (is_terminal (ns !! u)) eqn:Hu'; [by rewrite Hp|].
  by destruct Hu as [Hu|[Hu _]]; rewrite Hu in Hu'.
Qed.

Lemma patches_trans ns1 ns2 ns3 : patches ns1 ns2 → patches ns2 ns3 → patches ns1 ns3.
Proof.
  clear. intros H12 H23 v. specialize (H12 v). specialize (H23 v).
  destruct (is_terminal (ns1 !! v)) eqn:Ht.
  - rewrite H12, Ht in H23. congruence.
  - destruct (is_terminal (ns2 !! v)); congruence.
Qed.
Lemma patches_refl ns : patches ns ns.
Proof. clear. intros v. by destruct (ns !! v) as [[]|]. Qed.
Lemma patches_insert ns v st :
  is_terminal (ns !! v) = false → st ≠ Succeeded → patches ns (<[v := st]> ns).
Proof.
  clear. intros Ht Hst w. destruct (decide (w = v)) as [->|Hne].
  - rewrite Ht, lookup_insert_eq. congruence.
  - rewrite lookup_insert_ne by done. apply patches_refl.
Qed.

Lemma patches_fold {A} (f : Run → A → Run) (l : list A) s :
  (∀ s a, patches (node_states s) (node_states (f s a)) ∧ outputs (f s a) = outputs s) →
  patches (node_states s) (node_states (foldl f s l)) ∧ outputs (foldl f s l) = outputs s.
Proof.
  clear. intros Hf. revert s. induction l as [|a l IH]; intros s; csimpl; [by auto using patches_refl|].
  destruct (IH (f s a)) as [? ->]. destruct (Hf s a) as [? ->].
  split; [by eapply patches_trans|done].
Qed.

Lemma fail_unfinished_patches msg s v :
  patches (node_states s) (node_states (fail_unfinished msg s v)) ∧
  outputs (fail_unfinished msg s v) = outputs s.
Proof.
  clear. unfold fail_unfinished. destruct (is_terminal _) eqn:Ht; [by auto using patches_refl|].
  split; [by apply patches_insert|done].
Qed.
Lemma skip_unfinished_patches s n :
  patches (node_states s) (node_states (skip_unfinished s n)) ∧
  outputs (skip_unfinished s n) = outputs s ∧
  is_terminal (node_states (skip_unfinished s n) !! x_id n) = true.
Proof.
  clear. unfold skip_unfinished. destruct (node_states s !! x_id n) as [[]|] eqn:Hs;
    csimpl; rewrite ?lookup_insert_eq, ?Hs; split_and!; try done;
    try apply patches_refl; apply patches_insert; by rewrite ?Hs.
Qed.

Lemma skip_all_terminal (l : list ExecutionNode) s v :
  v ∈ x_id <$> l ∨ is_terminal (node_states s !! v) = true →
  is_terminal (node_states (foldl skip_unfinished s l) !! v) = true.
Proof.
  clear. revert s. induction l as [|n l IH]; intros s Hv; csimpl; [set_solver|].
  apply IH. destruct (skip_unfinished_patches s n) as (Hp & _ & Ht).
  csimpl in Hv. destruct Hv as [[-> | ?]%elem_of_cons|Hv]; [by right|by left|right].
  specialize (Hp v). rewrite Hv in Hp. by rewrite Hp.
Qed.

Lemma breach_outcome_ok batch v r e s :
  dependencies_met (<[v := r_state r]> (node_states s))
    (if decide (r_state r = Succeeded)
     then <[v := default JNull (r_output r)]> (outputs s) else outputs s) →
  outcome_ok (breach_outcome elapsed_ms g batch v r e s).
Proof.
  clear Hg. intros Hd. unfold breach_outcome. set (s1 := match r_state r with Succeeded => _ | _ => _ end).
  assert (Hs1 : node_states s1 = <[v := r_state r]> (node_states s) ∧
    outputs s1 = if decide (r_state r = Succeeded)
                 then <[v := default JNull (r_output r)]> (outputs s) else outputs s).
  { unfold s1. destruct (r_state r); by case_decide. }
  destruct Hs1 as [En Eo]. rewrite <- En, <- Eo in Hd.
  set (s2 := foldl (fail_unfinished _) _ _). set (s3 := foldl skip_unfinished _ _).
  assert (H2 : patches (node_states s1) (node_states s2) ∧ outputs s2 = outputs s1)
    by (apply patches_fold; intros; apply fail_unfinished_patches).
  assert (H3 : patches (node_states s2) (node_states s3) ∧ outputs s3 = outputs s2).
  { apply patches_fold. intros s0 a. by destruct (skip_unfinished_patches s0 a) as (? & ? & _). }
  destruct H2 as [H2 E2], H3 as [H3 E3]. split; csimpl.
  - intros w Hw. apply skip_all_terminal. by left.
  - rewrite E3, E2. apply (patches_met (node_states s1)); [|done].
    by apply (patches_trans _ (node_states s2)).
Qed.

Lemma run_inv_env s pend cost tokens c :
  run_inv s pend → run_inv (set_envelope c (add_spend cost tokens s)) pend.
Proof. clear Hg. intros []. by split. Qed.
Lemma run_inv_spend s pend cost tokens :
  run_inv s pend → run_inv (add_spend cost tokens s) pend.
Proof. clear Hg. intros []. by split. Qed.

(** The bookkeeping of a breach agrees with what settling would record. *)
Lemma breach_dependencies s pend v r :
  run_inv s ((v, r) :: pend) → failures_closed s → is_terminal (Some (r_state r)) = true →
  dependencies_met (<[v := r_state r]> (node_states s))
    (if decide (r_state r = Succeeded)
     then <[v := default JNull (r_output r)]> (outputs s) else outputs s).
Proof using Hg.
  intros Hinv Hcl Ht. destruct (r_state r) as [| | |msg|] eqn:Hr; try done.
  1, 3: edestruct (run_inv_complete s pend v r
      (mkRun (mark_completed v (queue s)) (<[v := r_state r]> (node_states s))
        (if decide (r_state r = Succeeded)
         then <[v := default JNull (r_output r)]> (outputs s) else outputs s)
        ZERO 0 ∅ (envelope s) 0)) as (Hi & _); try done;
    [rewrite Hr; unfold finished_state; auto|];
    apply run_inv_dependencies in Hi; csimpl in Hi; by rewrite Hr in Hi.
  rewrite decide_False by done.
  assert (Hvp : v ∈ in_progress (queue s)) by (apply (ri_pend _ _ Hinv); csimpl; set_solver).
  eapply (run_inv_dependencies (fail_with v msg s) pend).
  apply (run_inv_fail s pend v msg (Some r)); [done| |eauto|].
  - pose proof (dq_disjoint g _ (ri_queue _ _ Hinv) v). tauto.
  - right. destruct (ri_asked _ _ Hinv v r) as (n & k & ctx & _ & _ & -> & _); [set_solver|]. eauto.
Qed.

(** *** One result, one batch *)
Context (Hexec : ∀ k n ctx, is_terminal (Some (r_state (execute_node k n ctx))) = true).

Lemma future_terminal k n ctx :
  is_terminal (Some (r_state (node_future execute_node cancel k n ctx))) = true.
Proof using Hexec. unfold node_future. repeat case_match; try done; apply Hexec. Qed.

Lemma process_result_spec batch s pend v r :
  run_inv s ((v, r) :: pend) → failures_closed s →
  (∃ s', process_result sched ceilings elapsed_ms g batch s (v, r) = Go s' ∧ run_inv s' pend ∧
     failures_closed s' ∧ {[v]} ∪ settled s ⊆ settled s') ∨
  (∃ o, process_result sched ceilings elapsed_ms g batch s (v, r) = Return (Ok o) ∧
     outcome_ok o ∧ ceilings ≠ None).
Proof using Hg Hexec.
  intros Hinv Hcl.
  assert (Ht : is_terminal (Some (r_state r)) = true).
  { destruct (ri_asked _ _ Hinv v r) as (n & k & ctx & _ & _ & -> & _); [set_solver|].
    apply future_terminal. }
  unfold process_result. destruct (r_usage r) as [u|]; [|left; by apply settle_spec].
  destruct ceilings as [m|] eqn:Ec.
  - destruct (record_and_check _ _ _ _) as [[[]|e] c]; rewrite <- Ec.
    + left. apply (settle_spec (set_envelope c (add_spend _ _ s))); [by apply run_inv_env|done..].
    + right. eexists. split; [done|]. split; [|by rewrite Ec]. apply breach_outcome_ok.
      apply (breach_dependencies (set_envelope c (add_spend _ _ s)) pend); [by apply run_inv_env|done..].
  - left. rewrite <- Ec. apply (settle_spec (add_spend _ _ s)); [by apply run_inv_spend|done..].
Qed.

Lemma process_results_spec batch s rs :
  run_inv s rs → failures_closed s →
  (∃ s', process_results sched ceilings elapsed_ms g batch s rs = Go s' ∧ run_inv s' [] ∧
     failures_closed s' ∧ list_to_set rs.*1 ∪ settled s ⊆ settled s') ∨
  (∃ o, process_results sched ceilings elapsed_ms g batch s rs = Return (Ok o) ∧
     outcome_ok o ∧ ceilings ≠ None).
Proof using Hg Hexec.
  revert s. induction rs as [|[v r] rs IH]; intros s Hinv Hcl; cbn [process_results].
  { left. exists s. split_and!; [done..|set_solver]. }
  destruct (process_result_spec batch s rs v r Hinv Hcl)
    as [(s' & -> & Hinv' & Hcl' & Hset)|(o & -> & ?)]; [|eauto].
  destruct (IH s' Hinv' Hcl') as [(s2 & -> & ? & ? & Hset2)|(o & -> & ?)]; [|eauto].
  left. exists s2. split_and!; [done..|]. csimpl. clear -Hset Hset2. set_solver.
Qed.

Lemma dispatch_spec batch s pend :
  run_inv s pend → NoDup batch → (∀ v, v ∈ batch → v ∈ ready (queue s)) →
  ∃ s' rs, dispatch execute_node cancel g batch s = Ok (s', rs) ∧ rs.*1 = batch ∧
    run_inv s' (pend ++ rs) ∧ completed (queue s') = completed (queue s) ∧
    failed (queue s') = failed (queue s).
Proof using Hg.
  clear Hexec. revert s pend.
  induction batch as [|v batch IH]; intros s pend Hinv Hnd Hready; cbn [dispatch].
  { exists s, []. by rewrite app_nil_r. }
  apply NoDup_cons in Hnd as [Hvb Hnd].
  pose proof (Hready v (list_elem_of_here _ _)) as Hv.
  pose proof (ri_queue _ _ Hinv) as Hq.
  pose proof (proj1 (dq_ready g _ Hq v) Hv) as (Hid & Hen & Hvc & Hvf & Hvp).
  destruct (node_index_spec g v Hid) as (i & n & Hi & Hn & Hx). rewrite Hi. csimpl. rewrite Hn.
  set (r := node_future _ _ _ _ _).
  set (s1 := set_state v Running (on_queue (mark_in_progress v) s)).
  assert (Hinv1 : run_inv (count_call s1) (pend ++ [(v, r)])).
  { destruct Hinv as [_ Hmax Hndp Hp Hask Hst Hout Hprod Hcause Hskip]. split; csimpl; try done.
    - by apply dagq_in_progress.
    - rewrite fmap_app. apply NoDup_app. split_and!; [done| |csimpl; apply NoDup_singleton].
      intros w Hw. rewrite <- Hp in Hw. csimpl. clear -Hw Hvp. set_solver.
    - intros w. rewrite fmap_app, elem_of_union, Hp, elem_of_app. csimpl. clear. set_solver.
    - intros w r' [Hw|Hw]%elem_of_app; [by apply Hask|].
      apply list_elem_of_singleton in Hw. simplify_eq.
      eexists n, (calls s), _. split_and!; [by eapply list_elem_of_lookup_2|done|done|].
      apply context_parents.
    - intros w. specialize (Hst w). unfold state_ok in *; csimpl.
      destruct (decide (w = v)) as [->|Hne].
      + rewrite lookup_insert_eq. set_solver.
      + rewrite lookup_insert_ne by done. clear -Hst Hne. repeat case_match; set_solver.
    - intros w. destruct (decide (w = v)) as [->|]; [by rewrite lookup_insert_eq|].
      rewrite lookup_insert_ne by done. apply Hprod.
    - intros w. destruct (decide (w = v)) as [->|]; [by rewrite lookup_insert_eq|].
      rewrite lookup_insert_ne by done. apply Hskip. }
  destruct (IH (count_call s1) (pend ++ [(v, r)]) Hinv1 Hnd) as (s' & rs & -> & Hrs & Hinv' & ? & ?).
  { intros w Hw. csimpl. specialize (Hready w ltac:(by right)).
    clear -Hready Hw Hvb. set_solver. }
  exists s', ((v, r) :: rs). csimpl. rewrite Hx. split_and!; [done|by rewrite Hrs| |done|done].
  by rewrite <- app_assoc in Hinv'.
Qed.

(** *** The loop *)

(** When nothing is ready and nothing runs, every node is settled. *)
Lemma quiescent_settled s :
  run_inv s [] → failures_closed s → (∀ v, v ∉ ready (queue s)) →
  ∀ v, v ∈ node_ids g → v ∈ settled s.
Proof using Hg.
  clear Hexec. intros Hinv Hcl Hr v.
  assert (Hsn : sn (flip (gedge g)) v).
  { apply tc_finite_sn.
    - intros x Hx. apply (dag_acyclic g Hg x). by apply tc_of_flip in Hx.
    - exists (node_ids g). intros w Hw.
      assert (∀ a b, tc (flip (gedge g)) a b → b ∈ node_ids g) as Hin; [|by eapply Hin].
      induction 1 as [a b Hab|]; [|done]. apply (dag_closed g Hg b a Hab). }
  induction Hsn as [v _ IH]. intros Hv.
  assert (Hpre : ∀ u, gedge g u v → u ∈ settled s).
  { intros u Hu. apply IH; [done|]. by apply (dag_closed g Hg u v). }
  destruct (decide (v ∈ settled s)) as [|Hn]; [done|]. exfalso.
  apply (Hr v), (dq_ready g _ (ri_queue _ _ Hinv)). unfold settled in *.
  split_and!; [done| |set_solver|set_solver|].
  - intros u Hu. specialize (Hpre u Hu). apply elem_of_union in Hpre as [?|Hf]; [done|].
    destruct Hn. apply elem_of_union_r. by apply (Hcl u).
  - rewrite (ri_pend _ _ Hinv). set_solver.
Qed.

Lemma settled_terminal s v :
  run_inv s [] → v ∈ settled s → is_terminal (node_states s !! v) = true.
Proof.
  clear. intros Hinv Hv. pose proof (ri_states _ _ Hinv v) as Hs.
  pose proof (dq_disjoint g _ (ri_queue _ _ Hinv) v) as Hd. unfold state_ok in Hs.
  apply elem_of_union in Hv.
  destruct (node_states s !! v) as [[]|]; try done; tauto.
Qed.

Lemma finish_ok s :
  run_inv s [] → (∀ v, v ∈ node_ids g → v ∈ settled s) → outcome_ok (finish elapsed_ms g s).
Proof.
  clear Hg Hexec. intros Hinv Hall. split; csimpl.
  - intros v Hv. by apply settled_terminal, Hall.
  - by apply (run_inv_dependencies s []).
Qed.

Context (Hmc : (0 < max_concurrent sched)%nat).

Lemma get_ready_dag s :
  run_inv s [] → ∀ n, n ∈ get_ready (node_states s) (queue s) →
  x_id n ∈ ready (queue s) ∧ x_id n ∈ node_ids g ∧ x_id n ∉ settled s.
Proof.
  clear. intros Hinv n Hn.
  destruct (get_ready_spec (node_states s) (queue s)) as (Hall & _ & _).
  destruct (Hall n Hn) as (Hin & Hr & Hc & _ & Hf & _).
  rewrite (dq_graph g _ (ri_queue _ _ Hinv)) in Hin.
  split_and!; [done|by apply list_elem_of_fmap_2|]. unfold settled. set_solver.
Qed.

Lemma no_ready_dag s :
  run_inv s [] → get_ready (node_states s) (queue s) = [] → ∀ v, v ∉ ready (queue s).
Proof.
  clear. intros Hinv Hnil v Hv. pose proof (ri_queue _ _ Hinv) as Hq.
  pose proof (proj1 (dq_ready g _ Hq v) Hv) as (Hid & Hen & Hvc & Hvf & Hvp).
  apply list_elem_of_fmap in Hid as (n & -> & Hn).
  destruct (get_ready_spec (node_states s) (queue s)) as (_ & _ & Hfull). rewrite Hnil in Hfull.
  destruct (Hfull n) as [Hlen _].
  - by rewrite (dq_graph g _ Hq).
  - unfold dispatchable. split_and!; try done.
    pose proof (ri_states _ _ Hinv (x_id n)) as Hs. unfold state_ok in Hs.
    by destruct (node_states s !! x_id n) as [[]|].
  - by apply not_elem_of_nil.
  - assert (in_progress (queue s) = ∅) as Hp.
    { apply set_eq. intros w. rewrite (ri_pend _ _ Hinv). set_solver. }
    rewrite Hp, size_empty in Hlen. pose proof (ri_max _ _ Hinv). csimpl in Hlen. lia.
Qed.

Lemma done_settled s :
  run_inv s [] → is_done (node_states s) (queue s) = true → ∀ v, v ∈ node_ids g → v ∈ settled s.
Proof.
  clear. intros Hinv Hd v Hv. unfold is_done in Hd. rewrite forallb_forall in Hd.
  apply list_elem_of_fmap in Hv as (n & -> & Hn).
  rewrite (dq_graph g _ (ri_queue _ _ Hinv)) in Hd.
  specialize (Hd n (proj1 (list_elem_of_In _ _) Hn)). unfold settled. apply elem_of_union.
  pose proof (ri_states _ _ Hinv (x_id n)) as Hs. unfold state_ok in Hs.
  rewrite !orb_true_iff, !bool_decide_eq_true in Hd.
  destruct Hd as [[?|?]|Ht]; [by left|by right|].
  destruct (node_states s !! x_id n) as [[]|]; try done; auto.
Qed.

Lemma wave_spec k s :
  run_inv s [] → failures_closed s →
  let w := wave sched execute_node cancel ceilings elapsed_ms g k s in
  (w = Return (Err Cancelled) ∧ cancel ≠ None) ∨
  (w = BreakLoop s ∧ ∀ v, v ∈ node_ids g → v ∈ settled s) ∨
  (∃ s' v, w = Go s' ∧ run_inv s' [] ∧ failures_closed s' ∧
     v ∈ node_ids g ∧ v ∉ settled s ∧ {[v]} ∪ settled s ⊆ settled s') ∨
  (∃ o, w = Return (Ok o) ∧ outcome_ok o ∧ ceilings ≠ None).
Proof using Hg Hexec Hmc.
  intros Hinv Hcl. unfold wave.
  destruct (match cancel with Some t => _ | None => false end) eqn:Hcan.
  { left. split; [done|]. by destruct cancel. }
  right. destruct (is_done _ _) eqn:Hdone; [left; by eauto using done_settled|].
  destruct (get_ready (node_states s) (queue s)) as [|n ns] eqn:Hready.
  { left. unfold any_in_progress. rewrite bool_decide_false.
    - split; [done|]. apply quiescent_settled; [done..|]. by apply no_ready_dag.
    - intros Hp. apply Hp, set_eq. intros w. rewrite (ri_pend _ _ Hinv). set_solver. }
  right. rewrite <- Hready. set (batch := x_id <$> take _ _).
  assert (Hbatch : ∀ v, v ∈ batch → v ∈ ready (queue s) ∧ v ∈ node_ids g ∧ v ∉ settled s).
  { unfold batch. intros v (m & -> & Hm)%list_elem_of_fmap.
    apply get_ready_dag; [done|]. by eapply subseteq_take. }
  assert (Hnd : NoDup batch).
  { unfold batch. rewrite fmap_take. eapply sublist_NoDup; [|apply sublist_take].
    apply get_ready_nodup. rewrite (dq_graph g _ (ri_queue _ _ Hinv)). apply Hg. }
  assert (Hfirst : x_id n ∈ batch).
  { unfold batch. rewrite Hready. destruct (max_concurrent sched); [lia|]. csimpl. by left. }
  destruct (dispatch_spec batch s [] Hinv Hnd) as (s1 & rs & -> & Hrs & Hinv1 & Ec & Ef).
  { intros v Hv. by apply Hbatch. }
  destruct (process_results_spec batch s1 rs Hinv1) as [(s' & -> & ? & ? & Hset)|(o & -> & ?)].
  - unfold failures_closed. by rewrite Ef.
  - left. exists s', (x_id n). destruct (Hbatch _ Hfirst) as (_ & ? & ?). split_and!; try done.
    unfold settled in Hset at 1. rewrite Ec, Ef, Hrs in Hset. fold (settled s) in Hset.
    clear -Hset Hfirst. set_solver.
  - right. eauto.
Qed.

Definition unsettled (s : Run) : nat := size ((list_to_set (node_ids g) : gset Uuid) ∖ settled s).

Lemma sched_loop_spec fuel k s :
  run_inv s [] → failures_closed s → (unsettled s < fuel)%nat →
  ∃ r, sched_loop sched execute_node cancel ceilings elapsed_ms g fuel k s = Some r ∧
    ((r = Err Cancelled ∧ cancel ≠ None) ∨
     (∃ o, r = Ok o ∧ outcome_ok o ∧ ceilings ≠ None) ∨
     (∃ s', r = Ok (finish elapsed_ms g s') ∧ run_inv s' [] ∧
        ∀ v, v ∈ node_ids g → v ∈ settled s')).
Proof using Hg Hexec Hmc.
  revert k s. induction fuel as [|fuel IH]; intros k s Hinv Hcl Hf; [lia|]. cbn [sched_loop].
  destruct (wave_spec k s Hinv Hcl)
    as [[-> ?]|[[-> ?]|[(s' & v & -> & ? & ? & Hv & Hn & Hsub)|(o & -> & ? & ?)]]];
    [eauto 8..| |eauto 10].
  apply IH; [done..|]. unfold unsettled in *. apply Nat.lt_le_trans with
    (size ((list_to_set (node_ids g) : gset Uuid) ∖ settled s)); [|lia].
  apply subset_size. split; [set_solver|]. intros Hs. specialize (Hs v). set_solver.
Qed.

Lemma initial_run_inv q c :
  new g = Some q → run_inv (initial_run sched q c) [] ∧ failures_closed (initial_run sched q c).
Proof using Hg.
  clear Hexec Hmc. intros Hnew. pose proof (dagq_new g Hg q Hnew) as Hq.
  destruct (new_spec g) as (q' & Hq' & _ & _ & Hc & Hp & Hf & _). simplify_eq.
  split; [|intros u v; csimpl; rewrite Hf; set_solver].
  split; csimpl; try done; try lia.
  - destruct Hq as [[] ? ? ? ? ? ?]. by split; [split|..].
  - constructor.
  - rewrite Hp. set_solver.
  - intros v r Hv. by apply not_elem_of_nil in Hv.
  - intros v. unfold state_ok. csimpl. rewrite lookup_empty, Hc, Hp, Hf. set_solver.
  - intros v. rewrite lookup_empty. by intros [].
Qed.
End dag.

Lemma run_inner_dag `{!HashIter N} g sched exec cancel ceilings elapsed fuel c :
  plain_dag g → (0 < max_concurrent sched)%nat →
  (∀ k n ctx, is_terminal (Some (r_state (exec k n ctx))) = true) →
  (length (g_nodes g) < fuel)%nat →
  ∃ r, run_inner sched exec cancel ceilings elapsed g fuel c = Some r ∧
    ((r = Err Cancelled ∧ cancel ≠ None) ∨
     (∃ o, r = Ok o ∧ outcome_ok g exec cancel o ∧ ceilings ≠ None) ∨
     (∃ s', r = Ok (finish elapsed g s') ∧ run_inv g exec cancel s' [] ∧
        ∀ v, v ∈ node_ids g → v ∈ settled s')).
Proof.
  intros Hg Hmc Hexec Hf. unfold run_inner.
  destruct (new_spec g) as (q & Hq & _). rewrite Hq. csimpl.
  destruct (initial_run_inv g Hg sched exec cancel q c Hq) as [Hinv Hcl].
  apply sched_loop_spec; try done. unfold unsettled.
  eapply Nat.le_lt_trans; [apply subseteq_size, subseteq_difference_l; reflexivity|].
  eapply Nat.le_lt_trans; [apply size_list_to_set_le|]. unfold node_ids. by rewrite length_fmap.
Qed.

Lemma run_inner_outcome `{!HashIter N} g sched exec cancel ceilings elapsed fuel c :
  plain_dag g → (0 < max_concurrent sched)%nat →
  (∀ k n ctx, is_terminal (Some (r_state (exec k n ctx))) = true) →
  (length (g_nodes g) < fuel)%nat →
  ∃ r, run_inner sched exec cancel ceilings elapsed g fuel c = Some r ∧
    match r with
    | Err e => e = Cancelled ∧ cancel ≠ None
    | Ok o => outcome_ok g exec cancel o
    end.
Proof.
  intros Hg Hmc Hexec Hf.
  destruct (run_inner_dag g sched exec cancel ceilings elapsed fuel c)
    as (r & Hr & [[-> ?]|[(o & -> & Ho & _)|(s' & -> & Hinv & Hall)]]); try done;
    (eexists; split; [done|]); [done|exact Ho|by apply finish_ok].
Qed.

Lemma plain_node_unique g n n' :
  plain_dag g → n ∈ g_nodes g → n' ∈ g_nodes g → x_id n = x_id n' → n = n'.
Proof.
  intros Hg [i Hi]%list_elem_of_lookup [j Hj]%list_elem_of_lookup Hid.
  pose proof (dag_ids g Hg) as Hnd. unfold node_ids in Hnd. assert (i = j) as <-; [|congruence].
  eapply NoDup_lookup; [exact Hnd|by rewrite list_lookup_fmap, Hi|].
  rewrite list_lookup_fmap, Hj. csimpl. by f_equal.
Qed.
Lemma future_fails exec cancel k n ctx :
  r_state (exec k n ctx) ≠ Succeeded → r_state (node_future exec cancel k n ctx) ≠ Succeeded.
Proof. unfold node_future. destruct cancel as [c|]; [|done]. by destruct (cancelled_during c k). Qed.

(** C5. On a graph without loops, branches and parallel edges, with any executor
    that answers terminal states, any budget and any cancellation, one turn
    per node is enough: the run ends, the only error is the client's
    cancellation, every node has a terminal state, and a node that succeeded
    has predecessors that succeeded (or that the executor skipped) and the output the executor gave for exactly
    their outputs. *)
Theorem dag_run_total `{!HashIter N} g sched exec cancel ceilings elapsed fuel c :
  plain_dag g → (0 < max_concurrent sched)%nat →
  (∀ k n ctx, is_terminal (Some (r_state (exec k n ctx))) = true) →
  (length (g_nodes g) < fuel)%nat →
  ∃ r, run_inner sched exec cancel ceilings elapsed g fuel c = Some r ∧
    match r with
    | Err e => e = Cancelled ∧ cancel ≠ None
    | Ok o =>
        (∀ v, v ∈ node_ids g → is_terminal (o_node_states o !! v) = true) ∧
        (∀ v, o_node_states o !! v = Some Succeeded →
           produced g exec cancel (o_outputs o) v ∧
           ∀ u, gedge g u v → finished exec cancel (o_node_states o !! u))
    end.
Proof. apply run_inner_outcome. Qed.

Definition two_steps : ExecutionGraph :=
  let node i m := mkExecNode i LLMGenerate Single m (mkRetry 0 0) None ∅ None in
  mkGraph 0%N [node 1%N "draft"; node 2%N "review"; node 3%N "merge"]
    [mkExecEdge 1%N 2%N None; mkExecEdge 1%N 3%N None; mkExecEdge 2%N 3%N None]
    (mkGraphMetadata ZERO 0 0 0 0) 0 ZERO 0.

Lemma two_steps_plain : plain_dag two_steps.
Proof.
  split.
  - apply (bool_decide_unpack _). vm_compute. done.
  - intros u v (e & He & <- & <-). revert e He. apply Forall_forall.
    apply (bool_decide_unpack _). vm_compute. done.
  - apply (bool_decide_unpack _). vm_compute. done.
  - apply Forall_forall, (bool_decide_unpack _). vm_compute. done.
  - by apply (acyclic_by_rank two_steps N.to_nat).
Qed.

(** An executor that numbers its calls and fails the node called "merge". *)
Definition counting_executor (k : nat) (n : ExecutionNode) (_ : NodeExecContext)
    : NodeExecutionResult :=
  mkResult (if decide (x_model n = "merge") then Failed "refused" else Succeeded)
    None 0 (Some (JNumber (PosInt (Z.of_nat k)))).

Lemma dag_run_total_witness :
  ∃ r, @run_inner (map_to_list_iter N) scheduler_new counting_executor None None 0 two_steps 4
         envelope_new = Some r ∧
    match r with
    | Err e => e = Cancelled ∧ @None CancellationToken ≠ None
    | Ok o =>
        (∀ v, v ∈ node_ids two_steps → is_terminal (o_node_states o !! v) = true) ∧
        (∀ v, o_node_states o !! v = Some Succeeded →
           produced two_steps counting_executor None (o_outputs o) v ∧
           ∀ u, gedge two_steps u v → finished counting_executor None (o_node_states o !! u))
    end.
Proof.
  apply (@dag_run_total (map_to_list_iter N)).
  - exact two_steps_plain.
  - vm_compute. lia.
  - intros k n ctx. unfold counting_executor. cbn. by case_decide.
  - vm_compute. lia.
Defined.

(** C30. With an executor that always succeeds, and no budget or cancellation,
    every node of such a graph succeeds and the run is a success: the
    scheduler neither deadlocks nor leaves a node behind. *)
Theorem dag_run_all_succeed `{!HashIter N} g sched exec elapsed fuel :
  plain_dag g → (0 < max_concurrent sched)%nat →
  (∀ k n ctx, r_state (exec k n ctx) = Succeeded) →
  (length (g_nodes g) < fuel)%nat →
  ∃ o, run sched exec elapsed fuel g = Some (Ok o) ∧ success o = true ∧
    ∀ v, v ∈ node_ids g → o_node_states o !! v = Some Succeeded ∧
      produced g exec None (o_outputs o) v.
Proof.
  intros Hg Hmc Hexec Hf.
  destruct (run_inner_dag g sched exec None None elapsed fuel envelope_new)
    as (r & Hr & [[-> ?]|[(o & -> & _ & ?)|(s' & -> & Hinv & Hall)]]); try done.
  { intros k n ctx. by rewrite Hexec. }
  exists (finish elapsed g s'). split; [exact Hr|].
  assert (Hs : ∀ v, v ∈ node_ids g → node_states s' !! v = Some Succeeded).
  { intros v Hv. specialize (Hall v Hv). apply elem_of_union in Hall as [Hc|Hfail].
    - destruct (completed_finished g exec None s' [] v Hinv Hc) as [?|(_ & k & n & ctx & Hk)]; [done|].
      unfold node_future in Hk. by rewrite Hexec in Hk.
    - destruct (ri_cause _ _ _ _ _ Hinv) as (k & n & ctx & msg & Hk); [set_solver|].
      unfold node_future in Hk. by rewrite Hexec in Hk. }
  split.
  - cbn. apply forallb_forall. intros n Hn%list_elem_of_In.
    by rewrite (Hs (x_id n)) by by apply list_elem_of_fmap_2.
  - intros v Hv. split; [by apply Hs|]. by apply (ri_produced _ _ _ _ _ Hinv), Hs.
Qed.

Definition agreeable_executor (k : nat) (_ : ExecutionNode) (_ : NodeExecContext)
    : NodeExecutionResult :=
  mkResult Succeeded None 0 (Some (JNumber (PosInt (Z.of_nat k)))).

Lemma dag_run_all_succeed_witness :
  ∃ o, @run (map_to_list_iter N) scheduler_new agreeable_executor 0 4 two_steps = Some (Ok o) ∧
    success o = true ∧
    ∀ v, v ∈ node_ids two_steps → o_node_states o !! v = Some Succeeded ∧
      produced two_steps agreeable_executor None (o_outputs o) v.
Proof.
  apply (@dag_run_all_succeed (map_to_list_iter N)).
  - exact two_steps_plain.
  - vm_compute. lia.
  - done.
  - vm_compute. lia.
Defined.
