(* ===== verification/SchedulerCases.v ===== *)
(** * Scheduler: budget breaches and the loop machinery on concrete graphs

    [budget_breach_stops] holds for every graph. The other theorems evaluate
    [run_inner] on graphs with loops, parallel edges or a zero concurrency
    limit, where the code departs from what its comments describe. *)
From S2P Require Import Prelude Text Json Money Budget ExecTypes Graphs WorkQueue Scheduler DagQueue SchedulerProps.
Open Scope stdpp_scope.
Open Scope Z_scope.

Lemma fold_keeps_cost {A} (f : Run → A → Run) (l : list A) s :
  (∀ s a, total_cost (f s a) = total_cost s) → total_cost (foldl f s l) = total_cost s.
Proof. intros Hf. revert s. induction l as [|a l IH]; intros s; csimpl; [done|]. by rewrite IH, Hf. Qed.

(** ** Cancellation *)
Section cancellation.
Context `{!HashIter N} (sched : DefaultScheduler).
Context (exec : nat → ExecutionNode → NodeExecContext → NodeExecutionResult).
Context (cancel : option CancellationToken) (ceilings : option Ceilings) (elapsed : Z) (g : ExecutionGraph).

Lemma process_result_not_cancelled batch s vr :
  process_result sched ceilings elapsed g batch s vr ≠ Return (Err Cancelled).
Proof.
  destruct vr as [v r]. assert (∀ s, settle ceilings g v r s ≠ Return (Err Cancelled)) as Hs.
  { intros s'. unfold settle. destruct (r_state r); try done.
    unfold succeeded, loop_succeeded, plain_succeeded. by repeat case_match. }
  unfold process_result. by repeat case_match.
Qed.
Lemma process_results_not_cancelled batch s rs :
  process_results sched ceilings elapsed g batch s rs ≠ Return (Err Cancelled).
Proof.
  revert s. induction rs as [|vr rs IH]; intros s; csimpl; [done|].
  pose proof (process_result_not_cancelled batch s vr). by destruct (process_result _ _ _ _ _ _ _).
Qed.
Lemma dispatch_not_cancelled batch s : dispatch exec cancel g batch s ≠ Err Cancelled.
Proof.
  revert s. induction batch as [|v batch IH]; intros s; csimpl; [done|]. case_match; [|done].
  specialize (IH (count_call (set_state v Running (on_queue (mark_in_progress v) s)))).
  destruct (dispatch _ _ _ _ _) as [[s' rs]|err]; csimpl; congruence.
Qed.
(** Only the client's token cancels a run. *)
Lemma cancelled_by_token fuel c :
  run_inner sched exec cancel ceilings elapsed g fuel c = Some (Err Cancelled) →
  ∃ t k, cancel = Some t ∧ cancelled_at_wave t k = true.
Proof.
  unfold run_inner. destruct (new g) as [q|]; csimpl; [|done].
  generalize (initial_run sched q c) O. induction fuel as [|fuel IH]; intros s k; csimpl; [done|].
  destruct (wave sched exec cancel ceilings elapsed g k s) as [s'|s'|r] eqn:Hw; [by apply IH|done|].
  intros [= ->]. revert Hw. unfold wave. destruct (match cancel with Some t => _ | None => false end) eqn:Hc.
  { intros _. destruct cancel as [t|]; [|done]. eauto. }
  destruct (is_done _ _); [done|]. destruct (get_ready _ _) as [|n l]; [by destruct (any_in_progress _)|].
  destruct (dispatch _ _ _ _ _) as [[s' rs]|e] eqn:Hd; intros [= Hr].
  - by apply process_results_not_cancelled in Hr.
  - rewrite Hr in Hd. by apply dispatch_not_cancelled in Hd.
Qed.
End cancellation.

(** C40. When a result breaches the envelope the run returns at once, and
    unsuccessfully: the spend of the node is in the totals, its own state and
    output are kept, nodes that had finished keep their states, and every
    other node of the graph ends in a terminal state. *)
Theorem budget_breach_stops sched m elapsed g batch s v r u e c :
  r_usage r = Some u →
  record_and_check m (node_cost sched g v u) (Scheduler.total_tokens u) (envelope s) = (Err e, c) →
  ∃ o, process_result sched (Some m) elapsed g batch s (v, r) = Return (Ok o) ∧
    success o = false ∧
    o_total_cost o = saturating_add (total_cost s) (node_cost sched g v u) ∧
    (∀ n, n ∈ g_nodes g → is_terminal (o_node_states o !! x_id n) = true) ∧
    (is_terminal (Some (r_state r)) = true → o_node_states o !! v = Some (r_state r)) ∧
    (r_state r = Succeeded → o_outputs o !! v = Some (default JNull (r_output r))) ∧
    (∀ w, w ≠ v → is_terminal (node_states s !! w) = true →
       o_node_states o !! w = node_states s !! w).
Proof.
  intros Hu Hrc. unfold process_result. rewrite Hu. cbv zeta.
  change (envelope (add_spend _ _ s)) with (envelope s). rewrite Hrc.
  set (s0 := set_envelope c _).
  eexists. split; [done|]. unfold breach_outcome.
  set (s1 := match r_state r with Succeeded => _ | _ => _ end).
  set (s2 := foldl (fail_unfinished _) _ _). set (s3 := foldl skip_unfinished _ _).
  assert (H2 : patches (node_states s1) (node_states s2) ∧ outputs s2 = outputs s1)
    by (apply patches_fold; intros; apply fail_unfinished_patches).
  assert (H3 : patches (node_states s2) (node_states s3) ∧ outputs s3 = outputs s2).
  { apply patches_fold. intros s' a. by destruct (skip_unfinished_patches s' a) as (? & ? & _). }
  destruct H2 as [H2 E2], H3 as [H3 E3]. pose proof (patches_trans _ _ _ H2 H3) as Hp.
  cbn [success o_total_cost o_node_states o_outputs].
  assert (En : node_states s1 = <[v := r_state r]> (node_states s)).
  { unfold s1. by destruct (r_state r). }
  split_and!; [done| |..].
  - unfold s3, s2. rewrite !fold_keeps_cost; [unfold s1; by destruct (r_state r)|..];
      intros s' a; unfold fail_unfinished, skip_unfinished; by repeat case_match.
  - intros n Hn. apply skip_all_terminal. left. by apply list_elem_of_fmap_2.
  - intros Ht. specialize (Hp v). rewrite En, lookup_insert_eq, Ht in Hp. done.
  - intros Hr. rewrite E3, E2. unfold s1. rewrite Hr. csimpl. by rewrite lookup_insert_eq.
  - intros w Hw Ht. specialize (Hp w). rewrite En, lookup_insert_ne, Ht in Hp by done. done.
Qed.

(** ** Concrete graphs *)
Definition demo_node (i : Uuid) (k : ExecutionNodeKind) (m : string) : ExecutionNode :=
  mkExecNode i k Single m (mkRetry 0 0) None {["max_iterations" := JNumber (PosInt 3)]} None.
Definition demo_graph (ns : list ExecutionNode) (es : list ExecutionEdge) : ExecutionGraph :=
  mkGraph 0%N ns es (mkGraphMetadata ZERO 0 0 0 0) 0 ZERO 0.

Definition demo_run : Run :=
  mkRun (default (mkQueue (demo_graph [] []) ∅ ∅ ∅ ∅ ∅ ∅ ∅ ∅ ∅ ∅ ∅ ∅ ∅ 1)
           (@new (map_to_list_iter N) two_steps))
    ∅ ∅ ZERO 0 ∅ envelope_new 0.

Lemma budget_breach_stops_witness :
  ∃ o, process_result scheduler_new (Some (mkCeilings (from_nanos 5) 100 1)) 0 two_steps [1%N]
         demo_run (1%N, mkResult Succeeded (Some (mkUsage 1 1 2)) 0 (Some JNull)) = Return (Ok o) ∧
    success o = false ∧
    o_total_cost o = saturating_add (total_cost demo_run)
                       (node_cost scheduler_new two_steps 1%N (mkUsage 1 1 2)) ∧
    (∀ n, n ∈ g_nodes two_steps → is_terminal (o_node_states o !! x_id n) = true) ∧
    (is_terminal (Some Succeeded) = true → o_node_states o !! 1%N = Some Succeeded) ∧
    (Succeeded = Succeeded → o_outputs o !! 1%N = Some (default JNull (Some JNull))) ∧
    (∀ w, w ≠ 1%N → is_terminal (node_states demo_run !! w) = true →
       o_node_states o !! w = node_states demo_run !! w).
Proof.
  eapply (budget_breach_stops scheduler_new (mkCeilings (from_nanos 5) 100 1) 0 two_steps [1%N]
    demo_run 1%N (mkResult Succeeded (Some (mkUsage 1 1 2)) 0 (Some JNull)) (mkUsage 1 1 2));
    [reflexivity|vm_compute; reflexivity].
Defined.

Section cases.
#[local] Existing Instance map_to_list_iter.

(** A loop with one body node and an exit target; the executor numbers its
    calls and answers "continue" on the first one only. *)
Definition loop_graph : ExecutionGraph :=
  demo_graph
    [demo_node 1%N XLoop "loop"; demo_node 2%N LLMGenerate "body"; demo_node 3%N LLMGenerate "exit"]
    [mkExecEdge 1%N 2%N None; mkExecEdge 1%N 3%N (Some "exit"); mkExecEdge 2%N 1%N (Some "loop")].
Definition stop_after_first (k : nat) (n : ExecutionNode) (_ : NodeExecContext)
    : NodeExecutionResult :=
  mkResult Succeeded None 0 (Some
    (if decide (x_kind n = XLoop) then JBool (bool_decide (k = 0%nat))
     else JNumber (PosInt (Z.of_nat k)))).

(** The loop head decides to stop after the first iteration, but the body has
    already been re-armed beside it and re-arms the head in turn: the loop
    runs on to [max_iterations]. The last execution of the body (number 8)
    comes after the execution of the exit target (number 6), although exit
    targets are said to wait for the loop's end. *)
Theorem loop_stop_decision_ignored :
  ∃ o, run scheduler_new stop_after_first 0 10 loop_graph = Some (Ok o) ∧
    o_outputs o !! 2%N = Some (JNumber (PosInt 8)) ∧
    o_outputs o !! 3%N = Some (JNumber (PosInt 6)).
Proof. eexists. split; [vm_compute; reflexivity|]. split; reflexivity. Qed.

(** A loop head with an edge to itself. *)
Definition self_loop : ExecutionGraph :=
  demo_graph [demo_node 1%N XLoop "loop"] [mkExecEdge 1%N 1%N None].
Definition always_continue (_ : nat) (_ : ExecutionNode) (_ : NodeExecContext)
    : NodeExecutionResult := mkResult Succeeded None 0 (Some (JBool true)).

Definition self_loop_state (k : nat) : Run :=
  match new self_loop with
  | Some q =>
      match wave scheduler_new always_continue None None 0 self_loop 0
              (initial_run scheduler_new q envelope_new) with
      | Go s => mkRun (queue s) (node_states s) (outputs s) (total_cost s) (run_tokens s)
                  (loop_iterations s) (envelope s) k
      | _ => initial_run scheduler_new q envelope_new
      end
  | None => demo_run
  end.

Lemma self_loop_turns k c :
  wave scheduler_new always_continue None None 0 self_loop k (self_loop_state c) =
  Go (self_loop_state (S c)).
Proof. vm_compute. reflexivity. Qed.

(** The state a turn leads to, if it goes on. *)
Definition next (f : Flow) : option Run := match f with Go s => Some s | _ => None end.

Lemma self_loop_first :
  (q ← new self_loop;
   next (wave scheduler_new always_continue None None 0 self_loop 0
           (initial_run scheduler_new q envelope_new))) = Some (self_loop_state 1).
Proof. vm_compute. reflexivity. Qed.

(** [max_iterations] (3 here) is consulted only when a plain node loops back,
    so a head that is its own body runs for ever while the executor answers
    "continue" and no budget is set. *)
Theorem self_loop_never_stops fuel :
  run scheduler_new always_continue 0 fuel self_loop = None.
Proof.
  assert (Hloop : ∀ fuel k c, sched_loop scheduler_new always_continue None None 0 self_loop
    fuel k (self_loop_state c) = None).
  { induction fuel0 as [|fuel0 IH]; intros k c; [done|]. cbn [sched_loop].
    rewrite self_loop_turns. apply IH. }
  pose proof self_loop_first as Hfirst.
  unfold run, run_inner. destruct (new self_loop) as [q|]; [|done]. cbn [mbind option_bind] in *.
  destruct fuel as [|fuel]; [done|]. cbn [sched_loop].
  destruct (wave _ _ _ _ _ _ _ _); simplify_eq/=. apply Hloop.
Qed.

(** Two parallel edges (say, with different conditions) from 1 to 2. *)
Definition parallel_edges : ExecutionGraph :=
  demo_graph [demo_node 1%N LLMGenerate "a"; demo_node 2%N LLMGenerate "b"]
    [mkExecEdge 1%N 2%N None; mkExecEdge 1%N 2%N (Some "ok")].

(** Parallel edges count twice in [total_incoming] but once in
    [activated_edges]: the target never becomes ready, and the run ends
    unsuccessfully with every executed node succeeded. *)
Theorem parallel_edges_starve_target :
  ∃ o, run scheduler_new agreeable_executor 0 10 parallel_edges = Some (Ok o) ∧
    success o = false ∧ o_node_states o !! 1%N = Some Succeeded ∧ o_node_states o !! 2%N = None.
Proof. eexists. split; [vm_compute; reflexivity|]. split_and!; reflexivity. Qed.

(** A loop head beside an independent node; every execution reports usage. *)
Definition loop_and_sibling : ExecutionGraph :=
  demo_graph
    [demo_node 1%N XLoop "loop"; demo_node 2%N LLMGenerate "body"; demo_node 3%N LLMGenerate "other"]
    [mkExecEdge 1%N 2%N None; mkExecEdge 2%N 1%N None].
Definition metered (_ : nat) (_ : ExecutionNode) (_ : NodeExecContext) : NodeExecutionResult :=
  mkResult Succeeded (Some (mkUsage 1 1 2)) 0 (Some (JBool true)).

(** When the iteration budget is exhausted in the middle of a batch, the
    results of the other nodes of the batch are dropped: the independent node,
    which was executed, is reported as still running, has no output, and its
    tokens are missing from the total. *)
Theorem iteration_limit_drops_batch :
  ∃ o, run_with_budget scheduler_new metered 0 10 loop_and_sibling
         (mkCeilings (from_nanos 1000000) 1000 0) envelope_new = Some (Ok o) ∧
    o_node_states o !! 3%N = Some Running ∧ o_outputs o !! 3%N = None ∧ o_total_tokens o = 2.
Proof. eexists. split; [vm_compute; reflexivity|]. split_and!; reflexivity. Qed.

Definition zero_state : option Run :=
  q ← new parallel_edges; Some (initial_run (with_max_concurrent 0) q envelope_new).
Lemma zero_concurrency_turn k :
  (s ← zero_state; next (wave (with_max_concurrent 0) agreeable_executor None None 0 parallel_edges k s)) =
  zero_state.
Proof. vm_compute. reflexivity. Qed.

(** [with_max_concurrent(0)]: the queue clamps its cap to one, the loop does
    not, so it dispatches empty batches for ever. *)
Theorem zero_concurrency_spins fuel :
  run (with_max_concurrent 0) agreeable_executor 0 fuel parallel_edges = None.
Proof.
  pose proof zero_concurrency_turn as Hturn. unfold zero_state in Hturn.
  unfold run, run_inner. destruct (new parallel_edges) as [q|]; [|done].
  cbn [mbind option_bind] in *.
  generalize 0%nat at 2 as k. induction fuel as [|fuel IH]; intros k; [done|].
  cbn [sched_loop]. specialize (Hturn k).
  destruct (wave _ _ _ _ _ _ _ _); simplify_eq/=. apply IH.
Qed.

(** A loop head with a genuine upstream node 2 and a "loop"-marked edge from a
    node 3 outside its body. *)
Definition marked_edge : ExecutionGraph :=
  demo_graph
    [demo_node 1%N XLoop "loop"; demo_node 2%N LLMGenerate "upstream"; demo_node 3%N LLMGenerate "x"]
    [mkExecEdge 2%N 1%N None; mkExecEdge 3%N 1%N (Some "loop")].

(** The marked edge is left out of [total_incoming] but counted when its
    source completes, so the head becomes ready although its upstream node has
    not run. *)
Theorem marked_edge_bypasses_dependency :
  ∃ q, new marked_edge = Some q ∧
    let q' := mark_completed 3%N (mark_in_progress 3%N q) in
    1%N ∈ ready q' ∧ 2%N ∉ completed q' ∧ gedge marked_edge 2%N 1%N ∧
    ¬ back_edge marked_edge 2%N 1%N.
Proof.
  destruct (new_spec marked_edge) as (q & Hq & Hst & Hg & _). exists q. split; [done|].
  assert (Hb : ¬ back_edge marked_edge 2%N 1%N).
  { rewrite <- Hg at 1. rewrite <- (st_back q Hst). revert Hq. clear. vm_compute (new _).
    intros [= <-]. apply (bool_decide_unpack _). by vm_compute. }
  split_and!; [| | |done].
  - revert Hq. clear. vm_compute (new _). intros [= <-]. apply (bool_decide_unpack _). by vm_compute.
  - revert Hq. clear. vm_compute (new _). intros [= <-]. apply (bool_decide_unpack _). by vm_compute.
  - exists (mkExecEdge 2%N 1%N None). split_and!; [|done..]. apply list_elem_of_here.
Qed.
End cases.
