(* ===== verification/Runtime.v ===== *)
(** * The provider-backed executor ([crates/fusion-runtime/src/lib.rs])

    [ProviderExecutor::execute_node]: requests built from a node and its
    context, the tool loop with its allowlist and budget gate, retries and
    fallback, policy gates, and prebuilt subgraphs. What lies outside (the chat
    provider, the tools, the resource manager, the approval authority, the
    clock) is a parameter that answers as a function of the calls made so far;
    every such call is an event of the trace the executor extends, so the
    trace is both the outside world's state and what the theorems speak
    about. [serde_json]'s conversions to and from text are parameters too. *)
From S2P Require Import Prelude Text Json Money Budget ExecTypes Graphs WorkQueue Scheduler.
From Stdlib Require Import Floats.SpecFloat Ascii.
Open Scope stdpp_scope.
Open Scope Z_scope.

(** ** Requests and responses *)
Record ChatMessage := mkMessage { role : string; content : string }.
Record ChatRequest := mkChatRequest {
  rq_model : string;
  rq_messages : list ChatMessage;
  rq_temperature : option spec_float;
  rq_max_tokens : option Z;
}.
Record ToolCall := mkToolCall { tc_id : string; tc_name : string; tc_arguments : json }.
Record ChatResponse := mkChatResponse {
  rsp_content : string;
  rsp_usage : option Usage;
  rsp_tool_calls : list ToolCall;
  rsp_tool_results : list json;
}.

(** Calls to the outside, with the node they are made for. *)
Inductive Event :=
| EvAfford (node : Uuid) (cost : NanoUSD) (tokens : Z) (ok : bool)
| EvChat (node : Uuid) (request : ChatRequest)
| EvRecord (node : Uuid) (cost : NanoUSD) (tokens : Z)
| EvTool (node : Uuid) (name : string) (arguments : json)
| EvApproval (node : Uuid) (ok : bool)
| EvSleep (node : Uuid) (ms : Z).
Notation Trace := (list Event) (only parsing).

(** ** Formatting *)

(** [Uuid::to_string]: 32 hexadecimal digits in groups of 8-4-4-4-12. *)
Definition hex_digit (n : N) : ascii :=
  ascii_of_N (if (n <? 10)%N then 48 + n else 87 + n)%N.
Fixpoint hex_digits (count : nat) (n : N) : string :=
  match count with
  | O => ""
  | S count => hex_digits count (n / 16) +:+ String.String (hex_digit (n mod 16)) ""
  end.
Definition uuid_to_string (u : Uuid) : string :=
  let group (shift : N) (digits : nat) := hex_digits digits (N.shiftr u shift) in
  group 96%N 8%nat +:+ "-" +:+ group 80%N 4%nat +:+ "-" +:+ group 64%N 4%nat +:+ "-"
    +:+ group 48%N 4%nat +:+ "-" +:+ group 0%N 12%nat.

(** [{:?}] of a node kind. *)
Definition node_kind_debug (k : ExecutionNodeKind) : string :=
  match k with
  | LLMGenerate => "LLMGenerate" | LLMReview => "LLMReview" | LLMJudge => "LLMJudge"
  | XTransform => "Transform" | XGate => "Gate" | XConditional => "Conditional"
  | XLoop => "Loop" | XSplit => "Split" | XJoin => "Join" | XBarrier => "Barrier"
  end.

(** [{:.9}] of an [f64]: the exact value rounded to nine decimals, ties to
    even. *)
Definition round_half_even (num den : Z) : Z :=
  let q := num `div` den in
  match (2 * (num `mod` den) ?= den)%Z with
  | Lt => q
  | Gt => q + 1
  | Eq => if Z.even q then q else q + 1
  end.
Definition fmt_nine (f : spec_float) : string :=
  let digits (neg : bool) (n : Z) :=
    (if neg then "-" else "") +:+ fmt_u64 (n `div` 1000000000) +:+ "."
      +:+ pad_left "0" 9 (fmt_u64 (n `mod` 1000000000)) in
  match f with
  | S754_zero neg => digits neg 0
  | S754_finite neg m e =>
      digits neg (if (0 <=? e)%Z then Zpos m * 2 ^ e * 1000000000
                  else round_half_even (Zpos m * 1000000000) (2 ^ (- e)))
  | S754_infinity neg => if neg then "-inf" else "inf"
  | S754_nan => "NaN"
  end.

(** [as_f64] of a JSON number, and [v as f32]. *)
Definition as_f64 (j : json) : option spec_float :=
  match j with
  | JNumber (PosInt n) => Some (binary_normalize 53 1024 n 0 false)
  | JNumber (NegInt z) => Some (binary_normalize 53 1024 z 0 false)
  | JNumber (Float f) => Some f
  | _ => None
  end.
Definition f64_as_f32 (f : spec_float) : spec_float :=
  match f with
  | S754_finite neg m e => binary_normalize 24 128 (if neg then Zneg m else Zpos m) e neg
  | _ => f
  end.

(** The literal [0.001]. *)
Definition f64_milli : spec_float := S754_finite false 4611686018427388 (-62).

(** [json!({..})] *)
Definition jobject (l : list (string * json)) : json := JObject (obj_of_list l).

(** ** The executor *)
Record ProviderExecutor := mkExecutor {
  ex_tools : gset string;
  allow_auto_exec : bool;
  resource_manager : option (Trace → NanoUSD → Z → bool);
  ex_pricing : option (string → TokenPricing);
  approvals : option (Trace → Uuid → bool);
}.
Definition executor_new : ProviderExecutor := mkExecutor ∅ false None None None.

Section executor.
Context `{!HashIter N}.
Context (chat_completion : Trace → ChatRequest → result string ChatResponse).
Context (tool_execute : Trace → string → json → result string json).
(** [start.elapsed()]: the time between two points of the trace. *)
Context (elapsed_ms : Trace → Trace → Z).
Context (messages_from_value : json → result string (list ChatMessage)).
Context (value_display : json → string) (values_to_string : list json → result string string).
Context (f64_display : spec_float → string).
Context (self : ProviderExecutor).

Definition ex_price_for (model : string) : TokenPricing :=
  match ex_pricing self with Some resolve => resolve model | None => flat_fallback end.

(** *** [build_request] *)
Definition judge_prompt : string :=
  "You are a judge evaluating the quality and correctness of responses. Assess the provided answers critically and select the best one, explaining your reasoning.".
Definition reflection_prompt : string :=
  "You are a reflective reviewer. Analyze the previous response, identify potential issues, and provide an improved version.".

Definition system_prompt (node : ExecutionNode) : option string :=
  match x_kind node with
  | LLMJudge => Some judge_prompt
  | _ => match x_strategy node with Reflection => Some reflection_prompt | _ => None end
  end.

Definition newline : string := String.String (ascii_of_nat 10) "".
Definition context_message (parent : Uuid * json) : ChatMessage :=
  mkMessage "user"
    ("Context from parent node " +:+ uuid_to_string parent.1 +:+ ":" +:+ newline
       +:+ "<<BEGIN_UNTRUSTED_CONTEXT>>" +:+ newline +:+ value_display parent.2 +:+ newline
       +:+ "<<END_UNTRUSTED_CONTEXT>>").

Definition takes_context (k : ExecutionNodeKind) : bool :=
  match k with LLMJudge | LLMReview | LLMGenerate => true | _ => false end.

Definition build_request (node : ExecutionNode) (ctx : NodeExecContext)
    : result string ChatRequest :=
  messages ← match x_config node !! "messages" with
    | Some v => map_err (λ e, "node " +:+ uuid_to_string (x_id node)
                  +:+ ": invalid 'messages' config: " +:+ e) (messages_from_value v)
    | None => Ok []
    end;
  let temperature := f64_as_f32 <$> (x_config node !! "temperature" ≫= as_f64) in
  let max_tokens := as_u32 <$> (x_config node !! "max_tokens" ≫= as_u64) in
  let messages :=
    if existsb (λ m, bool_decide (role m = "system")) messages then messages
    else match system_prompt node with
      | Some prompt => mkMessage "system" prompt :: messages
      | None => messages
      end in
  let messages :=
    if takes_context (x_kind node)
    then messages ++ (context_message <$> map_iter (parent_outputs ctx)) else messages in
  Ok (mkChatRequest (x_model node) messages temperature max_tokens).

(** *** [roundtrip] *)
Definition max_tool_iterations (node : ExecutionNode) : Z :=
  clamp 1 32 (default 8 (x_config node !! "max_tool_iterations" ≫= as_u64)).

Definition estimated_node_cost (node : ExecutionNode) : spec_float :=
  default f64_milli (x_config node !! "budget_estimated_cost" ≫= as_f64).
Definition estimated_node_tokens (node : ExecutionNode) : Z :=
  default 0 (x_config node !! "budget_estimated_tokens" ≫= as_u64).
Definition estimate_nanos (f : spec_float) : NanoUSD :=
  match checked_from_decimal_usd (fmt_nine f) with Ok x => x | Err _ => ZERO end.

(** The budget gate: asked before every provider call. *)
Definition check_affordable (node : ExecutionNode) (t : Trace) : result string unit * Trace :=
  match resource_manager self with
  | None => (Ok tt, t)
  | Some can_afford =>
      let cost := estimate_nanos (estimated_node_cost node) in
      let tokens := estimated_node_tokens node in
      let ok := can_afford t cost tokens in
      let t := t ++ [EvAfford (x_id node) cost tokens ok] in
      if ok then (Ok tt, t)
      else (Err ("budget exceeded for node " +:+ uuid_to_string (x_id node)
              +:+ ": cannot afford estimated cost " +:+ f64_display (estimated_node_cost node)
              +:+ " / tokens " +:+ pretty tokens), t)
  end.

Definition usage_cost (model : string) (u : Usage) : NanoUSD :=
  let price := ex_price_for model in
  from_nanos ((prompt_tokens u *^ input_nanos_per_token price)
    +^ (completion_tokens u *^ output_nanos_per_token price))%u64.

Definition record_usage (node : ExecutionNode) (model : string) (response : ChatResponse)
    (t : Trace) : Trace :=
  match resource_manager self, rsp_usage response with
  | Some _, Some u => t ++ [EvRecord (x_id node) (usage_cost model u) (total_tokens u)]
  | _, _ => t
  end.

Definition tool_allowlist (node : ExecutionNode) : list string :=
  match x_config node !! "tool_allowlist" ≫= as_array with
  | Some arr => omap as_str arr
  | None => []
  end.

Definition refused_entry (call : ToolCall) (reason : string) : json :=
  jobject [("name", JString (tc_name call)); ("arguments", tc_arguments call);
           ("executed", JBool false); ("error", JBool true); ("reason", JString reason)].
Definition outcome_entry (call : ToolCall) (outcome : result string json) : json :=
  jobject [("name", JString (tc_name call)); ("arguments", tc_arguments call);
           ("executed", JBool (is_ok outcome)); ("error", JBool (negb (is_ok outcome)));
           ("result", match outcome with Ok v => v | Err e => jobject [("error", JString e)] end)].

(** One tool call: executed only when it is allowlisted and registered. *)
Definition run_call (node : ExecutionNode) (acc : list json * Trace) (call : ToolCall)
    : list json * Trace :=
  let '(results, t) := acc in
  if decide (tc_name call ∉ tool_allowlist node) then
    (results ++ [refused_entry call ("tool '" +:+ tc_name call +:+ "' not allowed for node "
       +:+ uuid_to_string (x_id node) +:+ " (fail closed: allowlist)")], t)
  else if decide (tc_name call ∉ ex_tools self) then
    (results ++ [refused_entry call ("tool '" +:+ tc_name call +:+ "' not registered (node "
       +:+ uuid_to_string (x_id node) +:+ ")")], t)
  else
    (results ++ [outcome_entry call (tool_execute t (tc_name call) (tc_arguments call))],
     t ++ [EvTool (x_id node) (tc_name call) (tc_arguments call)]).

(** The loop [for iteration in 0..=max_iterations], [fuel] iterations to go. *)
Fixpoint tool_loop (fuel : nat) (node : ExecutionNode) (request : ChatRequest)
    (all_results : list json) (t : Trace) : result string ChatResponse * Trace :=
  match fuel with
  | O => (Err ("tool loop terminated unexpectedly for node " +:+ uuid_to_string (x_id node)), t)
  | S fuel =>
      match check_affordable node t with
      | (Err e, t) => (Err e, t)
      | (Ok _, t) =>
          match chat_completion t request with
          | Err e => (Err e, t ++ [EvChat (x_id node) request])
          | Ok response =>
              let t := t ++ [EvChat (x_id node) request] in
              let t := record_usage node (rq_model request) response t in
              if decide (rsp_tool_calls response = []) then
                (Ok (mkChatResponse (rsp_content response) (rsp_usage response)
                       (rsp_tool_calls response) all_results), t)
              else if decide (fuel = O) then
                (Err ("exceeded max_tool_iterations (" +:+ pretty (max_tool_iterations node)
                        +:+ ") for node " +:+ uuid_to_string (x_id node)), t)
              else if negb (allow_auto_exec self) then
                (Err ("provider requested tool call(s) but auto-exec is disabled (node "
                        +:+ uuid_to_string (x_id node) +:+ ")"), t)
              else
                let '(results, t) := foldl (run_call node) ([], t) (rsp_tool_calls response) in
                match values_to_string results with
                | Err e => (Err ("failed to encode tool results: " +:+ e), t)
                | Ok text =>
                    tool_loop fuel node
                      (mkChatRequest (rq_model request)
                         (rq_messages request ++ [mkMessage "tool" text])
                         (rq_temperature request) (rq_max_tokens request))
                      (all_results ++ results) t
                end
          end
      end
  end.

Definition roundtrip (node : ExecutionNode) (request : ChatRequest) (t : Trace)
    : result string ChatResponse * Trace :=
  tool_loop (S (Z.to_nat (max_tool_iterations node))) node request [] t.

(** *** [execute_node] without a subgraph *)
Definition failed_result (msg : string) (ms : Z) : NodeExecutionResult :=
  mkResult (Failed msg) None ms None.

Definition gate_result (node : ExecutionNode) (approved : bool) : NodeExecutionResult :=
  if approved
  then mkResult Succeeded None 0 (Some (jobject [("kind", JString "Gate");
         ("node_id", JString (uuid_to_string (x_id node))); ("approved", JBool true)]))
  else failed_result "policy approval required: gate not approved (fail closed)" 0.

Definition run_gate (node : ExecutionNode) (t : Trace) : NodeExecutionResult * Trace :=
  match approvals self with
  | Some is_approved =>
      let ok := is_approved t (x_id node) in
      (gate_result node ok, t ++ [EvApproval (x_id node) ok])
  | None => (gate_result node false, t)
  end.

Definition is_control_kind (k : ExecutionNodeKind) : bool :=
  match k with
  | XTransform | XConditional | XLoop | XSplit | XJoin | XBarrier => true
  | _ => false
  end.

Definition response_output (node : ExecutionNode) (response : ChatResponse) : json :=
  let output := [("content", JString (rsp_content response));
                 ("node_id", JString (uuid_to_string (x_id node)))] in
  if decide (rsp_tool_results response = []) then jobject output
  else jobject (output ++ [("tool_calls", JArray (rsp_tool_results response))]).

(** The attempts on the primary model: a result, or the last error. *)
Fixpoint attempt_loop (attempts : nat) (node : ExecutionNode) (ctx : NodeExecContext)
    (start : Trace) (last_error : option string) (t : Trace)
    : (NodeExecutionResult + option string) * Trace :=
  match attempts with
  | O => (inr last_error, t)
  | S attempts =>
      match build_request node ctx with
      | Err e => (inl (failed_result e (elapsed_ms start t)), t)
      | Ok request =>
          match roundtrip node request t with
          | (Ok response, t) =>
              (inl (mkResult Succeeded (rsp_usage response) (elapsed_ms start t)
                      (Some (response_output node response))), t)
          | (Err e, t) =>
              let t := if decide (attempts ≠ O ∧ 0 < backoff_ms (x_retry_policy node))
                       then t ++ [EvSleep (x_id node) (backoff_ms (x_retry_policy node))] else t in
              attempt_loop attempts node ctx start (Some e) t
          end
      end
  end.

Definition final_failure (start : Trace) (last_error : option string) (t : Trace)
    : NodeExecutionResult * Trace :=
  (failed_result (default "provider error" last_error) (elapsed_ms start t), t).

Definition run_fallback (node : ExecutionNode) (ctx : NodeExecContext) (start : Trace)
    (last_error : option string) (t : Trace) : NodeExecutionResult * Trace :=
  match x_fallback node with
  | None => final_failure start last_error t
  | Some fallback =>
      match build_request node ctx with
      | Err e => (failed_result e (elapsed_ms start t), t)
      | Ok request =>
          match roundtrip node (mkChatRequest (fb_model fallback) (rq_messages request)
                  (rq_temperature request) (rq_max_tokens request)) t with
          | (Ok response, t) =>
              (mkResult Succeeded (rsp_usage response) (elapsed_ms start t)
                 (Some (jobject [("content", JString (rsp_content response));
                    ("node_id", JString (uuid_to_string (x_id node)));
                    ("fallback_model", JString (fb_model fallback))])), t)
          | (Err e, t) => final_failure start (Some e) t
          end
      end
  end.

(** [max_retries.saturating_add(1)] on [u32]. *)
Definition attempts_of (node : ExecutionNode) : Z :=
  Z.min (max_retries (x_retry_policy node) + 1) u32_max.

Definition execute_plain (node : ExecutionNode) (ctx : NodeExecContext) (t : Trace)
    : NodeExecutionResult * Trace :=
  if decide (x_kind node = XGate) then run_gate node t
  else if is_control_kind (x_kind node) then
    (mkResult Succeeded None 0 (Some (jobject [("kind", JString (node_kind_debug (x_kind node)));
       ("node_id", JString (uuid_to_string (x_id node)))])), t)
  else match attempt_loop (Z.to_nat (attempts_of node)) node ctx t None t with
    | (inl r, t') => (r, t')
    | (inr last_error, t') => run_fallback node ctx t last_error t'
    end.

(** *** [execute_subgraph] *)
Record SubRun := mkSubRun {
  sr_outputs : gmap Uuid json;
  sr_completed : gset Uuid;
  sr_prompt : Z;
  sr_completion : Z;
  sr_trace : Trace;
}.
(** A node of the subgraph with the function that executes it. *)
Definition SubNode : Type :=
  ExecutionNode * (NodeExecContext → Trace → NodeExecutionResult * Trace).

Definition sub_ready (edges : list ExecutionEdge) (done : gset Uuid) (id : Uuid) : Prop :=
  id ∉ done ∧ Forall (λ e, x_from e ∈ done) (filter (λ e, x_to e = id) edges).
#[global] Instance sub_ready_dec edges done id : Decision (sub_ready edges done id) := _.

Definition sub_context (edges : list ExecutionEdge) (ctx : NodeExecContext) (id : Uuid)
    (outs : gmap Uuid json) : NodeExecContext :=
  mkCtx (foldl (λ m e, if decide (x_to e = id) then
           match outs !! x_from e with Some o => <[x_from e := o]> m | None => m end else m)
           (parent_outputs ctx) edges) outs.

Definition run_sub_node (edges : list ExecutionEdge) (ctx : NodeExecContext) (start : Trace)
    (st : SubRun) (sub : SubNode) : result (NodeExecutionResult * Trace) SubRun :=
  let id := x_id sub.1 in
  let '(r, t) := sub.2 (sub_context edges ctx id (sr_outputs st)) (sr_trace st) in
  match r_state r with
  | Succeeded =>
      let outs := match r_output r with Some o => <[id := o]> (sr_outputs st) | None => sr_outputs st end in
      let '(p, c) := match r_usage r with
        | Some u => (u64_wrapping_add (sr_prompt st) (prompt_tokens u),
                     u64_wrapping_add (sr_completion st) (completion_tokens u))
        | None => (sr_prompt st, sr_completion st)
        end in
      Ok (mkSubRun outs ({[id]} ∪ sr_completed st) p c t)
  | Failed msg =>
      Err (failed_result ("subgraph node " +:+ uuid_to_string id +:+ " failed: " +:+ msg)
             (elapsed_ms start t), t)
  | _ => Ok (mkSubRun (sr_outputs st) ({[id]} ∪ sr_completed st) (sr_prompt st) (sr_completion st) t)
  end.

(** Every turn completes a node or returns, so one turn per node and the
    final test are enough. *)
Fixpoint sub_loop (fuel : nat) (subs : list SubNode) (edges : list ExecutionEdge)
    (ctx : NodeExecContext) (start : Trace) (st : SubRun)
    : result (NodeExecutionResult * Trace) SubRun :=
  match fuel with
  | O => Ok st
  | S fuel =>
      if (size (sr_completed st) <? length subs)%nat then
        let ready := filter (λ sub : SubNode, sub_ready edges (sr_completed st) (x_id sub.1)) subs in
        match ready with
        | [] => Err (failed_result "subgraph cycle or dangling edge" (elapsed_ms start (sr_trace st)),
                     sr_trace st)
        | _ :: _ => st ← try_fold (run_sub_node edges ctx start) st ready;
                    sub_loop fuel subs edges ctx start st
        end
      else Ok st
  end.

Definition sub_result (id exit_id : Uuid) (start : Trace) (st : SubRun) : NodeExecutionResult :=
  let exit_output := default (jobject [("subgraph", JString "complete")]) (sr_outputs st !! exit_id) in
  mkResult Succeeded
    (Some (mkUsage (Z.min (sr_prompt st) u32_max) (Z.min (sr_completion st) u32_max)
             (Z.min (sr_prompt st +^ sr_completion st)%u64 u32_max)))
    (elapsed_ms start (sr_trace st))
    (Some (jobject [("subgraph", JBool true); ("exit_node_id", JString (uuid_to_string exit_id));
       ("exit_output", exit_output); ("node_id", JString (uuid_to_string id))])).

Definition execute_subgraph (id : Uuid) (subs : list SubNode) (edges : list ExecutionEdge)
    (exit_id : Uuid) (ctx : NodeExecContext) (t : Trace) : NodeExecutionResult * Trace :=
  match sub_loop (S (length subs)) subs edges ctx t (mkSubRun ∅ ∅ 0 0 t) with
  | Err rt => rt
  | Ok st => (sub_result id exit_id t st, sr_trace st)
  end.

(** *** [Executor::execute_node] *)
Fixpoint execute_node (node : ExecutionNode) (ctx : NodeExecContext) (t : Trace) {struct node}
    : NodeExecutionResult * Trace :=
  match node with
  | mkExecNode id _ _ _ _ _ _ (Some (mkSubgraph ns es _ exit_id)) =>
      execute_subgraph id (map (λ n, (n, execute_node n)) ns) es exit_id ctx t
  | _ => execute_plain node ctx t
  end.
End executor.

(** ** The approval store and the engine *)
Definition InMemoryApprovalStore : Type := gset Uuid.
Definition approve (gate : Uuid) (s : InMemoryApprovalStore) : InMemoryApprovalStore := {[gate]} ∪ s.
Definition approve_target (new_v5 : Uuid → string → Uuid) (target : Uuid)
    (s : InMemoryApprovalStore) : InMemoryApprovalStore :=
  approve (new_v5 target "policy_approval_gate") s.
Definition store_is_approved (s : InMemoryApprovalStore) (_ : Trace) (gate : Uuid) : bool :=
  bool_decide (gate ∈ s).
Definition register_tool (name : string) (tools : gset string) : gset string := {[name]} ∪ tools.
Definition mock_completion (prefix : string) (_ : Trace) (r : ChatRequest)
    : result string ChatResponse :=
  Ok (mkChatResponse (prefix +:+ " for model " +:+ rq_model r) (Some (mkUsage 50 25 75)) [] []).

Record RuntimeEngine := mkRuntimeEngine {
  en_scheduler : DefaultScheduler;
  en_executor : ProviderExecutor;
}.
Definition engine_new : RuntimeEngine := mkRuntimeEngine scheduler_new executor_new.
Definition engine_with_max_concurrent (n : nat) : RuntimeEngine :=
  mkRuntimeEngine (with_max_concurrent n) executor_new.
Definition engine_with (f : ProviderExecutor → ProviderExecutor) (e : RuntimeEngine) : RuntimeEngine :=
  mkRuntimeEngine (en_scheduler e) (f (en_executor e)).
Definition with_tool (name : string) : RuntimeEngine → RuntimeEngine :=
  engine_with (λ x, mkExecutor (register_tool name (ex_tools x)) (allow_auto_exec x)
    (resource_manager x) (ex_pricing x) (approvals x)).
Definition with_allow_auto_exec (allow : bool) : RuntimeEngine → RuntimeEngine :=
  engine_with (λ x, mkExecutor (ex_tools x) allow (resource_manager x) (ex_pricing x) (approvals x)).
Definition with_resource_manager (rm : Trace → NanoUSD → Z → bool) : RuntimeEngine → RuntimeEngine :=
  engine_with (λ x, mkExecutor (ex_tools x) (allow_auto_exec x) (Some rm) (ex_pricing x) (approvals x)).
Definition engine_with_pricing (resolver : string → TokenPricing) : RuntimeEngine → RuntimeEngine :=
  engine_with (λ x, mkExecutor (ex_tools x) (allow_auto_exec x) (resource_manager x)
    (Some resolver) (approvals x)).
Definition with_approvals (ap : Trace → Uuid → bool) : RuntimeEngine → RuntimeEngine :=
  engine_with (λ x, mkExecutor (ex_tools x) (allow_auto_exec x) (resource_manager x)
    (ex_pricing x) (Some ap)).
