(* ===== verification/RuntimeProps.v ===== *)
(** * The executor's discipline

    Every call the executor makes outside is a step of [leaf_step]: provider
    calls behind the budget gate and metered, tools only when enabled,
    allowlisted and registered ([tools_fail_closed], [calls_are_metered]). The
    number of calls of a node is bounded ([provider_calls_bounded]), gates
    fail closed. Subgraphs are the subject of SubgraphRun. *)
From S2P Require Import Prelude Text Json Money Budget ExecTypes Graphs Kahn Strategy WorkQueue Scheduler DagQueue SchedulerProps Runtime.
From Stdlib Require Import Floats.SpecFloat.
Open Scope stdpp_scope.
Open Scope Z_scope.

(** ** Induction on nodes with subgraphs *)
Definition sub_nodes_of (n : ExecutionNode) : list ExecutionNode :=
  match x_subgraph n with Some g => sub_nodes g | None => [] end.

Section node_ind.
Context (P : ExecutionNode → Prop)
  (Pnode : ∀ n, Forall P (sub_nodes_of n) → P n).

Fixpoint execution_node_ind (n : ExecutionNode) : P n :=
  match n with
  | mkExecNode id k s m r f c sub =>
      Pnode (mkExecNode id k s m r f c sub)
        match sub return Forall P (sub_nodes_of (mkExecNode id k s m r f c sub)) with
        | None => Forall_nil_2 _
        | Some (mkSubgraph ns es en ex) =>
            (fix go l : Forall P l := match l with
              | [] => Forall_nil_2 _
              | m :: l => Forall_cons_2 _ _ _ (execution_node_ind m) (go l) end) ns
        end
  end.
End node_ind.

(** The nodes of the tree below [n] that have no subgraph of their own. *)
Inductive leaf_of : ExecutionNode → ExecutionNode → Prop :=
| leaf_self n : x_subgraph n = None → leaf_of n n
| leaf_sub n m l : m ∈ sub_nodes_of n → leaf_of m l → leaf_of n l.

Section executor.
Context `{!HashIter N}.
Context (chat_completion : Trace → ChatRequest → result string ChatResponse).
Context (tool_execute : Trace → string → json → result string json).
Context (elapsed_ms : Trace → Trace → Z).
Context (messages_from_value : json → result string (list ChatMessage)).
Context (value_display : json → string) (values_to_string : list json → result string string).
Context (f64_display : spec_float → string).
Context (self : ProviderExecutor).

Notation exec := (execute_node chat_completion tool_execute elapsed_ms messages_from_value
  value_display values_to_string f64_display self).
Notation exec_plain := (execute_plain chat_completion tool_execute elapsed_ms messages_from_value
  value_display values_to_string f64_display self).
Notation loop := (tool_loop chat_completion tool_execute values_to_string f64_display self).
Notation trip := (roundtrip chat_completion tool_execute values_to_string f64_display self).
Notation attempts := (attempt_loop chat_completion tool_execute elapsed_ms messages_from_value
  value_display values_to_string f64_display self).
Notation fallback := (run_fallback chat_completion tool_execute elapsed_ms messages_from_value
  value_display values_to_string f64_display self).

(** ** The steps of a leaf *)

(** What the budget gate adds to the trace before an admitted call. *)
Definition gate_events (n : ExecutionNode) : list Event :=
  match resource_manager self with
  | Some _ => [EvAfford (x_id n) (estimate_nanos (estimated_node_cost n)) (estimated_node_tokens n) true]
  | None => []
  end.
Definition admitted (n : ExecutionNode) (t : Trace) : Prop :=
  ∀ rm, resource_manager self = Some rm →
    rm t (estimate_nanos (estimated_node_cost n)) (estimated_node_tokens n) = true.
(** What metering adds after a call. *)
Definition meter_events (n : ExecutionNode) (r : ChatRequest) (t : Trace) : list Event :=
  match resource_manager self, chat_completion t r with
  | Some _, Ok resp =>
      match rsp_usage resp with
      | Some u => [EvRecord (x_id n) (usage_cost self (rq_model r) u) (total_tokens u)]
      | None => []
      end
  | _, _ => []
  end.

(** The kinds that call the provider. *)
Definition calls_model (k : ExecutionNodeKind) : bool := negb (bool_decide (k = XGate)) && negb (is_control_kind k).

Inductive leaf_step (n : ExecutionNode) : Trace → Trace → Prop :=
| step_refused t rm :
    resource_manager self = Some rm →
    rm t (estimate_nanos (estimated_node_cost n)) (estimated_node_tokens n) = false →
    leaf_step n t (t ++ [EvAfford (x_id n) (estimate_nanos (estimated_node_cost n))
                           (estimated_node_tokens n) false])
| step_chat t r :
    admitted n t →
    leaf_step n t (t ++ gate_events n ++ [EvChat (x_id n) r] ++ meter_events n r (t ++ gate_events n))
| step_tool t name args :
    calls_model (x_kind n) = true → allow_auto_exec self = true → name ∈ tool_allowlist n →
    name ∈ ex_tools self → leaf_step n t (t ++ [EvTool (x_id n) name args])
| step_approval t ok is_approved :
    approvals self = Some is_approved → is_approved t (x_id n) = ok →
    leaf_step n t (t ++ [EvApproval (x_id n) ok])
| step_sleep t ms : leaf_step n t (t ++ [EvSleep (x_id n) ms]).

Lemma run_calls_steps n results t calls :
  calls_model (x_kind n) = true → allow_auto_exec self = true →
  rtc (leaf_step n) t (foldl (run_call tool_execute self n) (results, t) calls).2.
Proof.
  intros Hk Ha. revert results t. induction calls as [|c calls IH]; intros results t; csimpl; [apply rtc_refl|].
  case_decide as Hal; [apply IH|]. case_decide as Ht; [apply IH|].
  eapply rtc_l; [|apply IH]. apply step_tool; [done|done|by destruct (decide (tc_name c ∈ tool_allowlist n))|].
  by destruct (decide (tc_name c ∈ ex_tools self)).
Qed.

Lemma check_affordable_step n t :
  match check_affordable f64_display self n t with
  | (Ok _, t') => admitted n t ∧ t' = t ++ gate_events n
  | (Err _, t') => leaf_step n t t'
  end.
Proof.
  unfold check_affordable, admitted, gate_events.
  destruct (resource_manager self) as [rm|] eqn:Hrm; [|by rewrite app_nil_r].
  destruct (rm t _ _) eqn:Ha; [|by eapply step_refused]. split; [|done]. by intros rm' [= <-].
Qed.

Lemma chat_step n t r :
  admitted n t →
  match chat_completion (t ++ gate_events n) r with
  | Err _ => leaf_step n t ((t ++ gate_events n) ++ [EvChat (x_id n) r])
  | Ok resp => leaf_step n t
      (record_usage self n (rq_model r) resp ((t ++ gate_events n) ++ [EvChat (x_id n) r]))
  end.
Proof.
  intros Ha. pose proof (step_chat n t r Ha) as Hs. revert Hs. unfold meter_events, record_usage.
  destruct (chat_completion _ r) as [resp|]; [|by destruct (resource_manager self); rewrite app_assoc].
  destruct (resource_manager self) as [rm|]; [|by rewrite app_assoc].
  destruct (rsp_usage resp) as [u|]; rewrite app_assoc; [by rewrite app_assoc|done].
Qed.

Lemma tool_loop_steps fuel n r acc t :
  calls_model (x_kind n) = true → rtc (leaf_step n) t (loop fuel n r acc t).2.
Proof.
  intros Hk. revert r acc t. induction fuel as [|fuel IH]; intros r acc t; [apply rtc_refl|].
  cbn [tool_loop]. pose proof (check_affordable_step n t) as Hg.
  destruct (check_affordable _ _ n t) as [[[]|e] t1]; [|by apply rtc_once].
  destruct Hg as [Ha ->]. pose proof (chat_step n t r Ha) as Hc.
  destruct (chat_completion _ r) as [resp|e]; [|by apply rtc_once].
  eapply rtc_l; [apply Hc|]. clear Hc. set (t2 := record_usage _ _ _ _ _).
  case_decide; [apply rtc_refl|]. case_decide; [apply rtc_refl|].
  destruct (allow_auto_exec self) eqn:Hal; [|apply rtc_refl]. cbn [negb].
  pose proof (run_calls_steps n [] t2 (rsp_tool_calls resp) Hk Hal) as Hr.
  destruct (foldl _ _ _) as [results t3]; csimpl in Hr.
  destruct (values_to_string results); [|done]. etrans; [apply Hr|apply IH].
Qed.

Lemma roundtrip_steps n r t : calls_model (x_kind n) = true → rtc (leaf_step n) t (trip n r t).2.
Proof. apply tool_loop_steps. Qed.

Lemma attempts_steps k n ctx start last t :
  calls_model (x_kind n) = true → rtc (leaf_step n) t (attempts k n ctx start last t).2.
Proof.
  intros Hk. revert last t. induction k as [|k IH]; intros last t; [apply rtc_refl|]. cbn [attempt_loop].
  destruct (build_request _ _ n ctx) as [r|]; [|apply rtc_refl].
  pose proof (roundtrip_steps n r t Hk) as Hr. destruct (roundtrip _ _ _ _ _ n r t) as [[resp|e] t1]; [done|].
  etrans; [apply Hr|]. csimpl. case_decide; [|apply IH]. eapply rtc_l; [apply step_sleep|apply IH].
Qed.

Lemma fallback_steps n ctx start last t :
  calls_model (x_kind n) = true → rtc (leaf_step n) t (fallback n ctx start last t).2.
Proof.
  intros Hk. unfold run_fallback. destruct (x_fallback n) as [fb|]; [|apply rtc_refl].
  destruct (build_request _ _ n ctx) as [r|]; [|apply rtc_refl].
  set (r' := mkChatRequest _ _ _ _). pose proof (roundtrip_steps n r' t Hk) as Hr.
  by destruct (roundtrip _ _ _ _ _ n r' t) as [[resp|e] t1].
Qed.

Lemma plain_steps n ctx t : rtc (leaf_step n) t (exec_plain n ctx t).2.
Proof.
  unfold execute_plain. case_decide as Hg.
  { unfold run_gate. destruct (approvals self) as [ap|] eqn:Ha; [|apply rtc_refl].
    apply rtc_once. by eapply step_approval. }
  destruct (is_control_kind (x_kind n)) eqn:Hc; [apply rtc_refl|].
  assert (calls_model (x_kind n) = true) as Hk by (unfold calls_model; by rewrite bool_decide_false, Hc).
  pose proof (attempts_steps (Z.to_nat (attempts_of n)) n ctx t None t Hk) as Ha.
  destruct (attempt_loop _ _ _ _ _ _ _ _ _ n ctx t None t) as [[r|last] t1]; [done|].
  etrans; [apply Ha|by apply fallback_steps].
Qed.

(** A step by some leaf of the tree. *)
Definition tree_step (n : ExecutionNode) (t t' : Trace) : Prop :=
  ∃ m, leaf_of n m ∧ leaf_step m t t'.

Lemma tree_step_sub n m t t' : m ∈ sub_nodes_of n → tree_step m t t' → tree_step n t t'.
Proof. intros Hm (l & Hl & Hs). exists l. split; [by eapply leaf_sub|done]. Qed.

Lemma run_sub_node_trace edges ctx start st (sub : SubNode) :
  let t' := (sub.2 (sub_context edges ctx (x_id sub.1) (sr_outputs st)) (sr_trace st)).2 in
  match run_sub_node elapsed_ms edges ctx start st sub with
  | Ok st' => sr_trace st' = t'
  | Err (_, t'') => t'' = t'
  end.
Proof.
  unfold run_sub_node. destruct (sub.2 _ _) as [r t']; csimpl.
  destruct (r_state r); try done. by destruct (r_usage r).
Qed.

Lemma run_sub_nodes_steps n edges ctx start st subs :
  (∀ sub, sub ∈ subs → ∀ ctx t, rtc (tree_step n) t (sub.2 ctx t).2) →
  match try_fold (run_sub_node elapsed_ms edges ctx start) st subs with
  | Ok st' => rtc (tree_step n) (sr_trace st) (sr_trace st')
  | Err (_, t') => rtc (tree_step n) (sr_trace st) t'
  end.
Proof.
  intros Hsubs. revert st. induction subs as [|sub subs IH]; intros st; [apply rtc_refl|].
  cbn [try_fold]. specialize (IH (λ s Hin, Hsubs s (list_elem_of_further _ _ _ Hin))).
  pose proof (Hsubs sub (list_elem_of_here _ _) (sub_context edges ctx (x_id sub.1) (sr_outputs st)) (sr_trace st)) as Hs.
  pose proof (run_sub_node_trace edges ctx start st sub) as Ht.
  destruct (run_sub_node _ _ _ _ st sub) as [st1|[r t1]]; csimpl in *; [|by subst].
  specialize (IH st1). rewrite <- Ht in Hs.
  destruct (try_fold _ st1 subs) as [st'|[r' t']]; (etrans; [apply Hs|apply IH]).
Qed.

Lemma sub_loop_steps n fuel subs edges ctx start st :
  (∀ sub, sub ∈ subs → ∀ ctx t, rtc (tree_step n) t (sub.2 ctx t).2) →
  match sub_loop elapsed_ms fuel subs edges ctx start st with
  | Ok st' => rtc (tree_step n) (sr_trace st) (sr_trace st')
  | Err (_, t') => rtc (tree_step n) (sr_trace st) t'
  end.
Proof.
  intros Hsubs. revert st. induction fuel as [|fuel IH]; intros st; [apply rtc_refl|].
  cbn [sub_loop]. destruct (size _ <? length subs)%nat; [|apply rtc_refl].
  assert (Hin : ∀ sub, sub ∈ filter (λ sub : SubNode, sub_ready edges (sr_completed st) (x_id sub.1)) subs →
    sub ∈ subs) by (by intros sub [_ ?]%list_elem_of_filter).
  destruct (filter _ subs) as [|s0 rest]; [apply rtc_refl|].
  pose proof (run_sub_nodes_steps n edges ctx start st (s0 :: rest) (λ s H, Hsubs s (Hin s H))) as Hr.
  destruct (try_fold _ st (s0 :: rest)) as [st1|[r t1]]; csimpl; [|done].
  specialize (IH st1). destruct (sub_loop _ _ _ _ _ _ st1) as [st'|[r t']]; (etrans; [apply Hr|apply IH]).
Qed.

Lemma execute_node_unfold n ctx t :
  exec n ctx t =
  match x_subgraph n with
  | Some g => execute_subgraph elapsed_ms (x_id n) ((λ m, (m, exec m)) <$> sub_nodes g)
                (sub_edges g) (exit_node_id g) ctx t
  | None => exec_plain n ctx t
  end.
Proof. by destruct n as [? ? ? ? ? ? ? [[]|]]. Qed.

(** Everything the executor does is a sequence of leaf steps. *)
Lemma execute_node_steps n ctx t : rtc (tree_step n) t (exec n ctx t).2.
Proof.
  revert ctx t. induction n as [n IH] using execution_node_ind. intros ctx t.
  rewrite execute_node_unfold. unfold sub_nodes_of in IH.
  destruct (x_subgraph n) as [g|] eqn:Hg.
  - unfold execute_subgraph.
    pose proof (sub_loop_steps n (S (length ((λ m, (m, exec m)) <$> sub_nodes g)))
      ((λ m, (m, exec m)) <$> sub_nodes g) (sub_edges g) ctx t (mkSubRun ∅ ∅ 0 0 t)) as Hs.
    destruct (sub_loop _ _ _ _ _ _ _) as [st|[r t']]; csimpl in *; apply Hs;
      intros sub (m & -> & Hm)%list_elem_of_fmap ctx' t''; csimpl;
      (eapply rtc_subrel; [|by apply (proj1 (Forall_forall _ _) IH)]);
      intros x y; apply tree_step_sub; unfold sub_nodes_of; by rewrite Hg.
  - eapply rtc_subrel; [|apply plain_steps]. intros x y Hs. exists n. split; [by apply leaf_self|done].
Qed.

(** ** Tools *)
Definition tool_event_ok (n : ExecutionNode) (e : Event) : Prop :=
  match e with
  | EvTool id name _ => allow_auto_exec self = true ∧ name ∈ ex_tools self ∧
      ∃ m, leaf_of n m ∧ x_id m = id ∧ calls_model (x_kind m) = true ∧ name ∈ tool_allowlist m
  | _ => True
  end.

Lemma tree_step_tools n t t' :
  tree_step n t t' → ∃ evs, t' = t ++ evs ∧ Forall (tool_event_ok n) evs.
Proof.
  intros (m & Hm & Hs). destruct Hs as [t rm _ _|t r _|t name args Hk Ha Hal Ht|t ok ap _ _|t ms];
    eexists; (split; [done|]); [by repeat constructor| | |by repeat constructor..].
  - apply Forall_app. split; [unfold gate_events; destruct (resource_manager self); by repeat constructor|].
    apply Forall_cons. split; [done|]. unfold meter_events.
    destruct (resource_manager self); [|by constructor].
    destruct (chat_completion (t ++ gate_events m) r) as [resp|]; [|by constructor].
    destruct (rsp_usage resp); by repeat constructor.
  - apply Forall_singleton. split_and!; [done..|]. by exists m.
Qed.

Lemma tree_steps_tools n t t' :
  rtc (tree_step n) t t' → ∃ evs, t' = t ++ evs ∧ Forall (tool_event_ok n) evs.
Proof.
  induction 1 as [t|t t1 t2 Hst _ IH].
  - exists []. by rewrite app_nil_r.
  - destruct (tree_step_tools n t t1 Hst) as (e1 & -> & H1). destruct IH as (e2 & -> & H2).
    exists (e1 ++ e2). rewrite app_assoc. split; [done|]. by apply Forall_app.
Qed.

(** C13. Tools fail closed. Whatever the provider answers and however the node is
    nested, a tool runs only if automatic execution is enabled, the tool is
    registered, and the node the call is made for is a model node that has the
    tool on its allowlist. *)
Theorem tools_fail_closed n ctx t :
  ∃ evs, (exec n ctx t).2 = t ++ evs ∧ Forall (tool_event_ok n) evs.
Proof. apply tree_steps_tools, execute_node_steps. Qed.

(** ** Metering *)

(** In the events [evs] that follow [t], a provider call comes right after an
    affordability check that succeeded, and if it reports usage the priced
    usage is recorded right after it. *)
Definition metered (t : Trace) (evs : list Event) : Prop := ∀ i id r,
  evs !! i = Some (EvChat id r) →
  (∃ j cost tokens, i = S j ∧ evs !! j = Some (EvAfford id cost tokens true)) ∧
  ∀ resp u, chat_completion (t ++ take i evs) r = Ok resp → rsp_usage resp = Some u →
    evs !! S i = Some (EvRecord id (usage_cost self (rq_model r) u) (total_tokens u)).

Lemma metered_app t e1 e2 : metered t e1 → metered (t ++ e1) e2 → metered t (e1 ++ e2).
Proof.
  intros H1 H2 i id r Hi. destruct (decide (i < length e1)%nat) as [Hlt|Hge].
  - rewrite lookup_app_l in Hi by done. destruct (H1 i id r Hi) as [(j & c & k & -> & Hj) Hu]. split.
    + exists j, c, k. split; [done|]. by apply lookup_app_l_Some.
    + intros resp u Hr Hus. rewrite take_app_le in Hr by lia. by apply lookup_app_l_Some, Hu with resp.
  - rewrite lookup_app_r in Hi by lia. destruct (H2 _ id r Hi) as [(j & c & k & Heq & Hj) Hu]. split.
    + exists (length e1 + j)%nat, c, k. split; [lia|]. rewrite lookup_app_r by lia.
      by replace (length e1 + j - length e1)%nat with j by lia.
    + intros resp u Hr Hus. rewrite take_app_ge, app_assoc in Hr by lia.
      specialize (Hu resp u Hr Hus). rewrite lookup_app_r by lia.
      by replace (S i - length e1)%nat with (S (i - length e1)) by lia.
Qed.

Lemma tree_step_metered n t t' :
  is_Some (resource_manager self) → tree_step n t t' → ∃ evs, t' = t ++ evs ∧ metered t evs.
Proof.
  intros [rm Hrm] (m & Hm & Hs). destruct Hs as [| t r Ha | | |]; eexists; (split; [done|]);
    try (intros i id r' Hi; destruct i as [|[]]; simplify_eq/=; done).
  unfold gate_events, meter_events. rewrite Hrm. csimpl.
  intros i id r' Hi. destruct i as [|[|i]]; simplify_eq/=.
  - split; [by exists 0%nat; eauto|]. intros resp u Hr Hu. by rewrite Hr, Hu.
  - exfalso. destruct (chat_completion _ r) as [resp|]; [|done].
    destruct (rsp_usage resp); [|done]. by destruct i.
Qed.

(** C27. With a resource manager attached, every provider call is preceded by an
    affordability check that succeeded, and the usage it reports is recorded
    at the model's price right after it, at every depth of nesting and on
    every retry. *)
Theorem calls_are_metered n ctx t :
  is_Some (resource_manager self) →
  ∃ evs, (exec n ctx t).2 = t ++ evs ∧ metered t evs.
Proof.
  intros Hrm. pose proof (execute_node_steps n ctx t) as Hs. revert Hs. generalize (exec n ctx t).2.
  intros t' Hs. induction Hs as [t|t t1 t2 Hst _ IH].
  - exists []. rewrite app_nil_r. by split.
  - destruct (tree_step_metered n t t1 Hrm Hst) as (e1 & -> & H1). destruct IH as (e2 & -> & H2).
    exists (e1 ++ e2). rewrite app_assoc. split; [done|]. by apply metered_app.
Qed.

(** ** How many calls *)
Definition is_chat (e : Event) : bool := match e with EvChat _ _ => true | _ => false end.
Definition chats (t : Trace) : nat := length (filter (λ e, is_chat e = true) t).

Lemma chats_app t t' : chats (t ++ t') = (chats t + chats t')%nat.
Proof. unfold chats. by rewrite filter_app, length_app. Qed.

Lemma run_calls_chats n acc calls :
  chats (foldl (run_call tool_execute self n) acc calls).2 = chats acc.2.
Proof.
  revert acc. induction calls as [|c calls IH]; intros [results t]; csimpl; [done|].
  repeat case_decide; rewrite IH; csimpl; [done..|]. rewrite chats_app. unfold chats at 2; csimpl. lia.
Qed.

Lemma check_affordable_chats n t : chats (check_affordable f64_display self n t).2 = chats t.
Proof.
  unfold check_affordable. destruct (resource_manager self) as [rm|]; [|done].
  destruct (rm _ _ _); csimpl; rewrite chats_app; unfold chats at 2; csimpl; lia.
Qed.

Lemma record_usage_chats n m resp t : chats (record_usage self n m resp t) = chats t.
Proof.
  unfold record_usage. destruct (resource_manager self), (rsp_usage resp); try done.
  rewrite chats_app. unfold chats at 2; csimpl. lia.
Qed.

Lemma tool_loop_chats fuel n r acc t : (chats (loop fuel n r acc t).2 <= chats t + fuel)%nat.
Proof.
  revert r acc t. induction fuel as [|fuel IH]; intros r acc t; [csimpl; lia|]. cbn [tool_loop].
  pose proof (check_affordable_chats n t) as Hc.
  destruct (check_affordable _ _ n t) as [[[]|e] t1]; csimpl in Hc; [|csimpl; lia].
  assert (H1 : chats (t1 ++ [EvChat (x_id n) r]) = S (chats t)).
  { rewrite chats_app, Hc. unfold chats at 2; csimpl. lia. }
  destruct (chat_completion t1 r) as [resp|]; [|csimpl; lia].
  pose proof (record_usage_chats n (rq_model r) resp (t1 ++ [EvChat (x_id n) r])) as H2.
  set (t2 := record_usage _ _ _ _ _) in *.
  case_decide; [csimpl; lia|]. case_decide; [csimpl; lia|].
  destruct (allow_auto_exec self); [|csimpl; lia]. cbn [negb].
  pose proof (run_calls_chats n ([], t2) (rsp_tool_calls resp)) as H3.
  destruct (foldl _ _ _) as [results t3]; csimpl in H3.
  destruct (values_to_string results); [|csimpl; lia].
  specialize (IH (mkChatRequest (rq_model r) (rq_messages r ++ [mkMessage "tool" a])
    (rq_temperature r) (rq_max_tokens r)) (acc ++ results) t3). lia.
Qed.

(** The provider calls of one round trip. *)
Definition trip_bound (n : ExecutionNode) : nat := S (Z.to_nat (max_tool_iterations n)).

Lemma roundtrip_chats n r t : (chats (trip n r t).2 <= chats t + trip_bound n)%nat.
Proof. apply tool_loop_chats. Qed.

Lemma attempts_chats k n ctx start last t :
  (chats (attempts k n ctx start last t).2 <= chats t + k * trip_bound n)%nat.
Proof.
  revert last t. induction k as [|k IH]; intros last t; cbn [attempt_loop]; [cbn [snd]; nia|].
  destruct (build_request _ _ n ctx) as [r|]; [|cbn [snd]; nia].
  pose proof (roundtrip_chats n r t) as Hr.
  destruct (roundtrip _ _ _ _ _ n r t) as [[resp|e] t1]; cbn [snd] in *; [nia|].
  case_decide.
  - specialize (IH (Some e) (t1 ++ [EvSleep (x_id n) (backoff_ms (x_retry_policy n))])).
    rewrite chats_app in IH. change (chats [EvSleep (x_id n) (backoff_ms (x_retry_policy n))]) with 0%nat in IH. nia.
  - specialize (IH (Some e) t1). nia.
Qed.

Lemma plain_chats n ctx t :
  (chats (exec_plain n ctx t).2 <=
   chats t + (Z.to_nat (attempts_of n) + if x_fallback n then 1 else 0) * trip_bound n)%nat.
Proof.
  unfold execute_plain. case_decide.
  { unfold run_gate. destruct (approvals self) as [ap|]; [|cbn [snd]; nia].
    csimpl. rewrite chats_app. change (chats [_]) with 0%nat. nia. }
  destruct (is_control_kind (x_kind n)); [cbn [snd]; nia|].
  pose proof (attempts_chats (Z.to_nat (attempts_of n)) n ctx t None t) as Ha.
  destruct (attempt_loop _ _ _ _ _ _ _ _ _ n ctx t None t) as [[r|last] t1]; cbn [snd] in *; [nia|].
  unfold run_fallback, final_failure. destruct (x_fallback n) as [fb|]; [|cbn [snd]; nia].
  destruct (build_request _ _ n ctx) as [r|]; [|cbn [snd]; nia].
  set (r' := mkChatRequest _ _ _ _). pose proof (roundtrip_chats n r' t1) as Hr.
  destruct (roundtrip _ _ _ _ _ n r' t1) as [[resp|e] t2]; cbn [snd] in *; nia.
Qed.

(** A node without a subgraph calls its provider at most 33 times per attempt:
    the tool loop runs at most [max_tool_iterations + 1 <= 33] times, for each
    of the [max_retries + 1] attempts and the one on the fallback model. *)
Theorem provider_calls_bounded n ctx t :
  x_subgraph n = None → 0 ≤ max_retries (x_retry_policy n) →
  Z.of_nat (chats (exec n ctx t).2) ≤
  Z.of_nat (chats t) + (max_retries (x_retry_policy n) + 2) * 33.
Proof.
  intros Hn Hr. rewrite execute_node_unfold, Hn. pose proof (plain_chats n ctx t) as Hc.
  assert (1 ≤ Z.of_nat (trip_bound n) ≤ 33).
  { unfold trip_bound, max_tool_iterations, clamp. lia. }
  assert (Z.of_nat (Z.to_nat (attempts_of n)) ≤ max_retries (x_retry_policy n) + 1).
  { unfold attempts_of, u32_max. lia. }
  destruct (x_fallback n); nia.
Qed.

(** ** Verdicts *)
Lemma plain_verdict n ctx t :
  r_state (exec_plain n ctx t).1 = Succeeded ∨ ∃ msg, r_state (exec_plain n ctx t).1 = Failed msg.
Proof.
  unfold execute_plain. case_decide.
  { unfold run_gate, gate_result. destruct (approvals self) as [ap|]; csimpl; [|eauto].
    destruct (ap t (x_id n)); csimpl; eauto. }
  destruct (is_control_kind (x_kind n)); [by left|].
  assert (Hat : ∀ k start last t, match (attempts k n ctx start last t).1 with
    | inl r => r_state r = Succeeded ∨ ∃ msg, r_state r = Failed msg | inr _ => True end).
  { induction k as [|k IH]; intros start last t'; cbn [attempt_loop]; [done|].
    destruct (build_request _ _ n ctx) as [r|]; [|csimpl; eauto].
    destruct (roundtrip _ _ _ _ _ n r t') as [[resp|e] t1]; [csimpl; eauto|]. apply IH. }
  specialize (Hat (Z.to_nat (attempts_of n)) t None t).
  destruct (attempt_loop _ _ _ _ _ _ _ _ _ n ctx t None t) as [[r|last] t1]; [done|].
  unfold run_fallback, final_failure. destruct (x_fallback n); [|csimpl; eauto].
  destruct (build_request _ _ n ctx); [|csimpl; eauto].
  destruct (roundtrip _ _ _ _ _ n _ t1) as [[resp|e] t2]; csimpl; eauto.
Qed.

Lemma sub_loop_verdict fuel subs edges ctx start st rt :
  sub_loop elapsed_ms fuel subs edges ctx start st = Err rt → ∃ msg, r_state rt.1 = Failed msg.
Proof.
  assert (Hrun : ∀ l st rt, try_fold (run_sub_node elapsed_ms edges ctx start) st l = Err rt →
    ∃ msg, r_state rt.1 = Failed msg).
  { induction l as [|sub l IH]; intros st' rt'; cbn [try_fold]; [done|].
    destruct (run_sub_node _ _ _ _ st' sub) as [st1|e] eqn:Hs; csimpl; [apply IH|].
    intros [= <-]. unfold run_sub_node in Hs. destruct (sub.2 _ _) as [r t'].
    destruct (r_state r); simplify_eq/=; [by destruct (r_usage r)|eauto]. }
  revert st. induction fuel as [|fuel IH]; intros st; cbn [sub_loop]; [done|].
  destruct (size _ <? length subs)%nat; [|done].
  destruct (filter _ subs) as [|s0 rest]; [intros [= <-]; csimpl; eauto|].
  destruct (try_fold _ st (s0 :: rest)) as [st1|e] eqn:Ht; csimpl; [apply IH|].
  intros [= <-]. by apply Hrun in Ht.
Qed.

(** The executor answers success or failure, nothing else. *)
Lemma execute_verdict n ctx t :
  r_state (exec n ctx t).1 = Succeeded ∨ ∃ msg, r_state (exec n ctx t).1 = Failed msg.
Proof.
  rewrite execute_node_unfold. destruct (x_subgraph n) as [g|]; [|apply plain_verdict].
  unfold execute_subgraph. destruct (sub_loop _ _ _ _ _ _ _) as [st|rt] eqn:Hl; [by left|].
  right. by eapply sub_loop_verdict.
Qed.

Lemma gate_verdict n ctx t :
  x_kind n = XGate → x_subgraph n = None →
  r_state (exec n ctx t).1 = Succeeded ↔
  ∃ ap, approvals self = Some ap ∧ ap t (x_id n) = true.
Proof.
  intros Hk Hs. rewrite execute_node_unfold, Hs. unfold execute_plain. rewrite decide_True by done.
  unfold run_gate, gate_result. destruct (approvals self) as [ap|]; csimpl.
  - destruct (ap t (x_id n)) eqn:Ha; csimpl; split; [eauto|done|done|].
    intros (ap' & [= <-] & ?). congruence.
  - split; [done|]. by intros (ap & [=] & _).
Qed.

(** ** Under the scheduler *)
Section scheduled.
(** The executor as the scheduler calls it: the [k]-th execution runs at some
    point of the trace. *)
Context (run_node : nat → ExecutionNode → NodeExecContext → NodeExecutionResult).
Context (Hrun : ∀ k n ctx, ∃ t, run_node k n ctx = (exec n ctx t).1).

Lemma run_node_terminal k n ctx : is_terminal (Some (r_state (run_node k n ctx))) = true.
Proof using All.
  destruct (Hrun k n ctx) as [t ->].
  by destruct (execute_verdict n ctx t) as [->|[msg ->]].
Qed.

Lemma future_not_skipped cancel k n ctx :
  r_state (node_future run_node cancel k n ctx) ≠ Skipped.
Proof using All.
  destruct (Hrun k n ctx) as [t Ht]. unfold node_future.
  assert (r_state (run_node k n ctx) ≠ Skipped).
  { rewrite Ht. by destruct (execute_verdict n ctx t) as [->|[msg ->]]. }
  destruct cancel as [c|]; [|done]. by destruct (cancelled_during c k).
Qed.

(** A policy gate without an approval stops everything behind it: in any run
    of the scheduler over this executor, with any budget and cancellation,
    neither the gate nor any node reachable from it succeeds. *)
Theorem unapproved_gate_blocks g sched cancel ceilings elapsed fuel c gate :
  plain_dag g → (0 < max_concurrent sched)%nat → (length (g_nodes g) < fuel)%nat →
  gate ∈ g_nodes g → x_kind gate = XGate → x_subgraph gate = None →
  (∀ ap t, approvals self = Some ap → ap t (x_id gate) = false) →
  ∃ r, run_inner sched run_node cancel ceilings elapsed g fuel c = Some r ∧
    ∀ o v, r = Ok o → rtc (gedge g) (x_id gate) v → o_node_states o !! v ≠ Some Succeeded.
Proof using All.
  intros Hg Hmc Hf Hgate Hk Hs Hap.
  destruct (run_inner_outcome g sched run_node cancel ceilings elapsed fuel c)
    as (r & Hr & Ho); [done|done|apply run_node_terminal|done|].
  exists r. split; [done|]. intros o v -> Hv. destruct Ho as [_ Hd].
  revert v Hv. apply rtc_ind_r.
  - intros Hsucc. destruct (Hd _ Hsucc) as [(res & (n & k & ctx & Hn & Hid & -> & _) & Hres & _) _].
    assert (n = gate) as -> by by eapply plain_node_unique.
    revert Hres. apply future_fails. destruct (Hrun k gate ctx) as [t ->]. rewrite gate_verdict by done.
    intros (ap & Ha & Ht). by rewrite (Hap ap t Ha) in Ht.
  - intros u v _ Huv IH Hsucc. destruct (Hd v Hsucc) as [_ Hp].
    destruct (Hp u Huv) as [Hu|(_ & k & n & ctx & Hskip)]; [by apply IH|].
    by apply (future_not_skipped cancel k n ctx).
Qed.
End scheduled.
End executor.

(** ** Examples *)
Definition sample_chat (_ : Trace) (r : ChatRequest) : result string ChatResponse :=
  mock_completion "answer" [] r.
Definition sample_exec (self : ProviderExecutor) :=
  execute_node (HashIter0 := map_to_list_iter N) sample_chat (λ _ _ v, Ok v) (λ _ _, 0)
    (λ _, Ok []) (λ _, "") (λ _, Ok "") (λ _, "") self.
Definition sample_node : ExecutionNode :=
  mkExecNode 1%N LLMGenerate Single "draft" (mkRetry 1 0) None ∅ None.
(** A resource manager that affords everything. *)
Definition metered_executor : ProviderExecutor :=
  mkExecutor ∅ false (Some (λ _ _ _, true)) None None.

Lemma calls_are_metered_witness :
  ∃ evs, (sample_exec metered_executor sample_node (mkCtx ∅ ∅) []).2 = [] ++ evs ∧
    metered sample_chat metered_executor [] evs.
Proof.
  apply (calls_are_metered (HashIter0 := map_to_list_iter N) sample_chat (λ _ _ v, Ok v)
    (λ _ _, 0) (λ _, Ok []) (λ _, "") (λ _, Ok "") (λ _, "") metered_executor).
  eexists. reflexivity.
Defined.

(** The trace of that run: checked, called, recorded at the fallback price. *)
Example metered_trace :
  (sample_exec metered_executor sample_node (mkCtx ∅ ∅) []).2 =
  [EvAfford 1%N (from_nanos 1000000) 0 true; EvChat 1%N (mkChatRequest "draft" [] None None);
   EvRecord 1%N (from_nanos 350000) 75].
Proof. vm_compute. reflexivity. Qed.

Lemma provider_calls_bounded_witness :
  Z.of_nat (chats (sample_exec metered_executor sample_node (mkCtx ∅ ∅) []).2) ≤ 0 + (1 + 2) * 33.
Proof.
  apply (provider_calls_bounded (HashIter0 := map_to_list_iter N) sample_chat (λ _ _ v, Ok v)
    (λ _ _, 0) (λ _, Ok []) (λ _, "") (λ _, Ok "") (λ _, "") metered_executor sample_node).
  - reflexivity.
  - vm_compute. discriminate.
Defined.
