(* ===== verification/SubgraphRun.v ===== *)
(** * Subgraphs run in a topological order

    The waves of [execute_subgraph] depend only on the graph, not on what the
    nodes answer: [wave_order] lists them. On a subgraph with distinct ids and
    acyclic edges between its nodes, the loop is one pass over that order,
    which holds every node once, after all its predecessors. *)
From S2P Require Import Prelude Text Json Money Budget ExecTypes Graphs Kahn Strategy WorkQueue Scheduler Runtime RuntimeProps.
From Stdlib Require Import Floats.SpecFloat.
Open Scope stdpp_scope.
Open Scope Z_scope.

Lemma try_fold_app {E A S} (f : S → A → result E S) s l k :
  try_fold f s (l ++ k) = try_fold f s l ≫= λ s, try_fold f s k.
Proof.
  revert s. induction l as [|a l IH]; intros s; simpl; [done|].
  destruct (f s a); simpl; [apply IH|done].
Qed.

Section waves.
Context (subs : list ExecutionNode) (edges : list ExecutionEdge).

Definition wave (done : gset Uuid) : list ExecutionNode :=
  filter (λ n, sub_ready edges done (x_id n)) subs.
Definition after_wave (done : gset Uuid) : gset Uuid :=
  list_to_set (x_id <$> wave done) ∪ done.
Fixpoint wave_order (fuel : nat) (done : gset Uuid) : list ExecutionNode :=
  match fuel with
  | O => []
  | S fuel => wave done ++ wave_order fuel (after_wave done)
  end.

Definition points (u v : Uuid) : Prop := ∃ e, e ∈ edges ∧ x_from e = u ∧ x_to e = v.
Notation ids := (x_id <$> subs).
Context (Hnd : NoDup ids) (Hclosed : ∀ u v, points u v → u ∈ ids ∧ v ∈ ids).
Context (Hac : ∀ v, ¬ tc points v v).

Lemma sub_ready_spec done id : sub_ready edges done id ↔ id ∉ done ∧ ∀ u, points u id → u ∈ done.
Proof using Type.
  unfold sub_ready, points. rewrite Forall_forall. split; intros [? Hp]; (split; [done|]).
  - intros u (e & He & <- & Hto). apply Hp. by apply list_elem_of_filter.
  - intros e [Hto He]%list_elem_of_filter. apply Hp. eauto.
Qed.

Lemma elem_of_wave done n :
  n ∈ wave done ↔ n ∈ subs ∧ x_id n ∉ done ∧ ∀ u, points u (x_id n) → u ∈ done.
Proof using Type. unfold wave. rewrite list_elem_of_filter, sub_ready_spec. tauto. Qed.

Lemma elem_of_after_wave done id :
  id ∈ after_wave done ↔ id ∈ done ∨ (id ∈ ids ∧ id ∉ done ∧ ∀ u, points u id → u ∈ done).
Proof using Type.
  unfold after_wave. rewrite elem_of_union, elem_of_list_to_set, !list_elem_of_fmap. split.
  - intros [(n & -> & Hn%elem_of_wave)|?]; [|by left]. right. split; [|tauto]. exists n. tauto.
  - intros [?|((n & -> & Hn) & Hd & Hp)]; [by right|]. left. exists n. split; [done|].
    by apply elem_of_wave.
Qed.

(** Some unfinished node has all its predecessors done. *)
Lemma wave_progress done id : id ∈ ids → id ∉ done → ∃ n, n ∈ wave done.
Proof using Hclosed Hac.
  intros Hid Hd. assert (Hsn : sn (flip points) id).
  { apply tc_finite_sn.
    - intros x Hx. apply (Hac x). by apply tc_of_flip in Hx.
    - exists ids. intros w Hw. clear -Hw Hclosed. induction Hw as [x y Hxy|]; [|done].
      by apply (Hclosed y x). }
  revert Hid Hd. induction Hsn as [id _ IH]. intros Hid Hd.
  destruct (decide (Forall (λ e, x_from e ∈ done) (filter (λ e, x_to e = id) edges))) as [Hall|Hn].
  - apply list_elem_of_fmap in Hid as (n & -> & Hn). exists n. by apply list_elem_of_filter.
  - apply not_Forall_Exists, Exists_exists in Hn; [|apply _].
    destruct Hn as (e & [Hto He]%list_elem_of_filter & Hnd').
    assert (points (x_from e) id) as Hp by (by exists e).
    apply (IH (x_from e) Hp); [by apply (Hclosed _ id)|done].
Qed.

Definition remaining (done : gset Uuid) : nat := size ((list_to_set ids : gset Uuid) ∖ done).

Lemma remaining_after done id :
  id ∈ ids → id ∉ done → (remaining (after_wave done) < remaining done)%nat.
Proof using Hclosed Hac.
  intros Hid Hd. destruct (wave_progress done id Hid Hd) as [n Hn]. unfold remaining.
  apply subset_size. apply elem_of_wave in Hn as (Hn & Hnd' & Hp). split.
  - intros x. rewrite !elem_of_difference, elem_of_after_wave. tauto.
  - intros Hsub. specialize (Hsub (x_id n)). rewrite !elem_of_difference, elem_of_after_wave in Hsub.
    assert (x_id n ∈ ids) as Hin by (by apply list_elem_of_fmap_2).
    destruct Hsub as [_ Hf]; [split; [by apply elem_of_list_to_set|done]|]. apply Hf. tauto.
Qed.

Lemma wave_order_elem fuel done n :
  (remaining done < fuel)%nat → n ∈ wave_order fuel done ↔ n ∈ subs ∧ x_id n ∉ done.
Proof using All.
  revert done. induction fuel as [|fuel IH]; intros done Hf; [lia|]. cbn [wave_order].
  rewrite elem_of_app. split.
  - intros [Hn%elem_of_wave|Hn]; [tauto|].
    destruct (wave done) as [|m l] eqn:Hw.
    + exfalso. clear IH Hf.
      assert (after_wave done = done) as Heq by (unfold after_wave; rewrite Hw; set_solver).
      rewrite Heq in Hn. revert Hn. induction fuel as [|fuel IH]; cbn [wave_order].
      * by intros ?%elem_of_nil.
      * by rewrite Hw, Heq.
    + assert (m ∈ wave done) as Hm by (rewrite Hw; by left).
      apply elem_of_wave in Hm as (Hm & Hmd & _).
      rewrite IH, elem_of_after_wave in Hn; [tauto|].
      pose proof (remaining_after done (x_id m) (list_elem_of_fmap_2 _ _ _ Hm) Hmd). lia.
  - intros [Hn Hd]. destruct (decide (x_id n ∈ after_wave done)) as [Ha|Ha].
    + left. apply elem_of_wave. apply elem_of_after_wave in Ha as [?|(_ & ? & ?)]; [done|]. done.
    + right. apply IH; [|done].
      pose proof (remaining_after done (x_id n) (list_elem_of_fmap_2 _ _ _ Hn) Hd). lia.
Qed.

Lemma wave_order_nodup fuel done :
  (remaining done < fuel)%nat → NoDup (x_id <$> wave_order fuel done).
Proof using All.
  revert done. induction fuel as [|fuel IH]; intros done Hf; [lia|]. cbn [wave_order].
  rewrite fmap_app. destruct (wave done) as [|m l] eqn:Hw.
  - simpl. assert (after_wave done = done) as Heq by (unfold after_wave; rewrite Hw; set_solver).
    rewrite Heq. clear IH Hf. induction fuel as [|fuel IH]; cbn [wave_order]; [constructor|].
    by rewrite Hw, Heq.
  - assert (m ∈ wave done) as Hm by (rewrite Hw; by left). rewrite <- Hw.
    apply elem_of_wave in Hm as (Hm & Hmd & _).
    assert (Hf' : (remaining (after_wave done) < fuel)%nat).
    { pose proof (remaining_after done (x_id m) (list_elem_of_fmap_2 _ _ _ Hm) Hmd). lia. }
    apply NoDup_app. split_and!; [|..|by apply IH].
    + eapply sublist_NoDup; [exact Hnd|]. apply fmap_sublist, sublist_filter.
    + intros id (n & -> & Hn)%list_elem_of_fmap (n' & Heq & Hn')%list_elem_of_fmap.
      apply wave_order_elem in Hn' as [_ Hn']; [|done]. apply Hn'. rewrite <- Heq.
      unfold after_wave. apply elem_of_union_l, elem_of_list_to_set. by apply list_elem_of_fmap_2.
Qed.

Lemma wave_order_topological fuel done u n :
  n ∈ wave_order fuel done → points u (x_id n) →
  u ∈ done ∨ precedes u (x_id n) (x_id <$> wave_order fuel done).
Proof using Hclosed.
  revert done. induction fuel as [|fuel IH]; intros done; cbn [wave_order]; [by intros ?%elem_of_nil|].
  rewrite fmap_app. intros [Hn|Hn]%elem_of_app Hu.
  - left. apply elem_of_wave in Hn as (_ & _ & Hp). by apply Hp.
  - destruct (IH _ Hn Hu) as [Ha|(l1 & l2 & Heq & Hin)].
    + unfold after_wave in Ha. apply elem_of_union in Ha as [Ha|?]; [right|by left].
      apply elem_of_list_to_set in Ha.
      apply (list_elem_of_fmap_2 x_id), list_elem_of_split in Hn as (k1 & k2 & Hk).
      exists ((x_id <$> wave done) ++ k1), k2. rewrite Hk, <- app_assoc. split; [done|].
      by apply elem_of_app; left.
    + right. exists ((x_id <$> wave done) ++ l1), l2. rewrite Heq, <- app_assoc. split; [done|].
      by apply elem_of_app; right.
Qed.

Lemma remaining_bound done : (remaining done <= length subs)%nat.
Proof using Type.
  unfold remaining. etrans; [apply subseteq_size, subseteq_difference_l; reflexivity|].
  etrans; [apply size_list_to_set_le|]. by rewrite length_fmap.
Qed.

(** *** The loop *)
Context (elapsed_ms : Trace → Trace → Z).
Context (run : ExecutionNode → NodeExecContext → Trace → NodeExecutionResult * Trace).
Context (ctx : NodeExecContext) (start : Trace).
Let attach (n : ExecutionNode) : SubNode := (n, run n).

Lemma run_wave_completed l st st' :
  try_fold (run_sub_node elapsed_ms edges ctx start) st (attach <$> l) = Ok st' →
  sr_completed st' = list_to_set (x_id <$> l) ∪ sr_completed st.
Proof using Type.
  clear. revert st. induction l as [|n l IH]; intros st; cbn [fmap list_fmap try_fold].
  { intros [= <-]. set_solver. }
  destruct (run_sub_node _ _ _ _ st (attach n)) as [st1|] eqn:Hs; csimpl; [|done].
  intros Hl%IH. rewrite Hl.
  assert (sr_completed st1 = {[x_id n]} ∪ sr_completed st) as ->; [|set_solver].
  unfold run_sub_node, attach in Hs. csimpl in Hs. destruct (run n _ _) as [r t'].
  destruct (r_state r); simplify_eq/=; try done. destruct (r_usage r); by simplify_eq/=.
Qed.

Lemma filter_attach done :
  filter (λ sub : SubNode, sub_ready edges done (x_id sub.1)) (attach <$> subs) = attach <$> wave done.
Proof using Type.
  clear. unfold wave. induction subs as [|n l IH]; [done|].
  csimpl. rewrite !filter_cons. csimpl. case_decide; csimpl; by rewrite IH.
Qed.

Lemma sub_loop_waves fuel st :
  (∀ id, id ∈ sr_completed st → id ∈ ids) → (remaining (sr_completed st) < fuel)%nat →
  sub_loop elapsed_ms fuel (attach <$> subs) edges ctx start st =
  try_fold (run_sub_node elapsed_ms edges ctx start) st
    (attach <$> wave_order fuel (sr_completed st)).
Proof using All.
  revert st. induction fuel as [|fuel IH]; intros st Hin Hf; [lia|]. cbn [sub_loop wave_order].
  rewrite length_fmap, filter_attach, fmap_app, try_fold_app.
  destruct (size (sr_completed st) <? length subs)%nat eqn:Hsz.
  - apply Nat.ltb_lt in Hsz.
    assert (∃ id, id ∈ ids ∧ id ∉ sr_completed st) as (id & Hid & Hnc).
    { destruct (decide ((list_to_set ids : gset Uuid) ∖ sr_completed st = ∅)) as [Hsub|Hns].
      - assert ((list_to_set ids : gset Uuid) ⊆ sr_completed st) as Hle.
        { intros x Hx. apply dec_stable. intros Hn. eapply (not_elem_of_empty (C := gset Uuid) x).
          rewrite <- Hsub. by apply elem_of_difference. }
        clear Hsub. rename Hle into Hsub. apply subseteq_size in Hsub.
        rewrite size_list_to_set, length_fmap in Hsub by done. lia.
      - apply set_choose_L in Hns as (id & [Hid%elem_of_list_to_set Hn]%elem_of_difference). eauto. }
    destruct (wave_progress (sr_completed st) id Hid Hnc) as [m Hm].
    pose proof (remaining_after (sr_completed st) id Hid Hnc) as Hrem.
    destruct (attach <$> wave (sr_completed st)) as [|s0 rest] eqn:Hw.
    { apply fmap_nil_inv in Hw. rewrite Hw in Hm. by apply elem_of_nil in Hm. }
    rewrite <- Hw. destruct (try_fold _ st (attach <$> wave _)) as [st1|] eqn:Ht; csimpl; [|done].
    apply run_wave_completed in Ht. fold (after_wave (sr_completed st)) in Ht.
    rewrite IH; rewrite Ht; [done| |lia].
    intros x [?|[? _]]%elem_of_after_wave; auto.
  - apply Nat.ltb_ge in Hsz.
    assert (Hall : ∀ id, id ∈ ids → id ∈ sr_completed st).
    { intros id Hid. apply dec_stable. intros Hn.
      assert (sr_completed st ⊂ (list_to_set ids : gset Uuid)) as Hsub.
      { split; [intros x Hx; by apply elem_of_list_to_set, Hin|].
        intros Hs. apply Hn, Hs. by apply elem_of_list_to_set. }
      apply subset_size in Hsub. rewrite size_list_to_set, length_fmap in Hsub by done. lia. }
    assert (Hempty : ∀ k, wave_order k (sr_completed st) = []).
    { assert (wave (sr_completed st) = []) as Hw.
      { destruct (wave (sr_completed st)) as [|n l] eqn:Hw; [done|]. exfalso.
        assert (n ∈ wave (sr_completed st)) as Hn by (rewrite Hw; by left).
        apply elem_of_wave in Hn as (Hn & Hnc & _). by apply Hnc, Hall, list_elem_of_fmap_2. }
      assert (after_wave (sr_completed st) = sr_completed st) as Heq
        by (unfold after_wave; rewrite Hw; set_solver).
      induction k as [|k IHk]; cbn [wave_order]; [done|]. by rewrite Hw, Heq, IHk. }
    pose proof (Hempty (S fuel)) as He. cbn [wave_order] in He.
    apply app_nil in He as [-> ->]. done.
Qed.
End waves.

(** ** The executor on a prebuilt subgraph *)
Section subgraph.
Context `{!HashIter N}.
Context (chat_completion : Trace → ChatRequest → result string ChatResponse).
Context (tool_execute : Trace → string → json → result string json).
Context (elapsed_ms : Trace → Trace → Z).
Context (messages_from_value : json → result string (list ChatMessage)).
Context (value_display : json → string) (values_to_string : list json → result string string).
Context (f64_display : spec_float → string).
Context (self : ProviderExecutor).

Notation exec := (execute_node chat_completion tool_execute elapsed_ms messages_from_value
  value_display values_to_string f64_display self).

Definition subgraph_dag (g : ExecutionSubgraph) : Prop :=
  NoDup (x_id <$> sub_nodes g) ∧
  (∀ u v, points (sub_edges g) u v → u ∈ x_id <$> sub_nodes g ∧ v ∈ x_id <$> sub_nodes g) ∧
  ∀ v, ¬ tc (points (sub_edges g)) v v.

(** C32. On a subgraph with distinct ids and acyclic edges between its nodes, the
    wave loop never reports a cycle or runs out: it is one pass over a
    topological order of the nodes, each executed once on the outputs of the
    nodes before it, that ends at the first failure or with the exit node's
    output. *)
Theorem subgraph_runs_in_order n g ctx t :
  x_subgraph n = Some g → subgraph_dag g →
  ∃ order, order ≡ₚ sub_nodes g ∧
    (∀ u v, points (sub_edges g) u v → precedes u v (x_id <$> order)) ∧
    exec n ctx t =
    match try_fold (run_sub_node elapsed_ms (sub_edges g) ctx t) (mkSubRun ∅ ∅ 0 0 t)
            ((λ m, (m, exec m)) <$> order) with
    | Ok st => (sub_result elapsed_ms (x_id n) (exit_node_id g) t st, sr_trace st)
    | Err rt => rt
    end.
Proof.
  intros Hn (Hnd & Hcl & Hac).
  set (k := S (length (sub_nodes g))).
  assert (Hk : (remaining (sub_nodes g) ∅ < k)%nat) by (pose proof (remaining_bound (sub_nodes g) ∅); lia).
  pose proof (λ m, wave_order_elem _ _ Hnd Hcl Hac k ∅ m Hk) as Helem.
  exists (wave_order (sub_nodes g) (sub_edges g) k ∅). split_and!.
  - pose proof (wave_order_nodup _ _ Hnd Hcl Hac k ∅ Hk) as Hnd'. apply NoDup_fmap_1 in Hnd, Hnd'.
    apply (anti_symm submseteq); apply NoDup_submseteq; try done; intros m Hm.
    + by apply Helem in Hm as [? _].
    + apply Helem. split; [done|]. apply not_elem_of_empty.
  - intros u v Huv. destruct (Hcl u v Huv) as [_ (m & -> & Hm)%list_elem_of_fmap].
    destruct (wave_order_topological _ _ Hcl k ∅ u m) as [?%elem_of_empty|?]; try done.
    apply Helem. split; [done|]. apply not_elem_of_empty.
  - rewrite execute_node_unfold, Hn. unfold execute_subgraph. rewrite length_fmap. fold k.
    rewrite (sub_loop_waves _ _ Hnd Hcl Hac); [done| |done].
    by intros id ?%elem_of_empty.
Qed.
End subgraph.

Definition demo_chat (t : Trace) (r : ChatRequest) : result string ChatResponse :=
  mock_completion "answer" t r.
Definition demo_exec (self : ProviderExecutor) :=
  execute_node (HashIter0 := map_to_list_iter N) demo_chat (λ _ _ v, Ok v) (λ _ _, 0)
    (λ _, Ok []) (λ _, "") (λ _, Ok "") (λ _, "") self.

(** Two nodes listed against their order. *)
Definition demo_subgraph : ExecutionSubgraph :=
  let node i m := mkExecNode i LLMGenerate Single m (mkRetry 0 0) None ∅ None in
  mkSubgraph [node 2%N "second"; node 1%N "first"] [mkExecEdge 1%N 2%N None] 1%N 2%N.
Definition demo_parent : ExecutionNode :=
  mkExecNode 9%N XTransform Single "parent" (mkRetry 0 0) None ∅ (Some demo_subgraph).

Lemma subgraph_runs_in_order_witness :
  ∃ order, order ≡ₚ sub_nodes demo_subgraph ∧
    (∀ u v, points (sub_edges demo_subgraph) u v → precedes u v (x_id <$> order)) ∧
    demo_exec executor_new demo_parent (mkCtx ∅ ∅) [] =
    match try_fold (run_sub_node (λ _ _, 0) (sub_edges demo_subgraph) (mkCtx ∅ ∅) [])
            (mkSubRun ∅ ∅ 0 0 []) ((λ m, (m, demo_exec executor_new m)) <$> order) with
    | Ok st => (sub_result (λ _ _, 0) 9%N 2%N [] st, sr_trace st)
    | Err rt => rt
    end.
Proof.
  apply (subgraph_runs_in_order (HashIter0 := map_to_list_iter N) demo_chat (λ _ _ v, Ok v)
    (λ _ _, 0) (λ _, Ok []) (λ _, "") (λ _, Ok "") (λ _, "") executor_new demo_parent demo_subgraph).
  - reflexivity.
  - split_and!.
    + apply (bool_decide_unpack _). vm_compute. done.
    + intros u v (e & He & <- & <-). revert e He. apply Forall_forall.
      apply (bool_decide_unpack _). vm_compute. done.
    + apply (ranked_acyclic _ N.to_nat). intros a b (e & He & <- & <-). revert e He.
      apply Forall_forall. apply (bool_decide_unpack _). vm_compute. done.
Defined.

(** The order the loop takes: the node listed second runs first. *)
Example demo_subgraph_order :
  (demo_exec executor_new demo_parent (mkCtx ∅ ∅) []).2 =
  [EvChat 1%N (mkChatRequest "first" [] None None);
   EvChat 2%N (mkChatRequest "second" [mkMessage "user" ("Context from parent node "
     +:+ uuid_to_string 1 +:+ ":" +:+ newline +:+ "<<BEGIN_UNTRUSTED_CONTEXT>>" +:+ newline
     +:+ newline +:+ "<<END_UNTRUSTED_CONTEXT>>")] None None)].
Proof. vm_compute. reflexivity. Qed.
