(* ===== verification/Pipeline.v ===== *)
(** * From policy to execution

    The compiler, the scheduler and the executor together: a node that the
    policy sends to approval is guarded in the compiled graph, so it does not
    succeed, and neither does anything behind it, unless the approval
    authority approves a gate in front of it ([approval_enforced]). The one
    way around is a gate that carries an expanding strategy
    ([strategy_gate_never_asks]). *)
From S2P Require Import Prelude Text Json Money Graphs Budget ExecTypes Policy Strategy Compiler CompilerProps WorkQueue Scheduler DagQueue SchedulerProps Runtime RuntimeProps.
From Stdlib Require Import Floats.SpecFloat Ascii.
Open Scope stdpp_scope.
Open Scope Z_scope.

Section end_to_end.
Context `{!HashIter string} `{!HashIter N}.
Context (json_to_string : json → string).
Context (new_v5 : Uuid → string → Uuid) (uuid_display : Uuid → string).
Context {M} `{!ResourceManager M}.
Notation build_compiler := (build_compiler json_to_string new_v5).
Notation compile_and_lower := (compile_and_lower json_to_string new_v5 uuid_display).
Notation lower_node := (lower_node new_v5 uuid_display).

Lemma lower_node_gate n :
  ir_kind n = KGate → ir_strategy n = Single →
  x_kind (lower_node ∅ n) = XGate ∧ x_subgraph (lower_node ∅ n) = None.
Proof.
  intros Hk Hs. unfold Compiler.lower_node, expanded_subgraph_with_compilers, expanded_subgraph.
  csimpl. by rewrite Hk, Hs.
Qed.

(** The node that needs approval is eliminated, or has a lowered gate. *)
Lemma approval_gate cat (rm : M) p intent ir ds g m :
  compile_and_lower (build_compiler cat rm (Some p)) intent ir = Ok (ds, g) →
  (∀ n, n ∈ ir_nodes ir → ir_kind n = KGate → ir_strategy n = Single) →
  (∀ n, n ∈ ir_nodes ir → gate_id new_v5 n ∉ ir_ids ir) →
  m ∈ ir_nodes ir → needs_approval json_to_string p (resolve_model cat m) →
  ir_id m ∉ node_ids g ∨
  ∃ x, x ∈ g_nodes g ∧ x_kind x = XGate ∧ x_subgraph x = None ∧ gedge g (x_id x) (ir_id m).
Proof.
  intros (mid & out & Hco & _ & Hlow)%compile_inv Hsingle Hfresh Hm Hneed.
  destruct (dead_nodes_closed ir mid (co_flow _ _ _ _ _ _ _ _ Hco) (co_live _ _ _ _ _ _ _ _ Hco))
    as (_ & _ & Hsubn & _).
  pose proof (co_policy _ _ _ _ _ _ _ _ Hco) as Hp. csimpl in Hp. unfold policy_pass in Hp. csimpl in Hp.
  pose proof (policy_fold_spec json_to_string new_v5 p (resolve_model cat <$> ir_nodes mid)
      (resolve_model cat <$> ir_nodes mid) (mkPolicyAcc (ir_edges mid) [] [])) as Hs.
  destruct (try_fold _ _ _) as [acc'|e]; csimpl in Hp; [|done]. injection Hp as <-.
  destruct Hs as (ts & [He Hg] & Hsub & _ & _ & Happ). csimpl in *. injection Hlow as <-.
  assert (Hlive : m ∈ ir_nodes mid ∨ ir_id m ∉ ir_ids mid).
  { destruct (dead_nodes_ok ir) as (ir2 & Hd2 & _ & _ & Hcase).
    rewrite (co_live _ _ _ _ _ _ _ _ Hco) in Hd2. injection Hd2 as <-.
    case_decide; [subst; by left|]. destruct Hcase as (P & HP & _ & Hn & _).
    destruct (decide (P (ir_id m))) as [HPm|HPm]; [left|right].
    - rewrite Hn. by apply list_elem_of_filter.
    - unfold ir_ids. rewrite Hn. intros (n & Heq & [HPn _]%list_elem_of_filter)%list_elem_of_fmap. by rewrite Heq in HPm. }
  destruct Hlive as [Hmid|Hdead]; [right|left].
  - assert (Hgate : guarded_by ((resolve_model cat <$> ir_nodes mid) ++ (gate_node new_v5 <$> ts))
        (pa_edges acc') (resolve_model cat m)).
    { destruct (Happ (resolve_model cat m)) as [Hts|(e & g0 & ? & ? & ? & ? & ?)];
        [by apply list_elem_of_fmap_2|done| |].
      - exists (mkIREdge (gate_id new_v5 (resolve_model cat m)) (ir_id (resolve_model cat m)) None),
          (gate_node new_v5 (resolve_model cat m)).
        split_and!; [|done| |done|done]; rewrite ?He; apply elem_of_app; right;
          [|by apply list_elem_of_fmap_2].
        by apply (list_elem_of_fmap_2 (λ n, mkIREdge (gate_id new_v5 n) (ir_id n) None)).
      - exists e, g0. split_and!; try done. by apply elem_of_app; left. }
    destruct Hgate as (e & g0 & Hein & Hto & Hg0 & Hid & Hk). rewrite resolve_model_id in Hto.
    exists (lower_node ∅ g0). unfold gedge. csimpl. rewrite Hg.
    destruct (lower_node_gate g0) as [Hxk Hxs]; [done| |].
    { apply elem_of_app in Hg0 as [(n & -> & Hn)%list_elem_of_fmap|(n & -> & _)%list_elem_of_fmap]; [|done].
      rewrite resolve_model_kind in Hk. rewrite resolve_model_strategy. auto. }
    split_and!; [by apply list_elem_of_fmap_2|done|done|].
    exists (mkExecEdge (ire_from e) (ire_to e) (ire_condition e)). csimpl.
    split_and!; [|done|done].
    by apply (list_elem_of_fmap_2 (λ e, mkExecEdge (ire_from e) (ire_to e) (ire_condition e))).
  - unfold node_ids. csimpl. rewrite Hg. csimpl. rewrite !fmap_app, <- !list_fmap_compose, elem_of_app.
    intros [(n & Heq & Hn)%list_elem_of_fmap|(n & Heq & Hn)%list_elem_of_fmap]; csimpl in Heq.
    + apply Hdead. rewrite Heq, resolve_model_id. by apply list_elem_of_fmap_2.
    + apply sublist_submseteq in Hsub.
      apply (elem_of_submseteq _ _ _ Hn), list_elem_of_fmap in Hsub as (n0 & -> & Hn0).
      apply (Hfresh n0 (Hsubn n0 Hn0)). unfold gate_id in *. rewrite resolve_model_id in Heq.
      rewrite <- Heq. by apply list_elem_of_fmap_2.
Qed.

(** ** Execution *)
Context (chat_completion : Trace → ChatRequest → result string ChatResponse).
Context (tool_execute : Trace → string → json → result string json).
Context (elapsed_ms : Trace → Trace → Z).
Context (messages_from_value : json → result string (list ChatMessage)).
Context (value_display : json → string) (values_to_string : list json → result string string).
Context (f64_display : spec_float → string).
Context (self : ProviderExecutor).
Notation exec := (execute_node chat_completion tool_execute elapsed_ms messages_from_value
  value_display values_to_string f64_display self).
Context (run_node : nat → ExecutionNode → NodeExecContext → NodeExecutionResult).
Context (Hrun : ∀ k n ctx, ∃ t, run_node k n ctx = (exec n ctx t).1).

(** C1. Approval is enforced from the policy to the run. Compile a plan under a
    policy, with gates only of the plain strategy and no id of the plan equal
    to a derived gate id, and run the graph: a node for which an approval rule
    wins does not succeed, and nothing behind it does, while no gate with an
    edge into it is approved; for every provider, tool, budget, cancellation
    and order of execution. *)
Theorem approval_enforced cat (rm : M) p intent ir ds g m sched cancel ceilings elapsed fuel c :
  compile_and_lower (build_compiler cat rm (Some p)) intent ir = Ok (ds, g) →
  (∀ n, n ∈ ir_nodes ir → ir_kind n = KGate → ir_strategy n = Single) →
  (∀ n, n ∈ ir_nodes ir → gate_id new_v5 n ∉ ir_ids ir) →
  plain_dag g → (0 < max_concurrent sched)%nat → (length (g_nodes g) < fuel)%nat →
  m ∈ ir_nodes ir → needs_approval json_to_string p (resolve_model cat m) →
  (∀ u ap t, gedge g u (ir_id m) → approvals self = Some ap → ap t u = false) →
  ∃ r, run_inner sched run_node cancel ceilings elapsed g fuel c = Some r ∧
    ∀ o v, r = Ok o → rtc (gedge g) (ir_id m) v → o_node_states o !! v ≠ Some Succeeded.
Proof using All.
  intros Hc Hsingle Hfresh Hg Hmc Hf Hm Hneed Hap.
  destruct (approval_gate _ _ _ _ _ _ _ _ Hc Hsingle Hfresh Hm Hneed) as [Hout|(x & Hx & Hk & Hs & Hxm)].
  - destruct (run_inner_outcome g sched run_node cancel ceilings elapsed fuel c)
      as (r & Hr & Ho); [done|done|by eapply run_node_terminal|done|].
    exists r. split; [done|]. intros o v -> Hv Hsucc. destruct Ho as [_ Hd].
    destruct Hv as [v|v w u Hvw _].
    + destruct (Hd v Hsucc) as [(res & (n & k & ctx & Hn & Hid & _) & _) _].
      apply Hout. rewrite <- Hid. by apply list_elem_of_fmap_2.
    + apply Hout. by apply (dag_closed g Hg v w).
  - destruct (unapproved_gate_blocks chat_completion tool_execute elapsed_ms messages_from_value
      value_display values_to_string f64_display self run_node Hrun g sched cancel ceilings elapsed
      fuel c x) as (r & Hr & Hb); try done; [intros ap t ?; by apply Hap|].
    exists r. split; [done|]. intros o v Ho Hv. apply Hb; [done|]. by eapply rtc_l.
Qed.
End end_to_end.

(** ** A compilation with an approval rule, run without an authority *)
#[local] Instance pipe_iter_string : HashIter string := map_to_list_iter string.
#[local] Instance pipe_iter_N : HashIter N := map_to_list_iter N.

Definition pipe_exec (_ : nat) (n : ExecutionNode) (ctx : NodeExecContext) : NodeExecutionResult :=
  (sample_exec executor_new n ctx []).1.
Definition pipe_plan : WorkflowIR :=
  mkIR 9 [mkIRNode 1 KGenerate Single None ∅; mkIRNode 2 KReview Single (Some "gpt-4o") ∅]
    [mkIREdge 1 2 None] (mkIRMetadata [] 1 ONE_CENT 500).
(** A stand-in for the name-based UUIDs. *)
Definition pipe_v5 (ns : Uuid) (name : string) : Uuid :=
  foldl (λ h a, (h * 31 + N_of_ascii a) `mod` 2 ^ 61)%N (ns + 7)%N
    (String.list_ascii_of_string name).
Definition pipe_compile (ir : WorkflowIR) :=
  compile_and_lower demo_json pipe_v5 demo_display
    (build_compiler demo_json pipe_v5 demo_catalog demo_rm (Some demo_policy)) "go" ir.

Lemma approval_enforced_witness :
  ∃ ds g, pipe_compile pipe_plan = Ok (ds, g) ∧
  ∃ r, run_inner scheduler_new pipe_exec None None 0 g 9 envelope_new = Some r ∧
    ∀ o v, r = Ok o → rtc (gedge g) 2%N v → o_node_states o !! v ≠ Some Succeeded.
Proof.
  destruct (pipe_compile pipe_plan) as [[ds g]|e] eqn:Hc; [|vm_compute in Hc; discriminate].
  exists ds, g. split; [reflexivity|].
  eapply (approval_enforced demo_json pipe_v5 demo_display sample_chat (λ _ _ v, Ok v)
    (λ _ _, 0) (λ _, Ok []) (λ _, "") (λ _, Ok "") (λ _, "") executor_new pipe_exec
    (λ k n ctx, ex_intro _ [] eq_refl) demo_catalog demo_rm demo_policy "go" pipe_plan ds g
    (mkIRNode 2 KReview Single (Some "gpt-4o") ∅)).
  - exact Hc.
  - intros n. unfold pipe_plan. csimpl. rewrite !elem_of_cons, elem_of_nil. by intros [->|[->|[]]].
  - intros n. unfold pipe_plan. csimpl. rewrite !elem_of_cons, elem_of_nil.
    by intros [->|[->|[]]]; apply (bool_decide_unpack _); vm_compute.
  - vm_compute in Hc. injection Hc as _ <-. split.
    + apply (bool_decide_unpack _). vm_compute. done.
    + intros u v (e & He & <- & <-). revert e He. apply Forall_forall.
      apply (bool_decide_unpack _). vm_compute. done.
    + apply (bool_decide_unpack _). vm_compute. done.
    + apply Forall_forall, (bool_decide_unpack _). vm_compute. done.
    + by apply (acyclic_by_rank _ (λ u, if decide (u = 2%N) then 1%nat else 0%nat)).
  - vm_compute. lia.
  - vm_compute in Hc. injection Hc as _ <-. csimpl. lia.
  - right. left.
  - vm_compute. eexists. split; reflexivity.
  - by intros u ap t _ [=].
Defined.

(** A gate of the plan that carries an expanding strategy counts as the guard
    of the node behind it, but it is lowered to a subgraph, and the executor
    runs a subgraph before it looks at the kind: no approval is asked for and
    the guarded node succeeds although there is no authority at all. *)
Definition gated_by_chain : WorkflowIR :=
  mkIR 9 [mkIRNode 1 KGate Chain None ∅; mkIRNode 2 KReview Single (Some "gpt-4o") ∅]
    [mkIREdge 1 2 None] (mkIRMetadata [] 1 ONE_CENT 500).
Theorem strategy_gate_never_asks :
  match pipe_compile gated_by_chain with
  | Ok (_, g) =>
      length (g_nodes g) = 2%nat ∧
      match run_inner scheduler_new pipe_exec None None 0 g 9 envelope_new with
      | Some (Ok o) => o_node_states o !! 2%N = Some Succeeded
      | _ => False
      end
  | Err _ => False
  end.
Proof. vm_compute. done. Qed.
