(* ===== verification/AgentState.v ===== *)
(** * Agent state ([crates/fusion-agent-state/src/lib.rs])

    The long-horizon agent state: the merge operator, the schema check, the
    transactional [StateStore] with its in-memory implementation, the model
    input, the event log and the budget tracker. [StateStore] is a class; what
    its clients may rely on is the class [LawfulStore], proved for the
    in-memory store. JSON serialisation ([serde_json::to_string]) is a
    parameter. *)
From S2P Require Import Prelude Text Json Money.
From Stdlib Require Import Ascii.
Open Scope stdpp_scope.
Open Scope Z_scope.

Inductive StateError :=
| NotAnObject (msg : string)
| SchemaViolation (msg : string)
| MergeError (msg : string)
| PatchValidation (msg : string).

Record SkillSpec := mkSkill { schema : json; instructions : string; version : string }.
Record ExecutionState := mkState { state_value : json }.
Record Observation := mkObservation { obs_value : json }.
Record StatePatch := mkPatch { patch_value : json }.
Record AgentAction := mkAction { raw : string; tool : option string; arguments : json }.
Record AgentUsage := mkAgentUsage {
  au_prompt_tokens : Z; au_completion_tokens : Z; au_total_tokens : Z }.
Record AgentStep := mkStep {
  step_reasoning : option string;
  step_patch : StatePatch;
  step_action : AgentAction;
  step_usage : option AgentUsage;
}.

Definition MAX_INSTRUCTIONS_BYTES : nat := 32 * 1024.
Definition skill_validate (p : SkillSpec) : result StateError unit :=
  if (MAX_INSTRUCTIONS_BYTES <? String.length (instructions p))%nat
  then Err (PatchValidation ("instructions too large: " +:+ pretty (String.length (instructions p))
              +:+ " > " +:+ pretty MAX_INSTRUCTIONS_BYTES +:+ " bytes"))
  else if decide (trim (instructions p) = "")
  then Err (PatchValidation "instructions must not be empty")
  else Ok tt.

Definition state_new (v : json) : result StateError ExecutionState :=
  if is_object v then Ok (mkState v)
  else Err (NotAnObject "ExecutionState must be a JSON object").
Definition state_empty : ExecutionState := mkState (JObject []).
Definition patch_new (v : json) : result StateError StatePatch :=
  if is_object v then Ok (mkPatch v)
  else Err (NotAnObject "StatePatch must be a JSON object").

(** ** The merge operator *)
Definition type_of (v : json) : string :=
  match v with
  | JNull => "null" | JBool _ => "bool" | JNumber _ => "number" | JString _ => "string"
  | JArray _ => "array" | JObject _ => "object"
  end.

(** What the patch value [pv] does to the entry [bv] of the base: [Ok None]
    removes it. [rec] is the recursive merge with [pv]. *)
Definition merge_entry (key : string) (pv : json) (rec : json → result StateError json)
    (bv : option json) : result StateError (option json) :=
  if is_null pv then Ok None
  else match bv with
    | Some b =>
        match b, pv with
        | JObject _, JObject _ => Some <$> rec b
        | _, JObject _ =>
            Err (MergeError ("ambiguous merge: patch key '" +:+ key +:+ "' is object but base is "
                   +:+ type_of b))
        | _, _ => Ok (Some pv)
        end
    | None => Ok (Some pv)
    end.

Definition edit := (string * (option json → result StateError (option json)))%type.

Definition apply_edit (base_map : list (string * json)) (merged : list (string * json)) (e : edit)
    : result StateError (list (string * json)) :=
  o ← e.2 (obj_get e.1 base_map);
  Ok (match o with Some v => obj_insert e.1 v merged | None => obj_remove e.1 merged end).

(** [merge_state]: the edits of the patch's entries, applied in key order. *)
Fixpoint merge_state (base patch : json) {struct patch} : result StateError json :=
  match patch with
  | JNull => Err (MergeError "top-level null patch is not a valid StatePatch")
  | JObject patch_map =>
      match base with
      | JObject base_map =>
          let edits : list edit :=
            (λ kv : string * json, (kv.1, merge_entry kv.1 kv.2 (λ b, merge_state b kv.2)))
              <$> patch_map in
          merged ← try_fold (apply_edit base_map) base_map (sort_by entry_leb edits);
          Ok (JObject (obj_of_list merged))
      | _ => Ok patch
      end
  | _ => Ok patch
  end.

(** ** Schema validation *)
Definition is_string (j : json) : bool := match j with JString _ => true | _ => false end.
Definition is_number (j : json) : bool := match j with JNumber _ => true | _ => false end.
Definition is_boolean (j : json) : bool := match j with JBool _ => true | _ => false end.
Definition is_array (j : json) : bool := match j with JArray _ => true | _ => false end.
(** [is_i64() || is_u64()]: the integer representations of a number. *)
Definition is_integer (j : json) : bool :=
  match j with JNumber (PosInt _ | NegInt _) => true | _ => false end.

Definition expect (b : bool) (path what : string) (v : json) : result StateError unit :=
  if b then Ok tt
  else Err (SchemaViolation (path +:+ ": expected " +:+ what +:+ ", got " +:+ type_of v)).

Definition required_of (schema_obj : list (string * json)) : list string :=
  omap as_str (default [] (obj_get "required" schema_obj ≫= as_array)).

Fixpoint validate_value_against_schema (value schema : json) (path : string) {struct value}
    : result StateError unit :=
  match as_object schema with
  | None => Ok tt
  | Some schema_obj =>
      match obj_get "type" schema_obj ≫= as_str with
      | None => Ok tt
      | Some ty =>
          if decide (ty = "object") then
            match value with
            | JObject obj =>
                let props := obj_get "properties" schema_obj ≫= as_object in
                let allow_additional :=
                  default true (obj_get "additionalProperties" schema_obj ≫= as_bool) in
                _ ← try_for_each (λ req,
                      if obj_get req obj is Some _ then Ok tt
                      else Err (SchemaViolation (path +:+ ": missing required property '"
                                  +:+ req +:+ "'"))) (required_of schema_obj);
                match props with
                | None => Ok tt
                | Some props_map =>
                    (fix each (obj : list (string * json)) : result StateError unit :=
                       match obj with
                       | [] => Ok tt
                       | (k, v) :: obj =>
                           _ ← match obj_get k props_map with
                               | Some prop_schema =>
                                   validate_value_against_schema v prop_schema (path +:+ "." +:+ k)
                               | None =>
                                   if allow_additional then Ok tt
                                   else Err (SchemaViolation (path +:+ ": additional property '"
                                               +:+ k +:+ "' not allowed"))
                               end;
                           each obj
                       end) obj
                end
            | _ => Err (SchemaViolation (path +:+ ": expected object, got " +:+ type_of value))
            end
          else if decide (ty = "string") then expect (is_string value) path "string" value
          else if decide (ty = "number") then expect (is_number value) path "number" value
          else if decide (ty = "integer") then
            if is_integer value then Ok tt
            else if is_number value
            then Err (SchemaViolation (path +:+ ": expected integer, got float"))
            else Err (SchemaViolation (path +:+ ": expected integer, got " +:+ type_of value))
          else if decide (ty = "boolean") then expect (is_boolean value) path "boolean" value
          else if decide (ty = "array") then expect (is_array value) path "array" value
          else Ok tt
      end
  end.

Definition validate_against_schema (value schema : json) : result StateError unit :=
  match schema with
  | JNull | JObject [] => Ok tt
  | _ => validate_value_against_schema value schema "$"
  end.

(** ** The store *)
Class StateStore (S : Type) := {
  load : S → ExecutionState;
  validate_patch : S → StatePatch → result StateError unit;
  commit : StatePatch → S → result StateError ExecutionState * S;
}.

(** What the doc comment of the trait promises: [commit] is atomic, and
    [validate_patch] predicts it. *)
Class LawfulStore (S : Type) `{StateStore S} := {
  commit_ok : ∀ p s st s', commit p s = (Ok st, s') → load s' = st;
  commit_err : ∀ p s e s', commit p s = (Err e, s') → s' = s;
  validate_predicts : ∀ p s,
    validate_patch s p = match (commit p s).1 with Ok _ => Ok tt | Err e => Err e end;
}.

Record InMemoryStateStore := mkStore { store_skill : SkillSpec; store_state : ExecutionState }.

Definition store_new (skill : SkillSpec) (initial : ExecutionState)
    : result StateError InMemoryStateStore :=
  _ ← skill_validate skill;
  _ ← validate_against_schema (state_value initial) (schema skill);
  Ok (mkStore skill initial).

Definition mem_validate_patch (s : InMemoryStateStore) (p : StatePatch) : result StateError unit :=
  merged ← merge_state (state_value (store_state s)) (patch_value p);
  _ ← validate_against_schema merged (schema (store_skill s));
  Ok tt.

Definition mem_commit (p : StatePatch) (s : InMemoryStateStore)
    : result StateError ExecutionState * InMemoryStateStore :=
  match merge_state (state_value (store_state s)) (patch_value p) with
  | Err e => (Err e, s)
  | Ok merged =>
      match validate_against_schema merged (schema (store_skill s)) with
      | Err e => (Err e, s)
      | Ok _ => let next := mkState merged in (Ok next, mkStore (store_skill s) next)
      end
  end.

#[global] Instance mem_store : StateStore InMemoryStateStore := {|
  load := store_state;
  validate_patch := mem_validate_patch;
  commit := mem_commit;
|}.

#[global] Instance mem_store_lawful : LawfulStore InMemoryStateStore.
Proof.
  split; cbn; unfold mem_commit, mem_validate_patch.
  - intros p s st s'. repeat case_match; by intros [= <- <-].
  - intros p s e s'. repeat case_match; by intros [= <- <-].
  - intros p s. destruct (merge_state _ _); cbn; [|done].
    by destruct (validate_against_schema _ _).
Qed.

(** ** Model input, log, transitions, tracker *)
Record AgentMessage := mkAgentMessage { am_role : string; am_content : string }.
Record AgentRequest := mkAgentRequest { ar_model : string; ar_messages : list AgentMessage }.

Definition newline : string := String.String (ascii_of_nat 10) "".
Definition fence : string := "```".

Definition build_model_input (to_string : json → string) (skill : SkillSpec)
    (state : ExecutionState) (observation : Observation) (model : string) : AgentRequest :=
  let state_json := to_string (state_value state) in
  let obs_json := match obs_value observation with JString s => s | other => to_string other end in
  mkAgentRequest model
    [mkAgentMessage "system" (instructions skill);
     mkAgentMessage "user" ("Skill Execution State:" +:+ newline +:+ fence +:+ "json" +:+ newline
       +:+ state_json +:+ newline +:+ fence);
     mkAgentMessage "user" ("Latest Observation:" +:+ newline +:+ obs_json)].

Record EventLogEntry := mkEntry {
  e_step : Z;
  e_prev_state : json;
  e_patch : json;
  e_next_state : json;
  e_action : string;
  e_observation : json;
  e_reasoning : option string;
}.
Record EventLog := mkLog { entries : list EventLogEntry; max_entries : option nat }.
Definition log_new : EventLog := mkLog [] None.
Definition log_with_max_entries (max : nat) : EventLog := mkLog [] (Some max).
Definition log_push (e : EventLogEntry) (l : EventLog) : EventLog :=
  let es := entries l ++ [e] in
  match max_entries l with
  | Some max => if (max <? length es)%nat then mkLog (drop (length es - max) es) (Some max)
                else mkLog es (Some max)
  | None => mkLog es None
  end.

Record CommittedTransition := mkTransition {
  prev_state : ExecutionState;
  next_state : ExecutionState;
  ct_action : AgentAction;
  ct_reasoning : option string;
  ct_usage : option AgentUsage;
}.
Definition apply_transition {S} `{StateStore S} (step : AgentStep) (store : S)
    : result StateError CommittedTransition * S :=
  let prev := load store in
  match commit (step_patch step) store with
  | (Err e, store) => (Err e, store)
  | (Ok next, store) =>
      (Ok (mkTransition prev next (step_action step) (step_reasoning step) (step_usage step)), store)
  end.

Record BudgetTracker := mkTracker { bt_cost : NanoUSD; bt_tokens : Z; bt_steps : Z }.
Definition tracker_new : BudgetTracker := mkTracker ZERO 0 0.
Definition record_step (cost : NanoUSD) (tokens : Z) (t : BudgetTracker) : BudgetTracker :=
  mkTracker (from_nanos (as_nanos (bt_cost t) +^ as_nanos cost)%u64) (bt_tokens t +^ tokens)%u64
    (u64_wrapping_add (bt_steps t) 1).

(** ** The merge, entry by entry *)
Lemma try_fold_edits bm (es : list edit) m0 m :
  NoDup es.*1 → obj_sorted m0 → try_fold (apply_edit bm) m0 es = Ok m →
  obj_sorted m ∧ (∀ k, k ∉ es.*1 → obj_get k m = obj_get k m0) ∧
  (∀ k f, (k, f) ∈ es → f (obj_get k bm) = Ok (obj_get k m)).
Proof.
  revert m0. induction es as [|[k f] es IH]; intros m0 Hnd Hs; csimpl.
  { intros [= <-]. split_and!; [done|done|]. intros k f Hk. by apply not_elem_of_nil in Hk. }
  csimpl in Hnd. apply NoDup_cons in Hnd as [Hk Hnd]. unfold apply_edit at 2. csimpl.
  destruct (f (obj_get k bm)) as [o|e] eqn:Hf; csimpl; [|done]. intros Hm.
  set (m1 := match o with Some v => obj_insert k v m0 | None => obj_remove k m0 end) in Hm.
  assert (Hs1 : obj_sorted m1).
  { unfold m1. destruct o; [by apply obj_insert_sorted|by apply obj_remove_sorted]. }
  assert (Hg1 : ∀ x, obj_get x m1 = if decide (x = k) then o else obj_get x m0).
  { intros x. unfold m1. destruct o; [apply obj_get_insert|apply obj_get_remove]. }
  destruct (IH m1 Hnd Hs1 Hm) as (? & Hother & Hes). split_and!; [done|..].
  - intros x Hx. rewrite Hother by set_solver. rewrite Hg1, decide_False by set_solver. done.
  - intros x h [Heq|Hin]%elem_of_cons; [|by apply Hes]. simplify_eq.
    rewrite Hother by done. by rewrite Hg1, decide_True.
Qed.

Lemma try_fold_edits_total bm (es : list edit) m0 :
  (∀ k f, (k, f) ∈ es → is_ok (f (obj_get k bm)) = true) →
  ∃ m, try_fold (apply_edit bm) m0 es = Ok m.
Proof.
  revert m0. induction es as [|[k f] es IH]; intros m0 Hok; csimpl; [eauto|].
  unfold apply_edit at 2. csimpl. pose proof (Hok k f (list_elem_of_here _ _)) as Hf.
  destruct (f (obj_get k bm)); csimpl; [|done]. apply IH. intros. apply Hok. by right.
Qed.

(** The result of merging objects, key by key. *)
Definition merged_at (bm pm m : list (string * json)) (k : string) : Prop :=
  match obj_get k pm with
  | None => obj_get k m = obj_get k bm
  | Some pv => merge_entry k pv (λ b, merge_state b pv) (obj_get k bm) = Ok (obj_get k m)
  end.

Definition edits_of (pm : list (string * json)) : list edit :=
  sort_by entry_leb
    ((λ kv : string * json, (kv.1, merge_entry kv.1 kv.2 (λ b, merge_state b kv.2))) <$> pm).

Lemma merge_objects_unfold bm pm :
  merge_state (JObject bm) (JObject pm) =
  merged ← try_fold (apply_edit bm) bm (edits_of pm); Ok (JObject (obj_of_list merged)).
Proof. done. Qed.

Lemma edits_of_keys pm : (edits_of pm).*1 ≡ₚ pm.*1.
Proof.
  unfold edits_of. rewrite sort_by_perm, <- list_fmap_compose. done.
Qed.
Lemma elem_of_edits pm k f :
  obj_sorted pm → (k, f) ∈ edits_of pm ↔
  ∃ pv, obj_get k pm = Some pv ∧ f = merge_entry k pv (λ b, merge_state b pv).
Proof.
  intros Hs. unfold edits_of. rewrite sort_by_perm, list_elem_of_fmap. split.
  - intros ([k' pv] & [= -> ->] & Hin). exists pv. split; [by apply obj_elem_get|done].
  - intros (pv & Hg & ->). exists (k, pv). split; [done|by apply obj_get_Some_elem].
Qed.

(** Merging sorted objects succeeds with [r] exactly when [r] is the object
    whose every entry is the merge of the corresponding entries. *)
Lemma merge_objects_exact bm pm r :
  obj_sorted bm → obj_sorted pm →
  merge_state (JObject bm) (JObject pm) = Ok r ↔
  ∃ m, r = JObject m ∧ obj_sorted m ∧ ∀ k, merged_at bm pm m k.
Proof.
  intros Hb Hp. rewrite merge_objects_unfold.
  assert (Hnd : NoDup (edits_of pm).*1) by (rewrite edits_of_keys; by apply obj_sorted_NoDup).
  assert (Hspec : ∀ m', try_fold (apply_edit bm) bm (edits_of pm) = Ok m' →
    obj_sorted m' ∧ ∀ k, merged_at bm pm m' k).
  { intros m' Hm. destruct (try_fold_edits bm (edits_of pm) bm m' Hnd Hb Hm) as (? & Ho & He).
    split; [done|]. intros k. unfold merged_at. destruct (obj_get k pm) as [pv|] eqn:Hk.
    - apply He, elem_of_edits; eauto.
    - apply Ho. rewrite edits_of_keys. by apply obj_get_None. }
  split.
  - destruct (try_fold _ _ _) as [m'|e]; csimpl; intros [= <-].
    destruct (Hspec m' eq_refl) as [Hs Ha]. rewrite obj_of_list_id by done. eauto.
  - intros (m & -> & Hs & Ha).
    destruct (try_fold_edits_total bm (edits_of pm) bm) as [m' Hm'].
    { intros k f (pv & Hg & ->)%elem_of_edits; [|done]. specialize (Ha k).
      unfold merged_at in Ha. rewrite Hg in Ha. by rewrite Ha. }
    destruct (Hspec m' Hm') as [Hs' Ha']. rewrite Hm'. csimpl.
    rewrite obj_of_list_id by done. do 2 f_equal. apply obj_ext; [done..|]. intros k.
    specialize (Ha k). specialize (Ha' k). unfold merged_at in *.
    destruct (obj_get k pm); congruence.
Qed.

(** ** Laws of the merge *)
Lemma json_wf_object m : json_wf (JObject m) ↔ obj_sorted m ∧ ∀ k v, obj_get k m = Some v → json_wf v.
Proof.
  change (json_wf (JObject m)) with (obj_sorted m ∧ foldr (λ kv P, json_wf kv.2 ∧ P) True m).
  rewrite (foldr_and_Forall (λ kv, json_wf kv.2)), Forall_forall.
  split; intros [Hs Hv]; (split; [done|]).
  - intros k v Hk. apply (Hv (k, v)). by apply obj_get_Some_elem.
  - intros [k v] Hin. apply (Hv k). by apply obj_elem_get.
Qed.

(** Structural induction on the entries of an object. *)
Lemma json_obj_ind (P : json → Prop) :
  (∀ m, (∀ k v, obj_get k m = Some v → P v) → P (JObject m)) →
  (∀ j, is_object j = false → P j) → ∀ j, P j.
Proof.
  intros Hobj Hleaf j. induction j as [| | | | |m IH] using json_ind'; try by apply Hleaf.
  apply Hobj. intros k v Hk. rewrite Forall_forall in IH.
  apply (IH (k, v)). by apply obj_get_Some_elem.
Qed.

(** The patch has an object where the base has something else. *)
Inductive conflict : json → json → Prop :=
| conflict_here bm pm k b p :
    obj_get k bm = Some b → is_object b = false → obj_get k pm = Some (JObject p) →
    conflict (JObject bm) (JObject pm)
| conflict_below bm pm k b p :
    obj_get k bm = Some (JObject b) → obj_get k pm = Some (JObject p) →
    conflict (JObject b) (JObject p) → conflict (JObject bm) (JObject pm).

Lemma try_fold_edits_err bm (es : list edit) m0 e :
  try_fold (apply_edit bm) m0 es = Err e → ∃ k f, (k, f) ∈ es ∧ f (obj_get k bm) = Err e.
Proof.
  revert m0. induction es as [|[k f] es IH]; intros m0; csimpl; [done|].
  unfold apply_edit at 2. csimpl. destruct (f (obj_get k bm)) as [o|e'] eqn:Hf; csimpl.
  - intros (k' & f' & ? & ?)%IH. exists k', f'. split; [by right|done].
  - intros [= ->]. exists k, f. split; [by left|done].
Qed.

Lemma merge_err_conflict patch base e :
  json_wf base → json_wf patch → is_object base = true → is_object patch = true →
  merge_state base patch = Err e → conflict base patch ∧ ∃ msg, e = MergeError msg.
Proof.
  revert base. induction patch as [pm IH|patch Hl] using json_obj_ind; intros base;
    [|intros _ _ _ Ho; by rewrite Ho in Hl].
  destruct base as [| | | | |bm]; try done. intros Hb Hp _ _.
  apply json_wf_object in Hb as [Hbs Hbv]. apply json_wf_object in Hp as [Hps Hpv].
  rewrite merge_objects_unfold. destruct (try_fold _ _ _) as [|e'] eqn:Hf; csimpl; [done|].
  intros [= ->]. apply try_fold_edits_err in Hf as (k & f & Hin & He).
  apply elem_of_edits in Hin as (pv & Hpk & ->); [|done]. unfold merge_entry in He.
  destruct (is_null pv); [done|]. destruct (obj_get k bm) as [b|] eqn:Hbk; [|done].
  destruct pv as [| | | | |p]; try by destruct b.
  destruct b as [| | | | |b];
    try (injection He as <-; split; [by eapply conflict_here|eauto]).
  destruct (merge_state (JObject b) (JObject p)) as [|e''] eqn:Hm; [done|]. injection He as ->.
  destruct (IH k (JObject p) Hpk (JObject b)) as [? ?]; eauto.
  split; [by eapply conflict_below|done].
Qed.

Lemma merge_ok_no_conflict base patch r :
  conflict base patch → json_wf base → json_wf patch → merge_state base patch ≠ Ok r.
Proof.
  intros Hc. revert r. induction Hc as [bm pm k b p Hb Hobj Hp|bm pm k b p Hb Hp Hc IH];
    intros r Hbw Hpw Hm; apply json_wf_object in Hbw as [Hbs Hbv];
    apply json_wf_object in Hpw as [Hps Hpv];
    apply merge_objects_exact in Hm as (m & _ & _ & Ha); try done;
    specialize (Ha k); unfold merged_at in Ha; rewrite Hp, Hb in Ha; unfold merge_entry in Ha;
    cbn [is_null] in Ha.
  - by destruct b.
  - destruct (merge_state (JObject b) (JObject p)) as [v|] eqn:Hm; [|done].
    apply (IH v); eauto.
Qed.

Lemma merge_wf patch base r :
  json_wf base → json_wf patch → merge_state base patch = Ok r → json_wf r.
Proof.
  revert base r. induction patch as [pm IH|patch Hleaf] using json_obj_ind; intros base r.
  - destruct base as [| | | | |bm]; try (by intros _ ? [= <-]). intros Hb Hp Hm.
    apply json_wf_object in Hb as [Hbs Hbv]. apply json_wf_object in Hp as [Hps Hpv].
    apply merge_objects_exact in Hm as (m & -> & Hs & Ha); [|done..].
    apply json_wf_object. split; [done|]. intros k v Hv. specialize (Ha k).
    unfold merged_at in Ha. destruct (obj_get k pm) as [pv|] eqn:Hpk; [|rewrite Ha in Hv; eauto].
    unfold merge_entry in Ha. rewrite Hv in Ha. destruct (is_null pv); [done|].
    destruct (obj_get k bm) as [b|] eqn:Hbk; [|by simplify_eq; eauto].
    destruct b, pv; simplify_eq; eauto.
    destruct (merge_state _ _) eqn:Hm; simplify_eq/=. eauto.
  - intros _ Hp. destruct patch; try done; by destruct base; intros [= <-].
Qed.

(** No [null] inside the objects of the value. *)
Inductive clean : json → Prop :=
| clean_leaf j : is_object j = false → j ≠ JNull → clean j
| clean_object m : (∀ k v, obj_get k m = Some v → clean v) → clean (JObject m).

(** *** The documented rules *)

(** What the rules make of the value under a key, of the base and of the
    patch: a missing patch value changes nothing, a [null] deletes, a scalar or
    an array replaces, an object merges, with nothing too. *)
Inductive merges : option json → option json → option json → Prop :=
| merges_unchanged b : merges b None b
| merges_deleted b : merges b (Some JNull) None
| merges_replaced b p : is_object p = false → p ≠ JNull → merges b (Some p) (Some p)
| merges_object b p m : obj_sorted m →
    (∀ k, merges (obj_get k b) (obj_get k p) (obj_get k m)) →
    merges (Some (JObject b)) (Some (JObject p)) (Some (JObject m))
| merges_new p m : obj_sorted m →
    (∀ k, merges None (obj_get k p) (obj_get k m)) →
    merges None (Some (JObject p)) (Some (JObject m)).

(** A patch that deletes nothing inside an object it adds. *)
Inductive deletes_existing : option json → json → Prop :=
| deletes_leaf b p : is_object p = false → deletes_existing b p
| deletes_object b p :
    (∀ k v, obj_get k p = Some v → deletes_existing (obj_get k b) v) →
    deletes_existing (Some (JObject b)) (JObject p)
| deletes_conflict b p : is_object b = false → deletes_existing (Some b) (JObject p)
| deletes_nothing p : clean (JObject p) → deletes_existing None (JObject p).

Lemma merges_clean p : clean p → json_wf p → ∀ r, merges None (Some p) r ↔ r = Some p.
Proof.
  induction 1 as [p Hl Hn|m Hm IH]; intros Hw r.
  - split; [|intros ->; by apply merges_replaced]. intros Hr. inversion Hr; subst; done.
  - apply json_wf_object in Hw as [Hs Hv]. split.
    + intros Hr. inversion Hr as [| |? ? Ho| |p' m' Hs' Hk]; subst; [done|].
      do 2 f_equal. apply obj_ext; [done..|]. intros k. specialize (Hk k).
      destruct (obj_get k m) as [v|] eqn:Hg; [by apply (IH k v Hg (Hv k v Hg))|by inversion Hk].
    + intros ->. apply merges_new; [done|]. intros k. destruct (obj_get k m) as [v|] eqn:Hg; [|constructor].
      by apply (IH k v Hg (Hv k v Hg)).
Qed.

(** The rules for one entry. *)
Lemma merge_entry_rules k pv b r :
  (∀ bo po, b = Some (JObject bo) → pv = JObject po →
     ∀ v, merge_state (JObject bo) (JObject po) = Ok v ↔ merges b (Some pv) (Some v)) →
  json_wf pv → deletes_existing b pv →
  merge_entry k pv (λ b, merge_state b pv) b = Ok r ↔ merges b (Some pv) r.
Proof.
  intros IH Hw Hd. unfold merge_entry.
  destruct (is_object pv) eqn:Hpo; [destruct pv as [| | | | |po]; try done|].
  - cbn [is_null]. destruct b as [b|].
    + destruct (is_object b) eqn:Hbo; [destruct b as [| | | | |bo]; try done|].
      * specialize (IH bo po eq_refl eq_refl). destruct (merge_state (JObject bo) (JObject po)) as [v|e] eqn:Hm; cbn.
        -- split; [intros [= <-]; by apply IH|]. intros Hr. assert (∃ x, r = Some x) as [x ->] by (inversion Hr; eauto).
           apply IH in Hr. congruence.
        -- split; [done|]. intros Hr. assert (∃ x, r = Some x) as [x ->] by (inversion Hr; eauto). by apply IH in Hr.
      * split; [by destruct b|]. intros Hr. inversion Hr; subst; by try rewrite Hbo in *.
    + inversion Hd as [? ? Ho| | |? Hc]; subst; [done|]. rewrite (merges_clean _ Hc Hw). naive_solver.
  - assert (∀ v, is_object v = false → v ≠ JNull → merges b (Some v) r ↔ r = Some v) as Hleaf.
    { intros v Hv Hn. split; [|intros ->; by constructor]. intros Hr. inversion Hr; subst; try done. }
    destruct pv; cbn [is_null]; [|rewrite Hleaf by done; destruct b as [[]|]; naive_solver..|done].
    split; [intros [= <-]; constructor|]. intros Hr. inversion Hr; subst; by try done.
Qed.

Lemma merges_exact patch :
  ∀ bm pm r, patch = JObject pm → json_wf (JObject bm) → json_wf patch → deletes_existing (Some (JObject bm)) patch →
  merge_state (JObject bm) patch = Ok r ↔ merges (Some (JObject bm)) (Some patch) (Some r).
Proof.
  induction patch as [pm0 IH|] using json_obj_ind; intros bm pm r Hpm; [|by subst]. injection Hpm as ->.
  intros Hb Hp Hd. apply json_wf_object in Hb as [Hbs Hbv]. apply json_wf_object in Hp as [Hps Hpv].
  assert (∀ k v, obj_get k pm = Some v → deletes_existing (obj_get k bm) v) as Hdv by (by inversion Hd).
  assert (∀ k pv o, obj_get k pm = Some pv →
    merge_entry k pv (λ b, merge_state b pv) (obj_get k bm) = Ok o ↔ merges (obj_get k bm) (Some pv) o) as Hentry.
  { intros k pv o Hk. apply merge_entry_rules; [|by eapply Hpv|by eapply Hdv].
    intros bo po Hbo -> v. rewrite Hbo. eapply IH; [exact Hk|done|by eapply Hbv|by eapply Hpv|]. rewrite <- Hbo. by apply Hdv. }
  rewrite merge_objects_exact by done. split.
  - intros (m & -> & Hs & Ha). apply merges_object; [done|]. intros k. specialize (Ha k). unfold merged_at in Ha.
    destruct (obj_get k pm) as [pv|] eqn:Hk; [by apply Hentry|]. rewrite Ha. constructor.
  - intros Hr. inversion Hr as [| |? ? Ho|? ? m Hs Ha|]; subst; [done|]. exists m. split_and!; [done..|].
    intros k. unfold merged_at. specialize (Ha k). destruct (obj_get k pm) as [pv|] eqn:Hk; [by apply Hentry|].
    by inversion Ha.
Qed.

(** C29. [merge_state] of two objects, where the patch deletes nothing inside an
    object it adds: it fails exactly when the patch holds an object at a path
    where the base holds a scalar or an array; otherwise its result is the one
    value that the documented rules give, at every depth. *)
Theorem merge_state_exact bm pm :
  json_wf (JObject bm) → json_wf (JObject pm) → deletes_existing (Some (JObject bm)) (JObject pm) →
  (conflict (JObject bm) (JObject pm) ∧
     ∃ e, merge_state (JObject bm) (JObject pm) = Err (MergeError e)) ∨
  (¬ conflict (JObject bm) (JObject pm) ∧
   ∃ m, merge_state (JObject bm) (JObject pm) = Ok (JObject m) ∧ json_wf (JObject m) ∧
     ∀ r, merges (Some (JObject bm)) (Some (JObject pm)) (Some r) ↔ r = JObject m).
Proof.
  intros Hb Hp Hd. destruct (merge_state (JObject bm) (JObject pm)) as [r|e] eqn:Hm.
  - right. split; [intros Hc; by eapply merge_ok_no_conflict|].
    pose proof (merge_wf _ _ _ Hb Hp Hm) as Hwf.
    assert (∃ m, r = JObject m) as [m ->].
    { pose proof Hm as Hm'. apply json_wf_object in Hb as [? _]. apply json_wf_object in Hp as [? _].
      apply merge_objects_exact in Hm' as (m & -> & _); eauto. }
    exists m. split_and!; [done..|]. intros r. rewrite <- (merges_exact _ _ _ _ eq_refl Hb Hp Hd), Hm. naive_solver.
  - left. destruct (merge_err_conflict (JObject pm) (JObject bm) e) as [? [msg ->]]; eauto.
Qed.

Lemma merge_state_exact_witness :
  let base := [("a", JObject [("x", JBool true); ("y", JBool true)]); ("b", JNull)] in
  let patch := [("a", JObject [("x", JNull)]); ("c", JObject [("z", JBool false)])] in
  ¬ conflict (JObject base) (JObject patch) ∧
  merge_state (JObject base) (JObject patch) =
    Ok (JObject [("a", JObject [("y", JBool true)]); ("b", JNull); ("c", JObject [("z", JBool false)])]) ∧
  merges (Some (JObject base)) (Some (JObject patch))
    (Some (JObject [("a", JObject [("y", JBool true)]); ("b", JNull); ("c", JObject [("z", JBool false)])])).
Proof.
  intros base patch. destruct (merge_state_exact base patch) as [[_ [e He]]|[Hn (m & Hm & _ & Hr)]].
  - cbn. split_and!; try done; repeat constructor; discriminate.
  - cbn. split_and!; try done; repeat constructor; discriminate.
  - apply deletes_object. intros k v Hv. cbn in Hv. repeat case_decide; simplify_eq; cbn.
    + apply deletes_object. intros k v Hv. cbn in Hv. case_decide; simplify_eq. by apply deletes_leaf.
    + apply deletes_nothing, clean_object. intros k v Hv. cbn in Hv. case_decide; simplify_eq. by apply clean_leaf.
  - vm_compute in He. discriminate He.
  - split; [exact Hn|]. split; [vm_compute; reflexivity|]. apply Hr. vm_compute in Hm. by injection Hm as <-.
Defined.

Lemma merge_self p : json_wf (JObject p) → clean (JObject p) →
  merge_state (JObject p) (JObject p) = Ok (JObject p).
Proof.
  intros Hw Hc. remember (JObject p) as j eqn:Hj. revert p Hj.
  induction Hc as [j Hl _|m Hm IH]; intros p Hj; [by subst|]. injection Hj as <-.
  apply json_wf_object in Hw as [Hs Hv]. apply merge_objects_exact; [done..|].
  exists m. split_and!; [done..|]. intros k. unfold merged_at.
  destruct (obj_get k m) as [v|] eqn:Hk; [|done]. unfold merge_entry.
  destruct v as [| | | | |q]; cbn [is_null]; try done.
  - specialize (Hm k _ Hk). by inversion Hm.
  - by rewrite (IH k _ Hk (Hv k _ Hk) q).
Qed.

(** Applying a patch twice is applying it once, if the patch deletes only at
    its top level. *)
Theorem merge_idempotent bm pm r :
  json_wf (JObject bm) → json_wf (JObject pm) →
  (∀ k v, obj_get k pm = Some v → v = JNull ∨ clean v) →
  merge_state (JObject bm) (JObject pm) = Ok r → merge_state r (JObject pm) = Ok r.
Proof.
  remember (JObject pm) as patch eqn:Hpm. revert bm pm r Hpm.
  induction patch as [pm0 IH|] using json_obj_ind; intros bm pm r Hpm; [|by subst].
  injection Hpm as ->. intros Hb Hp Hclean Hm.
  apply json_wf_object in Hb as [Hbs Hbv]. apply json_wf_object in Hp as [Hps Hpv].
  apply merge_objects_exact in Hm as (m & -> & Hs & Ha); [|done..].
  apply merge_objects_exact; [done..|]. exists m. split_and!; [done..|]. intros k.
  specialize (Ha k). unfold merged_at in *. destruct (obj_get k pm) as [pv|] eqn:Hpk; [|done].
  unfold merge_entry in *. destruct (is_null pv) eqn:Hn; [done|].
  assert (Hc : clean pv) by (destruct (Hclean k pv Hpk) as [-> | ?]; done).
  destruct (obj_get k bm) as [b|] eqn:Hbk.
  - destruct pv as [| | | | |p]; try (destruct b; injection Ha as <-; done).
    destruct b as [| | | | |b]; try done.
    destruct (merge_state (JObject b) (JObject p)) as [r|] eqn:Hm; [|done].
    cbn in Ha. injection Ha as <-. assert (∃ m', r = JObject m') as [m' ->].
    { specialize (Hbv k _ Hbk). specialize (Hpv k _ Hpk).
      apply json_wf_object in Hbv as [? _]. apply json_wf_object in Hpv as [? _].
      apply merge_objects_exact in Hm as (m' & -> & _); eauto. }
    rewrite (IH k _ Hpk b p (JObject m')); eauto.
    intros k' v' Hv'. right. inversion Hc as [? Hl|? Hcv]; [done|eauto].
  - injection Ha as <-. destruct pv as [| | | | |p]; try done.
    rewrite merge_self; eauto.
Qed.

Lemma merge_idempotent_witness :
  merge_state (JObject [("a", JNull)]) (JObject [("a", JNull); ("b", JBool true)]) =
    Ok (JObject [("b", JBool true)]) ∧
  merge_state (JObject [("b", JBool true)]) (JObject [("a", JNull); ("b", JBool true)]) =
    Ok (JObject [("b", JBool true)]).
Proof.
  split; [vm_compute; reflexivity|].
  apply (merge_idempotent [("a", JNull)] [("a", JNull); ("b", JBool true)]).
  - split; [repeat constructor|by cbn].
  - split; [repeat constructor; cbn; congruence|by cbn].
  - intros k v. cbn. repeat case_decide; intros [= <-]; [by left|right; by constructor].
  - vm_compute. reflexivity.
Defined.

(** A [null] inside an object that the patch adds under a new key is stored
    as it is, although a [null] in a patch is documented to delete its key; a
    second application of the patch then deletes it, so the two applications
    differ. *)
Theorem nested_null_is_stored :
  let patch := JObject [("a", JObject [("x", JNull)])] in
  merge_state (JObject []) patch = Ok patch ∧
  merge_state patch patch = Ok (JObject [("a", JObject [])]).
Proof. split; reflexivity. Qed.

(** ** The store keeps its schema *)
Lemma merge_object base patch r :
  is_object base = true → is_object patch = true → merge_state base patch = Ok r →
  is_object r = true.
Proof.
  destruct base, patch; try done. intros _ _. rewrite merge_objects_unfold.
  destruct (try_fold _ _ _); cbn; [|done]. by intros [= <-].
Qed.

Definition store_ok (skill : SkillSpec) (s : InMemoryStateStore) : Prop :=
  store_skill s = skill ∧ is_object (state_value (load s)) = true ∧
  validate_against_schema (state_value (load s)) (schema skill) = Ok tt.

Lemma mem_commit_ok skill p s :
  is_object (patch_value p) = true → store_ok skill s → store_ok skill (commit p s).2.
Proof.
  intros Hp (Hsk & Hobj & Hval). change (commit p s) with (mem_commit p s). unfold mem_commit.
  change (load s) with (store_state s) in *.
  destruct (merge_state _ _) as [m|] eqn:Hm; [|done].
  destruct (validate_against_schema m _) as [[]|] eqn:Hv; [|done].
  rewrite Hsk in Hv. split_and!; [done| |done].
  by apply (merge_object _ _ _ Hobj Hp Hm).
Qed.

(** Whatever patches are committed, accepted or rejected, the state of an
    in-memory store stays a JSON object that its skill's schema accepts; a
    rejected patch changes nothing. *)
Theorem store_always_valid skill initial s0 ps :
  store_new skill initial = Ok s0 → is_object (state_value initial) = true →
  Forall (λ p, is_object (patch_value p) = true) ps →
  let s := foldl (λ s p, (commit p s).2) s0 ps in
  is_object (state_value (load s)) = true ∧
  validate_against_schema (state_value (load s)) (schema skill) = Ok tt ∧
  ∀ p e s', commit p s = (Err e, s') → s' = s.
Proof.
  intros Hnew Hobj Hps s.
  assert (H0 : store_ok skill s0).
  { unfold store_new in Hnew. destruct (skill_validate skill); [|done]. cbn in Hnew.
    destruct (validate_against_schema _ _) as [[]|] eqn:Hv; [|done]. cbn in Hnew.
    injection Hnew as <-. by split_and!. }
  assert (Hs : store_ok skill s).
  { unfold s. clear Hnew s. revert s0 H0. induction Hps as [|p ps Hp _ IH]; intros s0 H0; cbn; [done|].
    apply IH. by apply mem_commit_ok. }
  destruct Hs as (_ & ? & ?). split_and!; [done..|]. intros p e s'. apply commit_err.
Qed.

Definition counter_skill : SkillSpec :=
  mkSkill (JObject [("properties", JObject [("counter", JObject [("type", JString "integer")])]);
                    ("required", JArray [JString "counter"]); ("type", JString "object")])
    "count" "1".
Definition counter_state (n : Z) : json := JObject [("counter", JNumber (PosInt n))].

Lemma store_always_valid_witness :
  let ps := [mkPatch (counter_state 1); mkPatch (JObject [("counter", JNull)])] in
  let s := foldl (λ s p, (commit p s).2) (mkStore counter_skill (mkState (counter_state 0))) ps in
  store_state s = mkState (counter_state 1) ∧
  is_object (state_value (load s)) = true ∧
  validate_against_schema (state_value (load s)) (schema counter_skill) = Ok tt ∧
  ∀ p e s', commit p s = (Err e, s') → s' = s.
Proof.
  cbv zeta. split; [vm_compute; reflexivity|].
  apply (store_always_valid counter_skill (mkState (counter_state 0))).
  - vm_compute. reflexivity.
  - reflexivity.
  - repeat constructor.
Defined.

(** ** The bounded log *)

(** A bounded log holds exactly the newest [max] entries, in order. *)
Theorem log_keeps_latest max es :
  entries (foldl (λ l e, log_push e l) (log_with_max_entries max) es) =
  drop (length es - max) es.
Proof.
  cut (foldl (λ l e, log_push e l) (log_with_max_entries max) es =
       mkLog (drop (length es - max) es) (Some max)); [by intros ->|].
  induction es as [|e es IH] using rev_ind; [done|].
  rewrite foldl_app, IH. cbn [foldl]. unfold log_push; cbn [entries max_entries].
  rewrite !length_app, length_drop. change (length [e]) with 1%nat.
  destruct (Nat.ltb_spec max (length es - (length es - max) + 1)); f_equal.
  - rewrite !drop_app, drop_drop, length_drop. f_equal; f_equal; lia.
  - rewrite !(proj2 (Nat.sub_0_le _ _)) by lia. done.
Qed.
