(* ===== verification/AgentRunner.v ===== *)
(** * The agent runner ([crates/fusion-agent-state/src/runner.rs])

    [AgentRunner::step] and [run_until] over any [StateStore]. The host's LLM
    and tool executor are parameters, functions of the number of calls so far;
    a cancellation token is the answers of its successive polls. Besides the
    fields of the struct the model records the tool executions, each with the
    state that was committed when it started. *)
From S2P Require Import Prelude Text Json Money AgentState.
Open Scope stdpp_scope.
Open Scope Z_scope.

(** [benchmark.rs]: four bytes per token, rounded up. *)
Definition estimate_tokens (text : string) : Z := (Z.of_nat (String.length text) + 3) / 4.
Definition tokens_for_request (req : AgentRequest) : Z :=
  foldl (λ total m, u64_wrapping_add (u64_wrapping_add total (estimate_tokens (am_role m)))
                      (estimate_tokens (am_content m))) 0 (ar_messages req).

Record RunnerConfig := mkConfig {
  max_steps : Z;
  cfg_model : string;
  cfg_max_tokens : option Z;
}.
Definition default_config : RunnerConfig := mkConfig 200 "mock-model" None.

Record StepOutcome := mkStepOutcome {
  so_t : Z;
  committed_state : ExecutionState;
  so_observation : Observation;
  so_total_tokens : Z;
}.

Record AgentRunner (S : Type) := mkRunner {
  runner_skill : SkillSpec;
  store : S;
  log : EventLog;
  config : RunnerConfig;
  runner_tokens : Z;
  llm_calls : nat;
  executed : list (AgentAction * ExecutionState);
  polls : nat;
}.
Arguments mkRunner {S}.
Arguments runner_skill {S}.
Arguments store {S}.
Arguments log {S}.
Arguments config {S}.
Arguments runner_tokens {S}.
Arguments llm_calls {S}.
Arguments executed {S}.
Arguments polls {S}.

Section runner.
Context {S : Type} `{StateStore S}.
Context (to_string : json → string).
Context (complete : nat → AgentRequest → result string AgentStep).
Context (execute : nat → AgentAction → result string Observation).
Context (cancelled : option (nat → bool)).
Implicit Types r : AgentRunner S.

Definition runner_new (skill : SkillSpec) (st : S) (cfg : RunnerConfig) : AgentRunner S :=
  mkRunner skill st log_new cfg 0 0 [] 0.

Definition with_store (st : S) r : AgentRunner S :=
  mkRunner (runner_skill r) st (log r) (config r) (runner_tokens r) (llm_calls r) (executed r)
    (polls r).
Definition with_log (l : EventLog) r : AgentRunner S :=
  mkRunner (runner_skill r) (store r) l (config r) (runner_tokens r) (llm_calls r) (executed r)
    (polls r).
Definition with_tokens (t : Z) r : AgentRunner S :=
  mkRunner (runner_skill r) (store r) (log r) (config r) t (llm_calls r) (executed r) (polls r).
Definition count_llm r : AgentRunner S :=
  mkRunner (runner_skill r) (store r) (log r) (config r) (runner_tokens r)
    (Datatypes.S (llm_calls r)) (executed r) (polls r).
Definition record_tool (a : AgentAction) r : AgentRunner S :=
  mkRunner (runner_skill r) (store r) (log r) (config r) (runner_tokens r) (llm_calls r)
    (executed r ++ [(a, load (store r))]) (polls r).

(** [tok.is_cancelled()], if there is a token. *)
Definition poll r : bool * AgentRunner S :=
  match cancelled with
  | Some f => (f (polls r),
      mkRunner (runner_skill r) (store r) (log r) (config r) (runner_tokens r) (llm_calls r)
        (executed r) (Datatypes.S (polls r)))
  | None => (false, r)
  end.

Definition state_error_display (e : StateError) : string :=
  match e with
  | NotAnObject m => "expected JSON object: " +:+ m
  | SchemaViolation m => "schema violation: " +:+ m
  | MergeError m => "merge error: " +:+ m
  | PatchValidation m => "patch validation failed: " +:+ m
  end.

Definition entry_of (t : Z) (prev : ExecutionState) (step : AgentStep) (c : CommittedTransition)
    (obs : json) : EventLogEntry :=
  mkEntry t (state_value prev) (patch_value (step_patch step)) (state_value (next_state c))
    (raw (ct_action c)) obs (ct_reasoning c).

Definition cancelled_observation : json :=
  JObject [("before_tool", JBool true); ("cancelled", JBool true)].

(** From the committed transition on. *)
Definition finish_step (t input_tokens : Z) (prev : ExecutionState) (step : AgentStep)
    (c : CommittedTransition) r : result string StepOutcome * AgentRunner S :=
  let '(stop, r) := poll r in
  if stop then
    (Err "cancelled before tool execution",
     with_log (log_push (entry_of t prev step c cancelled_observation) (log r)) r)
  else
    let predicted := ((runner_tokens r +^ input_tokens) +^ 12)%u64 in
    if match cfg_max_tokens (config r) with Some max => (max <? predicted)%Z | None => false end
    then (Err ("token budget " +:+ pretty (default 0 (cfg_max_tokens (config r)))
            +:+ " would exceed: predicted " +:+ pretty predicted +:+ " > max"), r)
    else
      let n := length (executed r) in
      let r := record_tool (ct_action c) r in
      match execute n (ct_action c) with
      | Err e => (Err e, r)
      | Ok next_obs =>
          let output_tokens := default 12 (au_completion_tokens <$> ct_usage c) in
          let total := (runner_tokens r +^ (input_tokens +^ output_tokens))%u64 in
          let r := with_tokens total r in
          if match cfg_max_tokens (config r) with Some max => (max <? total)%Z | None => false end
          then (Err ("token budget " +:+ pretty (default 0 (cfg_max_tokens (config r)))
                  +:+ " exceeded: " +:+ pretty total), r)
          else
            (Ok (mkStepOutcome t (next_state c) next_obs total),
             with_log (log_push (entry_of t prev step c (obs_value next_obs)) (log r)) r)
      end.

Definition step (observation : Observation) r : result string StepOutcome * AgentRunner S :=
  let '(stop, r) := poll r in
  if stop then (Err "cancelled", r)
  else
    let t := Z.of_nat (length (entries (log r))) + 1 in
    if (max_steps (config r) <? t)%Z
    then (Err ("max_steps " +:+ pretty (max_steps (config r)) +:+ " exceeded"), r)
    else
      let req := build_model_input to_string (runner_skill r) (load (store r)) observation
                   (cfg_model (config r)) in
      let input_tokens := tokens_for_request req in
      let n := llm_calls r in
      let r := count_llm r in
      match complete n req with
      | Err e => (Err e, r)
      | Ok step =>
          let '(stop, r) := poll r in
          if stop then (Err "cancelled before commit", r)
          else
            let prev := load (store r) in
            match apply_transition step (store r) with
            | (Err e, st) => (Err (state_error_display e), with_store st r)
            | (Ok c, st) => finish_step t input_tokens prev step c (with_store st r)
            end
      end.

(** [fuel] is the number of iterations left of [for _ in 0..max_steps]. *)
Fixpoint run_until_loop (is_done : ExecutionState → Observation → bool) (fuel : nat)
    (observation : Observation) r : result string ExecutionState * AgentRunner S :=
  match fuel with
  | O => (Err "run_until: max_steps reached without done", r)
  | Datatypes.S fuel =>
      let '(stop, r) := poll r in
      if stop then (Err "cancelled", r)
      else
        let state := load (store r) in
        if is_done state observation then (Ok state, r)
        else match step observation r with
          | (Err e, r) => (Err e, r)
          | (Ok outcome, r) => run_until_loop is_done fuel (so_observation outcome) r
          end
  end.
Definition run_until (is_done : ExecutionState → Observation → bool) (observation : Observation) r
    : result string ExecutionState * AgentRunner S :=
  run_until_loop is_done (Z.to_nat (max_steps (config r))) observation r.

(** ** What a step does *)
Context {HL : LawfulStore S}.

Lemma poll_same r b r' :
  poll r = (b, r') → runner_skill r' = runner_skill r ∧ store r' = store r ∧ log r' = log r ∧
    config r' = config r ∧ runner_tokens r' = runner_tokens r ∧ executed r' = executed r.
Proof. unfold poll. case_match; by intros [= <- <-]. Qed.

(** What became of the step: nothing; a commit that was not followed by a
    tool call; a commit followed by the tool call on the committed state. *)
Inductive step_effect r r' : Prop :=
| effect_none :
    load (store r') = load (store r) → executed r' = executed r → log r' = log r →
    step_effect r r'
| effect_committed p st :
    (commit p (store r)).1 = Ok st → load (store r') = st → executed r' = executed r →
    step_effect r r'
| effect_executed p st a :
    (commit p (store r)).1 = Ok st → load (store r') = st →
    executed r' = executed r ++ [(a, st)] → step_effect r r'.

(** What a successful step has done. *)
Record step_success r r' (o : StepOutcome) : Prop := {
  ss_state : load (store r') = committed_state o;
  ss_executed : ∃ a, executed r' = executed r ++ [(a, load (store r'))];
  ss_log : ∃ e, log r' = log_push e (log r) ∧ e_prev_state e = state_value (load (store r)) ∧
    e_next_state e = state_value (load (store r')) ∧
    e_step e = Z.of_nat (length (entries (log r))) + 1 ∧
    e_observation e = obs_value (so_observation o);
  ss_bound : Z.of_nat (length (entries (log r))) < max_steps (config r);
  ss_tokens : runner_tokens r ≤ u64_max → ∀ max, cfg_max_tokens (config r) = Some max →
    runner_tokens r' ≤ max;
  ss_config : config r' = config r;
}.

Lemma finish_step_spec t inp prev step0 c p r0 r res r' :
  finish_step t inp prev step0 c r = (res, r') →
  prev = load (store r0) → load (store r) = next_state c →
  (commit p (store r0)).1 = Ok (next_state c) →
  executed r = executed r0 → log r = log r0 → config r = config r0 →
  t = Z.of_nat (length (entries (log r0))) + 1 → t ≤ max_steps (config r0) →
  step_effect r0 r' ∧ ∀ o, res = Ok o → step_success r0 r' o.
Proof.
  intros Hf -> Hst Hc He Hl Hcf -> Ht. unfold finish_step in Hf.
  destruct (poll r) as [stop r1] eqn:Hp.
  apply poll_same in Hp as (_ & Es & El & Ecf & _ & Eex).
  destruct stop.
  { injection Hf as <- <-. split; [|done]. eapply effect_committed; cbn; [done|congruence..]. }
  match type of Hf with (if ?b then _ else _) = _ => destruct b end.
  { injection Hf as <- <-. split; [|done]. eapply effect_committed; cbn; [done|congruence..]. }
  destruct (execute _ _) as [obs|e].
  2: { injection Hf as <- <-. split; [|done]. eapply effect_executed; cbn; [done|congruence|].
       rewrite Eex, He, Es, Hst. done. }
  match type of Hf with (if ?b then _ else _) = _ => destruct b eqn:Hb end; injection Hf as <- <-.
  { split; [|done]. eapply effect_executed; cbn; [done|congruence|].
    rewrite Eex, He, Es, Hst. done. }
  split.
  { eapply effect_executed; cbn; [done|congruence|]. rewrite Eex, He, Es, Hst. done. }
  intros o [= <-]. split; cbn in *.
  - congruence.
  - exists (ct_action c). rewrite Eex, He, Es. done.
  - eexists. rewrite El, Hl. split; [done|]. cbn. rewrite Es, Hst. done.
  - lia.
  - intros _ max Hmax. rewrite Ecf, Hcf, Hmax in Hb. by apply Z.ltb_ge in Hb.
  - congruence.
Qed.

Lemma step_spec obs r res r' :
  step obs r = (res, r') → step_effect r r' ∧ ∀ o, res = Ok o → step_success r r' o.
Proof using HL.
  unfold step. destruct (poll r) as [stop r1] eqn:Hp.
  apply poll_same in Hp as (_ & Es & El & Ecf & _ & Eex).
  destruct stop.
  { intros [= <- <-]. split; [|done]. apply effect_none; congruence. }
  destruct (Z.ltb_spec (max_steps (config r1)) (Z.of_nat (length (entries (log r1))) + 1)).
  { intros [= <- <-]. split; [|done]. apply effect_none; congruence. }
  destruct (complete _ _) as [st|e].
  2: { intros [= <- <-]. split; [|done]. apply effect_none; cbn; congruence. }
  destruct (poll (count_llm r1)) as [stop2 r2] eqn:Hp2.
  apply poll_same in Hp2 as (_ & Es2 & El2 & Ecf2 & _ & Eex2). cbn in *.
  destruct stop2.
  { intros [= <- <-]. split; [|done]. apply effect_none; congruence. }
  unfold apply_transition. destruct (commit (step_patch st) (store r2)) as [[nxt|e] s'] eqn:Hc.
  - intros Hf. eapply (finish_step_spec _ _ _ _ _ (step_patch st) r) in Hf; [exact Hf|..]; cbn;
      try congruence.
    + by eapply commit_ok.
    + by rewrite <- Es, <- Es2, Hc.
  - intros [= <- <-]. split; [|done]. apply commit_err in Hc as ->.
    apply effect_none; cbn; congruence.
Qed.

(** The log of a run is a chain of states from [s] to [s']. *)
Inductive chain : json → list EventLogEntry → json → Prop :=
| chain_nil s : chain s [] s
| chain_cons e es s' : chain (e_next_state e) es s' → chain (e_prev_state e) (e :: es) s'.

Lemma run_until_loop_spec is_done fuel obs r st r' :
  run_until_loop is_done fuel obs r = (Ok st, r') → max_entries (log r) = None →
  load (store r') = st ∧ (∃ o, is_done st o = true) ∧
  ∃ es, entries (log r') = entries (log r) ++ es ∧ (length es < fuel)%nat ∧
    chain (state_value (load (store r))) es (state_value st) ∧
    ∃ acts, executed r' = executed r ++ acts ∧
      (λ a, state_value a.2) <$> acts = e_next_state <$> es.
Proof using HL.
  revert obs r. induction fuel as [|fuel IH]; intros obs r; cbn [run_until_loop]; [done|].
  destruct (poll r) as [stop r1] eqn:Hp.
  apply poll_same in Hp as (_ & Es & El & Ecf & _ & Eex). destruct stop; [done|].
  destruct (is_done (load (store r1)) obs) eqn:Hd.
  { intros [= <- <-] _. split_and!; [done|eauto|]. exists []. rewrite Es, El, Eex.
    split_and!; [by rewrite app_nil_r|cbn; lia|constructor|]. exists []. by rewrite app_nil_r. }
  destruct (step obs r1) as [[o|e] r2] eqn:Hs; [|done]. intros Hl Hm.
  apply step_spec in Hs as [_ Hs]. destruct (Hs o eq_refl) as [Hst [a Ha] (e & Hlog & Hp & Hn & _) _ _ _].
  assert (entries (log r2) = entries (log r) ++ [e] ∧ max_entries (log r2) = None) as [He Hm2].
  { rewrite Hlog, El. unfold log_push. by rewrite Hm. }
  destruct (IH _ _ Hl Hm2) as (? & ? & es & Hes & Hlen & Hch & acts & Hacts & Hmap).
  split_and!; [done..|]. exists (e :: es). rewrite Hes, He, <- app_assoc. split_and!; [done|cbn; lia|..].
  - rewrite <- Es, <- Hp. constructor. by rewrite Hn.
  - exists ((a, load (store r2)) :: acts). rewrite Hacts, Ha, Eex, <- app_assoc.
    split; [done|]. cbn. by rewrite Hmap, Hn.
Qed.
End runner.

(** C37. For every store that keeps the trait's promise, any LLM, tools and
    cancellation: a step either leaves the state, the log and the tools alone,
    or commits a patch; a tool only ever runs after the commit, once, and sees
    the committed state. *)
Theorem step_commits_before_tool {S} `{LawfulStore S} to_string complete execute cancelled obs
    (r : AgentRunner S) res r' :
  step to_string complete execute cancelled obs r = (res, r') →
  step_effect r r' ∧ (∀ o, res = Ok o → step_success r r' o).
Proof. intros Hs. exact (step_spec _ _ _ _ _ _ _ _ Hs). Qed.

(** A run that ends well ends in a state the caller's predicate accepts; its
    log is an unbroken chain from the first state to that state, shorter than
    [max_steps], and the tools ran once per entry, on the entry's state. *)
Theorem run_until_chain {S} `{LawfulStore S} to_string complete execute cancelled is_done obs
    skill (st0 : S) cfg st r' :
  run_until to_string complete execute cancelled is_done obs (runner_new skill st0 cfg) = (Ok st, r') →
  load (store r') = st ∧ (∃ o, is_done st o = true) ∧
  chain (state_value (load st0)) (entries (log r')) (state_value st) ∧
  Z.of_nat (length (entries (log r'))) < max_steps cfg ∧
  (λ a, state_value a.2) <$> executed r' = e_next_state <$> entries (log r').
Proof.
  intros Hr. destruct (run_until_loop_spec _ _ _ _ _ _ _ _ _ _ Hr eq_refl)
    as (? & ? & es & He & Hlen & Hch & acts & Ha & Hmap). cbn in *. rewrite Ha, He. cbn. split_and!; try done. lia.
Qed.

(** ** A counting agent *)
Definition count_llm_stub (k : nat) (_ : AgentRequest) : result string AgentStep :=
  Ok (mkStep None (mkPatch (counter_state (Z.of_nat k + 1))) (mkAction "act" None JNull) None).
Definition echo_tool (_ : nat) (a : AgentAction) : result string Observation :=
  Ok (mkObservation (JString (raw a))).
Definition counter_store : InMemoryStateStore := mkStore counter_skill (mkState (counter_state 0)).
Definition counter_at (n : Z) (s : ExecutionState) (_ : Observation) : bool :=
  match state_value s with JObject [(_, JNumber (PosInt m))] => (m =? n)%Z | _ => false end.
Definition blank (_ : json) : string := "".

Lemma step_commits_before_tool_witness :
  let r := runner_new counter_skill counter_store default_config in
  let '(res, r') := step blank count_llm_stub echo_tool None (mkObservation JNull) r in
  step_effect r r' ∧ (∀ o, res = Ok o → step_success r r' o).
Proof.
  cbv zeta. destruct (step _ _ _ _ _ _) as [res r'] eqn:Hs.
  exact (step_commits_before_tool blank count_llm_stub echo_tool None (mkObservation JNull)
    (runner_new counter_skill counter_store default_config) res r' Hs).
Defined.

Lemma run_until_chain_witness :
  ∃ r', run_until blank count_llm_stub echo_tool None (counter_at 3) (mkObservation JNull)
          (runner_new counter_skill counter_store default_config) = (Ok (mkState (counter_state 3)), r') ∧
    chain (counter_state 0) (entries (log r')) (counter_state 3) ∧
    Z.of_nat (length (entries (log r'))) < 200.
Proof.
  eexists. split; [vm_compute; reflexivity|].
  match goal with |- chain _ (entries (log ?r')) _ ∧ _ =>
    destruct (run_until_chain blank count_llm_stub echo_tool None (counter_at 3) (mkObservation JNull)
      counter_skill counter_store default_config (mkState (counter_state 3)) r')
      as (_ & _ & Hc & Hl & _); [vm_compute; reflexivity|] end.
  split; [exact Hc|exact Hl].
Defined.

(** Above the token ceiling a step answers [Err] before the tool runs, but
    after the commit, and logs nothing: the store and the log disagree,
    although the log entry of a cancelled step is written "to keep store/log
    consistent". *)
Theorem budget_stop_is_not_logged :
  let r := runner_new counter_skill counter_store (mkConfig 200 "m" (Some 1)) in
  let '(res, r') := step blank count_llm_stub echo_tool None (mkObservation JNull) r in
  is_ok res = false ∧ load (store r') = mkState (counter_state 1) ∧
  entries (log r') = [] ∧ executed r' = [].
Proof. vm_compute. done. Qed.
