(* ===== verification/CircuitBreaker.v ===== *)
(** * The circuit breaker ([src/providers/circuit_breaker.rs], [circuit_breaking_provider.rs])

    The breaker in front of a chat provider and the provider that uses it. Its
    fields are separate atomics and locks; an operation first reads the state
    and acts on what it read, so the two halves are separate definitions and
    [can_execute] and the others are the uninterrupted composition. Instants
    are nanoseconds.

    The breaker implements a machine whose states carry only what matters in
    them ([breaker_refines]): it opens exactly after [failure_threshold]
    failures in a row ([breaker_opens_exactly]) and is closed again by
    successful probes made one at a time ([probe_is_exclusive]). *)
From S2P Require Import Prelude.
Open Scope stdpp_scope.
Open Scope Z_scope.

(** ** The breaker *)
Inductive CircuitState := Closed | Open | HalfOpen.
#[global] Instance CircuitState_eq_dec : EqDecision CircuitState.
Proof. solve_decision. Defined.

Record CircuitBreaker := mkBreaker {
  failure_threshold : Z;
  success_threshold : Z;
  cooldown_secs : Z;
  cb_state : CircuitState;
  failure_count : Z;
  success_count : Z;
  last_failure_time : option Z;
  probe_in_flight : bool;
}.

Definition breaker_new (failures successes cooldown : Z) : CircuitBreaker :=
  mkBreaker failures successes cooldown Closed 0 0 None false.

(** [last_failure.elapsed() >= Duration::from_secs(..)]; [elapsed] is zero when
    the clock is behind. *)
Definition cooled_down (cooldown now last : Z) : bool :=
  cooldown * 1000000000 <=? Z.max (now - last) 0.

Definition can_execute_from (read : CircuitState) (now : Z) (b : CircuitBreaker)
    : bool * CircuitBreaker :=
  let 'mkBreaker ft st cd s f n last probe := b in
  match read with
  | Closed => (true, b)
  | Open =>
      match last with
      | Some t => if cooled_down cd now t
                  then (true, mkBreaker ft st cd HalfOpen f 0 last true)
                  else (false, b)
      | None => (false, b)
      end
  | HalfOpen => if probe then (false, b) else (true, mkBreaker ft st cd s f n last true)
  end.
Definition can_execute (now : Z) (b : CircuitBreaker) : bool * CircuitBreaker :=
  can_execute_from (cb_state b) now b.

(** [fetch_add(1) + 1] on a [u32]: the counter wraps. *)
Definition u32_succ (n : Z) : Z := as_u32 (n + 1).

Definition record_success (b : CircuitBreaker) : CircuitBreaker :=
  let 'mkBreaker ft st cd s f n last probe := b in
  match s with
  | HalfOpen =>
      let n := u32_succ n in
      if st <=? n then mkBreaker ft st cd Closed 0 n last false
      else mkBreaker ft st cd HalfOpen f n last false
  | Closed => mkBreaker ft st cd Closed 0 n last probe
  | Open => b
  end.

Definition record_failure (now : Z) (b : CircuitBreaker) : CircuitBreaker :=
  let 'mkBreaker ft st cd s f n last probe := b in
  match s with
  | HalfOpen => mkBreaker ft st cd Open f n (Some now) false
  | Closed =>
      let f := u32_succ f in
      if ft <=? f then mkBreaker ft st cd Open f n (Some now) probe
      else mkBreaker ft st cd Closed f n last probe
  | Open => b
  end.

Definition update_thresholds (ft cd : Z) (b : CircuitBreaker) : CircuitBreaker :=
  mkBreaker ft (success_threshold b) cd (cb_state b) (failure_count b) (success_count b)
    (last_failure_time b) (probe_in_flight b).
Definition reset (b : CircuitBreaker) : CircuitBreaker :=
  mkBreaker (failure_threshold b) (success_threshold b) (cooldown_secs b) Closed 0 0
    (last_failure_time b) (probe_in_flight b).

(** ** The provider behind the breaker *)

(** What a call came to: refused by the breaker, or the inner provider's
    answer. *)
Inductive Answer (A : Type) := Refused | Called (a : A).
Arguments Refused {_}.
Arguments Called {_} _.

Definition record_outcome (now : Z) (ok : bool) (b : CircuitBreaker) : CircuitBreaker :=
  if ok then record_success b else record_failure now b.

(** [chat_completion]: the inner call starts at [now] and answers at [later]. *)
Definition guarded_completion {E A} (inner : result E A) (now later : Z) (b : CircuitBreaker)
    : Answer (result E A) * CircuitBreaker :=
  match can_execute now b with
  | (false, b) => (Refused, b)
  | (true, b) => (Called inner, record_outcome later (is_ok inner) b)
  end.

(** The wrapper of [chat_stream] around one item: the first good item counts
    as a success, every error as a failure. *)
Definition stream_item {E A} (acc : bool * CircuitBreaker) (item : Z * result E A)
    : bool * CircuitBreaker :=
  let '(saw_success, b) := acc in
  match item.2 with
  | Ok _ => if saw_success then (true, b) else (true, record_success b)
  | Err _ => (saw_success, record_failure item.1 b)
  end.

(** [chat_stream] with the items that the client takes from the stream. *)
Definition guarded_stream {E A} (inner : result E (list (Z * result E A))) (now later : Z)
    (b : CircuitBreaker) : Answer (result E (list (Z * result E A))) * CircuitBreaker :=
  match can_execute now b with
  | (false, b) => (Refused, b)
  | (true, b) =>
      match inner with
      | Err _ => (Called inner, record_failure later b)
      | Ok items => (Called inner, (foldl stream_item (false, b) items).2)
      end
  end.

(** ** The machine it implements *)
Inductive Phase :=
| PClosed (failures : Z)
| POpen (since : Z)
| PHalfOpen (successes : Z) (probing : bool).

Section machine.
Context (ft st cd : Z).

Definition phase_admit (now : Z) (p : Phase) : bool * Phase :=
  match p with
  | PClosed _ => (true, p)
  | POpen since => if cooled_down cd now since then (true, PHalfOpen 0 true) else (false, p)
  | PHalfOpen n probing => (negb probing, PHalfOpen n true)
  end.
Definition phase_outcome (now : Z) (ok : bool) (p : Phase) : Phase :=
  match p with
  | PClosed f => if ok then PClosed 0 else if ft <=? f + 1 then POpen now else PClosed (f + 1)
  | POpen _ => p
  | PHalfOpen n _ =>
      if ok then if st <=? n + 1 then PClosed 0 else PHalfOpen (n + 1) false else POpen now
  end.
End machine.

(** The state a breaker is in; its other fields do not matter there. *)
Definition phase_of (b : CircuitBreaker) : Phase :=
  match cb_state b with
  | Closed => PClosed (failure_count b)
  | Open => POpen (default 0 (last_failure_time b))
  | HalfOpen => PHalfOpen (success_count b) (probe_in_flight b)
  end.

(** Open breakers know when they opened, and no counter is about to wrap. *)
Definition breaker_wf (b : CircuitBreaker) : Prop :=
  is_u32 (failure_threshold b) ∧ is_u32 (success_threshold b) ∧
  match cb_state b with
  | Closed => 0 ≤ failure_count b < u32_max
  | Open => is_Some (last_failure_time b)
  | HalfOpen => 0 ≤ success_count b < u32_max
  end.

Inductive Op :=
| OpAdmit (now : Z)
| OpOutcome (now : Z) (ok : bool)
| OpUpdate (ft cd : Z)
| OpReset.

Definition breaker_op (op : Op) (b : CircuitBreaker) : bool * CircuitBreaker :=
  match op with
  | OpAdmit now => can_execute now b
  | OpOutcome now ok => (true, record_outcome now ok b)
  | OpUpdate ft cd => (true, update_thresholds ft cd b)
  | OpReset => (true, reset b)
  end.
Definition phase_op (op : Op) (c : Z * Z * Z) (p : Phase) : bool * (Z * Z * Z * Phase) :=
  let '(ft, st, cd) := c in
  match op with
  | OpAdmit now => let '(ok, p) := phase_admit cd now p in (ok, (c, p))
  | OpOutcome now ok => (true, (c, phase_outcome ft st now ok p))
  | OpUpdate ft cd => (true, ((ft, st, cd), p))
  | OpReset => (true, (c, PClosed 0))
  end.
Definition config_of (b : CircuitBreaker) : Z * Z * Z :=
  (failure_threshold b, success_threshold b, cooldown_secs b).
Definition op_wf (op : Op) : Prop :=
  match op with OpUpdate ft _ => is_u32 ft | _ => True end.

Lemma u32_succ_exact n : 0 ≤ n < u32_max → u32_succ n = n + 1.
Proof. intros. unfold u32_succ, as_u32, u32_max in *. rewrite Z.mod_small; lia. Qed.

Lemma breaker_simulates op b :
  breaker_wf b → op_wf op →
  let '(ok, b') := breaker_op op b in
  breaker_wf b' ∧ phase_op op (config_of b) (phase_of b) = (ok, (config_of b', phase_of b')).
Proof.
  destruct b as [ft st cd s f n last probe]. unfold breaker_wf, config_of, phase_of, is_u32. csimpl.
  intros (Hft & Hst & Hs) Hop.
  destruct op as [now|now ok|ft' cd'|]; csimpl in *; unfold can_execute, record_outcome; csimpl.
  - destruct s; csimpl.
    + done.
    + destruct Hs as [t ->]. csimpl. destruct (cooled_down cd now t); csimpl; [|by eauto].
      split; [|done]. split_and!; unfold u32_max in *; lia.
    + by destruct probe.
  - destruct ok, s; csimpl; rewrite ?u32_succ_exact by done.
    + split; [|done]. split_and!; unfold u32_max in *; lia.
    + done.
    + destruct (st <=? n + 1) eqn:Hle; csimpl; (split; [|done]); split_and!;
        unfold u32_max in *; lia.
    + destruct (ft <=? f + 1) eqn:Hle; csimpl; (split; [|done]); split_and!; try (unfold u32_max in *; lia); eauto.
    + done.
    + split; [|done]. split_and!; try (unfold u32_max in *; lia); eauto.
  - split; [|done]. unfold is_u32 in Hop. split_and!; try (unfold u32_max in *; lia). done.
  - split; [|done]. split_and!; unfold u32_max in *; lia.
Qed.

(** The answers to a sequence of operations, and where they lead. *)
Fixpoint breaker_run (ops : list Op) (b : CircuitBreaker) : list bool * CircuitBreaker :=
  match ops with
  | [] => ([], b)
  | op :: ops =>
      let '(ok, b) := breaker_op op b in
      let '(oks, b) := breaker_run ops b in (ok :: oks, b)
  end.
Fixpoint phase_run (ops : list Op) (c : Z * Z * Z) (p : Phase) : list bool * (Z * Z * Z * Phase) :=
  match ops with
  | [] => ([], (c, p))
  | op :: ops =>
      let '(ok, (c, p)) := phase_op op c p in
      let '(oks, cp) := phase_run ops c p in (ok :: oks, cp)
  end.

(** C22. Whatever operations are made on a breaker, thresholds updated and the
    breaker reset in between, its answers are those of the machine that keeps
    the failures in a row while closed, the time of opening while open, and
    the good probes and the probe flag while half open; and no counter ever
    wraps. *)
Theorem breaker_refines ft st cd ops :
  is_u32 ft → is_u32 st → Forall op_wf ops →
  let '(answers, b) := breaker_run ops (breaker_new ft st cd) in
  breaker_wf b ∧
  phase_run ops (ft, st, cd) (PClosed 0) = (answers, (config_of b, phase_of b)).
Proof.
  intros Hft Hst Hops.
  assert (breaker_wf (breaker_new ft st cd)) as Hwf
    by (split_and!; [done..|csimpl; unfold u32_max; lia]).
  change (PClosed 0) with (phase_of (breaker_new ft st cd)).
  change (ft, st, cd) with (config_of (breaker_new ft st cd)).
  revert Hwf. generalize (breaker_new ft st cd) as b.
  induction Hops as [|op ops Hop _ IH]; intros b Hwf; cbn [breaker_run phase_run]; [done|].
  pose proof (breaker_simulates op b Hwf Hop) as Hs. destruct (breaker_op op b) as [ok b'].
  destruct Hs as [Hwf' ->]. specialize (IH b' Hwf'). destruct (breaker_run ops b') as [oks b2].
  destruct IH as [? ->]. done.
Qed.

(** ** When it opens *)
Definition outcomes (l : list (Z * bool)) (b : CircuitBreaker) : CircuitBreaker :=
  foldl (λ b o, record_outcome o.1 o.2 b) b l.

(** [k] failures in a row. *)
Definition in_a_row (k : nat) (l : list bool) : Prop :=
  ∃ i, ∀ j, (j < k)%nat → l !! (i + j)%nat = Some false.

Lemma in_a_row_success k a b :
  (0 < k)%nat → in_a_row k (a ++ true :: b) ↔ in_a_row k a ∨ in_a_row k b.
Proof.
  intros Hk. split.
  - intros [i Hi]. destruct (decide (i + k ≤ length a)%nat) as [Ha|Ha]; [left|right].
    + exists i. intros j Hj. rewrite <- (Hi j Hj), lookup_app_l; [done|lia].
    + destruct (decide (length a < i)%nat) as [Hb|Hb].
      * exists (i - length a - 1)%nat. intros j Hj. rewrite <- (Hi j Hj).
        rewrite lookup_app_r by lia. rewrite lookup_cons_ne_0 by lia. f_equal. lia.
      * exfalso. specialize (Hi (length a - i)%nat ltac:(lia)).
        replace (i + (length a - i))%nat with (length a) in Hi by lia.
        rewrite lookup_app_r, Nat.sub_diag in Hi by lia. done.
  - intros [[i Hi]|[i Hi]].
    + exists i. intros j Hj. apply lookup_app_l_Some. auto.
    + exists (length a + 1 + i)%nat. intros j Hj. rewrite lookup_app_r by lia.
      replace (length a + 1 + i + j - length a)%nat with (S (i + j)) by lia. by apply Hi.
Qed.

Lemma in_a_row_short k f : (f < k)%nat → ¬ in_a_row k (replicate f false).
Proof.
  intros Hf [i Hi]. specialize (Hi f Hf). apply lookup_replicate in Hi as [_ ?]. lia.
Qed.

Lemma outcomes_open l b : cb_state b = Open → outcomes l b = b.
Proof.
  intros Hb. induction l as [|[now ok] l IH]; [done|]. cbn [outcomes foldl].
  assert (record_outcome now ok b = b) as Heq; [|csimpl; rewrite Heq; apply IH].
  destruct b as [ft st cd s f n last probe]. csimpl in Hb. subst. by destruct ok.
Qed.

Lemma outcomes_closed l ft st cd f n last probe :
  1 ≤ ft ≤ u32_max → 0 ≤ f < ft →
  let b := outcomes l (mkBreaker ft st cd Closed f n last probe) in
  (cb_state b = Open ↔ in_a_row (Z.to_nat ft) (replicate (Z.to_nat f) false ++ l.*2)) ∧
  (cb_state b = Open ∨ cb_state b = Closed).
Proof.
  intros Hft. revert f last. induction l as [|[now ok] l IH]; intros f last Hf; csimpl.
  { rewrite app_nil_r. split; [|by right]. split; [done|]. intros []%in_a_row_short. lia. }
  destruct ok; csimpl.
  - destruct (IH 0 last ltac:(lia)) as [IH1 IH2]. split; [|done]. rewrite in_a_row_success by lia.
    etrans; [exact IH1|]. csimpl. split; [auto|]. intros [[]%in_a_row_short|?]; [lia|done].
  - rewrite u32_succ_exact by (unfold u32_max in *; lia).
    assert (replicate (Z.to_nat f) false ++ false :: l.*2 = replicate (Z.to_nat (f + 1)) false ++ l.*2)
      as Heq.
    { rewrite Z2Nat.inj_add, Nat.add_1_r, replicate_S_end, <- app_assoc by lia. done. }
    rewrite Heq. destruct (ft <=? f + 1) eqn:Hle; [|apply IH; lia].
    rewrite outcomes_open by done. csimpl. split; [|by left]. split; [|done]. intros _.
    exists 0%nat. intros j Hj. apply lookup_app_l_Some, lookup_replicate. split; [done|lia].
Qed.

(** A new breaker that is asked nothing opens exactly when [failure_threshold]
    outcomes in a row were failures, and is closed until then: successes in
    between start the count again. *)
Theorem breaker_opens_exactly ft st cd l :
  1 ≤ ft ≤ u32_max →
  let b := outcomes l (breaker_new ft st cd) in
  (cb_state b = Open ↔ in_a_row (Z.to_nat ft) l.*2) ∧ (cb_state b = Open ∨ cb_state b = Closed).
Proof. intros Hft. apply (outcomes_closed l ft st cd 0 0 None false Hft). lia. Qed.

(** ** Probes *)
Definition admits (now : Z) (b : CircuitBreaker) : bool := (can_execute now b).1.

Lemma half_open_probing b now :
  cb_state b = HalfOpen → probe_in_flight b = true → can_execute now b = (false, b).
Proof. destruct b. csimpl. by intros -> ->. Qed.

Lemma admitted_not_closed now b b' :
  can_execute now b = (true, b') → cb_state b ≠ Closed →
  cb_state b' = HalfOpen ∧ probe_in_flight b' = true.
Proof.
  destruct b as [ft st cd s f n last probe]. unfold can_execute. csimpl.
  destruct s; csimpl; [done| |]; intros Heq _.
  - destruct last as [t|]; [|done]. destruct (cooled_down cd now t); by simplify_eq.
  - destruct probe; by simplify_eq.
Qed.

(** A breaker that has opened lets one request through at a time: after the
    admission of a probe every request is refused, whenever it comes, until an
    outcome is recorded. *)
Theorem probe_is_exclusive now b b' times :
  can_execute now b = (true, b') → cb_state b ≠ Closed →
  (breaker_run (OpAdmit <$> times) b') = (replicate (length times) false, b').
Proof.
  intros Hc Hs. destruct (admitted_not_closed now b b' Hc Hs) as [Hh Hp].
  induction times as [|t times IH]; csimpl; [done|].
  by rewrite half_open_probing, IH.
Qed.

(** While open and cooling down, the breaker shields the provider: nothing is
    called and nothing changes. *)
Lemma open_shields {E A} (inner : result E A) now later b t :
  cb_state b = Open → last_failure_time b = Some t →
  now < t + cooldown_secs b * 1000000000 → 0 < cooldown_secs b →
  guarded_completion inner now later b = (Refused, b).
Proof.
  destruct b as [ft st cd s f n last probe]. unfold guarded_completion, can_execute.
  csimpl. intros -> -> Hnow Hcd. csimpl. unfold cooled_down.
  rewrite (proj2 (Z.leb_gt _ _)) by lia. done.
Qed.

(** ** Two defects *)

(** A stream that is admitted as the probe and ends, or is dropped, before its
    first item records nothing: the probe flag stays up and every later call
    is refused, however long the provider has been well. *)
Theorem empty_stream_wedges_breaker {E A} now later b b' times (inner : result E A) :
  cb_state b ≠ Closed →
  guarded_stream (E := E) (A := A) (Ok []) now later b = (Called (Ok []), b') →
  Forall (λ t, guarded_completion inner t t b' = (Refused, b')) times.
Proof.
  intros Hs Hg. unfold guarded_stream in Hg. destruct (can_execute now b) as [[] b1] eqn:Hc; [|done].
  injection Hg as <-. destruct (admitted_not_closed _ _ _ Hc Hs) as [Hh Hp].
  apply Forall_forall. intros t _. unfold guarded_completion. by rewrite half_open_probing.
Qed.

(** Two callers that both read [Open] before either acts are both let through:
    the probe is exclusive only between calls that do not overlap. *)
Theorem stale_reads_admit_two_probes :
  ∃ b now, cb_state b = Open ∧
    let '(ok1, b1) := can_execute_from Open now b in
    let '(ok2, _) := can_execute_from Open now b1 in ok1 = true ∧ ok2 = true.
Proof. by exists (mkBreaker 1 1 0 Open 1 0 (Some 0) false), 1. Qed.

(** ** Examples *)
Lemma breaker_refines_witness :
  let '(answers, b) := breaker_run [OpOutcome 5 false; OpAdmit 6; OpAdmit 3000000000; OpAdmit 3000000001]
                         (breaker_new 1 1 2) in
  breaker_wf b ∧
  phase_run [OpOutcome 5 false; OpAdmit 6; OpAdmit 3000000000; OpAdmit 3000000001] (1, 1, 2) (PClosed 0)
    = (answers, (config_of b, phase_of b)) ∧ answers = [true; false; true; false].
Proof.
  pose proof (breaker_refines 1 1 2
    [OpOutcome 5 false; OpAdmit 6; OpAdmit 3000000000; OpAdmit 3000000001]) as H.
  assert (is_u32 1) as H1 by (unfold is_u32, u32_max; lia).
  specialize (H H1 H1 ltac:(by repeat constructor)).
  destruct H as [H2 H3]. split; [exact H2|]. split; [exact H3|]. vm_compute. reflexivity.
Defined.

Lemma breaker_opens_exactly_witness :
  let b := outcomes [(1, false); (2, true); (3, false); (4, false)] (breaker_new 2 1 30) in
  cb_state b = Open ∧ in_a_row 2 [false; true; false; false].
Proof.
  destruct (breaker_opens_exactly 2 1 30 [(1, false); (2, true); (3, false); (4, false)]) as [H _].
  { vm_compute. split; discriminate. }
  split; [reflexivity|]. apply H. reflexivity.
Defined.

Lemma probe_is_exclusive_witness :
  breaker_run (OpAdmit <$> [5000000000; 9000000000])
    (can_execute 4000000000 (record_failure 0 (breaker_new 1 1 2))).2 =
  ([false; false], (can_execute 4000000000 (record_failure 0 (breaker_new 1 1 2))).2).
Proof.
  apply (probe_is_exclusive 4000000000 (record_failure 0 (breaker_new 1 1 2)) _
    [5000000000; 9000000000]).
  - vm_compute. reflexivity.
  - vm_compute. discriminate.
Defined.
