(* ===== verification/Paths.v ===== *)
(** * Paths and containment ([src/security/paths.rs])

    Unix paths as [std::path] reads them, the containment check on canonical
    paths and the refusal of hard links. The file system is an interface: its
    calls answer independently of one another, so that nothing relies on a
    file staying the same between two calls. *)
From S2P Require Import Prelude Text.
From Stdlib Require Import Ascii.
Open Scope stdpp_scope.
Open Scope Z_scope.

(** ** [std::path::Path] *)
Inductive Component := RootDir | CurDir | ParentDir | Normal (name : string).
#[global] Instance Component_eq_dec : EqDecision Component.
Proof. solve_decision. Defined.

Definition component_of (part : string) : option Component :=
  if decide (part = "") then None
  else if decide (part = ".") then None
  else if decide (part = "..") then Some ParentDir
  else Some (Normal part).

(** [components]: repeated separators and inner [.] disappear, a leading [.]
    stays. *)
Definition components (path : string) : list Component :=
  let parts := split_on "/" path in
  (if starts_with "/" path then [RootDir]
   else if decide (head parts = Some ".") then [CurDir] else [])
  ++ omap component_of parts.

Definition path_starts_with (path base : string) : bool :=
  bool_decide (components base `prefix_of` components path).

Definition file_name (path : string) : option string :=
  match last (components path) with Some (Normal n) => Some n | _ => None end.

(** A file name split at its last dot. *)
Definition rsplit_dot (name : string) : option (string * string) :=
  match split_once "." (String.rev name) with
  | Some (after, before) => Some (String.rev before, String.rev after)
  | None => None
  end.
Definition file_stem (path : string) : option string :=
  (λ name, match rsplit_dot name with
           | Some (before, _) => if decide (before = "") then name else before
           | None => name
           end) <$> file_name path.
Definition extension (path : string) : option string :=
  name ← file_name path;
  '(before, after) ← rsplit_dot name;
  if decide (before = "") then None else Some after.

(** [join] with a relative, plain name. *)
Definition join (dir name : string) : string :=
  if decide (dir = "") then name else if ends_with "/" dir then dir +:+ name
  else dir +:+ "/" +:+ name.

(** ** The file system *)
Record Handle := mkHandle {
  h_metadata : result string (bool * Z);
  h_nlink : option Z;
  h_id : option (Z * Z);
  h_reads : list (result string string);
}.
Class FileSystem := {
  fs_canonicalize : string → option string;
  fs_is_file : string → result string bool;
  fs_open : string → result string Handle;
  fs_file_id : string → result string (Z * Z);
  fs_create : string → result string unit;
  fs_write : string → string → result string unit;
}.

Inductive PathError :=
| RootMissing (root : string)
| CandidateMissing (path : string)
| Escape (path : string)
| Hardlink (path : string) (nlink : Z)
| LinkCountUnavailable (path : string).

Definition path_error_display (e : PathError) : string :=
  match e with
  | RootMissing p => "trust root does not exist: " +:+ p
  | CandidateMissing p => "candidate path does not exist or is inaccessible: " +:+ p
  | Escape p => "path escapes trust root: " +:+ p
  | Hardlink p n => "path is hard-linked from outside the trust root (" +:+ pretty n
                      +:+ " links): " +:+ p
  | LinkCountUnavailable p => "hard-link count could not be determined for " +:+ p
                      +:+ "; refusing (fail closed)"
  end.

Section paths.
Context `{FileSystem}.

Definition canonicalize_within (root candidate : string) : result PathError string :=
  root_canonical ← ok_or (RootMissing root) (fs_canonicalize root);
  candidate_canonical ← ok_or (CandidateMissing candidate) (fs_canonicalize candidate);
  if path_starts_with candidate_canonical root_canonical then Ok candidate_canonical
  else Err (Escape candidate).

Definition is_path_within (root candidate : string) : bool :=
  is_ok (canonicalize_within root candidate).

Definition check_not_hardlinked (h : Handle) (display : string) : result PathError unit :=
  match h_nlink h with
  | Some nlink => if 1 <? nlink then Err (Hardlink display nlink) else Ok tt
  | None => Err (LinkCountUnavailable display)
  end.

Definition ensure_not_hardlinked (path : string) : result PathError unit :=
  h ← map_err (λ _, CandidateMissing path) (fs_open path);
  meta ← map_err (λ _, CandidateMissing path) (h_metadata h);
  if negb meta.1 then Ok tt else check_not_hardlinked h path.

(** The candidate lies in the root: both canonical, componentwise. *)
Definition within (root candidate canonical : string) : Prop :=
  fs_canonicalize candidate = Some canonical ∧
  ∃ r, fs_canonicalize root = Some r ∧ components r `prefix_of` components canonical.

Lemma canonicalize_within_spec root candidate canonical :
  canonicalize_within root candidate = Ok canonical ↔ within root candidate canonical.
Proof.
  unfold canonicalize_within, within, path_starts_with.
  destruct (fs_canonicalize root) as [r|]; csimpl; [|split; [done|by intros (_ & ? & ? & _)]].
  destruct (fs_canonicalize candidate) as [c|]; csimpl; [|split; [done|by intros [? _]]].
  case_bool_decide as Hp; csimpl.
  - split; [intros [= ->]; eauto|]. by intros [[= ->] _].
  - split; [done|]. intros ([= ->] & r' & [= <-] & ?). done.
Qed.
End paths.

(** ** [lexical_normalize] *)

(** [PathBuf::pop] *)
Definition pop (out : list Component) : list Component :=
  match last out with
  | None | Some RootDir => out
  | Some _ => removelast out
  end.
Definition lexical_step (out : list Component) (c : Component) : list Component :=
  match c with
  | ParentDir => pop out
  | CurDir => out
  | RootDir => [RootDir]
  | Normal n => out ++ [Normal n]
  end.
Definition lexical_normalize (path : string) : list Component :=
  foldl lexical_step [] (components path).

Lemma pop_sub out c : c ∈ pop out → c ∈ out.
Proof.
  unfold pop. destruct (last out) as [[]|]; try done;
    (destruct out using rev_ind; [done|]); rewrite removelast_last; intros; apply elem_of_app; auto.
Qed.

(** The result has no [.] and no [..] left, and starts at the root exactly
    when the path does. *)
Lemma lexical_normalize_clean path :
  Forall (λ c, c ≠ CurDir ∧ c ≠ ParentDir) (lexical_normalize path) ∧
  (head (components path) = Some RootDir → head (lexical_normalize path) = Some RootDir).
Proof.
  unfold lexical_normalize. split.
  - assert (Forall (λ c, c ≠ CurDir ∧ c ≠ ParentDir) (@nil Component)) as Hnil by constructor.
    revert Hnil. generalize (@nil Component) as out.
    induction (components path) as [|c l IH]; intros out Hout; [done|]. cbn [foldl]. apply IH.
    destruct c; csimpl; [by repeat constructor|done| |apply Forall_app; by repeat constructor].
    apply Forall_forall. intros x Hx%pop_sub. by apply (proj1 (Forall_forall _ _) Hout).
  - destruct (components path) as [|c l]; [done|]. intros [= ->]. cbn [foldl lexical_step].
    assert (head [RootDir] = Some RootDir) as Hh by done. revert Hh. generalize [RootDir] as out.
    induction l as [|c l IH]; intros out Hout; [done|]. cbn [foldl]. apply IH.
    destruct c; csimpl; [done|done| |by destruct out].
    unfold pop. destruct (last out) as [x|] eqn:Hl; [|done].
    destruct out as [|a [|b out]]; [done| |by destruct x]. csimpl in *. by simplify_eq.
Qed.
