(* ===== verification/ShellTool.v ===== *)
(** * The shell tool ([src/tools/shell_tool.rs])

    What a call of the tool is checked for before a process is started: the
    command against the allowlist and the known shells, the arguments against
    their bounds, and, for commands that read files, every path among the
    arguments against the allowed directories, each path then replaced by a
    copy in a directory of the tool ([shell_paths_contained]). Output is read
    up to a bound ([read_capped_exact]). *)
From S2P Require Import Prelude Text Json ExecTypes Paths.
From Stdlib Require Import Ascii.
Open Scope stdpp_scope.
Open Scope Z_scope.

Definition MAX_ARGS : nat := 32.
Definition MAX_ARG_LEN : nat := 1024.
Definition MAX_OUTPUT_BYTES : nat := Z.to_nat (1024 * 1024).
Definition FILE_READING_COMMANDS : list string :=
  ["cat"; "head"; "tail"; "grep"; "wc"; "sort"; "uniq"; "cut"; "sed"; "awk"; "less"; "more";
   "fold"; "nl"; "tac"; "strings"; "diff"; "file"].

(** ** Which arguments are paths *)
Definition command_non_path_positions (cmd : string) : list nat :=
  if decide (cmd = "grep") then [0%nat]
  else if decide (cmd = "sed") then [0%nat]
  else if decide (cmd = "awk") then [0%nat]
  else [].
Definition PATH_FLAGS : list string := ["-f"; "--file"; "--include"; "--exclude"; "--label"; "-o"].

(** [Some (Some v)]: the value is inline; [Some None]: it is the next argument. *)
Definition path_flag_value (arg : string) : option (option string) :=
  match split_once "=" arg with
  | Some (flag, value) => if decide (flag ∈ PATH_FLAGS) then Some (Some value) else None
  | None => if decide (arg ∈ PATH_FLAGS) then Some None else None
  end.

Record PathSlot := mkSlot {
  slot_index : nat;
  slot_value : string;
  inline_prefix : option string;
}.
Definition prefix_through_eq (arg : string) : string :=
  match split_once "=" arg with Some (flag, _) => flag +:+ "=" | None => "" end.

(** The loop of [plan_path_slots] from argument [i] on. *)
Fixpoint plan_from (text : list nat) (i pos : nat) (skip_next : bool) (args : list string)
    : list PathSlot :=
  match args with
  | [] => []
  | arg :: args =>
      if skip_next then mkSlot i arg None :: plan_from text (S i) pos false args
      else match path_flag_value arg with
        | Some (Some v) =>
            mkSlot i v (Some (prefix_through_eq arg)) :: plan_from text (S i) pos false args
        | Some None => plan_from text (S i) pos true args
        | None =>
            if starts_with "-" arg then plan_from text (S i) pos false args
            else if decide (pos ∈ text) then plan_from text (S i) (S pos) false args
            else mkSlot i arg None :: plan_from text (S i) (S pos) false args
        end
  end.
Definition plan_path_slots (cmd : string) (args : list string) : list PathSlot :=
  plan_from (command_non_path_positions cmd) 0 0 false args.

(** ** Staging *)

(** The files copied into the session's directory, with their contents. *)
Record StagingSession := mkSession { st_dir : string; st_files : list (string * string) }.

Inductive ShellPathMode := Stage | Direct.
Definition mode_from_config (value : string) : ShellPathMode :=
  if decide (value = "direct") then Direct else Stage.

Record ShellCommandTool := mkShellTool {
  allowed_commands : list string;
  timeout_secs : Z;
  allowed_read_directories : list string;
  allow_unrestricted_args : bool;
  path_mode : ShellPathMode;
  max_staged_input_bytes : Z;
}.
Definition shell_tool_new (commands : list string) (timeout : Z) (dirs : list string)
    (unrestricted : bool) : ShellCommandTool :=
  mkShellTool commands timeout dirs unrestricted Stage (64 * 1024 * 1024).
Definition with_path_policy (mode : ShellPathMode) (max_bytes : Z) (t : ShellCommandTool)
    : ShellCommandTool :=
  mkShellTool (allowed_commands t) (timeout_secs t) (allowed_read_directories t)
    (allow_unrestricted_args t) mode (Z.max max_bytes 1).

Definition vec_debug (l : list string) : string := "[" +:+ str_join ", " (str_debug <$> l) +:+ "]".
Definition str_len (s : string) : Z := Z.of_nat (String.length s).

Section tool.
Context `{FileSystem}.
(** The [k]-th random UUID, the temporary directory, and [str::to_lowercase]. *)
Context (new_v4 : nat → string) (temp_dir : string) (to_lowercase : string → string).
Context (self : ShellCommandTool).

Definition session_create (k : nat) : result string StagingSession :=
  let dir := join (join temp_dir "fusion-shell-stage") (new_v4 k) in
  _ ← fs_create dir; Ok (mkSession dir []).

(** The copy loop over the chunks the handle yields; an empty read ends it. *)
Fixpoint copy_loop (dest : string) (max_bytes : Z) (copied : string)
    (reads : list (result string string)) : result string string :=
  match reads with
  | [] => Ok copied
  | Err e :: _ => Err ("read failed: " +:+ e)
  | Ok chunk :: reads =>
      if decide (chunk = "") then Ok copied
      else if max_bytes <? str_len copied + str_len chunk then
        Err ("file grew past max_staged_input_bytes " +:+ pretty max_bytes +:+ " during copy")
      else
        _ ← map_err (λ e, "staged write: " +:+ e) (fs_write dest chunk);
        copy_loop dest max_bytes (copied +:+ chunk) reads
  end.

Definition stage_canonical_file (k : nat) (canonical : string) (max_bytes : Z)
    (session : StagingSession) : result string (string * StagingSession) :=
  h ← map_err (λ e, "open failed: " +:+ e) (fs_open canonical);
  meta ← map_err (λ e, "handle metadata failed: " +:+ e) (h_metadata h);
  if negb meta.1 then Err "validated path is not a regular file"
  else
  _ ← map_err (λ e, "refusing staged input: " +:+ path_error_display e)
        (check_not_hardlinked h canonical);
  if max_bytes <? meta.2 then
    Err ("file is " +:+ pretty meta.2 +:+ " bytes, exceeding max_staged_input_bytes "
           +:+ pretty max_bytes)
  else
  path_id ← map_err (λ e, "re-stat of validated path failed: " +:+ e) (fs_file_id canonical);
  match h_id h with
  | None => Err "file identity could not be determined for TOCTOU guard; refusing"
  | Some id =>
      if decide (id ≠ path_id) then
        Err "path changed between validation and open (TOCTOU guard); refusing"
      else
      let ext := match extension canonical with Some e => "." +:+ e | None => "" end in
      let dest := join (st_dir session) (new_v4 k +:+ ext) in
      _ ← map_err (λ e, "staged create: " +:+ e) (fs_create dest);
      content ← copy_loop dest max_bytes "" (h_reads h);
      Ok (dest, mkSession (st_dir session) (st_files session ++ [(dest, content)]))
  end.

(** ** The checks *)
Definition has_char (n : nat) (s : string) : bool :=
  str_contains (String.String (ascii_of_nat n) "") s.
Definition validate_arg (arg : string) : result string unit :=
  if (MAX_ARG_LEN <? String.length arg)%nat then Err "argument exceeds max length of 1024 bytes"
  else if has_char 0 arg || has_char 10 arg || has_char 13 arg then
    Err "arguments must not contain NUL or newline characters"
  else Ok tt.
Definition validate_args (args : list string) : result string unit :=
  if (MAX_ARGS <? length args)%nat then
    Err ("too many arguments: " +:+ pretty (N.of_nat (length args)) +:+ " (max 32)")
  else try_for_each validate_arg args.

(** [find_map] over the allowed directories. *)
Fixpoint first_within (dirs : list string) (candidate : string) : option string :=
  match dirs with
  | [] => None
  | dir :: dirs =>
      match canonicalize_within dir candidate with
      | Ok canonical => Some canonical
      | Err _ => first_within dirs candidate
      end
  end.

Definition resolve_within (cmd candidate : string) : result string string :=
  canonical ← ok_or ("argument '" +:+ candidate +:+ "' for command '" +:+ cmd
      +:+ "' is outside allowed read directories " +:+ vec_debug (allowed_read_directories self))
    (first_within (allowed_read_directories self) candidate);
  is_file ← map_err (λ e, "validated path '" +:+ canonical +:+ "' unreadable: " +:+ e)
    (fs_is_file canonical);
  if negb is_file then Err ("argument '" +:+ candidate +:+ "' for command '" +:+ cmd
      +:+ "' is not a regular file")
  else Ok canonical.

Definition stage_slot (cmd : string) (acc : list string * (StagingSession * nat)) (slot : PathSlot)
    : result string (list string * (StagingSession * nat)) :=
  let '(out, (session, k)) := acc in
  canonical ← resolve_within cmd (slot_value slot);
  '(staged, session) ← map_err (λ e, "staging failed for '" +:+ slot_value slot
      +:+ "' on command '" +:+ cmd +:+ "': " +:+ e)
    (stage_canonical_file k canonical (max_staged_input_bytes self) session);
  Ok (<[slot_index slot := default "" (inline_prefix slot) +:+ staged]> out, (session, S k)).

Definition apply_path_policy (cmd : string) (args : list string)
    : result string (list string * option StagingSession) :=
  if allow_unrestricted_args self then Ok (args, None)
  else if decide (cmd ∉ FILE_READING_COMMANDS) then Ok (args, None)
  else if decide (allowed_read_directories self = []) then
    Err ("command '" +:+ cmd +:+ "' reads files but no allowed_read_directories are configured")
  else
    let slots := plan_path_slots cmd args in
    match path_mode self with
    | Direct =>
        _ ← try_for_each (λ slot, _ ← resolve_within cmd (slot_value slot); Ok tt) slots;
        Ok (args, None)
    | Stage =>
        session ← map_err (λ e, "staging directory creation failed: " +:+ e) (session_create 0);
        '(out, (session, _)) ← try_fold (stage_slot cmd) (args, (session, 1%nat)) slots;
        Ok (out, Some session)
    end.

Definition REJECTED_SHELLS : list string :=
  ["cmd"; "cmd.exe"; "sh"; "bash"; "powershell"; "powershell.exe"; "pwsh"; "zsh"].
Definition validate_command (cmd : string) : result string unit :=
  let cmd_clean := to_lowercase (trim cmd) in
  if decide (cmd_clean ∈ REJECTED_SHELLS
      ∨ default cmd_clean (file_name cmd_clean) ∈ REJECTED_SHELLS
      ∨ default cmd_clean (file_stem cmd_clean) ∈ REJECTED_SHELLS) then
    Err ("Execution of shell interpreter binary '" +:+ cmd +:+ "' is strictly prohibited")
  else if decide (cmd ∉ allowed_commands self) then
    Err ("Command '" +:+ cmd +:+ "' is not in allowed list: " +:+ vec_debug (allowed_commands self))
  else Ok tt.

(** The strings among the requested arguments. *)
Definition requested_args (args : json) : list string :=
  match json_get "args" args ≫= as_array with
  | Some arr => omap as_str arr
  | None => []
  end.

(** [execute] up to the start of the process: the command, its arguments and
    the session. *)
Definition prepare (args : json) : result string (string * list string * option StagingSession) :=
  cmd ← ok_or "Missing 'command' argument" (json_get "command" args ≫= as_str);
  _ ← validate_command cmd;
  _ ← validate_args (requested_args args);
  '(argv, session) ← apply_path_policy cmd (requested_args args);
  Ok (cmd, argv, session).
End tool.

(** ** Reading the output *)

(** [read_capped] over the chunks the pipe yields. *)
Fixpoint read_capped_loop (buf : list Byte.byte) (truncated : bool)
    (reads : list (result string (list Byte.byte))) : result string (list Byte.byte * bool) :=
  match reads with
  | [] => Ok (buf, truncated)
  | Err e :: _ => Err e
  | Ok [] :: _ => Ok (buf, truncated)
  | Ok chunk :: reads =>
      if (MAX_OUTPUT_BYTES <=? length buf)%nat then read_capped_loop buf true reads
      else
        let k := Nat.min (MAX_OUTPUT_BYTES - length buf) (length chunk) in
        read_capped_loop (buf ++ take k chunk) (truncated || (k <? length chunk)%nat) reads
  end.
Definition read_capped (pipe : option (list (result string (list Byte.byte))))
    : result string (list Byte.byte * bool) :=
  match pipe with None => Ok ([], false) | Some reads => read_capped_loop [] false reads end.

Definition drain_grace (timeout : Z) : Z := clamp 1 5 timeout.

(** [maybe_terminate]; slicing a string inside a character panics ([None]). *)
Definition truncation_notice : string :=
  String.String (ascii_of_nat 10) "... [output truncated]".
Definition maybe_terminate (text : string) : option string :=
  if (String.length text <=? MAX_OUTPUT_BYTES)%nat then Some text
  else if is_char_boundary MAX_OUTPUT_BYTES text
  then Some (String.substring 0 MAX_OUTPUT_BYTES text +:+ truncation_notice)
  else None.

(** ** What the planner covers *)
Lemma split_once_eq_spec arg flag value :
  split_once "=" arg = Some (flag, value) → arg = flag +:+ "=" +:+ value.
Proof. intros Hs. pose proof (split_once_spec "="%char arg) as H. rewrite Hs in H. by destruct H. Qed.

Lemma path_flags_dash f : f ∈ PATH_FLAGS → starts_with "-" f = true.
Proof. unfold PATH_FLAGS. rewrite !elem_of_cons, elem_of_nil. by intros [->|[->|[->|[->|[->|[->|[]]]]]]]. Qed.

Lemma path_flags_no_eq f : f ∈ PATH_FLAGS → split_once "=" f = None.
Proof. unfold PATH_FLAGS. rewrite !elem_of_cons, elem_of_nil. by intros [->|[->|[->|[->|[->|[->|[]]]]]]]. Qed.

(** *** The roles of arguments, by convention *)

(** Which arguments are the value of a path flag that stands before them. *)
Fixpoint flag_values (is_value : bool) (args : list string) : list bool :=
  match args with
  | [] => []
  | arg :: args => is_value :: flag_values (negb is_value && bool_decide (arg ∈ PATH_FLAGS)) args
  end.
(** An argument that is neither a flag nor the value of a path flag; and the
    first of them. *)
Definition positional (is_value : bool) (args : list string) (i : nat) : Prop :=
  ∃ arg, args !! i = Some arg ∧ flag_values is_value args !! i = Some false ∧ starts_with "-" arg = false.
Definition first_positional (args : list string) (i : nat) : Prop :=
  positional false args i ∧ ∀ j, (j < i)%nat → ¬ positional false args j.
(** A flag that holds no value: of one letter, or a long one without [=]. *)
Definition bare_flag (arg : string) : bool :=
  starts_with "-" arg && bool_decide (arg ≠ "--") &&
  ((String.length arg <=? 2)%nat || starts_with "--" arg && bool_decide (split_once "=" arg = None)).
(** [flag +:+ value] is an argument that names a path: alone, as the value of
    the path flag before it, or as [--flag=value]. *)
Definition path_argument (is_value : bool) (arg flag value : string) : Prop :=
  arg = flag +:+ value ∧
  (flag = "" ∧ (is_value = true ∨ starts_with "-" arg = false) ∨
   is_value = false ∧ ∃ f, f ∈ PATH_FLAGS ∧ flag = f +:+ "=").
(** The text of a command is the first positional argument, unless a file is
    given for it. *)
Definition gives_text_file (arg : string) : Prop :=
  arg ∈ ["-f"; "--file"] ∨ ∃ flag value, split_once "=" arg = Some (flag, value) ∧ flag ∈ ["-f"; "--file"].
Definition command_text (cmd : string) (args : list string) (i : nat) : Prop :=
  cmd ∈ ["grep"; "sed"; "awk"] ∧ (∀ arg, arg ∈ args → ¬ gives_text_file arg) ∧ first_positional args i.

(** *** What the planner does with them *)

(** The argument a slot stands for. *)
Definition slot_arg (s : PathSlot) : string := default "" (inline_prefix s) +:+ slot_value s.

(** What the planner does with the head of the arguments. *)
Definition head_slot (text : list nat) (i pos : nat) (skip : bool) (arg : string) : option PathSlot :=
  if skip then Some (mkSlot i arg None)
  else match path_flag_value arg with
    | Some (Some v) => Some (mkSlot i v (Some (prefix_through_eq arg)))
    | Some None => None
    | None => if starts_with "-" arg || bool_decide (pos ∈ text) then None else Some (mkSlot i arg None)
    end.
Definition next_pos (pos : nat) (skip : bool) (arg : string) : nat :=
  if skip || starts_with "-" arg then pos else S pos.

Lemma path_flag_none arg : path_flag_value arg = None → (negb false && bool_decide (arg ∈ PATH_FLAGS)) = false.
Proof.
  unfold path_flag_value. intros Hn. apply bool_decide_eq_false. intros Hin. revert Hn.
  rewrite (path_flags_no_eq arg Hin). by rewrite decide_True.
Qed.
Lemma path_flag_some arg v : path_flag_value arg = Some v → starts_with "-" arg = true.
Proof.
  unfold path_flag_value. destruct (split_once "=" arg) as [[flag value]|] eqn:Hs; case_decide as Hf; try done.
  - intros _. apply split_once_eq_spec in Hs as ->. apply path_flags_dash, starts_with_spec in Hf as [rest ->].
    apply starts_with_spec. exists (rest +:+ "=" +:+ value). by rewrite str_app_assoc.
  - intros _. by apply path_flags_dash.
Qed.
Lemma plan_from_cons text i pos skip arg args :
  plan_from text i pos skip (arg :: args) =
  option_list (head_slot text i pos skip arg) ++
  plan_from text (S i) (next_pos pos skip arg) (negb skip && bool_decide (arg ∈ PATH_FLAGS)) args.
Proof.
  cbn [plan_from]. unfold head_slot, next_pos. destruct skip; [done|]. cbn [orb].
  destruct (path_flag_value arg) as [v|] eqn:Hp.
  - rewrite (path_flag_some arg v Hp). unfold path_flag_value in Hp.
    destruct (split_once "=" arg) as [[f w]|] eqn:Hs; case_decide as Hf; simplify_eq; csimpl.
    + rewrite bool_decide_false; [done|]. intros Hin%path_flags_no_eq. congruence.
    + by rewrite bool_decide_true.
  - rewrite (path_flag_none arg Hp). destruct (starts_with "-" arg); csimpl; [done|]. case_decide; csimpl.
    + by rewrite bool_decide_true.
    + by rewrite bool_decide_false.
Qed.

Lemma elem_of_option_list {A} (x : A) mx : x ∈ option_list mx ↔ mx = Some x.
Proof. destruct mx; csimpl; [rewrite list_elem_of_singleton; naive_solver|split; [by intros ?%elem_of_nil|done]]. Qed.
Lemma head_slot_spec text i pos skip arg s :
  head_slot text i pos skip arg = Some s →
  slot_index s = i ∧ slot_arg s = arg ∧ path_argument skip arg (default "" (inline_prefix s)) (slot_value s).
Proof.
  unfold head_slot, path_argument, slot_arg. destruct skip; [intros [= <-]; csimpl; split_and!; auto|].
  destruct (path_flag_value arg) as [[v|]|] eqn:Hp; [|done|].
  - intros [= <-]. csimpl. revert Hp. unfold path_flag_value, prefix_through_eq.
    destruct (split_once "=" arg) as [[f w]|] eqn:Hs; case_decide as Hf; intros [= ->].
    apply split_once_eq_spec in Hs. rewrite str_app_assoc. split_and!; [done..|]. right. split; [done|]. by exists f.
  - destruct (starts_with "-" arg); csimpl; [done|]. destruct (bool_decide _); [done|]. intros [= <-]. csimpl.
    split_and!; auto.
Qed.
Lemma head_slot_none text i pos skip arg :
  head_slot text i pos skip arg = None →
  skip = false ∧ (starts_with "-" arg = true ∧ (∀ v, path_flag_value arg ≠ Some (Some v)) ∨
                  starts_with "-" arg = false ∧ pos ∈ text).
Proof.
  unfold head_slot. destruct skip; [done|]. destruct (path_flag_value arg) as [[v|]|] eqn:Hp; [done|..].
  - intros _. split; [done|]. left. split; [by eapply path_flag_some|done].
  - destruct (starts_with "-" arg); csimpl; [auto|]. destruct (bool_decide _) eqn:Hb; [|done].
    apply bool_decide_eq_true in Hb. auto.
Qed.

Lemma plan_slots text i pos skip args s :
  s ∈ plan_from text i pos skip args →
  (i ≤ slot_index s)%nat ∧ args !! (slot_index s - i)%nat = Some (slot_arg s).
Proof.
  revert i pos skip. induction args as [|arg args IH]; intros i pos skip; [by intros ?%elem_of_nil|].
  rewrite plan_from_cons. intros [Hs|[Hle Hl]%IH]%elem_of_app.
  - apply elem_of_option_list, head_slot_spec in Hs as (<- & <- & _). by rewrite Nat.sub_diag.
  - split; [lia|]. by replace (slot_index s - i)%nat with (S (slot_index s - S i)) by lia.
Qed.

Lemma plan_nodup text i pos skip args : NoDup (slot_index <$> plan_from text i pos skip args).
Proof.
  revert i pos skip. induction args as [|arg args IH]; intros i pos skip; [constructor|].
  rewrite plan_from_cons. destruct (head_slot text i pos skip arg) as [s|] eqn:Hs; csimpl; [|apply IH].
  constructor; [|apply IH]. apply head_slot_spec in Hs as (-> & _). intros (s' & Heq & Hs')%list_elem_of_fmap.
  apply plan_slots in Hs' as [? _]. lia.
Qed.

(** Every argument has a slot with the path it names, or it is a flag without
    a path, or it is positional and stands at a position of the text. *)
Lemma plan_roles text i pos skip args j arg is_value :
  args !! j = Some arg → flag_values skip args !! j = Some is_value →
  (∃ s, s ∈ plan_from text i pos skip args ∧ slot_index s = (i + j)%nat ∧
     path_argument is_value arg (default "" (inline_prefix s)) (slot_value s)) ∨
  ((i + j)%nat ∉ slot_index <$> plan_from text i pos skip args) ∧ is_value = false ∧
  (starts_with "-" arg = true ∧ (∀ v, path_flag_value arg ≠ Some (Some v)) ∨
   starts_with "-" arg = false ∧
   ∃ p, p ∈ text ∧ (pos ≤ p)%nat ∧ (p = pos → ∀ k, (k < j)%nat → ¬ positional skip args k)).
Proof.
  revert i pos skip j. induction args as [|a args IH]; intros i pos skip j; [done|]. rewrite plan_from_cons.
  destruct j as [|j]; cbn [flag_values lookup list_lookup].
  - intros [= ->] [= ->]. destruct (head_slot text i pos is_value arg) as [s|] eqn:Hs.
    + apply head_slot_spec in Hs as (Hi & _ & Hp). left. exists s. rewrite Nat.add_0_r. split_and!; [by left|done..].
    + right. split. { rewrite Nat.add_0_r. intros (s & -> & [Hle _]%plan_slots)%list_elem_of_fmap. lia. }
      apply head_slot_none in Hs as [-> [?|[? ?]]]; (split; [done|]); [by left|]. right. split; [done|].
      exists pos. split_and!; [done|lia|]. intros _ k Hk. lia.
  - intros Hj Hv. destruct (IH (S i) (next_pos pos skip a) _ j Hj Hv) as [(s & Hs & Hi & Hp)|(Hni & -> & Hrole)].
    + left. exists s. split_and!; [apply elem_of_app; by right|lia|done].
    + right. split.
      { intros (s & Heq & [Hs|Hs]%elem_of_app)%list_elem_of_fmap.
        - apply elem_of_option_list, head_slot_spec in Hs as (? & _). lia.
        - apply Hni. rewrite Nat.add_succ_comm, Heq. by apply list_elem_of_fmap_2. }
      split; [done|]. destruct Hrole as [?|(Hd & p & Ht & Hle & Hk)]; [by left|]. right. split; [done|]. exists p. unfold next_pos in Hle, Hk.
      destruct (skip || starts_with "-" a) eqn:Hpos; [|split_and!; [done|lia|lia]].
      split_and!; [done..|]. intros Hp [|k] Hlt (b & Hb & Hf & Hs); csimpl in *.
      * simplify_eq. by rewrite Hs in Hpos.
      * apply (Hk Hp k); [lia|]. by exists b.
Qed.

(** ** What the child is given *)
Section contained.
Context `{FileSystem}.
Context (new_v4 : nat → string) (temp_dir : string) (to_lowercase : string → string).
Context (self : ShellCommandTool).

(** A staged copy: a bounded copy of a regular file with one name, read
    through a handle on the file that the canonical path named. *)
Definition faithful_copy (canonical content : string) : Prop :=
  ∃ h len, fs_open canonical = Ok h ∧ h_metadata h = Ok (true, len) ∧
    (∃ n, h_nlink h = Some n ∧ n ≤ 1) ∧ (∃ id, h_id h = Some id ∧ fs_file_id canonical = Ok id) ∧
    str_len content ≤ max_staged_input_bytes self ∧ len ≤ max_staged_input_bytes self ∧
    ∃ chunks rest, h_reads h = (Ok <$> chunks) ++ rest ∧ content = str_join "" chunks.

(** A path the tool may read. *)
Definition readable (candidate canonical : string) : Prop :=
  (∃ dir, dir ∈ allowed_read_directories self ∧ within dir candidate canonical) ∧
  fs_is_file canonical = Ok true.

Lemma first_within_spec dirs candidate canonical :
  first_within dirs candidate = Some canonical →
  ∃ dir, dir ∈ dirs ∧ within dir candidate canonical.
Proof.
  induction dirs as [|dir dirs IH]; csimpl; [done|].
  destruct (canonicalize_within dir candidate) as [c|] eqn:Hc.
  - intros [= ->]. exists dir. split; [left|by apply canonicalize_within_spec].
  - intros (d & ? & ?)%IH. exists d. split; [by right|done].
Qed.

Lemma resolve_within_spec cmd candidate canonical :
  resolve_within self cmd candidate = Ok canonical → readable candidate canonical.
Proof.
  unfold resolve_within, readable.
  destruct (first_within _ candidate) as [c|] eqn:Hf; csimpl; [|done].
  destruct (fs_is_file c) as [[]|] eqn:Hm; csimpl; try done. intros [= ->].
  split; [by apply first_within_spec|done].
Qed.

Lemma str_join_empty_cons c l : str_join "" (c :: l) = c +:+ str_join "" l.
Proof. destruct l; csimpl; [by rewrite str_app_nil_r|done]. Qed.

Lemma copy_loop_spec dest max copied reads content :
  str_len copied ≤ max → copy_loop dest max copied reads = Ok content →
  str_len content ≤ max ∧
  ∃ chunks rest, reads = (Ok <$> chunks) ++ rest ∧ content = copied +:+ str_join "" chunks.
Proof.
  revert copied. induction reads as [|[chunk|e] reads IH]; intros copied Hle; csimpl; [|..|done].
  - intros [= <-]. split; [done|]. exists [], []. by rewrite str_app_nil_r.
  - case_decide as Hc.
    { intros [= <-]. split; [done|]. exists [], (Ok chunk :: reads). by rewrite str_app_nil_r. }
    destruct (max <? _) eqn:Hm; [done|]. destruct (fs_write dest chunk); csimpl; [|done].
    intros Hl. apply IH in Hl as (? & chunks & rest & -> & ->).
    + split; [done|]. exists (chunk :: chunks), rest. split; [done|].
      by rewrite str_join_empty_cons, str_app_assoc.
    + unfold str_len in *. rewrite str_length_app, Nat2Z.inj_add. lia.
Qed.

Lemma stage_spec k canonical session staged session' :
  0 ≤ max_staged_input_bytes self →
  stage_canonical_file new_v4 k canonical (max_staged_input_bytes self) session = Ok (staged, session') →
  ∃ content, faithful_copy canonical content ∧
    session' = mkSession (st_dir session) (st_files session ++ [(staged, content)]).
Proof.
  intros Hmax. unfold stage_canonical_file, faithful_copy.
  destruct (fs_open canonical) as [h|] eqn:Ho; csimpl; [|done].
  destruct (h_metadata h) as [[is_file len]|] eqn:Hm; csimpl; [|done].
  destruct is_file; csimpl; [|done].
  unfold check_not_hardlinked. destruct (h_nlink h) as [n|] eqn:Hn; csimpl; [|done].
  destruct (1 <? n) eqn:Hn1; csimpl; [done|].
  destruct (max_staged_input_bytes self <? len) eqn:Hlen; csimpl; [done|].
  destruct (fs_file_id canonical) as [pid|] eqn:Hp; csimpl; [|done].
  destruct (h_id h) as [id|] eqn:Hid; [|done]. case_decide as Heq; [done|]. subst id.
  destruct (fs_create _); csimpl; [|done].
  destruct (copy_loop _ _ _ _) as [content|] eqn:Hc; csimpl; [|done]. intros [= <- <-].
  apply copy_loop_spec in Hc as (? & chunks & rest & ? & ->); [|done].
  exists (str_join "" chunks). split; [|done]. exists h, len.
  split_and!; [done|done|exists n; split; [done|lia]|by exists pid|done|lia|]. by exists chunks, rest.
Qed.

Lemma stage_slots_spec cmd slots out0 session0 k out session k' :
  0 ≤ max_staged_input_bytes self →
  try_fold (stage_slot new_v4 self cmd) (out0, (session0, k)) slots = Ok (out, (session, k')) →
  NoDup (slot_index <$> slots) → (∀ s, s ∈ slots → (slot_index s < length out0)%nat) →
  length out = length out0 ∧ (∀ j, j ∉ slot_index <$> slots → out !! j = out0 !! j) ∧
  (∀ f, f ∈ st_files session0 → f ∈ st_files session) ∧
  ∀ s, s ∈ slots → ∃ canonical staged content,
    out !! slot_index s = Some (default "" (inline_prefix s) +:+ staged) ∧
    readable (slot_value s) canonical ∧ faithful_copy canonical content ∧
    (staged, content) ∈ st_files session.
Proof.
  intros Hmax. revert out0 session0 k. induction slots as [|s slots IH]; intros out0 session0 k;
    cbn [try_fold].
  { intros [= -> -> _] _ _. split_and!; [done..|by intros s ?%elem_of_nil]. }
  unfold stage_slot at 1. csimpl.
  destruct (resolve_within self cmd (slot_value s)) as [canonical|] eqn:Hr; csimpl; [|done].
  destruct (stage_canonical_file _ _ _ _ _) as [[staged session1]|] eqn:Hs; csimpl; [|done].
  intros Hf [Hn Hnd]%NoDup_cons Hlt. apply stage_spec in Hs as (content & Hcopy & ->); [|done].
  apply IH in Hf as (Hlen & Hout & Hfiles & Hall); [|done|].
  2:{ intros s' Hs'. rewrite length_insert. apply Hlt. by right. }
  rewrite length_insert in Hlen. csimpl in *. split_and!; [done| | |].
  - intros j [Hne Hj]%not_elem_of_cons. rewrite Hout by done. by apply list_lookup_insert_ne.
  - intros f Hin. apply Hfiles, elem_of_app. by left.
  - intros s' [->|Hs']%elem_of_cons; [|by apply Hall]. exists canonical, staged, content.
    split_and!; [|by eapply resolve_within_spec|done|].
    + rewrite Hout by done. apply list_lookup_insert_eq, Hlt. left.
    + apply Hfiles, elem_of_app. right. left.
Qed.

Lemma text_positions cmd p : p ∈ command_non_path_positions cmd → p = 0%nat ∧ cmd ∈ ["grep"; "sed"; "awk"].
Proof.
  clear. unfold command_non_path_positions. repeat case_decide; subst; try by intros ?%elem_of_nil.
  all: intros ->%list_elem_of_singleton; split; [done|set_solver].
Qed.

(** An argument with no slot of its own. *)
Lemma unplanned_role cmd args i arg is_value :
  args !! i = Some arg → flag_values false args !! i = Some is_value →
  (starts_with "-" arg = true → bare_flag arg = true ∨ path_flag_value arg ≠ None) →
  (cmd ∈ ["grep"; "sed"; "awk"] → ∀ a, a ∈ args → ¬ gives_text_file a) →
  is_value = false ∧
  (starts_with "-" arg = true ∧ (∀ v, path_flag_value arg ≠ Some (Some v)) ∨
   starts_with "-" arg = false ∧
   ∃ p, p ∈ command_non_path_positions cmd ∧ (0 ≤ p)%nat ∧ (p = 0%nat → ∀ k, (k < i)%nat → ¬ positional false args k)) →
  is_value = false ∧ bare_flag arg = true ∨ command_text cmd args i.
Proof.
  clear. intros Hi Hv Hflag Htext [-> [[Hd Hnp]|[Hd (p & Hp & _ & Hk)]]].
  - left. split; [done|]. destruct (Hflag Hd) as [?|Hf]; [done|]. revert Hf Hnp. unfold path_flag_value.
    destruct (split_once "=" arg) as [[f w]|] eqn:Hs; case_decide as Hin; try done; intros _ Hnp.
    + by destruct (Hnp w).
    + clear -Hin. revert Hin. unfold PATH_FLAGS. rewrite !elem_of_cons, elem_of_nil.
      by intros [->|[->|[->|[->|[->|[->|[]]]]]]].
  - right. apply text_positions in Hp as [-> Hc]. split_and!; [done|by apply Htext|].
    split; [by exists arg|by apply Hk].
Qed.
Lemma flag_values_lookup skip args i arg :
  args !! i = Some arg → ∃ is_value, flag_values skip args !! i = Some is_value.
Proof. clear. revert skip i. induction args as [|a args IH]; intros skip [|i]; csimpl; [done..|by eexists|apply IH]. Qed.

End contained.

(** ** Arguments the planner takes for something else *)

(** [grep -ex /etc/passwd] searches the file for [x]: the pattern is given
    with the flag, so the only positional argument is a file; the planner
    takes it for the pattern. *)
Theorem attached_pattern_hides_path :
  plan_path_slots "grep" ["-ex"; "/etc/passwd"] = [].
Proof. reflexivity. Qed.

(** A short flag may carry its value in the same argument; the planner looks
    for the flag alone. *)
Theorem attached_file_flag_hides_path :
  plan_path_slots "grep" ["-f/etc/passwd"] = [].
Proof. reflexivity. Qed.

(** [grep -f patterns /etc/passwd] takes its patterns from a file, so the
    positional argument is a file too; the planner takes it for the pattern. *)
Theorem pattern_file_hides_path :
  slot_value <$> plan_path_slots "grep" ["-f"; "/data/patterns"; "/etc/passwd"] = ["/data/patterns"].
Proof. reflexivity. Qed.

(** ** Bounded output *)
Definition ok_chunks (l : list (list Byte.byte)) : list (result string (list Byte.byte)) := Ok <$> l.

Lemma read_capped_loop_cons buf truncated chunk l :
  chunk ≠ [] →
  read_capped_loop buf truncated (ok_chunks (chunk :: l)) =
  if (MAX_OUTPUT_BYTES <=? length buf)%nat then read_capped_loop buf true (ok_chunks l)
  else read_capped_loop (buf ++ take (MAX_OUTPUT_BYTES - length buf) chunk)
    (truncated || (MAX_OUTPUT_BYTES - length buf <? length chunk)%nat) (ok_chunks l).
Proof.
  destruct chunk as [|b c]; [done|]. intros _. set (chunk := b :: c).
  assert (∀ n, take (Nat.min n (length chunk)) chunk = take n chunk) as Ht.
  { intros n. rewrite <- take_take, (take_ge chunk (length chunk)) by done. done. }
  assert (∀ n, (Nat.min n (length chunk) <? length chunk)%nat = (n <? length chunk)%nat) as Hl.
  { intros n. apply eq_true_iff_eq. rewrite !Nat.ltb_lt. lia. }
  rewrite <- Ht, <- Hl. done.
Qed.

Lemma read_capped_loop_spec l buf truncated :
  (length buf ≤ MAX_OUTPUT_BYTES)%nat → Forall (λ c, c ≠ []) l →
  read_capped_loop buf truncated (ok_chunks l) =
  Ok (take MAX_OUTPUT_BYTES (buf ++ mjoin l),
      truncated || (MAX_OUTPUT_BYTES <? length (buf ++ mjoin l))%nat).
Proof.
  intros Hb Hl. revert buf truncated Hb. induction Hl as [|chunk l Hc Hl IH]; intros buf truncated Hb.
  { change (ok_chunks []) with (@nil (result string (list Byte.byte))).
    change (mjoin []) with (@nil Byte.byte). rewrite app_nil_r, take_ge by done.
    rewrite (proj2 (Nat.ltb_ge _ _) Hb), orb_false_r. done. }
  rewrite read_capped_loop_cons by done. change (mjoin (chunk :: l)) with (chunk ++ mjoin l).
  assert (0 < length chunk)%nat by (destruct chunk; [done|simpl; lia]).
  destruct (MAX_OUTPUT_BYTES <=? length buf)%nat eqn:Hm.
  - apply Nat.leb_le in Hm. rewrite IH, !take_app_le by lia. f_equal. f_equal. simpl.
    symmetry. apply orb_true_intro. right. apply Nat.ltb_lt. rewrite !length_app. lia.
  - apply Nat.leb_gt in Hm. rewrite IH by (rewrite length_app, length_take; lia). f_equal. f_equal.
    + rewrite <- app_assoc. rewrite !(take_app_ge buf) by lia. f_equal.
      destruct (decide (length chunk <= MAX_OUTPUT_BYTES - length buf)%nat).
      * by rewrite (take_ge chunk) by lia.
      * rewrite take_app_le by (rewrite length_take; lia). rewrite take_take, Nat.min_id.
        by rewrite take_app_le by lia.
    + rewrite <- orb_assoc. f_equal. apply eq_true_iff_eq.
      rewrite orb_true_iff, !Nat.ltb_lt, !length_app, length_take. lia.
Qed.

(** Reading the child's output keeps exactly its first [MAX_OUTPUT_BYTES]
    bytes, however it arrives, and reports exactly whether there was more. *)
Theorem read_capped_exact l :
  Forall (λ c, c ≠ []) l →
  read_capped (Some (ok_chunks l)) =
  Ok (take MAX_OUTPUT_BYTES (mjoin l), (MAX_OUTPUT_BYTES <? length (mjoin l))%nat).
Proof. intros Hl. apply (read_capped_loop_spec l [] false); [simpl; lia|done]. Qed.

(** ** Truncation inside a character *)

(** The replacement character of [String::from_utf8_lossy]. *)
Definition replacement : string := bytes [239; 191; 189]%nat.
Fixpoint replacements (n : nat) : string :=
  match n with O => "" | S n => replacement +:+ replacements n end.

Lemma get_replacements n k :
  (k < n)%nat → String.get (3 * k + 1) (replacements n) = Some (ascii_of_nat 191).
Proof.
  revert n. induction k as [|k IH]; intros [|n] Hk; [lia|done|lia|].
  replace (3 * S k + 1)%nat with (S (S (S (3 * k + 1)))) by lia. apply IH. lia.
Qed.
Lemma length_replacements n : String.length (replacements n) = (3 * n)%nat.
Proof. induction n as [|n IH]; [done|]. cbn [replacements]. rewrite str_length_app, IH. change (String.length replacement) with 3%nat. lia. Qed.

(** A child that writes 349526 bytes or more that are not UTF-8, all within
    the bound, makes the tool panic: each becomes three bytes of text, and the
    text is cut inside a character. *)
Theorem lossy_output_panics n :
  (349526 ≤ Z.of_nat n) → maybe_terminate (replacements n) = None.
Proof.
  intros Hn. unfold maybe_terminate.
  assert (MAX_OUTPUT_BYTES = 3 * Z.to_nat 349525 + 1)%nat as Hmax.
  { apply Nat2Z.inj. unfold MAX_OUTPUT_BYTES. rewrite Nat2Z.inj_add, Nat2Z.inj_mul, !Z2Nat.id by lia. lia. }
  rewrite length_replacements, (proj2 (Nat.leb_gt _ _)) by lia.
  unfold is_char_boundary. rewrite Hmax, get_replacements by lia. done.
Qed.

(** ** Examples *)
Definition demo_handle : Handle :=
  mkHandle (Ok (true, 5)) (Some 1) (Some (1, 2)) [Ok "he"; Ok "llo"].
#[local] Instance demo_fs : FileSystem := {|
  fs_canonicalize p := Some p;
  fs_is_file _ := Ok true;
  fs_open _ := Ok demo_handle;
  fs_file_id _ := Ok (1, 2);
  fs_create _ := Ok tt;
  fs_write _ _ := Ok tt;
|}.
Definition demo_tool : ShellCommandTool := shell_tool_new ["cat"; "grep"] 5 ["/data"] false.
Definition demo_request : json :=
  JObject [("args", JArray [JString "-n"; JString "x"; JString "/data/a.txt"]);
           ("command", JString "grep")].
Definition demo_v4 (k : nat) : string := "id" +:+ pretty (N.of_nat k).


Lemma read_capped_exact_witness :
  read_capped (Some (ok_chunks [[Byte.x01]; [Byte.x02; Byte.x03]])) =
  Ok (take MAX_OUTPUT_BYTES [Byte.x01; Byte.x02; Byte.x03], (MAX_OUTPUT_BYTES <? 3)%nat).
Proof.
  apply (read_capped_exact [[Byte.x01]; [Byte.x02; Byte.x03]]).
  repeat constructor; discriminate.
Defined.
