(* ===== verification/HttpTool.v ===== *)
(** * The HTTP tool ([src/tools/http_tool.rs])

    The address policy of the tool: which addresses are blocked, the checks on
    a URL before a request is made and the check in the resolver of the client
    when it is. URL parsing and the two DNS lookups are parameters, and the
    lookups may answer differently: no request reaches a blocked address
    unless its host is on the allowlist ([requests_reach_public_hosts]). *)
From S2P Require Import Prelude Text Money Json ExecTypes ShellTool.
From Stdlib Require Import Ascii.
Open Scope stdpp_scope.
Open Scope Z_scope.

(** ** Addresses ([std::net]) *)
Inductive IpAddr :=
| V4 (a b c d : Z)
| V6 (s0 s1 s2 s3 s4 s5 s6 s7 : Z).

Definition is_u8 (x : Z) : Prop := 0 ≤ x < 256.
Definition is_u16 (x : Z) : Prop := 0 ≤ x < 65536.
Definition ip_wf (ip : IpAddr) : Prop :=
  match ip with
  | V4 a b c d => is_u8 a ∧ is_u8 b ∧ is_u8 c ∧ is_u8 d
  | V6 s0 s1 s2 s3 s4 s5 s6 s7 =>
      is_u16 s0 ∧ is_u16 s1 ∧ is_u16 s2 ∧ is_u16 s3 ∧ is_u16 s4 ∧ is_u16 s5 ∧ is_u16 s6 ∧ is_u16 s7
  end.

(** [to_ipv4_mapped], and the normalisation of [is_blocked_ip]. *)
Definition unmap (ip : IpAddr) : IpAddr :=
  match ip with
  | V6 s0 s1 s2 s3 s4 s5 s6 s7 =>
      if forallb (Z.eqb 0) [s0; s1; s2; s3; s4] && (s5 =? 0xffff)
      then V4 (s6 / 256) (s6 mod 256) (s7 / 256) (s7 mod 256) else ip
  | V4 _ _ _ _ => ip
  end.

Definition is_blocked_ip (ip : IpAddr) : bool :=
  match unmap ip with
  | V4 a b c d =>
      (* loopback, link-local, private, unspecified, broadcast *)
      (a =? 127) || ((a =? 169) && (b =? 254))
      || ((a =? 10) || ((a =? 172) && (16 <=? b) && (b <=? 31)) || ((a =? 192) && (b =? 168)))
      || forallb (Z.eqb 0) [a; b; c; d]
      || forallb (Z.eqb 255) [a; b; c; d]
      || (a =? 0)
      || ((a =? 100) && (Z.land b 0xC0 =? 0x40))
  | V6 s0 s1 s2 s3 s4 s5 s6 s7 =>
      (* loopback, unspecified *)
      (forallb (Z.eqb 0) [s0; s1; s2; s3; s4; s5; s6] && (s7 =? 1))
      || forallb (Z.eqb 0) [s0; s1; s2; s3; s4; s5; s6; s7]
      || (Z.land s0 0xffc0 =? 0xfe80)
      || (Z.land s0 0xfe00 =? 0xfc00)
      || ((s0 =? 0x64) && (s1 =? 0xff9b) && forallb (Z.eqb 0) [s2; s3; s4; s5])
      || (forallb (Z.eqb 0) [s0; s1; s2; s3; s4; s5] && (negb (s6 =? 0) || negb (s7 =? 0)))
  end.

(** *** The blocks of addresses that should be unreachable *)
Definition v4_bits (a b c d : Z) : Z := ((a * 256 + b) * 256 + c) * 256 + d.
Definition v6_bits (s0 s1 s2 s3 s4 s5 s6 s7 : Z) : Z :=
  ((((((s0 * 65536 + s1) * 65536 + s2) * 65536 + s3) * 65536 + s4) * 65536 + s5) * 65536 + s6)
    * 65536 + s7.

(** [addr] is in the block [base/len] of [width]-bit addresses. *)
Definition in_block (width addr : Z) (block : Z * Z) : Prop :=
  addr / 2 ^ (width - block.2) = block.1 / 2 ^ (width - block.2).

Definition blocked_v4 : list (Z * Z) :=
  [(v4_bits 0 0 0 0, 8); (v4_bits 10 0 0 0, 8); (v4_bits 100 64 0 0, 10); (v4_bits 127 0 0 0, 8);
   (v4_bits 169 254 0 0, 16); (v4_bits 172 16 0 0, 12); (v4_bits 192 168 0 0, 16);
   (v4_bits 255 255 255 255, 32)].
Definition blocked_v6 : list (Z * Z) :=
  [(v6_bits 0 0 0 0 0 0 0 0, 96); (v6_bits 0x64 0xff9b 0 0 0 0 0 0, 96);
   (v6_bits 0xfc00 0 0 0 0 0 0 0, 7); (v6_bits 0xfe80 0 0 0 0 0 0 0, 10)].
Definition blocked4 (addr : Z) : Prop := Exists (in_block 32 addr) blocked_v4.

Definition internal_address (ip : IpAddr) : Prop :=
  match ip with
  | V4 a b c d => blocked4 (v4_bits a b c d)
  | V6 s0 s1 s2 s3 s4 s5 s6 s7 =>
      let addr := v6_bits s0 s1 s2 s3 s4 s5 s6 s7 in
      Exists (in_block 128 addr) blocked_v6 ∨
      in_block 128 addr (v6_bits 0 0 0 0 0 0xffff 0 0, 96) ∧ blocked4 (addr mod 2 ^ 32)
  end.

(** Masking the high bits of an [n]-bit word takes its prefix. *)
Lemma mask_prefix n k s mask :
  0 ≤ k → 0 ≤ n → mask = Z.ldiff (Z.ones n) (Z.ones k) → 0 ≤ s < 2 ^ n →
  Z.land s mask = s / 2 ^ k * 2 ^ k.
Proof.
  intros Hk Hn -> Hs.
  assert (Z.land s (Z.ldiff (Z.ones n) (Z.ones k)) = Z.ldiff (Z.land s (Z.ones n)) (Z.ones k)) as ->.
  { apply Z.bits_inj'. intros i _. by rewrite Z.ldiff_spec, !Z.land_spec, Z.ldiff_spec, andb_assoc. }
  rewrite Z.land_ones, Z.mod_small, Z.ldiff_ones_r, Z.shiftl_mul_pow2, Z.shiftr_div_pow2 by lia. done.
Qed.

Lemma cgnat_mask b : is_u8 b → (Z.land b 0xC0 =? 0x40) = (b / 64 =? 1).
Proof.
  intros Hb. rewrite (mask_prefix 8 6) by (done || lia). change (2 ^ 6) with 64.
  apply eq_true_iff_eq. rewrite !Z.eqb_eq. lia.
Qed.
Lemma link_local_mask s : is_u16 s → (Z.land s 0xffc0 =? 0xfe80) = (s / 64 =? 1018).
Proof.
  intros Hs. rewrite (mask_prefix 16 6) by (done || lia). change (2 ^ 6) with 64.
  apply eq_true_iff_eq. rewrite !Z.eqb_eq. lia.
Qed.
Lemma unique_local_mask s : is_u16 s → (Z.land s 0xfe00 =? 0xfc00) = (s / 512 =? 126).
Proof.
  intros Hs. rewrite (mask_prefix 16 9) by (done || lia). change (2 ^ 9) with 512.
  apply eq_true_iff_eq. rewrite !Z.eqb_eq. lia.
Qed.

(** Prefixes of an address. *)
Lemma v4_prefix a b c d :
  is_u8 b → is_u8 c → is_u8 d →
  v4_bits a b c d / 2 ^ 24 = a ∧ v4_bits a b c d / 2 ^ 22 = a * 4 + b / 64 ∧
  v4_bits a b c d / 2 ^ 20 = a * 16 + b / 16 ∧ v4_bits a b c d / 2 ^ 16 = a * 256 + b ∧
  v4_bits a b c d / 2 ^ 0 = v4_bits a b c d.
Proof.
  unfold is_u8, v4_bits. intros Hb Hc Hd.
  pose proof (Z.div_mod b 64 ltac:(lia)). pose proof (Z.mod_pos_bound b 64 ltac:(lia)).
  pose proof (Z.div_mod b 16 ltac:(lia)). pose proof (Z.mod_pos_bound b 16 ltac:(lia)).
  split_and!.
  - symmetry. apply (Z.div_unique_pos _ _ _ ((b * 256 + c) * 256 + d)); lia.
  - symmetry. apply (Z.div_unique_pos _ _ _ (((b mod 64) * 256 + c) * 256 + d)); lia.
  - symmetry. apply (Z.div_unique_pos _ _ _ (((b mod 16) * 256 + c) * 256 + d)); lia.
  - symmetry. apply (Z.div_unique_pos _ _ _ (c * 256 + d)); lia.
  - apply Z.div_1_r.
Qed.

Definition v4_test (a b c d : Z) : Prop :=
  a = 0 ∨ a = 10 ∨ a * 4 + b / 64 = 401 ∨ a = 127 ∨ a * 256 + b = 43518 ∨
  a * 16 + b / 16 = 2753 ∨ a * 256 + b = 49320 ∨ v4_bits a b c d = 4294967295.

Lemma blocked4_test a b c d :
  is_u8 b → is_u8 c → is_u8 d → blocked4 (v4_bits a b c d) ↔ v4_test a b c d.
Proof.
  intros Hb Hc Hd. destruct (v4_prefix a b c d Hb Hc Hd) as (E24 & E22 & E20 & E16 & E0).
  unfold blocked4, blocked_v4. rewrite !Exists_cons, Exists_nil. unfold in_block. cbn [fst snd].
  change (32 - 8) with 24. change (32 - 10) with 22. change (32 - 12) with 20.
  change (32 - 16) with 16. change (32 - 32) with 0. rewrite E24, E22, E20, E16, E0.
  unfold v4_test. generalize (v4_bits a b c d) as x. intros x.
  change (v4_bits 0 0 0 0 / 2 ^ 24) with 0. change (v4_bits 10 0 0 0 / 2 ^ 24) with 10.
  change (v4_bits 100 64 0 0 / 2 ^ 22) with 401. change (v4_bits 127 0 0 0 / 2 ^ 24) with 127.
  change (v4_bits 169 254 0 0 / 2 ^ 16) with 43518. change (v4_bits 172 16 0 0 / 2 ^ 20) with 2753.
  change (v4_bits 192 168 0 0 / 2 ^ 16) with 49320.
  change (v4_bits 255 255 255 255 / 2 ^ 0) with 4294967295. tauto.
Qed.

Lemma blocked_v4_exact a b c d :
  ip_wf (V4 a b c d) → (is_blocked_ip (V4 a b c d) = true ↔ blocked4 (v4_bits a b c d)).
Proof.
  intros (Ha & Hb & Hc & Hd). rewrite blocked4_test by done. unfold is_blocked_ip. cbn [unmap forallb].
  rewrite cgnat_mask by done. rewrite !orb_true_iff, !andb_true_iff, !Z.eqb_eq, !Z.leb_le.
  unfold v4_test, is_u8 in *.
  assert (v4_bits a b c d = 4294967295 ↔ 255 = a ∧ 255 = b ∧ 255 = c ∧ 255 = d) as ->
    by (unfold v4_bits; lia).
  pose proof (Z.div_mod b 64 ltac:(lia)). pose proof (Z.mod_pos_bound b 64 ltac:(lia)).
  pose proof (Z.div_mod b 16 ltac:(lia)). pose proof (Z.mod_pos_bound b 16 ltac:(lia)).
  assert (a * 4 + b / 64 = 401 ↔ a = 100 ∧ b / 64 = 1) as -> by lia.
  assert (a * 16 + b / 16 = 2753 ↔ a = 172 ∧ 16 ≤ b ≤ 31) as -> by lia.
  assert (a * 256 + b = 43518 ↔ a = 169 ∧ b = 254) as -> by lia.
  assert (a * 256 + b = 49320 ↔ a = 192 ∧ b = 168) as -> by lia.
  intuition congruence.
Qed.

Definition v6_prefix96 (s0 s1 s2 s3 s4 s5 : Z) : Z :=
  ((((s0 * 65536 + s1) * 65536 + s2) * 65536 + s3) * 65536 + s4) * 65536 + s5.

Lemma v6_prefix s0 s1 s2 s3 s4 s5 s6 s7 :
  ip_wf (V6 s0 s1 s2 s3 s4 s5 s6 s7) →
  let x := v6_bits s0 s1 s2 s3 s4 s5 s6 s7 in
  x / 2 ^ 32 = v6_prefix96 s0 s1 s2 s3 s4 s5 ∧ x mod 2 ^ 32 = s6 * 65536 + s7 ∧
  x / 2 ^ 121 = s0 / 512 ∧ x / 2 ^ 118 = s0 / 64.
Proof.
  intros (H0 & H1 & H2 & H3 & H4 & H5 & H6 & H7). unfold is_u16 in *. csimpl.
  unfold v6_bits, v6_prefix96.
  pose proof (Z.div_mod s0 512 ltac:(lia)). pose proof (Z.mod_pos_bound s0 512 ltac:(lia)).
  pose proof (Z.div_mod s0 64 ltac:(lia)). pose proof (Z.mod_pos_bound s0 64 ltac:(lia)).
  split_and!.
  - symmetry. apply (Z.div_unique_pos _ _ _ (s6 * 65536 + s7)); lia.
  - symmetry. eapply (Z.mod_unique_pos _ _ (v6_prefix96 s0 s1 s2 s3 s4 s5)); unfold v6_prefix96; lia.
  - symmetry. apply (Z.div_unique_pos _ _ _ (v6_bits (s0 mod 512) s1 s2 s3 s4 s5 s6 s7));
      unfold v6_bits; lia.
  - symmetry. apply (Z.div_unique_pos _ _ _ (v6_bits (s0 mod 64) s1 s2 s3 s4 s5 s6 s7));
      unfold v6_bits; lia.
Qed.

Lemma v6_prefix_zero s0 s1 s2 s3 s4 s5 :
  is_u16 s0 → is_u16 s1 → is_u16 s2 → is_u16 s3 → is_u16 s4 → is_u16 s5 →
  (v6_prefix96 s0 s1 s2 s3 s4 s5 = 0 ↔ s0 = 0 ∧ s1 = 0 ∧ s2 = 0 ∧ s3 = 0 ∧ s4 = 0 ∧ s5 = 0) ∧
  (v6_prefix96 s0 s1 s2 s3 s4 s5 = 65535 ↔
     s0 = 0 ∧ s1 = 0 ∧ s2 = 0 ∧ s3 = 0 ∧ s4 = 0 ∧ s5 = 65535) ∧
  (v6_prefix96 s0 s1 s2 s3 s4 s5 = v6_prefix96 0x64 0xff9b 0 0 0 0 ↔
     s0 = 0x64 ∧ s1 = 0xff9b ∧ s2 = 0 ∧ s3 = 0 ∧ s4 = 0 ∧ s5 = 0).
Proof. unfold is_u16, v6_prefix96. lia. Qed.

Lemma split_u16 s : is_u16 s → is_u8 (s / 256) ∧ is_u8 (s mod 256) ∧ s = s / 256 * 256 + s mod 256.
Proof.
  unfold is_u16, is_u8. intros Hs. pose proof (Z.div_mod s 256 ltac:(lia)).
  pose proof (Z.mod_pos_bound s 256 ltac:(lia)). split_and!; lia.
Qed.

Lemma in_blocked_v6 s0 s1 s2 s3 s4 s5 s6 s7 :
  ip_wf (V6 s0 s1 s2 s3 s4 s5 s6 s7) →
  internal_address (V6 s0 s1 s2 s3 s4 s5 s6 s7) ↔
  (v6_prefix96 s0 s1 s2 s3 s4 s5 = 0 ∨
   v6_prefix96 s0 s1 s2 s3 s4 s5 = v6_prefix96 0x64 0xff9b 0 0 0 0 ∨
   s0 / 512 = 126 ∨ s0 / 64 = 1018) ∨
  v6_prefix96 s0 s1 s2 s3 s4 s5 = 65535 ∧ blocked4 (s6 * 65536 + s7).
Proof.
  intros Hwf. destruct (v6_prefix _ _ _ _ _ _ _ _ Hwf) as (E32 & Em & E121 & E118).
  unfold internal_address. cbv zeta. unfold blocked_v6. rewrite !Exists_cons, Exists_nil.
  unfold in_block. cbn [fst snd]. rewrite Em.
  change (128 - 96) with 32. change (128 - 7) with 121. change (128 - 10) with 118.
  rewrite E32, E121, E118.
  change (v6_bits 0 0 0 0 0 0 0 0 / 2 ^ 32) with 0.
  change (v6_bits 0x64 0xff9b 0 0 0 0 0 0 / 2 ^ 32) with (v6_prefix96 0x64 0xff9b 0 0 0 0).
  change (v6_bits 0xfc00 0 0 0 0 0 0 0 / 2 ^ 121) with 126.
  change (v6_bits 0xfe80 0 0 0 0 0 0 0 / 2 ^ 118) with 1018.
  change (v6_bits 0 0 0 0 0 0xffff 0 0 / 2 ^ 32) with 65535. tauto.
Qed.

(** The masks and comparisons of [is_blocked_ip] decide exactly membership in
    the blocks [0/8], [10/8], [100.64/10], [127/8], [169.254/16], [172.16/12],
    [192.168/16] and [255.255.255.255], in the IPv6 blocks [::/96],
    [64:ff9b::/96], [fc00::/7] and [fe80::/10], and, for addresses that map
    IPv4 into IPv6, of the mapped address. *)
Lemma is_blocked_ip_spec ip : ip_wf ip → is_blocked_ip ip = true ↔ internal_address ip.
Proof.
  destruct ip as [a b c d|s0 s1 s2 s3 s4 s5 s6 s7]; [apply blocked_v4_exact|].
  intros Hwf. rewrite in_blocked_v6 by done. destruct Hwf as (H0 & H1 & H2 & H3 & H4 & H5 & H6 & H7).
  destruct (v6_prefix_zero s0 s1 s2 s3 s4 s5) as (-> & -> & ->); [done..|].
  destruct (forallb (Z.eqb 0) [s0; s1; s2; s3; s4] && (s5 =? 0xffff)) eqn:Hm.
  - assert (is_blocked_ip (V6 s0 s1 s2 s3 s4 s5 s6 s7) =
      is_blocked_ip (V4 (s6 / 256) (s6 mod 256) (s7 / 256) (s7 mod 256))) as ->.
    { unfold is_blocked_ip. cbn [unmap]. by rewrite Hm. }
    destruct (split_u16 s6 H6) as (? & ? & E6), (split_u16 s7 H7) as (? & ? & E7).
    rewrite blocked_v4_exact by done.
    assert (v4_bits (s6 / 256) (s6 mod 256) (s7 / 256) (s7 mod 256) = s6 * 65536 + s7) as ->
      by (unfold v4_bits; lia).
    cbn [forallb] in Hm. rewrite andb_true_r, !andb_true_iff, !Z.eqb_eq in Hm.
    destruct Hm as [(<- & <- & <- & <- & <-) ->]. change (0 / 512) with 0. change (0 / 64) with 0.
    split; [intros ?; right; by split_and!|]. intros [[?|[?|[?|?]]]|[_ ?]]; [lia..|done].
  - assert (is_blocked_ip (V6 s0 s1 s2 s3 s4 s5 s6 s7) = true ↔
      (s0 = 0 ∧ s1 = 0 ∧ s2 = 0 ∧ s3 = 0 ∧ s4 = 0 ∧ s5 = 0) ∨
      (s0 = 0x64 ∧ s1 = 0xff9b ∧ s2 = 0 ∧ s3 = 0 ∧ s4 = 0 ∧ s5 = 0) ∨ s0 / 512 = 126 ∨ s0 / 64 = 1018)
      as ->.
    { unfold is_blocked_ip. cbn [unmap]. rewrite Hm, link_local_mask, unique_local_mask by done.
      cbn [forallb]. rewrite ?andb_true_r, !orb_true_iff, !andb_true_iff, !orb_true_iff, !negb_true_iff, !Z.eqb_eq,
        !Z.eqb_neq.
      clear. assert (s6 = 0 ∨ s6 ≠ 0) by lia. assert (s7 = 0 ∨ s7 ≠ 0) by lia.
      assert (∀ x y : Z, (x = y) ↔ (y = x)) as Hsym by done.
      rewrite !(Hsym 0). tauto. }
    cbn [forallb] in Hm. rewrite ?andb_true_r, !andb_false_iff, !Z.eqb_neq in Hm.
    split; [auto|]. intros [?|[(-> & -> & -> & -> & -> & ->) _]]; [done|].
    exfalso. clear -Hm. tauto.
Qed.

(** ** The textual form of addresses ([Display]) *)
Definition hex_char (n : Z) : string :=
  String.String (ascii_of_N (Z.to_N (if n <? 10 then 48 + n else 87 + n))) "".
Fixpoint fmt_hex (fuel : nat) (n : Z) : string :=
  match fuel with
  | O => ""
  | S fuel => if n <? 16 then hex_char n else fmt_hex fuel (n / 16) +:+ hex_char (n mod 16)
  end.
Definition fmt_segments (l : list Z) : string := str_join ":" (fmt_hex 4 <$> l).
(** The first longest run of zero segments, as start and length. *)
Definition zero_run (l : list Z) : nat * nat :=
  (foldl (λ '(i, (cur, best)) s,
     let cur : nat * nat := if decide (s = 0)
       then ((if decide (cur.2 = O) then i else cur.1), S cur.2) else (O, O) in
     (S i, (cur, if (best.2 <? cur.2)%nat then cur else best)))
   (O, ((O, O), (O, O))) l).2.2.
Definition ip_to_string (ip : IpAddr) : string :=
  let v4 a b c d := str_join "." (fmt_u64 <$> [a; b; c; d]) in
  match ip, unmap ip with
  | V4 a b c d, _ => v4 a b c d
  | V6 _ _ _ _ _ _ _ _, V4 a b c d => "::ffff:" +:+ v4 a b c d
  | V6 s0 s1 s2 s3 s4 s5 s6 s7, _ =>
      let l := [s0; s1; s2; s3; s4; s5; s6; s7] in
      let '(start, len) := zero_run l in
      if (1 <? len)%nat
      then fmt_segments (take start l) +:+ "::" +:+ fmt_segments (drop (start + len) l)
      else fmt_segments l
  end.

Example ip_forms :
  ip_to_string <$> [V4 10 0 0 1; V6 0 0 0 0 0 0 0 1; V6 0x2001 0xdb8 0 0 1 0 0 1; V6 1 0 2 3 4 5 6 7;
    V6 0 0 0 0 0 0xffff 0x7f00 1]
  = ["10.0.0.1"; "::1"; "2001:db8::1:0:0:1"; "1:0:2:3:4:5:6:7"; "::ffff:127.0.0.1"].
Proof. vm_compute. reflexivity. Qed.

(** ** Requests *)
Inductive Host := Domain (name : string) | Ip (ip : IpAddr).
(** A parsed URL, with the credentials it holds, decoded. *)
Record Url := mkUrl {
  url_scheme : string;
  url_host : option Host;
  url_port : option Z;
  url_username : string;
  url_password : option string;
}.

Record HTTPRequestTool := mkHttpTool {
  allowed_hosts : list string;
  allowed_schemes : list string;
}.
Definition http_tool_new : HTTPRequestTool := mkHttpTool [] ["https"].

Record HttpRequest := mkHttpRequest {
  hr_method : string;
  hr_dials : list IpAddr;
  hr_authorization : option (string * option string);
  hr_headers : list (string * string);
  hr_body : option json;
}.

Definition eq_ignore_ascii_case (s t : string) : bool :=
  bool_decide (to_ascii_lowercase s = to_ascii_lowercase t).
Definition BLOCKED_HEADERS : list string := ["authorization"; "host"].

Section http.
(** [reqwest::Url::parse], [str::parse::<IpAddr>], the lookup made before the
    request and the lookup of the client's resolver. *)
Context (parse_url : string → result string Url) (parse_ip : string → option IpAddr).
Context (lookup_host : string → Z → result string (list IpAddr)).
Context (resolver_lookup : string → result string (list IpAddr)).
Context (self : HTTPRequestTool).

Definition is_host_allowlisted (host : string) : bool :=
  existsb (λ h, eq_ignore_ascii_case h host) (allowed_hosts self).

Definition validate_url (url_str : string) : result string Url :=
  url ← map_err (λ e, "Invalid URL: " +:+ e) (parse_url url_str);
  let scheme := to_ascii_lowercase (url_scheme url) in
  if negb (existsb (λ s, eq_ignore_ascii_case s scheme) (allowed_schemes self)) then
    Err ("URL scheme '" +:+ scheme +:+ "' is not allowed (allowed: "
           +:+ vec_debug (allowed_schemes self) +:+ ")")
  else
  host ← ok_or "URL must have a host" (url_host url);
  match host with
  | Ip ip =>
      if negb (is_host_allowlisted (ip_to_string ip)) && is_blocked_ip ip then
        Err ("URL host '" +:+ ip_to_string ip
               +:+ "' resolves to a blocked (loopback/private/link-local) address")
      else Ok url
  | Domain _ => Ok url
  end.

Definition url_host_string (url : Url) : string :=
  match url_host url with
  | Some (Domain d) => d
  | Some (Ip ip) => ip_to_string ip
  | None => ""
  end.

(** The loop of [select_pinned_addr]. *)
Fixpoint select_loop (host : string) (first : option IpAddr) (addrs : list IpAddr)
    : result string (option IpAddr) :=
  match addrs with
  | [] => match first with
          | None => Err ("URL host '" +:+ host +:+ "' resolved to no addresses")
          | Some _ => Ok first
          end
  | ip :: addrs =>
      if is_blocked_ip ip then
        Err ("URL host '" +:+ host +:+ "' resolves to blocked address " +:+ ip_to_string ip)
      else select_loop host (match first with None => Some ip | Some _ => first end) addrs
  end.
Definition select_pinned_addr (host : string) (addrs : list IpAddr) : result string (option IpAddr) :=
  select_loop host None addrs.

Definition validate_and_pin_host (host : string) (port : Z) : result string (option IpAddr) :=
  if is_host_allowlisted host then Ok None
  else match parse_ip host with
    | Some ip =>
        if is_blocked_ip ip then
          Err ("URL host '" +:+ host +:+ "' is a blocked (loopback/private/link-local) address")
        else Ok None
    | None =>
        addrs ← map_err (λ e, "DNS resolution failed for '" +:+ host +:+ "': " +:+ e)
          (lookup_host host port);
        select_pinned_addr host addrs
    end.

(** [ValidatingDnsResolver] *)
Definition resolver_validate (host : string) (addrs : list IpAddr) : result string unit :=
  if decide (addrs = []) then Err ("URL host '" +:+ host +:+ "' resolved to no addresses")
  else try_for_each (λ ip, if is_blocked_ip ip
         then Err ("URL host '" +:+ host +:+ "' resolves to blocked address " +:+ ip_to_string ip)
         else Ok tt) addrs.
Definition resolver_resolve (host : string) : result string (list IpAddr) :=
  addrs ← map_err (λ e, "DNS resolution failed for '" +:+ host +:+ "': " +:+ e) (resolver_lookup host);
  if is_host_allowlisted host then Ok addrs
  else _ ← resolver_validate host addrs; Ok addrs.

(** The addresses the client dials: a literal as it is, a name through the
    resolver. *)
Definition dial (url : Url) : result string (list IpAddr) :=
  match url_host url with
  | Some (Ip ip) => Ok [ip]
  | Some (Domain d) => resolver_resolve d
  | None => Err "no host"
  end.

Definition forwarded_headers (headers : list (string * json)) : list (string * string) :=
  omap (λ kv, v ← as_str kv.2;
    if decide (to_ascii_lowercase kv.1 ∈ BLOCKED_HEADERS) then None else Some (kv.1, v)) headers.

Definition request_body (method : string) (args : json) : result string (option json) :=
  if decide (method = "GET" ∨ method = "DELETE") then Ok None
  else if decide (method = "POST" ∨ method = "PUT") then Ok (Some (default JNull (json_get "body" args)))
  else Err ("Unsupported HTTP method: " +:+ method).

(** A request built from the text of a URL takes its credentials out and sends
    them as a basic [Authorization] header. *)
Definition basic_auth (url : Url) : option (string * option string) :=
  if decide (url_username url = "" ∧ url_password url = None) then None
  else Some (url_username url, url_password url).

(** [execute] up to the response. *)
Definition http_request (args : json) : result string HttpRequest :=
  method ← ok_or "Missing 'method' argument" (json_get "method" args ≫= as_str);
  url_str ← ok_or "Missing 'url' argument" (json_get "url" args ≫= as_str);
  url ← validate_url url_str;
  _ ← validate_and_pin_host (url_host_string url) (default 80 (url_port url));
  body ← request_body method args;
  let headers := default [] (json_get "headers" args ≫= as_object) in
  addrs ← map_err (λ e, "HTTP request failed: " +:+ e) (dial url);
  Ok (mkHttpRequest method addrs (basic_auth url) (forwarded_headers headers) body).

Lemma resolver_safe host addrs :
  resolver_resolve host = Ok addrs → is_host_allowlisted host = false →
  addrs ≠ [] ∧ Forall (λ ip, is_blocked_ip ip = false) addrs.
Proof.
  unfold resolver_resolve, resolver_validate.
  destruct (resolver_lookup host) as [l|]; csimpl; [|done]. intros Hr Ha. rewrite Ha in Hr.
  case_decide as Hl; [done|]. destruct (try_for_each _ l) as [[]|] eqn:Ht; csimpl in Hr; [|done].
  injection Hr as <-. split; [done|]. apply Forall_forall. intros ip Hip.
  apply (proj1 (try_for_each_ok _ _) Ht) in Hip. by destruct (is_blocked_ip ip).
Qed.

(** C19. Whatever the two lookups answer, and however they differ, a request that
    is made dials only addresses outside the blocked ranges, unless its host
    is on the allowlist; its scheme is allowed, of the headers of the caller it
    carries neither [Authorization] nor [Host], and it carries no
    authorization at all when its URL holds no credentials. *)
Theorem requests_reach_public_hosts args url_str url r :
  json_get "url" args = Some (JString url_str) → parse_url url_str = Ok url →
  http_request args = Ok r →
  existsb (λ s, eq_ignore_ascii_case s (to_ascii_lowercase (url_scheme url))) (allowed_schemes self) = true ∧
  (∀ k v, (k, v) ∈ hr_headers r → to_ascii_lowercase k ∉ ["authorization"; "host"]) ∧
  (url_username url = "" → url_password url = None → hr_authorization r = None) ∧
  (is_host_allowlisted (url_host_string url) = false →
   hr_dials r ≠ [] ∧ ∀ ip, ip ∈ hr_dials r → ip_wf ip → ¬ internal_address ip).
Proof.
  intros Hu Hp Hr. unfold http_request in Hr. rewrite Hu in Hr.
  destruct (json_get "method" args ≫= as_str) as [m|]; csimpl in Hr; [|done].
  destruct (validate_url url_str) as [url'|] eqn:Hv; csimpl in Hr; [|done].
  unfold validate_url in Hv. rewrite Hp in Hv. csimpl in Hv.
  destruct (existsb _ (allowed_schemes self)) eqn:Hsch; csimpl in Hv; [|done].
  destruct (url_host url) as [host|] eqn:Hh; csimpl in Hv; [|done].
  assert (url' = url ∧ ∀ ip, host = Ip ip → is_host_allowlisted (ip_to_string ip) = false →
    is_blocked_ip ip = false) as [-> Hlit].
  { destruct host as [d|ip]; csimpl in Hv; [by simplify_eq|].
    destruct (is_host_allowlisted (ip_to_string ip)) eqn:Ha; csimpl in Hv.
    - simplify_eq. split; [done|]. intros ? [= <-]. congruence.
    - destruct (is_blocked_ip ip) eqn:Hb; [done|]. simplify_eq. split; [done|]. by intros ? [= <-]. }
  destruct (validate_and_pin_host _ _) as [pin|]; csimpl in Hr; [|done].
  destruct (request_body m args) as [body|]; csimpl in Hr; [|done].
  destruct (dial url) as [addrs|] eqn:Hd; csimpl in Hr; [|done]. injection Hr as <-.
  split_and!; [done| | |].
  - csimpl. unfold forwarded_headers. intros k v ([k' j] & Hin & Heq)%list_elem_of_omap. csimpl in Heq.
    destruct (as_str j); csimpl in Heq; [|done]. case_decide; by simplify_eq.
  - intros Hn Hw. csimpl. unfold basic_auth. by rewrite decide_True.
  - intros Ha. csimpl. unfold dial in Hd. unfold url_host_string in Ha. rewrite Hh in Hd, Ha.
    assert (addrs ≠ [] ∧ Forall (λ ip, is_blocked_ip ip = false) addrs) as [Hne Hall].
    { destruct host as [d|ip]; [by apply (resolver_safe d)|]. injection Hd as <-.
      split; [done|]. constructor; [by apply Hlit|constructor]. }
    split; [done|]. intros ip Hip Hwf. rewrite <- is_blocked_ip_spec by done.
    apply (proj1 (Forall_forall _ _) Hall) in Hip. by rewrite Hip.
Qed.
End http.

(** ** The body of the response *)
Definition MAX_BODY_BYTES : nat := Z.to_nat 1048576.

(** [read_body_limited] before the conversion to text. *)
Fixpoint read_body_limited (body : list Byte.byte) (chunks : list (result string (list Byte.byte)))
    : result string (list Byte.byte * bool) :=
  match chunks with
  | [] => Ok (body, false)
  | Err e :: _ => Err ("HTTP body read error: " +:+ e)
  | Ok chunk :: chunks =>
      if (MAX_BODY_BYTES <? length body + length chunk)%nat
      then Ok (body ++ take (MAX_BODY_BYTES - length body) chunk, true)
      else read_body_limited (body ++ chunk) chunks
  end.

(** The body keeps exactly the first [MAX_BODY_BYTES] bytes and says exactly
    whether there were more. *)
Lemma read_body_exact chunks body :
  (length body ≤ MAX_BODY_BYTES)%nat →
  read_body_limited body (Ok <$> chunks) =
  Ok (take MAX_BODY_BYTES (body ++ mjoin chunks),
      (MAX_BODY_BYTES <? length (body ++ mjoin chunks))%nat).
Proof.
  revert body. induction chunks as [|c chunks IH]; intros body Hb; cbn [fmap list_fmap read_body_limited].
  { change (mjoin []) with (@nil Byte.byte). rewrite app_nil_r, take_ge by done.
    by rewrite (proj2 (Nat.ltb_ge _ _) Hb). }
  change (mjoin (c :: chunks)) with (c ++ mjoin chunks).
  destruct (MAX_BODY_BYTES <? length body + length c)%nat eqn:Hm.
  - apply Nat.ltb_lt in Hm. rewrite (proj2 (Nat.ltb_lt _ _)) by (rewrite !length_app; lia).
    rewrite take_app_ge, take_app_le by lia. done.
  - apply Nat.ltb_ge in Hm. rewrite IH by (rewrite length_app; lia). by rewrite app_assoc.
Qed.

(** ** Examples *)
Definition sample_url (_ : string) : result string Url := Ok (mkUrl "HTTPS" (Some (Domain "example.org")) None "" None).
Definition sample_args : json :=
  JObject [("headers", JObject [("Authorization", JString "Bearer x"); ("X-Trace", JString "1")]);
           ("method", JString "GET"); ("url", JString "https://example.org/")].

(** The name is public when it is checked; the resolver decides. *)
Lemma requests_reach_public_hosts_witness :
  ∃ r, http_request sample_url (λ _, None) (λ _ _, Ok [V4 93 184 216 34]) (λ _, Ok [V4 93 184 216 34])
         http_tool_new sample_args = Ok r ∧ hr_headers r = [("X-Trace", "1")] ∧
    hr_authorization r = None ∧ hr_dials r ≠ [] ∧ ∀ ip, ip ∈ hr_dials r → ip_wf ip → ¬ internal_address ip.
Proof.
  eexists. split; [vm_compute; reflexivity|]. split; [reflexivity|]. split; [reflexivity|].
  apply (requests_reach_public_hosts sample_url (λ _, None) (λ _ _, Ok [V4 93 184 216 34])
    (λ _, Ok [V4 93 184 216 34]) http_tool_new sample_args "https://example.org/"
    (mkUrl "HTTPS" (Some (Domain "example.org")) None "" None)).
  - reflexivity.
  - reflexivity.
  - vm_compute. reflexivity.
  - vm_compute. reflexivity.
Defined.

(** A name that answers a public address to the check and a private one to
    the resolver is refused when it is dialled. *)
Example rebinding_is_refused :
  ∃ e, http_request sample_url (λ _, None) (λ _ _, Ok [V4 93 184 216 34]) (λ _, Ok [V4 10 0 0 1])
         http_tool_new sample_args = Err e.
Proof. eexists. vm_compute. reflexivity. Qed.

(** The tool is said to establish its own trust context, so that a caller may
    not spoof an identity by an [Authorization] header; the credentials of a
    URL are such a header. *)
Theorem url_credentials_authorize :
  ∃ r, http_request (λ _, Ok (mkUrl "https" (Some (Domain "example.org")) None "admin" (Some "pw"))) (λ _, None)
         (λ _ _, Ok [V4 93 184 216 34]) (λ _, Ok [V4 93 184 216 34]) http_tool_new
         (JObject [("method", JString "GET"); ("url", JString "https://admin:pw@example.org/")]) = Ok r ∧
    hr_authorization r = Some ("admin", Some "pw").
Proof. eexists. split; [vm_compute; reflexivity|reflexivity]. Qed.
