(* ===== verification/Utf8.v ===== *)
(** * Decoding UTF-8 ([core::str::from_utf8], [String::from_utf8_lossy])

    The standard library's validation of bytes, one character at a time, with
    the two decoders the transports use: the strict one with its error, and
    the one that puts U+FFFD for what is not UTF-8. *)
From S2P Require Import Prelude.
From Stdlib Require Import Ascii.
Open Scope stdpp_scope.
Open Scope nat_scope.

Definition within (lo hi : N) (b : ascii) : bool := ((lo <=? N_of_ascii b) && (N_of_ascii b <=? hi))%N.

(** [UTF8_CHAR_WIDTH] *)
Definition char_width (b : ascii) : nat :=
  if within 0 127 b then 1 else if within 194 223 b then 2 else
  if within 224 239 b then 3 else if within 240 244 b then 4 else 0.

(** Which bytes may follow the first: no overlong forms, no surrogates,
    nothing above U+10FFFF. *)
Definition second_byte_ok (first b : ascii) : bool :=
  match N_of_ascii first with
  | 224 => within 160 191 b
  | 237 => within 128 159 b
  | 240 => within 144 191 b
  | 244 => within 128 143 b
  | _ => within 128 191 b
  end%N.

(** What the bytes begin with: a character of so many bytes, so many bytes
    that no character begins with, or part of a character. *)
Inductive Utf8Unit := Char (width : nat) | Invalid (error_len : nat) | Incomplete.

Fixpoint continuation (seen more : nat) (l : list ascii) : Utf8Unit :=
  match more with
  | O => Char seen
  | S more =>
      match l with
      | [] => Incomplete
      | b :: l => if within 128 191 b then continuation (S seen) more l else Invalid seen
      end
  end.
Definition utf8_step (l : list ascii) : Utf8Unit :=
  match l with
  | [] => Incomplete
  | first :: l =>
      match char_width first with
      | O => Invalid 1
      | 1 => Char 1
      | S (S more) =>
          match l with
          | [] => Incomplete
          | b :: l => if second_byte_ok first b then continuation 2 more l else Invalid 1
          end
      end
  end.

Record Utf8Error := mkUtf8Error { valid_up_to : nat; error_len : option nat }.

Fixpoint validate_from (fuel valid : nat) (l : list ascii) : option Utf8Error :=
  match fuel, l with
  | S fuel, _ :: _ =>
      match utf8_step l with
      | Char n => validate_from fuel (valid + n) (drop n l)
      | Invalid n => Some (mkUtf8Error valid (Some n))
      | Incomplete => Some (mkUtf8Error valid None)
      end
  | _, _ => None
  end.
Definition from_utf8 (l : list ascii) : result Utf8Error (list ascii) :=
  match validate_from (length l) 0 l with Some e => Err e | None => Ok l end.

Definition REPLACEMENT_CHARACTER : list ascii := ascii_of_nat <$> [239; 191; 189].

Fixpoint lossy_from (fuel : nat) (l : list ascii) : list ascii :=
  match fuel, l with
  | S fuel, _ :: _ =>
      match utf8_step l with
      | Char n => take n l ++ lossy_from fuel (drop n l)
      | Invalid n => REPLACEMENT_CHARACTER ++ lossy_from fuel (drop n l)
      | Incomplete => REPLACEMENT_CHARACTER
      end
  | _, _ => []
  end.
Definition from_utf8_lossy (l : list ascii) : list ascii := lossy_from (length l) l.

Example lossy_examples :
  (λ l, nat_of_ascii <$> from_utf8_lossy (ascii_of_nat <$> l)) <$>
    [[65; 195; 169]; [255; 65]; [226; 130]; [226; 130; 65]; [237; 160; 128]; [240; 159; 152; 128]]
  = [[65; 195; 169]; [239; 191; 189; 65]; [239; 191; 189]; [239; 191; 189; 65];
     [239; 191; 189; 239; 191; 189; 239; 191; 189]; [240; 159; 152; 128]].
Proof. vm_compute. reflexivity. Qed.

(** ** Laws *)
Lemma continuation_bounds seen more l :
  match continuation seen more l with
  | Char n => n = seen + more ∧ more ≤ length l
  | Invalid n => seen ≤ n < seen + more ∧ n < seen + length l
  | Incomplete => length l < more
  end.
Proof.
  revert seen l. induction more as [|more IH]; intros seen l; csimpl; [lia|].
  destruct l as [|b l]; csimpl; [lia|]. destruct (within 128 191 b); [|lia].
  specialize (IH (S seen) l). destruct (continuation (S seen) more l); lia.
Qed.
Lemma char_width_le b : char_width b ≤ 4.
Proof. unfold char_width. repeat case_match; lia. Qed.
Lemma utf8_step_bounds l :
  l ≠ [] →
  match utf8_step l with
  | Char n => 0 < n ≤ 4 ∧ n ≤ length l
  | Invalid n => 0 < n ≤ 3 ∧ n ≤ length l
  | Incomplete => length l ≤ 3
  end.
Proof.
  intros Hl. destruct l as [|f l]; [done|]. csimpl. pose proof (char_width_le f) as Hw.
  destruct (char_width f) as [|[|more]]; [lia..|].
  destruct l as [|b l]; csimpl; [lia|]. destruct (second_byte_ok f b); [|lia].
  pose proof (continuation_bounds 2 more l). destruct (continuation 2 more l); lia.
Qed.

(** A unit is decided by its own bytes: what follows does not change it. *)
Lemma continuation_app seen more l m :
  continuation seen more l ≠ Incomplete → continuation seen more (l ++ m) = continuation seen more l.
Proof.
  revert seen l. induction more as [|more IH]; intros seen l; csimpl; [done|].
  destruct l as [|b l]; csimpl; [done|]. destruct (within 128 191 b); [|done]. apply IH.
Qed.
Lemma utf8_step_app l m : utf8_step l ≠ Incomplete → utf8_step (l ++ m) = utf8_step l.
Proof.
  destruct l as [|f l]; csimpl; [done|]. destruct (char_width f) as [|[|more]]; [done..|].
  destruct l as [|b l]; csimpl; [done|]. destruct (second_byte_ok f b); [|done]. apply continuation_app.
Qed.

Lemma lossy_from_fuel fuel l : length l ≤ fuel → lossy_from fuel l = from_utf8_lossy l.
Proof.
  unfold from_utf8_lossy. remember (length l) as k eqn:Hk. revert fuel l Hk.
  induction k as [k IH] using lt_wf_ind. intros fuel l -> Hf.
  destruct l as [|b l]; [by destruct fuel|]. destruct fuel as [|fuel]; [csimpl in *; lia|].
  pose proof (utf8_step_bounds (b :: l) ltac:(done)) as Hb. cbn [lossy_from length] in *.
  destruct (utf8_step (b :: l)) as [n|n|]; [..|done]; f_equal.
  all: assert (length (drop n (b :: l)) ≤ length l) by (rewrite length_drop; csimpl; lia).
  all: rewrite (IH (length (drop n (b :: l)))) by (done || csimpl; lia).
  all: symmetry; apply (IH (length (drop n (b :: l)))); csimpl; try done; lia.
Qed.
Lemma lossy_step l :
  l ≠ [] →
  from_utf8_lossy l =
    match utf8_step l with
    | Char n => take n l ++ from_utf8_lossy (drop n l)
    | Invalid n => REPLACEMENT_CHARACTER ++ from_utf8_lossy (drop n l)
    | Incomplete => REPLACEMENT_CHARACTER
    end.
Proof.
  intros Hl. pose proof (utf8_step_bounds l Hl) as Hb. destruct l as [|b l]; [done|].
  unfold from_utf8_lossy at 1. cbn [lossy_from length].
  destruct (utf8_step (b :: l)) as [n|n|]; [..|done]; f_equal;
    apply lossy_from_fuel; rewrite length_drop; csimpl; lia.
Qed.

(** A unit is decided by its own bytes alone. *)
Lemma continuation_local seen more l n :
  continuation seen more l = Char n → continuation seen more (take (n - seen) l) = Char n.
Proof.
  revert seen l. induction more as [|more IH]; intros seen l; csimpl; [done|].
  destruct l as [|b l]; csimpl; [done|]. destruct (within 128 191 b) eqn:Hb; [|done]. intros Hc.
  pose proof (continuation_bounds (S seen) more l) as Hn. rewrite Hc in Hn.
  replace (n - seen) with (S (n - S seen)) by lia. csimpl. rewrite Hb. by apply IH.
Qed.
Lemma utf8_step_local l n : utf8_step l = Char n → utf8_step (take n l) = Char n.
Proof.
  destruct l as [|f l]; csimpl; [done|]. destruct (char_width f) as [|[|more]] eqn:Hw; [done|..].
  - intros [= <-]. csimpl. by rewrite Hw.
  - destruct l as [|b l]; csimpl; [done|]. destruct (second_byte_ok f b) eqn:Hb; [|done]. intros Hc.
    pose proof (continuation_bounds 2 more l) as Hn. rewrite Hc in Hn.
    apply continuation_local in Hc. destruct n as [|[|n]]; [lia..|]. csimpl. rewrite Hw, Hb.
    by replace (S (S n) - 2) with n in Hc by lia.
Qed.
Lemma continuation_cut seen more l n :
  continuation seen more l = Invalid n → continuation seen more (take (n - seen) l) = Incomplete.
Proof.
  revert seen l. induction more as [|more IH]; intros seen l; csimpl; [done|].
  destruct l as [|b l]; csimpl; [done|]. destruct (within 128 191 b) eqn:Hb.
  - intros Hc. pose proof (continuation_bounds (S seen) more l) as Hn. rewrite Hc in Hn.
    replace (n - seen) with (S (n - S seen)) by lia. csimpl. rewrite Hb. by apply IH.
  - intros [= <-]. by rewrite Nat.sub_diag.
Qed.
Lemma lossy_invalid l n : utf8_step l = Invalid n → from_utf8_lossy (take n l) = REPLACEMENT_CHARACTER.
Proof.
  intros Hs. pose proof (utf8_step_bounds l ltac:(by intros ->)) as Hb. rewrite Hs in Hb.
  assert (utf8_step (take n l) = Incomplete ∨ n = 1 ∧ utf8_step (take n l) = Invalid 1) as Hcut.
  { revert Hs. destruct l as [|f l]; csimpl; [done|]. destruct (char_width f) as [|[|more]] eqn:Hw; [|done|].
    - intros [= <-]. right. csimpl. by rewrite Hw.
    - left. revert Hs. destruct l as [|b l]; csimpl; [done|]. destruct (second_byte_ok f b) eqn:Hsb.
      + intros Hc. pose proof (continuation_bounds 2 more l) as Hn. rewrite Hc in Hn.
        apply continuation_cut in Hc. destruct n as [|[|n]]; [lia..|]. csimpl. rewrite Hw, Hsb.
        by replace (S (S n) - 2) with n in Hc by lia.
      + intros [= <-]. csimpl. by rewrite Hw. }
  rewrite lossy_step by (intros H0%(f_equal length); rewrite length_take_le in H0 by lia; csimpl in H0; lia).
  destruct Hcut as [->|[-> ->]]; [done|]. by rewrite drop_ge by (rewrite length_take; lia).
Qed.

(** ** Valid text *)
Inductive utf8_text : list ascii → Prop :=
| text_nil : utf8_text []
| text_char c l : utf8_step c = Char (length c) → utf8_text l → utf8_text (c ++ l).

Lemma lossy_text_app l m : utf8_text l → from_utf8_lossy (l ++ m) = l ++ from_utf8_lossy m.
Proof.
  induction 1 as [|c l Hs _ IH]; [done|].
  assert (c ≠ []) as Hc by (by intros ->). rewrite <- (assoc_L (++)).
  rewrite lossy_step, utf8_step_app, Hs, take_app_length, drop_app_length, IH by (by rewrite ?Hs || by destruct c).
  by rewrite (assoc_L (++)).
Qed.
Lemma lossy_text l : utf8_text l → from_utf8_lossy l = l.
Proof. intros Hl. pose proof (lossy_text_app l [] Hl) as H. change (from_utf8_lossy []) with (@nil ascii) in H. by rewrite !(right_id_L [] (++)) in H. Qed.

(** What the lossy decoder gives is text. *)
Lemma utf8_text_app l m : utf8_text l → utf8_text m → utf8_text (l ++ m).
Proof. induction 1 as [|c l Hs _ IH]; [done|]. intros Hm. rewrite <- (assoc_L (++)). constructor; auto. Qed.
Lemma replacement_text : utf8_text REPLACEMENT_CHARACTER.
Proof.
  rewrite <- (right_id_L [] (++) REPLACEMENT_CHARACTER). by repeat constructor.
Qed.
Lemma lossy_utf8_text l : utf8_text (from_utf8_lossy l).
Proof.
  remember (length l) as k eqn:Hk. revert l Hk. induction k as [k IH] using lt_wf_ind. intros l ->.
  destruct l as [|b l]; [constructor|]. pose proof (utf8_step_bounds (b :: l) ltac:(done)) as Hb.
  rewrite lossy_step by done. destruct (utf8_step (b :: l)) as [n|n|] eqn:Hs; [..|apply replacement_text].
  all: apply utf8_text_app || (apply utf8_text_app; [apply replacement_text|]).
  - apply utf8_step_local in Hs. rewrite <- (right_id_L [] (++) (take n (b :: l))). constructor; [|constructor].
    rewrite Hs, length_take. f_equal. lia.
  - eapply IH; [|done]. rewrite length_drop. csimpl in *. lia.
  - apply replacement_text.
  - eapply IH; [|done]. rewrite length_drop. csimpl in *. lia.
Qed.

(** The strict decoder accepts text; otherwise its error splits the bytes into
    text and what no text begins with. *)
Lemma validate_from_spec fuel valid l :
  length l ≤ fuel →
  match validate_from fuel valid l with
  | None => utf8_text l
  | Some e => ∃ p q, l = p ++ q ∧ q ≠ [] ∧ valid_up_to e = valid + length p ∧ utf8_text p ∧
      utf8_step q = match error_len e with Some k => Invalid k | None => Incomplete end
  end.
Proof.
  revert valid l. induction fuel as [|fuel IH]; intros valid l Hf.
  { destruct l; csimpl in *; [constructor|lia]. }
  destruct l as [|b l]; [constructor|].
  pose proof (utf8_step_bounds (b :: l) ltac:(done)) as Hb. cbn [validate_from].
  destruct (utf8_step (b :: l)) as [n|n|] eqn:Hs.
  2,3: exists [], (b :: l); csimpl; rewrite Nat.add_0_r; repeat split; done || constructor.
  specialize (IH (valid + n) (drop n (b :: l)) ltac:(rewrite length_drop; csimpl in *; lia)).
  assert (utf8_step (take n (b :: l)) = Char (length (take n (b :: l)))) as Hn.
  { rewrite length_take_le by lia. by apply utf8_step_local. }
  destruct (validate_from fuel (valid + n) (drop n (b :: l))) as [e|].
  - destruct IH as (p & q & Hl & Hq & Hv & Hp & He). exists (take n (b :: l) ++ p), q. split_and!; [|done| |by constructor|done].
    + rewrite <- (assoc_L (++)), <- Hl. by rewrite take_drop.
    + rewrite Hv, length_app, length_take_le; lia.
  - rewrite <- (take_drop n (b :: l)). by constructor.
Qed.
Lemma from_utf8_spec l :
  match from_utf8 l with
  | Ok t => t = l ∧ utf8_text l
  | Err e => ∃ p q, l = p ++ q ∧ q ≠ [] ∧ valid_up_to e = length p ∧ utf8_text p ∧
      utf8_step q = match error_len e with Some k => Invalid k | None => Incomplete end
  end.
Proof.
  unfold from_utf8. pose proof (validate_from_spec (length l) 0 l ltac:(done)).
  by destruct (validate_from (length l) 0 l).
Qed.
