(* ===== verification/Transport.v ===== *)
(** * Transports ([src/transport])

    How requests reach providers: the address checks and the dial-time
    resolver of the hardened HTTP client, one attempt and its answer, the
    retries with exponential backoff and jitter, capped error bodies, and the
    decoding of streamed bytes. URL parsing, name lookups, the exchange with
    the server, the JSON parser and the random numbers are parameters, and may
    answer each attempt differently. A request is retried exactly while it may
    be ([send_exact]), and a stream carries the text of the body however it is
    cut into chunks ([stream_text_exact]). *)
From S2P Require Import Prelude Text Money Json ExecTypes ShellTool HttpTool Utf8.
From Stdlib Require Import Ascii.
Open Scope stdpp_scope.
Open Scope Z_scope.

(** ** Messages ([mod.rs]). A text that was decoded is its bytes. *)
Record TransportRequest := mkTransportRequest {
  treq_url : string;
  treq_method : string;
  treq_headers : gmap string string;
  treq_body : json;
}.
Record TransportResponse := mkTransportResponse { tresp_status : Z; tresp_body : json }.
Record TransportEvent := mkTransportEvent { te_data : list ascii }.
Inductive TransportError :=
| TNetwork (message : string)
| TTimeout (message : string)
| THttp (status : Z) (body : list ascii)
| TSerialization (message : string).

(** ** Backoff ([backoff.rs]) *)
Record Backoff := mkBackoff { bo_base_ms : Z; bo_max_ms : Z; bo_attempt : Z }.
Definition backoff_new (base_ms max_ms : Z) : Backoff := mkBackoff base_ms max_ms 0.
Definition backoff_reset (b : Backoff) : Backoff := mkBackoff (bo_base_ms b) (bo_max_ms b) 0.
Definition backoff_next (random : Z) (b : Backoff) : Z * Backoff :=
  let clamped := Z.min (bo_attempt b) 30 in
  let exp := (bo_base_ms b *^ Z.shiftl 1 clamped)%u64 in
  let cap := Z.min exp (bo_max_ms b) in
  (if 0 <? cap then random mod cap else 0, mkBackoff (bo_base_ms b) (bo_max_ms b) (bo_attempt b + 1)).

(** ** The HTTP transport ([http.rs]) *)
Record HttpTransport := mkHttpTransport { backoff_base_ms : Z; backoff_max_ms : Z; max_retries : nat }.
Definition http_transport_new : HttpTransport := mkHttpTransport 1000 60000 5.

Definition MAX_ERROR_BODY_BYTES : nat := 1024 * 1024.
Definition ERROR_BODY_TRUNCATION_SUFFIX : list ascii :=
  ascii_of_nat 10 :: String.list_ascii_of_string "...[truncated]".

(** The chunks of a body as they arrive. *)
Definition Chunks := list (result string (list ascii)).

(** What the client makes of a request it sends: an error, a timeout among
    them, or a response. *)
Inductive Exchange :=
| SendFailed (timed_out : bool) (message : string)
| Responded (status : Z) (body : Chunks).

Definition finalize_error_body (buf : list ascii) (truncated : bool) : list ascii :=
  let text := from_utf8_lossy buf in
  if truncated then text ++ ERROR_BODY_TRUNCATION_SUFFIX else text.

Fixpoint read_chunks (cap : nat) (buf : list ascii) (chunks : Chunks) : list ascii * bool :=
  match chunks with
  | [] => (buf, false)
  | Err _ :: _ => (buf, false)
  | Ok chunk :: chunks =>
      let remaining := (cap - length buf)%nat in
      if (remaining <? length chunk)%nat then (buf ++ take remaining chunk, true)
      else read_chunks cap (buf ++ chunk) chunks
  end.
Definition read_body_capped (chunks : Chunks) : list ascii :=
  let '(buf, truncated) := read_chunks MAX_ERROR_BODY_BYTES [] chunks in finalize_error_body buf truncated.

Definition is_retryable (r : result TransportError TransportResponse) : bool :=
  match r with
  | Ok response => tresp_status response =? 429
  | Err (THttp status _) => (status =? 429) || (500 <=? status)
  | Err (TTimeout _) => false
  | Err (TNetwork _) | Err (TSerialization _) => true
  end.

Definition drain_utf8 (carry : list ascii) : list ascii * list ascii :=
  if decide (carry = []) then ([], carry) else
  match from_utf8 carry with
  | Ok s => (s, [])
  | Err e =>
      match error_len e with
      | Some err_len =>
          let valid := valid_up_to e in
          (from_utf8_lossy (take (valid + err_len) carry), drop (valid + err_len) carry)
      | None =>
          let valid := valid_up_to e in
          if (0 <? valid)%nat then (from_utf8_lossy (take valid carry), drop valid carry) else ([], carry)
      end
  end.

(** The stream: every chunk through [drain_utf8] over the shared buffer, then
    what is left in it. *)
Fixpoint stream_chunks (pending : list ascii) (chunks : Chunks) : list (result TransportError TransportEvent) :=
  match chunks with
  | [] => if decide (pending = []) then [] else [Ok (mkTransportEvent (from_utf8_lossy pending))]
  | Ok bytes :: chunks =>
      let '(text, pending) := drain_utf8 (pending ++ bytes) in
      Ok (mkTransportEvent text) :: stream_chunks pending chunks
  | Err e :: chunks => Err (TNetwork e) :: stream_chunks pending chunks
  end.

(** What a call does to the outside, in order. *)
Inductive TransportStep := Dialed (addrs : list IpAddr) | Slept (ms : Z).
Definition dials (t : list TransportStep) : list (list IpAddr) :=
  omap (λ s, match s with Dialed a => Some a | Slept _ => None end) t.
Definition sleeps (t : list TransportStep) : list Z :=
  omap (λ s, match s with Slept ms => Some ms | Dialed _ => None end) t.

Section transport.
(** [reqwest::Url::parse]; the lookup, the exchange and the random number of
    the given attempt; [serde_json::from_slice]. *)
Context (parse_url : string → result string Url).
Context (lookup : nat → string → result string (list IpAddr)).
Context (exchange : nat → list IpAddr → TransportRequest → Exchange).
Context (from_slice : list ascii → result string json).
Context (random : nat → Z).
Context (self : HttpTransport).

Definition validate_url_host (url : string) : result TransportError Url :=
  parsed ← map_err (λ e, TNetwork ("invalid URL '" +:+ url +:+ "': " +:+ e)) (parse_url url);
  match url_host parsed with
  | Some (Ip ip) =>
      if is_blocked_ip ip then
        Err (TNetwork ("URL host '" +:+ ip_to_string ip
               +:+ "' is a blocked (loopback/private/link-local) address"))
      else Ok parsed
  | _ => Ok parsed
  end.

(** [ValidatingDnsResolver] *)
Definition dns_resolve (attempt : nat) (host : string) : result string (list IpAddr) :=
  addrs ← map_err (λ e, "DNS resolution failed for '" +:+ host +:+ "': DNS resolution failed for '" +:+ host +:+ "': " +:+ e)
    (lookup attempt host);
  _ ← try_for_each (λ ip, if is_blocked_ip ip
        then Err ("URL host '" +:+ host +:+ "' resolves to blocked address " +:+ ip_to_string ip)
        else Ok tt) addrs;
  Ok addrs.

(** The addresses the client dials: a literal as it is, a name through the
    resolver. Redirects are off, so there are no others. *)
Definition client_dial (attempt : nat) (url : Url) : result string (list IpAddr) :=
  match url_host url with
  | Some (Ip ip) => Ok [ip]
  | Some (Domain d) => dns_resolve attempt d
  | None => Err "URL has no host"
  end.

(** The request as [send] and [stream] make it, up to the response. *)
Definition request (attempt : nat) (req : TransportRequest) : result TransportError (Z * Chunks) * list TransportStep :=
  match validate_url_host (treq_url req) with
  | Err e => (Err e, [])
  | Ok url =>
      match client_dial attempt url with
      | Err e => (Err (TNetwork e), [])
      | Ok addrs =>
          (match exchange attempt addrs req with
           | SendFailed _ message => Err (TNetwork message)
           | Responded status body =>
               if 400 <=? status then Err (THttp status (read_body_capped body)) else Ok (status, body)
           end, [Dialed addrs])
      end
  end.

(** [Response::json]: the whole body, parsed. *)
Definition body_bytes (chunks : Chunks) : result string (list ascii) :=
  try_fold (λ acc c, chunk ← c; Ok (acc ++ chunk)) [] chunks.
Definition json_body (chunks : Chunks) : result string json := body_bytes chunks ≫= from_slice.

Definition send_once (attempt : nat) (req : TransportRequest) : result TransportError TransportResponse * list TransportStep :=
  let '(r, t) := request attempt req in
  (resp ← r; body ← map_err TSerialization (json_body resp.2); Ok (mkTransportResponse resp.1 body), t).

(** The loop over [0..=max_retries]. *)
Fixpoint attempts (todo : list nat) (b : Backoff) (req : TransportRequest)
    : result TransportError TransportResponse * list TransportStep :=
  match todo with
  | [] => (Err (TNetwork "max retries exceeded"), [])
  | attempt :: todo =>
      let '(r, t) := send_once attempt req in
      if negb (is_retryable r) || bool_decide (attempt = max_retries self) then (r, t)
      else
        let '(ms, b) := backoff_next (random attempt) b in
        let '(r, t') := attempts todo b req in
        (r, t ++ Slept ms :: t')
  end.
Definition send (req : TransportRequest) : result TransportError TransportResponse * list TransportStep :=
  attempts (seq 0 (S (max_retries self))) (backoff_new (backoff_base_ms self) (backoff_max_ms self)) req.

Definition stream (req : TransportRequest)
    : result TransportError (list (result TransportError TransportEvent)) * list TransportStep :=
  let '(r, t) := request 0 req in (resp ← r; Ok (stream_chunks [] resp.2), t).
End transport.


(** ** Error bodies *)

(** The bytes that arrive before the first error. *)
Fixpoint arrived (chunks : Chunks) : list ascii :=
  match chunks with Ok c :: chunks => c ++ arrived chunks | _ => [] end.

Lemma read_chunks_spec cap buf chunks :
  (length buf ≤ cap)%nat →
  read_chunks cap buf chunks =
    (take cap (buf ++ arrived chunks), bool_decide (cap < length (buf ++ arrived chunks))%nat).
Proof.
  revert buf. induction chunks as [|[c|e] chunks IH]; intros buf Hb; csimpl.
  - rewrite (right_id_L [] (++)), take_ge, bool_decide_eq_false_2 by lia. done.
  - case_match eqn:Hc; [apply Nat.ltb_lt in Hc|apply Nat.ltb_ge in Hc].
    + rewrite take_app_ge, take_app_le, bool_decide_eq_true_2 by (rewrite ?length_app; lia). done.
    + rewrite IH by (rewrite length_app; lia). by rewrite (assoc_L (++)).
  - rewrite (right_id_L [] (++)), take_ge, bool_decide_eq_false_2 by lia. done.
Qed.

(** An error body is the text of at most the first mebibyte that arrived,
    marked when there was more. *)
Lemma read_body_capped_exact chunks :
  read_body_capped chunks =
    from_utf8_lossy (take MAX_ERROR_BODY_BYTES (arrived chunks)) ++
    (if bool_decide (MAX_ERROR_BODY_BYTES < length (arrived chunks))%nat then ERROR_BODY_TRUNCATION_SUFFIX else []).
Proof.
  unfold read_body_capped. rewrite read_chunks_spec by (csimpl; lia). unfold finalize_error_body. csimpl.
  case_bool_decide; [done|]. by rewrite (right_id_L [] (++)).
Qed.

(** ** Streams *)

(** Draining gives text, and what it gives followed by the decoding of what it
    keeps is the decoding of all, whatever comes next. *)
Lemma drain_utf8_spec carry text kept m :
  drain_utf8 carry = (text, kept) →
  utf8_text text ∧ from_utf8_lossy (carry ++ m) = text ++ from_utf8_lossy (kept ++ m).
Proof.
  unfold drain_utf8. destruct (decide (carry = [])) as [->|Hne]; [intros [= <- <-]; split; [constructor|done]|].
  pose proof (from_utf8_spec carry) as Hs. destruct (from_utf8 carry) as [t|e].
  { destruct Hs as [-> Ht]. intros [= <- <-]. split; [done|]. by apply lossy_text_app. }
  destruct Hs as (p & q & -> & Hq & Hv & Hp & He). rewrite Hv.
  destruct (error_len e) as [k|]; csimpl.
  - rewrite take_app_add, drop_app_add. intros [= <- <-]. rewrite (lossy_text_app p), (lossy_invalid q) by done.
    pose proof (utf8_step_bounds q Hq) as Hk. rewrite He in Hk. split.
    + apply utf8_text_app; [done|apply replacement_text].
    + rewrite <- (assoc_L (++) p), lossy_text_app by done. rewrite (lossy_step (q ++ m)) by (by destruct q).
      rewrite utf8_step_app, He by (by rewrite He). rewrite drop_app_le by lia. by rewrite (assoc_L (++)).
  - case_match eqn:Hn.
    + rewrite take_app_length, drop_app_length. intros [= <- <-]. rewrite lossy_text by done. split; [done|].
      by rewrite <- (assoc_L (++)), lossy_text_app.
    + apply Nat.ltb_ge in Hn. intros [= <- <-]. split; [constructor|done].
Qed.

Definition event_text (r : result TransportError TransportEvent) : list ascii :=
  match r with Ok e => te_data e | Err _ => [] end.
Definition chunk_bytes (r : result string (list ascii)) : list ascii :=
  match r with Ok c => c | Err _ => [] end.
Definition errors {E A} (l : list (result E A)) : list E :=
  omap (λ r, match r with Err e => Some e | Ok _ => None end) l.

Lemma stream_chunks_text pending chunks :
  concat (event_text <$> stream_chunks pending chunks) = from_utf8_lossy (pending ++ concat (chunk_bytes <$> chunks)).
Proof.
  revert pending. induction chunks as [|[c|e] chunks IH]; intros pending; csimpl.
  - rewrite (right_id_L [] (++)). case_decide as Hp; [by subst|]. csimpl. by rewrite (right_id_L [] (++)).
  - destruct (drain_utf8 (pending ++ c)) as [text kept] eqn:Hd. csimpl. rewrite IH.
    destruct (drain_utf8_spec _ _ _ (concat (chunk_bytes <$> chunks)) Hd) as [_ Ht]. by rewrite (assoc_L (++)).
  - apply IH.
Qed.
Lemma stream_chunks_shape pending chunks :
  errors (stream_chunks pending chunks) = TNetwork <$> errors chunks ∧
  Forall (λ r, utf8_text (event_text r)) (stream_chunks pending chunks).
Proof.
  revert pending. induction chunks as [|[c|e] chunks IH]; intros pending; csimpl.
  - case_decide; csimpl; [by split; constructor|]. split; [done|]. constructor; [apply lossy_utf8_text|constructor].
  - destruct (drain_utf8 (pending ++ c)) as [text kept] eqn:Hd. destruct (IH kept) as [He Hf]. csimpl.
    split; [done|]. constructor; [|done]. by apply (drain_utf8_spec _ _ _ [] Hd).
  - destruct (IH pending) as [He Hf]. csimpl. split; [by f_equal|]. constructor; [constructor|done].
Qed.

Section laws.
Context (parse_url : string → result string Url).
Context (lookup : nat → string → result string (list IpAddr)).
Context (exchange : nat → list IpAddr → TransportRequest → Exchange).
Context (from_slice : list ascii → result string json).
Context (random : nat → Z).
Context (self : HttpTransport).

Definition public (addrs : list IpAddr) : Prop := Forall (λ ip, is_blocked_ip ip = false) addrs.

(** ** Addresses *)
Lemma dns_resolve_public k host addrs : dns_resolve lookup k host = Ok addrs → public addrs.
Proof.
  unfold dns_resolve. destruct (lookup k host) as [l|e]; csimpl; [|done].
  destruct (try_for_each _ l) as [[]|e] eqn:Ht; csimpl; [|done]. intros [= <-].
  apply Forall_forall. intros ip Hip. apply (proj1 (try_for_each_ok _ _) Ht) in Hip. by destruct (is_blocked_ip ip).
Qed.
Lemma request_dials k req r t :
  request parse_url lookup exchange k req = (r, t) →
  (t = [] ∧ ∃ e, r = Err e) ∨ ∃ addrs, t = [Dialed addrs] ∧ public addrs.
Proof.
  unfold request, validate_url_host. destruct (parse_url (treq_url req)) as [url|e]; csimpl; [|intros [= <- <-]; eauto].
  unfold client_dial. destruct (url_host url) as [[d|ip]|] eqn:Hh; csimpl; [|destruct (is_blocked_ip ip) eqn:Hb|].
  - rewrite Hh. destruct (dns_resolve lookup k d) as [addrs|e] eqn:Hd; csimpl; intros [= <- <-]; [|eauto].
    right. exists addrs. split; [done|]. by eapply dns_resolve_public.
  - intros [= <- <-]. eauto.
  - rewrite Hh. intros [= <- <-]. right. exists [ip]. split; [done|]. by repeat constructor.
  - rewrite Hh. intros [= <- <-]. eauto.
Qed.

Definition reaches_public (t : list TransportStep) : Prop :=
  ∀ addrs ip, addrs ∈ dials t → ip ∈ addrs → ip_wf ip → ¬ internal_address ip.

Lemma request_reaches_public k req r t :
  request parse_url lookup exchange k req = (r, t) → reaches_public t ∧ sleeps t = [].
Proof.
  intros [[-> _]|(addrs & -> & Hp)]%request_dials; (split; [|done]); intros a ip Ha Hip Hwf; csimpl in Ha.
  - by apply elem_of_nil in Ha.
  - apply list_elem_of_singleton in Ha as ->. rewrite <- is_blocked_ip_spec by done.
    unfold public in Hp. rewrite Forall_forall in Hp. by rewrite (Hp ip).
Qed.
Lemma send_once_steps k req r t :
  send_once parse_url lookup exchange from_slice k req = (r, t) → reaches_public t ∧ sleeps t = [].
Proof.
  unfold send_once. destruct (request parse_url lookup exchange k req) as [r' t'] eqn:Hr. intros [= _ <-].
  by eapply request_reaches_public.
Qed.

(** ** Retries *)
Local Notation once := (send_once parse_url lookup exchange from_slice).

Definition delay_cap (k : nat) : Z := Z.min (backoff_base_ms self * 2 ^ Z.of_nat (Nat.min k 30)) (backoff_max_ms self).
Definition delay_ok (k : nat) (ms : Z) : Prop := ms = 0 ∨ 0 ≤ ms < delay_cap k.

Lemma backoff_next_spec n x ms b :
  is_u64 (backoff_max_ms self) →
  backoff_next x (mkBackoff (backoff_base_ms self) (backoff_max_ms self) (Z.of_nat n)) = (ms, b) →
  delay_ok n ms ∧ b = mkBackoff (backoff_base_ms self) (backoff_max_ms self) (Z.of_nat (S n)).
Proof.
  intros Hmax. unfold backoff_next. csimpl. intros [= <- <-]. split; [|f_equal; lia].
  rewrite Z.shiftl_1_l. unfold delay_ok, delay_cap. replace (Z.of_nat (Nat.min n 30)) with (Z.min (Z.of_nat n) 30) by lia.
  set (p := backoff_base_ms self * _).
  assert (Z.min (Z.min p u64_max) (backoff_max_ms self) = Z.min p (backoff_max_ms self)) as E by (unfold is_u64 in *; lia).
  unfold u64_saturating_mul. fold p. rewrite E. case_match eqn:Hc; [|by left]. apply Z.ltb_lt in Hc.
  right. by apply Z.mod_pos_bound.
Qed.

(** What a run of the loop from attempt [k] on shows: [n] more attempts than
    one, with a delay before each. *)
Definition attempted (k n : nat) (req : TransportRequest) (r : result TransportError TransportResponse)
    (t : list TransportStep) : Prop :=
  r = (once (k + n) req).1 ∧
  dials t = seq k (S n) ≫= (λ i, dials (once i req).2) ∧
  length (sleeps t) = n ∧ (∀ i ms, sleeps t !! i = Some ms → delay_ok (k + i) ms) ∧
  reaches_public t.
(** All but the last with an answer that may be retried. *)
Definition retried (k n : nat) (req : TransportRequest) (r : result TransportError TransportResponse)
    (t : list TransportStep) : Prop :=
  r = (once (k + n) req).1 ∧
  (is_retryable r = true → k + n = max_retries self)%nat ∧
  (∀ i, (i < n)%nat → is_retryable (once (k + i) req).1 = true) ∧
  dials t = seq k (S n) ≫= (λ i, dials (once i req).2) ∧
  length (sleeps t) = n ∧ (∀ i ms, sleeps t !! i = Some ms → delay_ok (k + i) ms) ∧
  reaches_public t.

Lemma omap_app_dials t u : dials (t ++ u) = dials t ++ dials u.
Proof. apply omap_app. Qed.
Lemma omap_app_sleeps t u : sleeps (t ++ u) = sleeps t ++ sleeps u.
Proof. apply omap_app. Qed.

Lemma retried_stop k req r t :
  once k req = (r, t) → (is_retryable r = true → k = max_retries self) → retried k 0 req r t.
Proof.
  intros Ho Hr. destruct (send_once_steps _ _ _ _ Ho) as [Hp Hs]. unfold retried. rewrite !Nat.add_0_r, Ho, Hs. csimpl.
  rewrite Ho. csimpl. rewrite (right_id_L [] (++)). split_and!; try done. intros i Hi. lia.
Qed.
Lemma retried_again k n req r0 t0 ms r t :
  once k req = (r0, t0) → is_retryable r0 = true → delay_ok k ms →
  retried (S k) n req r t → retried k (S n) req r (t0 ++ Slept ms :: t).
Proof.
  intros Ho Hr0 Hms (Hr & Hlast & Hall & Hd & Hlen & Hsl & Hp).
  destruct (send_once_steps _ _ _ _ Ho) as [Hp0 Hs0]. unfold retried.
  replace (k + S n)%nat with (S k + n)%nat by lia.
  assert (sleeps (t0 ++ Slept ms :: t) = ms :: sleeps t) as Hs by (by rewrite omap_app_sleeps, Hs0).
  assert (dials (t0 ++ Slept ms :: t) = dials t0 ++ dials t) as Hd0 by (by rewrite omap_app_dials).
  split_and!; [done|done|..].
  - intros [|i] Hi; [by rewrite Nat.add_0_r, Ho|]. replace (k + S i)%nat with (S k + i)%nat by lia. apply Hall. lia.
  - rewrite Hd0, Hd. cbn [seq mbind list_bind]. by rewrite Ho.
  - rewrite Hs. csimpl. by rewrite Hlen.
  - rewrite Hs. intros [|i] m Hm; csimpl in Hm; [injection Hm as <-; by rewrite Nat.add_0_r|].
    replace (k + S i)%nat with (S k + i)%nat by lia. by apply Hsl.
  - intros addrs ip. rewrite Hd0, elem_of_app. intros [H|H]; [by apply Hp0|by apply Hp].
Qed.

Lemma seq_cons k n : seq k (S n) = k :: seq (S k) n.
Proof. done. Qed.
Lemma attempts_cons k ks b req :
  attempts parse_url lookup exchange from_slice random self (k :: ks) b req =
    let '(r, t) := once k req in
    if negb (is_retryable r) || bool_decide (k = max_retries self) then (r, t)
    else
      let '(ms, b) := backoff_next (random k) b in
      let '(r, t') := attempts parse_url lookup exchange from_slice random self ks b req in
      (r, t ++ Slept ms :: t').
Proof. done. Qed.

Lemma attempts_spec left k req :
  is_u64 (backoff_max_ms self) → (k + left = max_retries self)%nat →
  ∃ n r t, attempts parse_url lookup exchange from_slice random self (seq k (S left))
      (mkBackoff (backoff_base_ms self) (backoff_max_ms self) (Z.of_nat k)) req = (r, t) ∧
    (k + n ≤ max_retries self)%nat ∧ retried k n req r t.
Proof.
  intros Hmax. revert k. induction left as [|left IH]; intros k Hk;
    rewrite seq_cons, attempts_cons; destruct (once k req) as [r t] eqn:Ho.
  - rewrite (bool_decide_eq_true_2 (k = _)) by lia. rewrite orb_true_r.
    exists 0%nat, r, t. split_and!; [done|lia|]. apply retried_stop; [done|lia].
  - rewrite (bool_decide_eq_false_2 (k = _)) by lia. rewrite orb_false_r. destruct (is_retryable r) eqn:Hr; cbn [negb].
    + destruct (backoff_next (random k) _) as [ms b] eqn:Hb. apply backoff_next_spec in Hb as [Hms ->]; [|done].
      destruct (IH (S k)) as (n & r' & t' & Hrun & Hn & Hret); [lia|]. rewrite Hrun.
      exists (S n), r', (t ++ Slept ms :: t'). split_and!; [done|lia|]. by eapply retried_again.
    + exists 0%nat, r, t. split_and!; [done|lia|]. apply retried_stop; [done|]. by rewrite Hr.
Qed.

(** *** Transient failures, by what happens outside *)

(** The URL of a request names a host that is not refused for its address,
    at whatever attempt. *)
Definition well_addressed (req : TransportRequest) (url : Url) : Prop :=
  parse_url (treq_url req) = Ok url ∧
  match url_host url with
  | Some (Ip ip) => is_blocked_ip ip = false
  | Some (Domain d) => ∀ k addrs, lookup k d = Ok addrs → public addrs
  | None => False
  end.
(** No exchange times out, before the response or while its body is read. *)
Definition no_timeouts (req : TransportRequest) : Prop :=
  ∀ k addrs, match exchange k addrs req with
  | SendFailed timed_out _ => timed_out = false
  | Responded status body => status < 400 → ∀ e, Err e ∉ body
  end.
Definition addresses (k : nat) (url : Url) : result string (list IpAddr) :=
  match url_host url with Some (Ip ip) => Ok [ip] | Some (Domain d) => lookup k d | None => Err "no host" end.
(** The name is not resolved, the exchange fails without a timeout, the server
    answers 429 or an error of its own, or the body arrives and is not JSON. *)
Definition transient (k : nat) (req : TransportRequest) (url : Url) : Prop :=
  match addresses k url with
  | Err _ => True
  | Ok addrs =>
      match exchange k addrs req with
      | SendFailed timed_out _ => timed_out = false
      | Responded status body =>
          status = 429 ∨ 500 ≤ status ∨ status < 400 ∧ ∃ bytes, body_bytes body = Ok bytes ∧ ∀ v, from_slice bytes ≠ Ok v
      end
  end.

Lemma dns_resolve_ok k d addrs : lookup k d = Ok addrs → public addrs → dns_resolve lookup k d = Ok addrs.
Proof.
  unfold dns_resolve, public. intros -> Hp. csimpl. rewrite Forall_forall in Hp.
  rewrite (proj2 (try_for_each_ok _ _)); [done|]. intros ip Hip. by rewrite Hp.
Qed.
Lemma well_addressed_request k req url :
  well_addressed req url →
  validate_url_host parse_url (treq_url req) = Ok url ∧
  match addresses k url with
  | Ok addrs => client_dial lookup k url = Ok addrs
  | Err _ => ∃ e, client_dial lookup k url = Err e
  end.
Proof.
  unfold well_addressed, validate_url_host, addresses, client_dial. intros [-> Hh]. csimpl.
  destruct (url_host url) as [[d|ip]|]; [|by rewrite Hh|done]. split; [done|].
  destruct (lookup k d) as [addrs|e] eqn:Hl; [by apply dns_resolve_ok, (Hh k)|].
  unfold dns_resolve. rewrite Hl. by eexists.
Qed.
Lemma body_bytes_whole body : (∀ e, Err e ∉ body) → ∃ bytes, body_bytes body = Ok bytes.
Proof.
  unfold body_bytes. generalize (@nil ascii) as acc. induction body as [|[c|e] body IH]; intros acc Hn; csimpl; [by eexists|..].
  - apply IH. intros e He. apply (Hn e). by right.
  - destruct (Hn e). left.
Qed.
(** What may be retried is what is transient. *)
Lemma retryable_transient k req url :
  well_addressed req url → no_timeouts req → is_retryable (once k req).1 = true ↔ transient k req url.
Proof.
  clear random self. intros Hw Hnt. destruct (well_addressed_request k req url Hw) as [Hv Hd]. unfold send_once, request, transient. rewrite Hv.
  destruct (addresses k url) as [addrs|e]; [rewrite Hd|by destruct Hd as [e' ->]].
  specialize (Hnt k addrs). destruct (exchange k addrs req) as [o m|status body]; [done|]. destruct (400 <=? status) eqn:Hs; csimpl.
  - apply Z.leb_le in Hs. rewrite orb_true_iff, Z.eqb_eq, Z.leb_le. split; [tauto|]. intros [?|[?|[? _]]]; [auto..|lia].
  - apply Z.leb_gt in Hs. destruct (body_bytes_whole body) as [bytes Hb]; [by apply Hnt|]. unfold json_body. rewrite Hb. csimpl.
    destruct (from_slice bytes) as [v|e] eqn:Hj; csimpl.
    + split; [rewrite Z.eqb_eq; lia|]. intros [?|[?|(_ & b & [= <-] & Hn)]]; [lia..|by destruct (Hn v)].
    + split; [|done]. intros _. right; right. split; [done|]. exists bytes. split; [done|]. by rewrite Hj.
Qed.

(** C23. A request is sent once or more times; the answer is that of the last
    attempt, and never the one after the loop. Before the [k]-th retry it
    sleeps less than the base delay doubled [k] times (at most thirty) and the
    maximal delay; and no attempt dials an internal address, whatever name
    lookups answer each time. When no attempt times out and the host is not
    refused for its address, an attempt is followed by another exactly when
    its failure is transient and retries are left: a client error and a
    success end it at once. *)
Theorem send_exact req :
  is_u64 (backoff_max_ms self) →
  ∃ n r t, send parse_url lookup exchange from_slice random self req = (r, t) ∧
    (n ≤ max_retries self)%nat ∧ attempted 0 n req r t ∧
    ∀ url, well_addressed req url → no_timeouts req →
      (∀ i, (i < n)%nat → transient i req url) ∧ (transient n req url → n = max_retries self).
Proof.
  intros Hmax. destruct (attempts_spec (max_retries self) 0 req Hmax) as (n & r & t & Hs & Hn & Hr); [done|].
  destruct Hr as (Hans & Hlast & Hall & Hd & Hl & Hsl & Hp). exists n, r, t. split_and!; [done..|].
  intros url Hw Hnt. split; [intros i Hi; by apply retryable_transient, Hall|].
  intros Ht. apply Hlast. rewrite Hans. by apply (retryable_transient (0 + n) req url).
Qed.

(** A stream that opens yields, in its texts one after the other, the decoding
    of the whole body, wherever the body was cut into chunks; each text is
    valid UTF-8, the errors are those of the chunks in their order, and no
    internal address was dialled. *)
Theorem stream_text_exact req :
  let '(r, t) := stream parse_url lookup exchange req in
  reaches_public t ∧
  ∀ events, r = Ok events →
    ∃ addrs status chunks, t = [Dialed addrs] ∧ exchange 0 addrs req = Responded status chunks ∧ status < 400 ∧
      concat (event_text <$> events) = from_utf8_lossy (concat (chunk_bytes <$> chunks)) ∧
      Forall (λ e, utf8_text (event_text e)) events ∧
      errors events = TNetwork <$> errors chunks.
Proof.
  unfold stream. destruct (request parse_url lookup exchange 0 req) as [r t] eqn:Hr.
  split; [by eapply request_reaches_public|]. intros events. revert Hr. unfold request.
  destruct (validate_url_host _ _) as [url|e]; [|by intros [= <- <-]].
  destruct (client_dial _ _ _) as [addrs|e]; [|by intros [= <- <-]].
  destruct (exchange 0 addrs req) as [o m|status chunks] eqn:Hx; [by intros [= <- <-]|].
  case_match eqn:Hs; intros [= <- <-]; csimpl; [done|]. intros [= <-]. apply Z.leb_gt in Hs.
  destruct (stream_chunks_shape [] chunks) as [He Hf].
  exists addrs, status, chunks. split_and!; try done. apply (stream_chunks_text []).
Qed.

(** ** Where the code departs from its comments

    The comment on [is_retryable] has timeouts fail at once, since a retry is
    billed again; the client's timeouts are [TNetwork] errors like the others,
    so a request that times out is sent as often as one can be. *)
Lemma always_retried req :
  is_u64 (backoff_max_ms self) → (∀ k, is_retryable (once k req).1 = true) →
  ∃ r t, send parse_url lookup exchange from_slice random self req = (r, t) ∧
    retried 0 (max_retries self) req r t.
Proof.
  intros Hmax Hall. destruct (attempts_spec (max_retries self) 0 req Hmax) as (n & r & t & Hs & _ & Hr); [done|].
  exists r, t. split; [done|]. assert (n = max_retries self) as <-; [|done].
  destruct Hr as (-> & Hlast & _). by apply Hlast.
Qed.

Theorem timeouts_retried req url ip :
  is_u64 (backoff_max_ms self) → parse_url (treq_url req) = Ok url → url_host url = Some (Ip ip) →
  is_blocked_ip ip = false → (∀ k addrs, ∃ m, exchange k addrs req = SendFailed true m) →
  ∃ r t, send parse_url lookup exchange from_slice random self req = (r, t) ∧
    length (dials t) = S (max_retries self).
Proof.
  intros Hmax Hu Hh Hb Hx.
  assert (∀ k, ∃ m, once k req = (Err (TNetwork m), [Dialed [ip]])) as Honce.
  { intros k. destruct (Hx k [ip]) as [m Hm]. exists m.
    unfold send_once, request, validate_url_host, client_dial. rewrite Hu. csimpl. rewrite Hh, Hb. csimpl.
    rewrite Hh, Hm. done. }
  destruct (always_retried req Hmax) as (r & t & Hs & Hr); [intros k; by destruct (Honce k) as [m ->]|].
  exists r, t. split; [done|]. destruct Hr as (_ & _ & _ & -> & _).
  rewrite <- (length_seq (S (max_retries self)) 0) at 2. generalize (seq 0 (S (max_retries self))) as ks.
  induction ks as [|k ks IH]; csimpl; [done|]. destruct (Honce k) as [m ->]. csimpl. by rewrite IH.
Qed.

(** The comment in [send] has permanent errors fail immediately; a literal
    address that is refused by [validate_url_host] is refused again after every
    delay. *)
Theorem blocked_address_retried req url ip :
  is_u64 (backoff_max_ms self) → parse_url (treq_url req) = Ok url → url_host url = Some (Ip ip) →
  is_blocked_ip ip = true →
  ∃ r t, send parse_url lookup exchange from_slice random self req = (r, t) ∧
    length (sleeps t) = max_retries self.
Proof.
  intros Hmax Hu Hh Hb. destruct (always_retried req Hmax) as (r & t & Hs & Hr).
  - intros k. unfold send_once, request, validate_url_host. rewrite Hu. csimpl. by rewrite Hh, Hb.
  - exists r, t. split; [done|]. apply Hr.
Qed.
End laws.

(** The comment on [drain_utf8] has everything that can be decoded returned;
    what follows an invalid byte is held back until more bytes arrive. *)
Theorem text_held_back_after_invalid_byte :
  drain_utf8 (ascii_of_nat <$> [255; 65; 66]%nat) = (REPLACEMENT_CHARACTER, ascii_of_nat <$> [65; 66]%nat).
Proof. vm_compute. reflexivity. Qed.

(** ** Concrete requests *)
Definition demo_url : Url := mkUrl "https" (Some (Domain "api.example")) None "" None.
Definition demo_parse (url : string) : result string Url := Ok demo_url.
Definition demo_lookup (k : nat) (host : string) : result string (list IpAddr) := Ok [V4 93 184 216 34].
Definition demo_exchange (k : nat) (addrs : list IpAddr) (req : TransportRequest) : Exchange :=
  if (k <? 2)%nat then Responded 503 [] else Responded 200 [Ok (ascii_of_nat <$> [226; 130]%nat); Ok (ascii_of_nat <$> [172; 33]%nat)].
Definition demo_from_slice (l : list ascii) : result string json := Ok (JString (String.string_of_list_ascii l)).
Definition demo_request : TransportRequest := mkTransportRequest "https://api.example/v1" "POST" ∅ JNull.

Example send_retries_twice :
  send demo_parse demo_lookup demo_exchange demo_from_slice (λ _, 1234567) http_transport_new demo_request =
    (Ok (mkTransportResponse 200 (JString (Text.bytes [226; 130; 172; 33]%nat))),
     [Dialed [V4 93 184 216 34]; Slept 567; Dialed [V4 93 184 216 34]; Slept 567; Dialed [V4 93 184 216 34]]).
Proof. vm_compute. reflexivity. Qed.

Lemma send_exact_witness :
  ∃ n r t, send demo_parse demo_lookup demo_exchange demo_from_slice (λ _, 1234567) http_transport_new demo_request = (r, t) ∧
    (n ≤ 5)%nat ∧ attempted demo_parse demo_lookup demo_exchange demo_from_slice http_transport_new 0 n demo_request r t ∧
    (∀ i, (i < n)%nat → transient demo_lookup demo_exchange demo_from_slice i demo_request demo_url) ∧
    (transient demo_lookup demo_exchange demo_from_slice n demo_request demo_url → n = 5%nat).
Proof.
  destruct (send_exact demo_parse demo_lookup demo_exchange demo_from_slice (λ _, 1234567) http_transport_new demo_request)
    as (n & r & t & Hs & Hn & Ha & Ht).
  - split; vm_compute; discriminate.
  - exists n, r, t. split; [exact Hs|]. split; [exact Hn|]. split; [exact Ha|]. apply (Ht demo_url).
    + split; [reflexivity|]. cbn. intros k addrs [= <-]. repeat constructor.
    + intros k addrs. unfold demo_exchange. destruct (k <? 2)%nat; [lia|]. intros _ e He.
      repeat (apply elem_of_cons in He as [[=]|He]). by apply elem_of_nil in He.
Defined.

Definition split_chunks : Chunks := [Ok (ascii_of_nat <$> [226; 130]%nat); Err "reset"; Ok (ascii_of_nat <$> [172; 33; 195]%nat)].
Lemma stream_text_exact_witness :
  stream demo_parse demo_lookup (λ _ _ _, Responded 200 split_chunks) demo_request =
    (Ok [Ok (mkTransportEvent []); Err (TNetwork "reset"); Ok (mkTransportEvent (ascii_of_nat <$> [226; 130; 172; 33]%nat));
         Ok (mkTransportEvent REPLACEMENT_CHARACTER)], [Dialed [V4 93 184 216 34]]) ∧
  (ascii_of_nat <$> [226; 130; 172; 33; 239; 191; 189]%nat) = from_utf8_lossy (ascii_of_nat <$> [226; 130; 172; 33; 195]%nat).
Proof.
  assert (stream demo_parse demo_lookup (λ _ _ _, Responded 200 split_chunks) demo_request =
    (Ok [Ok (mkTransportEvent []); Err (TNetwork "reset"); Ok (mkTransportEvent (ascii_of_nat <$> [226; 130; 172; 33]%nat));
         Ok (mkTransportEvent REPLACEMENT_CHARACTER)], [Dialed [V4 93 184 216 34]])) as Hs by (vm_compute; reflexivity).
  split; [exact Hs|].
  pose proof (stream_text_exact demo_parse demo_lookup (λ _ _ _, Responded 200 split_chunks) demo_request) as H.
  rewrite Hs in H. destruct H as [_ H].
  destruct (H _ eq_refl) as (addrs & status & chunks & _ & Hx & _ & Hc & _). injection Hx as <- <-. exact Hc.
Defined.
