(* ===== verification/FileTools.v ===== *)
(** * Tools that read files ([src/tools/builtin.rs], [src/connectors/filesystem.rs])

    The [file_read] tool and the filesystem connector. The file system may
    change between any two calls: it is a file system for every step of a tool.
    What [file_read] returns is the beginning of a file that lay inside the
    allowed directory when its path was checked ([file_read_contained]). *)
From S2P Require Import Prelude Text Money Json Capability Paths Utf8.
From Stdlib Require Import Ascii.
Open Scope stdpp_scope.
Open Scope Z_scope.

Definition MAX_FILE_READ_BYTES : Z := 2 * 1024 * 1024.

(** [PathBuf::join]: an absolute path replaces the base. *)
Definition path_join (base path : string) : string := if starts_with "/" path then path else join base path.

(** [AsyncReadExt::take] and the reads up to the end, an error or the limit. *)
Fixpoint read_limited (limit : Z) (reads : list (result string string)) : result string string :=
  if limit <=? 0 then Ok "" else
  match reads with
  | [] => Ok ""
  | Err e :: _ => Err e
  | Ok chunk :: reads =>
      let bytes := String.string_of_list_ascii 
        (take (Z.to_nat (Z.min limit (Z.of_nat (String.length chunk)))) (String.list_ascii_of_string chunk)) in
      rest ← read_limited (limit - Z.of_nat (String.length bytes)) reads; Ok (bytes +:+ rest)
  end.
Fixpoint read_all (reads : list (result string string)) : result string string :=
  match reads with
  | [] => Ok ""
  | Err e :: _ => Err e
  | Ok chunk :: reads => rest ← read_all reads; Ok (chunk +:+ rest)
  end.
(** What [read_to_string] makes of the bytes. *)
Definition as_text (bytes : result string string) : result string string :=
  text ← bytes;
  match from_utf8 (String.list_ascii_of_string text) with
  | Ok _ => Ok text
  | Err _ => Err "stream did not contain valid UTF-8"
  end.

Section file_read.
(** The file system at each step of a call. *)
Context (fs : nat → FileSystem).

Definition verify_opened_file_identity (file : Handle) (canonical : string) : result string unit :=
  reopened ← map_err (λ e, "re-open failed: " +:+ e) (@fs_open (fs 3) canonical);
  match h_id file, h_id reopened with
  | Some h, Some p => if decide (h = p) then Ok tt else Err "opened file identity does not match validated path"
  | _, _ => Err "file identity could not be determined; refusing"
  end.

(** [content.get(..n).unwrap_or(&content)] *)
Definition truncate_at (n : nat) (content : string) : string :=
  if is_char_boundary n content && (n <=? String.length content)%nat
  then String.string_of_list_ascii (take n (String.list_ascii_of_string content)) else content.

Definition file_read_execute (allowed_dir : string) (args : json) : result string json :=
  path ← ok_or "Missing 'path' argument" (json_get "path" args ≫= as_str);
  let full_path := path_join allowed_dir path in
  allowed_canonical ← ok_or "Allowed directory not found" (@fs_canonicalize (fs 0) allowed_dir);
  file ← map_err (λ _, "Path does not exist or is inaccessible") (@fs_open (fs 1) full_path);
  canonical ← map_err (λ _, "Path does not exist or is inaccessible") (@canonicalize_within (fs 2) allowed_dir full_path);
  if negb (path_starts_with canonical allowed_canonical) then Err "Path traversal detected" else
  _ ← map_err (λ _, "Path changed between open and validation; refusing") (verify_opened_file_identity file canonical);
  content ← map_err (λ e, "File read error: " +:+ e) (as_text (read_limited (MAX_FILE_READ_BYTES + 1) (h_reads file)));
  let bytes_read := Z.of_nat (String.length content) in
  let truncated := MAX_FILE_READ_BYTES <? bytes_read in
  let content := if truncated then truncate_at (Z.to_nat MAX_FILE_READ_BYTES) content else content in
  Ok (JObject [("bytes_read", JNumber (PosInt bytes_read)); ("content", JString content); ("truncated", JBool truncated)]).

(** *** The connector *)
Record ConnectorError := mkConnectorError { xe_connector : string; xe_capability : CapabilityId; xe_reason : string; xe_retryable : bool }.

Definition permits_reading (p : Permission) : bool :=
  match p with Network | Filesystem _ => true | _ => false end.
Definition fs_read_execute (root : string) (capability : CapabilityId) (permissions : list Permission) (input : json)
    : result ConnectorError json :=
  let fail reason := mkConnectorError "filesystem" capability reason false in
  path ← ok_or (fail "Missing 'path' field") (json_get "path" input ≫= as_str);
  canonical ← map_err (λ e, fail ("path rejected (Law 10): " +:+ path_error_display e)) (@canonicalize_within (fs 0) root path);
  if negb (bool_decide (permissions = [])) && negb (existsb permits_reading permissions) then
    Err (fail "filesystem read is not covered by declared permissions")
  else
  file ← map_err (λ e, fail ("failed to read file: " +:+ e)) (@fs_open (fs 1) canonical);
  content ← map_err (λ e, fail ("failed to read file: " +:+ e)) (as_text (read_all (h_reads file)));
  Ok (JObject [("content", JString content)]).
End file_read.

(** ** What is read *)
Lemma length_string_of_list l : String.length (String.string_of_list_ascii l) = length l.
Proof. induction l as [|c l IH]; [done|]. simpl. by rewrite IH. Qed.
Lemma length_list_of_string s : length (String.list_ascii_of_string s) = String.length s.
Proof. induction s as [|c s IH]; [done|]. simpl. by rewrite IH. Qed.

Lemma read_limited_length limit reads bytes :
  0 ≤ limit → read_limited limit reads = Ok bytes → Z.of_nat (String.length bytes) ≤ limit.
Proof.
  revert limit bytes. induction reads as [|[chunk|e] reads IH]; intros limit bytes Hl; cbn [read_limited];
    (destruct (limit <=? 0) eqn:Hz; [by intros [= <-]; csimpl; lia|]); apply Z.leb_gt in Hz.
  - intros [= <-]. csimpl. lia.
  - set (part := String.string_of_list_ascii _).
    assert (Z.of_nat (String.length part) ≤ limit) as Hp.
    { unfold part. rewrite length_string_of_list, length_take. lia. }
    destruct (read_limited (limit - Z.of_nat (String.length part)) reads) as [rest|] eqn:Hr; csimpl; [|done].
    intros [= <-]. apply IH in Hr; [|lia]. rewrite str_length_app. lia.
  - done.
Qed.

(** [t] is [s] or a beginning of it. *)
Definition beginning (t s : string) : Prop := ∃ rest, s = t +:+ rest.
Lemma string_take_drop n s :
  s = String.string_of_list_ascii (take n (String.list_ascii_of_string s)) +:+
      String.string_of_list_ascii (drop n (String.list_ascii_of_string s)).
Proof.
  revert s. induction n as [|n IH]; intros s; [induction s as [|c s IHs]; [done|]; simpl in *; by rewrite IHs at 1|].
  destruct s as [|c s]; [done|]. simpl. by rewrite (IH s) at 1.
Qed.
Lemma truncate_at_beginning n s : beginning (truncate_at n s) s.
Proof.
  unfold truncate_at. case_match; [|exists ""; by rewrite str_app_nil_r].
  eexists. apply string_take_drop.
Qed.

(** Whatever happens to the file system between its calls: what the tool returns
    is the beginning of a file it had opened, at most the limit and one byte of
    it, and that file was the one at a canonical path inside the allowed
    directory when the path had been checked. *)
Theorem file_read_contained fs allowed args v :
  file_read_execute fs allowed args = Ok v →
  ∃ path file canonical reopened id bytes text,
    json_get "path" args = Some (JString path) ∧
    @fs_open (fs 1%nat) (path_join allowed path) = Ok file ∧
    @Paths.within (fs 2%nat) allowed (path_join allowed path) canonical ∧
    @fs_open (fs 3%nat) canonical = Ok reopened ∧ h_id file = Some id ∧ h_id reopened = Some id ∧
    read_limited (MAX_FILE_READ_BYTES + 1) (h_reads file) = Ok bytes ∧
    json_get "content" v = Some (JString text) ∧ beginning text bytes ∧
    Z.of_nat (String.length text) ≤ MAX_FILE_READ_BYTES + 1 ∧
    json_get "truncated" v = Some (JBool (MAX_FILE_READ_BYTES <? Z.of_nat (String.length bytes))).
Proof.
  unfold file_read_execute. destruct (json_get "path" args) as [[| | |path| |]|] eqn:Hpath; cbn; try done.
  destruct (@fs_canonicalize (fs 0%nat) allowed) as [root|]; cbn; [|done].
  destruct (@fs_open (fs 1%nat) _) as [file|e] eqn:Ho; cbn; [|done].
  destruct (@canonicalize_within (fs 2%nat) _ _) as [canonical|e] eqn:Hc; cbn; [|done].
  apply (@canonicalize_within_spec (fs 2%nat)) in Hc. destruct (path_starts_with canonical root); cbn; [|done].
  unfold verify_opened_file_identity. destruct (@fs_open (fs 3%nat) canonical) as [reopened|e] eqn:Hr; cbn; [|done].
  destruct (h_id file) as [id|] eqn:Hid; [|done]. destruct (h_id reopened) as [id'|] eqn:Hid'; [|done].
  case_decide as Heq; cbn; [subst id'|done].
  unfold as_text. destruct (read_limited (MAX_FILE_READ_BYTES + 1) (h_reads file)) as [bytes|e] eqn:Hb; cbn; [|done].
  destruct (from_utf8 _); cbn; [|done]. intros [= <-].
  assert (0 ≤ MAX_FILE_READ_BYTES + 1) as Hpos by (unfold MAX_FILE_READ_BYTES; lia).
  pose proof (read_limited_length _ _ _ Hpos Hb) as Hlen.
  set (text := if MAX_FILE_READ_BYTES <? Z.of_nat (String.length bytes) then _ else _).
  assert (beginning text bytes) as Hbeg.
  { unfold text. case_match; [apply truncate_at_beginning|exists ""; by rewrite str_app_nil_r]. }
  exists path, file, canonical, reopened, id, bytes, text. split_and!; try done.
  destruct Hbeg as [rest Hrest]. rewrite Hrest, str_length_app in Hlen. lia.
Qed.

(** ** Where the code departs from its comments *)

(** The cap on the bytes returned is called hard; when it falls inside a
    character, the text is not cut at all. *)
Theorem cap_inside_character_ignored n :
  let text := str_repeat "a" n +:+ Text.bytes [195; 169]%nat in
  truncate_at (S n) text = text ∧ String.length text = S (S n).
Proof.
  intros text. split.
  - unfold truncate_at, is_char_boundary. assert (String.get (S n) text = Some (ascii_of_nat 169)) as ->; [|done].
    unfold text. induction n as [|n IH]; [done|]. exact IH.
  - unfold text. rewrite str_length_app, str_length_repeat. simpl. lia.
Qed.

(** The bytes are cut before they are decoded: a large file is not truncated but
    refused when the limit falls inside a character. *)
Theorem limit_inside_character_refused n :
  as_text (Ok (str_repeat "a" n +:+ Text.bytes [195]%nat)) = Err "stream did not contain valid UTF-8".
Proof.
  assert (utf8_text (replicate n "a"%char)) as Ha.
  { induction n as [|n IH]; [constructor|]. apply (text_char ["a"%char]); done. }
  assert (String.list_ascii_of_string (str_repeat "a" n +:+ Text.bytes [195]%nat) = replicate n "a"%char ++ [ascii_of_nat 195]) as Hl.
  { clear. induction n as [|n IH]; [done|]. simpl. by rewrite <- IH. }
  unfold as_text. cbn [mbind result_bind]. rewrite Hl. pose proof (from_utf8_spec (replicate n "a"%char ++ [ascii_of_nat 195])) as Hs.
  destruct (from_utf8 _) as [t|]; [|done]. destruct Hs as [_ Ht]. apply lossy_text in Ht.
  rewrite (lossy_text_app _ _ Ha) in Ht. by apply app_inv_head in Ht.
Qed.

(** The connector takes a permission for the network, or none at all, for a
    permission to read files, and no path for the one that was granted. *)
Theorem file_read_without_permission fs root capability perms input :
  perms = [] ∨ Network ∈ perms →
  fs_read_execute fs root capability perms input = fs_read_execute fs root capability [Filesystem "/granted"] input.
Proof.
  intros Hp. unfold fs_read_execute.
  assert (negb (bool_decide (perms = [])) && negb (existsb permits_reading perms) = false) as ->; [|done].
  destruct Hp as [->|Hn]; [done|]. assert (existsb permits_reading perms = true) as ->; [|by rewrite andb_false_r].
  apply existsb_exists. exists Network. split; [by apply list_elem_of_In|done].
Qed.

(** ** A concrete file system: the link [/data/link] names [/data/real]. *)
Definition demo_file : Handle := mkHandle (Ok (true, 5)) (Some 1) (Some (1, 7)) [Ok "he"; Ok "llo"].
Definition demo_fs : FileSystem := {|
  fs_canonicalize p := Some (if decide (p = "/data/link") then "/data/real" else p);
  fs_is_file _ := Ok true;
  fs_open p := if decide (p = "/data/link" ∨ p = "/data/real") then Ok demo_file else Err "not found";
  fs_file_id _ := Ok (1, 7);
  fs_create _ := Ok tt;
  fs_write _ _ := Ok tt;
|}.
Lemma file_read_contained_witness :
  let v := JObject [("bytes_read", JNumber (PosInt 5)); ("content", JString "hello"); ("truncated", JBool false)] in
  file_read_execute (λ _, demo_fs) "/data" (JObject [("path", JString "link")]) = Ok v ∧
  ∃ path file canonical reopened id bytes text,
    json_get "path" (JObject [("path", JString "link")]) = Some (JString path) ∧
    @fs_open demo_fs (path_join "/data" path) = Ok file ∧
    @Paths.within demo_fs "/data" (path_join "/data" path) canonical ∧
    @fs_open demo_fs canonical = Ok reopened ∧ h_id file = Some id ∧ h_id reopened = Some id ∧
    read_limited (MAX_FILE_READ_BYTES + 1) (h_reads file) = Ok bytes ∧
    json_get "content" v = Some (JString text) ∧ beginning text bytes ∧
    Z.of_nat (String.length text) ≤ MAX_FILE_READ_BYTES + 1 ∧
    json_get "truncated" v = Some (JBool (MAX_FILE_READ_BYTES <? Z.of_nat (String.length bytes))).
Proof.
  assert (file_read_execute (λ _, demo_fs) "/data" (JObject [("path", JString "link")]) =
    Ok (JObject [("bytes_read", JNumber (PosInt 5)); ("content", JString "hello"); ("truncated", JBool false)])) as Hr
    by (vm_compute; reflexivity).
  split; [exact Hr|]. exact (file_read_contained (λ _, demo_fs) "/data" _ _ Hr).
Defined.
