(* ===== verification/HostResource.v ===== *)
(** * The host's resource manager ([src/resource])

    [DefaultResourceManager] ([src/resource/mod.rs]), whose three critical
    sections run under one lock; the trait it implements, as a class over the
    manager's state; [KernelResourceManager] ([kernel_adapter.rs]), which turns
    any such manager into the scalar interface the compiler and the runtime
    use; [ResourceGuard] ([guard.rs]), which gives a reservation back; and the
    ledger of concurrent requests: reservations, releases and usage records
    in any order leave exactly the outstanding estimates and the measured
    usage on the books. *)
From S2P Require Import Prelude Money Budget Json ExecTypes.

(** ** The trait *)
Record ProviderLimit := mkProviderLimit { pl_max_daily_cost : NanoUSD; pl_max_rpm : Z; pl_max_tpm : Z }.
Record HostQuota := mkHostQuota {
  hq_max_daily_cost : NanoUSD;
  hq_max_daily_tokens : Z;
  hq_max_concurrent : Z;
  hq_provider_limits : gmap string ProviderLimit;
}.

Definition estimate (g : ExecutionGraph) : NanoUSD * Z :=
  (g_estimated_cost (g_metadata g), g_estimated_tokens (g_metadata g)).
Definition estimate_ok (g : ExecutionGraph) : Prop :=
  valid_usd (estimate g).1 ∧ is_u64 (estimate g).2.

(** The graph-shaped [ResourceManager] of the host, with what its callers rely
    on: only the estimates of a graph matter, a reservation is all or nothing
    and within the quota, [can_afford] predicts it, a release never goes below
    zero and recorded usage is added up. *)
Class HostResourceManager (S : Type) := {
  hm_ok : S → Prop;
  hm_quota : S → HostQuota;
  hm_spent_cost : S → Z;
  hm_spent_tokens : S → Z;
  hm_can_afford : S → ExecutionGraph → bool;
  hm_try_reserve : S → ExecutionGraph → bool * S;
  hm_release : S → ExecutionGraph → S;
  hm_record_usage : S → NanoUSD → Z → S;
  hm_ok_u64 : ∀ s, hm_ok s → is_u64 (hm_spent_cost s) ∧ is_u64 (hm_spent_tokens s);
  hm_reserve_spec : ∀ s g, hm_ok s → estimate_ok g →
    let '(b, s') := hm_try_reserve s g in
    hm_ok s' ∧ hm_quota s' = hm_quota s ∧ b = hm_can_afford s g ∧
    if b then
      hm_spent_cost s' = (hm_spent_cost s +^ nanos (estimate g).1)%u64 ∧
      hm_spent_tokens s' = (hm_spent_tokens s +^ (estimate g).2)%u64 ∧
      hm_spent_cost s' ≤ nanos (hq_max_daily_cost (hm_quota s)) ∧
      hm_spent_tokens s' ≤ hq_max_daily_tokens (hm_quota s)
    else s' = s;
  hm_release_spec : ∀ s g, hm_ok s → estimate_ok g →
    hm_ok (hm_release s g) ∧ hm_quota (hm_release s g) = hm_quota s ∧
    hm_spent_cost (hm_release s g) = Z.max 0 (hm_spent_cost s - nanos (estimate g).1) ∧
    hm_spent_tokens (hm_release s g) = Z.max 0 (hm_spent_tokens s - (estimate g).2);
  hm_record_spec : ∀ s c t, hm_ok s → valid_usd c → is_u64 t →
    hm_ok (hm_record_usage s c t) ∧ hm_quota (hm_record_usage s c t) = hm_quota s ∧
    hm_spent_cost (hm_record_usage s c t) = (hm_spent_cost s +^ nanos c)%u64 ∧
    hm_spent_tokens (hm_record_usage s c t) = (hm_spent_tokens s +^ t)%u64;
}.

(** ** [DefaultResourceManager] *)
Record DefaultResourceManager := mkManager { quota : HostQuota; used_cost : Z; used_tokens : Z }.
Definition manager_new (q : HostQuota) : DefaultResourceManager := mkManager q 0 0.

(** Each of the three runs as a whole under [reserve_lock]. *)
Definition try_apply (cost tokens : Z) (m : DefaultResourceManager) : bool * DefaultResourceManager :=
  let new_cost := (used_cost m +^ cost)%u64 in
  let new_tokens := (used_tokens m +^ tokens)%u64 in
  if ((as_nanos (hq_max_daily_cost (quota m)) <? new_cost)%Z ||
      (hq_max_daily_tokens (quota m) <? new_tokens)%Z)
  then (false, m)
  else (true, mkManager (quota m) new_cost new_tokens).
Definition add_usage (cost tokens : Z) (m : DefaultResourceManager) : DefaultResourceManager :=
  mkManager (quota m) (used_cost m +^ cost)%u64 (used_tokens m +^ tokens)%u64.
Definition subtract (cost tokens : Z) (m : DefaultResourceManager) : DefaultResourceManager :=
  mkManager (quota m) (used_cost m -^ cost)%u64 (used_tokens m -^ tokens)%u64.

Definition can_afford (m : DefaultResourceManager) (g : ExecutionGraph) : bool :=
  ((used_cost m +^ as_nanos (g_estimated_cost (g_metadata g)))%u64
     <=? as_nanos (hq_max_daily_cost (quota m)))%Z &&
  ((used_tokens m +^ g_estimated_tokens (g_metadata g))%u64 <=? hq_max_daily_tokens (quota m))%Z.
Definition try_reserve (m : DefaultResourceManager) (g : ExecutionGraph) : bool * DefaultResourceManager :=
  try_apply (as_nanos (g_estimated_cost (g_metadata g))) (g_estimated_tokens (g_metadata g)) m.
Definition release (m : DefaultResourceManager) (g : ExecutionGraph) : DefaultResourceManager :=
  subtract (as_nanos (g_estimated_cost (g_metadata g))) (g_estimated_tokens (g_metadata g)) m.
Definition manager_record_usage (m : DefaultResourceManager) (cost : NanoUSD) (tokens : Z)
    : DefaultResourceManager :=
  add_usage (as_nanos cost) tokens m.

Definition manager_ok (m : DefaultResourceManager) : Prop :=
  is_u64 (used_cost m) ∧ is_u64 (used_tokens m) ∧
  valid_usd (hq_max_daily_cost (quota m)) ∧ is_u64 (hq_max_daily_tokens (quota m)).

Lemma try_reserve_spec m g :
  manager_ok m → estimate_ok g →
  let '(b, m') := try_reserve m g in
  manager_ok m' ∧ quota m' = quota m ∧ b = can_afford m g ∧
  if b then
    used_cost m' = (used_cost m +^ nanos (estimate g).1)%u64 ∧
    used_tokens m' = (used_tokens m +^ (estimate g).2)%u64 ∧
    used_cost m' ≤ nanos (hq_max_daily_cost (quota m)) ∧
    used_tokens m' ≤ hq_max_daily_tokens (quota m)
  else m' = m.
Proof.
  intros (Hc & Ht & Hmc & Hmt) [Hec Het]. unfold try_reserve, try_apply, can_afford, as_nanos.
  csimpl in *.
  destruct (nanos (hq_max_daily_cost (quota m)) <? _)%Z eqn:H1;
    [|destruct (hq_max_daily_tokens (quota m) <? _)%Z eqn:H2]; csimpl.
  - split_and!; try done. symmetry. apply andb_false_intro1. lia.
  - split_and!; try done. symmetry. apply andb_false_intro2. lia.
  - unfold manager_ok; csimpl. split_and!; auto with fusion; lia.
Qed.

Lemma release_spec m g :
  manager_ok m → estimate_ok g →
  manager_ok (release m g) ∧ quota (release m g) = quota m ∧
  used_cost (release m g) = Z.max 0 (used_cost m - nanos (estimate g).1) ∧
  used_tokens (release m g) = Z.max 0 (used_tokens m - (estimate g).2).
Proof.
  intros (Hc & Ht & Hmc & Hmt) [Hec Het]. unfold release, subtract, manager_ok, as_nanos; csimpl in *.
  unfold valid_usd in *. split_and!; auto with fusion; unfold_ints; lia.
Qed.

Lemma record_usage_spec m c t :
  manager_ok m → valid_usd c → is_u64 t →
  manager_ok (manager_record_usage m c t) ∧ quota (manager_record_usage m c t) = quota m ∧
  used_cost (manager_record_usage m c t) = (used_cost m +^ nanos c)%u64 ∧
  used_tokens (manager_record_usage m c t) = (used_tokens m +^ t)%u64.
Proof.
  intros (Hc & Ht & Hmc & Hmt) Hvc Hvt. unfold manager_record_usage, add_usage, manager_ok, as_nanos; csimpl.
  unfold valid_usd in *. split_and!; auto with fusion.
Qed.

#[global] Instance default_resource_manager : HostResourceManager DefaultResourceManager := {|
  hm_ok := manager_ok;
  hm_quota := quota;
  hm_spent_cost := used_cost;
  hm_spent_tokens := used_tokens;
  hm_can_afford := can_afford;
  hm_try_reserve := try_reserve;
  hm_release := release;
  hm_record_usage := manager_record_usage;
  hm_ok_u64 := λ _ H, conj (proj1 H) (proj1 (proj2 H));
  hm_reserve_spec := try_reserve_spec;
  hm_release_spec := release_spec;
  hm_record_spec := record_usage_spec;
|}.

(** ** [KernelResourceManager]: the scalar view *)
Record KernelResourceManager (S : Type) := mkKernel { inner : S; kernel_quota : Quota }.
Arguments mkKernel {S} _ _.
Arguments inner {S} _.
Arguments kernel_quota {S} _.

(** [Uuid::nil()] *)
Definition nil_uuid : Uuid := 0%N.
Definition graph_for (cost : NanoUSD) (tokens : Z) : ExecutionGraph :=
  mkGraph nil_uuid [] [] (mkGraphMetadata cost tokens 0 1 0) 0 ZERO 0.

Section kernel.
Context {S : Type} `{!HostResourceManager S}.
Definition project_quota (q : HostQuota) : Quota := mkQuota (hq_max_daily_cost q) (hq_max_daily_tokens q).
Definition kernel_new (s : S) : KernelResourceManager S := mkKernel s (project_quota (hm_quota s)).

Definition kernel_can_afford (k : KernelResourceManager S) (cost : NanoUSD) (tokens : Z) : bool :=
  hm_can_afford (inner k) (graph_for cost tokens).
Definition kernel_try_reserve (k : KernelResourceManager S) (cost : NanoUSD) (tokens : Z)
    : bool * KernelResourceManager S :=
  let '(b, s) := hm_try_reserve (inner k) (graph_for cost tokens) in (b, mkKernel s (kernel_quota k)).
Definition kernel_release (k : KernelResourceManager S) (cost : NanoUSD) (tokens : Z)
    : KernelResourceManager S :=
  mkKernel (hm_release (inner k) (graph_for cost tokens)) (kernel_quota k).

(** The copied quota is still the one of the manager behind it. *)
Definition kernel_ok (k : KernelResourceManager S) : Prop :=
  hm_ok (inner k) ∧ kernel_quota k = project_quota (hm_quota (inner k)).

Lemma kernel_new_ok s : hm_ok s → kernel_ok (kernel_new s).
Proof. done. Qed.

Lemma kernel_reserve_spec k c t :
  kernel_ok k → valid_usd c → is_u64 t →
  let '(b, k') := kernel_try_reserve k c t in
  kernel_ok k' ∧ kernel_quota k' = kernel_quota k ∧ b = kernel_can_afford k c t ∧
  if b then
    hm_spent_cost (inner k') = (hm_spent_cost (inner k) +^ nanos c)%u64 ∧
    hm_spent_tokens (inner k') = (hm_spent_tokens (inner k) +^ t)%u64 ∧
    hm_spent_cost (inner k') ≤ nanos (max_daily_cost (kernel_quota k)) ∧
    hm_spent_tokens (inner k') ≤ max_daily_tokens (kernel_quota k)
  else k' = k.
Proof.
  intros [Hk Hq] Hc Ht. unfold kernel_try_reserve, kernel_can_afford, kernel_ok.
  pose proof (hm_reserve_spec (inner k) (graph_for c t) Hk (conj Hc Ht)) as Hs.
  destruct (hm_try_reserve _ _) as [b s']. destruct Hs as (Hok & Hqs & Hb & Hrest). csimpl.
  split_and!; [done|by rewrite Hq, Hqs|done|done|].
  destruct b; [by rewrite Hq|]. subst s'. by destruct k.
Qed.

Lemma kernel_release_spec k c t :
  kernel_ok k → valid_usd c → is_u64 t →
  kernel_ok (kernel_release k c t) ∧ kernel_quota (kernel_release k c t) = kernel_quota k ∧
  hm_spent_cost (inner (kernel_release k c t)) = Z.max 0 (hm_spent_cost (inner k) - nanos c) ∧
  hm_spent_tokens (inner (kernel_release k c t)) = Z.max 0 (hm_spent_tokens (inner k) - t).
Proof.
  intros [Hk Hq] Hc Ht. unfold kernel_release, kernel_ok; csimpl.
  destruct (hm_release_spec (inner k) (graph_for c t) Hk (conj Hc Ht)) as (? & Hqs & ? & ?).
  split_and!; try done. by rewrite Hq, Hqs.
Qed.

(** Any manager of the host discharges the interface the compiler and the
    runtime are verified against. *)
#[global] Instance kernel_resource_manager : ResourceManager (KernelResourceManager S) := {|
  rm_ok := kernel_ok;
  rm_quota := kernel_quota;
  rm_spent_cost := λ k, hm_spent_cost (inner k);
  rm_spent_tokens := λ k, hm_spent_tokens (inner k);
  rm_can_afford := kernel_can_afford;
  rm_try_reserve := kernel_try_reserve;
  rm_release := kernel_release;
  rm_reserve_spec := kernel_reserve_spec;
  rm_release_spec := kernel_release_spec;
|}.
End kernel.

(** ** [ResourceGuard] *)
Record ResourceGuard := mkGuard { guard_graph : ExecutionGraph; committed : bool; has_runtime : bool }.
Definition guard_new (g : ExecutionGraph) (has_runtime : bool) : ResourceGuard := mkGuard g false has_runtime.
Definition commit (g : ResourceGuard) : ResourceGuard := mkGuard (guard_graph g) true (has_runtime g).

(** How one call of [release] may end; [drop] catches the panic. *)
Inductive ReleaseEnd := Released | ReleaseError | ReleasePanicked.

Section guard.
Context {S : Type} (try_release : S → ExecutionGraph → ReleaseEnd * S).
(** Whether the captured runtime accepted the spawned task. *)
Context (spawn_accepted : bool).

Definition guard_drop (g : ResourceGuard) (s : S) : S :=
  if committed g then s
  else if has_runtime g && spawn_accepted then (try_release s (guard_graph g)).2
  else match try_release s (guard_graph g) with
    | (ReleasePanicked, s) => (try_release s (guard_graph g)).2
    | (_, s) => s
    end.
End guard.

Definition default_try_release (m : DefaultResourceManager) (g : ExecutionGraph)
    : ReleaseEnd * DefaultResourceManager := (Released, release m g).

(** A guard that was not committed gives the reservation back once, with or
    without a runtime; a committed one keeps it. *)
Lemma guard_drop_releases_once spawn_accepted g m :
  guard_drop default_try_release spawn_accepted g m =
  if committed g then m else release m (guard_graph g).
Proof. unfold guard_drop, default_try_release. by destruct (committed g), (has_runtime g && spawn_accepted). Qed.

(** ** The ledger of concurrent requests

    A request reserves the estimate of its graph, and when it ends its guard
    is dropped and the measured usage is recorded. The release is spawned as a
    task of its own, so it may run before or after the record; the critical
    sections of different requests interleave freely. *)
Record Request := mkRequest {
  req_graph : ExecutionGraph;
  req_usage : NanoUSD * Z;
  req_admitted : bool;
  req_held : bool;
  req_recorded : bool;
}.
Definition request_new (g : ExecutionGraph) (usage : NanoUSD * Z) : Request :=
  mkRequest g usage false false false.
Definition request_ok (r : Request) : Prop :=
  estimate_ok (req_graph r) ∧ valid_usd (req_usage r).1 ∧ is_u64 (req_usage r).2.

Section ledger.
Context {S : Type} `{!HostResourceManager S}.

(** One critical section of a request. *)
Inductive request_step : S → Request → S → Request → Prop :=
| step_admitted s g u s' :
    hm_try_reserve s g = (true, s') →
    request_step s (mkRequest g u false false false) s' (mkRequest g u true true false)
| step_refused s g u s' :
    hm_try_reserve s g = (false, s') →
    request_step s (mkRequest g u false false false) s' (mkRequest g u false false false)
| step_release s g u rec :
    request_step s (mkRequest g u true true rec) (hm_release s g) (mkRequest g u true false rec)
| step_record s g u held :
    request_step s (mkRequest g u true held false)
      (hm_record_usage s u.1 u.2) (mkRequest g u true held true).
Inductive ledger_step : S * list Request → S * list Request → Prop :=
| ledger_step_intro s s' rs i r r' :
    rs !! i = Some r → request_step s r s' r' → ledger_step (s, rs) (s', <[i := r']> rs).

(** What a request has on the books. *)
Definition booked_cost (r : Request) : Z :=
  (if req_held r then nanos (estimate (req_graph r)).1 else 0) +
  (if req_recorded r then nanos (req_usage r).1 else 0).
Definition booked_tokens (r : Request) : Z :=
  (if req_held r then (estimate (req_graph r)).2 else 0) +
  (if req_recorded r then (req_usage r).2 else 0).
(** The most a request can have on the books. *)
Definition exposure_cost (r : Request) : Z := nanos (estimate (req_graph r)).1 + nanos (req_usage r).1.
Definition exposure_tokens (r : Request) : Z := (estimate (req_graph r)).2 + (req_usage r).2.

Definition total (f : Request → Z) (rs : list Request) : Z := zsum (f <$> rs).

Lemma total_insert f rs i r r' :
  rs !! i = Some r → total f (<[i := r']> rs) = total f rs - f r + f r'.
Proof.
  unfold total. revert i. induction rs as [|x rs IH]; intros [|i] Hi; csimpl in *; try done.
  - injection Hi as ->. lia.
  - rewrite IH by done. lia.
Qed.
Lemma total_le f g rs : (∀ r, r ∈ rs → f r ≤ g r) → total f rs ≤ total g rs.
Proof.
  unfold total. induction rs as [|r rs IH]; intros Hle; csimpl; [lia|].
  pose proof (Hle r ltac:(set_solver)). pose proof (IH ltac:(set_solver)). lia.
Qed.
Lemma total_pos f rs i r : (∀ r, r ∈ rs → 0 ≤ f r) → rs !! i = Some r → 0 ≤ total f rs - f r.
Proof.
  unfold total. revert i. induction rs as [|x rs IH]; intros [|i] Hf Hi; csimpl in *; try done.
  - injection Hi as ->. pose proof (total_le (λ _, 0) f rs ltac:(set_solver)) as Hz. unfold total in Hz.
    assert (zsum ((λ _ : Request, 0) <$> rs) = 0) as E by (clear; induction rs; csimpl; lia). lia.
  - pose proof (IH i ltac:(set_solver) Hi). pose proof (Hf x ltac:(set_solver)). lia.
Qed.

Record ledger_inv (s0 : S) (w : S * list Request) : Prop := {
  li_ok : hm_ok w.1;
  li_reqs : Forall request_ok w.2;
  li_cost : hm_spent_cost w.1 = hm_spent_cost s0 + total booked_cost w.2;
  li_tokens : hm_spent_tokens w.1 = hm_spent_tokens s0 + total booked_tokens w.2;
  li_fit_cost : hm_spent_cost s0 + total exposure_cost w.2 ≤ u64_max;
  li_fit_tokens : hm_spent_tokens s0 + total exposure_tokens w.2 ≤ u64_max;
}.

Lemma booked_bounds r :
  request_ok r → 0 ≤ booked_cost r ≤ exposure_cost r ∧ 0 ≤ booked_tokens r ≤ exposure_tokens r.
Proof.
  intros ((Hc & Ht) & Huc & Hut). unfold booked_cost, booked_tokens, exposure_cost, exposure_tokens.
  unfold valid_usd in *. unfold_ints. destruct (req_held r), (req_recorded r); lia.
Qed.

(** A step changes the books by what it changes for its request. *)
Lemma request_step_books s r s' r' :
  hm_ok s → request_ok r → request_step s r s' r' →
  booked_cost r ≤ hm_spent_cost s → booked_tokens r ≤ hm_spent_tokens s →
  hm_spent_cost s - booked_cost r + exposure_cost r ≤ u64_max →
  hm_spent_tokens s - booked_tokens r + exposure_tokens r ≤ u64_max →
  hm_ok s' ∧ request_ok r' ∧ exposure_cost r' = exposure_cost r ∧ exposure_tokens r' = exposure_tokens r ∧
  hm_spent_cost s' = hm_spent_cost s - booked_cost r + booked_cost r' ∧
  hm_spent_tokens s' = hm_spent_tokens s - booked_tokens r + booked_tokens r'.
Proof.
  intros Hs (He & Huc & Hut) Hstep. pose proof He as [Hec Het].
  unfold booked_cost, booked_tokens, exposure_cost, exposure_tokens, request_ok, valid_usd in *.
  destruct Hstep as [s g u s' Hr|s g u s' Hr|s g u rec|s g u held]; csimpl in *; intros ????.
  - pose proof (hm_reserve_spec s g Hs He) as Hx. rewrite Hr in Hx.
    destruct Hx as (? & _ & _ & -> & -> & _). split_and!; try done; csimpl in *; unfold_ints; lia.
  - pose proof (hm_reserve_spec s g Hs He) as Hx. rewrite Hr in Hx.
    destruct Hx as (? & _ & _ & ->). split_and!; try done; lia.
  - destruct (hm_release_spec s g Hs He) as (? & _ & -> & ->).
    split_and!; try done; destruct rec; csimpl in *; unfold_ints; lia.
  - destruct (hm_record_spec s u.1 u.2 Hs Huc Hut) as (? & _ & -> & ->).
    split_and!; try done; destruct held; csimpl in *; unfold_ints; lia.
Qed.

Lemma ledger_step_inv s0 w w' :
  hm_ok s0 → ledger_step w w' → ledger_inv s0 w → ledger_inv s0 w'.
Proof.
  intros Hs0 [s s' rs i r r' Hi Hstep] [Hs Hrs Hc Ht Hfc Hft]; csimpl in *.
  destruct (hm_ok_u64 s0 Hs0) as [H0c H0t].
  assert (request_ok r) as Hr by by eapply Forall_lookup_1.
  pose proof (booked_bounds r Hr) as Hb.
  assert (∀ r, r ∈ rs → 0 ≤ booked_cost r ≤ exposure_cost r ∧ 0 ≤ booked_tokens r ≤ exposure_tokens r) as Hall.
  { intros x Hx. apply booked_bounds. by eapply (proj1 (Forall_forall _ _)). }
  pose proof (total_pos booked_cost rs i r ltac:(intros x Hx; pose proof (Hall x Hx); lia) Hi).
  pose proof (total_pos booked_tokens rs i r ltac:(intros x Hx; pose proof (Hall x Hx); lia) Hi).
  pose proof (total_pos (λ r, exposure_cost r - booked_cost r) rs i r ltac:(intros x Hx; pose proof (Hall x Hx); lia) Hi) as Ec.
  pose proof (total_pos (λ r, exposure_tokens r - booked_tokens r) rs i r ltac:(intros x Hx; pose proof (Hall x Hx); lia) Hi) as Et.
  assert (∀ f g, total (λ r, f r - g r) rs = total f rs - total g rs) as Hsub.
  { intros f g. unfold total. clear. induction rs; csimpl; lia. }
  rewrite Hsub in Ec, Et. unfold_ints.
  destruct (request_step_books s r s' r' Hs Hr Hstep) as (? & ? & Hxc & Hxt & Hc' & Ht'); try (unfold_ints; lia).
  split; csimpl; rewrite ?(total_insert _ _ _ _ _ Hi); try (unfold_ints; lia); [done|].
  by apply Forall_insert.
Qed.

(** C10. The books are exact under concurrency. Start any number of requests on a
    manager, and let their reservations, guard releases and usage records
    interleave in any order: while the totals fit a [u64], what the manager
    reports as spent is what was spent before plus, for every request, its
    estimate while the guard is held and its measured usage once recorded. So
    when every guard is gone, only measured usage remains. *)
Theorem quota_ledger_exact s0 reqs w :
  hm_ok s0 → Forall request_ok reqs → Forall (λ r, booked_cost r = 0 ∧ booked_tokens r = 0) reqs →
  hm_spent_cost s0 + total exposure_cost reqs ≤ u64_max →
  hm_spent_tokens s0 + total exposure_tokens reqs ≤ u64_max →
  rtc ledger_step (s0, reqs) w →
  hm_spent_cost w.1 = hm_spent_cost s0 + total booked_cost w.2 ∧
  hm_spent_tokens w.1 = hm_spent_tokens s0 + total booked_tokens w.2 ∧
  (Forall (λ r, req_held r = false) w.2 →
   hm_spent_cost w.1 = hm_spent_cost s0 + zsum (nanos ∘ fst ∘ req_usage <$> filter req_recorded w.2) ∧
   hm_spent_tokens w.1 = hm_spent_tokens s0 + zsum (snd ∘ req_usage <$> filter req_recorded w.2)).
Proof.
  intros Hs0 Hok Hzero Hfc Hft Hrtc.
  assert (ledger_inv s0 w) as Hinv.
  { refine (rtc_ind_r (ledger_inv s0) (s0, reqs) _ _ w Hrtc);
      [|intros y z _ Hstep Hy; by eapply ledger_step_inv].
    split; csimpl; try done; unfold total; clear -Hzero; induction Hzero as [|r rs [??]]; csimpl; lia. }
  destruct Hinv as [_ _ Hc Ht _ _]. split_and!; [done|done|]. intros Hnone. rewrite Hc, Ht. clear -Hnone.
  unfold total. induction Hnone as [|r rs Hr Hnone [IH1 IH2]]; [done|].
  csimpl. unfold booked_cost at 1, booked_tokens at 1. rewrite Hr, filter_cons.
  case_decide as Hd; destruct (req_recorded r); csimpl; try done; lia.
Qed.
End ledger.

(** ** Two requests on one manager *)
Definition demo_quota : HostQuota := mkHostQuota ONE_DOLLAR 1000 10 ∅.
Definition demo_request (cost tokens used_c used_t : Z) : Request :=
  request_new (graph_for (mk_NanoUSD cost) tokens) (mk_NanoUSD used_c, used_t).
Lemma quota_ledger_exact_witness :
  let reqs := [demo_request 500 10 300 7; demo_request 900 20 1100 30] in
  let m1 := (try_reserve (manager_new demo_quota) (graph_for (mk_NanoUSD 500) 10)).2 in
  let m2 := (try_reserve m1 (graph_for (mk_NanoUSD 900) 20)).2 in
  let m3 := manager_record_usage m2 (mk_NanoUSD 300) 7 in
  let m4 := release m3 (graph_for (mk_NanoUSD 500) 10) in
  used_cost m4 = 300 + 900 ∧ used_tokens m4 = 7 + 20.
Proof.
  intros reqs m1 m2 m3 m4.
  destruct (quota_ledger_exact (manager_new demo_quota) reqs
    (m4, [mkRequest (graph_for (mk_NanoUSD 500) 10) (mk_NanoUSD 300, 7) true false true;
          mkRequest (graph_for (mk_NanoUSD 900) 20) (mk_NanoUSD 1100, 30) true true false]))
    as (Hc & Ht & _).
  - unfold hm_ok, default_resource_manager, manager_ok, valid_usd; csimpl. unfold_ints; lia.
  - repeat constructor; csimpl; unfold valid_usd; csimpl; unfold_ints; lia.
  - repeat constructor.
  - vm_compute. intros E; discriminate E.
  - vm_compute. intros E; discriminate E.
  - eapply rtc_l; [eapply (ledger_step_intro _ m1 _ 0); [reflexivity|by constructor]|].
    eapply rtc_l; [eapply (ledger_step_intro _ m2 _ 1); [reflexivity|by constructor]|].
    eapply rtc_l; [eapply (ledger_step_intro _ m3 _ 0); [reflexivity|exact (step_record m2 (graph_for (mk_NanoUSD 500) 10) (mk_NanoUSD 300, 7) true)]|].
    eapply rtc_l; [eapply (ledger_step_intro _ m4 _ 0); [reflexivity|exact (step_release m3 (graph_for (mk_NanoUSD 500) 10) (mk_NanoUSD 300, 7) true)]|].
    reflexivity.
  - split; [exact Hc|exact Ht].
Defined.
