(* ===== verification/MeteredStream.v ===== *)
(** * Metered streaming ([src/resource/stream_meter.rs], [cancelling_stream.rs])

    A streamed response passes through [MeteredStream]: every chunk goes
    through the [StreamMeter], the change of the running totals is charged to
    (or refunded from) the request's [BudgetEnvelope], and whatever ends the
    stream (completion, an error, a breach, cancellation, a poisoned lock, or
    dropping it) releases the reservation and then reports the measured usage,
    once. A poll of the stream is a function of the answer of the stream
    behind it; the sequence of polls, cancellations and the final drop is an
    explicit list of operations. *)
From S2P Require Import Prelude Money Budget Json ExecTypes Graphs WorkQueue Scheduler HostResource.

(** ** The meter *)
Record ModelPricing := mkModelPricing { input_cost_per_1k : NanoUSD; output_cost_per_1k : NanoUSD }.
Record ChatStreamChunk := mkChunk {
  ck_content : option string;
  ck_finish_reason : option string;
  ck_usage : option Usage;
}.
(** [Instant]s are in nanoseconds. *)
Record StreamMeter := mkMeter {
  sm_prompt_tokens : Z;
  sm_completion_tokens : Z;
  first_chunk_at : option Z;
  last_chunk_at : option Z;
  stream_started_at : Z;
  sm_cost : NanoUSD;
  finalized : bool;
}.
Definition meter_new (now : Z) : StreamMeter := mkMeter 0 0 None None now ZERO false.

Definition estimate_tokens (s : string) : Z := (Z.of_nat (String.length s) + 3) `div` 4.
(** In [u128], so only the final conversion can lose anything. *)
Definition nanos_for_tokens (tokens : Z) (nanos_per_1k_tokens : NanoUSD) : Z :=
  Z.min ((tokens * as_nanos nanos_per_1k_tokens + 500) `div` 1000) u64_max.

(** The unchecked [+] of the source is the release build's, which wraps. *)
Definition update_cost (pricing : option ModelPricing) (m : StreamMeter) : StreamMeter :=
  match pricing with
  | None => m
  | Some p =>
      mkMeter (sm_prompt_tokens m) (sm_completion_tokens m) (first_chunk_at m) (last_chunk_at m)
        (stream_started_at m)
        (mk_NanoUSD (u64_wrapping_add (nanos_for_tokens (sm_prompt_tokens m) (input_cost_per_1k p))
                       (nanos_for_tokens (sm_completion_tokens m) (output_cost_per_1k p))))
        (finalized m)
  end.

(** The counters after a chunk: a usage report replaces the estimates. *)
Definition count_chunk (chunk : ChatStreamChunk) (m : StreamMeter) : StreamMeter :=
  match ck_usage chunk with
  | Some u =>
      mkMeter (prompt_tokens u) (completion_tokens u) (first_chunk_at m) (last_chunk_at m)
        (stream_started_at m) (sm_cost m) true
  | None =>
      match ck_content chunk with
      | Some c =>
          mkMeter (sm_prompt_tokens m) (u64_wrapping_add (sm_completion_tokens m) (estimate_tokens c))
            (first_chunk_at m) (last_chunk_at m) (stream_started_at m) (sm_cost m) (finalized m)
      | None => m
      end
  end.
Definition touch (now : Z) (m : StreamMeter) : StreamMeter :=
  mkMeter (sm_prompt_tokens m) (sm_completion_tokens m)
    (match first_chunk_at m with None => Some now | Some t => Some t end) (Some now)
    (stream_started_at m) (sm_cost m) (finalized m).
Definition record_chunk (now : Z) (chunk : ChatStreamChunk) (pricing : option ModelPricing)
    (m : StreamMeter) : StreamMeter :=
  if finalized m then m else update_cost pricing (touch now (count_chunk chunk m)).

Record StreamMeterReport := mkReport {
  rp_prompt_tokens : Z;
  rp_completion_tokens : Z;
  rp_total_tokens : Z;
  rp_cost : NanoUSD;
  ttfb_ms : option Z;
  total_duration_ms : option Z;
}.
Definition set_finalized (m : StreamMeter) : StreamMeter :=
  mkMeter (sm_prompt_tokens m) (sm_completion_tokens m) (first_chunk_at m) (last_chunk_at m)
    (stream_started_at m) (sm_cost m) true.
Definition since_start (m : StreamMeter) (t : Z) : Z :=
  (Z.max 0 (t - stream_started_at m) `div` 1000000) `mod` 2 ^ 64.
Definition finalize (pricing : option ModelPricing) (m : StreamMeter) : StreamMeterReport * StreamMeter :=
  let m := if finalized m then m else set_finalized (update_cost pricing m) in
  (mkReport (sm_prompt_tokens m) (sm_completion_tokens m)
     (u64_wrapping_add (sm_prompt_tokens m) (sm_completion_tokens m)) (sm_cost m)
     (since_start m <$> first_chunk_at m) (since_start m <$> last_chunk_at m), m).
Definition empty_report : StreamMeterReport := mkReport 0 0 0 ZERO None None.

(** ** The stream *)
Inductive StreamError :=
| StreamUpstream (e : string)
| StreamPoisoned
| StreamBreached (e : BudgetExceededError).
(** What the stream behind answers to a poll, and what this one answers. *)
Inductive InnerPoll := InPending | InChunk (c : ChatStreamChunk) | InError (e : string) | InEnd.
Inductive Polled := Pending_ | Item (r : result StreamError ChatStreamChunk) | Ended.
(** What the stream does to the world besides its envelope. *)
Inductive StreamEvent := GuardDropped (g : ResourceGuard) | Finished (r : StreamMeterReport).

Record StreamState := mkStream {
  ss_cancelled : bool;
  ss_meter : StreamMeter;
  ss_poisoned : bool;
  ss_guard : option ResourceGuard;
  ss_hook : bool;
  prev_cost_nanos : option Z;
  prev_tokens : option Z;
  ss_env : Counters;
  ss_events : list StreamEvent;
}.

Section stream.
Context (pricing : option ModelPricing) (envelope : option Ceilings).

Definition metered_stream (now : Z) (guard : ResourceGuard) (c : Counters) : StreamState :=
  mkStream false (meter_new now) false (Some guard) true None None c [].

Definition meter_tokens (m : StreamMeter) : Z :=
  u64_wrapping_add (sm_prompt_tokens m) (sm_completion_tokens m).

(** The envelope's share of a chunk: the breach, the totals to remember, and
    the counters. *)
Definition charge (ceil : Ceilings) (prev_cost prev_tok cur_cost cur_tok : Z) (c : Counters)
    : option BudgetExceededError * option (Z * Z) * Counters :=
  let delta_cost := cur_cost - prev_cost in
  let delta_tokens := cur_tok - prev_tok in
  if ((0 <? delta_cost)%Z || (0 <? delta_tokens)%Z) then
    match record_and_check ceil (mk_NanoUSD (Z.max delta_cost 0)) (Z.max delta_tokens 0) c with
    | (Err e, c) => (Some e, None, c)
    | (Ok _, c) => (None, Some (cur_cost, cur_tok), c)
    end
  else if ((delta_cost <? 0)%Z || (delta_tokens <? 0)%Z) then
    (None, Some (cur_cost, cur_tok),
     reconcile_refund (mk_NanoUSD (Z.max (- delta_cost) 0)) (Z.max (- delta_tokens) 0) c)
  else (None, Some (cur_cost, cur_tok), c).

Definition cancel_token (s : StreamState) : StreamState :=
  mkStream true (ss_meter s) (ss_poisoned s) (ss_guard s) (ss_hook s) (prev_cost_nanos s)
    (prev_tokens s) (ss_env s) (ss_events s).
Definition release_guard (s : StreamState) : StreamState :=
  match ss_guard s with
  | None => s
  | Some g =>
      mkStream (ss_cancelled s) (ss_meter s) (ss_poisoned s) None (ss_hook s) (prev_cost_nanos s)
        (prev_tokens s) (ss_env s) (ss_events s ++ [GuardDropped g])
  end.

(** The envelope settled to the final report. *)
Definition reconcile (s : StreamState) (report : StreamMeterReport) : Counters :=
  match envelope with
  | None => ss_env s
  | Some ceil =>
      let told_cost := default 0 (prev_cost_nanos s) in
      let told_tok := default 0 (prev_tokens s) in
      let final_cost := as_nanos (rp_cost report) in
      let final_tok := rp_total_tokens report in
      if ((final_cost <? told_cost)%Z || (final_tok <? told_tok)%Z)
      then reconcile_refund (mk_NanoUSD (told_cost -^ final_cost)%u64) (told_tok -^ final_tok)%u64 (ss_env s)
      else (record_and_check ceil (mk_NanoUSD (final_cost -^ told_cost)%u64)
              (final_tok -^ told_tok)%u64 (ss_env s)).2
  end.
Definition fire_finish_hook (s : StreamState) : StreamState :=
  if ss_hook s then
    let '(report, meter) :=
      if ss_poisoned s then (empty_report, ss_meter s) else finalize pricing (ss_meter s) in
    mkStream (ss_cancelled s) meter (ss_poisoned s) (ss_guard s) false (prev_cost_nanos s)
      (prev_tokens s) (reconcile s report) (ss_events s ++ [Finished report])
  else s.
Definition settle_stream (s : StreamState) : StreamState := fire_finish_hook (release_guard s).

(** A chunk, under the meter's lock. *)
Definition meter_chunk (now : Z) (chunk : ChatStreamChunk) (s : StreamState)
    : option BudgetExceededError * StreamState :=
  let m := record_chunk now chunk pricing (ss_meter s) in
  match envelope with
  | None =>
      (None, mkStream (ss_cancelled s) m (ss_poisoned s) (ss_guard s) (ss_hook s) (prev_cost_nanos s)
               (prev_tokens s) (ss_env s) (ss_events s))
  | Some ceil =>
      let '(breach, seen, c) :=
        charge ceil (default 0 (prev_cost_nanos s)) (default 0 (prev_tokens s))
          (as_nanos (sm_cost m)) (meter_tokens m) (ss_env s) in
      (breach,
       mkStream (ss_cancelled s) m (ss_poisoned s) (ss_guard s) (ss_hook s)
         (match seen with Some (cost, _) => Some cost | None => prev_cost_nanos s end)
         (match seen with Some (_, tok) => Some tok | None => prev_tokens s end) c (ss_events s))
  end.

Definition poll_next (now : Z) (inner : InnerPoll) (s : StreamState) : Polled * StreamState :=
  if ss_cancelled s then (Ended, settle_stream s)
  else match inner with
    | InPending => (Pending_, s)
    | InEnd => (Ended, settle_stream s)
    | InError e => (Item (Err (StreamUpstream e)), settle_stream s)
    | InChunk chunk =>
        if ss_poisoned s then (Item (Err StreamPoisoned), settle_stream (cancel_token s))
        else match meter_chunk now chunk s with
          | (Some e, s) => (Item (Err (StreamBreached e)), settle_stream (cancel_token s))
          | (None, s) => (Item (Ok chunk), s)
          end
    end.
Definition stream_drop (s : StreamState) : StreamState := settle_stream (cancel_token s).

(** What may happen to a stream: polls, a cancellation from outside, a panic
    of another holder of the meter's lock, and the drop. *)
Inductive StreamOp := SPoll (now : Z) (inner : InnerPoll) | SCancel | SPoison | SDrop.
Definition stream_step (s : StreamState) (op : StreamOp) : StreamState :=
  match op with
  | SPoll now inner => (poll_next now inner s).2
  | SCancel => cancel_token s
  | SPoison =>
      mkStream (ss_cancelled s) (ss_meter s) true (ss_guard s) (ss_hook s) (prev_cost_nanos s)
        (prev_tokens s) (ss_env s) (ss_events s)
  | SDrop => stream_drop s
  end.

Definition run_stream (s : StreamState) (ops : list StreamOp) : StreamState := foldl stream_step s ops.

(** ** Settling *)

(** A stream that has not settled has done nothing to the world; one that has
    settled dropped its guard and then reported, and its meter is closed. *)
Definition unsettled (g : ResourceGuard) (s : StreamState) : Prop :=
  ss_guard s = Some g ∧ ss_hook s = true ∧ ss_events s = [].
Definition settled (g : ResourceGuard) (r : StreamMeterReport) (s : StreamState) : Prop :=
  ss_guard s = None ∧ ss_hook s = false ∧ ss_events s = [GuardDropped g; Finished r] ∧
  (ss_poisoned s = false → finalized (ss_meter s) = true ∧ (finalize pricing (ss_meter s)).1 = r).

Lemma settle_settled g r s : settled g r s → settle_stream s = s.
Proof.
  intros (Hg & Hh & _). unfold settle_stream, fire_finish_hook, release_guard. rewrite Hg. by rewrite Hh.
Qed.
Lemma finalize_closed m : finalized (finalize pricing m).2 = true.
Proof. unfold finalize. csimpl. by destruct (finalized m) eqn:E. Qed.
Lemma finalize_again m : (finalize pricing (finalize pricing m).2).1 = (finalize pricing m).1.
Proof.
  unfold finalize at 1. rewrite finalize_closed. unfold finalize. by destruct (finalized m) eqn:E.
Qed.
Lemma settle_unsettled g s : unsettled g s → ∃ r, settled g r (settle_stream s).
Proof.
  intros (Hg & Hh & He). unfold settle_stream, release_guard. rewrite Hg.
  unfold fire_finish_hook; csimpl. rewrite Hh, He.
  destruct (ss_poisoned s) eqn:Hp.
  - exists empty_report. unfold settled; csimpl. split_and!; try done; congruence.
  - destruct (finalize pricing (ss_meter s)) as [r m] eqn:Hf. exists r. unfold settled; csimpl.
    split_and!; try done. intros _. pose proof (finalize_closed (ss_meter s)) as H1.
    pose proof (finalize_again (ss_meter s)) as H2. rewrite Hf in H1, H2. done.
Qed.
Lemma settle_either g s :
  unsettled g s ∨ (∃ r, settled g r s) → ∃ r, settled g r (settle_stream s) ∧ (∀ r', settled g r' s → r = r').
Proof.
  intros [Hu|[r Hr]].
  - destruct (settle_unsettled g s Hu) as [r Hr]. exists r. split; [done|].
    intros r' (_ & Hh & _). destruct Hu as (_ & Hu & _). congruence.
  - exists r. rewrite (settle_settled g r s Hr). split; [done|].
    intros r' (_ & _ & He & _). destruct Hr as (_ & _ & He' & _). rewrite He in He'. by injection He'.
Qed.

Lemma cancel_either g r s :
  (unsettled g s → unsettled g (cancel_token s)) ∧ (settled g r s → settled g r (cancel_token s)).
Proof. by destruct s. Qed.

Lemma meter_chunk_keeps now chunk s b s' g :
  meter_chunk now chunk s = (b, s') → ss_poisoned s = false →
  ss_poisoned s' = false ∧ ss_cancelled s' = ss_cancelled s ∧ (unsettled g s → unsettled g s') ∧
  (∀ r, settled g r s → settled g r s').
Proof.
  unfold meter_chunk, unsettled, settled. intros Hm Hp.
  assert (∀ r, (ss_poisoned s = false → finalized (ss_meter s) = true ∧ (finalize pricing (ss_meter s)).1 = r) →
    finalized (record_chunk now chunk pricing (ss_meter s)) = true ∧
    (finalize pricing (record_chunk now chunk pricing (ss_meter s))).1 = r) as Hrec.
  { intros r Hr. destruct (Hr Hp) as [Hf Hr']. unfold record_chunk. by rewrite Hf. }
  destruct envelope as [ceil|].
  - destruct (charge _ _ _ _ _ _) as [[breach seen] c]. injection Hm as <- <-; csimpl.
    split_and!; try done. intros r (? & ? & ? & ?). split_and!; auto.
  - injection Hm as <- <-; csimpl. split_and!; try done. intros r (? & ? & ? & ?). split_and!; auto.
Qed.

Lemma poll_either g now inner s :
  unsettled g s ∨ (∃ r, settled g r s) →
  let s' := (poll_next now inner s).2 in
  (unsettled g s' ∨ ∃ r, settled g r s') ∧ (∀ r, settled g r s → settled g r s').
Proof.
  intros Hs. unfold poll_next.
  assert (∀ s1, (unsettled g s → unsettled g s1) → (∀ r, settled g r s → settled g r s1) →
    (unsettled g (settle_stream s1) ∨ ∃ r, settled g r (settle_stream s1)) ∧
    (∀ r, settled g r s → settled g r (settle_stream s1))) as Hsettle.
  { intros s1 Hu Hr. destruct (settle_either g s1) as (r & Hr1 & Huniq).
    { destruct Hs as [?|[r ?]]; [left; auto|right; exists r; auto]. }
    split; [right; by exists r|]. intros r' Hr'. rewrite <- (Huniq r'); auto. }
  destruct (ss_cancelled s); [by apply Hsettle|].
  destruct inner as [|chunk|e|]; try by apply Hsettle; [done|..].
  - split; [|done]. csimpl. done.
  - destruct (ss_poisoned s) eqn:Hp.
    { apply Hsettle; [apply (cancel_either g empty_report)|]. intros r. apply cancel_either. }
    destruct (meter_chunk now chunk s) as [[e|] s'] eqn:Hm;
      destruct (meter_chunk_keeps now chunk s _ s' g Hm Hp) as (_ & _ & Hu & Hr); csimpl.
    + apply Hsettle; [intros; by apply (cancel_either g empty_report), Hu|].
      intros r ?. by apply cancel_either, Hr.
    + split; [|done]. destruct Hs as [?|[r ?]]; [left; auto|right; exists r; auto].
Qed.

Lemma step_either g op s :
  unsettled g s ∨ (∃ r, settled g r s) →
  unsettled g (stream_step s op) ∨ ∃ r, settled g r (stream_step s op).
Proof.
  intros Hs. destruct op as [now inner| | |]; csimpl.
  - by apply poll_either.
  - destruct Hs as [Hs|[r Hs]]; [left|right; exists r]; by apply (cancel_either g empty_report) || by apply cancel_either.
  - destruct Hs as [Hs|[r (? & ? & ? & ?)]]; [by left|right; exists r]. by split_and!.
  - right. unfold stream_drop. destruct (settle_either g (cancel_token s)) as (r & ? & _); [|by exists r].
    destruct Hs as [Hs|[r Hs]]; [left; by apply (cancel_either g empty_report)|right; exists r; by apply cancel_either].
Qed.

(** However a stream is polled, cancelled or poisoned, once it is dropped its
    guard has been dropped exactly once and its usage reported exactly once,
    in this order; with the meter intact the report is the meter's. *)
Theorem stream_settles_once now g c ops :
  let s := run_stream (metered_stream now g c) (ops ++ [SDrop]) in
  ∃ r, ss_events s = [GuardDropped g; Finished r] ∧
    (ss_poisoned s = false → (finalize pricing (ss_meter s)).1 = r).
Proof.
  intros s. subst s. unfold run_stream. rewrite foldl_app. csimpl.
  assert (unsettled g (foldl stream_step (metered_stream now g c) ops) ∨
    ∃ r, settled g r (foldl stream_step (metered_stream now g c) ops)) as Hs.
  { generalize (metered_stream now g c) (or_introl (∃ r, settled g r (metered_stream now g c))
      (conj eq_refl (conj eq_refl eq_refl) : unsettled g (metered_stream now g c))).
    induction ops as [|op ops IH]; intros s Hs; csimpl; [done|]. by apply IH, step_either. }
  destruct (settle_either g (cancel_token (foldl stream_step (metered_stream now g c) ops))) as (r & Hr & _).
  { destruct Hs as [Hs|[r Hs]]; [left; by apply (cancel_either g empty_report)|right; exists r; by apply cancel_either]. }
  destruct Hr as (_ & _ & He & Hf). exists r. split; [done|]. intros Hp. by apply Hf.
Qed.

(** ** The envelope follows the meter *)
Definition pricing_ok : Prop :=
  ∀ p, pricing = Some p → valid_usd (input_cost_per_1k p) ∧ valid_usd (output_cost_per_1k p).
(** Counters in range, and the cost is the price of the counters. *)
Definition meter_ok (m : StreamMeter) : Prop :=
  is_u64 (sm_prompt_tokens m) ∧ is_u64 (sm_completion_tokens m) ∧ valid_usd (sm_cost m) ∧
  update_cost pricing m = m.
Definition chunk_ok (ch : ChatStreamChunk) : Prop :=
  ∀ u, ck_usage ch = Some u → is_u32 (prompt_tokens u) ∧ is_u32 (completion_tokens u).

Lemma wrapping_u64 a b : is_u64 (u64_wrapping_add a b).
Proof. unfold_ints. pose proof (Z.mod_pos_bound (a + b) (2 ^ 64)). lia. Qed.
Lemma meter_tokens_u64 m : is_u64 (meter_tokens m).
Proof. apply wrapping_u64. Qed.

Lemma update_cost_idem m : update_cost pricing (update_cost pricing m) = update_cost pricing m.
Proof. by destruct pricing. Qed.
Lemma update_cost_valid m : valid_usd (sm_cost m) → valid_usd (sm_cost (update_cost pricing m)).
Proof. destruct pricing; [intros _; apply wrapping_u64|done]. Qed.

Lemma record_chunk_ok now ch m : chunk_ok ch → meter_ok m → meter_ok (record_chunk now ch pricing m).
Proof.
  intros Hch (Hp & Hc & Hv & Hu). unfold record_chunk. destruct (finalized m); [done|].
  unfold meter_ok. rewrite update_cost_idem.
  assert (is_u64 (sm_prompt_tokens (count_chunk ch m)) ∧ is_u64 (sm_completion_tokens (count_chunk ch m)) ∧
          sm_cost (count_chunk ch m) = sm_cost m) as (H1 & H2 & H3).
  { unfold count_chunk. destruct (ck_usage ch) as [u|] eqn:E; csimpl.
    - destruct (Hch u E). unfold_ints. split_and!; (done || lia).
    - destruct (ck_content ch); csimpl; split_and!; auto using wrapping_u64. }
  split_and!; [by destruct pricing..| |done].
  apply update_cost_valid. csimpl. by rewrite H3.
Qed.

Lemma meter_closed_ok m : meter_ok m → finalized m = false → meter_ok (set_finalized m).
Proof.
  intros (? & ? & ? & Hu) _. split_and!; try done. destruct m, pricing; [|done].
  unfold update_cost, set_finalized in *; csimpl in *. by injection Hu as ->.
Qed.
Lemma finalize_ok m :
  meter_ok m →
  meter_ok (finalize pricing m).2 ∧ sm_cost (finalize pricing m).2 = sm_cost m ∧
  meter_tokens (finalize pricing m).2 = meter_tokens m ∧
  rp_cost (finalize pricing m).1 = sm_cost m ∧ rp_total_tokens (finalize pricing m).1 = meter_tokens m.
Proof.
  intros Hm. pose proof Hm as (_ & _ & _ & Hu). unfold finalize. csimpl.
  destruct (finalized m) eqn:Hf; [by split_and!|]. rewrite Hu. split_and!; try done.
  by apply meter_closed_ok.
Qed.

Section accounting.
Context (ceil : Ceilings) (c0 : Counters).
Hypothesis Henv : envelope = Some ceil.
Hypothesis Hceil : ceilings_ok ceil.
Hypothesis Hc0 : is_u64 (c_cost c0) ∧ is_u64 (c_tokens c0).

(** The envelope holds what it held before the stream and the meter's totals,
    and the stream remembers having told it so. *)
Record tracks (s : StreamState) : Prop := {
  tr_meter : meter_ok (ss_meter s);
  tr_intact : ss_poisoned s = false;
  tr_prev_cost : default 0 (prev_cost_nanos s) = nanos (sm_cost (ss_meter s));
  tr_prev_tokens : default 0 (prev_tokens s) = meter_tokens (ss_meter s);
  tr_cost : c_cost (ss_env s) = c_cost c0 + nanos (sm_cost (ss_meter s));
  tr_tokens : c_tokens (ss_env s) = c_tokens c0 + meter_tokens (ss_meter s);
  tr_fits : c_cost (ss_env s) ≤ u64_max ∧ c_tokens (ss_env s) ≤ u64_max;
}.

(** A chunk moves both totals the same way and stays within the ceilings. *)
Definition steady (m m' : StreamMeter) : Prop :=
  (nanos (sm_cost m) ≤ nanos (sm_cost m') ∧ meter_tokens m ≤ meter_tokens m') ∨
  (nanos (sm_cost m') ≤ nanos (sm_cost m) ∧ meter_tokens m' ≤ meter_tokens m).
Definition affordable (m : StreamMeter) : Prop :=
  c_cost c0 + nanos (sm_cost m) ≤ nanos (max_cost ceil) ∧
  c_tokens c0 + meter_tokens m ≤ max_tokens ceil.
Definition good_op (s : StreamState) (op : StreamOp) : Prop :=
  match op with
  | SPoll now (InChunk ch) =>
      let m' := record_chunk now ch pricing (ss_meter s) in
      chunk_ok ch ∧ steady (ss_meter s) m' ∧ affordable m'
  | _ => True
  end.
Fixpoint good_run (s : StreamState) (ops : list StreamOp) : Prop :=
  match ops with
  | [] => True
  | op :: ops => good_op s op ∧ good_run (stream_step s op) ops
  end.

Lemma charge_steady pc pt cc ct c :
  (pc ≤ cc ∧ pt ≤ ct) ∨ (cc ≤ pc ∧ ct ≤ pt) → 0 ≤ pc → 0 ≤ pt → is_u64 cc → is_u64 ct →
  is_u64 (c_cost c) → is_u64 (c_tokens c) → pc ≤ c_cost c → pt ≤ c_tokens c →
  c_cost c - pc + cc ≤ nanos (max_cost ceil) → c_tokens c - pt + ct ≤ max_tokens ceil →
  ∃ c', charge ceil pc pt cc ct c = (None, Some (cc, ct), c') ∧
    c_cost c' = c_cost c - pc + cc ∧ c_tokens c' = c_tokens c - pt + ct.
Proof using Hceil.
  intros Hdir ??????????. destruct Hceil as [Hmc Hmt _]. unfold valid_usd in *. unfold charge.
  destruct ((0 <? cc - pc)%Z || (0 <? ct - pt)%Z) eqn:Hup.
  - unfold record_and_check.
    destruct (ceiling_verdict _ _ _ _ _ _ _) as [[]|e] eqn:Hv; csimpl in *.
    + eexists. split; [done|]. csimpl. unfold as_nanos; csimpl. unfold_ints. lia.
    + exfalso. assert (ceiling_verdict ceil (mk_NanoUSD (Z.max (cc - pc) 0)) (Z.max (ct - pt) 0)
        (c_cost c) (c_tokens c) (c_cost c +^ Z.max (cc - pc) 0)%u64
        (c_tokens c +^ Z.max (ct - pt) 0)%u64 = Ok tt) as Hok.
      { apply ceiling_verdict_ok. csimpl. unfold_ints. lia. }
      unfold as_nanos in Hv; csimpl in Hv. by rewrite Hok in Hv.
  - destruct ((cc - pc <? 0)%Z || (ct - pt <? 0)%Z) eqn:Hdn.
    + eexists. split; [done|]. csimpl. unfold as_nanos; csimpl. unfold_ints. lia.
    + eexists. split; [done|]. lia.
Qed.

Lemma settle_tracks s : tracks s → tracks (settle_stream s).
Proof using Henv Hceil Hc0.
  intros [Hm Hp Hpc Hpt Hc Ht Hfit].
  assert (tracks (release_guard s)) as Hrel by (unfold release_guard; destruct (ss_guard s); by split).
  unfold settle_stream. revert Hrel. generalize (release_guard s). clear s Hm Hp Hpc Hpt Hc Ht Hfit.
  intros s Hs. pose proof Hs as [Hm Hp Hpc Hpt Hc Ht Hfit]. unfold fire_finish_hook.
  destruct (ss_hook s); [|done]. rewrite Hp. destruct (finalize_ok _ Hm) as (Hm' & Hcost & Htok & Hrc & Hrt).
  destruct (finalize pricing (ss_meter s)) as [r m']. csimpl in *.
  assert (c_cost (reconcile s r) = c_cost (ss_env s) ∧ c_tokens (reconcile s r) = c_tokens (ss_env s)) as [E1 E2].
  { unfold reconcile. rewrite Henv, Hpc, Hpt, Hrc, Hrt. unfold as_nanos. rewrite !Z.ltb_irrefl. csimpl.
    unfold as_nanos; csimpl. destruct Hc0. pose proof (meter_tokens_u64 (ss_meter s)).
    destruct Hm as (_ & _ & Hv & _). unfold valid_usd in Hv. unfold_ints. lia. }
  split; csimpl; try done; rewrite ?Hcost, ?Htok, ?E1, ?E2; done.
Qed.

Lemma step_tracks s op : op ≠ SPoison → good_op s op → tracks s → tracks (stream_step s op).
Proof using Henv Hceil Hc0.
  intros Hnp Hg Hs. assert (tracks (cancel_token s)) as Hcan by by destruct Hs.
  destruct op as [now inner| | |]; csimpl; [|done|done|by apply settle_tracks].
  unfold poll_next. destruct (ss_cancelled s); [by apply settle_tracks|].
  destruct inner as [|ch|e|]; csimpl; [done| |by apply settle_tracks..].
  pose proof Hs as [Hm Hp Hpc Hpt Hc Ht [Hfc Hft]]. rewrite Hp. destruct Hg as (Hch & Hdir & Hac & Hat).
  pose proof (record_chunk_ok now ch _ Hch Hm) as Hm'. unfold meter_chunk. rewrite Henv, Hpc, Hpt.
  set (m' := record_chunk now ch pricing (ss_meter s)) in *. clearbody m'. unfold as_nanos.
  pose proof (meter_tokens_u64 m'). pose proof (meter_tokens_u64 (ss_meter s)). destruct Hc0.
  pose proof Hm as (_ & _ & Hv & _). pose proof Hm' as (_ & _ & Hv' & _). unfold valid_usd in *.
  destruct Hceil as [Hmc Hmt _]. unfold valid_usd in *.
  destruct (charge_steady (nanos (sm_cost (ss_meter s))) (meter_tokens (ss_meter s))
    (nanos (sm_cost m')) (meter_tokens m') (ss_env s)) as (c' & -> & Ec & Et);
    try done; try (unfold_ints; lia).
  csimpl. split; csimpl; try done; unfold_ints; lia.
Qed.

(** With the meter's lock poisoned the stream still knows what it told the
    envelope; it reports nothing and takes that back. *)
Definition books (s : StreamState) (cost tok : Z) : Prop :=
  c_cost (ss_env s) = c_cost c0 + cost ∧ c_tokens (ss_env s) = c_tokens c0 + tok.
Definition told (s : StreamState) : Prop :=
  let cost := default 0 (prev_cost_nanos s) in
  let tok := default 0 (prev_tokens s) in
  0 ≤ cost ∧ 0 ≤ tok ∧ books s cost tok ∧ c_cost (ss_env s) ≤ u64_max ∧ c_tokens (ss_env s) ≤ u64_max.
Definition accounted (g : ResourceGuard) (s : StreamState) : Prop :=
  tracks s ∨
  ss_poisoned s = true ∧
    (unsettled g s ∧ told s ∨ ∃ r, settled g r s ∧ books s (nanos (rp_cost r)) (rp_total_tokens r)).

Lemma tracks_told s : tracks s → told s.
Proof using Hc0.
  intros [Hm _ Hpc Hpt Hc Ht [Hfc Hft]]. unfold told, books. rewrite Hpc, Hpt.
  destruct Hm as (_ & _ & Hv & _). pose proof (meter_tokens_u64 (ss_meter s)). unfold valid_usd in Hv.
  unfold_ints. lia.
Qed.
Lemma tracks_settled g r s : tracks s → settled g r s → books s (nanos (rp_cost r)) (rp_total_tokens r).
Proof using Type.
  intros [Hm Hp _ _ Hc Ht _] (_ & _ & _ & Hr). destruct (Hr Hp) as [_ <-].
  destruct (finalize_ok _ Hm) as (_ & _ & _ & -> & ->). done.
Qed.

Lemma poisoned_settles g s :
  ss_poisoned s = true → unsettled g s → told s →
  settled g empty_report (settle_stream s) ∧ ss_poisoned (settle_stream s) = true ∧ books (settle_stream s) 0 0.
Proof using Henv Hc0.
  intros Hp (Hg & Hh & He) (Hpc & Hpt & [Hc Ht] & Hfc & Hft).
  unfold settle_stream, release_guard. rewrite Hg. unfold fire_finish_hook. csimpl. rewrite Hh, He, Hp. csimpl.
  split; [|split; [done|]].
  - unfold settled. csimpl. by split_and!.
  - unfold books, reconcile. rewrite Henv. csimpl. unfold as_nanos. csimpl. destruct Hc0.
    set (cost := default 0 (prev_cost_nanos s)) in *. set (tok := default 0 (prev_tokens s)) in *.
    destruct ((0 <? cost) || (0 <? tok)) eqn:Hlt; csimpl; unfold as_nanos; csimpl; unfold_ints; lia.
Qed.
Lemma poisoned_kept g r s op :
  ss_poisoned s = true → settled g r s →
  let s' := stream_step s op in ss_poisoned s' = true ∧ settled g r s' ∧ ss_env s' = ss_env s.
Proof using Type.
  intros Hp Hs. pose proof (proj2 (cancel_either g r s) Hs) as Hcan.
  pose proof (settle_settled g r s Hs) as E1. pose proof (settle_settled g r _ Hcan) as E2.
  destruct op as [now inner| | |]; csimpl.
  - unfold poll_next. rewrite Hp. destruct (ss_cancelled s), inner; csimpl; rewrite ?E1, ?E2; done.
  - done.
  - destruct Hs as (? & ? & ? & ?). by split_and!.
  - unfold stream_drop. by rewrite E2.
Qed.

Lemma step_accounted g s op :
  unsettled g s ∨ (∃ r, settled g r s) → good_op s op → accounted g s → accounted g (stream_step s op).
Proof using Henv Hceil Hc0.
  intros Heither Hg [Hs|(Hp & [[Hu Ht]|(r & Hr & Hb)])].
  - assert (op = SPoison ∨ op ≠ SPoison) as [->|Hne] by (destruct op; auto); [|left; by apply step_tracks].
    right. split; [done|].
    destruct Heither as [Hu|[r Hr]].
    + left. split; [done|]. exact (tracks_told s Hs).
    + right. exists r. split; [|by apply (tracks_settled g r s)]. destruct Hr as (? & ? & ? & _). by split_and!.
  - assert (∀ s1, ss_poisoned s1 = true → unsettled g s1 → told s1 → accounted g (settle_stream s1)) as Hsettle.
    { intros s1 H1 H2 H3. destruct (poisoned_settles g s1 H1 H2 H3) as (H4 & H5 & H6). right. split; [done|].
      right. by exists empty_report. }
    assert (accounted g s) as Hsame by (right; split; [done|]; by left).
    pose proof (proj1 (cancel_either g empty_report s) Hu) as Hcan.
    destruct op as [now inner| | |]; csimpl.
    + unfold poll_next. rewrite Hp. destruct (ss_cancelled s), inner; csimpl; try done; by apply Hsettle.
    + right. split; [done|]. by left.
    + right. split; [done|]. by left.
    + by apply Hsettle.
  - destruct (poisoned_kept g r s op Hp Hr) as (H1 & H2 & H3). right. split; [done|]. right. exists r.
    split; [done|]. unfold books. by rewrite H3.
Qed.

(** C18. The envelope is settled to the truth. A stream whose chunks move cost and
    tokens the same way and stay within the ceilings leaves in the envelope,
    whenever and however it ends, what was there before plus exactly the
    usage it reports. It may end by completion, by an upstream error, by
    cancellation, by being dropped, or because a panic poisoned the lock of its
    meter, in which case it reports nothing and takes back what it had charged. *)
Theorem envelope_settles_to_report now g ops :
  affordable (meter_new now) → good_run (metered_stream now g c0) ops →
  let s := run_stream (metered_stream now g c0) (ops ++ [SDrop]) in
  ∃ r, ss_events s = [GuardDropped g; Finished r] ∧
    c_cost (ss_env s) = c_cost c0 + nanos (rp_cost r) ∧
    c_tokens (ss_env s) = c_tokens c0 + rp_total_tokens r.
Proof using Henv Hceil Hc0.
  intros Haff Hgood s.
  assert (tracks (metered_stream now g c0)) as Hinit.
  { unfold affordable in Haff. csimpl in Haff. destruct Hceil as [Hmc Hmt _], Hc0. unfold valid_usd in *.
    assert (meter_tokens (meter_new now) = 0) as E by done.
    split; csimpl; rewrite ?E in *; try done; try (unfold_ints; lia).
    unfold meter_ok, valid_usd; csimpl. split_and!; [unfold_ints; lia..|]. by destruct pricing. }
  assert (let s1 := foldl stream_step (metered_stream now g c0) ops in
    (unsettled g s1 ∨ ∃ r, settled g r s1) ∧ accounted g s1) as [H1 H2].
  { assert (unsettled g (metered_stream now g c0) ∨ ∃ r, settled g r (metered_stream now g c0)) as Hu by by left.
    apply or_introl with (B := ss_poisoned (metered_stream now g c0) = true ∧
      (unsettled g (metered_stream now g c0) ∧ told (metered_stream now g c0) ∨
       ∃ r, settled g r (metered_stream now g c0) ∧ books (metered_stream now g c0) (nanos (rp_cost r)) (rp_total_tokens r))) in Hinit.
    fold (accounted g (metered_stream now g c0)) in Hinit.
    revert Hgood Hu Hinit. generalize (metered_stream now g c0). clear -Henv Hceil Hc0.
    induction ops as [|op ops IH]; intros s; csimpl; [done|]. intros [Hop Hops] Hu Hs.
    apply IH; [done|by apply step_either|by apply step_accounted]. }
  pose proof (step_either g SDrop _ H1) as H3. pose proof (step_accounted g _ SDrop H1 I H2) as H4.
  assert (s = stream_step (foldl stream_step (metered_stream now g c0) ops) SDrop) as Es
    by (subst s; unfold run_stream; by rewrite foldl_app).
  destruct (stream_settles_once now g c0 ops) as (r & He & _). fold s in He. exists r. split; [done|].
  rewrite <- Es in H3, H4. destruct H3 as [(_ & _ & Hnil)|[r' Hr']]; [by rewrite He in Hnil|].
  assert (r' = r) as -> by (destruct Hr' as (_ & _ & He' & _); rewrite He in He'; by injection He').
  destruct H4 as [Ht|(_ & [[(_ & _ & Hnil) _]|(r2 & Hr2 & Hb)])]; [by apply (tracks_settled g r s)|by rewrite He in Hnil|].
  assert (r2 = r) as -> by (destruct Hr2 as (_ & _ & He' & _); rewrite He in He'; by injection He'). done.
Qed.
End accounting.
End stream.

(** ** The reservation behind a stream

    [native_stream_sse] hands the request's guard to the stream and records
    the final report with the resource manager ([src/server/handlers/chat.rs]). *)
Definition apply_event (spawn_accepted : bool) (m : DefaultResourceManager) (e : StreamEvent)
    : DefaultResourceManager :=
  match e with
  | GuardDropped g => guard_drop default_try_release spawn_accepted g m
  | Finished r => manager_record_usage m (rp_cost r) (rp_total_tokens r)
  end.

(** A streamed request that was admitted leaves on the manager's books the
    usage its stream measured and nothing of its estimate, however the stream
    ended. *)
Theorem stream_books_measured_usage pricing envelope m m1 g has_rt spawn_accepted now c ops :
  manager_ok m → estimate_ok g → try_reserve m g = (true, m1) →
  used_cost m + nanos (estimate g).1 ≤ u64_max → used_tokens m + (estimate g).2 ≤ u64_max →
  let s := run_stream pricing envelope (metered_stream now (guard_new g has_rt) c) (ops ++ [SDrop]) in
  ∃ r, ss_events s = [GuardDropped (guard_new g has_rt); Finished r] ∧
    let m' := foldl (apply_event spawn_accepted) m1 (ss_events s) in
    used_cost m' = (used_cost m +^ nanos (rp_cost r))%u64 ∧
    used_tokens m' = (used_tokens m +^ rp_total_tokens r)%u64.
Proof.
  intros Hm Hg Hr Hc Ht s.
  destruct (stream_settles_once pricing envelope now (guard_new g has_rt) c ops) as (r & He & _).
  fold s in He. exists r. split; [done|]. rewrite He; csimpl. rewrite guard_drop_releases_once. cbn [committed guard_new guard_graph].
  pose proof (try_reserve_spec m g Hm Hg) as Hs. rewrite Hr in Hs. destruct Hs as (Hm1 & _ & _ & Ec & Et & _).
  destruct (release_spec m1 g Hm1 Hg) as (_ & _ & Rc & Rt). destruct Hm as (Huc & Hut & _).
  unfold manager_record_usage, add_usage, as_nanos. cbn [used_cost used_tokens].
  assert (used_cost (release m1 g) = used_cost m ∧ used_tokens (release m1 g) = used_tokens m) as [E1 E2].
  { rewrite Rc, Rt, Ec, Et. destruct Hg as [Hgc Hgt]. unfold valid_usd in *. unfold_ints. lia. }
  by rewrite E1, E2.
Qed.

(** ** Concrete streams *)
Definition text_chunk (s : string) : ChatStreamChunk := mkChunk (Some s) None None.
Definition usage_chunk (p c : Z) : ChatStreamChunk := mkChunk None (Some "stop") (Some (mkUsage p c (p + c))).
Definition nano_price : ModelPricing := mkModelPricing (mk_NanoUSD 1000) (mk_NanoUSD 1000).
Definition demo_guard : ResourceGuard := guard_new (graph_for (mk_NanoUSD 50) 40) true.
Definition small_envelope : Ceilings := mkCeilings (mk_NanoUSD 25) 25 10.

Lemma envelope_settles_to_report_witness :
  let ops := [SPoll 1 (InChunk (text_chunk "Hello world")); SPoll 2 InPending;
              SPoll 3 (InChunk (usage_chunk 1 1)); SPoll 4 InEnd] in
  let s := run_stream (Some nano_price) (Some small_envelope)
             (metered_stream 0 demo_guard (mkCounters 5 6 0)) (ops ++ [SDrop]) in
  ∃ r, ss_events s = [GuardDropped demo_guard; Finished r] ∧
    c_cost (ss_env s) = 5 + nanos (rp_cost r) ∧ c_tokens (ss_env s) = 6 + rp_total_tokens r.
Proof.
  apply (envelope_settles_to_report (Some nano_price) (Some small_envelope) small_envelope (mkCounters 5 6 0)
    eq_refl).
  - split; unfold valid_usd, small_envelope; csimpl; unfold_ints; lia.
  - csimpl. unfold_ints. lia.
  - unfold affordable. vm_compute. split; intros E; discriminate E.
  - assert (∀ a b, (a ?= b) ≠ Gt → a ≤ b) as Hle by done.
    split; [|split; [done|split; [|done]]]; unfold good_op, steady, affordable.
    + split_and!; [by intros ?|left; split; apply Hle; vm_compute; discriminate|apply Hle; vm_compute; discriminate..].
    + split_and!; [intros u [= <-]; csimpl; unfold_ints; lia|
        right; split; apply Hle; vm_compute; discriminate|apply Hle; vm_compute; discriminate..].
Defined.

Lemma stream_books_measured_usage_witness :
  let g := graph_for (mk_NanoUSD 50) 40 in
  let m := manager_new demo_quota in
  let s := run_stream (Some nano_price) None (metered_stream 0 (guard_new g true) envelope_new)
             ([SPoll 1 (InChunk (text_chunk "Hello world"))] ++ [SDrop]) in
  ∃ r, ss_events s = [GuardDropped (guard_new g true); Finished r] ∧
    let m' := foldl (apply_event false) (try_reserve m g).2 (ss_events s) in
    used_cost m' = (0 +^ nanos (rp_cost r))%u64 ∧ used_tokens m' = (0 +^ rp_total_tokens r)%u64.
Proof.
  apply (stream_books_measured_usage (Some nano_price) None (manager_new demo_quota)).
  - unfold manager_ok, valid_usd; csimpl. unfold_ints; lia.
  - split; unfold valid_usd; csimpl; unfold_ints; lia.
  - reflexivity.
  - csimpl; unfold_ints; lia.
  - csimpl; unfold_ints; lia.
Defined.

(** A chunk that breaches the envelope is charged when it is checked and,
    because the totals told to the envelope are not updated on a breach, once
    more when the stream settles. *)
Theorem breach_charges_twice :
  let s := run_stream (Some nano_price) (Some (mkCeilings ONE_DOLLAR 5 10))
             (metered_stream 0 demo_guard envelope_new)
             [SPoll 1 (InChunk (text_chunk "Hello world")); SPoll 2 (InChunk (text_chunk "and more!"));
              SDrop] in
  c_tokens (ss_env s) = 9 ∧ c_cost (ss_env s) = 9 ∧
  match ss_events s with [_; Finished r] => rp_total_tokens r = 6 ∧ nanos (rp_cost r) = 6 | _ => False end.
Proof. vm_compute. repeat split. Qed.

(** When the usage report moves cost and tokens in opposite directions, the
    one that fell is not refunded. *)
Theorem mixed_usage_is_not_refunded :
  let s := run_stream (Some (mkModelPricing (mk_NanoUSD 9000) (mk_NanoUSD 1000))) (Some small_envelope)
             (metered_stream 0 demo_guard envelope_new)
             [SPoll 1 (InChunk (text_chunk "Hello world, how are you")); SPoll 2 (InChunk (usage_chunk 1 1));
              SPoll 3 InEnd; SDrop] in
  c_cost (ss_env s) = 10 ∧ c_tokens (ss_env s) = 6 ∧
  match ss_events s with [_; Finished r] => nanos (rp_cost r) = 10 ∧ rp_total_tokens r = 2 | _ => False end.
Proof. vm_compute. repeat split. Qed.

(** An error item settles the stream without cancelling it: what the upstream
    still sends afterwards is delivered and neither metered nor charged. *)
Theorem chunks_after_error_unmetered :
  let s := run_stream (Some nano_price) (Some small_envelope) (metered_stream 0 demo_guard envelope_new)
             [SPoll 1 (InChunk (text_chunk "abcd")); SPoll 2 (InError "hiccup")] in
  let '(p, s') := poll_next (Some nano_price) (Some small_envelope) 3
                    (InChunk (text_chunk "a reply that is far beyond the whole budget of this request, a reply that is far beyond the whole budget of this request")) s in
  (∃ ch, p = Item (Ok ch)) ∧ ss_env s' = ss_env s ∧ c_tokens (ss_env s') = 1.
Proof. vm_compute. repeat split. by eexists. Qed.
