(* ===== verification/HostTypes.v ===== *)
(** * The host's request types and errors ([src/types])

    The types of the HTTP interface ([src/types/mod.rs]), the router's errors
    with their status codes and client messages ([error.rs]), and the parser
    of upstream streaming frames ([ChatStreamChunk::from_sse_data]), for which
    [serde_json]'s parser is a parameter. *)
From S2P Require Import Prelude Text Json Money ExecTypes Graphs WorkQueue Scheduler Runtime MeteredStream.
From Stdlib Require Import Floats.SpecFloat Ascii.
Open Scope stdpp_scope.
Open Scope Z_scope.

(** ** Requests and responses *)
Inductive HostIntent :=
| HQuality | HSpeed | HBalanced | HExhaustive
| HConstrained (max_latency_ms : option Z) (max_cost : option NanoUSD) (max_tokens : option Z)
    (min_confidence : option spec_float).
Record OutputPreferences := mkOutputPreferences { include_report : bool }.
Record RequestStrategy := mkRequestStrategy {
  rs_kind : string; rs_count : Z; rs_members : list string; rs_max_tool_rounds : Z }.
Record ToolDefinition := mkToolDefinition {
  td_name : string; td_description : string; td_parameters : option json }.
Record FileRef := mkFileRef { fr_name : string; fr_content : string; fr_mime_type : option string }.
Record ChatCompletionRequest := mkCompletionRequest {
  cr_model : string;
  cr_messages : list ChatMessage;
  cr_stream : bool;
  cr_temperature : option spec_float;
  cr_max_tokens : option Z;
  cr_tools : option (list ToolDefinition);
  cr_files : option (list FileRef);
  cr_execution : option HostIntent;
  cr_output : option OutputPreferences;
  cr_strategy : option RequestStrategy;
}.
Record Choice := mkChoice { ch_index : Z; ch_message : ChatMessage; ch_finish_reason : string }.
Record ChatCompletionResponse := mkCompletionResponse {
  cp_id : string;
  cp_object : string;
  cp_created : Z;
  cp_model : string;
  cp_choices : list Choice;
  cp_usage : option Usage;
  cp_native_tool_calls : option (list ToolCall);
}.
Record ContextSnapshot := mkContextSnapshot {
  cs_messages : list ChatMessage;
  cs_files : list FileRef;
  cs_tools : list ToolDefinition;
  cs_max_tokens : Z;
  cs_temperature : spec_float;
}.

#[global] Instance ChatMessage_eq_dec : EqDecision ChatMessage.
Proof. solve_decision. Defined.

(** ** Errors *)
Inductive PipelineStage :=
| ContextAssembly | RequirementsExtraction | EvidenceSnapshotStage | PlanningStage | Compilation
| ResourceReservation | Scheduling | Execution | TelemetryRecording | ResponseBuilding.
Definition stage_display (s : PipelineStage) : string :=
  match s with
  | ContextAssembly => "ContextAssembly" | RequirementsExtraction => "RequirementsExtraction"
  | EvidenceSnapshotStage => "EvidenceSnapshot" | PlanningStage => "Planning"
  | Compilation => "Compilation" | ResourceReservation => "ResourceReservation"
  | Scheduling => "Scheduling" | Execution => "Execution"
  | TelemetryRecording => "TelemetryRecording" | ResponseBuilding => "ResponseBuilding"
  end.

Inductive RouterError :=
| StageFailure (stage : PipelineStage) (request_id : Uuid) (message : string)
| ResourceExhausted (request_id : Uuid) (details : string)
| CapacityExceeded (request_id : Uuid) (details : string)
| ClientCancelled (request_id : Uuid)
| BudgetExceeded (stage : PipelineStage) (request_id : Uuid) (detail : string)
| MaxIterationsExceeded (stage : PipelineStage) (request_id : Uuid) (current max : Z)
| Internal (request_id : Uuid) (message : string)
| PolicyDenied (request_id : Uuid) (rule_id : string)
| NoRouteForModel (model : string) (available_prefixes : list string).

Definition format_prefixes (prefixes : list string) : string :=
  match prefixes with [] => "<none>" | _ => String.concat ", " prefixes end.

Definition router_error_display (e : RouterError) : string :=
  let at_ (id : Uuid) (s : string) := "[" +:+ uuid_to_string id +:+ "] " +:+ s in
  match e with
  | StageFailure stage id message =>
      at_ id ("Stage '" +:+ stage_display stage +:+ "' failed: " +:+ message)
  | ResourceExhausted id details => at_ id ("Resource quota exhausted: " +:+ details)
  | CapacityExceeded id details => at_ id ("Router capacity exceeded: " +:+ details)
  | ClientCancelled id => at_ id "Client disconnected or cancelled request"
  | BudgetExceeded _ id detail => at_ id ("Budget exceeded: " +:+ detail)
  | MaxIterationsExceeded _ id current max =>
      at_ id ("Max iterations exceeded: " +:+ fmt_u64 current +:+ " > " +:+ fmt_u64 max)
  | Internal id message => at_ id ("Internal error: " +:+ message)
  | PolicyDenied id rule_id => at_ id ("Denied by policy rule '" +:+ rule_id +:+ "'")
  | NoRouteForModel model prefixes =>
      "no route for model '" +:+ model +:+
      "': no configured provider prefix matches; configured prefixes: " +:+ format_prefixes prefixes
  end.
Definition error_request_id (e : RouterError) : Uuid :=
  match e with
  | StageFailure _ id _ | ResourceExhausted id _ | CapacityExceeded id _ | ClientCancelled id
  | BudgetExceeded _ id _ | MaxIterationsExceeded _ id _ _ | Internal id _ | PolicyDenied id _ => id
  | NoRouteForModel _ _ => 0%N
  end.
Definition error_stage (e : RouterError) : option PipelineStage :=
  match e with
  | StageFailure stage _ _ | BudgetExceeded stage _ _ | MaxIterationsExceeded stage _ _ _ => Some stage
  | ResourceExhausted _ _ => Some ResourceReservation
  | CapacityExceeded _ _ => Some Scheduling
  | ClientCancelled _ => Some Execution
  | PolicyDenied _ _ => Some Compilation
  | Internal _ _ | NoRouteForModel _ _ => None
  end.
Definition error_status (e : RouterError) : Z :=
  match e with
  | StageFailure _ _ _ | Internal _ _ => 500
  | ResourceExhausted _ _ | BudgetExceeded _ _ _ | MaxIterationsExceeded _ _ _ _ => 429
  | CapacityExceeded _ _ => 503
  | ClientCancelled _ | NoRouteForModel _ _ => 400
  | PolicyDenied _ _ => 403
  end.
Definition user_message (e : RouterError) : string :=
  match e with
  | StageFailure _ _ _ => "request failed during pre-execution processing"
  | ResourceExhausted _ _ => "daily resource quota exhausted"
  | CapacityExceeded _ _ => "router capacity temporarily exceeded; retry later"
  | ClientCancelled _ => "request cancelled"
  | BudgetExceeded _ _ _ => "budget exceeded for this request"
  | MaxIterationsExceeded _ _ _ _ => "workflow exceeded its iteration limit"
  | Internal _ _ => "internal error"
  | PolicyDenied _ rule_id => "request denied by policy rule '" +:+ rule_id +:+ "'"
  | NoRouteForModel model prefixes =>
      "model '" +:+ model +:+ "' does not match any configured provider prefix; available prefixes: "
      +:+ format_prefixes prefixes
  end.

(** The client learns the kind of a failure and, of its content, only the
    denying rule and the routing configuration: two errors that agree on these
    give the same status and message, whatever detail they carry. *)
Definition public_part (e : RouterError) : option (string + string * list string) :=
  match e with
  | PolicyDenied _ rule_id => Some (inl rule_id)
  | NoRouteForModel model prefixes => Some (inr (model, prefixes))
  | _ => None
  end.
Definition error_kind (e : RouterError) : nat :=
  match e with
  | StageFailure _ _ _ => 0 | ResourceExhausted _ _ => 1 | CapacityExceeded _ _ => 2
  | ClientCancelled _ => 3 | BudgetExceeded _ _ _ => 4 | MaxIterationsExceeded _ _ _ _ => 5
  | Internal _ _ => 6 | PolicyDenied _ _ => 7 | NoRouteForModel _ _ => 8
  end%nat.
Lemma user_message_opaque e1 e2 :
  error_kind e1 = error_kind e2 → public_part e1 = public_part e2 →
  user_message e1 = user_message e2 ∧ error_status e1 = error_status e2.
Proof. destruct e1, e2; intros Hk Hp; csimpl in *; simplify_eq; done. Qed.

(** ** Upstream streaming frames *)
Definition saturating_token_u32 (v : option json) : Z :=
  match v ≫= as_u64 with Some n => Z.min n u32_max | None => 0 end.
Definition parse_usage (usage : option json) : option Usage :=
  u ← usage;
  _ ← as_object u;
  Some (mkUsage (saturating_token_u32 (json_get "prompt_tokens" u))
          (saturating_token_u32 (json_get "completion_tokens" u))
          (saturating_token_u32 (json_get "total_tokens" u))).

(** [value[key]] and [value[i]]: [Null] when missing. *)
Definition json_index (k : string) (j : json) : json := default JNull (json_get k j).
Definition json_nth (i : nat) (j : json) : json := default JNull (as_array j ≫= (λ l, l !! i)).

Section sse.
Context (from_str : string → result string json).

Definition from_sse_data (data : string) : result string (option ChatStreamChunk) :=
  let trimmed := trim data in
  if decide (trimmed = "" ∨ trimmed = "[DONE]") then Ok None
  else
    let json_str := default trimmed (strip_prefix "data: " trimmed) in
    body ← from_str json_str;
    let choice := json_nth 0 (json_index "choices" body) in
    let content := as_str (json_index "content" (json_index "delta" choice)) in
    let finish_reason := as_str (json_index "finish_reason" choice) in
    let usage := parse_usage (json_get "usage" body) in
    if decide (default "" content = "" ∧ finish_reason = None ∧ usage = None) then Ok None
    else Ok (Some (mkChunk content finish_reason usage)).

Definition json_numbers_ok (j : json) : Prop :=
  ∀ k n, json_get k j = Some (JNumber (PosInt n)) → 0 ≤ n.

(** What reaches the meter is within its range, and no frame that carries
    text, a finish reason or usage is dropped. *)
Lemma from_sse_data_spec data body :
  trim data ≠ "" → trim data ≠ "[DONE]" →
  from_str (default (trim data) (strip_prefix "data: " (trim data))) = Ok body →
  (∀ u, json_get "usage" body = Some u → json_numbers_ok u) →
  ∃ r, from_sse_data data = Ok r ∧
    (∀ ch, r = Some ch → chunk_ok ch) ∧
    (r = None ↔ default "" (as_str (json_index "content" (json_index "delta" (json_nth 0 (json_index "choices" body))))) = ""
      ∧ as_str (json_index "finish_reason" (json_nth 0 (json_index "choices" body))) = None
      ∧ parse_usage (json_get "usage" body) = None).
Proof.
  intros Hne Hnd Hb Hu. unfold from_sse_data. rewrite decide_False by naive_solver. rewrite Hb. csimpl.
  assert (∀ u, parse_usage (json_get "usage" body) = Some u →
    is_u32 (prompt_tokens u) ∧ is_u32 (completion_tokens u)) as Hpu.
  { intros u. unfold parse_usage. destruct (json_get "usage" body) as [uj|] eqn:Ej; csimpl; [|done].
    specialize (Hu uj eq_refl).
    destruct (as_object uj); csimpl; [|done]. intros [= <-]; csimpl.
    assert (∀ k, is_u32 (saturating_token_u32 (json_get k uj))) as Hs; [|by split].
    intros k. unfold saturating_token_u32. destruct (json_get k uj) as [[| |[n| |]| | |]|] eqn:Ek; csimpl;
      try (unfold_ints; lia). pose proof (Hu k n Ek). unfold_ints. lia. }
  case_decide as Hd.
  - eexists. split; [done|]. split; [by intros|]. done.
  - eexists. split; [done|]. split; [|by split; [|naive_solver]].
    intros ch [= <-] u Hch. csimpl in Hch. by apply Hpu.
Qed.
End sse.
