(* ===== verification/ContextAssembly.v ===== *)
(** * Context assembly ([src/context/assembler.rs])

    [DefaultContextAssembler::assemble] fits the conversation of a request into
    its token budget: system messages are kept, the others are taken from the
    newest on, and the first one that does not fit may be cut at a character
    boundary. *)
From S2P Require Import Prelude Text Json Money ExecTypes Graphs WorkQueue Scheduler Runtime MeteredStream HostTypes.
From Stdlib Require Import Floats.SpecFloat Ascii.
Open Scope stdpp_scope.
Open Scope Z_scope.

Record DefaultContextAssembler := mkAssembler {
  da_max_tokens : Z; da_default_temperature : spec_float }.
(** The literal [0.7] of type [f32]. *)
Definition assembler_new : DefaultContextAssembler :=
  mkAssembler 4096 (S754_finite false 11744051 (-24)).

(** [(text.len() as u32).div_ceil(4)] *)
Definition context_tokens (text : string) : Z := (as_u32 (Z.of_nat (String.length text)) + 3) `div` 4.
(** The sums are of type [u32] and wrap in the release build. *)
Definition sum_tokens (l : list ChatMessage) : Z :=
  foldl (λ a m, as_u32 (a + context_tokens (content m))) 0 l.
Definition is_system (m : ChatMessage) : bool := bool_decide (role m = "system").

(** [char_indices().map(end).take_while(<= limit).last().unwrap_or(0)] *)
Fixpoint take_while {A} (p : A → bool) (l : list A) : list A :=
  match l with [] => [] | x :: l => if p x then x :: take_while p l else [] end.
Definition char_ends (s : string) : list nat :=
  filter (λ i, is_char_boundary i s = true) (seq 1 (String.length s)).
Definition safe_end (limit : Z) (s : string) : nat :=
  default O (last (take_while (λ i, Z.of_nat i <=? limit)%Z (char_ends s))).
Definition truncate (limit : Z) (s : string) : string := String.substring 0 (safe_end limit s) s.

(** One message of the reversed conversation. *)
Definition trim_one (acc : list ChatMessage * Z) (m : ChatMessage) : list ChatMessage * Z :=
  let '(kept, remaining) := acc in
  let tokens := as_u32 (context_tokens (content m) + 5) in
  if (tokens <=? remaining)%Z then (kept ++ [m], remaining - tokens)
  else if (10 <? remaining)%Z
  then (kept ++ [mkMessage (role m) (truncate (as_u32 (remaining * 4)) (content m))], 0)
  else (kept, remaining).

Definition trim_messages (messages : list ChatMessage) (max_tokens : Z) : list ChatMessage :=
  if (sum_tokens messages <=? max_tokens)%Z then messages
  else
    let system_msgs := filter (λ m, is_system m = true) messages in
    let other_msgs := filter (λ m, is_system m = false) messages in
    let system_tokens := sum_tokens system_msgs in
    let remaining := Z.max 0 (max_tokens - as_u32 (system_tokens + 5)) in
    let '(trimmed, _) := foldl trim_one ([], remaining) (reverse other_msgs) in
    system_msgs ++ reverse trimmed.

Definition assemble (self : DefaultContextAssembler) (r : ChatCompletionRequest) : ContextSnapshot :=
  let max_tokens := default (da_max_tokens self) (cr_max_tokens r) in
  mkContextSnapshot (trim_messages (cr_messages r) max_tokens) (default [] (cr_files r))
    (default [] (cr_tools r)) max_tokens (default (da_default_temperature self) (cr_temperature r)).

(** ** Cutting a message *)
Lemma take_while_spec {A} (p : A → bool) l : ∃ l2, l = take_while p l ++ l2 ∧ Forall (λ x, p x = true) (take_while p l).
Proof.
  induction l as [|x l (l2 & E & F)]; csimpl; [by exists []|].
  destruct (p x) eqn:Hp; [|by exists (x :: l)]. exists l2. csimpl. by rewrite <- E; repeat constructor.
Qed.

Lemma safe_end_spec limit s :
  0 ≤ limit → Z.of_nat (safe_end limit s) ≤ limit ∧ (safe_end limit s <= String.length s)%nat ∧
  (safe_end limit s = 0%nat ∨ is_char_boundary (safe_end limit s) s = true).
Proof.
  intros Hl. unfold safe_end. destruct (take_while_spec (λ i, Z.of_nat i <=? limit)%Z (char_ends s)) as (l2 & E & F).
  destruct (last (take_while _ _)) as [i|] eqn:Hi; csimpl; [|split_and!; [lia|lia|by left]].
  apply last_Some_elem_of in Hi.
  assert (i ∈ char_ends s) as Hin by (rewrite E; set_solver).
  rewrite Forall_forall in F. specialize (F i Hi). apply list_elem_of_filter in Hin as [Hb Hs].
  apply elem_of_seq in Hs. split_and!; [lia|lia|by right].
Qed.

Lemma substring_0_length n s : (n <= String.length s)%nat → String.length (String.substring 0 n s) = n.
Proof. revert n. induction s as [|c s IH]; intros [|n] Hn; csimpl in *; try lia. f_equal. apply IH. lia. Qed.
Lemma substring_0_prefix n s : ∃ r, s = String.substring 0 n s +:+ r.
Proof.
  revert n. induction s as [|c s IH]; intros n; [exists ""; by destruct n|].
  destruct n as [|n]; csimpl; [by eexists|]. destruct (IH n) as [r Hr]. exists r. by rewrite Hr at 1.
Qed.

Definition message_tokens (m : ChatMessage) : Z := (Z.of_nat (String.length (content m)) + 3) `div` 4.
Definition tokens_of (l : list ChatMessage) : Z := foldr (λ m a, message_tokens m + a) 0 l.

Lemma tokens_of_app l1 l2 : tokens_of (l1 ++ l2) = tokens_of l1 + tokens_of l2.
Proof. induction l1; csimpl; lia. Qed.
Lemma tokens_of_reverse l : tokens_of (reverse l) = tokens_of l.
Proof. induction l as [|m l IH]; [done|]. rewrite reverse_cons, tokens_of_app; csimpl. lia. Qed.
Lemma message_tokens_pos m : 0 ≤ message_tokens m.
Proof. unfold message_tokens. apply Z.div_pos; lia. Qed.
Lemma tokens_of_pos l : 0 ≤ tokens_of l.
Proof. induction l as [|m l IH]; csimpl; [lia|]. pose proof (message_tokens_pos m). lia. Qed.
Lemma tokens_of_elem m l : m ∈ l → message_tokens m ≤ tokens_of l.
Proof.
  induction 1 as [m l|m x l _ IH]; csimpl; [pose proof (tokens_of_pos l)|pose proof (message_tokens_pos x)]; lia.
Qed.
Lemma tokens_of_filter (P : ChatMessage → Prop) `{!∀ m, Decision (P m)} l : tokens_of (filter P l) ≤ tokens_of l.
Proof.
  induction l as [|m l IH]; [done|]. rewrite filter_cons. pose proof (message_tokens_pos m).
  case_decide; csimpl; lia.
Qed.

(** While everything fits, the [u32] arithmetic is exact. *)
Lemma context_tokens_exact m : message_tokens m < 2 ^ 30 → context_tokens (content m) = message_tokens m.
Proof.
  unfold context_tokens, message_tokens, as_u32. intros Hm. rewrite Z.mod_small; [done|].
  pose proof (Z.div_mod (Z.of_nat (String.length (content m)) + 3) 4).
  pose proof (Z.mod_pos_bound (Z.of_nat (String.length (content m)) + 3) 4). lia.
Qed.
Lemma sum_tokens_exact l : tokens_of l < 2 ^ 30 → sum_tokens l = tokens_of l.
Proof.
  unfold sum_tokens. intros Hl.
  assert (∀ a, 0 ≤ a → a + tokens_of l < 2 ^ 30 →
    foldl (λ a m, as_u32 (a + context_tokens (content m))) a l = a + tokens_of l) as H; [|by rewrite H; lia].
  clear Hl. induction l as [|m l IH]; intros a Ha Hl; csimpl in *; [lia|].
  pose proof (tokens_of_pos l). pose proof (message_tokens_pos m).
  rewrite context_tokens_exact by lia. unfold as_u32. rewrite Z.mod_small by lia. rewrite IH; lia.
Qed.

(** ** What is kept *)

(** A kept message is a message of the conversation, possibly cut short. *)
Definition cut_of (k m : ChatMessage) : Prop :=
  role k = role m ∧ ∃ r, content m = content k +:+ r.

Lemma trim_one_spec kept remaining m :
  0 ≤ remaining < 2 ^ 30 → message_tokens m < 2 ^ 29 →
  let '(kept', remaining') := trim_one (kept, remaining) m in
  0 ≤ remaining' ∧
  ((kept' = kept ∧ remaining' = remaining) ∨
   ∃ k, kept' = kept ++ [k] ∧ cut_of k m ∧ message_tokens k + remaining' ≤ remaining).
Proof.
  intros Hr Hm. unfold trim_one. rewrite context_tokens_exact by lia. pose proof (message_tokens_pos m).
  unfold as_u32. rewrite !Z.mod_small by lia.
  destruct (message_tokens m + 5 <=? remaining)%Z eqn:E1.
  - split; [lia|]. right. exists m. split_and!; [done| |lia]. split; [done|]. exists "".
    by rewrite str_app_nil_r.
  - destruct (10 <? remaining)%Z eqn:E2; [|split; [lia|by left]]. split; [lia|]. right. eexists.
    split_and!; [done| |].
    + split; [done|]. csimpl. apply substring_0_prefix.
    + unfold message_tokens; csimpl. destruct (safe_end_spec (remaining * 4) (content m)) as (H1 & H2 & _); [lia|].
      unfold truncate. rewrite substring_0_length by done.
      pose proof (Z.div_mod (Z.of_nat (safe_end (remaining * 4) (content m)) + 3) 4).
      pose proof (Z.mod_pos_bound (Z.of_nat (safe_end (remaining * 4) (content m)) + 3) 4). lia.
Qed.

Lemma trim_loop l kept remaining :
  0 ≤ remaining < 2 ^ 30 → tokens_of l < 2 ^ 29 →
  let '(kept', remaining') := foldl trim_one (kept, remaining) l in
  ∃ ks picked, kept' = kept ++ ks ∧ sublist picked l ∧ Forall2 cut_of ks picked ∧
    tokens_of ks + remaining' ≤ remaining ∧ 0 ≤ remaining'.
Proof.
  revert kept remaining. induction l as [|m l IH]; intros kept remaining Hr Hl; cbn [foldl].
  - exists [], []. rewrite app_nil_r. csimpl. split_and!; try done; lia.
  - csimpl in Hl. pose proof (tokens_of_pos l). pose proof (message_tokens_pos m).
    pose proof (trim_one_spec kept remaining m Hr ltac:(lia)) as Hone.
    destruct (trim_one (kept, remaining) m) as [k1 r1]. destruct Hone as [H1 [[-> ->]|(k & -> & Hcut & Hle)]].
    + pose proof (IH kept remaining Hr ltac:(lia)) as Hrest. destruct (foldl trim_one (kept, remaining) l) as [k2 r2].
      destruct Hrest as (ks & picked & -> & Hs & Hc & Hle & Hp). exists ks, picked.
      split_and!; try done. by apply sublist_cons.
    + pose proof (message_tokens_pos k).
      pose proof (IH (kept ++ [k]) r1 ltac:(lia) ltac:(lia)) as Hrest.
      destruct (foldl trim_one (kept ++ [k], r1) l) as [k2 r2].
      destruct Hrest as (ks & picked & -> & Hs & Hc & Hle2 & Hp). exists (k :: ks), (m :: picked).
      rewrite <- app_assoc. csimpl. split_and!; try done; [by apply sublist_skip|by constructor|lia].
Qed.

Lemma sublist_reverse_2 {A} (l1 l2 : list A) : sublist l1 (reverse l2) → sublist (reverse l1) l2.
Proof.
  intros Hs. rewrite <- (reverse_involutive l2). revert Hs. generalize (reverse l2). clear l2. intros l2.
  induction 1 as [|x l1 l2 _ IH|x l1 l2 _ IH]; [done|..].
  - rewrite !reverse_cons. by apply sublist_app.
  - rewrite reverse_cons. by apply sublist_inserts_r.
Qed.

(** C36. Assembling the context keeps within the budget what it can: a conversation
    that fits is untouched; otherwise every system message is kept in full,
    followed by messages of the conversation in their order, each whole or cut
    at its end, and those take no more tokens than the system messages leave. *)
Theorem trim_messages_spec messages max_tokens :
  0 ≤ max_tokens → tokens_of messages < 2 ^ 29 →
  let result := trim_messages messages max_tokens in
  let system := filter (λ m, is_system m = true) messages in
  (tokens_of messages ≤ max_tokens → result = messages) ∧
  (max_tokens < tokens_of messages →
   ∃ rest picked, result = system ++ rest ∧
     sublist picked (filter (λ m, is_system m = false) messages) ∧ Forall2 cut_of rest picked ∧
     tokens_of rest ≤ Z.max 0 (max_tokens - tokens_of system - 5)).
Proof.
  intros Hm Ht result system. subst result. unfold trim_messages. rewrite sum_tokens_exact by lia.
  split; intros Hle.
  - by rewrite (proj2 (Z.leb_le _ _)) by done.
  - rewrite (proj2 (Z.leb_gt _ _)) by done.
    pose proof (tokens_of_filter (λ m, is_system m = true) messages) as Hsys. fold system in Hsys |- *.
    pose proof (tokens_of_filter (λ m, is_system m = false) messages) as Hoth.
    pose proof (tokens_of_pos system). rewrite sum_tokens_exact by lia.
    unfold as_u32. rewrite Z.mod_small by lia.
    pose proof (trim_loop (reverse (filter (λ m, is_system m = false) messages)) []
      (Z.max 0 (max_tokens - (tokens_of system + 5))) ltac:(lia)
      ltac:(rewrite tokens_of_reverse; lia)) as Hloop.
    destruct (foldl trim_one _ _) as [kept r]. destruct Hloop as (ks & picked & -> & Hs & Hc & Hb & Hp).
    exists (reverse ks), (reverse picked). split_and!; [done|by apply sublist_reverse_2|by apply Forall2_reverse|].
    rewrite tokens_of_reverse. lia.
Qed.

Definition user (s : string) : ChatMessage := mkMessage "user" s.
Definition long_text : string := "a question of some fifty bytes, which takes twelve".
Lemma trim_messages_spec_witness :
  let messages := [mkMessage "system" "be brief"; user "hi"; user long_text] in
  ∃ rest picked, trim_messages messages 15 = [mkMessage "system" "be brief"] ++ rest ∧
    sublist picked [user "hi"; user long_text] ∧ Forall2 cut_of rest picked ∧ tokens_of rest ≤ 8.
Proof.
  apply (trim_messages_spec [mkMessage "system" "be brief"; user "hi"; user long_text] 15);
    [lia|by vm_compute|by vm_compute].
Defined.

(** When the newest message does not fit and at most ten tokens are left, it
    is dropped and the loop goes on: an older message that still fits is sent
    in its place. *)
Theorem newest_message_dropped_for_older :
  trim_messages [user "hi"; user long_text] 13 = [user "hi"].
Proof. by vm_compute. Qed.
