(* ===== verification/HostPolicy.v ===== *)
(** * Policies at run time ([src/policy], [src/operations/policy_admin.rs],
      [src/telemetry/audit.rs])

    The registry that holds the operators' policies with their history, the
    administrative operations that change it, the audit log, and the
    translation of the stored declarations into the [PolicyIR] the compiler's
    policy pass enforces. [serde_json]'s conversions between declarations and
    text are parameters. The host's [PolicyIR] has the fields of the
    compiler's, and the bridge ([src/policy/bridge.rs]) copies them, so one
    type serves for both. *)
From S2P Require Import Prelude Text Json Money Graphs ExecTypes WorkflowIr WorkflowIrProps Planner Policy.
From Stdlib Require Import Ascii.
Open Scope stdpp_scope.
Open Scope Z_scope.

(** ** Declarations *)
Record PolicyDeclaration := mkDeclaration {
  pd_name : string;
  pd_priority : Z;
  pd_match_target : string;
  pd_effect : string;
  pd_conditions : gmap string json;
  pd_annotations : gmap string json;
}.
Inductive DiagnosticSeverity := SevInfo | SevWarning | SevError.
Record PolicyDiagnostic := mkDiagnostic {
  dg_severity : DiagnosticSeverity; dg_location : string; dg_rule : option string; dg_message : string }.
Definition diagnostic_error (location : string) (rule : option string) (message : string) : PolicyDiagnostic :=
  mkDiagnostic SevError location rule message.
Record PolicyAST := mkAST { ast_version : string; declarations : list PolicyDeclaration }.

Definition parse_effect (s : string) : option PolicyEffect :=
  if decide (s = "deny") then Some Deny
  else if decide (s = "approval") then Some Approval
  else if decide (s = "allow") then Some Allow
  else None.

(** The order of the rules: by effect ([Deny] first), then by descending
    priority; [sort_by] is stable. *)
Definition rule_order (a b : PolicyRule) : bool := rule_le b a.

Section host_policy.
Context `{!HashIter string}.
Context (encode : PolicyDeclaration → result string string)
        (decode : string → result string PolicyDeclaration).

Definition rule_of (d : PolicyDeclaration) (e : PolicyEffect) : PolicyRule :=
  mkRule (pd_name d) (pd_match_target d) (pd_priority d) e
    ((λ kv, mkCondition kv.1 kv.2) <$> map_iter (pd_conditions d)) [].

(** [PolicyParser::parse_json], on the parsed tree. *)
Definition invalid_effect (d : PolicyDeclaration) : PolicyDiagnostic :=
  diagnostic_error ("declaration '" +:+ pd_name d +:+ "'") (Some (pd_name d))
    ("Invalid effect '" +:+ pd_effect d +:+ "'. Expected one of: deny, approval, allow").
Definition parse_diagnostics (ast : PolicyAST) : list PolicyDiagnostic :=
  invalid_effect <$> filter (λ d, parse_effect (pd_effect d) = None) (declarations ast).

Fixpoint ast_rules (ds : list PolicyDeclaration) : result PolicyDiagnostic (list PolicyRule) :=
  match ds with
  | [] => Ok []
  | d :: ds =>
      match parse_effect (pd_effect d) with
      | None => Err (invalid_effect d)
      | Some e => rs ← ast_rules ds; Ok (rule_of d e :: rs)
      end
  end.
Definition from_ast (ast : PolicyAST) : result PolicyDiagnostic PolicyIR :=
  rs ← ast_rules (declarations ast);
  Ok (mkPolicyIR (sort_by rule_order rs)).

(** [PolicyIR::from_policy_snapshot]: rules and errors, in the snapshot's
    order. *)
Definition snapshot_step (acc : list PolicyRule * list string) (p : PolicyDeclarationSnapshot)
    : list PolicyRule * list string :=
  let '(rs, errors) := acc in
  match decode (decl_rule p) with
  | Err e =>
      (rs, errors ++ ["policy '" +:+ decl_name p +:+ "' (id " +:+ decl_id p
                        +:+ "): stored rule is not a valid declaration: " +:+ e])
  | Ok d =>
      match parse_effect (pd_effect d) with
      | None => (rs, errors ++ ["policy '" +:+ pd_name d +:+ "' has invalid effect '" +:+ pd_effect d +:+ "'"])
      | Some e => (rs ++ [rule_of d e], errors)
      end
  end.
Definition from_policy_snapshot (snap : PolicySnapshot) : result string PolicyIR :=
  match ps_policies snap with
  | [] => Ok (mkPolicyIR [])
  | ps =>
      let '(rs, errors) := foldl snapshot_step ([], []) ps in
      if decide (errors = []) then Ok (mkPolicyIR (sort_by rule_order rs))
      else Err (String.concat "; " errors)
  end.

(** ** The registry

    Every operation runs under the registry's lock; [now] is the clock. *)
Record PolicyRegistry := mkPolicyState {
  pr_version : Z;
  pr_policies : list PolicyDeclarationSnapshot;
  pr_history : list PolicySnapshot;
}.
Definition registry_new (now : Z) : PolicyRegistry :=
  mkPolicyState 1 [] [mkPolicySnapshot 1 [] now].
Definition current_snapshot (now : Z) (r : PolicyRegistry) : PolicySnapshot :=
  mkPolicySnapshot (pr_version r) (pr_policies r) now.
Definition snapshot_at (version : Z) (r : PolicyRegistry) : option PolicySnapshot :=
  snd <$> list_find (λ s, ps_version s = version) (pr_history r).
Definition mutation_count (r : PolicyRegistry) : Z := (pr_version r -^ 1)%u64.
(** [version += 1], which the release build wraps. *)
Definition push_version (now : Z) (ps : list PolicyDeclarationSnapshot) (r : PolicyRegistry)
    : PolicySnapshot * PolicyRegistry :=
  let version := u64_wrapping_add (pr_version r) 1 in
  let snapshot := mkPolicySnapshot version ps now in
  (snapshot, mkPolicyState version ps (pr_history r ++ [snapshot])).
Definition without (id : string) (ps : list PolicyDeclarationSnapshot) : list PolicyDeclarationSnapshot :=
  filter (λ p, decl_id p ≠ id) ps.
Definition apply_policy (now : Z) (id name rule : string) (r : PolicyRegistry)
    : PolicySnapshot * PolicyRegistry :=
  push_version now (without id (pr_policies r) ++ [mkPolicyDecl id name rule]) r.
Definition remove_policy (now : Z) (id : string) (r : PolicyRegistry) : PolicySnapshot * PolicyRegistry :=
  push_version now (without id (pr_policies r)) r.
Definition policy_ir (r : PolicyRegistry) : result string (option PolicyIR) :=
  match pr_policies r with
  | [] => Ok None
  | _ => ir ← from_policy_snapshot (current_snapshot 0 r); Ok (Some ir)
  end.
Definition has_policy (id : string) (r : PolicyRegistry) : bool :=
  existsb (λ p, bool_decide (decl_id p = id)) (pr_policies r).

(** ** The audit log *)
Record AuditEntry := mkAuditEntry { ae_timestamp : Z; ae_action : string; ae_details : json }.
Record AuditLog := mkAuditLog { al_entries : list AuditEntry; max_entries : nat }.
(** [None]: [entries.remove(0)] on an empty vector panics. *)
Definition audit_record (e : AuditEntry) (l : AuditLog) : option AuditLog :=
  if (max_entries l <=? length (al_entries l))%nat then
    match al_entries l with
    | [] => None
    | _ :: es => Some (mkAuditLog (es ++ [e]) (max_entries l))
    end
  else Some (mkAuditLog (al_entries l ++ [e]) (max_entries l)).

(** ** Administration *)
Definition validate_declaration (d : PolicyDeclaration) : result string unit :=
  if decide (trim (pd_name d) = "") then Err "policy name must not be empty"
  else if decide (trim (pd_match_target d) = "") then Err "policy match_target must not be empty"
  else match parse_effect (pd_effect d) with
    | None => Err ("invalid effect '" +:+ pd_effect d +:+ "' (expected one of: deny, approval, allow)")
    | Some _ => Ok tt
    end.
Definition parse_declaration (name id rule_json : string) : result string PolicyDeclaration :=
  map_err (λ e, "stored policy '" +:+ name +:+ "' (id " +:+ id +:+ ") is corrupt: " +:+ e) (decode rule_json).

(** The registry, with the actions written to the audit log. *)
Record Admin := mkAdmin { ad_registry : PolicyRegistry; ad_actions : list string }.
Definition store (now : Z) (d : PolicyDeclaration) (action : string) (a : Admin) : result string unit * Admin :=
  match encode d with
  | Err e => (Err ("failed to encode policy: " +:+ e), a)
  | Ok rule_json =>
      (Ok tt, mkAdmin (apply_policy now (pd_name d) (pd_name d) rule_json (ad_registry a)).2
                (ad_actions a ++ ["policy." +:+ action +:+ ":" +:+ pd_name d]))
  end.
Definition create_policy (now : Z) (d : PolicyDeclaration) (a : Admin) : result string unit * Admin :=
  match validate_declaration d with
  | Err e => (Err e, a)
  | Ok _ =>
      if has_policy (pd_name d) (ad_registry a)
      then (Err ("Policy '" +:+ pd_name d +:+ "' already exists"), a)
      else store now d "create" a
  end.
Definition update_policy (now : Z) (name : string) (d : PolicyDeclaration) (a : Admin)
    : result string unit * Admin :=
  match validate_declaration d with
  | Err e => (Err e, a)
  | Ok _ =>
      if negb (has_policy name (ad_registry a)) then (Err ("Policy '" +:+ name +:+ "' not found"), a)
      else if decide (pd_name d ≠ name)
      then (Err "policy name is immutable; delete and recreate to rename", a)
      else store now d "update" a
  end.
Definition delete_policy (now : Z) (name : string) (a : Admin) : result string unit * Admin :=
  if negb (has_policy name (ad_registry a)) then (Err ("Policy '" +:+ name +:+ "' not found"), a)
  else (Ok tt, mkAdmin (remove_policy now name (ad_registry a)).2
                 (ad_actions a ++ ["policy.delete:" +:+ name])).
Definition list_policies (a : Admin) : result string (list PolicyDeclaration) :=
  (fix go ps := match ps with
   | [] => Ok []
   | p :: ps =>
       d ← parse_declaration (decl_name p) (decl_id p) (decl_rule p);
       ds ← go ps; Ok (d :: ds)
   end) (pr_policies (ad_registry a)).
Definition get_policy (name : string) (a : Admin) : result string (option PolicyDeclaration) :=
  match list_find (λ p, decl_name p = name) (pr_policies (ad_registry a)) with
  | Some (_, p) => d ← parse_declaration (decl_name p) (decl_id p) (decl_rule p); Ok (Some d)
  | None => Ok None
  end.

(** ** Sorting does not change the verdict *)
Lemma filter_insert_by P `{!∀ r : PolicyRule, Decision (P r)} x l :
  (∀ y, P x → P y → rule_order x y = true) →
  filter P (insert_by rule_order x l) = filter P (x :: l).
Proof.
  intros Heq. induction l as [|y l IH]; [done|]. csimpl. destruct (rule_order x y) eqn:Hxy; [done|].
  rewrite !filter_cons in *. rewrite IH. destruct (decide (P x)) as [Hx|]; destruct (decide (P y)) as [Hy|]; try done.
  by rewrite (Heq y Hx Hy) in Hxy.
Qed.
Lemma filter_sort_by P `{!∀ r : PolicyRule, Decision (P r)} l :
  (∀ x y, P x → P y → rule_order x y = true) → filter P (sort_by rule_order l) = filter P l.
Proof.
  intros Heq. induction l as [|x l IH]; [done|]. csimpl. rewrite filter_insert_by by auto.
  rewrite !filter_cons. by rewrite IH.
Qed.

(** The greatest rules are equivalent, and the winner is the last of them. *)
Definition same_rank (r x : PolicyRule) : Prop := rule_le r x = true ∧ rule_le x r = true.
#[global] Instance same_rank_dec r x : Decision (same_rank r x) := _.
Lemma winner_is_last l r :
  foldl max_rule None l = Some r → last (filter (same_rank r) l) = Some r ∧ ∀ x, x ∈ l → rule_le x r = true.
Proof.
  intros Hr. pose proof (max_rule_spec l) as Hs. rewrite Hr in Hs. destruct Hs as (l1 & l2 & -> & H1 & H2).
  assert (filter (same_rank r) l2 = []) as E.
  { apply elem_of_nil_inv. intros x [[Hrx _] Hx]%list_elem_of_filter. specialize (H2 x Hx). congruence. }
  assert (same_rank r r) as Hrr by (destruct (rule_le_total r r); by split).
  split.
  - rewrite filter_app, filter_cons_True by done. by rewrite E, last_snoc.
  - intros x [Hx|[->|Hx]%elem_of_cons]%elem_of_app; [auto|apply Hrr|].
    specialize (H2 x Hx). destruct (rule_le_total r x); congruence.
Qed.

(** The order in which rules are declared, and the order the registry's
    translation sorts them into, give the same verdict on every node. *)
Theorem sorted_rules_same_verdict json_to_string rs symbol facts :
  evaluate_matching_rule json_to_string (mkPolicyIR (sort_by rule_order rs)) symbol facts =
  evaluate_matching_rule json_to_string (mkPolicyIR rs) symbol facts.
Proof.
  unfold evaluate_matching_rule; csimpl.
  set (M := λ r, rule_matches json_to_string symbol facts r = true).
  assert (filter M (sort_by rule_order rs) ≡ₚ filter M rs) as Hp by (by rewrite sort_by_perm).
  assert (∀ r x y, same_rank r x → same_rank r y → rule_order x y = true) as Heq.
  { intros r x y [? _] [_ ?]. unfold rule_order. eauto using rule_le_trans. }
  assert (∀ r, filter (same_rank r) (filter M (sort_by rule_order rs)) = filter (same_rank r) (filter M rs)) as Hf.
  { intros r. rewrite !list_filter_filter.
    transitivity (filter (λ x, same_rank r x ∧ M x) rs); [|done].
    apply (filter_sort_by (λ x, same_rank r x ∧ M x)). intros x y [Hx _] [Hy _]. by eapply Heq. }
  destruct (foldl max_rule None (filter M rs)) as [r|] eqn:Hr.
  - destruct (winner_is_last _ _ Hr) as [Hl Hmax].
    destruct (foldl max_rule None (filter M (sort_by rule_order rs))) as [r'|] eqn:Hr'.
    + destruct (winner_is_last _ _ Hr') as [Hl' Hmax'].
      assert (r ∈ filter M rs) as Hin by (apply last_Some_elem_of in Hl; by apply list_elem_of_filter in Hl as [_ ?]).
      assert (r' ∈ filter M (sort_by rule_order rs)) as Hin'
        by (apply last_Some_elem_of in Hl'; by apply list_elem_of_filter in Hl' as [_ ?]).
      assert (same_rank r r') as Hs.
      { split; [apply Hmax'; by rewrite Hp|apply Hmax; by rewrite <- Hp]. }
      rewrite Hf in Hl'.
      assert (filter (same_rank r') (filter M rs) = filter (same_rank r) (filter M rs)) as Hrr.
      { apply list_filter_iff. intros x. destruct Hs as [H1 H2].
        split; intros [? ?]; split; eauto using rule_le_trans. }
      congruence.
    + pose proof (max_rule_spec (filter M (sort_by rule_order rs))) as Hs. rewrite Hr' in Hs.
      rewrite Hs in Hp. apply Permutation_nil in Hp. by rewrite Hp in Hr.
  - pose proof (max_rule_spec (filter M rs)) as Hs. rewrite Hr in Hs.
    rewrite Hs in Hp. symmetry in Hp. apply Permutation_nil in Hp. by rewrite Hp.
Qed.

(** ** Translation fails closed *)
Definition good_entry (p : PolicyDeclarationSnapshot) : Prop :=
  ∃ d e, decode (decl_rule p) = Ok d ∧ parse_effect (pd_effect d) = Some e.
Definition entry_rule (p : PolicyDeclarationSnapshot) : option PolicyRule :=
  match decode (decl_rule p) with
  | Ok d => rule_of d <$> parse_effect (pd_effect d)
  | Err _ => None
  end.
Lemma entry_rule_good p : good_entry p ↔ is_Some (entry_rule p).
Proof.
  unfold good_entry, entry_rule. split.
  - intros (d & e & -> & ->). by eexists.
  - intros [r Hr]. destruct (decode (decl_rule p)) as [d|]; [|done].
    destruct (parse_effect (pd_effect d)) as [e|] eqn:He; [|done]. eauto.
Qed.
Lemma snapshot_fold ps rs errs :
  ∃ es, foldl snapshot_step (rs, errs) ps = (rs ++ omap entry_rule ps, errs ++ es) ∧
    (es = [] ↔ Forall good_entry ps).
Proof.
  clear encode. revert rs errs. induction ps as [|p ps IH]; intros rs errs; csimpl.
  { exists []. by rewrite !app_nil_r. }
  unfold entry_rule at 1. pose proof (entry_rule_good p) as Hg. unfold entry_rule in Hg.
  destruct (decode (decl_rule p)) as [d|err]; csimpl.
  - destruct (parse_effect (pd_effect d)) as [e|]; csimpl.
    + destruct (IH (rs ++ [rule_of d e]) errs) as (es & -> & Hes). exists es. rewrite <- app_assoc.
      split; [done|]. rewrite Hes, Forall_cons. csimpl in Hg. split; [|tauto]. intros ?. split; [|done].
      apply Hg. by eexists.
    + edestruct (IH rs) as (es & -> & _). eexists (_ :: es). rewrite <- app_assoc. split; [done|].
      split; [done|]. intros [Hp%Hg _]%Forall_cons. by destruct Hp.
  - edestruct (IH rs) as (es & -> & _). eexists (_ :: es). rewrite <- app_assoc. split; [done|].
    split; [done|]. intros [Hp%Hg _]%Forall_cons. by destruct Hp.
Qed.

(** The policies in force are all or nothing: with any stored rule that does
    not parse or has an unknown effect there is no policy at all but an error;
    otherwise every stored rule is in the translation. *)
Theorem policy_ir_fails_closed r :
  match policy_ir r with
  | Ok None => pr_policies r = []
  | Ok (Some ir) => Forall good_entry (pr_policies r) ∧ rules ir ≡ₚ omap entry_rule (pr_policies r)
  | Err _ => ¬ Forall good_entry (pr_policies r)
  end.
Proof.
  unfold policy_ir, from_policy_snapshot, current_snapshot. cbn [ps_policies].
  destruct (pr_policies r) as [|p ps] eqn:Hps; [done|].
  destruct (snapshot_fold (p :: ps) [] []) as (es & -> & Hes). rewrite !app_nil_l.
  destruct (decide (es = [])) as [->|Hne]; csimpl.
  - split; [by apply Hes|]. apply sort_by_perm.
  - tauto.
Qed.

(** ** The history *)
Inductive RegistryOp := OpApply (now : Z) (id name rule : string) | OpRemove (now : Z) (id : string).
Definition registry_step (r : PolicyRegistry) (op : RegistryOp) : PolicyRegistry :=
  match op with
  | OpApply now id name rule => (apply_policy now id name rule r).2
  | OpRemove now id => (remove_policy now id r).2
  end.
Definition registry_run (now : Z) (ops : list RegistryOp) : PolicyRegistry :=
  foldl registry_step (registry_new now) ops.

Lemma registry_step_push r op : ∃ now ps, registry_step r op = (push_version now ps r).2 ∧
  pr_policies (registry_step r op) = ps.
Proof. destruct op; csimpl; eauto. Qed.

Lemma registry_run_versions now ops :
  Z.of_nat (length ops) < u64_max →
  pr_version (registry_run now ops) = Z.of_nat (length ops) + 1 ∧
  length (pr_history (registry_run now ops)) = S (length ops) ∧
  ∀ i, (i <= length ops)%nat → ∃ s, pr_history (registry_run now ops) !! i = Some s ∧
    ps_version s = Z.of_nat i + 1 ∧ ps_policies s = pr_policies (registry_run now (take i ops)).
Proof.
  clear encode decode. induction ops as [|op ops IH] using rev_ind; intros Hlen.
  - split_and!; [done..|]. intros i Hi. csimpl in Hi. assert (i = 0)%nat as -> by lia.
    eexists. split_and!; reflexivity.
  - rewrite length_app in *. csimpl in *. destruct IH as (Hv & Hl & Hh); [lia|].
    unfold registry_run in *. rewrite foldl_app. csimpl.
    destruct (registry_step_push (foldl registry_step (registry_new now) ops) op) as (t & ps & Hs & Hp).
    rewrite Hs in *. csimpl in *. rewrite Hv.
    assert (u64_wrapping_add (Z.of_nat (length ops) + 1) 1 = Z.of_nat (length ops + 1) + 1) as Hw.
    { unfold_ints. rewrite Z.mod_small; lia. }
    split_and!; [done|by rewrite length_app, Hl; csimpl; lia|]. intros i Hi.
    destruct (decide (i <= length ops)%nat) as [Hle|Hgt].
    + destruct (Hh i Hle) as (s & Hs' & Hvs & Hps). exists s. split_and!; [|done|].
      * by apply lookup_app_l_Some.
      * by rewrite take_app_le by lia.
    + assert (i = S (length ops)) as -> by lia. eexists. split_and!.
      * rewrite lookup_app_r by lia. by rewrite Hl, Nat.sub_diag.
      * csimpl. rewrite Hw. lia.
      * csimpl. rewrite take_ge by (rewrite length_app; csimpl; lia).
        rewrite foldl_app. csimpl. by rewrite Hs.
Qed.

(** The history is complete and immutable: after any mutations the version
    counts them, and asking for a version returns exactly the policies that
    were in force after that many mutations, or nothing for a version that
    does not exist. *)
Theorem registry_versions now ops v :
  Z.of_nat (length ops) < u64_max →
  mutation_count (registry_run now ops) = Z.of_nat (length ops) ∧
  ps_policies <$> snapshot_at v (registry_run now ops) =
    if decide (1 ≤ v ≤ Z.of_nat (length ops) + 1)
    then Some (pr_policies (registry_run now (take (Z.to_nat (v - 1)) ops))) else None.
Proof.
  clear encode decode. intros Hlen. destruct (registry_run_versions now ops Hlen) as (Hv & Hl & Hh).
  split; [unfold mutation_count; rewrite Hv; unfold_ints; lia|]. unfold snapshot_at.
  assert (∀ j s, pr_history (registry_run now ops) !! j = Some s → ps_version s = Z.of_nat j + 1) as Hall.
  { intros j s Hj. pose proof (lookup_lt_Some _ _ _ Hj). destruct (Hh j ltac:(lia)) as (s' & Hs' & ? & _). congruence. }
  case_decide as Hr.
  - destruct (Hh (Z.to_nat (v - 1)) ltac:(lia)) as (s & Hs & Hvs & Hps).
    rewrite (proj2 (list_find_Some (λ s, ps_version s = v) _ (Z.to_nat (v - 1)) s)); [by csimpl; rewrite Hps|].
    split_and!; [done|lia|]. intros j y Hj Hlt Hy. specialize (Hall j y Hj). lia.
  - rewrite (proj2 (list_find_None (λ s, ps_version s = v) _)); [done|]. apply Forall_lookup_2. intros j s Hj Hs.
    pose proof (lookup_lt_Some _ _ _ Hj). specialize (Hall j s Hj). lia.
Qed.

(** ** Administration refines a map of declarations *)
Inductive AdminOp :=
| OpCreate (now : Z) (d : PolicyDeclaration)
| OpUpdate (now : Z) (name : string) (d : PolicyDeclaration)
| OpDelete (now : Z) (name : string).
Definition admin_step (a : Admin) (op : AdminOp) : bool * Admin :=
  match op with
  | OpCreate now d => let '(r, a) := create_policy now d a in (is_ok r, a)
  | OpUpdate now name d => let '(r, a) := update_policy now name d a in (is_ok r, a)
  | OpDelete now name => let '(r, a) := delete_policy now name a in (is_ok r, a)
  end.

(** A declaration that may be stored. *)
Definition storable (d : PolicyDeclaration) : bool := is_ok (validate_declaration d) && is_ok (encode d).
Definition spec_step (m : gmap string PolicyDeclaration) (op : AdminOp) : bool * gmap string PolicyDeclaration :=
  match op with
  | OpCreate _ d =>
      if storable d && bool_decide (m !! pd_name d = None) then (true, <[pd_name d := d]> m) else (false, m)
  | OpUpdate _ name d =>
      if storable d && bool_decide (is_Some (m !! name)) && bool_decide (pd_name d = name)
      then (true, <[name := d]> m) else (false, m)
  | OpDelete _ name => if bool_decide (is_Some (m !! name)) then (true, delete name m) else (false, m)
  end.

(** The registry holds the declarations [ds], under their names, in this order. *)
Definition holds_entry (p : PolicyDeclarationSnapshot) (d : PolicyDeclaration) : Prop :=
  decl_id p = pd_name d ∧ decl_name p = pd_name d ∧ encode d = Ok (decl_rule p).
Record represents (ds : list PolicyDeclaration) (m : gmap string PolicyDeclaration) (r : PolicyRegistry) : Prop := {
  rep_entries : Forall2 holds_entry (pr_policies r) ds;
  rep_valid : Forall (λ d, storable d = true) ds;
  rep_names : NoDup (pd_name <$> ds);
  rep_map : m = list_to_map ((λ d, (pd_name d, d)) <$> ds);
}.

Definition others (name : string) (ds : list PolicyDeclaration) : list PolicyDeclaration :=
  filter (λ d, pd_name d ≠ name) ds.

Lemma named_keys ds : ((λ d, (pd_name d, d)) <$> ds).*1 = pd_name <$> ds.
Proof. by rewrite <- list_fmap_compose. Qed.
Lemma rep_lookup ds m r name d :
  represents ds m r → m !! name = Some d ↔ d ∈ ds ∧ pd_name d = name.
Proof.
  clear decode. intros [_ _ Hn ->]. rewrite <- elem_of_list_to_map by by rewrite named_keys.
  rewrite list_elem_of_fmap. naive_solver.
Qed.
Lemma rep_has ds m r name : represents ds m r → has_policy name r = bool_decide (is_Some (m !! name)).
Proof.
  clear decode. intros Hr. pose proof (rep_lookup ds m r name) as Hl. pose proof Hr as [He _ _ _].
  apply Bool.eq_iff_eq_true. rewrite bool_decide_eq_true. unfold has_policy. rewrite existsb_exists. split.
  - intros (p & Hp & Hid%bool_decide_eq_true). apply list_elem_of_In in Hp.
    apply list_elem_of_lookup in Hp as [i Hi]. destruct (Forall2_lookup_l _ _ _ _ _ He Hi) as (d & Hd & Hh & _).
    exists d. apply Hl; [done|]. split; [by eapply list_elem_of_lookup_2|congruence].
  - intros [d [Hd Hname]%Hl]; [|done]. apply list_elem_of_lookup in Hd as [i Hi].
    destruct (Forall2_lookup_r _ _ _ _ _ He Hi) as (p & Hp & Hh & _). exists p.
    split; [apply list_elem_of_In; by eapply list_elem_of_lookup_2|apply bool_decide_eq_true; congruence].
Qed.
Lemma others_map name ds :
  (list_to_map ((λ d, (pd_name d, d)) <$> others name ds) : gmap string PolicyDeclaration) =
  delete name (list_to_map ((λ d, (pd_name d, d)) <$> ds)).
Proof.
  unfold others. induction ds as [|d ds IH]; csimpl; [by rewrite delete_empty|].
  rewrite filter_cons. case_decide as Hd; csimpl.
  - rewrite IH. by rewrite delete_insert_ne by done.
  - rewrite IH. rewrite Hd. by rewrite delete_insert_eq.
Qed.

Lemma rep_without ds m r name v h :
  represents ds m r →
  represents (others name ds) (delete name m) (mkPolicyState v (without name (pr_policies r)) h).
Proof.
  clear decode. intros [He Hv Hn ->]. split; csimpl.
  - unfold without, others. apply Forall2_filter; [|done].
    intros p d (Hid & _ & _). by rewrite Hid.
  - rewrite Forall_forall in *. intros d [_ Hd]%list_elem_of_filter. auto.
  - unfold others. eapply sublist_NoDup; [done|]. apply fmap_sublist, sublist_filter.
  - by rewrite others_map.
Qed.
Lemma rep_store ds m r d rule v h :
  represents ds m r → storable d = true → encode d = Ok rule →
  represents (others (pd_name d) ds ++ [d]) (<[pd_name d := d]> m)
    (mkPolicyState v (without (pd_name d) (pr_policies r) ++ [mkPolicyDecl (pd_name d) (pd_name d) rule]) h).
Proof.
  clear decode. intros Hr Hs Henc. pose proof (rep_without ds m r (pd_name d) v h Hr) as [He Hv Hn Hm]. split; csimpl in *.
  - by apply Forall2_app; [|repeat constructor].
  - by apply Forall_app_2; [|repeat constructor].
  - rewrite fmap_app. apply NoDup_app. split_and!; [done| |apply NoDup_singleton].
    intros k (x & -> & [Hx _]%list_elem_of_filter)%list_elem_of_fmap Hk. by apply list_elem_of_singleton in Hk.
  - rewrite fmap_app, list_to_map_app. csimpl. rewrite others_map. destruct Hr as [_ _ _ <-].
    rewrite <- insert_union_r by by rewrite lookup_delete_eq.
    by rewrite map_union_empty, insert_delete_eq.
Qed.

Lemma admin_step_spec ds m a op :
  represents ds m (ad_registry a) →
  (admin_step a op).1 = (spec_step m op).1 ∧
  ∃ ds', represents ds' (spec_step m op).2 (ad_registry (admin_step a op).2).
Proof.
  clear decode. intros Hr. pose proof (λ n, rep_has ds m (ad_registry a) n Hr) as Hhas.
  assert (∀ now d act, storable d = true →
    (store now d act a).1 = Ok tt ∧
    represents (others (pd_name d) ds ++ [d]) (<[pd_name d := d]> m) (ad_registry (store now d act a).2)) as Hstore.
  { intros now d act Hs. pose proof Hs as Hs'. unfold storable in Hs'. unfold store.
    destruct (encode d) as [rule|] eqn:Henc; [|by destruct (is_ok _)]. split; [done|]. by apply rep_store. }
  assert (∀ now d act, is_ok (validate_declaration d) = true → storable d = false →
    is_ok (store now d act a).1 = false ∧ (store now d act a).2 = a) as Hfail.
  { intros now d act Hv Hs. unfold storable in Hs. rewrite Hv in Hs. unfold store. by destruct (encode d). }
  destruct op as [now d|now name d|now name]; csimpl.
  - unfold create_policy. destruct (validate_declaration d) as [[]|e] eqn:Hv.
    2: { unfold storable. rewrite Hv. csimpl. split; [done|]. by exists ds. }
    rewrite Hhas. destruct (m !! pd_name d) as [d0|]; csimpl.
    { rewrite andb_false_r. csimpl. split; [done|]. by exists ds. }
    rewrite andb_true_r. destruct (storable d) eqn:Hs.
    + destruct (Hstore now d "create" Hs) as [Hok Hrep]. destruct (store now d "create" a) as [r a'].
      csimpl in *. subst r. eauto.
    + destruct (Hfail now d "create" ltac:(by rewrite Hv) Hs) as [Hno Hsame].
      destruct (store now d "create" a) as [r a']. csimpl in *. subst a'. eauto.
  - unfold update_policy. destruct (validate_declaration d) as [[]|e] eqn:Hv.
    2: { unfold storable. rewrite Hv. csimpl. split; [done|]. by exists ds. }
    rewrite Hhas. destruct (m !! name) as [d0|] eqn:Hm; csimpl.
    2: { rewrite andb_false_r. csimpl. split; [done|]. by exists ds. }
    rewrite andb_true_r. case_decide as Hname; csimpl.
    { rewrite bool_decide_eq_false_2 by done. rewrite andb_false_r. csimpl. split; [done|]. by exists ds. }
    subst name. rewrite bool_decide_eq_true_2, andb_true_r by done.
    destruct (storable d) eqn:Hs.
    + destruct (Hstore now d "update" Hs) as [Hok Hrep]. destruct (store now d "update" a) as [r a'].
      csimpl in *. subst r. eauto.
    + destruct (Hfail now d "update" ltac:(by rewrite Hv) Hs) as [Hno Hsame].
      destruct (store now d "update" a) as [r a']. csimpl in *. subst a'. eauto.
  - unfold delete_policy. rewrite Hhas. destruct (m !! name) as [d0|]; csimpl.
    + split; [done|]. eexists. by apply rep_without.
    + split; [done|]. by exists ds.
Qed.

(** The answers and the final state of a sequence of operations. *)
Fixpoint admin_run (a : Admin) (ops : list AdminOp) : list bool * Admin :=
  match ops with
  | [] => ([], a)
  | op :: ops => let '(b, a) := admin_step a op in let '(bs, a) := admin_run a ops in (b :: bs, a)
  end.
Fixpoint spec_run (m : gmap string PolicyDeclaration) (ops : list AdminOp)
    : list bool * gmap string PolicyDeclaration :=
  match ops with
  | [] => ([], m)
  | op :: ops => let '(b, m) := spec_step m op in let '(bs, m) := spec_run m ops in (b :: bs, m)
  end.
Lemma admin_run_spec ops ds m a :
  represents ds m (ad_registry a) →
  (admin_run a ops).1 = (spec_run m ops).1 ∧
  ∃ ds', represents ds' (spec_run m ops).2 (ad_registry (admin_run a ops).2).
Proof.
  clear decode. revert ds m a. induction ops as [|op ops IH]; intros ds m a Hr; csimpl; [eauto|].
  destruct (admin_step_spec ds m a op Hr) as (Hb & ds' & Hr').
  destruct (admin_step a op) as [b a'], (spec_step m op) as [b' m']. csimpl in *. subst b'.
  destruct (IH ds' m' a' Hr') as (Hbs & ds2 & Hr2).
  destruct (admin_run a' ops), (spec_run m' ops). csimpl in *. split; [by f_equal|eauto].
Qed.

Section round_trip.
(** What [serde_json] writes for a declaration it reads back. *)
Hypothesis Hround : ∀ d s, encode d = Ok s → decode s = Ok d.

Definition declared_rule (d : PolicyDeclaration) : option PolicyRule := rule_of d <$> parse_effect (pd_effect d).

Lemma storable_rule d : storable d = true → is_Some (declared_rule d).
Proof.
  clear Hround decode. unfold storable, validate_declaration, declared_rule.
  destruct (parse_effect (pd_effect d)); [by eexists|]. by repeat case_decide.
Qed.
Lemma rep_entry_rules ps ds :
  Forall2 holds_entry ps ds → omap entry_rule ps = omap declared_rule ds.
Proof using Hround.
  induction 1 as [|p d ps ds (_ & _ & Henc) _ IH]; [done|].
  assert (entry_rule p = declared_rule d) as E by (unfold entry_rule; by rewrite (Hround d _ Henc)).
  cbn. by rewrite E, IH.
Qed.
Lemma rep_list ps ds a :
  pr_policies (ad_registry a) = ps → Forall2 holds_entry ps ds → list_policies a = Ok ds.
Proof using Hround.
  unfold list_policies. intros Hp. rewrite Hp. clear Hp. induction 1 as [|p d ps ds (_ & _ & Henc) _ IH]; [done|].
  assert (parse_declaration (decl_name p) (decl_id p) (decl_rule p) = Ok d) as ->
    by (unfold parse_declaration; by rewrite (Hround d _ Henc)).
  cbn. by rewrite IH.
Qed.
Lemma rep_get ds m a name :
  represents ds m (ad_registry a) → get_policy name a = Ok (m !! name).
Proof using Hround.
  intros Hr. pose proof (rep_lookup ds m (ad_registry a) name) as Hl. pose proof Hr as [He _ Hn _]. unfold get_policy.
  destruct (list_find _ _) as [[i p]|] eqn:Hf.
  - apply list_find_Some in Hf as (Hp & Hname & _).
    destruct (Forall2_lookup_l _ _ _ _ _ He Hp) as (d & Hd & _ & Hdn & Henc).
    unfold parse_declaration. rewrite (Hround d _ Henc). csimpl. do 2 f_equal. symmetry. apply Hl; [done|].
    split; [by eapply list_elem_of_lookup_2|congruence].
  - apply list_find_None in Hf. destruct (m !! name) as [d|] eqn:Hm; [|done]. exfalso.
    destruct (proj1 (Hl d Hr) eq_refl) as [[i Hi]%list_elem_of_lookup Hdn].
    destruct (Forall2_lookup_r _ _ _ _ _ He Hi) as (p & Hp & _ & Hpn & _).
    rewrite Forall_lookup in Hf. apply (Hf i p Hp). congruence.
Qed.

End round_trip.
End host_policy.

(** ** The audit log keeps the latest entries *)
Lemma audit_keeps_latest l es :
  (0 < max_entries l)%nat → (length (al_entries l) <= max_entries l)%nat →
  ∃ l', foldl (λ o e, o ≫= audit_record e) (Some l) es = Some l' ∧ max_entries l' = max_entries l ∧
    al_entries l' = drop (length (al_entries l) + length es - max_entries l) (al_entries l ++ es).
Proof.
  intros Hpos. revert l Hpos. induction es as [|e es IH]; intros l Hpos Hl; csimpl.
  - exists l. split_and!; [done..|]. rewrite app_nil_r. by replace (length _ + 0 - _)%nat with 0%nat by lia.
  - unfold audit_record at 2. destruct (max_entries l <=? length (al_entries l))%nat eqn:E.
    + apply Nat.leb_le in E. destruct (al_entries l) as [|x xs] eqn:Hes; csimpl in *; [lia|].
      destruct (IH (mkAuditLog (xs ++ [e]) (max_entries l))) as (l' & -> & Hm & Hd); csimpl; [done| |].
      { rewrite length_app; csimpl; lia. }
      exists l'. split_and!; [done..|]. rewrite Hd. csimpl. rewrite length_app; csimpl.
      replace (S (length xs + S (length es)) - max_entries l)%nat
        with (S (length xs + 1 + length es - max_entries l)) by lia.
      csimpl. by rewrite <- app_assoc.
    + destruct (IH (mkAuditLog (al_entries l ++ [e]) (max_entries l))) as (l' & -> & Hm & Hd); csimpl; [done| |].
      { rewrite length_app; csimpl. apply Nat.leb_gt in E. lia. }
      exists l'. split_and!; [done..|]. rewrite Hd. csimpl. rewrite length_app, <- app_assoc; csimpl.
      f_equal. lia.
Qed.

(** A log of capacity zero cannot record anything: it panics. *)
Theorem empty_audit_log_panics e : audit_record e (mkAuditLog [] 0) = None.
Proof. done. Qed.

(** ** A session of an operator *)
Definition demo_deny : PolicyDeclaration := mkDeclaration "no-shell" 10 "shell.exec" "deny" ∅ ∅.
Definition demo_encode (d : PolicyDeclaration) : result string string :=
  if decide (pd_name d = "no-shell" ∧ pd_priority d = 10 ∧ pd_match_target d = "shell.exec" ∧
             pd_effect d = "deny" ∧ pd_conditions d = ∅ ∧ pd_annotations d = ∅)
  then Ok "no-shell rule" else Err "unsupported".
Definition demo_decode (s : string) : result string PolicyDeclaration :=
  if decide (s = "no-shell rule") then Ok demo_deny else Err "unsupported".

(** Three versions: empty, one rule, empty again. *)
Lemma registry_versions_witness :
  let ops := [OpApply 1 "a" "a" "rule a"; OpRemove 2 "a"] in
  mutation_count (registry_run 0 ops) = 2 ∧
  ps_policies <$> snapshot_at 2 (registry_run 0 ops) = Some [mkPolicyDecl "a" "a" "rule a"].
Proof.
  exact (registry_versions 0 [OpApply 1 "a" "a" "rule a"; OpRemove 2 "a"] 2 eq_refl).
Defined.
