(* ===== verification/HostExecutor.v ===== *)
(** * The host's executor and scheduler ([src/executor], [src/scheduler])

    [DefaultExecutor] ([node_exec.rs]) narrows a node's tool allowlist to what
    the operator permits, runs the node on the runtime's [ProviderExecutor]
    with the host's provider behind the bridge of [fusion_bridge.rs], and
    turns a response object back into its content. [DefaultScheduler]
    ([default.rs]) runs a graph on the crates' scheduler through
    [CratesExecutorAdapter] ([crates_adapter.rs]), which notes the last
    success. The optional semantic cache is not attached by the server's
    assembly ([AppState::new]) and is left out. *)
From S2P Require Import Prelude Text Json Money Budget ExecTypes Graphs Strategy WorkQueue Scheduler DagQueue SchedulerProps Runtime RuntimeProps MeteredStream HostTypes.
From Stdlib Require Import Floats.SpecFloat Ascii.
Open Scope stdpp_scope.
Open Scope Z_scope.

(** ** The bridge to the host's providers *)
Definition to_src_request (r : ChatRequest) : ChatCompletionRequest :=
  mkCompletionRequest (rq_model r) ((λ m, mkMessage (role m) (content m)) <$> rq_messages r) false
    (rq_temperature r) (rq_max_tokens r) None None None None None.
Definition to_runtime_response (r : ChatCompletionResponse) : ChatResponse :=
  mkChatResponse (match cp_choices r with c :: _ => content (ch_message c) | [] => "" end)
    (cp_usage r) (default [] (cp_native_tool_calls r)) [].

(** ** [DefaultExecutor] *)
Record DefaultExecutor := mkDefaultExecutor {
  de_tools : option (gset string);
  de_allow_auto_exec : bool;
  permitted_tools : option (list string);
  de_pricing : option (string → TokenPricing);
}.
Definition default_executor_new : DefaultExecutor := mkDefaultExecutor None false None None.

Definition with_config (node : ExecutionNode) (c : Config) : ExecutionNode :=
  mkExecNode (x_id node) (x_kind node) (x_strategy node) (x_model node) (x_retry_policy node)
    (x_fallback node) c (x_subgraph node).
Definition is_llm_kind (k : ExecutionNodeKind) : bool :=
  match k with LLMGenerate | LLMReview | LLMJudge => true | _ => false end.

Section sanitize.
Context (self : DefaultExecutor).
Definition tool_permitted (name : string) : bool :=
  let registered := match de_tools self with Some r => bool_decide (name ∈ r) | None => false end in
  match permitted_tools self with
  | Some permitted => registered && bool_decide (name ∈ permitted)
  | None => registered
  end.
Definition entry_permitted (v : json) : bool :=
  match as_str v with Some name => tool_permitted name | None => false end.
Definition sanitize_tool_allowlist (node : ExecutionNode) : ExecutionNode :=
  match x_config node !! "tool_allowlist" with
  | None => node
  | Some v =>
      match as_array v with
      | None => node
      | Some names =>
          let filtered := filter (λ v, entry_permitted v = true) names in
          if (length filtered =? length names)%nat then node
          else with_config node (<["tool_allowlist" := JArray filtered]> (x_config node))
      end
  end.

Lemma filter_full {A} (P : A → Prop) `{!∀ x, Decision (P x)} l : length (filter P l) = length l → filter P l = l.
Proof.
  induction l as [|x l IH]; [done|]. rewrite filter_cons. case_decide as Hx; csimpl.
  - intros [= Hl]. by rewrite IH.
  - pose proof (length_filter P l). lia.
Qed.

(** Whatever the node declared, what is left is permitted, and nothing
    permitted is lost. *)
Lemma sanitize_allowlist node :
  tool_allowlist (sanitize_tool_allowlist node) =
  filter (λ name, tool_permitted name = true) (tool_allowlist node).
Proof.
  assert (∀ names : list json, omap as_str (filter (λ v, entry_permitted v = true) names) =
    filter (λ name, tool_permitted name = true) (omap as_str names)) as Hf.
  { induction names as [|v names IH]; [done|]. rewrite filter_cons.
    assert (entry_permitted v = match as_str v with Some name => tool_permitted name | None => false end) as Hp by done.
    destruct (as_str v) as [n|] eqn:Hv.
    - case_decide as Hd; csimpl; rewrite Hv; csimpl; rewrite filter_cons, IH.
      + by rewrite decide_True by congruence.
      + by rewrite decide_False by congruence.
    - rewrite decide_False by congruence. csimpl. by rewrite Hv. }
  unfold sanitize_tool_allowlist, tool_allowlist.
  destruct (x_config node !! "tool_allowlist") as [v|] eqn:Hv; csimpl; [|by rewrite Hv].
  destruct (as_array v) as [names|] eqn:Ha; csimpl; [|by rewrite Hv; csimpl; rewrite Ha].
  destruct (length _ =? length names)%nat eqn:Hl.
  - rewrite Hv. csimpl. rewrite Ha. apply Nat.eqb_eq in Hl. by rewrite <- Hf, filter_full.
  - cbn [x_config with_config]. rewrite lookup_insert_eq. csimpl. apply Hf.
Qed.
Lemma sanitize_keeps node :
  x_id (sanitize_tool_allowlist node) = x_id node ∧ x_kind (sanitize_tool_allowlist node) = x_kind node ∧
  x_subgraph (sanitize_tool_allowlist node) = x_subgraph node.
Proof. unfold sanitize_tool_allowlist. by repeat case_match. Qed.
End sanitize.

(** ** Running a node *)
Section host.
Context `{!HashIter N}.
Context (provider_completion : Trace → ChatCompletionRequest → result string ChatCompletionResponse).
Context (tool_execute : Trace → string → json → result string json).
Context (elapsed_ms : Trace → Trace → Z).
Context (messages_from_value : json → result string (list ChatMessage)).
Context (value_display : json → string) (values_to_string : list json → result string string).
Context (f64_display : spec_float → string).
Context (self : DefaultExecutor).

(** [FusionChatProvider::chat_completion] *)
Definition bridge_completion (t : Trace) (r : ChatRequest) : result string ChatResponse :=
  match provider_completion t (to_src_request r) with
  | Ok response => Ok (to_runtime_response response)
  | Err e => Err ("Provider error: " +:+ e)
  end.

(** The [ProviderExecutor] built for a node: no resource manager and no
    approval authority. *)
Definition runtime_executor : ProviderExecutor :=
  mkExecutor (default ∅ (de_tools self)) (de_allow_auto_exec self) None (de_pricing self) None.
Notation runtime_exec := (execute_node bridge_completion tool_execute elapsed_ms messages_from_value
  value_display values_to_string f64_display runtime_executor).

(** The response object of a model node becomes its text, or its text and
    tool calls. *)
Definition flatten_output (kind : ExecutionNodeKind) (r : NodeExecutionResult) : NodeExecutionResult :=
  if is_llm_kind kind then
    match (r_output r ≫= json_get "content") ≫= as_str with
    | Some c =>
        mkResult (r_state r) (r_usage r) (r_latency_ms r)
          (Some match r_output r ≫= json_get "tool_calls" with
                | Some calls => jobject [("content", JString c); ("tool_calls", calls)]
                | None => JString c
                end)
    | None => r
    end
  else r.
Definition execute_runtime (node : ExecutionNode) (ctx : NodeExecContext) (t : Trace)
    : NodeExecutionResult * Trace :=
  let '(r, t) := runtime_exec node ctx t in (flatten_output (x_kind node) r, t).
Definition host_execute_node (node : ExecutionNode) (ctx : NodeExecContext) (t : Trace)
    : NodeExecutionResult * Trace :=
  execute_runtime (sanitize_tool_allowlist self node) ctx t.

Lemma calls_model_llm k : calls_model k = is_llm_kind k.
Proof. by destruct k. Qed.
(** What a tool call of a node must satisfy: the node that makes it may be a
    node of its subgraph. *)
Definition host_tool_ok (node : ExecutionNode) (e : Event) : Prop :=
  match e with
  | EvTool id name _ =>
      de_allow_auto_exec self = true ∧ name ∈ default ∅ (de_tools self) ∧
      match x_subgraph node with
      | None => id = x_id node ∧ is_llm_kind (x_kind node) = true ∧ name ∈ tool_allowlist node ∧ tool_permitted self name = true
      | Some g => ∃ sub m, sub ∈ sub_nodes g ∧ leaf_of sub m ∧ x_id m = id ∧
          is_llm_kind (x_kind m) = true ∧ name ∈ tool_allowlist m
      end
  | _ => True
  end.

Lemma host_tool_events node ctx t :
  ∃ evs, (host_execute_node node ctx t).2 = t ++ evs ∧ Forall (host_tool_ok node) evs.
Proof.
  unfold host_execute_node, execute_runtime.
  pose proof (execute_node_steps bridge_completion tool_execute elapsed_ms messages_from_value value_display
    values_to_string f64_display runtime_executor (sanitize_tool_allowlist self node) ctx t) as Hs.
  destruct (runtime_exec (sanitize_tool_allowlist self node) ctx t) as [r t']. csimpl in *.
  destruct (tree_steps_tools _ _ _ _ _ Hs) as (evs & -> & Hevs).
  exists evs. split; [done|]. eapply Forall_impl; [done|]. intros e He. destruct e as [| | |id name args| |]; try done.
  destruct He as (Ha & Ht & m & Hm & Hid & Hk & Hal). csimpl in *. split_and!; [done|done|].
  rewrite calls_model_llm in Hk. destruct (sanitize_keeps self node) as (Hxi & Hxk & Hxs).
  remember (sanitize_tool_allowlist self node) as n eqn:En. destruct Hm as [n Hn|n sub m Hsub Hm].
  - subst n. rewrite Hxs in Hn. rewrite Hn. rewrite sanitize_allowlist in Hal.
    apply list_elem_of_filter in Hal as [Hp Hal]. rewrite Hxk in Hk. by rewrite <- Hid, Hxi.
  - subst n. unfold sub_nodes_of in Hsub. rewrite Hxs in Hsub. destruct (x_subgraph node) as [g|]; [|by apply elem_of_nil in Hsub].
    by exists sub, m.
Qed.

(** The operator decides. On the host every tool a node without a subgraph
    runs is declared by the node, which is a model node, registered, on the operator's permitted list
    when there is one, and runs only with automatic execution enabled, whatever
    the model answers. For a node with a subgraph the allowlists of the
    subgraph's own nodes count. *)
Theorem host_tools_permitted node ctx t :
  ∃ evs, (host_execute_node node ctx t).2 = t ++ evs ∧ Forall (host_tool_ok node) evs.
Proof. apply host_tool_events. Qed.

Lemma host_state node ctx t :
  r_state (host_execute_node node ctx t).1 = r_state (runtime_exec (sanitize_tool_allowlist self node) ctx t).1.
Proof.
  unfold host_execute_node, execute_runtime, flatten_output. destruct (runtime_exec _ ctx t) as [r t']. csimpl.
  destruct (is_llm_kind _); [|done]. by destruct ((r_output r ≫= json_get "content") ≫= as_str).
Qed.
(** The host answers success or failure, and a gate always with failure: it
    runs without an approval authority. *)
Lemma host_verdict node ctx t :
  r_state (host_execute_node node ctx t).1 = Succeeded ∨
  ∃ msg, r_state (host_execute_node node ctx t).1 = Failed msg.
Proof. rewrite host_state. apply execute_verdict. Qed.
Lemma host_gate_fails node ctx t :
  x_kind node = XGate → x_subgraph node = None → r_state (host_execute_node node ctx t).1 ≠ Succeeded.
Proof.
  intros Hk Hs. rewrite host_state. destruct (sanitize_keeps self node) as (_ & Hk' & Hs').
  rewrite gate_verdict by congruence. by intros (ap & [=] & _).
Qed.
End host.

(** ** [DefaultScheduler] *)
Record ExecutionInstance := mkInstance {
  instance_id : Uuid;
  in_graph : ExecutionGraph;
  in_node_states : gmap Uuid NodeState;
  in_outputs : gmap Uuid json;
  reservation_id : Uuid;
  created_at : Z;
  in_terminal_node_id : option Uuid;
  in_final_output : option json;
  in_budget_envelope : option (Ceilings * Counters);
}.
Record ExecutionResult := mkExecutionResult {
  er_instance_id : Uuid;
  er_success : bool;
  er_outputs : gmap Uuid json;
  er_total_latency_ms : Z;
  er_total_cost : NanoUSD;
  er_total_tokens : Z;
  er_terminal_node_id : option Uuid;
  er_final_output : option json;
}.
Record HostScheduler := mkHostScheduler {
  hs_max_concurrent : nat; hs_pricing : option (string → TokenPricing) }.
Definition host_scheduler_new (n : nat) : HostScheduler := mkHostScheduler n None.
Definition set_pricing (p : string → TokenPricing) (s : HostScheduler) : HostScheduler :=
  mkHostScheduler (hs_max_concurrent s) (Some p).

Definition schedule (g : ExecutionGraph) (reservation instance : Uuid) (now : Z) : ExecutionInstance :=
  mkInstance instance g (list_to_map ((λ n, (x_id n, Pending)) <$> reverse (g_nodes g))) ∅ reservation now
    None None None.

(** The adapter's bookkeeping, over the executions it forwarded, in the order
    they completed. *)
Record OutputTracker := mkTracker { tr_terminal_node_id : option Uuid; tr_final_output : option json }.
Definition record_success (id : Uuid) (output : option json) (t : OutputTracker) : OutputTracker :=
  mkTracker (Some id)
    (match output with
     | Some out => if is_null out then tr_final_output t else Some out
     | None => tr_final_output t
     end).
Definition track (t : OutputTracker) (done : Uuid * NodeExecutionResult) : OutputTracker :=
  if decide (r_state done.2 = Succeeded) then record_success done.1 (r_output done.2) t else t.
Definition tracked (completions : list (Uuid * NodeExecutionResult)) : OutputTracker :=
  foldl track (mkTracker None None) completions.

Inductive HostSchedulerError := SchedulerInternal (message : string).
Definition scheduler_message (e : SchedulerError) : string :=
  match e with
  | Cancelled => "Request cancelled by client"
  | NodeNotFound id => "scheduler queue desync: node " +:+ uuid_to_string id +:+ " not in graph"
  | LoopNodeNotFound id => "scheduler queue desync: loop node " +:+ uuid_to_string id +:+ " not in graph"
  end.
Definition map_crates_error (e : SchedulerError) : HostSchedulerError :=
  match e with
  | Cancelled => SchedulerInternal "Request cancelled by client"
  | _ => SchedulerInternal (scheduler_message e)
  end.

Section run_crates.
Context `{!HashIter N}.
Context (self : HostScheduler).
Context (exec : nat → ExecutionNode → NodeExecContext → NodeExecutionResult).
Context (elapsed : Z) (fuel : nat).
Context (completions : list (Uuid * NodeExecutionResult)).

Definition crates_scheduler : DefaultScheduler :=
  match hs_pricing self with
  | Some p => with_pricing p (with_max_concurrent (hs_max_concurrent self))
  | None => with_max_concurrent (hs_max_concurrent self)
  end.
Definition crates_run (instance : ExecutionInstance) (cancel : option CancellationToken)
    : option (result SchedulerError ExecutionOutcome) :=
  let g := in_graph instance in
  match cancel, in_budget_envelope instance with
  | Some token, Some (m, c) => run_with_cancellation_and_budget crates_scheduler exec elapsed fuel g token m c
  | Some token, None => run_with_cancellation crates_scheduler exec elapsed fuel g token
  | None, Some (m, c) => run_with_budget crates_scheduler exec elapsed fuel g m c
  | None, None => run crates_scheduler exec elapsed fuel g
  end.

(** [states.extend(outcome.node_states)]: the outcome wins. *)
Definition overlay (o : ExecutionOutcome) (instance : ExecutionInstance) : ExecutionInstance :=
  let t := tracked completions in
  mkInstance (instance_id instance) (in_graph instance) (o_node_states o ∪ in_node_states instance)
    (o_outputs o) (reservation_id instance) (created_at instance) (tr_terminal_node_id t)
    (tr_final_output t) (in_budget_envelope instance).
Definition result_of (o : ExecutionOutcome) (instance : ExecutionInstance) : ExecutionResult :=
  mkExecutionResult (instance_id instance) (success o) (in_outputs instance) (total_latency_ms o)
    (o_total_cost o) (o_total_tokens o) (in_terminal_node_id instance) (in_final_output instance).
(** [None]: still running after [fuel] turns. *)
Definition run_crates (instance : ExecutionInstance) (cancel : option CancellationToken)
    : option (result HostSchedulerError (ExecutionResult * ExecutionInstance)) :=
  r ← crates_run instance cancel;
  Some match r with
       | Err e => Err (map_crates_error e)
       | Ok o => let i := overlay o instance in Ok (result_of o i, i)
       end.

Lemma crates_run_inner instance cancel : ∃ c,
  crates_run instance cancel =
  run_inner crates_scheduler exec cancel (fst <$> in_budget_envelope instance) elapsed (in_graph instance) fuel c.
Proof. unfold crates_run. by destruct cancel, (in_budget_envelope instance) as [[m c']|]; eexists. Qed.
Lemma crates_max_concurrent : max_concurrent crates_scheduler = hs_max_concurrent self.
Proof. unfold crates_scheduler. by destruct (hs_pricing self). Qed.
End run_crates.

(** ** A whole run on the host *)
Section host_run.
Context `{!HashIter N}.
Context (provider_completion : Trace → ChatCompletionRequest → result string ChatCompletionResponse).
Context (tool_execute : Trace → string → json → result string json).
Context (elapsed_ms : Trace → Trace → Z).
Context (messages_from_value : json → result string (list ChatMessage)).
Context (value_display : json → string) (values_to_string : list json → result string string).
Context (f64_display : spec_float → string).
Context (executor : DefaultExecutor) (scheduler : HostScheduler).
Notation host_exec := (host_execute_node provider_completion tool_execute elapsed_ms messages_from_value
  value_display values_to_string f64_display executor).
(** Node executions happen at some point of the world's history each. *)
Context (run_node : nat → ExecutionNode → NodeExecContext → NodeExecutionResult).
Hypothesis Hrun : ∀ k n ctx, ∃ t, run_node k n ctx = (host_exec n ctx t).1.

Lemma host_run_terminal k n ctx : is_terminal (Some (r_state (run_node k n ctx))) = true.
Proof using All.
  destruct (Hrun k n ctx) as [t ->].
  by destruct (host_verdict provider_completion tool_execute elapsed_ms messages_from_value value_display
    values_to_string f64_display executor n ctx t) as [->|[msg ->]].
Qed.

(** A run of the host's scheduler over the host's executor on a plain graph
    ends within one turn per node, whatever provider, tools, budget and
    cancellation: with an error only if the client cancelled, and otherwise
    with every node of the instance in a terminal state, what succeeded resting
    on finished predecessors, and no gate among the successes, since the host
    runs without an approval authority. *)
Theorem host_run_total instance cancel elapsed fuel completions :
  plain_dag (in_graph instance) → (0 < hs_max_concurrent scheduler)%nat →
  (length (g_nodes (in_graph instance)) < fuel)%nat →
  ∃ r, run_crates scheduler run_node elapsed fuel completions instance cancel = Some r ∧
    match r with
    | Err e => e = SchedulerInternal "Request cancelled by client" ∧ cancel ≠ None
    | Ok (_, i) => ∀ n, n ∈ g_nodes (in_graph instance) →
        is_terminal (in_node_states i !! x_id n) = true ∧
        (in_node_states i !! x_id n = Some Succeeded → ∀ u, gedge (in_graph instance) u (x_id n) →
           is_terminal (in_node_states i !! u) = true ∧ ∀ msg, in_node_states i !! u ≠ Some (Failed msg)) ∧
        (x_kind n = XGate → x_subgraph n = None → in_node_states i !! x_id n ≠ Some Succeeded)
    end.
Proof using All.
  intros Hg Hmc Hf. unfold run_crates.
  destruct (crates_run_inner scheduler run_node elapsed fuel instance cancel) as (c & ->).
  destruct (run_inner_outcome (in_graph instance) (crates_scheduler scheduler) run_node cancel
    (fst <$> in_budget_envelope instance) elapsed fuel c) as (r & -> & Ho);
    [done|by rewrite crates_max_concurrent|apply host_run_terminal|done|].
  csimpl. eexists. split; [done|]. destruct r as [o|e]; [|by destruct Ho as [-> ?]].
  destruct Ho as [Hterm Hdep]. unfold overlay; cbn [in_node_states].
  assert (∀ v, v ∈ node_ids (in_graph instance) →
    (o_node_states o ∪ in_node_states instance) !! v = o_node_states o !! v) as Hl.
  { intros v Hv. specialize (Hterm v Hv). destruct (o_node_states o !! v) as [st|] eqn:E; [|done].
    by apply lookup_union_Some_l. }
  assert (∀ u v, gedge (in_graph instance) u v → u ∈ node_ids (in_graph instance)) as Hclosed
    by (intros u v; apply (dag_closed _ Hg)).
  intros n Hn. assert (x_id n ∈ node_ids (in_graph instance)) as Hid by by apply list_elem_of_fmap_2.
  rewrite (Hl _ Hid). split_and!; [auto| |].
  - intros Hs u Hu. rewrite (Hl _ (Hclosed _ _ Hu)). split; [eauto|].
    destruct (Hdep _ Hs) as [_ Hfin]. by destruct (Hfin u Hu) as [->|[-> _]].
  - intros Hk Hsub Hs. destruct (Hdep _ Hs) as [(res & (n' & k & ctx & Hn' & Hid' & -> & _) & Hres & _) _].
    assert (n' = n) as -> by (by eapply plain_node_unique).
    revert Hres. apply (future_fails run_node cancel k n ctx). destruct (Hrun k n ctx) as [t ->].
    by apply host_gate_fails.
Qed.
End host_run.

(** ** Concrete runs *)
#[local] Instance host_iter : HashIter N := map_to_list_iter N.
(** A model that asks for the shell on its first turn of every conversation. *)
Definition shell_asking_provider (t : Trace) (r : ChatCompletionRequest)
    : result string ChatCompletionResponse :=
  let answer calls := mkCompletionResponse "" "" 0 (cr_model r)
    [mkChoice 0 (mkMessage "assistant" "done") "stop"] None calls in
  if decide (Exists (λ m, role m = "tool") (cr_messages r)) then Ok (answer None)
  else Ok (answer (Some [mkToolCall "1" "shell_command" JNull])).
Definition shell_host : DefaultExecutor :=
  mkDefaultExecutor (Some {["shell_command"; "calculator"]}) true (Some ["calculator"]) None.
Definition run_shell_host (node : ExecutionNode) : Trace :=
  (host_execute_node shell_asking_provider (λ _ _ _, Ok JNull) (λ _ _, 0) (λ _, Err "none") (λ _, "")
     (λ _, Ok "results") (λ _, "") shell_host node (mkCtx ∅ ∅) []).2.
Definition shell_events (t : Trace) : list Event :=
  filter (λ e, match e with EvTool _ _ _ => true | _ => false end = true) t.
Definition client_node : ExecutionNode :=
  demo_node Chain {["tool_allowlist" := JArray [JString "shell_command"]]}.

(** The operator's list binds the node itself ... *)
Lemma permitted_list_binds_node : shell_events (run_shell_host client_node) = [].
Proof. by vm_compute. Qed.
(** ... but not the nodes its strategy was expanded into: they carry copies of
    its configuration, and only the node handed to the executor is narrowed. *)
Theorem subgraph_escapes_permitted_list :
  let node := mkExecNode (x_id client_node) (x_kind client_node) Chain (x_model client_node)
    (x_retry_policy client_node) (x_fallback client_node) (x_config client_node)
    (Some (expand_chain demo_v5 demo_display client_node)) in
  tool_permitted shell_host "shell_command" = false ∧
  (∃ id args rest, shell_events (run_shell_host node) = EvTool id "shell_command" args :: rest).
Proof. split; [by vm_compute|]. vm_compute. by eexists _, _, _. Qed.

Definition two_node_instance : ExecutionInstance := schedule two_steps 1%N 2%N 0.
Definition plain_run_node (_ : nat) (n : ExecutionNode) (ctx : NodeExecContext) : NodeExecutionResult :=
  (host_execute_node shell_asking_provider (λ _ _ _, Ok JNull) (λ _ _, 0) (λ _, Err "none") (λ _, "")
     (λ _, Ok "results") (λ _, "") shell_host n ctx []).1.
Lemma host_run_total_witness :
  ∃ r, run_crates (host_scheduler_new 2) plain_run_node 0 9 [] two_node_instance None = Some r ∧
    match r with
    | Err e => e = SchedulerInternal "Request cancelled by client" ∧ @None CancellationToken ≠ None
    | Ok (_, i) => ∀ n, n ∈ g_nodes two_steps →
        is_terminal (in_node_states i !! x_id n) = true ∧
        (in_node_states i !! x_id n = Some Succeeded → ∀ u, gedge two_steps u (x_id n) →
           is_terminal (in_node_states i !! u) = true ∧ ∀ msg, in_node_states i !! u ≠ Some (Failed msg)) ∧
        (x_kind n = XGate → x_subgraph n = None → in_node_states i !! x_id n ≠ Some Succeeded)
    end.
Proof.
  apply (host_run_total shell_asking_provider (λ _ _ _, Ok JNull) (λ _ _, 0) (λ _, Err "none") (λ _, "")
    (λ _, Ok "results") (λ _, "") shell_host (host_scheduler_new 2) plain_run_node
    (λ k n ctx, ex_intro _ [] eq_refl) two_node_instance).
  - exact two_steps_plain.
  - vm_compute. lia.
  - vm_compute. lia.
Defined.
