(* ===== verification/RequestPipeline.v ===== *)
(** * The chat request pipeline ([src/server/pipeline.rs], [src/server/handlers/chat.rs],
      [src/compiler/mod.rs])

    How the host answers a chat request: the checks of the handler, then
    compilation of the plan with the live policies, injection of the context
    and of the client's tools into the compiled graph, reservation of quota
    with the request's envelope, execution, and the response. The components
    are the ones modelled before: the compiler's passes over the kernel view
    of the host's resource manager, the host's scheduler and executor.
    [process_request] covers the steps from compilation on; its argument is
    the plan, which HostPlanner supplies. *)
From S2P Require Import Prelude Text Json Money Graphs Budget ExecTypes Policy Strategy Compiler CompilerProps WorkQueue Scheduler DagQueue SchedulerProps Runtime RuntimeProps HostResource MeteredStream HostTypes ContextAssembly HostPolicy HostExecutor.
From Stdlib Require Import Floats.SpecFloat Ascii.
Open Scope stdpp_scope.
Open Scope Z_scope.

(** ** The handler's checks ([chat_completions]) *)
Definition MAX_MESSAGES : nat := 200.
Definition MAX_TOOLS : nat := 64.
Definition MAX_FILES : nat := 20.
Definition MAX_CONTENT_CHARS : Z := 100000.
Definition reject_request (r : ChatCompletionRequest) : option string :=
  if decide (trim (cr_model r) = "") then Some "model is required"
  else if (MAX_MESSAGES <? length (cr_messages r))%nat then Some "too many messages"
  else if match cr_tools r with Some t => (MAX_TOOLS <? length t)%nat | None => false end
  then Some "too many tools"
  else if match cr_files r with Some f => (MAX_FILES <? length f)%nat | None => false end
  then Some "too many files"
  else if existsb (λ m, MAX_CONTENT_CHARS <? Z.of_nat (String.length (content m)))%Z (cr_messages r)
  then Some "message content too large"
  else None.

(** A request that passes is within the bounds context assembly relies on. *)
Lemma accepted_request_bounded r :
  reject_request r = None → tokens_of (cr_messages r) < 2 ^ 29.
Proof.
  unfold reject_request. intros H. case_decide; [done|].
  destruct (MAX_MESSAGES <? length (cr_messages r))%nat eqn:Hm; [done|].
  destruct (match cr_tools r with Some t => _ | None => false end); [done|].
  destruct (match cr_files r with Some f => _ | None => false end); [done|].
  destruct (existsb _ _) eqn:Hc; [done|]. apply Nat.ltb_ge in Hm.
  assert (∀ l, (∀ m, m ∈ l → Z.of_nat (String.length (content m)) ≤ MAX_CONTENT_CHARS) →
    tokens_of l ≤ 25000 * Z.of_nat (length l)) as Hl.
  { clear. intros l. induction l as [|m l IH]; intros Hl; csimpl; [lia|].
    pose proof (Hl m ltac:(set_solver)) as Hm. pose proof (IH ltac:(set_solver)).
    unfold message_tokens. unfold MAX_CONTENT_CHARS in Hm.
    pose proof (Z.div_mod (Z.of_nat (String.length (content m)) + 3) 4).
    pose proof (Z.mod_pos_bound (Z.of_nat (String.length (content m)) + 3) 4). lia. }
  pose proof (Hl (cr_messages r)) as Hb. unfold MAX_MESSAGES in Hm.
  assert (tokens_of (cr_messages r) ≤ 25000 * Z.of_nat (length (cr_messages r))); [|lia].
  apply Hb. intros m Hin. apply not_true_iff_false in Hc. apply Z.le_ngt. intros Hgt. apply Hc, existsb_exists.
  exists m. split; [by apply list_elem_of_In|]. by apply Z.ltb_lt.
Qed.

(** ** The host's compiler ([DefaultCompiler::compile]) *)
Section compiler.
Context `{!HashIter string} `{!HashIter N}.
Context (json_to_string : json → string).
Context (new_v5 : Uuid → string → Uuid) (uuid_display : Uuid → string).

Fixpoint apply_passes (ps : list Pass) (ir : WorkflowIR) : result CompilerError WorkflowIR :=
  match ps with
  | [] => Ok ir
  | p :: ps => ir' ← pass_apply p ir; apply_passes ps ir'
  end.
Definition host_compile (eng : CompilerEngine) (ir : WorkflowIR) : result CompilerError ExecutionGraph :=
  out ← apply_passes (passes eng) ir;
  lower_to_graph_with_compilers json_to_string new_v5 uuid_display (custom_compilers eng) out.
(** [build_compiler_with_optimization]: the level is only logged. *)
Definition host_build_compiler {S} `{!HostResourceManager S} (cat : ModelCatalog) (rm : S)
    (policy : option PolicyIR) : CompilerEngine :=
  build_compiler json_to_string new_v5 cat (kernel_new rm) policy.

Lemma apply_passes_run idx ps ir :
  match run_passes idx ps ir with
  | Ok (_, out) => apply_passes ps ir = Ok out
  | Err (PassFailed _ e) => apply_passes ps ir = Err e
  | Err _ => False
  end.
Proof.
  revert idx ir. induction ps as [|p ps IH]; intros idx ir; csimpl; [done|].
  destruct (pass_apply p ir) as [ir'|e]; csimpl; [|done].
  specialize (IH (Datatypes.S idx) ir'). destruct (run_passes _ ps ir') as [[ds out]|[| |]]; csimpl; done.
Qed.

(** The host's compiler and the crates' engine agree on every workflow: the
    same graph, or the same error of the same pass. So what is proved of
    [compile_and_lower] holds for the graphs the server runs. *)
Theorem host_compiler_agrees eng intent ir :
  intent ≠ "" →
  match compile_and_lower json_to_string new_v5 uuid_display eng intent ir with
  | Ok (_, g) => host_compile eng ir = Ok g
  | Err (PassFailed _ e | LowerFailed e) => host_compile eng ir = Err e
  | Err EmptyIntent => False
  end.
Proof.
  intros Hi. unfold compile_and_lower, host_compile. rewrite decide_False by done.
  pose proof (apply_passes_run 0 (passes eng) ir) as Hp.
  destruct (run_passes 0 (passes eng) ir) as [[ds out]|[|p e|e]]; csimpl in *; try done; by rewrite Hp.
Qed.

(** What the host compiles has gone through the passes. *)
Lemma host_compile_inv {S} `{!HostResourceManager S} cat (rm : S) policy ir g :
  host_compile (host_build_compiler cat rm policy) ir = Ok g →
  ∃ mid out, compiled json_to_string new_v5 cat (kernel_new rm) policy ir mid out ∧
    lower_to_graph_with_compilers json_to_string new_v5 uuid_display ∅ out = Ok g.
Proof.
  intros Hc. unfold host_compile in Hc.
  pose proof (apply_passes_run 0 (passes (host_build_compiler cat rm policy)) ir) as Hp.
  destruct (apply_passes _ ir) as [out|e] eqn:Ha; csimpl in Hc; [|done].
  destruct (run_passes 0 _ ir) as [[ds out']|[| |]] eqn:Hr; try done. injection Hp as <-.
  destruct (compile_inv json_to_string new_v5 uuid_display cat (kernel_new rm) policy "go" ir ds g)
    as (mid & o & Hco & _ & Hlow); [|by eauto].
  unfold compile_and_lower. rewrite decide_False by done.
  unfold host_build_compiler in Hr, Hc. rewrite Hr. injection Hc as <-. done.
Qed.
(** The graph the host compiles carries the plan's estimates. *)
Lemma host_compiled_estimate {S} `{!HostResourceManager S} cat (rm : S) policy ir g :
  host_compile (host_build_compiler cat rm policy) ir = Ok g →
  estimate g = (m_estimated_cost (ir_metadata ir), m_estimated_tokens (ir_metadata ir)).
Proof.
  intros (mid & out & Hco & Hlow)%host_compile_inv.
  pose proof (compiled_metadata _ _ _ _ _ _ _ _ Hco) as Hm.
  injection Hlow as <-. unfold estimate. csimpl. by rewrite Hm.
Qed.
End compiler.

(** ** [CompilationStep] *)
Definition compiler_msg_display (m : CompilerMsg) : string :=
  match m with
  | MsgNoNodes => "IR must have at least one node"
  | MsgTooManyNodes n => "IR has " +:+ fmt_u64 n +:+ " nodes, exceeding the maximum of 10000"
  | MsgUnknownSource id => "Edge from " +:+ uuid_to_string id +:+ " references unknown source node"
  | MsgUnknownTarget id => "Edge to " +:+ uuid_to_string id +:+ " references unknown target node"
  | MsgConditionalNoOutgoing => "Conditional node must have at least one outgoing edge"
  | MsgConditionalNoCondition => "Conditional node must have at least one edge with a condition"
  | MsgLoopNoOutgoing => "Loop node must have at least one outgoing edge"
  | MsgLoopNoMaxIterations => "Loop node must have max_iterations in config"
  | MsgSplitArity got => "Split node must have at least 2 outgoing edges, got " +:+ fmt_u64 got
  | MsgJoinArity got => "Join node must have at least 2 incoming edges, got " +:+ fmt_u64 got
  | MsgBarrierNoIncoming => "Barrier node must have at least one incoming edge"
  | MsgBarrierNoOutgoing => "Barrier node must have at least one outgoing edge"
  | MsgIllegalCycle => "Illegal cycle detected outside of loop back-edges"
  | MsgCustomEmptyName => "Custom strategy must have a non-empty name"
  | MsgCustomUnregistered name =>
      "Unregistered custom strategy '" +:+ name +:+
      "' has no registered StrategyCompiler delegate; compilation failed closed"
  | MsgConsensusZero => "Consensus count must be >= 1"
  | MsgConsensusTooMany count =>
      "Consensus count " +:+ fmt_u64 count +:+ " exceeds maximum of " +:+ fmt_u64 MAX_CONSENSUS_MEMBERS
      +:+ " members"
  | MsgConsensusMembersTooMany n =>
      "Consensus members list length " +:+ fmt_u64 n +:+ " exceeds maximum of "
      +:+ fmt_u64 MAX_CONSENSUS_MEMBERS +:+ " members"
  | MsgReflectionZero => "Reflection max_cycles must be >= 1"
  | MsgChainStagesNotArray => "Chain stages must be an array"
  | MsgChainStagesEmpty => "Chain stages must not be empty"
  | MsgChainStagesTooMany n => "Chain stages length " +:+ fmt_u64 n +:+ " exceeds maximum of 32 steps"
  | MsgChainStepsNotInteger => "Chain steps must be a non-negative integer"
  | MsgChainStepsZero => "Chain steps must be >= 1; a zero-step chain would produce an empty subgraph"
  | MsgDebateRoles got => "Debate requires at least 2 roles, got " +:+ fmt_u64 got
  | MsgReActZero => "ReAct max_tool_rounds must be >= 1"
  | MsgBudgetExceeded => "Budget exceeded"
  | MsgPolicyDenies rule target node =>
      "Policy rule '" +:+ rule +:+ "' denies target '" +:+ target +:+ "' (effect: deny); node "
      +:+ uuid_to_string node +:+ " cannot be compiled"
  end.
Definition compiler_error_display (e : CompilerError) : string :=
  match e with
  | ValidationError pass _ m => "Validation error in pass '" +:+ pass +:+ "': " +:+ compiler_msg_display m
  | PassError pass m => "Pass '" +:+ pass +:+ "' failed: " +:+ compiler_msg_display m
  end.

(** [message.split("Policy rule '").nth(1).and_then(|r| r.split('\'').next())] *)
Definition rule_marker : string := "Policy rule '".
Definition quoted_rule (message : string) : option string :=
  pos ← str_find rule_marker message;
  let rest := str_drop (pos + String.length rule_marker) message in
  let segment := match str_find rule_marker rest with
                 | Some p => String.substring 0 p rest | None => rest end in
  head (split_on "'"%char segment).
Definition compilation_error (request_id : Uuid) (e : CompilerError) : RouterError :=
  match e with
  | ValidationError pass _ m =>
      if decide (pass = "policy") then
        PolicyDenied request_id (default "policy" (quoted_rule (compiler_msg_display m)))
      else if decide (pass = "budget_optimisation") then
        ResourceExhausted request_id (compiler_error_display e)
      else StageFailure Compilation request_id (compiler_error_display e)
  | PassError _ _ => StageFailure Compilation request_id (compiler_error_display e)
  end.

(** The fields of [PipelineContext] the steps below read. *)
Record PipelineContext := mkPipelineContext {
  pc_request_id : Uuid;
  pc_request : ChatCompletionRequest;
  assembled_context : option ContextSnapshot;
  permitted_client_tools : option (list string);
  scheduler_round_capacity : option Z;
}.

Definition set_model (m : string) (n : ExecutionNode) : ExecutionNode :=
  mkExecNode (x_id n) (x_kind n) (x_strategy n) m (x_retry_policy n) (x_fallback n) (x_config n) (x_subgraph n).
Definition set_config (k : string) (v : json) (n : ExecutionNode) : ExecutionNode :=
  with_config n (<[k := v]> (x_config n)).
Definition set_sub_nodes (f : ExecutionNode → ExecutionNode) (n : ExecutionNode) : ExecutionNode :=
  mkExecNode (x_id n) (x_kind n) (x_strategy n) (x_model n) (x_retry_policy n) (x_fallback n) (x_config n)
    (match x_subgraph n with
     | Some g => Some (mkSubgraph (f <$> sub_nodes g) (sub_edges g) (entry_node_id g) (exit_node_id g))
     | None => None
     end).
(** Into the node and into the model nodes of its subgraph. *)
Definition propagate (k : string) (v : json) (n : ExecutionNode) : ExecutionNode :=
  set_sub_nodes (λ s, if is_llm_kind (x_kind s) then set_config k v s else s) (set_config k v n).

Section step.
Context (messages_to_value : list ChatMessage → result string json).
Context (ctx : PipelineContext).

Definition client_permits (name : string) : bool :=
  match permitted_client_tools ctx with Some l => bool_decide (name ∈ l) | None => true end.
Definition client_allowlist (tools : list ToolDefinition) : json :=
  JArray ((λ t, JString (td_name t)) <$> filter (λ t, client_permits (td_name t) = true) tools).
Definition inject_messages (n : ExecutionNode) : result RouterError ExecutionNode :=
  match assembled_context ctx with
  | None => Ok n
  | Some snap =>
      match messages_to_value (cs_messages snap) with
      | Err e => Err (StageFailure Compilation (pc_request_id ctx)
                        ("failed to serialize context messages: " +:+ e))
      | Ok v => Ok (propagate "messages" v n)
      end
  end.
Definition inject_tools (n : ExecutionNode) : ExecutionNode :=
  match cr_tools (pc_request ctx) with
  | Some ((_ :: _) as tools) => propagate "tool_allowlist" (client_allowlist tools) n
  | _ => n
  end.
Definition inject_node (n : ExecutionNode) : result RouterError ExecutionNode :=
  let n := if decide (x_model n = "") then set_model (cr_model (pc_request ctx)) n else n in
  if is_llm_kind (x_kind n) then n ← inject_messages n; Ok (inject_tools n) else Ok n.
Fixpoint inject_nodes (ns : list ExecutionNode) : result RouterError (list ExecutionNode) :=
  match ns with
  | [] => Ok []
  | n :: ns => n ← inject_node n; ns ← inject_nodes ns; Ok (n :: ns)
  end.
Definition with_graph_nodes (g : ExecutionGraph) (ns : list ExecutionNode) : ExecutionGraph :=
  mkGraph (graph_id g) ns (g_edges g) (g_metadata g) (g_total_tokens g) (g_total_cost g) (primitive_graph_hash g).
Definition compilation_step (compile : WorkflowIR → result CompilerError ExecutionGraph) (ir : WorkflowIR)
    : result RouterError ExecutionGraph :=
  g ← map_err (compilation_error (pc_request_id ctx)) (compile ir);
  ns ← inject_nodes (g_nodes g);
  Ok (with_graph_nodes g ns).

(** ** What injection does *)
Definition flat (n : ExecutionNode) : Prop :=
  ∀ g s, x_subgraph n = Some g → s ∈ sub_nodes g → x_subgraph s = None.
Lemma leaf_of_flat sub l : x_subgraph sub = None → leaf_of sub l → l = sub.
Proof.
  intros Hs Hl. inversion Hl as [|? ? ? Hbad]; subst; [done|]. unfold sub_nodes_of in Hbad. rewrite Hs in Hbad.
  by apply elem_of_nil in Hbad.
Qed.
Lemma propagate_keeps k v n :
  x_id (propagate k v n) = x_id n ∧ x_kind (propagate k v n) = x_kind n ∧ (flat n → flat (propagate k v n)).
Proof.
  split_and!; [done..|]. unfold flat, propagate, set_sub_nodes. csimpl. intros Hf g s.
  destruct (x_subgraph n) as [g0|]; [|done]. intros [= <-]. csimpl.
  intros (s0 & -> & Hs)%list_elem_of_fmap. specialize (Hf g0 s0 eq_refl Hs).
  by destruct (is_llm_kind (x_kind s0)).
Qed.
Lemma inject_node_keeps n0 n :
  inject_node n0 = Ok n → x_id n = x_id n0 ∧ x_kind n = x_kind n0 ∧ (flat n0 → flat n).
Proof.
  unfold inject_node. set (n1 := if decide (x_model n0 = "") then _ else n0).
  assert (x_id n1 = x_id n0 ∧ x_kind n1 = x_kind n0 ∧ (flat n0 → flat n1)) as (<- & <- & Hf)
    by (subst n1; by case_decide).
  destruct (is_llm_kind (x_kind n1)); [|by intros [= <-]].
  unfold inject_messages, inject_tools. intros Hi.
  destruct (assembled_context ctx) as [snap|]; [destruct (messages_to_value _) as [v|e]|]; csimpl in Hi;
    [|done|]; destruct (cr_tools (pc_request ctx)) as [[|tool tools]|]; injection Hi as <-;
    repeat match goal with |- context [propagate ?k ?v ?m] =>
      destruct (propagate_keeps k v m) as (-> & -> & ?); generalize dependent (propagate k v m); intros end;
    intuition.
Qed.
Lemma inject_nodes_all ns ns' : inject_nodes ns = Ok ns' → Forall2 (λ n0 n, inject_node n0 = Ok n) ns ns'.
Proof.
  revert ns'. induction ns as [|n ns IH]; intros ns' H; csimpl in H; [injection H as <-; constructor|].
  destruct (inject_node n) as [n'|] eqn:Hn; csimpl in H; [|done].
  destruct (inject_nodes ns) as [ns1|]; csimpl in H; [|done]. injection H as <-. constructor; auto.
Qed.

(** The allowlist a declared tool list becomes, in the node and in the model
    nodes of its subgraph. *)
Definition client_tools (tools : list ToolDefinition) : list string :=
  td_name <$> filter (λ t, client_permits (td_name t) = true) tools.
Lemma propagated_allowlist tools n m :
  (m = propagate "tool_allowlist" (client_allowlist tools) n ∨
   ∃ g, x_subgraph (propagate "tool_allowlist" (client_allowlist tools) n) = Some g ∧ m ∈ sub_nodes g ∧
     is_llm_kind (x_kind m) = true) →
  tool_allowlist m = client_tools tools.
Proof.
  assert (∀ m, tool_allowlist (set_config "tool_allowlist" (client_allowlist tools) m) = client_tools tools) as Hset.
  { intros m'. unfold tool_allowlist, set_config, client_tools. csimpl. rewrite lookup_insert_eq. csimpl.
    induction (filter _ tools) as [|t l IH]; csimpl; [done|]. by rewrite IH. }
  intros [->|(g & Hg & Hm & Hk)]; [apply Hset|]. unfold propagate, set_sub_nodes in Hg. csimpl in Hg.
  destruct (x_subgraph n) as [g0|]; [|done]. injection Hg as <-. csimpl in Hm.
  apply list_elem_of_fmap in Hm as (s & -> & _). destruct (is_llm_kind (x_kind s)) eqn:Hs; [apply Hset|congruence].
Qed.
Lemma inject_node_tools n0 n tools :
  cr_tools (pc_request ctx) = Some tools → tools ≠ [] → inject_node n0 = Ok n →
  is_llm_kind (x_kind n) = true → ∃ n1, n = propagate "tool_allowlist" (client_allowlist tools) n1.
Proof.
  intros Ht Hne Hi Hk. destruct (inject_node_keeps _ _ Hi) as (_ & Hkind & _). revert Hi.
  unfold inject_node. set (n1 := if decide (x_model n0 = "") then _ else n0).
  assert (x_kind n1 = x_kind n0) as Hk1 by (subst n1; by case_decide).
  rewrite Hk1, <- Hkind, Hk. unfold inject_tools. rewrite Ht.
  destruct (inject_messages n1) as [n2|e]; csimpl; [|done]. destruct tools as [|t tools]; [done|].
  intros Hx. exists n2. congruence.
Qed.

(** Without declared tools, injection adds no allowlist. *)
Definition offers_none (n : ExecutionNode) : Prop :=
  x_config n !! "tool_allowlist" = None ∧
  ∀ g s, x_subgraph n = Some g → s ∈ sub_nodes g → x_config s !! "tool_allowlist" = None.
Lemma propagate_offers_none k v n : k ≠ "tool_allowlist" → offers_none n → offers_none (propagate k v n).
Proof.
  intros Hk [Hn Hs]. split; [unfold propagate; csimpl; by rewrite lookup_insert_ne|].
  unfold propagate, set_sub_nodes. csimpl. intros g s. destruct (x_subgraph n) as [g0|]; [|done].
  intros [= <-]. csimpl. intros (s0 & -> & Hs0)%list_elem_of_fmap. specialize (Hs g0 s0 eq_refl Hs0).
  destruct (is_llm_kind (x_kind s0)); [|done]. unfold set_config. csimpl. by rewrite lookup_insert_ne.
Qed.
Lemma inject_node_no_tools n0 n :
  default [] (cr_tools (pc_request ctx)) = [] → inject_node n0 = Ok n → offers_none n0 → offers_none n.
Proof.
  intros Ht. unfold inject_node, inject_tools, inject_messages. set (n1 := if decide _ then _ else n0).
  assert (offers_none n0 → offers_none n1) as H1 by (subst n1; by case_decide).
  assert (∀ m, match cr_tools (pc_request ctx) with
    | Some ((_ :: _) as tools) => propagate "tool_allowlist" (client_allowlist tools) m | _ => m end = m) as Hm
    by (intros m; destruct (cr_tools (pc_request ctx)) as [[|]|]; done).
  intros Hi Hn0%H1. destruct (is_llm_kind (x_kind n1)); [|by injection Hi as <-].
  destruct (assembled_context ctx) as [snap|]; [destruct (messages_to_value _) as [v|e]|]; csimpl in Hi; try done;
    rewrite Hm in Hi; injection Hi as <-; [by apply propagate_offers_none|done].
Qed.

(** ** [ResourceReservationStep] *)
Definition input_tokens : Z :=
  match assembled_context ctx with
  | Some c => foldl (λ a m, u64_wrapping_add a (Z.of_nat (String.length (content m)) `div` 4)) 0 (cs_messages c)
  | None => 0
  end.
Definition llm_node_count (g : ExecutionGraph) : Z :=
  Z.max (Z.of_nat (length (filter (λ n, is_llm_kind (x_kind n) = true) (g_nodes g)))) 1.
Definition request_min (g : ExecutionGraph) : Z :=
  (u64_wrapping_add input_tokens (default 4096 (cr_max_tokens (pc_request ctx))) *^ llm_node_count g)%u64.
(** [config/validation.rs] refuses a capacity of 0, on which [div_ceil] panics. *)
Definition rounds_needed (g : ExecutionGraph) : Z :=
  let cap := default 16 (scheduler_round_capacity ctx) in
  Z.max ((Z.of_nat (length (g_nodes g)) + (cap - 1)) `div` cap) 1.
Definition envelope_for (q : HostQuota) (g : ExecutionGraph) : Ceilings :=
  let estimate_with_headroom :=
    mk_NanoUSD (Z.max (nanos (saturating_mul (g_estimated_cost (g_metadata g)) 3)) 10000) in
  mkCeilings
    (mk_NanoUSD (Z.min (as_nanos (hq_max_daily_cost q) `div` 5) (nanos estimate_with_headroom)))
    (Z.max (Z.max (hq_max_daily_tokens q `div` 5) (request_min g)) 10000)
    (as_u32 ((rounds_needed g *^ 4)%u64 +^ 64)%u64).
Definition reservation_step (m : DefaultResourceManager) (has_runtime : bool) (g : ExecutionGraph)
    : result RouterError (ResourceGuard * Ceilings) * DefaultResourceManager :=
  match try_reserve m g with
  | (false, m) => (Err (ResourceExhausted (pc_request_id ctx) "Daily resource quota exhausted"), m)
  | (true, m) => (Ok (guard_new g has_runtime, envelope_for (quota m) g), m)
  end.

(** ** [ResponseBuilderStep] *)
Context `{!HashIter N}.
Context (json_to_string : json → string) (now : Z).
Definition response_text (res : ExecutionResult) : string :=
  let last_value := last (map_values (er_outputs res)) in
  default "Request processed successfully."
    match er_final_output res ≫= as_str with
    | Some s => Some s
    | None =>
        match er_terminal_node_id res ≫= (λ id, er_outputs res !! id ≫= as_str) with
        | Some s => Some s
        | None =>
            match last_value ≫= as_str with
            | Some s => Some s
            | None =>
                match last_value with
                | Some (JObject o) => Some (json_to_string (JObject o))
                | Some (JArray l) => Some (json_to_string (JArray l))
                | _ => None
                end
            end
        end
    end.
Definition response_step (res : ExecutionResult) : result RouterError ChatCompletionResponse :=
  if er_success res then
    Ok (mkCompletionResponse (uuid_to_string (pc_request_id ctx)) "chat.completion" now
          (cr_model (pc_request ctx)) [mkChoice 0 (mkMessage "assistant" (response_text res)) "stop"]
          (Some (mkUsage 0 0 (Z.min (er_total_tokens res) u32_max))) None)
  else Err (StageFailure ResponseBuilding (pc_request_id ctx) "Execution completed with failures").

End step.

(** ** [process_request], from compilation on *)
Definition native_stream_eligible (g : ExecutionGraph) : bool :=
  match g_nodes g with
  | [n] =>
      is_llm_kind (x_kind n) && bool_decide (x_subgraph n = None) &&
      bool_decide (x_config n !! "tool_allowlist" = None) && bool_decide (x_config n !! "tools" = None)
  | _ => false
  end.
(** A stream that was engaged holds the guard and the envelope; one whose
    upstream refused has answered with a status and a message. *)
Inductive ChatOutcome :=
| Completed (r : ChatCompletionResponse)
| Streaming (upstream : ChatCompletionRequest) (guard : ResourceGuard) (envelope : Ceilings)
| StreamRejected (status : Z) (message : string).
Definition host_scheduler_error (e : HostSchedulerError) : string :=
  match e with SchedulerInternal m => "Internal error: " +:+ m end.
Definition with_upstream (model : string) (messages : list ChatMessage) (r : ChatCompletionRequest)
    : ChatCompletionRequest :=
  mkCompletionRequest model messages true (cr_temperature r) (cr_max_tokens r) None (cr_files r)
    (cr_execution r) (cr_output r) (cr_strategy r).

Section process.
Context `{!HashIter string} `{!HashIter N}.
Context (json_to_string : json → string).
Context (new_v5 : Uuid → string → Uuid) (uuid_display : Uuid → string).
Context (messages_to_value : list ChatMessage → result string json).
Context (messages_from_value : json → result string (list ChatMessage)).
(** The parser of stored declarations, and the application state the steps read. *)
Context (decode : string → result string PolicyDeclaration).
Context (catalog : ModelCatalog) (registry : PolicyRegistry) (scheduler : HostScheduler).
Context (spawn_accepted : bool).
(** The upstream registry, when one is configured: its refusal is a typed
    error of the router or any other one. *)
Context (provider_registry : option (ChatCompletionRequest → result (RouterError + string) unit)).
(** What the executor answered in this run, and the clock. *)
Context (run_node : nat → ExecutionNode → NodeExecContext → NodeExecutionResult).
Context (completions : list (Uuid * NodeExecutionResult)).
Context (elapsed now : Z) (fuel : nat) (reservation instance : Uuid).

Section request.
Context (ctx : PipelineContext) (token : CancellationToken) (allow_native_stream : bool).

Definition compile_request (m : DefaultResourceManager) (ir : WorkflowIR) : result RouterError ExecutionGraph :=
  policy ← map_err (λ e, StageFailure PlanningStage (pc_request_id ctx) ("policy configuration rejected: " +:+ e))
             (policy_ir decode registry);
  compilation_step messages_to_value ctx
    (host_compile json_to_string new_v5 uuid_display
       (host_build_compiler json_to_string new_v5 catalog m policy)) ir.

Definition upstream_request (n : ExecutionNode) : ChatCompletionRequest :=
  let r := pc_request ctx in
  with_upstream (if decide (x_model n = "") then cr_model r else x_model n)
    (match x_config n !! "messages" with
     | Some v => match messages_from_value v with Ok msgs => msgs | Err _ => cr_messages r end
     | None => cr_messages r
     end) r.
Definition native_stream_sse (chat_stream : ChatCompletionRequest → result (RouterError + string) unit)
    (n : ExecutionNode) (guard : ResourceGuard) (envelope : Ceilings) (m : DefaultResourceManager)
    : ChatOutcome * DefaultResourceManager :=
  let upstream := upstream_request n in
  match chat_stream upstream with
  | Ok _ => (Streaming upstream guard envelope, m)
  | Err e =>
      (match e with
       | inl re => StreamRejected (error_status re) (user_message re)
       | inr _ => StreamRejected 502 "upstream provider unavailable"
       end, guard_drop default_try_release spawn_accepted guard m)
  end.

Definition execution_step (g : ExecutionGraph) (envelope : Ceilings)
    : option (result RouterError ExecutionResult) :=
  let i := schedule g reservation instance now in
  let i := mkInstance (instance_id i) (in_graph i) (in_node_states i) (in_outputs i) (reservation_id i)
    (created_at i) (in_terminal_node_id i) (in_final_output i) (Some (envelope, envelope_new)) in
  r ← run_crates scheduler run_node elapsed fuel completions i (Some token);
  Some match r with
       | Ok (res, _) => Ok res
       | Err e => Err (StageFailure Execution (pc_request_id ctx) (host_scheduler_error e))
       end.

(** The run and the response; the guard is released on every way out, and the
    measured usage recorded on the way out of a response only. *)
Definition orchestrate (g : ExecutionGraph) (guard : ResourceGuard) (envelope : Ceilings)
    (m : DefaultResourceManager) : option (result RouterError ChatOutcome * DefaultResourceManager) :=
  let dropped := guard_drop default_try_release spawn_accepted guard m in
  r ← execution_step g envelope;
  Some match r with
       | Err e => (Err e, dropped)
       | Ok res =>
           match response_step ctx json_to_string now res with
           | Err e => (Err e, dropped)
           | Ok resp => (Ok (Completed resp), manager_record_usage dropped (er_total_cost res) (er_total_tokens res))
           end
       end.

Definition streamed (g : ExecutionGraph) : option ((ChatCompletionRequest → result (RouterError + string) unit) * ExecutionNode) :=
  if allow_native_stream && cr_stream (pc_request ctx) then
    match provider_registry with
    | Some reg => if native_stream_eligible g then n ← head (g_nodes g); Some (reg, n) else None
    | None => None
    end
  else None.
(** [None]: the scheduler is still running after [fuel] turns. *)
Definition process_request (m : DefaultResourceManager) (ir : WorkflowIR)
    : option (result RouterError ChatOutcome * DefaultResourceManager) :=
  match compile_request m ir with
  | Err e => Some (Err e, m)
  | Ok g =>
      match reservation_step ctx m true g with
      | (Err e, m) => Some (Err e, m)
      | (Ok (guard, envelope), m) =>
          match streamed g with
          | Some (reg, n) => let '(o, m) := native_stream_sse reg n guard envelope m in Some (Ok o, m)
          | None => orchestrate g guard envelope m
          end
      end
  end.

(** ** Properties *)
(** A node of the compiled graph is lowered from a node of the plan or from an
    approval gate, and injected. *)
Definition plan_origin (ir : WorkflowIR) (irn : IRNode) : Prop :=
  (∃ n, n ∈ ir_nodes ir ∧ irn = resolve_model catalog n) ∨ ∃ n, irn = gate_node new_v5 n.
Lemma compile_request_inv m ir g :
  compile_request m ir = Ok g →
  estimate g = (m_estimated_cost (ir_metadata ir), m_estimated_tokens (ir_metadata ir)) ∧
  ∀ n, n ∈ g_nodes g → ∃ irn, plan_origin ir irn ∧
    inject_node messages_to_value ctx (lower_node new_v5 uuid_display ∅ irn) = Ok n.
Proof.
  unfold compile_request, compilation_step. intros H.
  destruct (policy_ir decode registry) as [policy|e]; csimpl in H; [|done].
  destruct (host_compile _ _ _ _ ir) as [g0|e] eqn:Hc; csimpl in H; [|done].
  destruct (inject_nodes _ _ (g_nodes g0)) as [ns|] eqn:Hi; csimpl in H; [|done]. injection H as <-.
  split; [by apply (host_compiled_estimate _ _ _ _ _ _ _ _ Hc)|]. csimpl. intros n Hn.
  apply list_elem_of_lookup in Hn as [i Hn].
  destruct (Forall2_lookup_r _ _ _ _ _ (inject_nodes_all _ _ _ _ Hi) Hn) as (n0 & Hn0 & Hinj).
  apply list_elem_of_lookup_2 in Hn0.
  destruct (host_compile_inv _ _ _ _ _ _ _ _ Hc) as (mid & out & Hco & Hlow). injection Hlow as <-. csimpl in Hn0.
  apply list_elem_of_fmap in Hn0 as (irn & -> & Hirn). exists irn. split; [|done].
  destruct (compiled_shape_sub _ _ _ _ _ _ _ _ Hco) as (ts & _ & Hnodes & _).
  destruct (dead_nodes_closed ir mid (co_flow _ _ _ _ _ _ _ _ Hco) (co_live _ _ _ _ _ _ _ _ Hco)) as (_ & _ & Hsub & _).
  rewrite Hnodes in Hirn. apply elem_of_app in Hirn as [(n1 & -> & Hn1)%list_elem_of_fmap|(n1 & -> & _)%list_elem_of_fmap].
  - left. exists n1. auto.
  - right. by exists n1.
Qed.
Lemma lower_node_flat irn : flat (lower_node new_v5 uuid_display ∅ irn).
Proof. intros sg s Hsg Hs. csimpl in Hsg. by destruct (expanded_child _ _ _ _ _ Hsg Hs). Qed.

(** Reserving and giving back leaves the books as they were. *)
Lemma reserve_release m g m' :
  manager_ok m → estimate_ok g →
  used_cost m + nanos (estimate g).1 ≤ u64_max → used_tokens m + (estimate g).2 ≤ u64_max →
  try_reserve m g = (true, m') →
  release m' g = m ∧ quota m' = quota m ∧
  used_cost m' = used_cost m + nanos (estimate g).1 ∧ used_tokens m' = used_tokens m + (estimate g).2 ∧
  used_cost m' ≤ nanos (hq_max_daily_cost (quota m)) ∧ used_tokens m' ≤ hq_max_daily_tokens (quota m).
Proof.
  intros Hm Hg Hc Ht Hr. pose proof (try_reserve_spec m g Hm Hg) as Hs. rewrite Hr in Hs.
  destruct Hs as (Hm' & Hq & _ & Hc' & Ht' & Hlc & Hlt). destruct Hm as ([Hc0 _] & [Ht0 _] & _).
  rewrite sat_add_exact in Hc' by done. rewrite sat_add_exact in Ht' by done.
  destruct (release_spec m' g Hm' Hg) as (_ & Hq' & Hrc & Hrt).
  split_and!; try done; [|lia..]. destruct m as [q c t], (release m' g) as [q' c' t']. csimpl in *. f_equal; [congruence|lia|lia].
Qed.

Definition request_outcome (m : DefaultResourceManager) (ir : WorkflowIR)
    (r : result RouterError ChatOutcome) (m' : DefaultResourceManager) : Prop :=
  match r with
  | Err _ | Ok (StreamRejected _ _) => m' = m
  | Ok (Completed resp) => ∃ g envelope res, compile_request m ir = Ok g ∧
      envelope = envelope_for ctx (quota m) g ∧
      execution_step g envelope = Some (Ok res) ∧ response_step ctx json_to_string now res = Ok resp ∧
      m' = manager_record_usage m (er_total_cost res) (er_total_tokens res)
  | Ok (Streaming _ guard _) =>
      used_cost m' = used_cost m + nanos (m_estimated_cost (ir_metadata ir)) ∧
      used_tokens m' = used_tokens m + m_estimated_tokens (ir_metadata ir) ∧
      used_cost m' ≤ nanos (hq_max_daily_cost (quota m)) ∧ used_tokens m' ≤ hq_max_daily_tokens (quota m) ∧
      guard_drop default_try_release spawn_accepted guard m' = m
  end.

(** Every request is answered, and its books are settled. If the nodes end
    and the compiled graph is a plain one, the request comes back with a
    response, a stream or an error; after an error or a refused stream the
    quota is as before, after a response it is as before plus the usage the
    run measured, and a stream holds exactly the plan's estimate, within the
    quota, which dropping its guard gives back. *)
Theorem request_settles m ir :
  manager_ok m → valid_usd (m_estimated_cost (ir_metadata ir)) → is_u64 (m_estimated_tokens (ir_metadata ir)) →
  used_cost m + nanos (m_estimated_cost (ir_metadata ir)) ≤ u64_max →
  used_tokens m + m_estimated_tokens (ir_metadata ir) ≤ u64_max →
  (0 < hs_max_concurrent scheduler)%nat →
  (∀ k n c, is_terminal (Some (r_state (run_node k n c))) = true) →
  (∀ g, compile_request m ir = Ok g → plain_dag g ∧ (length (g_nodes g) < fuel)%nat) →
  ∃ r m', process_request m ir = Some (r, m') ∧ request_outcome m ir r m'.
Proof.
  intros Hm Hec Het Hfc Hft Hmc Hterm Hplain. unfold process_request.
  destruct (compile_request m ir) as [g|e] eqn:Hc; [|by eexists _, _].
  destruct (compile_request_inv _ _ _ Hc) as [Hest _]. destruct (Hplain g eq_refl) as [Hdag Hfuel].
  unfold reservation_step. destruct (try_reserve m g) as [[] m1] eqn:Hr; csimpl.
  2:{ pose proof (try_reserve_spec m g Hm) as Hs. rewrite Hr in Hs.
      destruct Hs as (_ & _ & _ & ->); [by unfold estimate_ok; rewrite Hest|]. by eexists _, _. }
  destruct (reserve_release m g m1) as (Hrel & Hq & Hc1 & Ht1 & Hlc & Hlt); [done| | | |done|].
  1-3: by unfold estimate_ok; rewrite Hest.
  rewrite Hest in Hc1, Ht1. rewrite Hq.
  assert (guard_drop default_try_release spawn_accepted (guard_new g true) m1 = m) as Hdrop
    by by rewrite guard_drop_releases_once.
  destruct (streamed g) as [[reg n]|].
  { unfold native_stream_sse. destruct (reg _) as [u|[re|msg]]; eexists _, _; (split; [done|]); try done. }
  unfold orchestrate. rewrite Hdrop.
  destruct (execution_step g (envelope_for ctx (quota m) g)) as [[res|e]|] eqn:He; csimpl.
  - destruct (response_step _ _ _ res) as [resp|e] eqn:Hresp; eexists _, _; (split; [done|]); [|done].
    by exists g, (envelope_for ctx (quota m) g), res.
  - by eexists _, _.
  - exfalso. revert He. unfold execution_step, run_crates. set (i := mkInstance _ _ _ _ _ _ _ _ _).
    destruct (crates_run_inner scheduler run_node elapsed fuel i (Some token)) as (c & ->).
    destruct (run_inner_outcome (in_graph i) (crates_scheduler scheduler) run_node (Some token)
      (fst <$> in_budget_envelope i) elapsed fuel c) as (r & -> & _); try done.
    by rewrite crates_max_concurrent.
Qed.
End request.
End process.

(** ** Client tools, end to end *)
Section client_tools.
Context `{!HashIter string} `{!HashIter N}.
Context (json_to_string : json → string).
Context (new_v5 : Uuid → string → Uuid) (uuid_display : Uuid → string).
Context (messages_to_value : list ChatMessage → result string json).
Context (decode : string → result string PolicyDeclaration).
Context (catalog : ModelCatalog) (registry : PolicyRegistry).
Context (provider_completion : Trace → ChatCompletionRequest → result string ChatCompletionResponse).
Context (tool_execute : Trace → string → json → result string json).
Context (elapsed_ms : Trace → Trace → Z).
Context (messages_from_value : json → result string (list ChatMessage)).
Context (value_display : json → string) (values_to_string : list json → result string string).
Context (f64_display : spec_float → string).
Context (executor : DefaultExecutor).

Lemma confined_allowlist ctx tools n0 n id name args :
  cr_tools (pc_request ctx) = Some tools → tools ≠ [] → inject_node messages_to_value ctx n0 = Ok n →
  is_llm_kind (x_kind n) = true → flat n0 → host_tool_ok executor n (EvTool id name args) →
  name ∈ client_tools ctx tools.
Proof.
  intros Ht Hne Hi Hk Hflat (_ & _ & Hleaf). destruct (inject_node_keeps _ _ _ _ Hi) as (_ & _ & Hflat').
  destruct (inject_node_tools _ _ _ _ _ Ht Hne Hi Hk) as [n1 Hn1].
  destruct (x_subgraph n) as [sg|] eqn:Hsg.
  - destruct Hleaf as (sub & l & Hsub & Hl & _ & Hkl & Hal).
    pose proof (leaf_of_flat sub l (Hflat' Hflat sg sub Hsg Hsub) Hl) as ->.
    rewrite (propagated_allowlist ctx tools n1 sub) in Hal; [done|]. right. exists sg. by rewrite <- Hn1.
  - destruct Hleaf as (_ & _ & Hal & _). rewrite (propagated_allowlist ctx tools n1 n) in Hal; [done|by left].
Qed.
Lemma client_tools_permitted ctx tools name :
  name ∈ client_tools ctx tools →
  (∃ td, td ∈ tools ∧ td_name td = name) ∧ (∀ l, permitted_client_tools ctx = Some l → name ∈ l).
Proof.
  intros (td & -> & [Hp Htd]%list_elem_of_filter)%list_elem_of_fmap. split; [by exists td|].
  intros l Hl. unfold client_permits in Hp. rewrite Hl in Hp. by apply bool_decide_eq_true in Hp.
Qed.

(** A node without an allowlist, and without one in its subgraph, runs no tool. *)
Lemma offers_none_runs_none n e :
  offers_none n → flat n → host_tool_ok executor n e → ∀ id name args, e ≠ EvTool id name args.
Proof.
  intros [Hn Hsub] Hflat Hok id name args ->. destruct Hok as (_ & _ & Hleaf).
  assert (∀ m, x_config m !! "tool_allowlist" = None → name ∉ tool_allowlist m) as Hnone.
  { intros m Hm. unfold tool_allowlist. rewrite Hm. apply not_elem_of_nil. }
  destruct (x_subgraph n) as [sg|] eqn:Hsg.
  - destruct Hleaf as (sub & l & Hs & Hl & _ & _ & Hal). pose proof (leaf_of_flat sub l (Hflat sg sub Hsg Hs) Hl) as ->.
    by apply (Hnone sub); eauto.
  - destruct Hleaf as (_ & _ & Hal & _). by apply (Hnone n).
Qed.

(** When a request declares tools, then whatever plan it gets and whatever the
    models answer, the model nodes of its compiled graph, the nodes their
    strategies were expanded into included, run only tools that the request
    declares, that are on the operator's list of client tools when there is one,
    and that are registered; and only with automatic execution enabled. Nodes
    of other kinds are not injected into: what they may run is what the plan
    gives them. The plans the server makes give them nothing; see
    [chat_tools_confined] of HostPlanner. *)
Theorem client_tools_confined ctx m ir g tools n nctx t :
  compile_request json_to_string new_v5 uuid_display messages_to_value decode catalog registry ctx m ir = Ok g →
  cr_tools (pc_request ctx) = Some tools → tools ≠ [] →
  n ∈ g_nodes g → is_llm_kind (x_kind n) = true →
  ∃ evs, (host_execute_node provider_completion tool_execute elapsed_ms messages_from_value value_display
            values_to_string f64_display executor n nctx t).2 = t ++ evs ∧
    ∀ id name args, EvTool id name args ∈ evs →
      de_allow_auto_exec executor = true ∧ name ∈ default ∅ (de_tools executor) ∧
      (∃ td, td ∈ tools ∧ td_name td = name) ∧
      (∀ l, permitted_client_tools ctx = Some l → name ∈ l).
Proof.
  intros Hc Ht Hne Hn Hk. destruct (compile_request_inv _ _ _ _ _ _ _ _ _ _ _ Hc) as [_ Hnodes].
  destruct (Hnodes n Hn) as (n0 & _ & Hi).
  destruct (host_tool_events provider_completion tool_execute elapsed_ms messages_from_value value_display
    values_to_string f64_display executor n nctx t) as (evs & -> & Hev).
  exists evs. split; [done|]. intros id name args Hin.
  pose proof (proj1 (Forall_forall _ _) Hev _ Hin) as Hok.
  pose proof (confined_allowlist _ _ _ _ _ _ _ Ht Hne Hi Hk (lower_node_flat _ _ _) Hok) as Hal%client_tools_permitted.
  by destruct Hok as (Ha & Hr & _).
Qed.
End client_tools.

(** ** Concrete requests *)
#[local] Instance pipeline_iter_str : HashIter string := map_to_list_iter string.
#[local] Instance pipeline_iter : HashIter N := map_to_list_iter N.
Definition demo_tools : list ToolDefinition :=
  [mkToolDefinition "shell_command" "" None; mkToolDefinition "calculator" "" None].
Definition demo_chat (stream : bool) : ChatCompletionRequest :=
  mkCompletionRequest "gpt-4o" [mkMessage "user" "hello"] stream None None (Some demo_tools) None None None None.
Definition demo_context (stream : bool) : PipelineContext :=
  mkPipelineContext 77%N (demo_chat stream) None (Some ["calculator"]) None.
Definition demo_manager : DefaultResourceManager :=
  mkManager (mkHostQuota ONE_DOLLAR 100000 10 ∅) 0 0.
Definition chat_plan : WorkflowIR :=
  mkIR 9 [mkIRNode 1 KGenerate Chain (Some "gpt-4o") ∅; mkIRNode 2 KReview Single (Some "critic") ∅]
    [mkIREdge 1 2 None] (mkIRMetadata [] 1 ONE_CENT 500).
Definition compile_demo (ctx : PipelineContext) (m : DefaultResourceManager) : result RouterError ExecutionGraph :=
  compile_request demo_json demo_v5 demo_display (λ _, Ok JNull) (λ _, Err "none") demo_catalog
    (registry_new 0) ctx m chat_plan.
(** Every node uses 1000 tokens; the review fails when [fails] says so. *)
Definition metered_node (fails : bool) (_ : nat) (n : ExecutionNode) (_ : NodeExecContext)
    : NodeExecutionResult :=
  mkResult (if fails && bool_decide (x_kind n = LLMReview) then Failed "provider error" else Succeeded)
    (Some (mkUsage 600 400 1000)) 5 (Some (JString "text")).
Definition process_demo (fails : bool) (ctx : PipelineContext)
    : option (result RouterError ChatOutcome * DefaultResourceManager) :=
  process_request demo_json demo_v5 demo_display (λ _, Ok JNull) (λ _, Err "none") (λ _, Err "none")
    demo_catalog (registry_new 0) (host_scheduler_new 2) true None (metered_node fails) [] 10 0 9 5%N 6%N
    ctx (mkToken (λ _, false) (λ _, false)) true demo_manager chat_plan.

Lemma demo_compiled_plain g :
  compile_demo (demo_context false) demo_manager = Ok g → plain_dag g ∧ (length (g_nodes g) < 9)%nat.
Proof.
  intros Hg. assert (g = default g (match compile_demo (demo_context false) demo_manager with
    | Ok g => Some g | Err _ => None end)) as -> by by rewrite Hg.
  clear Hg. vm_compute. split; [|lia]. apply (plain_dag_by_rank _ N.to_nat); vm_compute; done.
Qed.
Lemma request_settles_witness :
  ∃ r m', process_demo false (demo_context false) = Some (r, m') ∧
    request_outcome demo_json demo_v5 demo_display (λ _, Ok JNull) (λ _, Err "none") demo_catalog
      (registry_new 0) (host_scheduler_new 2) true (metered_node false) [] 10 0 9 5%N 6%N
      (demo_context false) (mkToken (λ _, false) (λ _, false)) demo_manager chat_plan r m'.
Proof.
  apply (request_settles demo_json demo_v5 demo_display (λ _, Ok JNull) (λ _, Err "none")
    (λ _, Err "none") demo_catalog (registry_new 0) (host_scheduler_new 2) true None (metered_node false) []
    10 0 9 5%N 6%N (demo_context false) (mkToken (λ _, false) (λ _, false)) true demo_manager chat_plan).
  - unfold manager_ok, valid_usd; vm_compute; intuition congruence.
  - unfold valid_usd; vm_compute; intuition congruence.
  - unfold is_u64; vm_compute; intuition congruence.
  - vm_compute; congruence.
  - vm_compute; congruence.
  - vm_compute; lia.
  - intros k n c. unfold metered_node. by destruct (false && _).
  - apply demo_compiled_plain.
Defined.

Lemma host_compiler_agrees_witness :
  let eng := host_build_compiler demo_json demo_v5 demo_catalog demo_manager (Some demo_policy) in
  match compile_and_lower demo_json demo_v5 demo_display eng "go" chat_plan with
  | Ok (_, g) => host_compile demo_json demo_v5 demo_display eng chat_plan = Ok g
  | Err (PassFailed _ e | LowerFailed e) => host_compile demo_json demo_v5 demo_display eng chat_plan = Err e
  | Err EmptyIntent => False
  end.
Proof.
  apply (host_compiler_agrees demo_json demo_v5 demo_display
    (host_build_compiler demo_json demo_v5 demo_catalog demo_manager (Some demo_policy)) "go" chat_plan).
  discriminate.
Defined.

(** A model that asks for both declared tools: only the permitted one runs,
    in every step of the chain. *)
Definition eager_provider (t : Trace) (r : ChatCompletionRequest) : result string ChatCompletionResponse :=
  let answer calls := mkCompletionResponse "" "" 0 (cr_model r)
    [mkChoice 0 (mkMessage "assistant" "done") "stop"] None calls in
  if decide (Exists (λ m, role m = "tool") (cr_messages r)) then Ok (answer None)
  else Ok (answer (Some [mkToolCall "1" "shell_command" JNull; mkToolCall "2" "calculator" JNull])).
Definition demo_host : DefaultExecutor :=
  mkDefaultExecutor (Some {["shell_command"; "calculator"]}) true (Some ["calculator"]) None.
Definition run_demo_host (n : ExecutionNode) : Trace :=
  (host_execute_node eager_provider (λ _ _ _, Ok JNull) (λ _ _, 0) (λ _, Err "none") (λ _, "")
     (λ _, Ok "results") (λ _, "") demo_host n (mkCtx ∅ ∅) []).2.
Lemma client_tools_confined_witness :
  ∃ g n, compile_demo (demo_context false) demo_manager = Ok g ∧ head (g_nodes g) = Some n ∧
    length (shell_events (run_demo_host n)) = 2%nat ∧
    ∃ evs, run_demo_host n = [] ++ evs ∧
      ∀ id name args, EvTool id name args ∈ evs →
        de_allow_auto_exec demo_host = true ∧ name ∈ default ∅ (de_tools demo_host) ∧
        (∃ td, td ∈ demo_tools ∧ td_name td = name) ∧
        (∀ l, permitted_client_tools (demo_context false) = Some l → name ∈ l).
Proof.
  destruct (compile_demo (demo_context false) demo_manager) as [g|e] eqn:Hc; [|by vm_compute in Hc].
  destruct (head (g_nodes g)) as [n|] eqn:Hn; [|by vm_compute in Hc; injection Hc as <-].
  exists g, n. split_and!; [reflexivity|done| |].
  - vm_compute in Hc. injection Hc as <-. vm_compute in Hn. injection Hn as <-. by vm_compute.
  - apply (client_tools_confined demo_json demo_v5 demo_display (λ _, Ok JNull) (λ _, Err "none")
      demo_catalog (registry_new 0) eager_provider (λ _ _ _, Ok JNull) (λ _ _, 0) (λ _, Err "none") (λ _, "")
      (λ _, Ok "results") (λ _, "") demo_host (demo_context false) demo_manager chat_plan g demo_tools n
      (mkCtx ∅ ∅) [] Hc).
    + reflexivity.
    + discriminate.
    + by apply head_Some_elem_of.
    + vm_compute in Hc. injection Hc as <-. vm_compute in Hn. injection Hn as <-. reflexivity.
Defined.

(** The usage of a run that ends with a failed node is not recorded: the error
    of the response step leaves before the books are updated, and the release
    of the guard takes the reservation back. *)
Theorem failed_run_usage_unrecorded :
  ∃ g res e,
    compile_demo (demo_context false) demo_manager = Ok g ∧
    execution_step (host_scheduler_new 2) (metered_node true) [] 10 0 9 5%N 6%N (demo_context false)
      (mkToken (λ _, false) (λ _, false)) g (envelope_for (demo_context false) (quota demo_manager) g)
      = Some (Ok res) ∧
    0 < er_total_tokens res ∧ 0 < nanos (er_total_cost res) ∧
    process_demo true (demo_context false) = Some (Err e, demo_manager).
Proof. eexists _, _, _. split_and!; [vm_compute; reflexivity..]. Qed.

(** A rule whose id holds an apostrophe is reported to the client cut short. *)
Theorem quoted_rule_cut_at_apostrophe :
  compilation_error 1%N (ValidationError "policy" None (MsgPolicyDenies "no-bob's-model" "gpt-*" 1%N))
  = PolicyDenied 1%N "no-bob".
Proof. by vm_compute. Qed.
