(* ===== verification/ProviderRouting.v ===== *)
(** * Routing to providers ([src/providers/registry.rs], [router.rs], [factory.rs])

    The registry that maps model names to provider targets, each behind its
    circuit breaker, and tries them in turn; its selection by capability; its
    reload when the configuration changes; and the resolution of a provider's
    API key. Targets are shared behind [Arc]: the registry holds references
    into a store, so that an update of a breaker is seen under every name.
    What a provider answers is a parameter. *)
From S2P Require Import Prelude Text Json Money ExecTypes Graphs WorkQueue Scheduler Runtime MeteredStream HostTypes CircuitBreaker.
From Stdlib Require Import Floats.SpecFloat Ascii.
Open Scope stdpp_scope.
Open Scope Z_scope.

(** ** Capabilities and requirements ([providers/mod.rs]) *)
Record ModelCapabilities := mkCapabilities {
  coding_score : spec_float;
  reasoning_score : spec_float;
  max_context_tokens : Z;
  max_output_tokens : Z;
  supports_tools : bool;
  supports_streaming : bool;
  supports_vision : bool;
  supports_audio : bool;
  supports_pdf : bool;
  supports_json_mode : bool;
  supports_thinking : bool;
  supports_parallel_tools : bool;
  supports_structured_output : bool;
}.
Record ModelRequirements := mkRequirements {
  min_context_tokens : option Z;
  min_coding_score : option spec_float;
  min_reasoning_score : option spec_float;
  requires_tools : bool;
  requires_streaming : bool;
  requires_vision : bool;
  max_cost_per_1k_tokens : option NanoUSD;
  preferred_provider : option string;
}.
Definition cost_per_1k (p : ModelPricing) : NanoUSD :=
  (usd_add (input_cost_per_1k p) (output_cost_per_1k p)).1.
Definition requirements_match (r : ModelRequirements) (c : ModelCapabilities) (p : ModelPricing) : bool :=
  negb (requires_tools r && negb (supports_tools c)) &&
  negb (requires_streaming r && negb (supports_streaming c)) &&
  negb (requires_vision r && negb (supports_vision c)) &&
  match min_context_tokens r with Some m => negb (max_context_tokens c <? m) | None => true end &&
  match min_coding_score r with Some m => negb (SFltb (coding_score c) m) | None => true end &&
  match min_reasoning_score r with Some m => negb (SFltb (reasoning_score c) m) | None => true end &&
  match max_cost_per_1k_tokens r with Some m => negb (nanos m <? nanos (cost_per_1k p)) | None => true end.

(** ** The registry *)
Record ProviderTarget := mkTarget { pt_name : string; pt_breaker : CircuitBreaker }.
(** A reference to a target in the store. *)
Definition TargetRef : Type := nat.
Definition TargetStore : Type := TargetRef → ProviderTarget.
Definition store_set (r : TargetRef) (t : ProviderTarget) (st : TargetStore) : TargetStore :=
  λ r', if decide (r' = r) then t else st r'.
Record ProviderRegistry := mkProviders {
  store_of : TargetStore;
  next_ref : TargetRef;
  targets : gmap string TargetRef;
  prefixes : list (list string * TargetRef);
  capabilities : gmap string ModelCapabilities;
  pricing_map : gmap string ModelPricing;
  default_target : TargetRef;
  pending_default : option TargetRef;
  registry_version : Z;
  candidates : option (gmap string TargetRef);
}.
Definition providers_new (default : ProviderTarget) : ProviderRegistry :=
  mkProviders (λ _, default) 1%nat ∅ [] ∅ ∅ 0%nat None 0 None.
Definition target_name (reg : ProviderRegistry) (r : TargetRef) : string := pt_name (store_of reg r).
Arguments target_name : simpl never.

Definition register_target (ps : list string) (t : ProviderTarget) (reg : ProviderRegistry) : ProviderRegistry :=
  let r := next_ref reg in
  mkProviders (store_set r t (store_of reg)) (S r) (<[pt_name t := r]> (targets reg))
    (prefixes reg ++ [(ps, r)]) (capabilities reg) (pricing_map reg) (default_target reg)
    (pending_default reg) (u64_wrapping_add (registry_version reg) 1) (candidates reg).
Definition set_tables (caps : gmap string ModelCapabilities) (pricing : gmap string ModelPricing)
    (reg : ProviderRegistry) : ProviderRegistry :=
  mkProviders (store_of reg) (next_ref reg) (targets reg) (prefixes reg) caps pricing
    (default_target reg) (pending_default reg) (registry_version reg) (candidates reg).
Definition register_target_with_capabilities (ps : list string) (t : ProviderTarget)
    (caps : ModelCapabilities) (pricing : ModelPricing) (reg : ProviderRegistry) : ProviderRegistry :=
  let reg := register_target ps t reg in
  set_tables (<[pt_name t := caps]> (capabilities reg)) (<[pt_name t := pricing]> (pricing_map reg)) reg.
Definition update_capabilities (name : string) (caps : ModelCapabilities) (reg : ProviderRegistry)
    : ProviderRegistry :=
  match capabilities reg !! name with
  | None => reg
  | Some _ =>
      mkProviders (store_of reg) (next_ref reg) (targets reg) (prefixes reg)
        (<[name := caps]> (capabilities reg)) (pricing_map reg) (default_target reg) (pending_default reg)
        (u64_wrapping_add (registry_version reg) 1) (candidates reg)
  end.
Definition unregister_target (name : string) (reg : ProviderRegistry) : bool * ProviderRegistry :=
  match targets reg !! name with
  | None => (false, reg)
  | Some _ =>
      (true, mkProviders (store_of reg) (next_ref reg) (delete name (targets reg))
         (filter (λ p, target_name reg p.2 ≠ name) (prefixes reg))
         (delete name (capabilities reg)) (delete name (pricing_map reg)) (default_target reg)
         (pending_default reg) (u64_wrapping_add (registry_version reg) 1) (candidates reg))
  end.

Definition registered_prefixes (reg : ProviderRegistry) : list string :=
  dedup (sort_by string_leb (prefixes reg ≫= fst)).

Definition serves (model : string) (p : list string * TargetRef) : bool :=
  existsb (λ prefix, starts_with prefix model) p.1.
Definition get_matching_targets (model : string) (reg : ProviderRegistry) : list TargetRef :=
  let matched := snd <$> filter (λ p, serves model p = true) (prefixes reg) in
  if bool_decide (matched = []) && (length (prefixes reg) <=? 1)%nat then [default_target reg] else matched.

(** ** Trying the targets in turn *)
Definition set_breaker (r : TargetRef) (b : CircuitBreaker) (st : TargetStore) : TargetStore :=
  store_set r (mkTarget (pt_name (st r)) b) st.
(** What happened to a target: its breaker refused, or its provider was called
    and answered well or not. *)
Inductive RouteEvent := EvSkip (r : TargetRef) | EvCall (r : TargetRef) (ok : bool).
Definition RouteTrace : Type := list RouteEvent.
Definition event_ref (e : RouteEvent) : TargetRef := match e with EvSkip r | EvCall r _ => r end.

Section route.
Context {R : Type}.
Context (serve : RouteTrace → TargetRef → ChatCompletionRequest → result string R).
(** The clock when a target is asked, and when its provider has answered. *)
Context (asked answered : RouteTrace → Z).
Context (request : ChatCompletionRequest).

Fixpoint try_targets (rs : list TargetRef) (st : TargetStore) (t : RouteTrace) (last_err : option string)
    : result string R * TargetStore * RouteTrace :=
  match rs with
  | [] => (Err (default ("no available providers for model: " +:+ cr_model request) last_err), st, t)
  | r :: rs =>
      let '(admitted, b) := can_execute (asked t) (pt_breaker (st r)) in
      let st := set_breaker r b st in
      if admitted then
        let answer := serve t r request in
        let st := set_breaker r (record_outcome (answered t) (is_ok answer) (pt_breaker (st r))) st in
        let t := t ++ [EvCall r (is_ok answer)] in
        match answer with
        | Ok resp => (Ok resp, st, t)
        | Err e => try_targets rs st t (Some e)
        end
      else try_targets rs st (t ++ [EvSkip r]) last_err
  end.

Definition with_store (st : TargetStore) (reg : ProviderRegistry) : ProviderRegistry :=
  mkProviders st (next_ref reg) (targets reg) (prefixes reg) (capabilities reg) (pricing_map reg)
    (default_target reg) (pending_default reg) (registry_version reg) (candidates reg).
(** [chat_completion], and [chat_stream] up to the stream it hands out. *)
Definition route (reg : ProviderRegistry)
    : result (RouterError + string) R * ProviderRegistry * RouteTrace :=
  match get_matching_targets (cr_model request) reg with
  | [] => (Err (inl (NoRouteForModel (cr_model request) (registered_prefixes reg))), reg, [])
  | rs =>
      let '(res, st, t) := try_targets rs (store_of reg) [] None in
      (map_err inr res, with_store st reg, t)
  end.
End route.

(** The monitor around the items of a stream: the first error counts. *)
Definition monitored_item {E A} (r : TargetRef) (acc : bool * TargetStore) (item : Z * result E A)
    : bool * TargetStore :=
  let '(seen_error, st) := acc in
  match item.2 with
  | Err _ => if seen_error then acc
             else (true, set_breaker r (record_failure item.1 (pt_breaker (st r))) st)
  | Ok _ => acc
  end.

(** ** Selection by capability *)
Section select.
Context `{!HashIter string}.
Definition eligible (reqs : ModelRequirements) (reg : ProviderRegistry) (r : TargetRef) : bool :=
  let name := target_name reg r in
  match capabilities reg !! name, pricing_map reg !! name with
  | Some c, Some p => requirements_match reqs c p
  | _, _ => true
  end.
Definition listed_cost (reg : ProviderRegistry) (r : TargetRef) : Z :=
  match pricing_map reg !! target_name reg r with
  | Some p => nanos (cost_per_1k p)
  | None => u64_max
  end.
(** [filter(|t| t.can_execute())] asks every breaker in turn. *)
Definition admit_target (now : Z) (acc : list TargetRef * TargetStore) (r : TargetRef) : list TargetRef * TargetStore :=
  let '(ok, b) := can_execute now (pt_breaker (acc.2 r)) in
  (if ok then acc.1 ++ [r] else acc.1, set_breaker r b acc.2).
Definition select_targets (now : Z) (reqs : ModelRequirements) (reg : ProviderRegistry)
    : list TargetRef * ProviderRegistry :=
  let '(admitted, st) := foldl (admit_target now) ([], store_of reg) (map_values (targets reg)) in
  (sort_by (λ a b, listed_cost reg a <=? listed_cost reg b)
     (filter (λ r, eligible reqs reg r = true) admitted), with_store st reg).
End select.

(** ** API keys ([factory.rs], [runtime/policy.rs]) *)
Definition ascii_upper (c : ascii) : ascii :=
  let n := nat_of_ascii c in if (97 <=? n)%nat && (n <=? 122)%nat then ascii_of_nat (n - 32) else c.
Fixpoint to_ascii_uppercase (s : string) : string :=
  match s with "" => "" | String c s => String (ascii_upper c) (to_ascii_uppercase s) end.

Definition secret_shaped (upper : string) : bool :=
  ends_with "_KEY" upper || ends_with "_TOKEN" upper || ends_with "_SECRET" upper || ends_with "_PASSWORD" upper.
(** The error is the text of [GateError::PermissionDenied]. *)
Definition check_environment (var_name : string) : result string unit :=
  let var := trim var_name in
  if decide (var = "") then Err "environment variable name must not be empty or '*'"
  else if decide (var = "*") then Err "environment variable name must not be empty or '*'"
  else
    let upper := to_ascii_uppercase var in
    let infrastructure := "reading environment variable '" +:+ var +:+ "' is denied: router infrastructure secret" in
    if decide (upper = "FUSION_MASTER_KEY") then Err infrastructure
    else if starts_with "FUSION_" upper && secret_shaped upper then Err infrastructure
    else if negb (secret_shaped upper) then
      Err ("environment variable '" +:+ var +:+ "' is not an allowed key/token/secret/password name")
    else Ok tt.

(** The fields of [ProviderConfig] that routing reads. *)
Record ProviderConfig := mkProviderConfig {
  api_key : option string;
  api_key_env : option string;
  api_key_encrypted : option string;
  cfg_failure_threshold : Z;
  cfg_cooldown_secs : Z;
}.

Section keys.
(** [std::env::var], with [Err] for a variable that is unset or not Unicode. *)
Context (env_var : string → option string).
(** [SecretManager::from_env] and [decrypt]. *)
Context (secret_manager : result string (string → result string string)).
(** [GateError]'s [Display] of a denial. *)
Context (gate_error : string → string).

Definition non_blank (o : option string) : option string :=
  v ← o; if decide (trim v = "") then None else Some v.
(** The variable that [{env:VAR}] names. *)
Definition env_reference (direct : string) : option string :=
  rest ← strip_prefix "{env:" direct; strip_suffix_char "}"%char rest.
Definition read_env (denied : string → string) (var : string) : result string (option string) :=
  match check_environment var with
  | Err e => Err (denied (gate_error e))
  | Ok _ => Ok (non_blank (env_var var))
  end.
Definition direct_key (provider : string) (direct : string) : result string (option string) :=
  match env_reference direct with
  | Some var =>
      read_env (λ e, "provider '" +:+ provider +:+ "': env interpolation of '" +:+ var +:+ "' denied: " +:+ e) var
  | None => Ok (non_blank (Some direct))
  end.
Definition env_key (provider : string) (var : string) : result string (option string) :=
  read_env (λ e, "provider '" +:+ provider +:+ "': api_key_env '" +:+ var +:+ "' denied: " +:+ e) var.
Definition encrypted_key (provider encrypted : string) : result string string :=
  map_err (λ e, "provider '" +:+ provider +:+ "': " +:+ e)
    (decrypt ← secret_manager; decrypt encrypted).
Definition opt_key {A} (f : A → result string (option string)) (o : option A) : result string (option string) :=
  match o with Some a => f a | None => Ok None end.
Definition resolve_api_key (cfg : ProviderConfig) (provider : string) (unsafe_dev : bool)
    : result string string :=
  direct ← opt_key (direct_key provider) (api_key cfg);
  match direct with
  | Some k => Ok k
  | None =>
      env ← opt_key (env_key provider) (api_key_env cfg);
      match env, non_blank (api_key_encrypted cfg) with
      | Some k, _ => Ok k
      | None, Some encrypted => encrypted_key provider encrypted
      | None, None =>
          if unsafe_dev then Ok ("test-key-" +:+ provider)
          else Err ("provider '" +:+ provider +:+ "' has no API key configured; set `api_key`, `api_key_env`, " +:+
                    "`api_key_encrypted`, or run with --unsafe-dev")
      end
  end.

(** ** Reload ([prepare] and [commit]) *)
Context `{!HashIter string}.
Definition select_default_provider_name (names : list string) : option string := head (sort_by string_leb names).
(** The breaker and the name; the provider behind it is built lazily. *)
Definition create_reload_target (name : string) (cfg : ProviderConfig) : ProviderTarget :=
  mkTarget name (breaker_new (cfg_failure_threshold cfg) 3 (cfg_cooldown_secs cfg)).
(** One provider of the new configuration: its target is allocated. *)
Definition stage_provider (acc : TargetStore * TargetRef * gmap string TargetRef)
    (entry : string * ProviderConfig) : result string (TargetStore * TargetRef * gmap string TargetRef) :=
  let '(st, r, cands) := acc in
  let '(name, cfg) := entry in
  _ ← resolve_api_key cfg name false;
  Ok (store_set r (create_reload_target name cfg) st, S r, <[name := r]> cands).
Definition prepare (new : gmap string ProviderConfig) (reg : ProviderRegistry)
    : result string unit * ProviderRegistry :=
  match try_fold stage_provider (store_of reg, next_ref reg, ∅) (map_iter new) with
  | Err e => (Err e, reg)
  | Ok (st, r, cands) =>
      (Ok tt, mkProviders st r (targets reg) (prefixes reg) (capabilities reg) (pricing_map reg)
         (default_target reg) (select_default_provider_name (map_keys new) ≫= (cands !!.))
         (registry_version reg) (Some cands))
  end.
Definition commit (reg : ProviderRegistry) : ProviderRegistry :=
  match candidates reg with
  | None => reg
  | Some cands =>
      let kept {V} (m : gmap string V) :=
        filter (λ kv : string * V, targets reg !! kv.1 = None ∨ is_Some (cands !! kv.1)) m in
      mkProviders (store_of reg) (next_ref reg) cands
        ((λ kv, ([kv.1 +:+ "/"], kv.2)) <$> map_iter cands)
        (kept (capabilities reg)) (kept (pricing_map reg))
        (default (default_target reg) (pending_default reg)) None
        (u64_wrapping_add (registry_version reg) 1) None
  end.
End keys.

(** ** Properties of routing *)
Lemma elem_of_take_sub {A} (x : A) n l : x ∈ take n l → x ∈ l.
Proof. intros (i & Hi & _)%elem_of_take. by eapply list_elem_of_lookup_2. Qed.

Section route_props.
Context {R : Type}.
Context (serve : RouteTrace → TargetRef → ChatCompletionRequest → result string R).
Context (asked answered : RouteTrace → Z).
Context (request : ChatCompletionRequest).
Notation try_targets := (try_targets serve asked answered request).

Definition quiet (e : RouteEvent) : Prop := ∀ r, e ≠ EvCall r true.
(** What an event did to its target, after the events [t]. *)
Definition explained (t : RouteTrace) (b b' : ProviderTarget) (e : RouteEvent) : Prop :=
  pt_name b' = pt_name b ∧
  match e with
  | EvSkip r => can_execute (asked t) (pt_breaker b) = (false, pt_breaker b')
  | EvCall r ok => ok = is_ok (serve t r request) ∧ ∃ c,
      can_execute (asked t) (pt_breaker b) = (true, c) ∧ pt_breaker b' = record_outcome (answered t) ok c
  end.
(** The error of the last provider that was called. *)
Definition last_failure (t0 t : RouteTrace) (otherwise e : string) : Prop :=
  (∃ i r, t !! i = Some (EvCall r false) ∧ serve (t0 ++ take i t) r request = Err e ∧
     ∀ j r' ok, (i < j)%nat → t !! j ≠ Some (EvCall r' ok)) ∨
  ((∀ r ok, EvCall r ok ∉ t) ∧ e = otherwise).

Definition turn_of (st : TargetStore) (t0 : RouteTrace) (r : TargetRef) : RouteEvent :=
  if (can_execute (asked t0) (pt_breaker (st r))).1 then EvCall r (is_ok (serve t0 r request)) else EvSkip r.
Definition after_turn (st : TargetStore) (t0 : RouteTrace) (r : TargetRef) : TargetStore :=
  let '(admitted, b) := can_execute (asked t0) (pt_breaker (st r)) in
  let st := set_breaker r b st in
  if admitted
  then set_breaker r (record_outcome (answered t0) (is_ok (serve t0 r request)) (pt_breaker (st r))) st
  else st.

Lemma store_set_eq r t st : store_set r t st r = t.
Proof. unfold store_set. by rewrite decide_True. Qed.
Lemma store_set_ne r r' t st : r' ≠ r → store_set r t st r' = st r'.
Proof. intros. unfold store_set. by rewrite decide_False. Qed.

Lemma after_turn_other st t0 r r' : r' ≠ r → after_turn st t0 r r' = st r'.
Proof.
  intros Hne. unfold after_turn, set_breaker.
  by destruct (can_execute _ _) as [[] b]; rewrite ?store_set_ne.
Qed.
Lemma after_turn_explained st t0 r : explained t0 (st r) (after_turn st t0 r r) (turn_of st t0 r).
Proof.
  unfold explained, after_turn, turn_of, set_breaker.
  destruct (can_execute _ _) as [[] b] eqn:Hc; csimpl; rewrite !store_set_eq; csimpl; [|done].
  split_and!; [done..|]. by exists b.
Qed.

Lemma try_targets_turn r rs st t0 le :
  try_targets (r :: rs) st t0 le =
  match turn_of st t0 r, serve t0 r request with
  | EvCall _ _, Ok resp => (Ok resp, after_turn st t0 r, t0 ++ [EvCall r true])
  | EvCall _ _, Err e => try_targets rs (after_turn st t0 r) (t0 ++ [EvCall r false]) (Some e)
  | EvSkip _, _ => try_targets rs (after_turn st t0 r) (t0 ++ [EvSkip r]) le
  end.
Proof.
  cbn [ProviderRouting.try_targets]. unfold turn_of, after_turn.
  destruct (can_execute _ _) as [[] b]; csimpl; [|done]. by destruct (serve t0 r request).
Qed.

Definition no_provider : string := "no available providers for model: " +:+ cr_model request.
Record routed (rs : list TargetRef) (st : TargetStore) (t0 : RouteTrace) (le : option string)
    (res : result string R) (st' : TargetStore) (t : RouteTrace) : Prop := {
  rt_order : event_ref <$> t = take (length t) rs;
  rt_others : ∀ r, r ∉ event_ref <$> t → st' r = st r;
  rt_explained : NoDup rs → ∀ i e, t !! i = Some e →
    explained (t0 ++ take i t) (st (event_ref e)) (st' (event_ref e)) e;
  rt_result : match res with
    | Ok resp => ∃ pre r, t = pre ++ [EvCall r true] ∧ Forall quiet pre ∧ serve (t0 ++ pre) r request = Ok resp
    | Err e => length t = length rs ∧ Forall quiet t ∧ last_failure t0 t (default no_provider le) e
    end;
}.

Lemma last_failure_cons t0 t e otherwise msg :
  quiet e →
  last_failure (t0 ++ [e]) t (match e with EvCall r _ => match serve t0 r request with Err m => m | Ok _ => otherwise end
                              | EvSkip _ => otherwise end) msg →
  (∀ r, e = EvCall r false → is_ok (serve t0 r request) = false) →
  last_failure t0 (e :: t) otherwise msg.
Proof.
  intros Hq Hl He. destruct Hl as [(i & r & Hi & Hs & Hlast)|[Hnone ->]].
  - left. exists (S i), r. csimpl. split_and!; [done|by rewrite <- app_assoc in Hs|].
    intros [|j] r' ok Hj; [lia|]. csimpl. apply Hlast. lia.
  - destruct e as [r|r [|]]; [right|by destruct (Hq r)|left].
    + split; [|done]. intros r' ok. rewrite not_elem_of_cons. by split.
    + exists 0%nat, r. specialize (He r eq_refl). csimpl. rewrite app_nil_r.
      destruct (serve t0 r request); csimpl in *; [done|]. split_and!; [done..|].
      intros [|j] r' ok Hj Hl; [lia|]. csimpl in Hl. apply list_elem_of_lookup_2 in Hl. by eapply Hnone.
Qed.

Lemma routed_cons r rs st t0 le le' res st' t :
  let e := turn_of st t0 r in
  routed rs (after_turn st t0 r) (t0 ++ [e]) le' res st' t → quiet e →
  default no_provider le' = (match e with EvCall r _ => match serve t0 r request with Err m => m
      | Ok _ => default no_provider le end | EvSkip _ => default no_provider le end) →
  routed (r :: rs) st t0 le res st' (e :: t).
Proof.
  intros e [Ho Hr Hx Hres] Hq Hle.
  assert (event_ref e = r) as Her by (unfold e, turn_of; by destruct (can_execute _ _).1).
  split.
  - csimpl. by rewrite Her, Ho.
  - csimpl. intros r'. rewrite not_elem_of_cons. intros [Hne Hn]. rewrite Hr by done.
    apply after_turn_other. congruence.
  - intros [Hn Hnd]%NoDup_cons [|i] e' Hi; csimpl in Hi.
    + injection Hi as <-. rewrite Her, app_nil_r, Hr; [apply after_turn_explained|].
      rewrite Ho. intros Hin. by apply Hn, (elem_of_take_sub _ _ _ Hin).
    + specialize (Hx Hnd i e' Hi). csimpl. rewrite <- app_assoc in Hx. csimpl in Hx.
      rewrite after_turn_other in Hx; [done|]. intros Heq. apply Hn. rewrite <- Heq.
      apply list_elem_of_lookup_2 in Hi. apply (list_elem_of_fmap_2 event_ref) in Hi. rewrite Ho in Hi.
      by apply (elem_of_take_sub _ _ _ Hi).
  - destruct res as [resp|msg].
    + destruct Hres as (pre & r' & -> & Hpre & Hs). exists (e :: pre), r'. csimpl.
      rewrite <- app_assoc in Hs. split_and!; [done|by constructor|done].
    + destruct Hres as (Hlen & Hqt & Hl). csimpl. split_and!; [lia|by constructor|].
      apply last_failure_cons; [done|by rewrite <- Hle|]. intros r' He. unfold e, turn_of in He.
      destruct (can_execute _ _).1; [by injection He as <- Hf|done].
Qed.

Lemma try_targets_spec rs st t0 le :
  let '(res, st', t') := try_targets rs st t0 le in ∃ t, t' = t0 ++ t ∧ routed rs st t0 le res st' t.
Proof.
  revert st t0 le. induction rs as [|r rs IH]; intros st t0 le.
  { csimpl. exists []. rewrite app_nil_r. split; [done|]. split; try done. csimpl.
    split_and!; [done..|]. right. split; [|done]. intros r ok. apply not_elem_of_nil. }
  rewrite try_targets_turn. destruct (turn_of st t0 r) as [r'|r' ok] eqn:He.
  - assert (r' = r) as -> by (unfold turn_of in He; destruct (can_execute _ _).1; congruence).
    specialize (IH (after_turn st t0 r) (t0 ++ [EvSkip r]) le).
    destruct (try_targets rs _ _ _) as [[res st'] t']. destruct IH as (t & -> & Ht).
    exists (EvSkip r :: t). rewrite <- app_assoc. split; [done|].
    rewrite <- He in Ht |- *. eapply routed_cons; [exact Ht|by rewrite He|by rewrite He].
  - assert (r' = r ∧ ok = is_ok (serve t0 r request)) as [-> ->]
      by (unfold turn_of in He; destruct (can_execute _ _).1; split; congruence).
    destruct (serve t0 r request) as [resp|msg] eqn:Hs; csimpl in He.
    + exists [EvCall r true]. split; [done|]. split; csimpl.
      * by rewrite take_0.
      * intros r'. rewrite not_elem_of_cons. intros [Hne _]. by apply after_turn_other.
      * intros _ [|i] e Hi; csimpl in Hi; [|done]. injection Hi as <-. csimpl. rewrite app_nil_r, <- He.
        apply after_turn_explained.
      * exists [], r. by rewrite app_nil_r.
    + specialize (IH (after_turn st t0 r) (t0 ++ [EvCall r false]) (Some msg)).
      destruct (try_targets rs _ _ _) as [[res st'] t']. destruct IH as (t & -> & Ht).
      exists (EvCall r false :: t). rewrite <- app_assoc. split; [done|].
      rewrite <- He in Ht |- *. eapply routed_cons; [exact Ht|by rewrite He|]. rewrite He. csimpl. by rewrite Hs.
Qed.
End route_props.

(** ** The registry's invariant *)
Record providers_wf (reg : ProviderRegistry) : Prop := {
  pw_distinct : NoDup (snd <$> prefixes reg);
  pw_routes : ∀ ps r, (ps, r) ∈ prefixes reg → (r < next_ref reg)%nat ∧ is_Some (targets reg !! target_name reg r);
  pw_targets : ∀ n r, targets reg !! n = Some r → (r < next_ref reg)%nat ∧ target_name reg r = n;
  pw_default : (default_target reg < next_ref reg)%nat;
  pw_pending : ∀ r, pending_default reg = Some r → (r < next_ref reg)%nat;
  pw_candidates : ∀ c n r, candidates reg = Some c → c !! n = Some r →
    (r < next_ref reg)%nat ∧ target_name reg r = n;
}.

Lemma providers_new_wf t : providers_wf (providers_new t).
Proof. split; csimpl; try done; [constructor|by intros ?? ?%elem_of_nil|lia]. Qed.

Lemma register_target_wf ps t reg : providers_wf reg → providers_wf (register_target ps t reg).
Proof.
  intros [Hd Hr Ht Hdef Hp Hc].
  assert (∀ r, (r < next_ref reg)%nat → target_name (register_target ps t reg) r = target_name reg r) as Hold.
  { intros r Hlt. unfold target_name; csimpl. rewrite store_set_ne by lia. done. }
  assert (target_name (register_target ps t reg) (next_ref reg) = pt_name t) as Hnew.
  { unfold target_name; csimpl. by rewrite store_set_eq. }
  split; csimpl; csimpl in Hold; csimpl in Hnew.
  - rewrite fmap_app. csimpl. apply NoDup_app. split_and!; [done| |apply NoDup_singleton].
    intros r Hin ->%list_elem_of_singleton. apply list_elem_of_fmap in Hin as ([qs r] & Heq & Hin).
    csimpl in Heq. destruct (Hr _ _ Hin). lia.
  - intros qs r [Hin|[= -> ->]%list_elem_of_singleton]%elem_of_app.
    + destruct (Hr _ _ Hin) as [Hlt [x Hx]]. split; [lia|]. rewrite Hold by done.
      destruct (decide (target_name reg r = pt_name t)) as [->|Hne];
        [rewrite lookup_insert_eq|rewrite lookup_insert_ne by congruence]; by eexists.
    + split; [lia|]. rewrite Hnew, lookup_insert_eq. by eexists.
  - intros n r. destruct (decide (n = pt_name t)) as [->|Hne].
    + rewrite lookup_insert_eq. intros [= <-]. split; [lia|done].
    + rewrite lookup_insert_ne by done. intros Hn. destruct (Ht _ _ Hn). split; [lia|]. by rewrite Hold.
  - lia.
  - intros r Hpd. specialize (Hp r Hpd). lia.
  - intros c n r Hcc Hn. destruct (Hc c n r Hcc Hn). split; [lia|]. by rewrite Hold.
Qed.

Lemma unregister_target_wf name reg : providers_wf reg → providers_wf (unregister_target name reg).2.
Proof.
  intros Hwf. unfold unregister_target. destruct (targets reg !! name) as [r0|] eqn:Hr0; [|done].
  destruct Hwf as [Hd Hr Ht Hdef Hp Hc]. split; csimpl; try done.
  - eapply sublist_NoDup; [exact Hd|]. by apply fmap_sublist, sublist_filter.
  - intros ps r [Hne Hin]%list_elem_of_filter. csimpl in Hne. destruct (Hr _ _ Hin) as [Hlt Hs]. split; [done|].
    unfold target_name in *; csimpl in *. rewrite lookup_delete_ne; [done|congruence].
  - intros n r Hn. apply lookup_delete_Some in Hn as [_ Hn]. by apply Ht.
Qed.

(** A change of breakers only. *)
Lemma with_store_wf st reg :
  (∀ r, pt_name (st r) = pt_name (store_of reg r)) → providers_wf reg → providers_wf (with_store st reg).
Proof.
  intros Hst [Hd Hr Ht Hdef Hp Hc].
  assert (∀ r, target_name (with_store st reg) r = target_name reg r) as Hn by apply Hst.
  split; csimpl; try done.
  - intros ps r Hin. rewrite Hn. by apply (Hr ps).
  - intros n r Hl. rewrite Hn. by apply Ht.
  - intros c n r Hcc Hl. rewrite Hn. by eapply Hc.
Qed.

Lemma set_breaker_name r b st r' : pt_name (set_breaker r b st r') = pt_name (st r').
Proof. unfold set_breaker, store_set. by case_decide; subst. Qed.
Lemma try_targets_names {R} (serve : RouteTrace → TargetRef → ChatCompletionRequest → result string R)
    asked answered request rs st t le r :
  pt_name ((try_targets serve asked answered request rs st t le).1.2 r) = pt_name (st r).
Proof.
  revert st t le. induction rs as [|r0 rs IH]; intros st t le; [done|]. cbn [try_targets].
  destruct (can_execute _ _) as [[] b]; [|by rewrite IH, set_breaker_name].
  destruct (serve t r0 request); csimpl; rewrite ?IH, !set_breaker_name; done.
Qed.
Lemma route_wf {R} (serve : RouteTrace → TargetRef → ChatCompletionRequest → result string R)
    asked answered request reg :
  providers_wf reg → providers_wf (route serve asked answered request reg).1.2.
Proof.
  intros Hwf. unfold route. destruct (get_matching_targets _ reg) as [|r rs]; [done|].
  pose proof (try_targets_names serve asked answered request (r :: rs) (store_of reg) [] None) as Hn.
  destruct (try_targets _ _ _ _ _ _ _ _) as [[res st] t]. csimpl in *. by apply with_store_wf.
Qed.

(** ** Reload *)
Section reload.
Context (env_var : string → option string).
Context (secret_manager : result string (string → result string string)).
Context (gate_error : string → string).
Context `{!HashIter string}.
Notation prepare := (prepare env_var secret_manager gate_error).

(** The targets that [prepare] has allocated for the providers it has seen. *)
Record staged_ok (reg : ProviderRegistry) (new : list (string * ProviderConfig))
    (acc : TargetStore * TargetRef * gmap string TargetRef) : Prop := {
  so_next : (next_ref reg ≤ acc.1.2)%nat;
  so_old : ∀ r, (r < next_ref reg)%nat → acc.1.1 r = store_of reg r;
  so_new : ∀ n r, acc.2 !! n = Some r → (next_ref reg ≤ r < acc.1.2)%nat ∧ pt_name (acc.1.1 r) = n;
  so_names : ∀ n, is_Some (acc.2 !! n) ↔ n ∈ new.*1;
  so_targets : ∀ n r, acc.2 !! n = Some r → ∃ cfg, (n, cfg) ∈ new ∧ acc.1.1 r = create_reload_target n cfg;
  so_keys : ∀ n cfg, (n, cfg) ∈ new → ∃ k, resolve_api_key env_var secret_manager gate_error cfg n false = Ok k;
}.
Lemma staged reg new :
  match try_fold (stage_provider env_var secret_manager gate_error) (store_of reg, next_ref reg, ∅) new with
  | Ok acc => staged_ok reg new acc
  | Err _ => True
  end.
Proof.
  apply (try_fold_inv _ (staged_ok reg) True).
  - split; csimpl; try done; [|by intros n cfg ?%elem_of_nil]. intros n. rewrite elem_of_nil, lookup_empty. by split; intros [].
  - intros seen [n cfg] [[st r] cands] _ Hok. destruct Hok as [Hn Ho Hnew Hnames Htgt Hkeys]. csimpl in *.
    destruct (resolve_api_key _ _ _ cfg n false) as [key|] eqn:Hkey; csimpl; [|done]. split; csimpl.
    + lia.
    + intros r' Hr'. rewrite store_set_ne by lia. auto.
    + intros n' r'. destruct (decide (n' = n)) as [->|Hne].
      * rewrite lookup_insert_eq. intros [= <-]. rewrite store_set_eq. split; [lia|done].
      * rewrite lookup_insert_ne by done. intros Hl. destruct (Hnew _ _ Hl) as [? <-].
        rewrite store_set_ne by lia. split; [lia|done].
    + intros n'. rewrite fmap_app, elem_of_app, <- Hnames. csimpl. rewrite list_elem_of_singleton.
      destruct (decide (n' = n)) as [->|Hne]; [rewrite lookup_insert_eq|rewrite lookup_insert_ne by done];
        naive_solver.
    + intros n' r'. destruct (decide (n' = n)) as [->|Hne].
      * rewrite lookup_insert_eq. intros [= <-]. exists cfg. rewrite store_set_eq. set_solver.
      * rewrite lookup_insert_ne by done. intros Hl. destruct (Hnew _ _ Hl) as [? _].
        destruct (Htgt _ _ Hl) as (cfg' & Hin & Hst). exists cfg'. rewrite store_set_ne by lia. set_solver.
    + intros n' cfg' [Hin|[= -> ->]%list_elem_of_singleton]%elem_of_app; eauto.
Qed.

Lemma prepare_wf new reg : providers_wf reg → providers_wf (prepare new reg).2.
Proof.
  intros Hwf. unfold ProviderRouting.prepare. pose proof (staged reg (map_iter new)) as Hs.
  destruct (try_fold _ _ _) as [[[st r] cands]|e]; [|done]. csimpl in *.
  destruct Hs as [Hn Ho Hnew _ _ _], Hwf as [Hd Hr Ht Hdef Hp Hc]. csimpl in *.
  assert (∀ x, (x < next_ref reg)%nat → pt_name (st x) = target_name reg x) as Hname
    by (intros x Hx; by rewrite Ho).
  split; csimpl; unfold target_name in *; csimpl.
  - done.
  - intros ps x Hin. destruct (Hr _ _ Hin) as [Hlt Hs]. split; [lia|]. by rewrite Hname.
  - intros n x Hl. destruct (Ht _ _ Hl). split; [lia|]. by rewrite Hname.
  - lia.
  - intros x Hx. apply bind_Some in Hx as (n & _ & Hx). destruct (Hnew _ _ Hx). lia.
  - intros c n x [= <-] Hx. destruct (Hnew _ _ Hx). split; [lia|done].
Qed.

(** Preparing allocates targets and stages them; what is registered stays. *)
Lemma prepare_keeps new reg :
  let reg1 := (prepare new reg).2 in
  prefixes reg1 = prefixes reg ∧ targets reg1 = targets reg ∧ default_target reg1 = default_target reg ∧
  capabilities reg1 = capabilities reg ∧ pricing_map reg1 = pricing_map reg ∧
  ∀ r, (r < next_ref reg)%nat → store_of reg1 r = store_of reg r.
Proof.
  unfold ProviderRouting.prepare. pose proof (staged reg (map_iter new)) as Hs.
  destruct (try_fold _ _ _) as [[[st r] cands]|e]; [|done]. csimpl. split_and!; [done..|]. apply (so_old _ _ _ Hs).
Qed.
(** The targets of a reload are made from the configuration. *)
Lemma reloaded_targets new reg reg1 :
  prepare new reg = (Ok tt, reg1) →
  (∀ n, store_of (commit reg1) <$> (targets (commit reg1) !! n) = create_reload_target n <$> new !! n) ∧
  (∀ n cfg, new !! n = Some cfg → ∃ k, resolve_api_key env_var secret_manager gate_error cfg n false = Ok k).
Proof.
  unfold ProviderRouting.prepare. pose proof (staged reg (map_iter new)) as Hs.
  destruct (try_fold _ _ _) as [[[st x] cands]|e]; [|done]. intros [= <-].
  destruct Hs as [_ _ _ Hnames Htgt Hkeys]. csimpl in *. split.
  - intros n. specialize (Hnames n). change ((map_iter new).*1) with (map_keys new) in Hnames.
    rewrite elem_of_map_keys in Hnames. destruct (cands !! n) as [r|] eqn:Hr; csimpl.
    + destruct (Htgt _ _ Hr) as (cfg & Hin%elem_of_map_iter & ->). by rewrite Hin.
    + destruct (new !! n) as [cfg|] eqn:Hn; [|done]. destruct Hnames as [_ [? [=]]]. by eexists.
  - intros n cfg Hn. apply Hkeys. by apply elem_of_map_iter.
Qed.

Lemma commit_wf reg : providers_wf reg → providers_wf (commit reg).
Proof.
  intros Hwf. unfold commit. destruct (candidates reg) as [cands|] eqn:Hcs; [|done].
  destruct Hwf as [Hd Hr Ht Hdef Hp Hc]. split; csimpl; try done.
  - rewrite <- list_fmap_compose. apply (NoDup_fmap_1 (target_name reg)).
    rewrite <- list_fmap_compose.
    rewrite (Forall_fmap_ext_1 _ fst); [apply map_keys_NoDup|].
    apply Forall_forall. intros [n r] Hin%elem_of_map_iter. csimpl. by destruct (Hc _ _ _ Hcs Hin).
  - intros ps r ([n r'] & [= -> ->] & Hin%elem_of_map_iter)%list_elem_of_fmap.
    destruct (Hc _ _ _ Hcs Hin) as [Hlt Hn]. unfold target_name in *; csimpl. split; [done|]. rewrite Hn. by eexists.
  - intros n r Hl. by apply (Hc cands).
  - destruct (pending_default reg) as [r|] eqn:Hpd; csimpl; [by apply Hp|done].
Qed.
End reload.

(** ** Routing decisions *)
Section decisions.
Context {R : Type}.
Context (serve : RouteTrace → TargetRef → ChatCompletionRequest → result string R).
Context (asked answered : RouteTrace → Z).
Context (request : ChatCompletionRequest).

Definition registered_for (model : string) (reg : ProviderRegistry) (r : TargetRef) : Prop :=
  ∃ ps p, (ps, r) ∈ prefixes reg ∧ p ∈ ps ∧ starts_with p model = true.
Lemma elem_of_matched model reg r :
  r ∈ snd <$> filter (λ p, serves model p = true) (prefixes reg) ↔ registered_for model reg r.
Proof.
  unfold registered_for, serves. rewrite list_elem_of_fmap. split.
  - intros ([ps r'] & -> & [(p & Hp & Hs)%existsb_exists Hin]%list_elem_of_filter). csimpl in *.
    exists ps, p. split_and!; [done|by apply list_elem_of_In|done].
  - intros (ps & p & Hin & Hp & Hs). exists (ps, r). split; [done|]. apply list_elem_of_filter.
    split; [|done]. apply existsb_exists. exists p. split; [by apply list_elem_of_In|done].
Qed.
(** The targets of a model: those registered for it, all of them, in the order
    of the registry's list; or the default, when the list has at most one entry
    and none matches. *)
Definition route_order (model : string) (reg : ProviderRegistry) (rs : list TargetRef) : Prop :=
  (sublist rs (snd <$> prefixes reg) ∧ ∀ r, r ∈ rs ↔ registered_for model reg r) ∨
  (rs = [default_target reg] ∧ (length (prefixes reg) ≤ 1)%nat ∧ ∀ r, ¬ registered_for model reg r).
Lemma matching_cases model reg :
  (get_matching_targets model reg = [] ∧ (∀ r, ¬ registered_for model reg r) ∧ (1 < length (prefixes reg))%nat) ∨
  (get_matching_targets model reg ≠ [] ∧ route_order model reg (get_matching_targets model reg)).
Proof.
  unfold get_matching_targets. pose proof (elem_of_matched model reg) as Hm.
  assert (sublist (snd <$> filter (λ p, serves model p = true) (prefixes reg)) (snd <$> prefixes reg)) as Hsub
    by apply fmap_sublist, sublist_filter.
  destruct (snd <$> filter _ (prefixes reg)) as [|r rs].
  - assert (∀ r, ¬ registered_for model reg r) as Hno by (intros r Hr; by apply Hm, elem_of_nil in Hr).
    rewrite bool_decide_true by done. csimpl.
    destruct (Nat.leb_spec (length (prefixes reg)) 1); [right|by left]. split; [done|]. by right.
  - rewrite bool_decide_false by done. csimpl. right. split; [done|]. by left.
Qed.

(** C15. Routing fails closed and fails over. A request is answered with "no
    route" exactly when no registered prefix matches its model and more than
    one provider is registered. Otherwise its targets are asked one after the
    other and each at most once: all the ones registered for the model, in the
    order of the registry's list, to which registering appends, or the default
    when at most one provider is registered and nothing matches ([route_order]).
    A target whose breaker refuses is skipped, every other is called
    and its outcome told to its breaker, and no other breaker changes; the
    first good answer is returned, and without one the error of the last
    provider that was called. *)
Theorem route_exact reg :
  providers_wf reg →
  let '(res, reg', t) := route serve asked answered request reg in
  let model := cr_model request in
  ((∃ e, res = Err (inl e)) ↔ (∀ r, ¬ registered_for model reg r) ∧ (1 < length (prefixes reg))%nat) ∧
  match res with
  | Err (inl e) => e = NoRouteForModel model (registered_prefixes reg) ∧ reg' = reg ∧ t = []
  | _ => ∃ rs res0 st', res = map_err inr res0 ∧ reg' = with_store st' reg ∧
      rs ≠ [] ∧ NoDup rs ∧ route_order model reg rs ∧
      routed serve asked answered request rs (store_of reg) [] None res0 st' t
  end.
Proof.
  intros Hwf. unfold route.
  assert (NoDup (get_matching_targets (cr_model request) reg)) as Hnd.
  { unfold get_matching_targets. case_match; [apply NoDup_singleton|].
    eapply sublist_NoDup; [apply (pw_distinct _ Hwf)|]. by apply fmap_sublist, sublist_filter. }
  pose proof (matching_cases (cr_model request) reg) as Hcases.
  destruct (get_matching_targets (cr_model request) reg) as [|r rs].
  - csimpl. destruct Hcases as [(_ & Hno & Hl)|(? & _)]; [|done].
    split; [|done]. split; [done|]. by eexists.
  - pose proof (try_targets_spec serve asked answered request (r :: rs) (store_of reg) [] None) as Hs.
    destruct (try_targets _ _ _ _ (r :: rs) _ _ _) as [[res0 st'] t']. destruct Hs as (t & -> & Ht). csimpl.
    destruct Hcases as [(? & _)|(_ & Hord)]; [done|]. split.
    + split; [by destruct res0 as [x|x]; intros [e He]|]. intros [Hno Hl]. exfalso.
      destruct Hord as [[_ Hin]|(_ & Hle & _)]; [|lia]. apply (Hno r), Hin. by left.
    + destruct res0 as [resp|msg]; csimpl; [exists (r :: rs), (Ok resp), st'|exists (r :: rs), (Err msg), st']; by split_and!.
Qed.
End decisions.

(** ** Histories *)
Section history.
Context {R : Type} `{!HashIter string}.
Context (env_var : string → option string).
Context (secret_manager : result string (string → result string string)).
Context (gate_error : string → string).
Context (serve : RouteTrace → TargetRef → ChatCompletionRequest → result string R).
Context (asked answered : RouteTrace → Z).
Notation prepare := (prepare env_var secret_manager gate_error).

(** The configuration manager commits a reload only if it could be prepared. *)
Definition reload (new : gmap string ProviderConfig) (reg : ProviderRegistry) : ProviderRegistry :=
  match prepare new reg with
  | (Ok _, reg) => commit reg
  | (Err _, reg) => reg
  end.
Inductive ProvidersOp :=
| OpRegister (ps : list string) (t : ProviderTarget) (tables : option (ModelCapabilities * ModelPricing))
| OpUpdate (name : string) (caps : ModelCapabilities)
| OpUnregister (name : string)
| OpReload (new : gmap string ProviderConfig)
| OpRequest (request : ChatCompletionRequest).
Definition providers_step (reg : ProviderRegistry) (op : ProvidersOp) : ProviderRegistry :=
  match op with
  | OpRegister ps t None => register_target ps t reg
  | OpRegister ps t (Some (c, p)) => register_target_with_capabilities ps t c p reg
  | OpUpdate name caps => update_capabilities name caps reg
  | OpUnregister name => (unregister_target name reg).2
  | OpReload new => reload new reg
  | OpRequest request => (route serve asked answered request reg).1.2
  end.
Definition providers_run (default : ProviderTarget) (ops : list ProvidersOp) : ProviderRegistry :=
  foldl providers_step (providers_new default) ops.

Lemma providers_step_wf reg op : providers_wf reg → providers_wf (providers_step reg op).
Proof.
  intros Hwf. destruct op as [ps t [[c p]|]|name caps|name|new|request]; csimpl.
  - by destruct (register_target_wf ps t reg Hwf).
  - by apply register_target_wf.
  - unfold update_capabilities. destruct (capabilities reg !! name); [by destruct Hwf|done].
  - by apply unregister_target_wf.
  - unfold reload. pose proof (prepare_wf env_var secret_manager gate_error new reg Hwf) as Hp.
    destruct (prepare new reg) as [[] reg']; csimpl in Hp; [by apply commit_wf|done].
  - by apply route_wf.
Qed.
Lemma providers_run_wf default ops : providers_wf (providers_run default ops).
Proof.
  unfold providers_run. pose proof (providers_new_wf default) as Hwf. revert Hwf.
  generalize (providers_new default). induction ops as [|op ops IH]; intros reg Hwf; [done|].
  csimpl. by apply IH, providers_step_wf.
Qed.

(** After a reload that could be prepared. *)
Lemma reload_targets new reg reg1 :
  prepare new reg = (Ok tt, reg1) →
  (∀ n, is_Some (targets (commit reg1) !! n) ↔ is_Some (new !! n)) ∧
  (∀ model r, registered_for model (commit reg1) r ↔
     ∃ n, targets (commit reg1) !! n = Some r ∧ starts_with (n +:+ "/") model = true) ∧
  (∀ n, select_default_provider_name (map_keys new) = Some n →
     targets (commit reg1) !! n = Some (default_target (commit reg1))).
Proof.
  unfold ProviderRouting.prepare. pose proof (staged env_var secret_manager gate_error reg (map_iter new)) as Hs.
  destruct (try_fold _ _ _) as [[[st x] cands]|e]; [|done]. intros [= <-].
  destruct Hs as [_ _ Hnew Hnames _ _]. csimpl in *. split_and!.
  - intros n. rewrite Hnames. change ((map_iter new).*1) with (map_keys new). apply elem_of_map_keys.
  - intros model r. unfold registered_for; csimpl. split.
    + intros (ps & p & ([n r'] & [= -> ->] & Hin%elem_of_map_iter)%list_elem_of_fmap & ->%list_elem_of_singleton & Hp). eauto.
    + intros (n & Hn & Hp). exists [n +:+ "/"], (n +:+ "/"). split_and!; [|set_solver|done].
      apply list_elem_of_fmap. exists (n, r). split; [done|]. by apply elem_of_map_iter.
  - intros n Hn. rewrite Hn. csimpl.
    assert (is_Some (cands !! n)) as [r Hr].
    { apply Hnames. unfold select_default_provider_name in Hn. apply head_Some_elem_of in Hn.
      by apply elem_of_sort_by in Hn. }
    by rewrite Hr.
Qed.

(** The routes follow the configuration. After any history of registrations,
    removals, reloads and requests, a route leads only to a target whose name
    is registered; removing a name leaves no route to it; and a reload that
    succeeds leaves one target for each configured provider, served under its
    name followed by a slash and under nothing else, with the provider of the
    smallest name as default. *)
Theorem routes_follow_registry default ops :
  let reg := providers_run default ops in
  (∀ model r, registered_for model reg r → is_Some (targets reg !! target_name reg r)) ∧
  (∀ name model r, let reg' := (unregister_target name reg).2 in
     registered_for model reg' r → target_name reg' r ≠ name) ∧
  (∀ new reg1, prepare new reg = (Ok tt, reg1) →
     let reg' := reload new reg in
     (∀ n, is_Some (targets reg' !! n) ↔ is_Some (new !! n)) ∧
     (∀ n r, targets reg' !! n = Some r → target_name reg' r = n) ∧
     (∀ model r, registered_for model reg' r ↔
        ∃ n, targets reg' !! n = Some r ∧ starts_with (n +:+ "/") model = true) ∧
     (∀ n, select_default_provider_name (map_keys new) = Some n → targets reg' !! n = Some (default_target reg'))).
Proof.
  intros reg. pose proof (providers_run_wf default ops) as Hwf. fold reg in Hwf. split_and!.
  - intros model r (ps & p & Hin & _). by apply (pw_routes _ Hwf ps).
  - intros name model r reg' (ps & p & Hin & _). revert Hin. unfold reg', unregister_target.
    destruct (targets reg !! name) as [r0|] eqn:Hn; csimpl.
    + by intros [Hne _]%list_elem_of_filter.
    + intros Hin <-. destruct (pw_routes _ Hwf ps r Hin) as [_ [x Hx]]. congruence.
  - intros new reg1 Hp reg2. unfold reg2. destruct (reload_targets new reg reg1 Hp) as (H1 & H2 & H3).
    unfold reload. pose proof (prepare_wf env_var secret_manager gate_error new reg Hwf) as Hw.
    rewrite Hp in Hw |- *. split_and!; try done. intros n r Hn.
    by apply (pw_targets (commit reg1) (commit_wf reg1 Hw)).
Qed.
End history.

(** ** Keys *)

(** The router's own secrets are not read as credentials: variables named like
    a [FUSION_] secret, and names that are not shaped like one at all, cannot
    influence the key that is resolved; and whatever is resolved outside
    development mode is a literal of the configuration, an allowed variable's
    value, or a decrypted ciphertext. *)
Theorem infrastructure_secrets_unread env env' manager gate_error cfg provider unsafe_dev :
  (∀ v, starts_with "FUSION_" (to_ascii_uppercase (trim v)) = false →
        secret_shaped (to_ascii_uppercase (trim v)) = true → env v = env' v) →
  resolve_api_key env manager gate_error cfg provider unsafe_dev =
    resolve_api_key env' manager gate_error cfg provider unsafe_dev ∧
  (∀ k, resolve_api_key env manager gate_error cfg provider false = Ok k →
     api_key cfg = Some k ∨ (∃ v, check_environment v = Ok tt ∧ env v = Some k) ∨
     ∃ dec c, manager = Ok dec ∧ api_key_encrypted cfg = Some c ∧ dec c = Ok k).
Proof.
  assert (∀ v, check_environment v = Ok tt → starts_with "FUSION_" (to_ascii_uppercase (trim v)) = false ∧
    secret_shaped (to_ascii_uppercase (trim v)) = true) as Hchk.
  { intros v. unfold check_environment. repeat (case_decide; [done|]).
    destruct (secret_shaped _); [|by rewrite andb_false_r]. rewrite andb_true_r.
    by destruct (starts_with "FUSION_" _). }
  intros Henv. assert (∀ f v, read_env env gate_error f v = read_env env' gate_error f v) as Hread.
  { intros f v. unfold read_env. destruct (check_environment v) as [[]|] eqn:Hv; [|done].
    destruct (Hchk v Hv). by rewrite Henv. }
  assert (∀ o k, non_blank o = Some k → o = Some k) as Hnb.
  { intros o k Hk. unfold non_blank in Hk. apply bind_Some in Hk as (v & -> & Hk). by case_decide; simplify_eq. }
  assert (∀ f v k, read_env env gate_error f v = Ok (Some k) → check_environment v = Ok tt ∧ env v = Some k) as Hr.
  { intros f v k. unfold read_env. destruct (check_environment v) as [[]|]; [|done]. intros [= Hk]. auto. }
  split.
  - unfold resolve_api_key.
    replace (opt_key (direct_key env gate_error provider) (api_key cfg))
      with (opt_key (direct_key env' gate_error provider) (api_key cfg))
      by (destruct (api_key cfg); [|done]; csimpl; unfold direct_key; case_match; [|done]; by rewrite Hread).
    replace (opt_key (env_key env gate_error provider) (api_key_env cfg))
      with (opt_key (env_key env' gate_error provider) (api_key_env cfg))
      by (destruct (api_key_env cfg); [|done]; csimpl; unfold env_key; by rewrite Hread).
    done.
  - intros k. unfold resolve_api_key.
    destruct (opt_key (direct_key _ _ _) (api_key cfg)) as [[k1|]|] eqn:H1; csimpl; [| |done].
    { intros [= ->]. destruct (api_key cfg) as [d|]; csimpl in H1; [|done]. unfold direct_key in H1.
      destruct (env_reference d) as [v|]; [right; left; eauto|]. injection H1 as H1. left. by apply Hnb. }
    destruct (opt_key (env_key _ _ _) (api_key_env cfg)) as [[k2|]|] eqn:H2; csimpl; [| |done].
    { intros [= ->]. destruct (api_key_env cfg) as [v|]; csimpl in H2; [|done]. unfold env_key in H2.
      right; left. eauto. }
    destruct (non_blank (api_key_encrypted cfg)) as [c|] eqn:H3; [|done]. unfold encrypted_key.
    destruct manager as [dec|]; csimpl; [|done]. destruct (dec c) eqn:Hd; csimpl; [|done].
    intros [= ->]. right; right. eauto 6.
Qed.

(** ** Concrete routes *)
#[local] Instance routing_iter : HashIter string := map_to_list_iter string.
Definition demo_target (name : string) (failures : Z) : ProviderTarget := mkTarget name (breaker_new failures 2 30).
Definition demo_route_request (model : string) : ChatCompletionRequest :=
  mkCompletionRequest model [] false None None None None None None None.
Definition two_providers : ProviderRegistry :=
  register_target ["b/"] (demo_target "b" 1)
    (register_target ["a/"; "b/"] (demo_target "a" 1) (providers_new (demo_target "default" 1))).
(** The first provider fails, the second answers. *)
Definition demo_serve (_ : RouteTrace) (r : TargetRef) (_ : ChatCompletionRequest) : result string string :=
  if decide (r = 1%nat) then Err "down" else Ok "hello".
Lemma two_providers_wf : providers_wf two_providers.
Proof. by repeat apply register_target_wf; apply providers_new_wf. Qed.

Lemma route_exact_witness :
  let '(res, reg', t) := route demo_serve (λ _, 0) (λ _, 1) (demo_route_request "b/m") two_providers in
  res = Ok "hello" ∧ t = [EvCall 1%nat false; EvCall 2%nat true] ∧
  ((∃ e, res = Err (inl e)) ↔ (∀ r, ¬ registered_for "b/m" two_providers r) ∧ (1 < length (prefixes two_providers))%nat) ∧
  match res with
  | Err (inl e) => e = NoRouteForModel "b/m" (registered_prefixes two_providers) ∧ reg' = two_providers ∧ t = []
  | _ => ∃ rs res0 st', res = map_err inr res0 ∧ reg' = with_store st' two_providers ∧
      rs ≠ [] ∧ NoDup rs ∧ route_order "b/m" two_providers rs ∧
      routed demo_serve (λ _, 0) (λ _, 1) (demo_route_request "b/m") rs (store_of two_providers) [] None res0 st' t
  end.
Proof.
  pose proof (route_exact demo_serve (λ _, 0) (λ _, 1) (demo_route_request "b/m") two_providers two_providers_wf) as H.
  destruct (route demo_serve (λ _, 0) (λ _, 1) (demo_route_request "b/m") two_providers) as [[res reg'] t] eqn:Hr.
  assert (res = Ok "hello" ∧ t = [EvCall 1%nat false; EvCall 2%nat true]) as [-> ->].
  { split; [change res with ((res, reg', t).1.1)|change t with ((res, reg', t).2)]; rewrite <- Hr; reflexivity. }
  split; [reflexivity|split; [reflexivity|exact H]].
Defined.
Lemma infrastructure_secrets_unread_witness :
  let cfg := mkProviderConfig (Some "{env:OPENAI_API_KEY}") None None 3 30 in
  let env (v : string) := if decide (v = "OPENAI_API_KEY") then Some "sk-1" else Some "secret" in
  let env' (v : string) := if decide (v = "OPENAI_API_KEY") then Some "sk-1"
                           else if decide (v = "FUSION_MASTER_KEY") then None else Some "secret" in
  resolve_api_key env (Err "none") (λ e, e) cfg "openai" false = Ok "sk-1" ∧
  resolve_api_key env (Err "none") (λ e, e) cfg "openai" false =
    resolve_api_key env' (Err "none") (λ e, e) cfg "openai" false.
Proof.
  intros cfg env env'. split; [reflexivity|].
  apply (infrastructure_secrets_unread env env' (Err "none") (λ e, e) cfg "openai" false).
  intros v Hv _. unfold env, env'. case_decide; [done|]. case_decide; [|done]. subst v. vm_compute in Hv. discriminate.
Defined.

(** Streams that break after they were opened never open the circuit of a
    target that tolerates a failure: every connection counts as a success
    first, which clears the count of failures. *)
Definition flaky_round (reg : ProviderRegistry) : ProviderRegistry :=
  let '(_, reg', _) := route (λ _ _ _, Ok tt) (λ _, 0) (λ _, 0) (demo_route_request "m") reg in
  with_store (monitored_item (A := unit) 0%nat (false, store_of reg') (0, Err "reset")).2 reg'.
Theorem flaky_streams_never_open ft st cd n :
  2 ≤ ft →
  cb_state (pt_breaker (store_of (Nat.iter n flaky_round (providers_new (mkTarget "p" (breaker_new ft st cd)))) 0%nat))
  = Closed.
Proof.
  intros Hft. set (reg := Nat.iter n _ _).
  assert (prefixes reg = [] ∧ default_target reg = 0%nat ∧
    ∃ f, pt_breaker (store_of reg 0%nat) = mkBreaker ft st cd Closed f 0 None false) as (_ & _ & f & ->); [|done].
  subst reg. induction n as [|n (Hp & Hd & f & Hb)]; [by csimpl; eauto|]. rewrite Nat.iter_succ.
  set (reg := Nat.iter n _ _) in *. unfold flaky_round, route, get_matching_targets. rewrite Hp, Hd. csimpl.
  rewrite Hb. csimpl. split_and!; [done..|].
  change (u32_succ 0) with 1. destruct (Z.leb_spec ft 1); [lia|]. by eexists.
Qed.

(** Choosing targets by capability asks every breaker, so it takes the probe
    of a target that has cooled down without calling it: the target refuses
    the requests that follow. *)
Theorem selection_takes_probe :
  ∃ reg, (select_targets 100000000000 (mkRequirements None None None false false false None None) reg).1 = [1%nat] ∧
    let reg' := (select_targets 100000000000 (mkRequirements None None None false false false None None) reg).2 in
    (route (λ _ _ _, Ok tt) (λ _, 200000000000) (λ _, 0) (demo_route_request "a/m") reg).2 = [EvCall 1%nat true] ∧
    (route (λ _ _ _, Ok tt) (λ _, 200000000000) (λ _, 0) (demo_route_request "a/m") reg').2 = [EvSkip 1%nat].
Proof.
  exists (register_target ["a/"] (mkTarget "a" (record_failure 0 (breaker_new 1 2 30)))
            (providers_new (demo_target "default" 1))).
  by vm_compute.
Qed.

(** A name that is registered again keeps its old target among the routes, in
    front of the new one. *)
Theorem replaced_target_still_routed :
  let reg := register_target ["a/"] (demo_target "a" 5)
    (register_target ["a/"] (demo_target "a" 1) (providers_new (demo_target "default" 1))) in
  targets reg !! "a" = Some 2%nat ∧ get_matching_targets "a/m" reg = [1%nat; 2%nat].
Proof. by vm_compute. Qed.
