(* ===== verification/Access.v ===== *)
(** * Access control ([src/middleware/auth.rs], [rate_limit.rs])

    The two middlewares in front of every endpoint. Authentication: the table
    of key digests built from the configuration, the decision on a request
    and the reload of the table; the hexadecimal SHA-256 digest is a
    parameter. Rate limiting: token buckets in binary64 arithmetic, their cap,
    their cleanup, and the identity a request is counted under. Instants are
    nanoseconds. *)
From S2P Require Import Prelude Text Money.
From Stdlib Require Import Floats.SpecFloat Ascii.
Open Scope stdpp_scope.
Open Scope Z_scope.

(** ** Keys *)
Record AuthConfig := mkAuthConfig { auth_enabled : bool; api_keys : list string }.
Record KeyGrants := mkGrants { operator : bool }.
Record AuthSnapshot := mkAuthSnapshot { enabled : bool; keys : gmap string KeyGrants }.
Definition MAX_API_KEY_BYTES : Z := 1024.
Definition byte_len (s : string) : Z := Z.of_nat (String.length s).

Inductive KeyScope := ChatScope | OperatorScope.
(** [str::rsplit_once] *)
Definition rsplit_once (c : ascii) (s : string) : option (string * string) :=
  match split_once c (String.rev s) with
  | Some (after, before) => Some (String.rev before, String.rev after)
  | None => None
  end.
Definition parse_key_entry (entry : string) : option (string * KeyScope) :=
  let trimmed := trim entry in
  if decide (trimmed = "") then None
  else match rsplit_once ":"%char trimmed with
    | Some (raw, scope) =>
        if decide (scope = "operator") then Some (trim raw, OperatorScope)
        else if decide (scope = "chat") then Some (trim raw, ChatScope)
        else None
    | None => Some (trimmed, ChatScope)
    end.

Section auth.
Context (digest : string → string).

Definition add_entry (keys : gmap string KeyGrants) (entry : string) : gmap string KeyGrants :=
  match parse_key_entry entry with
  | None => keys
  | Some (raw, scope) =>
      if MAX_API_KEY_BYTES <? byte_len raw then keys
      else <[digest raw := mkGrants match scope with OperatorScope => true | ChatScope => false end]> keys
  end.
Definition from_config (c : AuthConfig) : AuthSnapshot :=
  mkAuthSnapshot (auth_enabled c) (foldl add_entry ∅ (api_keys c)).
Definition api_key_matches (provided : string) (configured : list string) : bool :=
  if (MAX_API_KEY_BYTES <? byte_len provided) || bool_decide (provided = "") then false
  else existsb (λ candidate, (byte_len candidate <=? MAX_API_KEY_BYTES) && negb (bool_decide (candidate = "")) &&
                             bool_decide (digest candidate = digest provided)) configured.
Definition key_identity (provided : string) : string := "key:" +:+ digest provided.
Definition requires_operator (path : string) : bool :=
  bool_decide (path = "/metrics") || starts_with "/v1/operations" path || starts_with "/v1/executions" path.

(** What the middleware reads of a request; a header that is not text counts
    as absent. *)
Record HttpRequest := mkHttpRequest { req_path : string; x_api_key : option string; peer_ip : option string }.
(** The request goes on, with the identity and grants it was given if any. *)
Inductive AuthDecision := Proceed (identity : option (string * KeyGrants)) | Unauthorized | Forbidden.
Definition auth_middleware (handle : option AuthSnapshot) (req : HttpRequest) : AuthDecision :=
  match handle with
  | None => Unauthorized
  | Some snapshot =>
      if negb (enabled snapshot) then Proceed None
      else if decide (req_path req = "/health") then Proceed None
      else if decide (req_path req = "/ready") then Proceed None
      else match x_api_key req with
        | None => Unauthorized
        | Some key =>
            if bool_decide (key = "") || (MAX_API_KEY_BYTES <? byte_len key) then Unauthorized
            else match keys snapshot !! digest key with
              | None => Unauthorized
              | Some grants =>
                  if requires_operator (req_path req) && negb (operator grants) then Forbidden
                  else Proceed (Some (key_identity key, grants))
              end
        end
  end.

(** [AuthReloader] *)
Record AuthReloader := mkReloader { handle : AuthSnapshot; staged : option AuthSnapshot }.
Definition auth_prepare (c : AuthConfig) (r : AuthReloader) : result string unit * AuthReloader :=
  let snapshot := from_config c in
  if enabled snapshot && bool_decide (keys snapshot = ∅)
  then (Err "auth enabled but no valid api_keys entries", r)
  else (Ok tt, mkReloader (handle r) (Some snapshot)).
Definition auth_commit (r : AuthReloader) : AuthReloader :=
  match staged r with
  | Some snap => mkReloader snap None
  | None => r
  end.

(** ** The decision *)

(** The scope of the last entry for a key decides. *)
Definition entry_scope (key entry : string) : option bool :=
  match parse_key_entry entry with
  | Some (raw, scope) =>
      if decide (raw = key) then Some (match scope with OperatorScope => true | ChatScope => false end) else None
  | None => None
  end.
Definition granted (c : AuthConfig) (key : string) : option bool := last (omap (entry_scope key) (api_keys c)).

Lemma keys_lookup key entries m :
  byte_len key ≤ MAX_API_KEY_BYTES →
  (∀ e raw scope, e ∈ entries → parse_key_entry e = Some (raw, scope) → digest raw = digest key → raw = key) →
  foldl add_entry m entries !! digest key =
  match last (omap (entry_scope key) entries) with
  | Some op => Some (mkGrants op)
  | None => m !! digest key
  end.
Proof.
  intros Hlen Hcol. revert m. induction entries as [|e entries IH]; intros m; [done|]. cbn [foldl].
  rewrite IH by (intros; eapply Hcol; [by apply elem_of_cons; right|done..]). clear IH.
  assert (add_entry m e !! digest key =
    match entry_scope key e with Some op => Some (mkGrants op) | None => m !! digest key end) as He.
  { unfold add_entry, entry_scope. destruct (parse_key_entry e) as [[raw scope]|] eqn:Hp; [|done].
    case_decide as Hr.
    - subst raw. destruct (Z.ltb_spec MAX_API_KEY_BYTES (byte_len key)); [lia|]. by rewrite lookup_insert_eq.
    - destruct (MAX_API_KEY_BYTES <? byte_len raw); [done|]. apply lookup_insert_ne. intros Hd. apply Hr.
      eapply Hcol; [by apply elem_of_cons; left|done|done]. }
  cbn [omap list_omap]. destruct (entry_scope key e) as [op|]; [|by rewrite He].
  rewrite last_cons, He. by destruct (last (omap (entry_scope key) entries)).
Qed.

(** C14. Access is what the configuration says. With authentication enabled, a
    request for anything but the two probes gets through exactly with a key
    that some entry names, of at most 1024 bytes; the last entry for the key
    decides its scope, and the operator's surfaces need the operator's scope.
    The digests of the configured keys must not collide with the one
    presented. *)
Theorem access_decided_by_config c req :
  auth_enabled c = true → req_path req ≠ "/health" → req_path req ≠ "/ready" →
  (∀ key e raw scope, x_api_key req = Some key → e ∈ api_keys c →
     parse_key_entry e = Some (raw, scope) → digest raw = digest key → raw = key) →
  auth_middleware (Some (from_config c)) req =
  match x_api_key req with
  | Some key =>
      if decide (key ≠ "" ∧ byte_len key ≤ MAX_API_KEY_BYTES) then
        match granted c key with
        | Some op => if requires_operator (req_path req) && negb op then Forbidden
                     else Proceed (Some (key_identity key, mkGrants op))
        | None => Unauthorized
        end
      else Unauthorized
  | None => Unauthorized
  end.
Proof.
  intros Hen Hh Hr Hcol. unfold auth_middleware. cbn [enabled from_config]. rewrite Hen. cbn [negb].
  rewrite !decide_False by done. destruct (x_api_key req) as [key|]; [|done].
  case_decide as Hd.
  - destruct Hd as [Hne Hlen]. rewrite bool_decide_false by done.
    destruct (Z.ltb_spec MAX_API_KEY_BYTES (byte_len key)); [lia|]. csimpl.
    rewrite keys_lookup; [|done|by eauto]. unfold granted. by destruct (last _).
  - destruct (decide (key = "")) as [->|Hne]; [done|]. rewrite bool_decide_false by done.
    destruct (Z.ltb_spec MAX_API_KEY_BYTES (byte_len key)); [done|]. by destruct Hd.
Qed.
End auth.

(** ** Rate limiting *)
Record RateLimitingConfig := mkRateConfig {
  requests_per_minute : Z; burst_size : Z; cleanup_interval_secs : Z }.
Record Bucket := mkBucket { tokens : f64; last_refill : Z; last_access : Z }.
Record RateLimiter := mkLimiter { buckets : gmap string Bucket; rate_config : RateLimitingConfig }.
Definition MAX_BUCKETS : Z := 100000.
Definition limiter_new (c : RateLimitingConfig) : RateLimiter := mkLimiter ∅ c.
Definition update_config (c : RateLimitingConfig) (l : RateLimiter) : RateLimiter := mkLimiter (buckets l) c.

(** [f64::min] *)
Definition f64_min (a b : f64) : f64 :=
  match SFcompare a b with
  | Some Gt => b
  | Some _ => a
  | None => match a with S754_nan => b | _ => a end
  end.
(** [x.ceil() as u64] *)
Definition f64_ceil_u64 (x : f64) : Z :=
  match x with
  | S754_finite false m e =>
      Z.min (if (0 <=? e) then Zpos m * 2 ^ e else (Zpos m + 2 ^ (- e) - 1) `div` 2 ^ (- e)) u64_max
  | S754_infinity false => u64_max
  | _ => 0
  end.
(** [now.duration_since(then).as_secs_f64()]; a clock that runs behind gives 0. *)
Definition elapsed_secs (now before : Z) : f64 :=
  let d := Z.max (now - before) 0 in
  f64_add (f64_of_int (d `div` 1000000000)) (f64_div (f64_of_int (d `mod` 1000000000)) f64_1e9).

Definition refill_tokens (c : RateLimitingConfig) (now : Z) (b : Bucket) : Bucket :=
  let rate := f64_div (f64_of_int (requests_per_minute c)) (f64_of_int 60) in
  mkBucket (f64_min (f64_add (tokens b) (f64_mul (elapsed_secs now (last_refill b)) rate))
              (f64_of_int (burst_size c)))
    now (last_access b).
Definition retry_after (c : RateLimitingConfig) : Z :=
  let rpm := f64_of_int (requests_per_minute c) in
  if SFleb rpm (f64_of_int 0) then 60
  else f64_ceil_u64 (f64_div (f64_of_int 1) (f64_div rpm (f64_of_int 60))).
(** The bucket of a client at one request: the answer and what is left. *)
Definition take_token (c : RateLimitingConfig) (refill access : Z) (b : Bucket) : result Z unit * Bucket :=
  let b := refill_tokens c refill b in
  let b := mkBucket (tokens b) (last_refill b) access in
  if SFleb (f64_of_int 1) (tokens b)
  then (Ok tt, mkBucket (f64_sub (tokens b) (f64_of_int 1)) (last_refill b) (last_access b))
  else (Err (retry_after c), b).
Definition fresh_bucket (c : RateLimitingConfig) (now : Z) : Bucket := mkBucket (f64_of_int (burst_size c)) now now.
(** [check_rate], under the gate; the three readings of the clock. *)
Definition check_rate (client : string) (created refill access : Z) (l : RateLimiter)
    : result Z unit * RateLimiter :=
  match buckets l !! client with
  | None =>
      if MAX_BUCKETS <=? Z.of_nat (size (buckets l)) then (Err 429, l)
      else let '(r, b) := take_token (rate_config l) refill access (fresh_bucket (rate_config l) created) in
           (r, mkLimiter (<[client := b]> (buckets l)) (rate_config l))
  | Some b =>
      let '(r, b) := take_token (rate_config l) refill access b in
      (r, mkLimiter (<[client := b]> (buckets l)) (rate_config l))
  end.
(** One turn of the cleanup task; [interval] was read when it was started. *)
Definition cleanup (interval now : Z) (l : RateLimiter) : RateLimiter :=
  mkLimiter (filter (λ kb : string * Bucket, now - interval * 2 * 1000000000 < last_access kb.2) (buckets l))
    (rate_config l).
Definition cleanup_interval (c : RateLimitingConfig) : Z := Z.max (cleanup_interval_secs c) 1.

Definition client_identity (req : HttpRequest) (authenticated : option string) : string :=
  match authenticated, peer_ip req with
  | Some identity, _ => identity
  | None, Some ip => "peer:" +:+ ip
  | None, None => "unknown"
  end.
Inductive RateDecision := RateProceed | RateUnavailable | TooManyRequests (retry : Z).
Definition rate_limit_middleware (limiter : option RateLimiter) (req : HttpRequest) (authenticated : option string)
    (created refill access : Z) : RateDecision * option RateLimiter :=
  match limiter with
  | None => (RateUnavailable, None)
  | Some l =>
      if decide (req_path req ∈ ["/health"; "/ready"; "/metrics"]) then (RateProceed, Some l)
      else match check_rate (client_identity req authenticated) created refill access l with
        | (Ok _, l) => (RateProceed, Some l)
        | (Err retry, l) => (TooManyRequests retry, Some l)
        end
  end.

(** ** Histories of the limiter *)
Inductive LimiterOp :=
| Check (client : string) (created refill access : Z)
| Cleanup (interval now : Z)
| Reconfigure (c : RateLimitingConfig).
Definition limiter_step (l : RateLimiter) (op : LimiterOp) : option (result Z unit) * RateLimiter :=
  match op with
  | Check client t1 t2 t3 => let '(r, l) := check_rate client t1 t2 t3 l in (Some r, l)
  | Cleanup interval now => (None, cleanup interval now l)
  | Reconfigure c => (None, update_config c l)
  end.
Fixpoint limiter_run (l : RateLimiter) (ops : list LimiterOp) : list (option (result Z unit)) * RateLimiter :=
  match ops with
  | [] => ([], l)
  | op :: ops => let '(a, l) := limiter_step l op in let '(as_, l) := limiter_run l ops in (a :: as_, l)
  end.
(** What a client sees of a history: everything but the requests of others. *)
Definition seen_by (client : string) (op : LimiterOp) : Prop :=
  match op with Check c _ _ _ => c = client | _ => True end.
#[global] Instance seen_by_dec client op : Decision (seen_by client op).
Proof. unfold seen_by. destruct op; apply _. Defined.
Definition op_clients (op : LimiterOp) : gset string := match op with Check c _ _ _ => {[c]} | _ => ∅ end.
Definition all_clients (ops : list LimiterOp) : gset string := ⋃ (op_clients <$> ops).
Definition answers_to (client : string) (l : RateLimiter) (ops : list LimiterOp) : list (option (result Z unit)) :=
  (λ oa : LimiterOp * option (result Z unit), oa.2) <$>
    filter (λ oa, seen_by client oa.1) (zip ops (limiter_run l ops).1).

Lemma check_rate_dom client t1 t2 t3 l :
  dom (buckets (check_rate client t1 t2 t3 l).2) ⊆ {[client]} ∪ dom (buckets l) ∧
  rate_config (check_rate client t1 t2 t3 l).2 = rate_config l ∧
  (∀ c, c ≠ client → buckets (check_rate client t1 t2 t3 l).2 !! c = buckets l !! c).
Proof.
  unfold check_rate. destruct (buckets l !! client) as [b|] eqn:Hb; [|case_match; [split_and!; set_solver|]];
    destruct (take_token _ _ _ _) as [r b']; csimpl; rewrite dom_insert_L; split_and!; try set_solver;
    intros c Hc; by rewrite lookup_insert_ne.
Qed.
(** Below the cap a client's answer depends on its own bucket only. *)
Lemma check_rate_own client t1 t2 t3 l l' :
  buckets l !! client = buckets l' !! client → rate_config l = rate_config l' →
  (buckets l !! client = None → Z.of_nat (size (buckets l)) < MAX_BUCKETS ∧ Z.of_nat (size (buckets l')) < MAX_BUCKETS) →
  (check_rate client t1 t2 t3 l).1 = (check_rate client t1 t2 t3 l').1 ∧
  buckets (check_rate client t1 t2 t3 l).2 !! client = buckets (check_rate client t1 t2 t3 l').2 !! client.
Proof.
  intros Hb Hc Hcap. unfold check_rate. rewrite <- Hb, <- Hc. destruct (buckets l !! client) as [b|].
  - destruct (take_token _ _ _ _) as [r b']; csimpl. by rewrite !lookup_insert_eq.
  - destruct (Hcap eq_refl). rewrite !(proj2 (Z.leb_gt _ _)) by lia.
    destruct (take_token _ _ _ _) as [r b']; csimpl. by rewrite !lookup_insert_eq.
Qed.
Lemma size_below_cap (m : gmap string Bucket) U client :
  dom m ⊆ U → client ∈ U → Z.of_nat (size U) ≤ MAX_BUCKETS → m !! client = None → Z.of_nat (size m) < MAX_BUCKETS.
Proof.
  intros Hd Hc Hs Hm. rewrite <- size_dom.
  assert (size ({[client]} ∪ dom m) ≤ size U)%nat as Hle by (apply subseteq_size; set_solver).
  rewrite size_union, size_singleton in Hle; [lia|]. apply not_elem_of_dom in Hm. set_solver.
Qed.
Lemma filter_lookup_own (P : string * Bucket → Prop) `{!∀ x, Decision (P x)} (m m' : gmap string Bucket) c :
  m !! c = m' !! c → filter P m !! c = filter P m' !! c.
Proof. intros Hm. rewrite !map_lookup_filter. by rewrite Hm. Qed.

Lemma limiter_isolated_gen client U l l' ops :
  buckets l !! client = buckets l' !! client → rate_config l = rate_config l' →
  dom (buckets l) ⊆ U → dom (buckets l') ⊆ U → all_clients ops ⊆ U → Z.of_nat (size U) ≤ MAX_BUCKETS →
  answers_to client l ops = (limiter_run l' (filter (seen_by client) ops)).1.
Proof.
  intros Hb Hc Hd Hd' HU Hs. revert l l' Hb Hc Hd Hd'. induction ops as [|op ops IH]; intros l l' Hb Hc Hd Hd'; [done|].
  unfold all_clients in HU. csimpl in HU. specialize (IH ltac:(set_solver)). unfold answers_to in *.
  cbn [limiter_run]. rewrite filter_cons. destruct op as [c t1 t2 t3|i now|cfg]; cbn [limiter_step].
  - destruct (check_rate c t1 t2 t3 l) as [a l1] eqn:H1.
    pose proof (check_rate_dom c t1 t2 t3 l) as (Hdom & Hcfg & Hother). rewrite H1 in Hdom, Hcfg, Hother. csimpl in *.
    destruct (limiter_run l1 ops) as [as1 lf] eqn:Hr1. csimpl. rewrite filter_cons. csimpl.
    case_decide as Hcl; [subst c|].
    + cbn [limiter_run limiter_step]. destruct (check_rate client t1 t2 t3 l') as [a' l1'] eqn:H1'.
      pose proof (check_rate_own client t1 t2 t3 l l' Hb Hc) as Hown.
      pose proof (check_rate_dom client t1 t2 t3 l') as (Hdom' & Hcfg' & _). rewrite H1, H1' in *. csimpl in *.
      destruct Hown as [<- Hb1].
      { intros Hn. split; eapply (size_below_cap _ U client); try done; [set_solver..|congruence]. }
      specialize (IH l1 l1' Hb1 ltac:(congruence) ltac:(set_solver) ltac:(set_solver)). rewrite Hr1 in IH.
      destruct (limiter_run l1' _) as [as1' lf']. csimpl in *. by rewrite IH.
    + specialize (IH l1 l' ltac:(rewrite Hother by done; done) ltac:(congruence) ltac:(set_solver) Hd').
      by rewrite Hr1 in IH.
  - rewrite decide_True by done. cbn [limiter_run limiter_step].
    specialize (IH (cleanup i now l) (cleanup i now l')). csimpl in IH.
    destruct (limiter_run (cleanup i now l) ops) as [as1 lf], (limiter_run (cleanup i now l') _) as [as1' lf'].
    csimpl in *. f_equal. apply IH; [by apply filter_lookup_own|done|..];
      (etrans; [apply dom_filter_subseteq|done]).
  - rewrite decide_True by done. cbn [limiter_run limiter_step].
    specialize (IH (update_config cfg l) (update_config cfg l')). csimpl in IH.
    destruct (limiter_run (update_config cfg l) ops) as [as1 lf], (limiter_run (update_config cfg l') _) as [as1' lf'].
    csimpl in *. f_equal. by apply IH.
Qed.

(** C26. Clients do not disturb one another, and the table stays bounded. As long as
    a history involves no more than 100000 clients, every client gets the
    answers it would get alone, with the same cleanups and reconfigurations;
    and after any history at all there are at most 100000 buckets. *)
Theorem rate_limiter_isolates c ops :
  (∀ client, Z.of_nat (size (all_clients ops)) ≤ MAX_BUCKETS →
     answers_to client (limiter_new c) ops = (limiter_run (limiter_new c) (filter (seen_by client) ops)).1) ∧
  Z.of_nat (size (buckets (limiter_run (limiter_new c) ops).2)) ≤ MAX_BUCKETS.
Proof.
  split.
  - intros client Hs. apply (limiter_isolated_gen client (all_clients ops)); try done.
  - assert (Z.of_nat (size (buckets (limiter_new c))) ≤ MAX_BUCKETS) as Hsz by done.
    revert Hsz. generalize (limiter_new c). induction ops as [|op ops IH]; intros l Hl; [done|].
    cbn [limiter_run]. assert (Z.of_nat (size (buckets (limiter_step l op).2)) ≤ MAX_BUCKETS) as Hstep.
    { destruct op as [client t1 t2 t3|i now|cfg]; cbn [limiter_step]; [| |done].
      - unfold check_rate. destruct (buckets l !! client) as [b|] eqn:Hb.
        + destruct (take_token _ _ _ _) as [r b']; csimpl. rewrite map_size_insert_Some by by eexists. done.
        + destruct (Z.leb_spec MAX_BUCKETS (Z.of_nat (size (buckets l)))); [done|].
          destruct (take_token _ _ _ _) as [r b']; csimpl. rewrite map_size_insert_None by done. lia.
      - csimpl. etrans; [|exact Hl]. apply Nat2Z.inj_le, map_subseteq_size, map_filter_subseteq. }
    destruct (limiter_step l op) as [a l']. specialize (IH l' Hstep). by destruct (limiter_run l' ops).
Qed.

(** ** Concrete configurations *)
Definition demo_digest (s : string) : string := "d:" +:+ s.
Definition demo_auth : AuthConfig := mkAuthConfig true ["sk-a"; "sk-b:operator"; "sk-c:admin"].
Lemma access_decided_by_config_witness :
  auth_middleware demo_digest (Some (from_config demo_digest demo_auth))
    (mkHttpRequest "/v1/operations/policies" (Some "sk-a") None) = Forbidden.
Proof.
  rewrite (access_decided_by_config demo_digest demo_auth
    (mkHttpRequest "/v1/operations/policies" (Some "sk-a") None)); [reflexivity|reflexivity|discriminate|discriminate|].
  intros key e raw scope _ _ _ Hd. by apply str_app_inj_l in Hd.
Defined.

(** A malformed entry does not fail the reload: it is dropped and the reload
    goes through, and its key is refused afterwards. *)
Theorem malformed_entry_dropped_on_reload :
  let r := auth_prepare demo_digest demo_auth (mkReloader (mkAuthSnapshot true ∅) None) in
  parse_key_entry "sk-c:admin" = None ∧ r.1 = Ok tt ∧
  auth_middleware demo_digest (Some (handle (auth_commit r.2))) (mkHttpRequest "/v1/chat" (Some "sk-c:admin") None)
  = Unauthorized.
Proof. by vm_compute. Qed.

(** The cleanup of an idle bucket gives its client a full burst again long
    before the rate would have: at one request per minute a client that spent
    its burst of five waits two intervals of the cleanup instead of five
    minutes. *)
Definition slow_config : RateLimitingConfig := mkRateConfig 1 5 10.
Definition spend (t : Z) : LimiterOp := Check "c" t t t.
Theorem cleanup_restores_burst :
  let after := 21000000000 in
  let spent := replicate 5 (spend 0) in
  let tries := replicate 5 (spend after) in
  (limiter_run (limiter_new slow_config) (spent ++ tries)).1 =
    replicate 5 (Some (Ok tt)) ++ replicate 5 (Some (Err 60)) ∧
  (limiter_run (limiter_new slow_config) (spent ++ [Cleanup (cleanup_interval slow_config) after] ++ tries)).1 =
    replicate 5 (Some (Ok tt)) ++ [None] ++ replicate 5 (Some (Ok tt)).
Proof. split; by vm_compute. Qed.
Definition two_clients : list LimiterOp := [Check "c" 0 0 0; Check "d" 0 0 0; Cleanup 1 5; Check "c" 9 9 9].
Lemma rate_limiter_isolates_witness :
  answers_to "c" (limiter_new slow_config) two_clients =
    (limiter_run (limiter_new slow_config) (filter (seen_by "c") two_clients)).1 ∧
  Z.of_nat (size (buckets (limiter_run (limiter_new slow_config) two_clients).2)) ≤ MAX_BUCKETS.
Proof.
  split.
  - apply (proj1 (rate_limiter_isolates slow_config two_clients) "c"). vm_compute. discriminate.
  - apply (proj2 (rate_limiter_isolates slow_config two_clients)).
Defined.
