(* ===== verification/Connectors.v ===== *)
(** * Connectors ([src/scheduler/connector_resolver.rs])

    The registry that binds a capability to one of the connectors that
    declare it, by round robin, at random, or by the latency hint of a
    connector's health. Connectors share the registry by name; the executor
    behind a connector, the hash of the random choice and the clock are
    parameters. *)
From S2P Require Import Prelude Text Json Money Capability.
From Stdlib Require Import Floats.SpecFloat.
Open Scope stdpp_scope.
Open Scope Z_scope.

Section connectors.
Context `{SemVer}.
(** [semver]'s constructor and [Display], and the executor of a connector. *)
Context (semver_new : Z → Z → Z → Version) (version_to_string : Version → string).
Context {CapabilityExecutor : Type}.

Record ConnectorDescriptor := mkDescriptor {
  d_name : string; d_version : Version; supported_capabilities : list CapabilityId }.
Record Connector := mkConnector { descriptor : ConnectorDescriptor; connector_executor : CapabilityExecutor }.
Record BoundConnector := mkBound {
  b_instance : CapabilityInstance; connector_descriptor : ConnectorDescriptor; b_executor : CapabilityExecutor }.
Inductive LoadBalancingStrategy := RoundRobin | RandomChoice | LeastLatency.
Inductive ConnectorHealth := ConnHealthy | ConnDegraded | ConnUnhealthy.
#[global] Instance ConnectorHealth_eq : EqDecision ConnectorHealth.
Proof. solve_decision. Defined.

Record ConnectorResolver := mkResolver {
  connectors : gmap string Connector;
  capability_map : gmap CapabilityId (list string);
  rr_index : gmap CapabilityId nat;
  conn_health : gmap string ConnectorHealth;
}.
Definition resolver_new : ConnectorResolver := mkResolver ∅ ∅ ∅ ∅.
Definition MIN_SUPPORTED_RUNTIME_VERSION : Version := semver_new 0 10 0.
Definition set_health (name : string) (h : ConnectorHealth) (r : ConnectorResolver) : ConnectorResolver :=
  mkResolver (connectors r) (capability_map r) (rr_index r) (<[name := h]> (conn_health r)).
Definition health (name : string) (r : ConnectorResolver) : ConnectorHealth :=
  default ConnHealthy (conn_health r !! name).

(** The name is added to the capability's list, which is kept sorted and
    without duplicates. *)
Definition map_capability (name : string) (m : gmap CapabilityId (list string)) (cap : CapabilityId)
    : gmap CapabilityId (list string) :=
  <[cap := dedup (sort_by string_leb (default [] (m !! cap) ++ [name]))]> m.
Definition register_connector (c : Connector) (r : ConnectorResolver) : result string unit * ConnectorResolver :=
  let desc := descriptor c in
  if negb (version_leb MIN_SUPPORTED_RUNTIME_VERSION (d_version desc)) then
    (Err ("connector version " +:+ version_to_string (d_version desc) +:+ " is below minimum supported " +:+
          version_to_string MIN_SUPPORTED_RUNTIME_VERSION), r)
  else
    (Ok tt, mkResolver (<[d_name desc := c]> (connectors r))
       (foldl (map_capability (d_name desc)) (capability_map r) (supported_capabilities desc))
       (rr_index r) (<[d_name desc := ConnHealthy]> (conn_health r))).

(** The connectors a binding chooses among: those not marked unhealthy, or all
    of them when every one is. *)
Definition usable (r : ConnectorResolver) (name : string) : bool :=
  negb (bool_decide (health name r = ConnUnhealthy)).
Definition pool (r : ConnectorResolver) (candidates : list string) : list string :=
  let healthy := filter (λ n, usable r n = true) candidates in
  if decide (healthy = []) then candidates else healthy.
Definition penalty (r : ConnectorResolver) (name : string) : Z :=
  match health name r with ConnHealthy => 0 | ConnDegraded => 100 | ConnUnhealthy => 1000 end.
Definition least_latency_step (r : ConnectorResolver) (best : option (string * Z)) (name : string)
    : option (string * Z) :=
  match connectors r !! name with
  | None => best
  | Some _ =>
      let latency := penalty r name in
      match best with
      | Some (_, l) => if latency <? l then Some (name, latency) else best
      | None => Some (name, latency)
      end
  end.
(** [pool[i]]; the code panics past the end. *)
Definition at_index (l : list string) (i : nat) : string := default "" (l !! i).
(** The position that the hash of the capability and the clock selects. *)
Context (random : CapabilityId → Z → nat).
Definition choose (strategy : LoadBalancingStrategy) (cap : CapabilityId) (nanos : Z) (p : list string)
    (r : ConnectorResolver) : string * ConnectorResolver :=
  match strategy with
  | RoundRobin =>
      let idx := default 0%nat (rr_index r !! cap) in
      (at_index p (idx mod length p),
       mkResolver (connectors r) (capability_map r) (<[cap := ((idx + 1) mod length p)%nat]> (rr_index r)) (conn_health r))
  | RandomChoice => (at_index p (random cap nanos mod length p), r)
  | LeastLatency =>
      (match foldl (least_latency_step r) None p with Some (n, _) => n | None => at_index p 0 end, r)
  end.
Definition bind_with_strategy (instance : CapabilityInstance) (strategy : LoadBalancingStrategy) (nanos : Z)
    (r : ConnectorResolver) : result string BoundConnector * ConnectorResolver :=
  let cap := c_id (i_contract instance) in
  match capability_map r !! cap with
  | None => (Err ("No connector registered for capability: " +:+ cap), r)
  | Some candidates =>
      let p := pool r candidates in
      if decide (p = []) then (Err ("No healthy connector for capability: " +:+ cap), r)
      else
        let '(chosen, r) := choose strategy cap nanos p r in
        match connectors r !! chosen with
        | None => (Err ("Connector '" +:+ chosen +:+ "' registered for capability '" +:+ cap +:+ "' not found"), r)
        | Some c => (Ok (mkBound instance (descriptor c) (connector_executor c)), r)
        end
  end.
Definition bind (instance : CapabilityInstance) (nanos : Z) (r : ConnectorResolver)
    : result string BoundConnector * ConnectorResolver :=
  bind_with_strategy instance RoundRobin nanos r.

Definition unmap (name : string) (l : list string) : option (list string) :=
  let l := filter (λ n, n ≠ name) l in if decide (l = []) then None else Some l.
Definition unregister_connector (name : string) (r : ConnectorResolver) : bool * ConnectorResolver :=
  match connectors r !! name with
  | None => (false, r)
  | Some _ =>
      (true, mkResolver (delete name (connectors r)) (omap (unmap name) (capability_map r)) (rr_index r)
               (delete name (conn_health r)))
  end.
Definition clear (_ : ConnectorResolver) : ConnectorResolver := mkResolver ∅ ∅ ∅ ∅.

Context `{!HashIter string}.
Definition connector_names (r : ConnectorResolver) : list string := map_keys (connectors r).
Definition search_by_capability (cap : CapabilityId) (r : ConnectorResolver) : list Connector :=
  filter (λ c, cap ∈ supported_capabilities (descriptor c)) (map_values (connectors r)).
Definition search_by_name (prefix : string) (r : ConnectorResolver) : list Connector :=
  filter (λ c, starts_with prefix (d_name (descriptor c)) = true) (map_values (connectors r)).

(** ** Histories *)
Inductive ConnectorOp :=
| Register (c : Connector)
| Unregister (name : string)
| ClearAll
| SetHealth (name : string) (h : ConnectorHealth)
| Bind (instance : CapabilityInstance) (strategy : LoadBalancingStrategy) (nanos : Z).
Definition connector_step (r : ConnectorResolver) (op : ConnectorOp) : ConnectorResolver :=
  match op with
  | Register c => (register_connector c r).2
  | Unregister name => (unregister_connector name r).2
  | ClearAll => clear r
  | SetHealth name h => set_health name h r
  | Bind instance strategy nanos => (bind_with_strategy instance strategy nanos r).2
  end.
Definition connector_run (ops : list ConnectorOp) : ConnectorResolver := foldl connector_step resolver_new ops.

(** The connectors registered under a name declare the same capabilities. *)
Definition declares_only (decl : string → list CapabilityId) (op : ConnectorOp) : Prop :=
  match op with
  | Register c => supported_capabilities (descriptor c) = decl (d_name (descriptor c))
  | _ => True
  end.
Record resolver_wf (decl : string → list CapabilityId) (r : ConnectorResolver) : Prop := {
  wf_keyed n c : connectors r !! n = Some c →
    d_name (descriptor c) = n ∧ supported_capabilities (descriptor c) = decl n;
  wf_mapped cap n : n ∈ default [] (capability_map r !! cap) ↔ is_Some (connectors r !! n) ∧ cap ∈ decl n;
  wf_lists cap l : capability_map r !! cap = Some l → l ≠ [] ∧ NoDup l;
}.

(** The capability map after a registration *)
Lemma elem_of_mapped name caps m cap n :
  n ∈ default [] (foldl (map_capability name) m caps !! cap) ↔
    n ∈ default [] (m !! cap) ∨ (n = name ∧ cap ∈ caps).
Proof. clear random semver_new version_to_string.
  revert m. induction caps as [|c caps IH]; intros m; csimpl; [set_solver|].
  rewrite IH. unfold map_capability. destruct (decide (cap = c)) as [->|Hne].
  - rewrite lookup_insert_eq. csimpl. rewrite elem_of_sort_dedup. set_solver.
  - rewrite lookup_insert_ne by done. set_solver.
Qed.
Lemma mapped_lists name caps m :
  (∀ cap l, m !! cap = Some l → l ≠ [] ∧ NoDup l) →
  ∀ cap l, foldl (map_capability name) m caps !! cap = Some l → l ≠ [] ∧ NoDup l.
Proof. clear random semver_new version_to_string.
  revert m. induction caps as [|c caps IH]; intros m Hm; [done|]. csimpl. apply IH.
  intros cap l. unfold map_capability. destruct (decide (cap = c)) as [->|Hne].
  - rewrite lookup_insert_eq. intros [= <-]. split; [|apply sort_dedup_nodup].
    intros Hnil. apply (not_elem_of_nil name). rewrite <- Hnil, elem_of_sort_dedup. set_solver.
  - rewrite lookup_insert_ne by done. apply Hm.
Qed.

Section wf.
Context (decl : string → list CapabilityId).

Lemma resolver_new_wf : resolver_wf decl resolver_new.
Proof. clear random semver_new version_to_string.
  split; csimpl; [intros n c; by rewrite lookup_empty| |intros cap l; by rewrite lookup_empty].
  intros cap n. rewrite !lookup_empty. csimpl. rewrite elem_of_nil, is_Some_alt. naive_solver.
Qed.

Lemma connector_register_wf c r :
  resolver_wf decl r → supported_capabilities (descriptor c) = decl (d_name (descriptor c)) →
  resolver_wf decl (register_connector c r).2.
Proof. clear random.
  intros Hr Hc. unfold register_connector. case_match; [done|]. split; csimpl.
  - intros n c'. rewrite lookup_insert_Some. intros [[<- <-]|[_ Hn]]; [done|by eapply wf_keyed].
  - intros cap n. rewrite elem_of_mapped, (wf_mapped decl) by done. rewrite Hc.
    destruct (decide (n = d_name (descriptor c))) as [->|Hne].
    + rewrite lookup_insert_eq. naive_solver.
    + rewrite lookup_insert_ne by done. naive_solver.
  - apply mapped_lists. intros cap l. by apply wf_lists with (decl := decl).
Qed.
Lemma unregister_wf name r : resolver_wf decl r → resolver_wf decl (unregister_connector name r).2.
Proof. clear random semver_new version_to_string.
  intros Hr. unfold unregister_connector. case_match; [|done]. split; csimpl.
  - intros n c'. rewrite lookup_delete_Some. intros [_ Hn]. by eapply wf_keyed.
  - intros cap n. rewrite lookup_omap.
    assert (n ∈ default [] (capability_map r !! cap ≫= unmap name) ↔
      n ≠ name ∧ n ∈ default [] (capability_map r !! cap)) as ->.
    { destruct (capability_map r !! cap) as [l|]; csimpl; [|set_solver]. unfold unmap.
      assert (n ∈ filter (λ n, n ≠ name) l ↔ n ≠ name ∧ n ∈ l) as <- by (by rewrite list_elem_of_filter).
      case_decide as Hf; csimpl; [|done]. by rewrite Hf. }
    rewrite (wf_mapped decl) by done. destruct (decide (n = name)) as [->|Hne].
    + rewrite lookup_delete_eq, is_Some_alt. naive_solver.
    + rewrite lookup_delete_ne by done. naive_solver.
  - intros cap l. rewrite lookup_omap. intros (l0 & Hl0 & Hu)%bind_Some.
    unfold unmap in Hu. case_decide; simplify_eq. split; [done|].
    apply NoDup_filter. by destruct (wf_lists _ _ Hr _ _ Hl0).
Qed.
Lemma choose_wf strategy cap nanos p r :
  resolver_wf decl r → resolver_wf decl (choose strategy cap nanos p r).2.
Proof. intros [H1 H2 H3]. by destruct strategy; split. Qed.
Lemma bind_wf instance strategy nanos r :
  resolver_wf decl r → resolver_wf decl (bind_with_strategy instance strategy nanos r).2.
Proof.
  intros Hr. unfold bind_with_strategy. case_match; [|done]. case_decide; [done|].
  pose proof (choose_wf strategy (c_id (i_contract instance)) nanos (pool r l) r Hr) as Hc.
  destruct (choose _ _ _ _ _). by case_match.
Qed.
Lemma connector_step_wf r op : resolver_wf decl r → declares_only decl op → resolver_wf decl (connector_step r op).
Proof.
  intros Hr Hop. destruct op; csimpl.
  - by apply connector_register_wf.
  - by apply unregister_wf.
  - apply resolver_new_wf.
  - destruct Hr. by split.
  - by apply bind_wf.
Qed.
Lemma connector_run_wf ops : Forall (declares_only decl) ops → resolver_wf decl (connector_run ops).
Proof.
  unfold connector_run. generalize resolver_new resolver_new_wf. induction ops as [|op ops IH]; intros r Hr; [done|].
  intros [Hop Hops]%Forall_cons. csimpl. apply IH; [|done]. by apply connector_step_wf.
Qed.
End wf.

(** ** What is bound *)
Definition declaring (r : ConnectorResolver) (cap : CapabilityId) (n : string) : Prop :=
  ∃ c, connectors r !! n = Some c ∧ cap ∈ supported_capabilities (descriptor c).
Definition serving (r : ConnectorResolver) (cap : CapabilityId) : list string :=
  pool r (default [] (capability_map r !! cap)).

Section bound.
Context (decl : string → list CapabilityId) (r : ConnectorResolver) (Hr : resolver_wf decl r).

Lemma elem_of_candidates cap n : n ∈ default [] (capability_map r !! cap) ↔ declaring r cap n.
Proof using Hr. clear random semver_new version_to_string.
  rewrite (wf_mapped decl) by done. unfold declaring. split.
  - intros [[c Hc] Hcap]. exists c. by destruct (wf_keyed _ _ Hr _ _ Hc) as [_ ->].
  - intros (c & Hc & Hcap). destruct (wf_keyed _ _ Hr _ _ Hc) as [_ Hd]. rewrite Hd in Hcap. eauto.
Qed.
Lemma elem_of_pool l n :
  n ∈ pool r l ↔ n ∈ l ∧ (usable r n = true ∨ ∀ n', n' ∈ l → usable r n' = false).
Proof. clear random semver_new version_to_string.
  unfold pool. case_decide as Hf.
  - assert (∀ n', n' ∈ l → usable r n' = false) as Hall; [|naive_solver].
    intros n' Hn'. destruct (usable r n') eqn:Hu; [|done]. exfalso.
    apply (not_elem_of_nil n'). rewrite <- Hf. by apply list_elem_of_filter.
  - rewrite list_elem_of_filter. split; [naive_solver|]. intros [Hn [Hu|Hall]]; [done|].
    exfalso. apply Hf, elem_of_nil_inv. intros n'. rewrite list_elem_of_filter. intros [Hu Hn'].
    by rewrite (Hall n' Hn') in Hu.
Qed.
(** The connectors a binding chooses among *)
Lemma elem_of_serving cap n :
  n ∈ serving r cap ↔
    declaring r cap n ∧ (usable r n = true ∨ ∀ n', declaring r cap n' → usable r n' = false).
Proof using Hr. clear random semver_new version_to_string. unfold serving. rewrite elem_of_pool. by setoid_rewrite elem_of_candidates. Qed.
Lemma serving_nodup cap : NoDup (serving r cap).
Proof using Hr. clear random semver_new version_to_string.
  unfold serving, pool. destruct (capability_map r !! cap) as [l|] eqn:Hl; csimpl.
  - destruct (wf_lists _ _ Hr _ _ Hl) as [_ Hnd]. case_decide; [done|]. by apply NoDup_filter.
  - constructor.
Qed.
Lemma serving_mapped cap l : capability_map r !! cap = Some l → serving r cap = pool r l ∧ pool r l ≠ [].
Proof using Hr.
  intros Hl. unfold serving. rewrite Hl. split; [done|]. csimpl. unfold pool.
  destruct (wf_lists _ _ Hr _ _ Hl) as [Hne _]. by case_decide.
Qed.

Lemma at_index_elem p i : p ≠ [] → at_index p (i mod length p) ∈ p.
Proof. clear random semver_new version_to_string.
  intros Hp. unfold at_index.
  assert (i mod length p < length p)%nat as Hi by (apply Nat.mod_upper_bound; by destruct p).
  apply lookup_lt_is_Some_2 in Hi as [x Hx]. rewrite Hx. csimpl. by eapply list_elem_of_lookup_2.
Qed.
(** The scan keeps the first of the lowest latencies. *)
Lemma least_latency_scan p best :
  (∀ n, n ∈ p → is_Some (connectors r !! n)) →
  (p ≠ [] ∨ is_Some best) →
  ∃ n l, foldl (least_latency_step r) best p = Some (n, l) ∧
    ((n ∈ p ∧ l = penalty r n) ∨ best = Some (n, l)) ∧
    (∀ n', n' ∈ p → l ≤ penalty r n') ∧ (∀ n' l', best = Some (n', l') → l ≤ l').
Proof. clear Hr decl. clear random semver_new version_to_string.
  revert best. induction p as [|x p IH]; intros best Hc Hb; csimpl.
  { destruct Hb as [|[[n l] ->]]; [done|]. exists n, l. set_solver by lia. }
  destruct (Hc x) as [c Hx]; [set_solver|].
  destruct (IH (least_latency_step r best x)) as (n & l & Hf & Hin & Hle & Hb').
  { intros n Hn. apply Hc. set_solver. }
  { right. unfold least_latency_step. rewrite Hx. destruct best as [[]|]; [case_match|]; eauto. }
  exists n, l. split; [done|]. clear IH Hf. unfold least_latency_step in Hin, Hb'. rewrite Hx in Hin, Hb'.
  destruct best as [[bn bl]|]; [destruct (Z.ltb_spec (penalty r x) bl)|].
  - split_and!; [set_solver| |].
    + intros n'. rewrite elem_of_cons. intros [->|]; [by eapply Hb'|auto].
    + intros ?? [= <- <-]. specialize (Hb' _ _ eq_refl). lia.
  - split_and!; [set_solver| |].
    + intros n'. rewrite elem_of_cons. specialize (Hb' _ _ eq_refl). intros [->|]; [lia|auto].
    + by intros ?? [= <- <-]; eapply Hb'.
  - split_and!; [set_solver| |done].
    intros n'. rewrite elem_of_cons. intros [->|]; [by eapply Hb'|auto].
Qed.
Lemma choose_spec strategy cap nanos :
  serving r cap ≠ [] →
  let n := (choose strategy cap nanos (serving r cap) r).1 in
  n ∈ serving r cap ∧ connectors (choose strategy cap nanos (serving r cap) r).2 = connectors r ∧
  (strategy = LeastLatency → ∀ n', n' ∈ serving r cap → penalty r n ≤ penalty r n').
Proof using Hr.
  intros Hp. destruct strategy; csimpl.
  - split_and!; [by apply at_index_elem|done|done].
  - split_and!; [by apply at_index_elem|done|done].
  - destruct (least_latency_scan (serving r cap) None) as (n & l & -> & Hin & Hle & _).
    + intros n (Hd & _)%elem_of_serving. destruct Hd as (c & Hc & _). eauto.
    + by left.
    + destruct Hin as [[Hin ->]|]; [|done]. done.
Qed.

Lemma bind_spec instance strategy nanos :
  let cap := c_id (i_contract instance) in
  match (bind_with_strategy instance strategy nanos r).1 with
  | Ok b => ∃ n c, n = (choose strategy cap nanos (serving r cap) r).1 ∧ n ∈ serving r cap ∧
      connectors r !! n = Some c ∧ b = mkBound instance (descriptor c) (connector_executor c)
  | Err e => capability_map r !! cap = None ∧ e = "No connector registered for capability: " +:+ cap
  end.
Proof using Hr.
  set (cap := c_id (i_contract instance)). csimpl. unfold bind_with_strategy. fold cap.
  destruct (capability_map r !! cap) as [l|] eqn:Hl; [|done].
  destruct (serving_mapped cap l Hl) as [Hs Hne]. rewrite <- Hs in *. rewrite decide_False by done.
  destruct (choose_spec strategy cap nanos Hne) as (Hin & Hc & _).
  destruct (choose strategy cap nanos (serving r cap) r) as [n r'] eqn:Hch; csimpl in *.
  rewrite Hc. pose proof Hin as [(c & Hn & _) _]%elem_of_serving. rewrite Hn. csimpl. by exists n, c.
Qed.
End bound.

(** C34. Binding is exact over any history of registrations, removals, health
    reports and earlier bindings in which a name always stands for the same
    capabilities, and for a capability of which not every connector is marked
    unhealthy: an instance is bound if and only if some registered connector
    declares its capability; what is bound is such a connector, with its own
    descriptor and executor, and not one marked unhealthy; and by latency, as
    estimated from their health, it is one of the lowest. *)
Theorem binding_exact decl ops instance strategy nanos :
  Forall (declares_only decl) ops →
  let r := connector_run ops in
  let cap := c_id (i_contract instance) in
  (∀ n, declaring r cap n → ∃ n', declaring r cap n' ∧ health n' r ≠ ConnUnhealthy) →
  match (bind_with_strategy instance strategy nanos r).1 with
  | Ok b => ∃ n c, connectors r !! n = Some c ∧ cap ∈ supported_capabilities (descriptor c) ∧
      b = mkBound instance (descriptor c) (connector_executor c) ∧
      health n r ≠ ConnUnhealthy ∧
      (strategy = LeastLatency → ∀ n', declaring r cap n' → penalty r n ≤ penalty r n')
  | Err e => (∀ n, ¬ declaring r cap n) ∧ e = "No connector registered for capability: " +:+ cap
  end.
Proof.
  intros Hops r cap Hsome. pose proof (connector_run_wf decl ops Hops) as Hr. fold r in Hr.
  pose proof (bind_spec decl r Hr instance strategy nanos) as Hb. fold cap in Hb.
  destruct (bind_with_strategy instance strategy nanos r).1 as [b|e].
  - destruct Hb as (n & c & Hn & Hin & Hc & ->). exists n, c.
    pose proof Hin as [(c' & Hc' & Hcap) Hu]%(elem_of_serving decl r Hr). simplify_eq.
    assert (∀ n', usable r n' = false ↔ health n' r = ConnUnhealthy) as Hus.
    { intros n'. unfold usable. rewrite negb_false_iff, bool_decide_eq_true. done. }
    split_and!; [done|done|done|..].
    + intros Hun%Hus. destruct Hu as [Hu|Hu]; [congruence|].
      edestruct Hsome as (n' & Hn' & Hh); [by eexists|]. by apply Hh, Hus, Hu.
    + intros Hs n' Hn'. destruct (choose_spec decl r Hr strategy cap nanos) as (_ & _ & Hle);
        [by intros He; rewrite He in Hin; apply not_elem_of_nil in Hin|].
      destruct (usable r n') eqn:Hn''.
      * apply Hle; [done|]. apply (elem_of_serving decl r Hr). auto.
      * apply Hus in Hn''. unfold penalty at 2. rewrite Hn''. unfold penalty. by case_match.
  - destruct Hb as [Hnone ->]. split; [|done]. intros n Hn%(elem_of_candidates decl r Hr).
    rewrite Hnone in Hn. csimpl in Hn. set_solver.
Qed.

(** ** Round robin *)
Fixpoint bind_times (k : nat) (instance : CapabilityInstance) (nanos : Z) (r : ConnectorResolver)
    : list (result string BoundConnector) :=
  match k with
  | O => []
  | S k => let '(res, r) := bind instance nanos r in res :: bind_times k instance nanos r
  end.
Definition bound_name (res : result string BoundConnector) : option string :=
  match res with Ok b => Some (d_name (connector_descriptor b)) | Err _ => None end.

(** What a binding by round robin does to the registry *)
Lemma bind_state instance nanos r :
  let cap := c_id (i_contract instance) in
  is_Some (capability_map r !! cap) → serving r cap ≠ [] →
  (bind instance nanos r).2 =
    mkResolver (connectors r) (capability_map r)
      (<[cap := ((default 0 (rr_index r !! cap) + 1) mod length (serving r cap))%nat]> (rr_index r)) (conn_health r).
Proof.
  intros cap [l Hl] Hne. unfold bind, bind_with_strategy. fold cap.
  unfold serving in *. rewrite Hl in *. csimpl in *. rewrite decide_False by done. by case_match.
Qed.
Lemma bind_times_names decl instance nanos r k :
  let cap := c_id (i_contract instance) in
  let p := serving r cap in
  resolver_wf decl r → p ≠ [] →
  bound_name <$> bind_times k instance nanos r =
    (λ i, Some (at_index p ((default 0 (rr_index r !! cap) + i) mod length p)%nat)) <$> seq 0 k.
Proof.
  intros cap p. subst p. revert r. induction k as [|k IH]; intros r Hr Hne; [done|].
  assert (is_Some (capability_map r !! cap)) as Hm.
  { destruct (capability_map r !! cap) eqn:Hc; [eauto|]. exfalso. apply Hne.
    unfold serving. by rewrite Hc. }
  pose proof (bind_spec decl r Hr instance RoundRobin nanos) as Hs. fold cap in Hs.
  pose proof (bind_state instance nanos r Hm Hne) as Hst. fold cap in Hst.
  pose proof (bind_wf decl instance RoundRobin nanos r Hr) as Hr'. fold (bind instance nanos r) in Hs, Hr'.
  csimpl. destruct (bind instance nanos r) as [res r'] eqn:Hb. csimpl in *.
  destruct res as [b|e]; [|destruct Hs as [Hs _]; rewrite Hs in Hm; by destruct Hm].
  destruct Hs as (n & c & Hn & _ & Hc & ->). csimpl.
  destruct (wf_keyed _ _ Hr _ _ Hc) as [-> _]. rewrite Nat.add_0_r, <- Hn. f_equal.
  assert (serving r' cap = serving r cap) as Hsv by (by rewrite Hst).
  rewrite IH by (done || by rewrite Hsv). rewrite Hsv, <- fmap_S_seq, <- list_fmap_compose.
  apply list_fmap_ext. intros i x _. csimpl. do 2 f_equal.
  rewrite Hst. csimpl. rewrite lookup_insert_eq. csimpl.
  rewrite Nat.Div0.add_mod_idemp_l. f_equal. lia.
Qed.
(** Starting anywhere, one turn through a list is a rotation of it. *)
Lemma turn_rotates (p : list string) idx :
  p ≠ [] → (λ i, Some (at_index p ((idx + i) mod length p)%nat)) <$> seq 0 (length p) = Some <$> rotate idx p.
Proof.
  clear random semver_new version_to_string.
  intros Hp. apply list_eq. intros i. rewrite !list_lookup_fmap.
  destruct (decide (i < length p)%nat) as [Hi|Hi].
  - rewrite lookup_seq_lt, lookup_rotate_r by done. csimpl. unfold at_index, rotate_nat_add.
    assert (Z.to_nat ((Z.of_nat idx + Z.of_nat i) `mod` Z.of_nat (length p)) = (idx + i) mod length p)%nat as ->.
    { rewrite <- Nat2Z.inj_add, <- Nat2Z.inj_mod. apply Nat2Z.id. }
    assert ((idx + i) mod length p < length p)%nat as Hm by (apply Nat.mod_upper_bound; lia).
    apply lookup_lt_is_Some_2 in Hm as [x Hx]. by rewrite Hx.
  - rewrite lookup_seq_ge by lia. rewrite (lookup_ge_None_2 (rotate idx p)); [done|].
    rewrite length_rotate. lia.
Qed.
Lemma rotate_perm (p : list string) idx : rotate idx p ≡ₚ p.
Proof. unfold rotate. rewrite Permutation_app_comm. by rewrite take_drop. Qed.

(** Round robin is fair: as many bindings in a row as there are connectors to
    choose among use each of them exactly once, wherever the index stood;
    and those are the connectors that declare the capability and are not
    marked unhealthy, or all that declare it when every one is. *)
Theorem round_robin_fair decl ops instance nanos :
  Forall (declares_only decl) ops →
  let r := connector_run ops in
  let cap := c_id (i_contract instance) in
  bound_name <$> bind_times (length (serving r cap)) instance nanos r ≡ₚ Some <$> serving r cap ∧
  NoDup (serving r cap) ∧
  (∀ n, n ∈ serving r cap ↔
     declaring r cap n ∧ (usable r n = true ∨ ∀ n', declaring r cap n' → usable r n' = false)).
Proof.
  intros Hops r cap. pose proof (connector_run_wf decl ops Hops) as Hr. fold r in Hr.
  split_and!; [|by eapply serving_nodup|by intros n; eapply elem_of_serving].
  destruct (decide (serving r cap = [])) as [He|Hne]; [by rewrite He|].
  rewrite (bind_times_names decl) by done. fold cap. rewrite turn_rotates by done. by rewrite rotate_perm.
Qed.
End connectors.

(** ** Concrete registries *)
#[local] Instance demo_semver : SemVer := {|
  Version := Z; VersionReq := Z; version_leb := Z.leb;
  version_leb_total := λ a b, ltac:(rewrite !Z.leb_le; lia);
  version_leb_trans := λ a b c, ltac:(rewrite !Z.leb_le; lia);
  req_matches := Z.leb; req_to_string := pretty |}.
Definition demo_version (major minor patch : Z) : Z := major * 10000 + minor * 100 + patch.
Definition demo_connector (name : string) (caps : list CapabilityId) : Connector (CapabilityExecutor := string) :=
  mkConnector (mkDescriptor name (demo_version 0 10 0) caps) ("executor of " +:+ name).
Definition demo_cap_instance (cap : CapabilityId) : CapabilityInstance :=
  mkInstance (mkContract cap 1 "" JNull JNull [] [] ZERO 1 S754_nan false []) JNull.
Notation demo_connector_run := (connector_run demo_version pretty (λ _ _, 0%nat)).
Definition three_mirrors : list ConnectorOp :=
  [Register (demo_connector "a" ["fetch"]); Register (demo_connector "b" ["fetch"; "post"]);
   Register (demo_connector "c" ["fetch"]); SetHealth "b" ConnUnhealthy;
   Bind (demo_cap_instance "fetch") RoundRobin 0].
Definition mirror_caps (n : string) : list CapabilityId := if decide (n = "b") then ["fetch"; "post"] else ["fetch"].

Lemma three_mirrors_declared : Forall (declares_only mirror_caps) three_mirrors.
Proof. repeat constructor. Qed.
Lemma binding_exact_witness :
  let r := demo_connector_run three_mirrors in
  ∃ b n c, (bind_with_strategy (λ _ _, 0%nat) (demo_cap_instance "fetch") LeastLatency 0 r).1 = Ok b ∧
    connectors r !! n = Some c ∧ connector_descriptor b = descriptor c ∧ health n r ≠ ConnUnhealthy.
Proof.
  intros r.
  assert (declaring r "fetch" "a" ∧ health "a" r ≠ ConnUnhealthy) as [Ha Hh].
  { split; [|by vm_compute]. exists (demo_connector "a" ["fetch"]). split; [by vm_compute|]. by apply elem_of_cons; left. }
  pose proof (binding_exact demo_version pretty (λ _ _, 0%nat) mirror_caps three_mirrors
    (demo_cap_instance "fetch") LeastLatency 0 three_mirrors_declared (λ n _, ex_intro _ "a" (conj Ha Hh))) as Hb.
  fold r in Hb. csimpl in Hb.
  destruct (bind_with_strategy _ (demo_cap_instance "fetch") LeastLatency 0 r).1 as [b|e] eqn:E.
  - destruct Hb as (n & c & Hc & _ & -> & Hu & _). exists (mkBound (demo_cap_instance "fetch") (descriptor c) (connector_executor c)), n, c.
    by split_and!.
  - exfalso. vm_compute in E. done.
Defined.
Lemma round_robin_fair_witness :
  bound_name <$> bind_times (λ _ _, 0%nat) 2 (demo_cap_instance "fetch") 0 (demo_connector_run three_mirrors)
    ≡ₚ [Some "a"; Some "c"].
Proof.
  exact (proj1 (round_robin_fair demo_version pretty (λ _ _, 0%nat) mirror_caps three_mirrors
    (demo_cap_instance "fetch") 0 three_mirrors_declared)).
Defined.

(** The documentation of a binding says that it fails closed when no healthy
    connector is available; the code falls back to the unhealthy ones. *)
Theorem unhealthy_connector_bound :
  let r := demo_connector_run [Register (demo_connector "a" ["fetch"]); SetHealth "a" ConnUnhealthy] in
  health "a" r = ConnUnhealthy ∧
  bound_name (bind (λ _ _, 0%nat) (demo_cap_instance "fetch") 0 r).1 = Some "a".
Proof. by vm_compute. Qed.

(** A connector registered again under its name keeps the capabilities it no
    longer declares, and is bound for them. *)
Theorem withdrawn_capability_bound :
  let r := demo_connector_run
    [Register (demo_connector "a" ["fetch"; "post"]); Register (demo_connector "a" ["fetch"])] in
  bound_name (bind (λ _ _, 0%nat) (demo_cap_instance "post") 0 r).1 = Some "a" ∧
  search_by_capability (H := demo_semver) (HashIter0 := map_to_list_iter string) "post" r = [].
Proof. by vm_compute. Qed.
