(* ===== verification/FeatureGate.v ===== *)
(** * Feature gates ([src/feature_gate/mod.rs], [config_subscriber.rs])

    The flags with their defaults, the configuration's overrides by the
    flags' names, and what is in force given the features compiled in. *)
From S2P Require Import Prelude Text.
Open Scope stdpp_scope.
Open Scope Z_scope.

Inductive FeatureFlag := Streaming | Replay | ConnectorHealthGate | SemanticCache | WasmPlugins.
#[global] Instance FeatureFlag_eq : EqDecision FeatureFlag.
Proof. solve_decision. Defined.
Definition flag_code (f : FeatureFlag) : nat :=
  match f with Streaming => 0 | Replay => 1 | ConnectorHealthGate => 2 | SemanticCache => 3 | WasmPlugins => 4 end.
Definition flag_of_code (n : nat) : FeatureFlag :=
  match n with 0 => Streaming | 1 => Replay | 2 => ConnectorHealthGate | 3 => SemanticCache | _ => WasmPlugins end%nat.
#[global] Instance FeatureFlag_countable : Countable FeatureFlag.
Proof. refine (inj_countable' flag_code flag_of_code _). by intros []. Defined.
Inductive Stability := Experimental | Stable | Deprecated.
Record FeatureDefinition := mkFeature {
  f_id : FeatureFlag; introduced : string; removed : option string; stability : Stability;
  default_enabled : bool; f_description : string }.
Record FeatureState := mkFeatureState {
  fs_id : FeatureFlag; fs_enabled : bool; fs_overridden : bool; fs_definition : FeatureDefinition }.
Record FeatureRegistry := mkFeatures {
  definitions : list FeatureDefinition;
  states : gmap FeatureFlag bool;
  overridden : gset FeatureFlag;
  lookup_map : gmap string FeatureFlag;
}.
(** The name serialization gives a flag ([rename_all = "kebab-case"]). *)
Definition flag_key (f : FeatureFlag) : string :=
  match f with
  | Streaming => "streaming" | Replay => "replay" | ConnectorHealthGate => "connector-health"
  | SemanticCache => "semantic-cache" | WasmPlugins => "wasm-plugins"
  end.
(** [collect] into a map: the last pair of a key decides. *)
Definition collect_map {K V} `{Countable K} (l : list (K * V)) : gmap K V :=
  foldl (λ m kv, <[kv.1 := kv.2]> m) ∅ l.
Definition features_new (defs : list FeatureDefinition) : FeatureRegistry :=
  mkFeatures defs (collect_map ((λ d, (f_id d, default_enabled d)) <$> defs)) ∅
    (collect_map ((λ d, (flag_key (f_id d), f_id d)) <$> defs)).

Definition apply_entry (r : FeatureRegistry) (kv : string * bool) : FeatureRegistry :=
  match lookup_map r !! kv.1 with
  | Some flag => mkFeatures (definitions r) (<[flag := kv.2]> (states r)) ({[flag]} ∪ overridden r) (lookup_map r)
  | None => r
  end.
Section features.
Context `{!HashIter string}.
Definition apply_config (config : gmap string bool) (r : FeatureRegistry) : FeatureRegistry :=
  foldl apply_entry r (map_iter config).
Definition is_enabled (flag : FeatureFlag) (r : FeatureRegistry) : bool := default false (states r !! flag).
(** The features of the build. *)
Context (semantic_cache wasm_plugins : bool).
Definition compile_time_enabled (flag : FeatureFlag) : bool :=
  match flag with SemanticCache => semantic_cache | WasmPlugins => wasm_plugins | _ => true end.
Definition is_effectively_enabled (flag : FeatureFlag) (r : FeatureRegistry) : bool :=
  if negb (compile_time_enabled flag) then false else is_enabled flag r.
Definition features_list (r : FeatureRegistry) : list FeatureState :=
  (λ def, mkFeatureState (f_id def) (default false (states r !! f_id def)) (bool_decide (f_id def ∈ overridden r)) def)
    <$> definitions r.

(** [FeatureGateSubscriber] *)
Record FeatureGateSubscriber := mkGate { gate_registry : FeatureRegistry; pending : option (gmap string bool) }.
Definition gate_new (defs : list FeatureDefinition) : FeatureGateSubscriber := mkGate (features_new defs) None.
Definition apply_initial (config : gmap string bool) (g : FeatureGateSubscriber) : FeatureGateSubscriber :=
  mkGate (apply_config config (gate_registry g)) (pending g).
Definition gate_prepare (features : gmap string bool) (g : FeatureGateSubscriber) : FeatureGateSubscriber :=
  mkGate (gate_registry g) (Some features).
Definition gate_commit (g : FeatureGateSubscriber) : FeatureGateSubscriber :=
  match pending g with
  | Some config => mkGate (apply_config config (gate_registry g)) None
  | None => g
  end.

(** ** Properties *)
#[global] Instance flag_key_inj : Inj (=) (=) flag_key.
Proof. by intros [] []. Qed.
(** Names stand for the flags that are defined. *)
Definition features_wf (r : FeatureRegistry) : Prop :=
  ∀ k flag, lookup_map r !! k = Some flag ↔ k = flag_key flag ∧ flag ∈ f_id <$> definitions r.

Lemma collect_map_app {K V} `{Countable K} (l1 l2 : list (K * V)) :
  collect_map (l1 ++ l2) = foldl (λ m kv, <[kv.1 := kv.2]> m) (collect_map l1) l2.
Proof. apply foldl_app. Qed.
Lemma features_new_wf defs : features_wf (features_new defs).
Proof.
  clear. unfold features_wf, features_new. csimpl. intros k flag. induction defs as [|d defs IH] using rev_ind.
  { csimpl. unfold collect_map. csimpl. rewrite lookup_empty, elem_of_nil. naive_solver. }
  rewrite !fmap_app, collect_map_app. csimpl. rewrite elem_of_app, list_elem_of_singleton.
  rewrite lookup_insert_Some, IH. split.
  - naive_solver.
  - destruct (decide (flag_key (f_id d) = k)) as [Hk|Hk]; [|naive_solver].
    intros [-> _]. left. split; [done|]. by apply flag_key_inj.
Qed.
Lemma apply_entry_wf r kv : features_wf r → features_wf (apply_entry r kv).
Proof. clear. intros H. unfold apply_entry. by destruct (lookup_map r !! _). Qed.
Lemma apply_config_wf config r : features_wf r → features_wf (apply_config config r).
Proof. unfold apply_config. revert r. induction (map_iter config) as [|kv l IH]; [done|]. intros r H. apply IH, apply_entry_wf, H. Qed.

Lemma apply_entries l r flag :
  features_wf r → NoDup l.*1 →
  let r' := foldl apply_entry r l in
  states r' !! flag =
    (if decide (flag ∈ f_id <$> definitions r) then
       match (list_to_map l : gmap string bool) !! flag_key flag with Some v => Some v | None => states r !! flag end
     else states r !! flag) ∧
  (flag ∈ overridden r' ↔
     flag ∈ overridden r ∨ (flag ∈ f_id <$> definitions r ∧ flag_key flag ∈ l.*1)) ∧
  definitions r' = definitions r.
Proof.
  clear. revert r. induction l as [|[k v] l IH]; intros r Hr Hnd; csimpl in *.
  { rewrite lookup_empty. case_decide; set_solver. }
  apply NoDup_cons in Hnd as [Hk Hnd].
  destruct (IH (apply_entry r (k, v)) (apply_entry_wf _ _ Hr) Hnd) as (H1 & H2 & H3). clear IH.
  assert (definitions (apply_entry r (k, v)) = definitions r) as Hd
    by (unfold apply_entry; by destruct (lookup_map r !! _)).
  rewrite Hd in *. rewrite H1, H2, H3.
  assert (states (apply_entry r (k, v)) !! flag =
    if decide (k = flag_key flag ∧ flag ∈ f_id <$> definitions r) then Some v else states r !! flag) as ->.
  { unfold apply_entry. csimpl. destruct (lookup_map r !! k) as [f|] eqn:Hf; csimpl.
    - apply Hr in Hf as [-> Hin]. destruct (decide (f = flag)) as [->|Hne].
      + by rewrite lookup_insert_eq, decide_True.
      + rewrite lookup_insert_ne by done. rewrite decide_False; [done|]. intros [?%flag_key_inj _]. done.
    - rewrite decide_False; [done|]. intros Hin%Hr. congruence. }
  assert (flag ∈ overridden (apply_entry r (k, v)) ↔
    flag ∈ overridden r ∨ (k = flag_key flag ∧ flag ∈ f_id <$> definitions r)) as ->.
  { rewrite <- (Hr k flag). unfold apply_entry. csimpl. destruct (lookup_map r !! k) as [f|] eqn:Hf; csimpl; [|naive_solver].
    rewrite elem_of_union, elem_of_singleton. naive_solver. }
  split_and!; [|set_solver|done].
  case_decide as Hin; [|by rewrite decide_False by tauto].
  destruct (decide (k = flag_key flag)) as [->|Hne].
  - rewrite decide_True by done. rewrite lookup_insert_eq.
    rewrite not_elem_of_list_to_map_1 by done. done.
  - rewrite lookup_insert_ne, (decide_False (P := _ ∧ _)) by tauto. done.
Qed.
(** A configuration overrides the flags it names and leaves the others. *)
Lemma apply_config_states config r flag :
  features_wf r →
  states (apply_config config r) !! flag =
    if decide (flag ∈ f_id <$> definitions r) then
      match config !! flag_key flag with Some v => Some v | None => states r !! flag end
    else states r !! flag.
Proof.
  clear semantic_cache wasm_plugins.
  intros Hr. unfold apply_config. destruct (apply_entries (map_iter config) r flag Hr (map_keys_NoDup config)) as (-> & _).
  assert ((list_to_map (map_iter config) : gmap string bool) = config) as ->; [|done].
  etrans; [|apply (list_to_map_to_list config)].
  apply list_to_map_proper; [apply map_keys_NoDup|apply map_iter_perm].
Qed.
Lemma apply_config_defs config r : features_wf r → definitions (apply_config config r) = definitions r.
Proof.
  clear semantic_cache wasm_plugins. intros Hr.
  by destruct (apply_entries (map_iter config) r Streaming Hr (map_keys_NoDup config)) as (_ & _ & ?).
Qed.
End features.

(** An override dropped from the configuration stays in force after a reload:
    the flag does not return to its default. *)
Theorem dropped_override_persists :
  let iter := map_to_list_iter string in
  let gate := apply_initial (HashIter0 := iter) {["replay" := true]}
    (gate_new [mkFeature Replay "0.5.0" None Experimental false "Enable request replay"]) in
  let reloaded := gate_commit (HashIter0 := iter) (gate_prepare ∅ gate) in
  default_enabled (mkFeature Replay "0.5.0" None Experimental false "Enable request replay") = false ∧
  is_enabled Replay (gate_registry reloaded) = true.
Proof. by vm_compute. Qed.
