(* ===== verification/ConfigReload.v ===== *)
(** * Configuration: validation and reload ([src/config/validation.rs], [manager.rs])

    The validation of a configuration, with the profile of a release build,
    and the manager that reloads it: read, validate, let every subscriber
    prepare, let every subscriber commit, publish. What a subscriber promises
    is a class; the authentication table, the rate limiter, the provider
    registry, the connectors and the feature gate are its instances. Reading
    and parsing the file, and the parsers of addresses and log levels, are
    parameters. *)
From S2P Require Import Prelude Text Json Money ExecTypes Graphs WorkQueue Scheduler Runtime MeteredStream HostTypes CircuitBreaker ProviderRouting Access Capability Connectors FeatureGate.
From Stdlib Require Import Floats.SpecFloat Ascii.
Open Scope stdpp_scope.
Open Scope Z_scope.

(** ** The configuration, as far as it is validated *)
Record ConnectorConfig := mkConnectorConfig { connector_type : string }.
Record AppConfig := mkAppConfig {
  unsafe_dev : bool;
  server_host : string;
  server_port : Z;
  shutdown_timeout_secs : Z;
  allowed_origins : list string;
  auth : AuthConfig;
  rate_limiting_enabled : bool;
  rate_limiting : RateLimitingConfig;
  log_format : string;
  log_level : string;
  max_daily_cost : NanoUSD;
  max_daily_tokens : Z;
  max_concurrent : Z;
  max_concurrent_nodes : Z;
  allowed_shell_commands : list string;
  enable_http_tool : bool;
  shell_path_mode : string;
  allow_unrestricted_args : bool;
  max_staged_input_bytes : Z;
  optimization_level : Z;
  providers : gmap string ProviderConfig;
  connector_configs : gmap string ConnectorConfig;
  features : gmap string bool;
}.
Inductive ValidationSeverity := SevError | SevWarning.
Record ConfigValidationError := mkIssue {
  field : string; message : string; value : option string; severity : ValidationSeverity }.
Definition is_blocking (e : ConfigValidationError) : bool :=
  match severity e with SevError => true | SevWarning => false end.
Definition push_if (b : bool) (e : ConfigValidationError) : list ConfigValidationError := if b then [e] else [].

Section validate.
Context `{!HashIter string}.
(** Whether [SocketAddr] and [tracing]'s [Directive] parse a text. *)
Context (bind_address level_directive : string → bool).

Definition key_sources (p : ProviderConfig) : Z :=
  (if bool_decide (is_Some (api_key p)) then 1 else 0) + (if bool_decide (is_Some (api_key_env p)) then 1 else 0) +
  (if bool_decide (is_Some (api_key_encrypted p)) then 1 else 0).
Definition bind_text (c : AppConfig) : string := server_host c +:+ ":" +:+ fmt_u64 (server_port c).

Definition server_issues (c : AppConfig) : list ConfigValidationError :=
  push_if (server_port c =? 0)
    (mkIssue "server.port" "port must be > 0" (Some (fmt_u64 (server_port c))) SevError)
  ++ push_if (shutdown_timeout_secs c =? 0)
    (mkIssue "server.shutdown_timeout_secs" "shutdown_timeout_secs must be > 0"
       (Some (fmt_u64 (shutdown_timeout_secs c))) SevError)
  ++ push_if (negb (bind_address (bind_text c)))
    (mkIssue "server.host" ("'" +:+ bind_text c +:+ "' is not a valid bind address") (Some (server_host c)) SevError)
  ++ push_if (negb (level_directive (log_level c)))
    (mkIssue "logging.level" ("'" +:+ log_level c +:+ "' is not a valid tracing level/directive")
       (Some (log_level c)) SevError).
Definition resource_issues (c : AppConfig) : list ConfigValidationError :=
  (if bool_decide (max_daily_cost c = ZERO) then
     [mkIssue "resources.max_daily_cost" "max_daily_cost must be positive"
        (Some (to_decimal_usd (max_daily_cost c))) SevError]
   else push_if (1000000000000 <? as_nanos (max_daily_cost c))
     (mkIssue "resources.max_daily_cost" "max_daily_cost exceeds $1000 — verify this is intentional"
        (Some (to_decimal_usd (max_daily_cost c))) SevWarning))
  ++ (if max_daily_tokens c =? 0 then []
      else push_if (100000000 <? max_daily_tokens c)
        (mkIssue "resources.max_daily_tokens" "max_daily_tokens exceeds 100M — verify this is intentional"
           (Some (fmt_u64 (max_daily_tokens c))) SevWarning))
  ++ push_if (max_concurrent c =? 0)
    (mkIssue "resources.max_concurrent" "max_concurrent must be > 0" (Some (fmt_u64 (max_concurrent c))) SevError)
  ++ push_if (max_concurrent_nodes c =? 0)
    (mkIssue "resources.max_concurrent_nodes" "max_concurrent_nodes must be > 0"
       (Some (fmt_u64 (max_concurrent_nodes c))) SevError).
Definition access_issues (c : AppConfig) : list ConfigValidationError :=
  push_if (auth_enabled (auth c) && bool_decide (api_keys (auth c) = []) && negb (unsafe_dev c))
    (mkIssue "auth.api_keys" "auth is enabled but no api_keys configured" None SevError)
  ++ if rate_limiting_enabled c then
       push_if (requests_per_minute (rate_limiting c) =? 0)
         (mkIssue "rate_limiting.requests_per_minute" "requests_per_minute must be > 0"
            (Some (fmt_u64 (requests_per_minute (rate_limiting c)))) SevError)
       ++ push_if (burst_size (rate_limiting c) =? 0)
         (mkIssue "rate_limiting.burst_size" "burst_size must be > 0"
            (Some (fmt_u64 (burst_size (rate_limiting c)))) SevError)
       ++ push_if (cleanup_interval_secs (rate_limiting c) =? 0)
         (mkIssue "rate_limiting.cleanup_interval_secs" "cleanup_interval_secs must be > 0"
            (Some (fmt_u64 (cleanup_interval_secs (rate_limiting c)))) SevError)
     else [].
Definition release_issues (release : bool) (c : AppConfig) : list ConfigValidationError :=
  if release && negb (unsafe_dev c) then
    push_if (negb (auth_enabled (auth c)))
      (mkIssue "auth.enabled" "authentication is disabled; start with --unsafe-dev to run without auth" None SevError)
    ++ push_if (negb (rate_limiting_enabled c))
      (mkIssue "rate_limiting.enabled"
         "rate limiting is disabled; start with --unsafe-dev to run without rate limiting" None SevError)
    ++ push_if (existsb (λ o, bool_decide (o = "*")) (allowed_origins c))
      (mkIssue "server.cors.allowed_origins"
         "wildcard CORS origin '*' is forbidden; start with --unsafe-dev to allow it" None SevError)
    ++ push_if (negb (bool_decide (allowed_shell_commands c = [])))
      (mkIssue "tools.allowed_shell_commands"
         "shell commands are disabled by default; start with --unsafe-dev to allow them" None SevError)
    ++ push_if (enable_http_tool c)
      (mkIssue "tools.enable_http_tool"
         "the HTTP tool is disabled by default; start with --unsafe-dev to enable it" None SevError)
  else [].
Definition tool_issues (release : bool) (c : AppConfig) : list ConfigValidationError :=
  push_if (negb (bool_decide (log_format c ∈ ["text"; "json"])))
    (mkIssue "logging.format" "format must be 'text' or 'json'" (Some (log_format c)) SevError)
  ++ push_if (bool_decide (log_level c = "")) (mkIssue "logging.level" "level must not be empty" None SevError)
  ++ push_if (bool_decide (shell_path_mode c = "direct") && release)
    (mkIssue "tools.shell_path_mode"
       ("shell path_mode 'direct' bypasses TOCTOU-safe staging (ADR-041); " +:+
        "only acceptable on trusted single-tenant hosts") (Some (shell_path_mode c)) SevWarning)
  ++ (if allow_unrestricted_args c then
        if release && negb (unsafe_dev c) then
          [mkIssue "tools.allow_unrestricted_args"
             "allow_unrestricted_args bypasses path validation (Law 10); start with --unsafe-dev to allow it"
             (Some "true") SevError]
        else
          [mkIssue "tools.allow_unrestricted_args"
             "allow_unrestricted_args is enabled — all FILE_READING_COMMANDS path checks are skipped"
             (Some "true") SevWarning]
      else [])
  ++ push_if (max_staged_input_bytes c =? 0)
    (mkIssue "tools.max_staged_input_bytes" "max_staged_input_bytes must be > 0"
       (Some (fmt_u64 (max_staged_input_bytes c))) SevError)
  ++ push_if (negb (bool_decide (shell_path_mode c = "stage")) && negb (bool_decide (shell_path_mode c = "direct")))
    (mkIssue "tools.shell_path_mode" "shell_path_mode must be 'stage' or 'direct'" (Some (shell_path_mode c)) SevError)
  ++ push_if (2 <? optimization_level c)
    (mkIssue "compiler.optimization_level" "compiler.optimization_level must be 0, 1, or 2"
       (Some (fmt_u64 (optimization_level c))) SevError).
Definition provider_issues (release : bool) (c : AppConfig) (entry : string * ProviderConfig)
    : list ConfigValidationError :=
  push_if (1 <? key_sources entry.2)
    (mkIssue ("providers." +:+ entry.1 +:+ ".api_key")
       "at most one of api_key, api_key_env, api_key_encrypted may be set" None SevError)
  ++ push_if (release && negb (unsafe_dev c) && (key_sources entry.2 =? 0))
    (mkIssue ("providers." +:+ entry.1 +:+ ".api_key")
       ("provider has no API key configured; set api_key, api_key_env, or api_key_encrypted " +:+
        "(or run with --unsafe-dev for test placeholders)") None SevError).
Definition validate_with_profile (release : bool) (c : AppConfig) : result (list ConfigValidationError) unit :=
  let errors := server_issues c ++ resource_issues c ++ access_issues c ++ release_issues release c ++
    tool_issues release c ++ (map_iter (providers c) ≫= provider_issues release c) in
  if existsb is_blocking errors then Err errors else Ok tt.

(** ** What validation guarantees *)
Record config_ok (release : bool) (c : AppConfig) : Prop := {
  ok_server : server_port c ≠ 0 ∧ shutdown_timeout_secs c ≠ 0 ∧ bind_address (bind_text c) = true;
  ok_logging : level_directive (log_level c) = true ∧ log_level c ≠ "" ∧ log_format c ∈ ["text"; "json"];
  ok_resources : max_daily_cost c ≠ ZERO ∧ max_concurrent c ≠ 0 ∧ max_concurrent_nodes c ≠ 0;
  ok_auth : auth_enabled (auth c) = true → unsafe_dev c = false → api_keys (auth c) ≠ [];
  ok_rate : rate_limiting_enabled c = true → requests_per_minute (rate_limiting c) ≠ 0 ∧
    burst_size (rate_limiting c) ≠ 0 ∧ cleanup_interval_secs (rate_limiting c) ≠ 0;
  ok_hardened : release = true → unsafe_dev c = false →
    auth_enabled (auth c) = true ∧ rate_limiting_enabled c = true ∧ "*" ∉ allowed_origins c ∧
    allowed_shell_commands c = [] ∧ enable_http_tool c = false ∧ allow_unrestricted_args c = false;
  ok_tools : max_staged_input_bytes c ≠ 0 ∧ shell_path_mode c ∈ ["stage"; "direct"] ∧ optimization_level c ≤ 2;
  ok_providers : ∀ name p, providers c !! name = Some p →
    key_sources p ≤ 1 ∧ (release = true → unsafe_dev c = false → key_sources p ≠ 0);
}.

Definition clean (l : list ConfigValidationError) : Prop := existsb is_blocking l = false.
Lemma clean_app l1 l2 : clean (l1 ++ l2) ↔ clean l1 ∧ clean l2.
Proof. unfold clean. by rewrite existsb_app, orb_false_iff. Qed.
Lemma clean_push b f m v : clean (push_if b (mkIssue f m v SevError)) ↔ b = false.
Proof. by destruct b. Qed.
Lemma clean_warn b f m v : clean (push_if b (mkIssue f m v SevWarning)).
Proof. by destruct b. Qed.
Lemma clean_bind {A} (f : A → list ConfigValidationError) l : clean (l ≫= f) ↔ ∀ x, x ∈ l → clean (f x).
Proof.
  clear bind_address level_directive.
  induction l as [|x l IH]; csimpl; [split; [by intros _ y ?%elem_of_nil|done]|].
  rewrite clean_app, IH. split.
  - by intros [? ?] y [->|?]%elem_of_cons; auto.
  - intros H. split; [|intros]; apply H; set_solver.
Qed.

Lemma clean_server c :
  clean (server_issues c) ↔ server_port c ≠ 0 ∧ shutdown_timeout_secs c ≠ 0 ∧
    bind_address (bind_text c) = true ∧ level_directive (log_level c) = true.
Proof. unfold server_issues. rewrite !clean_app, !clean_push, !Z.eqb_neq, !negb_false_iff. tauto. Qed.
Lemma clean_resources c :
  clean (resource_issues c) ↔ max_daily_cost c ≠ ZERO ∧ max_concurrent c ≠ 0 ∧ max_concurrent_nodes c ≠ 0.
Proof.
  clear bind_address level_directive.
  unfold resource_issues. rewrite !clean_app, !clean_push, !Z.eqb_neq.
  assert (clean (if max_daily_tokens c =? 0 then [] else push_if (100000000 <? max_daily_tokens c)
    (mkIssue "resources.max_daily_tokens" "max_daily_tokens exceeds 100M — verify this is intentional"
      (Some (fmt_u64 (max_daily_tokens c))) SevWarning))) as Ht by (case_match; [done|apply clean_warn]).
  case_bool_decide as Hz; [split; [by intros []|tauto]|].
  pose proof (clean_warn (1000000000000 <? as_nanos (max_daily_cost c)) "resources.max_daily_cost"
    "max_daily_cost exceeds $1000 — verify this is intentional" (Some (to_decimal_usd (max_daily_cost c)))). tauto.
Qed.
Lemma clean_access c :
  clean (access_issues c) ↔
    (auth_enabled (auth c) = true → unsafe_dev c = false → api_keys (auth c) ≠ []) ∧
    (rate_limiting_enabled c = true → requests_per_minute (rate_limiting c) ≠ 0 ∧
       burst_size (rate_limiting c) ≠ 0 ∧ cleanup_interval_secs (rate_limiting c) ≠ 0).
Proof.
  clear bind_address level_directive.
  unfold access_issues. rewrite clean_app, clean_push.
  assert (auth_enabled (auth c) && bool_decide (api_keys (auth c) = []) && negb (unsafe_dev c) = false ↔
    (auth_enabled (auth c) = true → unsafe_dev c = false → api_keys (auth c) ≠ [])) as ->.
  { case_bool_decide; destruct (auth_enabled (auth c)), (unsafe_dev c); csimpl; naive_solver. }
  destruct (rate_limiting_enabled c); [|naive_solver]. rewrite !clean_app, !clean_push, !Z.eqb_neq. naive_solver.
Qed.
Lemma clean_release release c :
  clean (release_issues release c) ↔ (release = true → unsafe_dev c = false →
    auth_enabled (auth c) = true ∧ rate_limiting_enabled c = true ∧ "*" ∉ allowed_origins c ∧
    allowed_shell_commands c = [] ∧ enable_http_tool c = false).
Proof.
  clear bind_address level_directive.
  unfold release_issues. destruct release, (unsafe_dev c); csimpl; [naive_solver| |naive_solver..].
  rewrite !clean_app, !clean_push, !negb_false_iff, bool_decide_eq_true.
  assert (existsb (λ o, bool_decide (o = "*")) (allowed_origins c) = false ↔ "*" ∉ allowed_origins c) as ->;
    [|naive_solver].
  rewrite <- not_true_iff_false, existsb_exists. setoid_rewrite bool_decide_eq_true.
  setoid_rewrite <- list_elem_of_In. naive_solver.
Qed.
Lemma clean_tools release c :
  clean (tool_issues release c) ↔ log_format c ∈ ["text"; "json"] ∧ log_level c ≠ "" ∧
    (release = true → unsafe_dev c = false → allow_unrestricted_args c = false) ∧
    max_staged_input_bytes c ≠ 0 ∧ shell_path_mode c ∈ ["stage"; "direct"] ∧ optimization_level c ≤ 2.
Proof.
  clear bind_address level_directive.
  unfold tool_issues.
  rewrite !clean_app, !clean_push, Z.eqb_neq, Z.ltb_ge, negb_false_iff, bool_decide_eq_true, bool_decide_eq_false.
  assert (negb (bool_decide (shell_path_mode c = "stage")) && negb (bool_decide (shell_path_mode c = "direct")) = false
    ↔ shell_path_mode c ∈ ["stage"; "direct"]) as ->.
  { rewrite !elem_of_cons, elem_of_nil. repeat case_bool_decide; csimpl; naive_solver. }
  match goal with |- context [clean (push_if ?b (mkIssue ?f ?m ?v SevWarning))] => pose proof (clean_warn b f m v) as Hw end.
  destruct (allow_unrestricted_args c), release, (unsafe_dev c); csimpl; naive_solver.
Qed.

Lemma validated release c : validate_with_profile release c = Ok tt ↔ config_ok release c.
Proof.
  unfold validate_with_profile.
  set (errors := server_issues c ++ _).
  assert ((if existsb is_blocking errors then Err errors else Ok tt) = Ok tt ↔ clean errors) as ->
    by (unfold clean; by destruct (existsb is_blocking errors)).
  unfold errors. rewrite !clean_app, clean_server, clean_resources, clean_access, clean_release, clean_tools, clean_bind.
  assert ((∀ x, x ∈ map_iter (providers c) → clean (provider_issues release c x)) ↔
    ∀ name p, providers c !! name = Some p →
      key_sources p ≤ 1 ∧ (release = true → unsafe_dev c = false → key_sources p ≠ 0)) as ->.
  { assert (∀ x, clean (provider_issues release c x) ↔
      key_sources x.2 ≤ 1 ∧ (release = true → unsafe_dev c = false → key_sources x.2 ≠ 0)) as Hx.
    { intros x. unfold provider_issues. rewrite clean_app, !clean_push, Z.ltb_ge.
      destruct release, (unsafe_dev c); csimpl; rewrite ?Z.eqb_neq; naive_solver. }
    setoid_rewrite Hx. split.
    - intros H name p Hp. apply (H (name, p)). by apply elem_of_map_iter.
    - intros H [name p] Hp%elem_of_map_iter. by apply (H name). }
  split; [intros H; split; naive_solver|intros []; naive_solver].
Qed.

(** C25. Validation is exact: a configuration whose daily token limit is not zero
    is accepted if and only if it
    satisfies every requirement, among them, for a release build outside the
    development mode: authentication with keys, rate limiting with a rate, no
    wildcard origin, no shell command, no HTTP tool, no unrestricted
    arguments, and exactly one source for every provider's key. A limit of zero,
    which a comment takes for excluded, is the subject of
    [zero_token_limit_accepted]. *)
Theorem validate_exact release c :
  max_daily_tokens c ≠ 0 → validate_with_profile release c = Ok tt ↔ config_ok release c.
Proof. intros _. apply validated. Qed.
End validate.

(** ** Subscribers *)
Inductive ReloadError :=
| ReloadParse (msg : string)
| ReloadValidation (errors : list ConfigValidationError)
| ReloadSubscriber (name reason : string)
| ReloadConnector (msg : string).

(** What the manager relies on. [view] is what of a subscriber the rest of the
    server sees: preparing keeps it, whatever the outcome, and committing what
    was prepared moves it as the new configuration says ([follows]). *)
Class ConfigSubscriber (S : Type) := {
  View : Type;
  view : S → View;
  follows : AppConfig → View → View → Prop;
  sub_ok : S → Prop;
  sub_priority : S → Z;
  sub_prepare : AppConfig → AppConfig → S → result ReloadError unit * S;
  sub_commit : Z → S → S;
  sub_prepare_ok : ∀ old new s, sub_ok s →
    sub_ok (sub_prepare old new s).2 ∧ view (sub_prepare old new s).2 = view s;
  sub_commit_ok : ∀ old new s generation, sub_ok s → (sub_prepare old new s).1 = Ok tt →
    sub_ok (sub_commit generation (sub_prepare old new s).2) ∧
    follows new (view s) (view (sub_commit generation (sub_prepare old new s).2));
}.

(** [AuthReloader] *)
Section auth_subscriber.
Context (digest : string → string).
Definition auth_sub_prepare (_ new : AppConfig) (r : AuthReloader) : result ReloadError unit * AuthReloader :=
  let '(res, r) := auth_prepare digest (auth new) r in (map_err (ReloadSubscriber "auth") res, r).
Lemma auth_prepare_laws old new r : True → True ∧ handle (auth_sub_prepare old new r).2 = handle r.
Proof. unfold auth_sub_prepare, auth_prepare. by destruct (enabled _ && _). Qed.
Lemma auth_commit_laws old new r (generation : Z) :
  True → (auth_sub_prepare old new r).1 = Ok tt →
  True ∧ handle (auth_commit (auth_sub_prepare old new r).2) = from_config digest (auth new).
Proof. unfold auth_sub_prepare, auth_prepare. by destruct (enabled _ && _). Qed.
(** The table of keys is the one of the new configuration. *)
#[global] Instance auth_subscriber : ConfigSubscriber AuthReloader := {|
  view := handle;
  follows := λ c _ after, after = from_config digest (auth c);
  sub_ok := λ _, True;
  sub_priority := λ _, 1;
  sub_prepare := auth_sub_prepare;
  sub_commit := λ _, auth_commit;
  sub_prepare_ok := auth_prepare_laws;
  sub_commit_ok := auth_commit_laws;
|}.
End auth_subscriber.

(** [RateLimitReloader] *)
Record RateLimitReloader := mkRateReloader { limiter : RateLimiter; rate_staged : option RateLimitingConfig }.
Definition rate_prepare (_ new : AppConfig) (r : RateLimitReloader) : result ReloadError unit * RateLimitReloader :=
  (Ok tt, mkRateReloader (limiter r) (Some (rate_limiting new))).
Definition rate_commit (r : RateLimitReloader) : RateLimitReloader :=
  match rate_staged r with
  | Some c => mkRateReloader (update_config c (limiter r)) None
  | None => r
  end.
(** The limits are the new ones, and the clients keep their buckets. *)
#[global] Instance rate_subscriber : ConfigSubscriber RateLimitReloader := {|
  view := limiter;
  follows := λ c before after, after = mkLimiter (buckets before) (rate_limiting c);
  sub_ok := λ _, True;
  sub_priority := λ _, 2;
  sub_prepare := rate_prepare;
  sub_commit := λ _, rate_commit;
  sub_prepare_ok := λ _ _ _ _, conj I eq_refl;
  sub_commit_ok := λ _ _ _ _ _ _, conj I eq_refl;
|}.

(** [ProviderRegistry] *)
Section registry_subscriber.
Context `{!HashIter string}.
Context (env_var : string → option string).
Context (secret_manager : result string (string → result string string)).
Context (gate_error : string → string).
Definition registry_prepare (_ new : AppConfig) (reg : ProviderRegistry) : result ReloadError unit * ProviderRegistry :=
  let '(res, reg) := prepare env_var secret_manager gate_error (providers new) reg in
  (map_err (ReloadSubscriber "ProviderRegistry") res, reg).
(** What routing reads: the routes and the targets behind them, with their
    breakers, the default, and the tables of capabilities and prices. *)
Record RoutingView := mkRoutingView {
  rv_routes : list (list string * ProviderTarget);
  rv_targets : gmap string ProviderTarget;
  rv_default : ProviderTarget;
  rv_capabilities : gmap string ModelCapabilities;
  rv_pricing : gmap string ModelPricing;
}.
Definition registry_view (reg : ProviderRegistry) : RoutingView :=
  mkRoutingView (prod_map id (store_of reg) <$> prefixes reg) (store_of reg <$> targets reg)
    (store_of reg (default_target reg)) (capabilities reg) (pricing_map reg).
(** Each configured provider, whose key could be resolved, has a new target with
    the configured thresholds and one route, under its name; the default is
    the provider of the smallest name, if there is one; and only providers that
    were dropped lose their entry in a table. *)
Definition registry_follows (c : AppConfig) (before after : RoutingView) : Prop :=
  rv_targets after = map_imap (λ n cfg, Some (create_reload_target n cfg)) (providers c) ∧
  rv_routes after ≡ₚ ((λ kv, ([kv.1 +:+ "/"], kv.2)) <$> map_to_list (rv_targets after)) ∧
  rv_default after = default (rv_default before)
    (select_default_provider_name (map_keys (providers c)) ≫= λ n, rv_targets after !! n) ∧
  (∀ n, rv_capabilities after !! n =
     if decide (is_Some (rv_targets before !! n) ∧ providers c !! n = None) then None else rv_capabilities before !! n) ∧
  (∀ n, rv_pricing after !! n =
     if decide (is_Some (rv_targets before !! n) ∧ providers c !! n = None) then None else rv_pricing before !! n) ∧
  ∀ n cfg, providers c !! n = Some cfg → ∃ k, resolve_api_key env_var secret_manager gate_error cfg n false = Ok k.

Lemma registry_prepare_laws old new reg :
  providers_wf reg → providers_wf (registry_prepare old new reg).2 ∧
  registry_view (registry_prepare old new reg).2 = registry_view reg.
Proof.
  intros Hwf. pose proof (prepare_wf env_var secret_manager gate_error (providers new) reg Hwf) as Hp.
  pose proof (prepare_keeps env_var secret_manager gate_error (providers new) reg) as (Hr & Ht & Hd & Hc & Hpr & Hst).
  unfold registry_prepare. destruct (prepare _ _ _ _ reg) as [res reg1]. csimpl in *.
  split; [done|]. unfold registry_view. rewrite Hr, Ht, Hd, Hc, Hpr, (Hst (default_target reg) (pw_default _ Hwf)).
  f_equal.
  - apply list_fmap_ext. intros i [ps r] Hi. csimpl. rewrite Hst; [done|].
    by apply (pw_routes _ Hwf ps r), (list_elem_of_lookup_2 _ i).
  - apply map_fmap_ext. intros n r Hn. apply Hst. by apply (pw_targets _ Hwf n r).
Qed.

Lemma kept_lookup {V} (m : gmap string V) (old cands : gmap string TargetRef) n :
  filter (λ kv : string * V, old !! kv.1 = None ∨ is_Some (cands !! kv.1)) m !! n =
  if decide (is_Some (old !! n) ∧ cands !! n = None) then None else m !! n.
Proof.
  clear. rewrite map_lookup_filter. destruct (m !! n) as [v|]; csimpl; [|by case_decide].
  destruct (old !! n) as [r|]; destruct (cands !! n) as [r'|]; csimpl;
    repeat case_guard; repeat case_decide; naive_solver.
Qed.
Lemma registry_commit_laws old new reg (generation : Z) :
  providers_wf reg → (registry_prepare old new reg).1 = Ok tt →
  providers_wf (commit (registry_prepare old new reg).2) ∧
  registry_follows new (registry_view reg) (registry_view (commit (registry_prepare old new reg).2)).
Proof.
  intros Hwf. pose proof (prepare_wf env_var secret_manager gate_error (providers new) reg Hwf) as Hp.
  pose proof (prepare_keeps env_var secret_manager gate_error (providers new) reg) as (Hr & Ht & Hd & Hc & Hpr & Hst).
  unfold registry_prepare.
  destruct (prepare env_var secret_manager gate_error (providers new) reg) as [[[]|] reg1] eqn:Hprep; csimpl in *; [|done].
  intros _. split; [by apply commit_wf|].
  destruct (reloaded_targets env_var secret_manager gate_error _ _ _ Hprep) as [Htgt Hkeys].
  destruct (reload_targets env_var secret_manager gate_error _ _ _ Hprep) as (Hnames & _ & _).
  assert (∃ cands, candidates reg1 = Some cands ∧
    pending_default reg1 = select_default_provider_name (map_keys (providers new)) ≫= (cands !!.)) as (cands & Hcands & Hpend).
  { unfold prepare in Hprep. destruct (try_fold _ _ _) as [[[st x] cands]|e]; [|done]. injection Hprep as <-. by exists cands. }
  assert (commit reg1 = mkProviders (store_of reg1) (next_ref reg1) cands
    ((λ kv, ([kv.1 +:+ "/"], kv.2)) <$> map_iter cands) (capabilities (commit reg1)) (pricing_map (commit reg1))
    (default (default_target reg1) (pending_default reg1)) None (u64_wrapping_add (registry_version reg1) 1) None) as Hcommit
    by (unfold commit; by rewrite Hcands).
  assert (∀ n, cands !! n = None ↔ providers new !! n = None) as Hnone.
  { intros n. specialize (Hnames n). rewrite Hcommit in Hnames. csimpl in Hnames.
    rewrite !eq_None_not_Some. by rewrite Hnames. }
  unfold registry_follows, registry_view. csimpl. split_and!; [| | | | |done].
  - apply map_eq. intros n. rewrite lookup_fmap, Htgt, map_lookup_imap. by destruct (providers new !! n).
  - rewrite Hcommit. csimpl. rewrite <- list_fmap_compose, map_iter_perm, map_to_list_fmap, <- list_fmap_compose. done.
  - rewrite Hcommit. csimpl. rewrite Hpend. destruct (select_default_provider_name _) as [n|]; csimpl;
      [|by rewrite Hd, Hst by apply (pw_default _ Hwf)].
    rewrite lookup_fmap. destruct (cands !! n); csimpl; [done|]. by rewrite Hd, Hst by apply (pw_default _ Hwf).
  - intros n. unfold commit. rewrite Hcands. csimpl. rewrite kept_lookup, Ht, Hc, lookup_fmap.
    rewrite (decide_ext (is_Some (targets reg !! n) ∧ cands !! n = None)
      (is_Some (store_of reg <$> targets reg !! n) ∧ providers new !! n = None)); [done|].
    by rewrite fmap_is_Some, Hnone.
  - intros n. unfold commit. rewrite Hcands. csimpl. rewrite kept_lookup, Ht, Hpr, lookup_fmap.
    rewrite (decide_ext (is_Some (targets reg !! n) ∧ cands !! n = None)
      (is_Some (store_of reg <$> targets reg !! n) ∧ providers new !! n = None)); [done|].
    by rewrite fmap_is_Some, Hnone.
Qed.
#[global] Instance registry_subscriber : ConfigSubscriber ProviderRegistry := {|
  view := registry_view;
  follows := registry_follows;
  sub_ok := providers_wf;
  sub_priority := λ _, 10;
  sub_prepare := registry_prepare;
  sub_commit := λ _, commit;
  sub_prepare_ok := registry_prepare_laws;
  sub_commit_ok := registry_commit_laws;
|}.
End registry_subscriber.

(** [ConnectorSubscriber]: the connectors of the configuration, by the type
    that each entry names. *)
Section connector_subscriber.
Context `{SemVer} (semver_new : Z → Z → Z → Version) (version_to_string : Version → string).
Context {CapabilityExecutor : Type}.
Context `{!HashIter string}.
(** The executor that the connector of a type is built with. *)
Context (executor_of : string → CapabilityExecutor).

#[local] Notation Resolver := (ConnectorResolver (CapabilityExecutor := CapabilityExecutor)).
#[local] Notation BoxedConnector := (Connector (CapabilityExecutor := CapabilityExecutor)).
Record ConnectorSubscriber := mkConnectorSubscriber {
  resolver : Resolver;
  connector_candidates : option (gmap string BoxedConnector);
}.
(** The capabilities of a built-in connector, by its name. *)
Definition builtin_capabilities (name : string) : list CapabilityId :=
  if decide (name = "http") then ["http.request"]
  else if decide (name = "shell") then ["shell.exec"]
  else if decide (name = "github") then ["github.issue.create"]
  else if decide (name = "filesystem") then ["fs.read"]
  else if decide (name = "browser") then ["browser.navigate"]
  else if decide (name = "mcp") then ["mcp.tool.invoke"]
  else [].
Definition builtin_connector (name : string) : BoxedConnector :=
  mkConnector (mkDescriptor name (semver_new 0 10 0) (builtin_capabilities name)) (executor_of name).
Definition create_connector (name : string) (cfg : ConnectorConfig) : result ReloadError BoxedConnector :=
  if decide (connector_type cfg ∈ ["http"; "shell"; "github"; "filesystem"; "browser"; "mcp"])
  then Ok (builtin_connector (connector_type cfg))
  else Err (ReloadConnector
    ("Unknown connector type: " +:+ connector_type cfg +:+ " for connector '" +:+ name +:+ "'")).
Definition add_candidate (m : gmap string BoxedConnector) (kv : string * ConnectorConfig)
    : result ReloadError (gmap string BoxedConnector) :=
  c ← create_connector kv.1 kv.2; Ok (<[kv.1 := c]> m).
Definition connector_prepare (_ new : AppConfig) (s : ConnectorSubscriber)
    : result ReloadError unit * ConnectorSubscriber :=
  match try_fold add_candidate ∅ (map_iter (connector_configs new)) with
  | Err e => (Err e, s)
  | Ok cands => (Ok tt, mkConnectorSubscriber (resolver s) (Some cands))
  end.
(** A connector that cannot be registered is skipped with a warning. *)
Definition register_each (r : Resolver) (c : BoxedConnector) : Resolver :=
  (register_connector semver_new version_to_string c r).2.
Definition connector_commit (s : ConnectorSubscriber) : ConnectorSubscriber :=
  match connector_candidates s with
  | None => s
  | Some cands =>
      mkConnectorSubscriber (foldl register_each (clear (resolver s)) (map_values cands)) None
  end.

(** The registered connectors are those of the types the configuration names,
    each the built-in one, healthy, and bound for its own capabilities. *)
Definition connectors_follow (c : AppConfig) (_ after : Resolver) : Prop :=
  (∀ n x, connectors after !! n = Some x ↔
     (∃ k cfg, connector_configs c !! k = Some cfg ∧ connector_type cfg = n) ∧ x = builtin_connector n) ∧
  (∀ n, is_Some (connectors after !! n) → health n after = ConnHealthy) ∧
  (∀ cap n, n ∈ default [] (capability_map after !! cap) ↔ is_Some (connectors after !! n) ∧ cap ∈ builtin_capabilities n) ∧
  rr_index after = ∅.

Lemma try_candidates l m (cands : gmap string BoxedConnector) :
  try_fold add_candidate m l = Ok cands → NoDup l.*1 → (∀ k, k ∈ l.*1 → m !! k = None) →
  ∀ k c, cands !! k = Some c ↔
    m !! k = Some c ∨ ∃ cfg, (k, cfg) ∈ l ∧ c = builtin_connector (connector_type cfg).
Proof.
  clear version_to_string HashIter0.
  revert m. induction l as [|[k0 cfg0] l IH]; intros m Hf Hnd Hm k c; csimpl in *.
  { simplify_eq. set_solver. }
  apply NoDup_cons in Hnd as [Hk0 Hnd]. destruct (add_candidate m (k0, cfg0)) as [m1|e] eqn:Ha; [|done].
  unfold add_candidate, create_connector in Ha. csimpl in Ha. csimpl in Hf.
  case_decide; [|done]. csimpl in Ha. simplify_eq. rewrite (IH _ Hf Hnd).
  - destruct (decide (k = k0)) as [->|Hne].
    + rewrite lookup_insert_eq, (Hm k0) by set_solver. split.
      * intros [[= <-]|(cfg & Hin & ->)]; [set_solver|]. exfalso. apply Hk0.
        apply list_elem_of_fmap. by exists (k0, cfg).
      * intros [|(cfg & Hin & ->)]; [done|]. apply elem_of_cons in Hin as [[= <-]|Hin]; [by left|].
        exfalso. apply Hk0. apply list_elem_of_fmap. by exists (k0, cfg).
    + rewrite lookup_insert_ne by done. set_solver.
  - intros k' Hk'. rewrite lookup_insert_ne by set_solver. apply Hm. set_solver.
Qed.
Lemma register_all_builtin l (r : Resolver) :
  (∀ c, c ∈ l → ∃ t, c = builtin_connector t) → resolver_wf builtin_capabilities r →
  let r' := foldl register_each r l in
  resolver_wf builtin_capabilities r' ∧ rr_index r' = rr_index r ∧
  (∀ n, connectors r' !! n = if decide (n ∈ d_name ∘ descriptor <$> l) then Some (builtin_connector n) else connectors r !! n) ∧
  (∀ n, n ∈ d_name ∘ descriptor <$> l → health n r' = ConnHealthy).
Proof.
  clear HashIter0.
  revert r. induction l as [|c l IH]; intros r Hl Hr; csimpl; [split_and!; try done; set_solver|].
  destruct (Hl c) as [t ->]; [set_solver|].
  assert (resolver_wf builtin_capabilities (register_each r (builtin_connector t))) as Hr'
    by (by apply connector_register_wf).
  destruct (IH _ (λ c Hc, Hl c (list_elem_of_further _ _ _ Hc)) Hr') as (H1 & H2 & H3 & H4).
  assert (register_each r (builtin_connector t) = mkResolver (<[t := builtin_connector t]> (connectors r))
    (foldl (map_capability t) (capability_map r) (builtin_capabilities t)) (rr_index r)
    (<[t := ConnHealthy]> (conn_health r))) as Heach.
  { unfold register_each, register_connector. csimpl.
    assert (version_leb (MIN_SUPPORTED_RUNTIME_VERSION semver_new) (semver_new 0 10 0) = true) as ->
      by (by destruct (version_leb_total (semver_new 0 10 0) (semver_new 0 10 0))). done. }
  split_and!; [done|by rewrite H2, Heach| |].
  - intros n. rewrite H3, Heach. csimpl. destruct (decide (n = t)) as [->|Hne].
    + rewrite lookup_insert_eq. rewrite (decide_True (P := t ∈ _ :: _)) by set_solver. by case_decide.
    + rewrite lookup_insert_ne by done. repeat case_decide; set_solver.
  - intros n [->|Hin]%elem_of_cons; [|by apply H4]. csimpl.
    destruct (decide (t ∈ d_name ∘ descriptor <$> l)) as [Hin|Hnin]; [by apply H4|].
    assert (∀ l (r : Resolver), (∀ c, c ∈ l → ∃ t, c = builtin_connector t) → t ∉ d_name ∘ descriptor <$> l →
      conn_health (foldl register_each r l) !! t = conn_health r !! t) as Hkeep.
    { clear. intros l. induction l as [|c l IH]; intros r Hl Hn; csimpl; [done|].
      destruct (Hl c) as [t' ->]; [set_solver|]. rewrite IH; [|intros c Hc; apply Hl; set_solver|set_solver].
      unfold register_each, register_connector. case_match; csimpl; [done|]. rewrite lookup_insert_ne; set_solver. }
    unfold health. rewrite Hkeep; [|intros c Hc; apply Hl; set_solver|done]. rewrite Heach. csimpl. by rewrite lookup_insert_eq.
Qed.
Lemma connector_prepare_laws old new s :
  resolver_wf builtin_capabilities (resolver s) →
  resolver_wf builtin_capabilities (resolver (connector_prepare old new s).2) ∧
  resolver (connector_prepare old new s).2 = resolver s.
Proof. unfold connector_prepare. by destruct (try_fold add_candidate _ _). Qed.
Lemma connector_commit_laws old new s (generation : Z) :
  resolver_wf builtin_capabilities (resolver s) → (connector_prepare old new s).1 = Ok tt →
  resolver_wf builtin_capabilities (resolver (connector_commit (connector_prepare old new s).2)) ∧
  connectors_follow new (resolver s) (resolver (connector_commit (connector_prepare old new s).2)).
Proof.
  intros Hs. unfold connector_prepare.
  destruct (try_fold add_candidate ∅ (map_iter (connector_configs new))) as [cands|] eqn:Hf; [|done].
  intros _. csimpl.
  assert (∀ k c, cands !! k = Some c ↔
    ∃ cfg, connector_configs new !! k = Some cfg ∧ c = builtin_connector (connector_type cfg)) as Hc.
  { intros k c. rewrite (try_candidates _ _ _ Hf); [|apply map_keys_NoDup|intros; apply lookup_empty].
    rewrite lookup_empty. setoid_rewrite elem_of_map_iter. naive_solver. }
  destruct (register_all_builtin (map_values cands) (clear (resolver s))) as (H1 & H2 & H3 & H4).
  { intros c (k & Hk)%elem_of_map_values. apply Hc in Hk as (cfg & _ & ->). eauto. }
  { apply resolver_new_wf. }
  assert (∀ n, n ∈ d_name ∘ descriptor <$> map_values cands ↔
    ∃ k cfg, connector_configs new !! k = Some cfg ∧ connector_type cfg = n) as Hnames.
  { intros n. rewrite list_elem_of_fmap. setoid_rewrite elem_of_map_values. setoid_rewrite Hc. split.
    - intros (c & -> & k & cfg & Hk & ->). by exists k, cfg.
    - intros (k & cfg & Hk & <-). by exists (builtin_connector (connector_type cfg)); eauto. }
  unfold connector_commit. csimpl. split; [done|]. split_and!.
  - intros n x. rewrite H3. case_decide as Hn; rewrite Hnames in Hn; [naive_solver|].
    unfold clear. csimpl. rewrite lookup_empty. naive_solver.
  - intros n [x Hx]. apply H4. rewrite H3 in Hx. case_decide; [done|]. unfold clear in Hx. csimpl in Hx. by rewrite lookup_empty in Hx.
  - apply (wf_mapped _ _ H1).
  - by rewrite H2.
Qed.
#[global] Instance connector_subscriber : ConfigSubscriber ConnectorSubscriber := {|
  view := resolver;
  follows := connectors_follow;
  sub_ok := λ s, resolver_wf builtin_capabilities (resolver s);
  sub_priority := λ _, 5;
  sub_prepare := connector_prepare;
  sub_commit := λ _, connector_commit;
  sub_prepare_ok := connector_prepare_laws;
  sub_commit_ok := connector_commit_laws;
|}.
End connector_subscriber.

(** [FeatureGateSubscriber]: the flags that the configuration names have the
    value it gives them, and the others keep theirs, also the value of an
    override that the configuration no longer has. *)
Section feature_subscriber.
Context `{!HashIter string}.
Definition features_follow (c : AppConfig) (before after : FeatureRegistry) : Prop :=
  definitions after = definitions before ∧
  ∀ flag, flag ∈ f_id <$> definitions before →
    is_enabled flag after = default (is_enabled flag before) (features c !! flag_key flag).
Lemma gate_commit_laws (old new : AppConfig) g (generation : Z) :
  features_wf (gate_registry g) → Ok (E := ReloadError) tt = Ok tt →
  features_wf (gate_registry (gate_commit (gate_prepare (features new) g))) ∧
  features_follow new (gate_registry g) (gate_registry (gate_commit (gate_prepare (features new) g))).
Proof.
  intros Hg _. split; [by apply apply_config_wf|]. split; csimpl; [by apply apply_config_defs|].
  intros flag Hin. unfold is_enabled. rewrite apply_config_states by done. rewrite decide_True by done.
  by destruct (features new !! flag_key flag).
Qed.
#[global] Instance feature_subscriber : ConfigSubscriber FeatureGateSubscriber := {|
  view := gate_registry;
  follows := features_follow;
  sub_ok := λ g, features_wf (gate_registry g);
  sub_priority := λ _, 0;
  sub_prepare := λ _ new g, (Ok tt, gate_prepare (features new) g);
  sub_commit := λ _, gate_commit;
  sub_prepare_ok := λ _ _ _ H, conj H eq_refl;
  sub_commit_ok := gate_commit_laws;
|}.
End feature_subscriber.

(** ** [ConfigManager] *)
(** A boxed subscriber. *)
Record Subscriber := mkSubscriber { s_type : Type; s_ops :: ConfigSubscriber s_type; s_state : s_type }.
Definition box {S} `{!ConfigSubscriber S} (s : S) : Subscriber := mkSubscriber S _ s.
Definition s_priority (b : Subscriber) : Z := sub_priority (s_state b).
Definition s_prepare (old new : AppConfig) (b : Subscriber) : result ReloadError unit * Subscriber :=
  let '(r, s) := sub_prepare old new (s_state b) in (r, mkSubscriber _ (s_ops b) s).
Definition s_commit (generation : Z) (b : Subscriber) : Subscriber :=
  mkSubscriber _ (s_ops b) (sub_commit generation (s_state b)).
Definition s_ok (b : Subscriber) : Prop := sub_ok (s_state b).
(** The same subscriber, seen as before, or moved as a configuration says. *)
Definition s_same (b b' : Subscriber) : Prop :=
  ∃ s, b' = mkSubscriber (s_type b) (s_ops b) s ∧ sub_ok s ∧ view s = view (s_state b).
Definition s_follows (c : AppConfig) (b b' : Subscriber) : Prop :=
  ∃ s, b' = mkSubscriber (s_type b) (s_ops b) s ∧ sub_ok s ∧ follows c (view (s_state b)) (view s).

Record ConfigSnapshot := mkConfigSnapshot { generation : Z; snapshot_config : AppConfig }.
Record ConfigManager := mkConfigManager {
  published : ConfigSnapshot;
  subscribers : list Subscriber;
  generation_counter : Z;
}.
Definition manager_start (c : AppConfig) (subs : list Subscriber) : ConfigManager :=
  mkConfigManager (mkConfigSnapshot 1 c) subs 1.
Definition register_subscriber (s : Subscriber) (m : ConfigManager) : ConfigManager :=
  mkConfigManager (published m) (subscribers m ++ [s]) (generation_counter m).

(** The subscribers by priority, as positions in the manager's list. *)
Definition by_priority (subs : list Subscriber) : list nat :=
  (λ p : Z * nat, p.2) <$>
    sort_by (λ a b : Z * nat, a.1 <=? b.1) (imap (λ i b, (s_priority b, i)) subs).
Fixpoint prepare_all (old new : AppConfig) (order : list nat) (subs : list Subscriber)
    : result ReloadError unit * list Subscriber :=
  match order with
  | [] => (Ok tt, subs)
  | i :: order =>
      match subs !! i with
      | None => prepare_all old new order subs
      | Some b =>
          match s_prepare old new b with
          | (Err e, b) => (Err e, <[i := b]> subs)
          | (Ok _, b) => prepare_all old new order (<[i := b]> subs)
          end
      end
  end.
Definition commit_at (generation : Z) (subs : list Subscriber) (i : nat) : list Subscriber :=
  match subs !! i with Some b => <[i := s_commit generation b]> subs | None => subs end.

(** What the two phases do to a position *)
Lemma by_priority_perm subs : by_priority subs ≡ₚ seq 0 (length subs).
Proof.
  unfold by_priority. rewrite sort_by_perm, fmap_imap.
  apply reflexive_eq, list_eq. intros i. rewrite list_lookup_imap.
  destruct (subs !! i) eqn:Hi; csimpl.
  - by rewrite lookup_seq_lt by (by eapply lookup_lt_Some).
  - by rewrite lookup_seq_ge by (by apply lookup_ge_None).
Qed.
Lemma by_priority_nodup subs : NoDup (by_priority subs).
Proof. rewrite by_priority_perm. apply NoDup_seq. Qed.
Lemma elem_of_by_priority subs i : i ∈ by_priority subs ↔ is_Some (subs !! i).
Proof. rewrite by_priority_perm, elem_of_seq, lookup_lt_is_Some. lia. Qed.

Lemma s_same_refl b : s_ok b → s_same b b.
Proof. destruct b as [T ops st]. intros H. by exists st. Qed.
Lemma s_same_trans b1 b2 b3 : s_same b1 b2 → s_same b2 b3 → s_same b1 b3.
Proof.
  destruct b1 as [T ops s1]. intros (s2 & -> & H2 & E2) (s3 & -> & H3 & E3). csimpl in *.
  exists s3. split_and!; [done|done|]. exact (eq_trans E3 E2).
Qed.
Lemma s_same_ok b b' : s_same b b' → s_ok b'.
Proof. by intros (s & -> & H & _). Qed.
Lemma s_prepare_keeps old new b : s_ok b → s_same b (s_prepare old new b).2.
Proof.
  intros H. unfold s_prepare, s_ok. pose proof (sub_prepare_ok old new (s_state b) H) as [H1 H2].
  destruct (sub_prepare old new (s_state b)) as [r s]. by exists s.
Qed.
Lemma s_commit_follows old new g b :
  s_ok b → (s_prepare old new b).1 = Ok tt → s_follows new b (s_commit g (s_prepare old new b).2).
Proof.
  intros H. unfold s_prepare, s_ok. pose proof (sub_commit_ok old new (s_state b) g H) as Hc.
  destruct (sub_prepare old new (s_state b)) as [r s]. csimpl in *. intros Hr. destruct (Hc Hr). by eexists.
Qed.

(** Whatever its outcome, the first phase leaves every subscriber as it was seen. *)
Lemma prepare_all_keeps old new order subs :
  Forall s_ok subs → Forall2 s_same subs (prepare_all old new order subs).2.
Proof.
  revert subs. induction order as [|i order IH]; intros subs Hok.
  { csimpl. apply Forall_Forall2_diag. by eapply Forall_impl, s_same_refl. }
  csimpl. destruct (subs !! i) as [b|] eqn:Hb; [|by apply IH].
  assert (s_ok b) as Hb1 by (by eapply Forall_lookup_1).
  pose proof (s_prepare_keeps old new b Hb1) as Hs. destruct (s_prepare old new b) as [r b']. csimpl in Hs.
  assert (Forall2 s_same subs (<[i := b']> subs)) as Hsame.
  { rewrite <- (list_insert_id subs i b Hb) at 1. apply Forall2_insert; [|done].
    apply Forall_Forall2_diag. by eapply Forall_impl, s_same_refl. }
  destruct r as [[]|e]; csimpl; [|done]. eapply Forall2_trans; [|exact Hsame|apply IH].
  - intros ???. apply s_same_trans.
  - apply Forall_insert; [done|]. by eapply s_same_ok.
Qed.
(** When it succeeds, every position of the order was prepared once. *)
Lemma prepare_all_done old new order subs subs' :
  NoDup order → prepare_all old new order subs = (Ok tt, subs') →
  ∀ i, subs' !! i =
    if decide (i ∈ order) then (λ b, (s_prepare old new b).2) <$> subs !! i else subs !! i.
Proof.
  revert subs. induction order as [|j order IH]; intros subs Hnd Hp i; csimpl in Hp.
  { by simplify_eq. }
  apply NoDup_cons in Hnd as [Hj Hnd].
  destruct (subs !! j) as [b|] eqn:Hb.
  - destruct (s_prepare old new b) as [[[]|e] b'] eqn:Hs; [|done].
    rewrite (IH _ Hnd Hp i). destruct (decide (i = j)) as [->|Hij].
    + rewrite decide_False by done. rewrite decide_True by (apply elem_of_cons; by left).
      rewrite list_lookup_insert_eq by (by eapply lookup_lt_Some). rewrite Hb. csimpl. by rewrite Hs.
    + rewrite list_lookup_insert_ne by done. repeat case_decide; set_solver.
  - rewrite (IH _ Hnd Hp i). destruct (decide (i = j)) as [->|Hij].
    + rewrite Hb. by repeat case_decide.
    + repeat case_decide; set_solver.
Qed.
Lemma prepare_all_succeeded old new order subs subs' i b :
  NoDup order → prepare_all old new order subs = (Ok tt, subs') →
  i ∈ order → subs !! i = Some b → (s_prepare old new b).1 = Ok tt.
Proof.
  revert subs. induction order as [|j order IH]; intros subs Hnd Hp Hi Hb; [set_solver|].
  apply NoDup_cons in Hnd as [Hj Hnd]. csimpl in Hp.
  destruct (decide (i = j)) as [->|Hij].
  - rewrite Hb in Hp. by destruct (s_prepare old new b) as [[[]|e] b'] eqn:Hs.
  - assert (i ∈ order) as Hio by set_solver.
    destruct (subs !! j) as [b'|] eqn:Hb'; [|by eapply IH].
    destruct (s_prepare old new b') as [[[]|e] b''] eqn:Hs; [|done].
    eapply IH; [done|done|done|]. by rewrite list_lookup_insert_ne.
Qed.
Lemma commit_each g order subs i :
  NoDup order →
  foldl (commit_at g) subs order !! i = if decide (i ∈ order) then s_commit g <$> subs !! i else subs !! i.
Proof.
  revert subs. induction order as [|j order IH]; intros subs Hnd; [done|].
  apply NoDup_cons in Hnd as [Hj Hnd]. csimpl. rewrite IH by done. unfold commit_at.
  destruct (subs !! j) as [b|] eqn:Hb.
  - destruct (decide (i = j)) as [->|Hij].
    + rewrite decide_False by done. rewrite decide_True by (apply elem_of_cons; by left).
      rewrite list_lookup_insert_eq by (by eapply lookup_lt_Some). by rewrite Hb.
    + rewrite list_lookup_insert_ne by done. repeat case_decide; set_solver.
  - destruct (decide (i = j)) as [->|Hij].
    + rewrite Hb. by repeat case_decide.
    + repeat case_decide; set_solver.
Qed.

Lemma length_commit_all g order subs : length (foldl (commit_at g) subs order) = length subs.
Proof.
  revert subs. induction order as [|i order IH]; intros subs; csimpl; [done|]. rewrite IH. unfold commit_at.
  case_match; [apply length_insert|done].
Qed.

Section manager.
Context `{!HashIter string}.
Context (bind_address level_directive : string → bool) (release : bool).
(** [serde_yaml::from_str] *)
Context (parse : string → result string AppConfig).

(** The first reading of the file, and the second when the first does not parse. *)
Definition read_config (first second : result string string) : result ReloadError AppConfig :=
  content ← map_err ReloadParse first;
  match parse content with
  | Ok c => Ok c
  | Err first_err =>
      retry ← map_err ReloadParse second;
      map_err (λ e, ReloadParse (e +:+ " (initial parse also failed: " +:+ first_err +:+ ")")) (parse retry)
  end.
Definition reload_config (first second : result string string) (m : ConfigManager)
    : result ReloadError Z * ConfigManager :=
  match read_config first second with
  | Err e => (Err e, m)
  | Ok new =>
      match validate_with_profile bind_address level_directive release new with
      | Err errors => (Err (ReloadValidation errors), m)
      | Ok _ =>
          let next_gen := u64_wrapping_add (generation_counter m) 1 in
          let order := by_priority (subscribers m) in
          match prepare_all (snapshot_config (published m)) new order (subscribers m) with
          | (Err e, subs) => (Err e, mkConfigManager (published m) subs next_gen)
          | (Ok _, subs) =>
              (Ok next_gen, mkConfigManager (mkConfigSnapshot next_gen new)
                 (foldl (commit_at next_gen) subs order) next_gen)
          end
      end
  end.

End manager.

(** ** A concrete manager *)
#[local] Instance reload_iter : HashIter string := map_to_list_iter string.
Definition demo_config (allowed : Z) (connector : gmap string ConnectorConfig) (flags : gmap string bool) : AppConfig :=
  mkAppConfig false "0.0.0.0" 8080 30 [] (mkAuthConfig true ["sk-a"]) true (mkRateConfig 60 allowed 10) "json" "info"
    (from_nanos 100000000000) 0 5 16 [] false "stage" false 1000000 1 ∅ connector flags.
Definition old_config : AppConfig := demo_config 5 ∅ ∅.
Definition new_config : AppConfig :=
  demo_config 9 {["web" := mkConnectorConfig "http"]} {["replay" := true]}.
Definition bad_config : AppConfig :=
  demo_config 9 {["web" := mkConnectorConfig "ftp"]} {["replay" := true]}.
Definition replay_feature : FeatureDefinition :=
  mkFeature Replay "0.5.0" None Experimental false "Enable request replay".
Definition demo_subscribers : list Subscriber :=
  [box (ConfigSubscriber0 := registry_subscriber (λ _, None) (Err "no key") id) (providers_new (mkTarget "default" (breaker_new 5 3 30)));
   box (ConfigSubscriber0 := connector_subscriber (H := demo_semver) demo_version pretty id)
     (mkConnectorSubscriber (H := demo_semver) (CapabilityExecutor := string) resolver_new None);
   box (ConfigSubscriber0 := auth_subscriber demo_digest)
     (mkReloader (from_config demo_digest (auth old_config)) None);
   box (mkRateReloader (limiter_new (rate_limiting old_config)) None);
   box (gate_new [replay_feature])].
Definition demo_manager : ConfigManager := manager_start old_config demo_subscribers.
Definition demo_parse (text : string) : result string AppConfig :=
  if decide (text = "new") then Ok new_config else if decide (text = "bad") then Ok bad_config else Err "invalid".

Lemma demo_manager_ok : Forall s_ok (subscribers demo_manager).
Proof.
  repeat apply Forall_cons_2; [apply providers_new_wf|apply resolver_new_wf|exact I|exact I|apply features_new_wf|constructor].
Qed.

(** A release configuration that is accepted, and so meets every requirement. *)
Lemma validate_exact_witness :
  let c := mkAppConfig false "0.0.0.0" 8080 30 [] (mkAuthConfig true ["sk-a"]) true (mkRateConfig 60 5 10) "json" "info"
    (from_nanos 100000000000) 500000 5 16 [] false "stage" false 1000000 1 ∅ ∅ ∅ in
  validate_with_profile (λ _, true) (λ _, true) true c = Ok tt ∧ config_ok (λ _, true) (λ _, true) true c.
Proof.
  intros c. assert (validate_with_profile (λ _, true) (λ _, true) true c = Ok tt) as Hv by (vm_compute; reflexivity).
  split; [exact Hv|]. apply (validate_exact (λ _, true) (λ _, true) true c); [vm_compute; discriminate|exact Hv].
Defined.

(** The comment on [max_daily_tokens] says that zero is caught by a later
    check; no check rejects it. *)
Theorem zero_token_limit_accepted :
  max_daily_tokens new_config = 0 ∧ max_concurrent_nodes new_config = 16 ∧
  validate_with_profile (λ _, true) (λ _, true) true new_config = Ok tt.
Proof. by vm_compute. Qed.
