(* ===== verification/HostPlanner.v ===== *)
(** * From a chat request to a plan ([src/requirements/extractor.rs],
      [src/planner/intent_planner.rs], [src/ir/adapter.rs], [src/server/pipeline.rs])

    The first half of the chat pipeline: what the request asks for is
    extracted from its assembled context, joined with the evidence and the
    live policies into a planning request for the crates' planner, and the
    planner's workflow is translated into the IR the compiler takes. With it
    [process_chat] is the whole of [process_request], from the request to its
    answer. Unicode lowercasing, the text forms of errors and actions and the
    UUID functions are parameters. *)
From S2P Require Import Prelude Text Json Money Graphs Capability WorkflowIr WorkflowIrProps ExecTypes Planner PlannerProps Budget Policy Strategy Compiler CompilerProps WorkQueue Scheduler DagQueue SchedulerProps Runtime RuntimeProps HostResource MeteredStream HostTypes ContextAssembly HostPolicy HostExecutor RequestPipeline ProviderRouting.
From Stdlib Require Import Floats.SpecFloat.
Open Scope stdpp_scope.
Open Scope Z_scope.

(** ** Requirements *)
Inductive Intent := ICode | IDebug | IArchitecture | IGeneral | ICreative | IAnalysis.
Inductive ComplexityLevel := Low | Medium | High | Critical.
Record Requirements := mkReqs {
  intent_classification : Intent;
  rq_complexity : ComplexityLevel;
  has_files : bool;
  context_window : Z;
  original_text : string;
  rq_execution_intent : option HostIntent;
  output_preferences : option OutputPreferences;
  rq_requested_strategy : option RequestStrategy;
  rq_requested_model : option string;
  model_requirements : option ModelRequirements;
}.

Section extract.
(** [str::to_lowercase] *)
Context (to_lowercase : string → string).

Definition keywords : list (Intent * list string) :=
  [(ICode, ["code"; "function"; "implement"; "write a program"; "class"; "api"]);
   (IDebug, ["bug"; "error"; "fix"; "issue"; "crash"; "incorrect"]);
   (IArchitecture, ["design"; "architecture"; "system"; "component"; "module"]);
   (IAnalysis, ["analyze"; "explain"; "compare"; "evaluate"; "review"]);
   (ICreative, ["story"; "poem"; "creative"; "imagine"; "generate"])].
Definition classify_intent (ctx : ContextSnapshot) : Intent :=
  let combined := str_join " " ((λ m, to_lowercase (content m)) <$> cs_messages ctx) in
  (foldl (λ '(max_score, best) '(i, kws),
     let score := length (filter (λ kw, str_contains kw combined = true) kws) in
     if (max_score <? score)%nat then (score, i) else (max_score, best)) (0%nat, IGeneral) keywords).2.
Definition compute_complexity (ctx : ContextSnapshot) : ComplexityLevel :=
  let c := foldr (λ m n, Z.of_nat (String.length (content m)) + n) 0 (cs_messages ctx) in
  let f := Z.of_nat (length (cs_files ctx)) in
  if 10000 <? c then Critical
  else if (5000 <? c) || (5 <? f) then High
  else if (1000 <? c) || (2 <? f) then Medium
  else Low.
(** The scores as [f32] literals. *)
Definition f32_0_8 : spec_float := S754_finite false 13421773 (-24).
Definition f32_0_85 : spec_float := S754_finite false 14260634 (-24).
Definition f32_0_7 : spec_float := S754_finite false 11744051 (-24).
Definition build_model_requirements (ctx : ContextSnapshot) (i : Intent) : ModelRequirements :=
  let '(coding, reasoning) :=
    match i with
    | ICode | IDebug => (Some f32_0_8, None)
    | IArchitecture => (Some f32_0_7, Some f32_0_85)
    | IAnalysis => (None, Some f32_0_7)
    | _ => (None, None)
    end in
  let min_context :=
    if existsb (λ m, 10000 <? Z.of_nat (String.length (content m))) (cs_messages ctx) then Some 32000
    else if 16000 <? cs_max_tokens ctx then Some (cs_max_tokens ctx)
    else None in
  mkRequirements min_context coding reasoning (negb (bool_decide (cs_tools ctx = []))) true false None None.
Definition extract (ctx : ContextSnapshot) : Requirements :=
  let i := classify_intent ctx in
  mkReqs i (compute_complexity ctx) (negb (bool_decide (cs_files ctx = []))) (cs_max_tokens ctx)
    (str_join (String (Ascii.ascii_of_nat 10) "") (content <$> cs_messages ctx)) None None None None
    (Some (build_model_requirements ctx i)).
(** [RequirementsExtractionStep] *)
Definition requirements_step (r : ChatCompletionRequest) (ctx : ContextSnapshot) : Requirements :=
  let q := extract ctx in
  mkReqs (intent_classification q) (rq_complexity q) (has_files q) (context_window q) (original_text q)
    (cr_execution r) (cr_output r) (cr_strategy r) (Some (cr_model r)) (model_requirements q).
End extract.

(** ** Evidence *)
Record EvidenceSnapshot := mkEvidence {
  record_count : Z;
  success_rates : gmap string f64;
  avg_latencies : gmap string f64;
  avg_costs : gmap string NanoUSD;
  model_rankings : list string;
}.
(** [a.partial_cmp(b).unwrap_or(Equal)] does not put [a] after [b]. *)
Definition f64_leb (a b : f64) : bool := match SFcompare a b with Some Gt => false | _ => true end.
(** [v.max(0.0) as u128] *)
Definition f64_as_u128 (x : f64) : Z :=
  match x with
  | S754_finite false m e =>
      clamp 0 (2 ^ 128 - 1) (if 0 <=? e then Zpos m * 2 ^ e else Zpos m `div` 2 ^ (- e))
  | S754_infinity false => 2 ^ 128 - 1
  | _ => 0
  end.
Definition f64_one : f64 := S754_finite false 4503599627370496 (-52).
(** [x.clamp(0.0, 1.0)] *)
Definition f64_unit (x : f64) : f64 :=
  if match SFcompare x f64_zero with Some Lt => true | _ => false end then f64_zero
  else if match SFcompare x f64_one with Some Gt => true | _ => false end then f64_one else x.
Definition is_positive (x : f64) : bool := match SFcompare x f64_zero with Some Gt => true | _ => false end.

Section aggregate.
Context `{!HashIter string}.
(** The sum of the latencies is a [u128] and wraps in the release build. *)
Definition mean_latency (l : list f64) : Z :=
  match l with
  | [] => 0
  | _ => Z.min (foldl (λ a v, (a + f64_as_u128 v) `mod` 2 ^ 128) 0 l `div` Z.of_nat (length l)) u64_max
  end.
Definition mean_error (l : list f64) : f64 :=
  match l with
  | [] => f64_zero
  | _ => f64_sub f64_one (f64_div (foldl f64_add f64_zero l) (f64_of_int (Z.of_nat (length l))))
  end.
Definition aggregate_telemetry (s : EvidenceSnapshot) : RoutingTelemetrySnapshot :=
  mkTelemetry (mean_latency (sort_by f64_leb (map_values (avg_latencies s))))
    (f64_unit (mean_error (sort_by f64_leb (map_values (success_rates s)))))
    (Z.of_nat (length (filter (λ r, is_positive r = true) (map_values (success_rates s))))).
End aggregate.

(** *** Evidence does not depend on the order of hash maps *)
Definition unsigned (x : f64) : f64 := match x with S754_zero _ => f64_zero | _ => x end.
Definition no_nan (x : f64) : Prop := x ≠ S754_nan.
Definition rank (x : f64) : Z * Z :=
  match x with
  | S754_infinity true => (-2, 0)
  | S754_finite true _ e => (-1, - e)
  | S754_zero _ => (0, 0)
  | S754_finite false _ e => (1, e)
  | S754_infinity false => (2, 0)
  | S754_nan => (3, 0)
  end.
Definition tail_rank (x : f64) : Z :=
  match x with S754_finite s m _ => if s then Zneg m else Zpos m | _ => 0 end.
Lemma f64_leb_rank x y :
  no_nan x → no_nan y →
  f64_leb x y = true ↔ (rank x).1 < (rank y).1 ∨ (rank x).1 = (rank y).1 ∧
    ((rank x).2 < (rank y).2 ∨ (rank x).2 = (rank y).2 ∧ tail_rank x ≤ tail_rank y).
Proof.
  unfold f64_leb, no_nan. intros Hx Hy.
  destruct x as [[]|[]| |[] m e], y as [[]|[]| |[] n f]; try done; cbn [SFcompare rank tail_rank fst snd];
    try (first [split; [intros; lia|done]|split; [done|intros; lia]]).
  all: destruct (Z.compare_spec e f); cbn [CompOpp].
  all: try (change (Pos.compare_cont Eq m n) with (Pos.compare m n); destruct (Pos.compare_spec m n); cbn [CompOpp]).
  all: split; intros; first [done|lia].
Qed.
(** The order [f64_leb] extends to, NaN last *)
Definition rank_leb (x y : f64) : bool :=
  bool_decide ((rank x).1 < (rank y).1 ∨ (rank x).1 = (rank y).1 ∧
    ((rank x).2 < (rank y).2 ∨ (rank x).2 = (rank y).2 ∧ tail_rank x ≤ tail_rank y)).
Lemma rank_leb_antisym x y : rank_leb x y = true → rank_leb y x = true → unsigned x = unsigned y.
Proof.
  unfold rank_leb. rewrite !bool_decide_eq_true. intros H1 H2.
  assert ((rank x).1 = (rank y).1 ∧ (rank x).2 = (rank y).2 ∧ tail_rank x = tail_rank y) as (Ha & Hb & Hc) by lia.
  clear H1 H2. destruct x as [[]|[]| |[] m e], y as [[]|[]| |[] n f]; csimpl in *; try done; f_equal; lia.
Qed.
(** Two orders of the same values sort to lists that differ only in the signs of zeros. *)
Lemma sorted_values l1 l2 :
  l1 ≡ₚ l2 → Forall no_nan l1 → unsigned <$> sort_by f64_leb l1 = unsigned <$> sort_by f64_leb l2.
Proof.
  intros Hp H1. assert (Forall no_nan l2) as H2 by (by rewrite <- Hp).
  assert (∀ l, Forall no_nan l → sort_by f64_leb l = sort_by rank_leb l) as Hr.
  { intros l Hl. rewrite Forall_forall in Hl. apply sort_by_ext. intros x y Hx Hy. apply eq_bool_prop_intro.
    rewrite !Is_true_true, f64_leb_rank by auto. unfold rank_leb. by rewrite bool_decide_eq_true. }
  rewrite !Hr by done. rewrite !sort_by_fmap by (by intros [[]| | |] [[]| | |]).
  apply sort_by_perm_eq; [| |intros x y (x' & -> & _)%list_elem_of_fmap (y' & -> & _)%list_elem_of_fmap Ha Hb|by apply fmap_Permutation].
  - intros x y. unfold rank_leb. rewrite !bool_decide_eq_true. lia.
  - intros x y z. unfold rank_leb. rewrite !bool_decide_eq_true. lia.
  - apply rank_leb_antisym in Ha; [|done]. by destruct x' as [[]| | |], y' as [[]| | |].
Qed.

Lemma add_unsigned a b : unsigned (f64_add a b) = unsigned (f64_add (unsigned a) (unsigned b)).
Proof. by destruct a as [[]| | |], b as [[]| | |]. Qed.
Lemma unsigned_idemp a : unsigned (unsigned a) = unsigned a.
Proof. by destruct a. Qed.
Lemma sum_unsigned l a b :
  unsigned a = unsigned b → unsigned (foldl f64_add a l) = unsigned (foldl f64_add b (unsigned <$> l)).
Proof.
  revert a b. induction l as [|x l IH]; intros a b Hab; csimpl; [done|]. apply IH.
  by rewrite add_unsigned, (add_unsigned b), Hab, unsigned_idemp.
Qed.
Lemma error_unsigned s s' n : unsigned s = unsigned s' → f64_sub f64_one (f64_div s n) = f64_sub f64_one (f64_div s' n).
Proof.
  intros H. destruct s as [[]| | |], s' as [[]| | |]; csimpl in H; try discriminate; try done; try congruence;
    by destruct n as [[]|[]| |[]].
Qed.
Lemma mean_error_order l1 l2 :
  l1 ≡ₚ l2 → Forall no_nan l1 → mean_error (sort_by f64_leb l1) = mean_error (sort_by f64_leb l2).
Proof.
  intros Hp Hn. pose proof (sorted_values _ _ Hp Hn) as Hs. unfold mean_error.
  assert (length (sort_by f64_leb l1) = length (sort_by f64_leb l2)) as Hl by (by rewrite !length_sort_by, Hp).
  destruct (sort_by f64_leb l1), (sort_by f64_leb l2); try done. rewrite Hl. apply error_unsigned.
  etrans; [by apply (sum_unsigned _ _ f64_zero)|]. rewrite Hs. symmetry. by apply sum_unsigned.
Qed.
Lemma latency_sum_order l1 l2 a :
  l1 ≡ₚ l2 → foldl (λ a v, (a + f64_as_u128 v) `mod` 2 ^ 128) a l1 = foldl (λ a v, (a + f64_as_u128 v) `mod` 2 ^ 128) a l2.
Proof.
  intros Hp. revert a. induction Hp as [|x l l' _ IH|x y l|l l' l'' _ IH1 _ IH2]; intros a; csimpl; [done|apply IH| |by rewrite IH1].
  f_equal. rewrite !Zplus_mod_idemp_l.
  by replace (a + f64_as_u128 y + f64_as_u128 x) with (a + f64_as_u128 x + f64_as_u128 y) by ring.
Qed.
Lemma mean_latency_order l1 l2 : l1 ≡ₚ l2 → mean_latency (sort_by f64_leb l1) = mean_latency (sort_by f64_leb l2).
Proof.
  intros Hp. assert (sort_by f64_leb l1 ≡ₚ sort_by f64_leb l2) as Hs by (by rewrite !sort_by_perm).
  revert Hs. generalize (sort_by f64_leb l1) (sort_by f64_leb l2). clear. intros l1 l2 Hp. unfold mean_latency.
  pose proof (Permutation_length Hp) as Hl. destruct l1, l2; try done. by rewrite (latency_sum_order _ _ 0 Hp), Hl.
Qed.
(** The telemetry a plan is identified by does not depend on the order in
    which hash maps are iterated, unless a success rate is NaN. *)
Theorem telemetry_order_independent (I1 I2 : HashIter string) s :
  (∀ k r, success_rates s !! k = Some r → no_nan r) →
  aggregate_telemetry (HashIter0 := I1) s = aggregate_telemetry (HashIter0 := I2) s.
Proof.
  intros Hn. unfold aggregate_telemetry. f_equal.
  - apply mean_latency_order, map_values_order.
  - f_equal. apply mean_error_order; [apply map_values_order|]. apply Forall_forall. intros r Hr.
    apply elem_of_map_values in Hr as [k Hk]. by eapply Hn.
  - by rewrite (map_values_order I1 I2).
Qed.

(** ** The host's planner *)
Record PolicyCondition := mkPolicyCondition { pc_field : string; pc_operator : string; pc_value : json }.
Record PolicyAction := mkPolicyAction { action_type : string; action_params : gmap string json }.
Record HostPolicyRecord := mkHostPolicy {
  hp_name : string; hp_priority : Z; hp_conditions : list PolicyCondition; hp_actions : list PolicyAction }.
Record HostPlanner := mkHostPlanner {
  hpl_model_catalog : ModelCatalog; capability_snapshot : gmap string (list string) }.
Definition planner_new (catalog : ModelCatalog) : HostPlanner := mkHostPlanner catalog ∅.
Section capabilities.
Context `{!SemVer} {R} `{!CapabilityRegistry R}.
Definition snapshot_from_registry (registry : R) : gmap string (list string) :=
  foldl (λ catalog c, <[c_id c := []]> catalog) ∅ (reg_list registry).
Definition with_capability_registry (catalog : ModelCatalog) (registry : R) : HostPlanner :=
  mkHostPlanner catalog (snapshot_from_registry registry).
Definition update_capability_registry (registry : R) (self : HostPlanner) : HostPlanner :=
  mkHostPlanner (hpl_model_catalog self) (snapshot_from_registry registry).

(** The snapshot lists exactly the capabilities of the registry. *)
Lemma snapshot_from_registry_spec `{!LawfulRegistry wf} r id :
  wf r → snapshot_from_registry r !! id = if reg_contains r id then Some [] else None.
Proof.
  intros Hwf. rewrite (reg_contains_get _ _ Hwf). unfold snapshot_from_registry.
  assert (∀ l (m : gmap string (list string)), foldl (λ catalog c, <[c_id c := []]> catalog) m l !! id =
    if bool_decide (id ∈ c_id <$> l) then Some [] else m !! id) as ->.
  { induction l as [|c l IH]; intros m; csimpl; [done|].
    rewrite IH. destruct (decide (c_id c = id)) as [<-|Hne].
    - rewrite lookup_insert_eq, (bool_decide_true (c_id c ∈ c_id c :: _)) by left. by case_bool_decide.
    - rewrite lookup_insert_ne by done.
      rewrite (bool_decide_ext (id ∈ c_id c :: (c_id <$> l)) (id ∈ c_id <$> l)); [done|].
      rewrite elem_of_cons. naive_solver. }
  rewrite lookup_empty. rewrite (bool_decide_ext (id ∈ c_id <$> reg_list r) (is_Some (reg_get r id))); [done|].
  rewrite list_elem_of_fmap. split.
  - intros (c & -> & Hc). exists c. by apply reg_list_get.
  - intros [c Hc]. pose proof (reg_get_id _ _ _ Hwf Hc) as <-. exists c. split; [done|]. by apply reg_list_get.
Qed.
End capabilities.

Definition crates_intent (i : HostIntent) : ExecutionIntent :=
  match i with
  | HQuality => Quality | HSpeed => Speed | HBalanced => Balanced | HExhaustive => Exhaustive
  | HConstrained _ max_cost _ _ => Constrained max_cost
  end.
Definition complexity_debug (c : ComplexityLevel) : string :=
  match c with Low => "Low" | Medium => "Medium" | High => "High" | Critical => "Critical" end.
Definition required_capabilities (q : Requirements) : list string :=
  match model_requirements q with
  | Some mr =>
      (if requires_tools mr then ["ToolCalling"] else []) ++ (if requires_vision mr then ["Vision"] else []) ++
      (if requires_streaming mr then ["Streaming"] else [])
  | None => []
  end.
Definition default_intent (c : ComplexityLevel) : HostIntent :=
  match c with Critical => HQuality | High => HBalanced | Medium | Low => HSpeed end.

(** *** The adapter *)
Definition ID_NAMESPACE : Uuid := 0x46f20a178c4e4b3a9d1963c781b290e1%N.
Section adapter.
(** [Uuid::parse_str] and [Uuid::new_v5] *)
Context (parse_uuid : string → option Uuid) (new_v5 : Uuid → string → Uuid).
Definition uuid_for (id : string) : Uuid :=
  match parse_uuid id with Some u => u | None => new_v5 ID_NAMESPACE id end.
Definition node_kind_of (k : WorkflowNodeKind) : IRNodeKind :=
  match k with
  | Task | Tool | Retrieval | Memory => KGenerate
  | Review => KReview
  | Judge => KJudge
  | Security => KGate
  | Aggregation => KJoin
  | Output => KTransform
  end.
Definition kind_debug (k : WorkflowNodeKind) : string :=
  match k with
  | Task => "Task" | Tool => "Tool" | Retrieval => "Retrieval" | Memory => "Memory" | Review => "Review"
  | Judge => "Judge" | Security => "Security" | Aggregation => "Aggregation" | Output => "Output"
  end.
Definition strategy_named (s : string) : StrategyKind :=
  if decide (s = "Consensus") then Consensus else if decide (s = "Reflection") then Reflection
  else if decide (s = "Chain") then Chain else if decide (s = "Debate") then Debate
  else if decide (s = "ReAct") then ReAct else if decide (s = "Fusion") then Fusion
  else if decide (s = "Single") then Single else Custom s.
Definition adapt_node (n : WorkflowNode) : IRNode :=
  let config : Config := list_to_map (n_config n) in
  let config := match n_capability n with Some cap => <["capability" := JString cap]> config | None => config end in
  mkIRNode (uuid_for (n_id n)) (node_kind_of (n_kind n))
    (match obj_get "strategy" (n_config n) ≫= as_str with Some s => strategy_named s | None => Single end)
    (n_selected_model n) (<["semantic_kind" := JString (kind_debug (n_kind n))]> config).
Definition adapt_edge (ids : list Uuid) (e : WorkflowEdge) : result string IREdge :=
  let from := uuid_for (e_from e) in
  let to := uuid_for (e_to e) in
  if decide (from ∈ ids ∧ to ∈ ids) then Ok (mkIREdge from to (e_condition e))
  else Err ("edge references unknown node (" +:+ uuid_to_string from +:+ " -> " +:+ uuid_to_string to +:+ ")").
Definition push_ok {A B} (f : A → result string B) (acc : list B) (a : A) : result string (list B) :=
  b ← f a; Ok (acc ++ [b]).
Definition workflow_to_types (ir : WorkflowIr.WorkflowIR) : result string WorkflowIR :=
  let ns := adapt_node <$> nodes ir in
  es ← try_fold (push_ok (adapt_edge (ir_id <$> ns))) [] (edges ir);
  let md := metadata ir in
  Ok (mkIR (workflow_id ir) ns es
    (mkIRMetadata (policy_applied md) (policy_version md) (estimated_cost md) (estimated_tokens md))).
End adapter.

Section planner.
Context `{!HashIter string}.
Context (to_lowercase : string → string).
Context (uuid_v5_url : string → N) (json_to_string : json → string).
Context (parse_uuid : string → option Uuid) (new_v5 : Uuid → string → Uuid).
(** The derived [Debug] of a policy's actions, their parameters in the order
    of iteration, and of a planner's error. *)
Context (actions_debug : list (string * list (string * json)) → string) (platform_error_debug : Planner.PlatformError → string).

Definition policy_of (decode : string → result string PolicyDeclaration) (p : PolicyDeclarationSnapshot)
    : option HostPolicyRecord :=
  match decode (decl_rule p) with
  | Ok d => Some (mkHostPolicy (pd_name d) (pd_priority d)
      ((λ fv, mkPolicyCondition fv.1 "eq" fv.2) <$> map_iter (pd_conditions d))
      [mkPolicyAction (pd_effect d) (pd_annotations d)])
  | Err _ => None
  end.
Definition planning_request (self : HostPlanner) (i : HostIntent) (q : Requirements)
    (policies : list HostPolicyRecord) (policy_version : Z) (evidence : option EvidenceSnapshot) : PlanningRequest :=
  Planner.mkRequest (crates_intent i) (original_text q) (rq_requested_model q) (rs_kind <$> rq_requested_strategy q) None
    (mkRequirementsSnapshot (complexity_debug (rq_complexity q)) (Some (crates_intent i)) (required_capabilities q))
    (mkPolicySnapshot policy_version ((λ p, mkPolicyDecl (hp_name p) (hp_name p) (actions_debug ((λ a, (action_type a, map_iter (action_params a))) <$> hp_actions p))) <$> policies) 0)
    (capability_snapshot self) (hpl_model_catalog self)
    (match evidence with Some s => aggregate_telemetry s | None => default_telemetry end).
Definition plan_from_crates (self : HostPlanner) (i : HostIntent) (q : Requirements)
    (policies : list HostPolicyRecord) (policy_version : Z) (evidence : option EvidenceSnapshot)
    : result string WorkflowIR :=
  match Planner.plan uuid_v5_url json_to_string (hpl_model_catalog self)
          (planning_request self i q policies policy_version evidence) with
  | Err e => Err ("fusion_planner error: " +:+ platform_error_debug e)
  | Ok contract => map_err (λ e, "adapter error: " +:+ e) (workflow_to_types parse_uuid new_v5 contract)
  end.
Definition plan_with_policy_version (self : HostPlanner) (q : Requirements) (policies : list HostPolicyRecord)
    (evidence : option EvidenceSnapshot) (policy_version : Z) : result string WorkflowIR :=
  plan_from_crates self (default (default_intent (rq_complexity q)) (rq_execution_intent q)) q policies policy_version evidence.
(** [PlanningStep]; the failure is shown behind "planning failed". *)
Definition planning_step (self : HostPlanner) (request_id : Uuid) (q : Requirements) (policies : list HostPolicyRecord)
    (policy_version : Z) (evidence : EvidenceSnapshot) : result RouterError WorkflowIR :=
  map_err (λ e, CapacityExceeded request_id ("planning failed: " +:+ e))
    (plan_with_policy_version self q policies (Some evidence) policy_version).
End planner.

Lemma push_ok_all {A B} (f : A → result string B) (g : A → B) l acc :
  (∀ a, a ∈ l → f a = Ok (g a)) → try_fold (push_ok f) acc l = Ok (acc ++ (g <$> l)).
Proof.
  revert acc. induction l as [|a l IH]; intros acc Hl; csimpl; [by rewrite app_nil_r|].
  assert (push_ok f acc a = Ok (acc ++ [g a])) as -> by (unfold push_ok; by rewrite (Hl a) by set_solver).
  csimpl. rewrite IH by set_solver. by rewrite <- app_assoc.
Qed.

(** ** Plans that compile to plain graphs *)
Record plain_plan (new_v5 : Uuid → string → Uuid) (ir : WorkflowIR) : Prop := {
  pp_ids : NoDup (ir_ids ir ++ (gate_id new_v5 <$> ir_nodes ir));
  pp_edges : NoDup ((λ e, (ire_from e, ire_to e)) <$> ir_edges ir);
  pp_unconditional : ∀ e, e ∈ ir_edges ir → ire_condition e = None;
  pp_kinds : ∀ n, n ∈ ir_nodes ir → ir_kind n ≠ KConditional ∧ ir_kind n ≠ KLoop;
}.

Section plain_plan.
Context `{!HashIter string} `{!HashIter N}.
Context (json_to_string : json → string).
Context (new_v5 : Uuid → string → Uuid) (uuid_display : Uuid → string).
Context (ir : WorkflowIR) (Hir : plain_plan new_v5 ir).

Lemma dead_nodes_sub mid :
  dead_node_elimination ir = Ok mid → sublist (ir_nodes mid) (ir_nodes ir) ∧ sublist (ir_edges mid) (ir_edges ir).
Proof.
  intros Hd. destruct (dead_nodes_ok ir) as (ir' & Hd' & _ & _ & Hc). rewrite Hd in Hd'. injection Hd' as <-.
  case_decide; [by subst|]. destruct Hc as (P & ? & _ & -> & ->). split; apply sublist_filter.
Qed.
Lemma gate_ids_resolved cat (l : list IRNode) : gate_id new_v5 <$> (resolve_model cat <$> l) = gate_id new_v5 <$> l.
Proof.
  rewrite <- list_fmap_compose. apply list_fmap_ext. intros i n _. csimpl. unfold gate_id. by rewrite resolve_model_id.
Qed.

Section compiled.
Context {M} `{!ResourceManager M} (cat : ModelCatalog) (rm : M) (policy : option PolicyIR) (mid out : WorkflowIR).
Context (Hco : compiled json_to_string new_v5 cat rm policy ir mid out).
Context (ts : list IRNode) (Hts : sublist ts (resolve_model cat <$> ir_nodes mid)).
Context (Hn : ir_nodes out = (resolve_model cat <$> ir_nodes mid) ++ (gate_node new_v5 <$> ts)).
Context (He : ir_edges out = ir_edges mid ++ ((λ n, mkIREdge (gate_id new_v5 n) (ir_id n) None) <$> ts)).

Lemma gated_sub : sublist (gate_id new_v5 <$> ts) (gate_id new_v5 <$> ir_nodes ir).
Proof using Hco Hts.
  destruct (dead_nodes_sub mid (co_live _ _ _ _ _ _ _ _ Hco)) as [Hsub _].
  etrans; [by apply (fmap_sublist (gate_id new_v5)), Hts|]. rewrite gate_ids_resolved. by apply fmap_sublist.
Qed.
Lemma out_ids : ir_ids out = ir_ids mid ++ (gate_id new_v5 <$> ts).
Proof using Hn.
  unfold ir_ids. rewrite Hn, fmap_app, <- !list_fmap_compose. f_equal. apply list_fmap_ext. intros. apply resolve_model_id.
Qed.
Lemma out_ids_sub : sublist (ir_ids out) (ir_ids ir ++ (gate_id new_v5 <$> ir_nodes ir)).
Proof using Hco Hts Hn.
  rewrite out_ids. apply sublist_app; [|apply gated_sub].
  apply fmap_sublist. by destruct (dead_nodes_sub mid (co_live _ _ _ _ _ _ _ _ Hco)).
Qed.
Lemma gated_node n : n ∈ ts → ir_id n ∈ ir_ids mid.
Proof using Hts.
  intros Hin. assert (n ∈ resolve_model cat <$> ir_nodes mid) as (n0 & -> & H0)%list_elem_of_fmap
    by (by eapply elem_of_submseteq; [|apply sublist_submseteq]).
  rewrite resolve_model_id. by apply list_elem_of_fmap_2.
Qed.
Lemma gate_not_node n : n ∈ ts → gate_id new_v5 n ∉ ir_ids ir.
Proof using Hco Hts Hir.
  intros Hin Hbad. pose proof (pp_ids _ _ Hir) as Hnd. apply NoDup_app in Hnd as (_ & Hdis & _).
  apply (Hdis _ Hbad). eapply elem_of_submseteq; [|apply sublist_submseteq, gated_sub]. by apply list_elem_of_fmap_2.
Qed.
Lemma out_simple : NoDup ((λ e, (ire_from e, ire_to e)) <$> ir_edges out).
Proof using Hco Hts Hir He.
  destruct (dead_nodes_sub mid (co_live _ _ _ _ _ _ _ _ Hco)) as [_ Hsub].
  rewrite He, fmap_app. apply NoDup_app. split_and!.
  - eapply sublist_NoDup; [apply (pp_edges _ _ Hir)|]. by apply fmap_sublist.
  - intros p (e & -> & Hin)%list_elem_of_fmap (e' & Heq & (n & -> & Hnt)%list_elem_of_fmap)%list_elem_of_fmap.
    csimpl in Heq. apply (gate_not_node n Hnt). injection Heq as <- _.
    apply (fo_refs _ (co_flow _ _ _ _ _ _ _ _ Hco)). eapply elem_of_submseteq; [|by apply sublist_submseteq]. done.
  - apply (NoDup_fmap_1 fst). rewrite <- !list_fmap_compose.
    eapply sublist_NoDup; [|apply gated_sub]. pose proof (pp_ids _ _ Hir) as Hnd. by apply NoDup_app in Hnd as (_ & _ & ?).
Qed.
Lemma out_closed e : e ∈ ir_edges out → ire_from e ∈ ir_ids out ∧ ire_to e ∈ ir_ids out.
Proof using Hco Hts Hn He.
  rewrite He, out_ids, !elem_of_app. destruct (dead_nodes_closed ir mid (co_flow _ _ _ _ _ _ _ _ Hco)
    (co_live _ _ _ _ _ _ _ _ Hco)) as (Hrefs & _).
  intros [Hin|(n & -> & Hin)%list_elem_of_fmap]; csimpl.
  - destruct (Hrefs e Hin). auto.
  - split; [right; by apply list_elem_of_fmap_2|left; by apply gated_node].
Qed.
Lemma out_kinds n : n ∈ ir_nodes out → ir_kind n ≠ KConditional ∧ ir_kind n ≠ KLoop.
Proof using Hco Hir Hn.
  rewrite Hn, elem_of_app. intros [(n0 & -> & H0)%list_elem_of_fmap|(n0 & -> & _)%list_elem_of_fmap]; [|done].
  assert (ir_kind (resolve_model cat n0) = ir_kind n0) as -> by (unfold resolve_model; by repeat case_match).
  apply (pp_kinds _ _ Hir). destruct (dead_nodes_sub mid (co_live _ _ _ _ _ _ _ _ Hco)) as [Hsub _].
  by eapply elem_of_submseteq; [|apply sublist_submseteq].
Qed.
Lemma out_acyclic v : ¬ tc (λ u w, ∃ e, e ∈ ir_edges out ∧ ire_from e = u ∧ ire_to e = w) v v.
Proof using Hco Hts Hir Hn He.
  destruct (dead_nodes_sub mid (co_live _ _ _ _ _ _ _ _ Hco)) as [Hsubn Hsube].
  assert (∀ e, e ∈ ir_edges mid → e ∈ ir_edges ir) as Hs
    by (intros e ?; by eapply elem_of_submseteq; [|apply sublist_submseteq]).
  apply (acyclic_add_sources (ir_plain ir) _ (λ u, u ∈ ir_ids ir));
    [| |apply (fo_acyclic _ (co_flow _ _ _ _ _ _ _ _ Hco))].
  - intros u w (e & Hin & _ & <-). rewrite He in Hin.
    apply elem_of_app in Hin as [Hin|(n & -> & Hin)%list_elem_of_fmap]; csimpl.
    + by apply (fo_refs _ (co_flow _ _ _ _ _ _ _ _ Hco)), Hs.
    + eapply elem_of_submseteq; [apply gated_node, Hin|]. by apply sublist_submseteq, fmap_sublist.
  - intros u w Hu (e & Hin & <- & <-). rewrite He in Hin.
    apply elem_of_app in Hin as [Hin|(n & -> & Hin)%list_elem_of_fmap].
    + exists e. rewrite (pp_unconditional _ _ Hir) by auto. auto.
    + exfalso. by apply (gate_not_node n Hin).
Qed.
End compiled.

(** What such a plan compiles to *)
Lemma plain_plan_lowers {M} `{!HostResourceManager M} cat (m : M) policy g :
  host_compile json_to_string new_v5 uuid_display (host_build_compiler json_to_string new_v5 cat m policy) ir = Ok g →
  plain_dag g ∧ (length (g_nodes g) ≤ 2 * length (ir_nodes ir))%nat.
Proof using Hir.
  intros Hc. destruct (host_compile_inv _ _ _ _ _ _ _ _ Hc) as (mid & out & Hco & Hlow). injection Hlow as <-. csimpl in *.
  destruct (compiled_shape_sub _ _ _ _ _ _ _ _ Hco) as (ts & Hts & Hn & He).
  assert (x_id <$> (lower_node new_v5 uuid_display ∅ <$> ir_nodes out) = ir_ids out) as Hids
    by (unfold ir_ids; rewrite <- list_fmap_compose; by apply list_fmap_ext).
  split.
  - split; unfold DagQueue.node_ids; csimpl.
    + rewrite Hids. eapply sublist_NoDup; [apply (pp_ids _ _ Hir)|]. exact (out_ids_sub _ _ _ _ _ Hco _ Hts Hn).
    + intros u v (e & (e0 & -> & Hin)%list_elem_of_fmap & <- & <-). csimpl. rewrite Hids. exact (out_closed _ _ _ _ _ Hco _ Hts Hn He _ Hin).
    + rewrite <- list_fmap_compose. exact (out_simple _ _ _ _ _ Hco _ Hts He).
    + intros n (irn & -> & Hirn)%list_elem_of_fmap. csimpl.
      destruct (out_kinds _ _ _ _ _ Hco _ Hn irn Hirn) as [H1 H2].
      intros [Hk|Hk]; destruct (ir_kind irn); done.
    + intros v Hv. apply (out_acyclic _ _ _ _ _ Hco _ Hts Hn He v).
      revert Hv. apply tc_iff. intros u w. split.
      * intros (e0 & Hin & <- & <-). eexists. split; [by apply list_elem_of_fmap_2|done].
      * intros (e & (e0 & -> & Hin)%list_elem_of_fmap & <- & <-). by exists e0.
  - rewrite length_fmap, Hn, length_app, !length_fmap.
    apply sublist_length in Hts. rewrite length_fmap in Hts.
    destruct (dead_nodes_sub mid (co_live _ _ _ _ _ _ _ _ Hco)) as [Hsub%sublist_length _]. lia.
Qed.
(** Changing what nodes carry, not their identities and kinds, keeps a graph plain. *)
Lemma plain_dag_nodes g ns :
  Forall2 (λ n0 n, x_id n = x_id n0 ∧ x_kind n = x_kind n0) (g_nodes g) ns → plain_dag g → plain_dag (with_graph_nodes g ns).
Proof.
  clear Hir ir. intros Hns [H1 H2 H3 H4 H5].
  assert (DagQueue.node_ids (with_graph_nodes g ns) = DagQueue.node_ids g) as Hids.
  { unfold DagQueue.node_ids. csimpl. clear -Hns. induction Hns as [|n0 n l k [Hid _] _ IH]; csimpl; congruence. }
  split; rewrite ?Hids; try done. intros n [i Hi]%list_elem_of_lookup. csimpl in Hi.
  destruct (Forall2_lookup_r _ _ _ _ _ Hns Hi) as (n0 & Hn0 & _ & ->). eapply H4, list_elem_of_lookup_2, Hn0.
Qed.
(** The same with context and tools injected *)
Lemma plain_plan_compiles messages_to_value decode catalog registry ctx m g :
  compile_request json_to_string new_v5 uuid_display messages_to_value decode catalog registry ctx m ir = Ok g →
  plain_dag g ∧ (length (g_nodes g) ≤ 2 * length (ir_nodes ir))%nat.
Proof using Hir.
  unfold compile_request, compilation_step. intros H.
  destruct (policy_ir decode registry) as [policy|e]; csimpl in H; [|done].
  destruct (host_compile _ _ _ _ ir) as [g0|e] eqn:Hc; csimpl in H; [|done].
  destruct (inject_nodes _ _ (g_nodes g0)) as [ns|] eqn:Hi; csimpl in H; [|done]. injection H as <-.
  apply inject_nodes_all in Hi. destruct (plain_plan_lowers _ _ _ _ Hc) as [Hg Hl]. split.
  - apply plain_dag_nodes; [|done]. eapply Forall2_impl; [exact Hi|]. intros n0 n Hn.
    by destruct (inject_node_keeps _ _ _ _ Hn) as (? & ? & _).
  - csimpl. by rewrite <- (Forall2_length _ _ _ Hi).
Qed.
End plain_plan.

Lemma NoDup_short {A} (l : list A) : (length l ≤ 1)%nat → NoDup l.
Proof. destruct l as [|a [|b l]]; csimpl; [constructor|intros; apply NoDup_singleton|lia]. Qed.

(** ** The whole of a chat request *)
Section chat.
Context `{!HashIter string} `{!HashIter N}.
Context (to_lowercase : string → string).
Context (uuid_v5_url : string → N) (json_to_string : json → string).
Context (parse_uuid : string → option Uuid) (new_v5 : Uuid → string → Uuid) (uuid_display : Uuid → string).
Context (actions_debug : list (string * list (string * json)) → string) (platform_error_debug : Planner.PlatformError → string).
Context (messages_to_value : list ChatMessage → result string json).
Context (messages_from_value : json → result string (list ChatMessage)).
Context (decode : string → result string PolicyDeclaration).
(** The application state. *)
Context (assembler : DefaultContextAssembler) (planner : HostPlanner) (catalog : ModelCatalog).
Context (registry : PolicyRegistry) (scheduler : HostScheduler) (spawn_accepted : bool).
Context (provider_registry : option (ChatCompletionRequest → result (RouterError + string) unit)).
Context (permitted : list string) (round_capacity : Z).
(** The executor's answers, the clock, and the identities of this request. *)
Context (run_node : nat → ExecutionNode → NodeExecContext → NodeExecutionResult).
Context (completions : list (Uuid * NodeExecutionResult)).
Context (elapsed now : Z) (request_id reservation instance : Uuid).
Context (token : CancellationToken) (allow_native_stream : bool).

Definition chat_context (r : ChatCompletionRequest) : PipelineContext :=
  mkPipelineContext request_id r (Some (assemble assembler r)) (Some permitted) (Some round_capacity).
Definition chat_policies : list HostPolicyRecord := omap (policy_of decode) (pr_policies registry).
Definition chat_plan_of (r : ChatCompletionRequest) (evidence : EvidenceSnapshot) : result RouterError WorkflowIR :=
  planning_step uuid_v5_url json_to_string parse_uuid new_v5 actions_debug platform_error_debug planner request_id
    (requirements_step to_lowercase r (assemble assembler r)) chat_policies (pr_version registry) evidence.
(** The number of turns the scheduler is given; see [chat_settles]. *)
Definition chat_fuel : nat := 5.
Definition process_chat (r : ChatCompletionRequest) (evidence : result string EvidenceSnapshot)
    (m : DefaultResourceManager) : option (result RouterError ChatOutcome * DefaultResourceManager) :=
  match evidence with
  | Err e => Some (Err (StageFailure EvidenceSnapshotStage request_id e), m)
  | Ok ev =>
      match chat_plan_of r ev with
      | Err e => Some (Err e, m)
      | Ok ir =>
          process_request json_to_string new_v5 uuid_display messages_to_value messages_from_value decode catalog
            registry scheduler spawn_accepted provider_registry run_node completions elapsed now chat_fuel
            reservation instance (chat_context r) token allow_native_stream m ir
      end
  end.

(** *** Planning does not fail *)
Definition chat_planning (r : ChatCompletionRequest) (ev : EvidenceSnapshot) : PlanningRequest :=
  let q := requirements_step to_lowercase r (assemble assembler r) in
  planning_request actions_debug planner (default (default_intent (rq_complexity q)) (rq_execution_intent q)) q
    chat_policies (pr_version registry) (Some ev).
Definition chat_workflow (r : ChatCompletionRequest) (ev : EvidenceSnapshot) : WorkflowIr.WorkflowIR :=
  planned uuid_v5_url json_to_string (hpl_model_catalog planner) (chat_planning r ev).
(** The plan of a chat request *)
Definition chat_ir (r : ChatCompletionRequest) (ev : EvidenceSnapshot) : WorkflowIR :=
  let wf := chat_workflow r ev in
  mkIR (workflow_id wf) (adapt_node parse_uuid new_v5 <$> nodes wf)
    ((λ e, mkIREdge (uuid_for parse_uuid new_v5 (e_from e)) (uuid_for parse_uuid new_v5 (e_to e)) (e_condition e)) <$> edges wf)
    (mkIRMetadata (policy_applied (metadata wf)) (policy_version (metadata wf)) (estimated_cost (metadata wf))
       (estimated_tokens (metadata wf))).

Lemma chat_planning_wf r ev : request_wf (chat_planning r ev).
Proof. split; [csimpl; lia|done]. Qed.
Lemma chat_planned r ev : chat_plan_of r ev = Ok (chat_ir r ev).
Proof.
  unfold chat_plan_of, planning_step, plan_with_policy_version, plan_from_crates.
  fold (chat_planning r ev). rewrite plan_builds.
  pose proof (planned_wf uuid_v5_url json_to_string (hpl_model_catalog planner) (chat_planning r ev)
    (chat_planning_wf r ev)) as Hwf.
  rewrite <- validate_nil_iff, <- first_error_None in Hwf.
  rewrite (proj2 Hwf) by done. unfold workflow_to_types. fold (chat_workflow r ev).
  erewrite push_ok_all; [csimpl; done|]. intros e He. unfold adapt_edge.
  assert (∀ i, (i < length (stages_of (chat_planning r ev)))%nat →
    uuid_for parse_uuid new_v5 (stage_id i) ∈ ir_id <$> (adapt_node parse_uuid new_v5 <$> nodes (chat_workflow r ev))) as Hin.
  { intros i Hi. rewrite <- list_fmap_compose.
    assert (stage_id i ∈ n_id <$> nodes (chat_workflow r ev)) as (nd & -> & Hnd)%list_elem_of_fmap.
    { fold (WorkflowIr.node_ids (chat_workflow r ev)). unfold chat_workflow. rewrite planned_ids. apply list_elem_of_fmap_2, elem_of_seq. lia. }
    apply list_elem_of_fmap. by exists nd. }
  apply planned_edge in He as (i & Hi & ->). csimpl.
  rewrite decide_True; [done|]. split; apply Hin; lia.
Qed.

(** *** Its shape *)
(** Every request requires streaming, so the capabilities of the intent are
    never used. *)
Lemma chat_capabilities r ev :
  rq_required_capabilities (requirements (chat_planning r ev)) =
    if decide (default [] (cr_tools r) = []) then ["Streaming"] else ["ToolCalling"; "Streaming"].
Proof.
  csimpl. unfold required_capabilities, requirements_step, extract. csimpl. unfold build_model_requirements.
  destruct (classify_intent to_lowercase (assemble assembler r)); csimpl;
    by destruct (decide (default [] (cr_tools r) = [])) as [->|];
      rewrite ?bool_decide_true by done; rewrite ?bool_decide_false by done.
Qed.
Lemma chat_stages r ev :
  (0 < length (stages_of (chat_planning r ev)) ≤ 2)%nat ∧
  Forall (λ st, st_kind st = Task) (stages_of (chat_planning r ev)).
Proof.
  pose proof (stages_nonempty (chat_planning r ev) (proj1 (chat_planning_wf r ev))) as Hne.
  assert ((length (stages_of (chat_planning r ev)) ≤ 2)%nat ∧
    Forall (λ st, st_kind st = Task) (stages_of (chat_planning r ev))) as [H1 H2]; [|split; [lia|done]].
  clear Hne. unfold stages_of. rewrite chat_capabilities.
  destruct (requested_strategy (chat_planning r ev)) as [s|]; csimpl; [split; [lia|by rewrite Forall_cons, Forall_nil]|].
  destruct (decide (default [] (cr_tools r) = [])); rewrite decide_False by done;
    [destruct (Z.to_nat _) as [|k]|destruct (Z.to_nat _) as [|[|k]]]; csimpl; rewrite ?take_nil; csimpl; (split; [lia|]); by rewrite ?Forall_cons, ?Forall_nil.
Qed.

(** The identities derived for the nodes of a plan and their approval gates do
    not collide. *)
Definition distinct_ids : Prop :=
  let ids := uuid_for parse_uuid new_v5 <$> ["n1"; "n2"] in
  NoDup (ids ++ ((λ u, new_v5 u "policy_approval_gate") <$> ids)).

Lemma chat_ids r ev :
  ir_ids (chat_ir r ev) = uuid_for parse_uuid new_v5 <$> (stage_id <$> seq 0 (length (stages_of (chat_planning r ev)))).
Proof.
  rewrite <- planned_ids with (uuid_v5_url := uuid_v5_url) (json_to_string := json_to_string)
    (own := hpl_model_catalog planner). unfold ir_ids, chat_ir, WorkflowIr.node_ids. csimpl.
  rewrite <- !list_fmap_compose. done.
Qed.
Lemma chat_plain r ev : distinct_ids → plain_plan new_v5 (chat_ir r ev).
Proof.
  intros Hd. destruct (chat_stages r ev) as [Hk Htask]. split.
  - assert (gate_id new_v5 <$> ir_nodes (chat_ir r ev) =
      (λ u, new_v5 u "policy_approval_gate") <$> ir_ids (chat_ir r ev)) as ->
      by (unfold ir_ids; by rewrite <- list_fmap_compose).
    rewrite chat_ids. eapply sublist_NoDup; [exact Hd|].
    destruct (length (stages_of (chat_planning r ev))) as [|[|[|k]]]; [lia| | |lia]; [|done].
    apply sublist_app; apply fmap_sublist; [by apply sublist_skip, sublist_nil_l|].
    apply fmap_sublist. by apply sublist_skip, sublist_nil_l.
  - apply NoDup_short. unfold chat_ir. rewrite length_fmap. cbn [ir_edges]. rewrite length_fmap.
    unfold chat_workflow, planned. cbn [edges]. rewrite length_fmap, length_zip.
    destruct (stages_of (chat_planning r ev)) as [|st l]; cbn [length tail] in *; lia.
  - intros e (e0 & -> & (i & _ & ->)%planned_edge)%list_elem_of_fmap. done.
  - intros n (nd & -> & (i & st & Hst & ->)%planned_node)%list_elem_of_fmap. csimpl.
    rewrite (Forall_lookup_1 _ _ _ _ Htask Hst). done.
Qed.
Lemma chat_estimate r ev :
  valid_usd (m_estimated_cost (ir_metadata (chat_ir r ev))) ∧ is_u64 (m_estimated_tokens (ir_metadata (chat_ir r ev))) ∧
  nanos (m_estimated_cost (ir_metadata (chat_ir r ev))) ≤ 20000000 ∧
  m_estimated_tokens (ir_metadata (chat_ir r ev)) ≤ 2000.
Proof.
  destruct (chat_stages r ev) as [Hk _]. unfold chat_ir, chat_workflow, planned, plan_metadata. csimpl.
  revert Hk. generalize (length (stages_of (chat_planning r ev))) as k. clear. intros k Hk.
  destruct k as [|[|[|k]]]; [lia| | |lia];
    unfold valid_usd, is_u64; vm_compute; intuition congruence.
Qed.

(** C3. Every chat request is answered and its books are settled, with nothing
    assumed of its plan: whatever it asks for, planning succeeds, the plan
    compiles to a plain graph or is refused, five turns are enough to run it,
    and the outcome is a response, a stream or an error that leaves the quota
    as [request_outcome] says. Evidence that cannot be read fails the request
    and changes nothing. *)
Theorem chat_settles r evidence m :
  manager_ok m → used_cost m + 20000000 ≤ u64_max → used_tokens m + 2000 ≤ u64_max →
  (0 < hs_max_concurrent scheduler)%nat →
  (∀ k n c, is_terminal (Some (r_state (run_node k n c))) = true) → distinct_ids →
  ∃ out m', process_chat r evidence m = Some (out, m') ∧
    match evidence with
    | Err e => out = Err (StageFailure EvidenceSnapshotStage request_id e) ∧ m' = m
    | Ok ev => chat_plan_of r ev = Ok (chat_ir r ev) ∧
        request_outcome json_to_string new_v5 uuid_display messages_to_value decode catalog registry scheduler
          spawn_accepted run_node completions elapsed now chat_fuel reservation instance (chat_context r) token
          m (chat_ir r ev) out m'
    end.
Proof.
  intros Hm Hc Ht Hmax Hterm Hids. destruct evidence as [ev|e]; [|by eexists _, _].
  unfold process_chat. rewrite chat_planned. destruct (chat_estimate r ev) as (H1 & H2 & H3 & H4).
  destruct (request_settles json_to_string new_v5 uuid_display messages_to_value messages_from_value decode catalog
    registry scheduler spawn_accepted provider_registry run_node completions elapsed now chat_fuel reservation
    instance (chat_context r) token allow_native_stream m (chat_ir r ev)) as (out & m' & Hp & Ho);
    [done|done|done|lia|lia|done|done| |by exists out, m'].
  intros g Hg. destruct (plain_plan_compiles _ _ _ _ (chat_plain r ev Hids) _ _ _ _ _ _ _ Hg) as [Hdag Hlen].
  split; [done|]. unfold chat_fuel.
  assert (length (ir_nodes (chat_ir r ev)) ≤ 2)%nat; [|lia].
  pose proof (chat_ids r ev) as Hi. apply (f_equal length) in Hi. unfold ir_ids in Hi. rewrite !length_fmap, length_seq in Hi.
  destruct (chat_stages r ev). lia.
Qed.

(** *** Tools *)
(** Every node of a chat request's plan is a model node without an allowlist. *)
Lemma chat_node r ev n :
  n ∈ ir_nodes (chat_ir r ev) → ir_kind n = KGenerate ∧ ir_config n !! "tool_allowlist" = None.
Proof.
  destruct (chat_stages r ev) as [_ Htask].
  intros (nd & -> & (i & st & Hst & ->)%planned_node)%list_elem_of_fmap. csimpl.
  rewrite (Forall_lookup_1 _ _ _ _ Htask Hst). split; [done|]. csimpl.
  rewrite !lookup_insert_ne by done. apply not_elem_of_list_to_map, obj_get_None.
  unfold stage_config. cbn [strategy_config chat_planning planning_request].
  case_decide; by rewrite !obj_get_insert.
Qed.
Context (provider_completion : Trace → ChatCompletionRequest → result string ChatCompletionResponse).
Context (tool_execute : Trace → string → json → result string json) (elapsed_ms : Trace → Trace → Z).
Context (value_display : json → string) (values_to_string : list json → result string string).
Context (f64_display : spec_float → string) (executor : DefaultExecutor).

(** What a node of the compiled graph may run, it may run by the client's list. *)
Lemma chat_tool_declared r ev m g n id name args :
  compile_request json_to_string new_v5 uuid_display messages_to_value decode catalog registry
    (chat_context r) m (chat_ir r ev) = Ok g →
  n ∈ g_nodes g → host_tool_ok executor n (EvTool id name args) →
  name ∈ client_tools (chat_context r) (default [] (cr_tools r)).
Proof.
  intros Hc Hn Hok. destruct (compile_request_inv _ _ _ _ _ _ _ _ _ _ _ Hc) as [_ Hnodes].
  destruct (Hnodes n Hn) as (irn & Horigin & Hi). pose proof (inject_node_keeps _ _ _ _ Hi) as (_ & Hk & Hflat).
  specialize (Hflat (lower_node_flat _ _ _)). csimpl in Hk.
  assert (offers_none (lower_node new_v5 uuid_display ∅ irn)) as Hnone.
  { assert (ir_config irn !! "tool_allowlist" = None) as Hcfg.
    { destruct Horigin as [(n0 & Hn0 & ->)|(n0 & ->)]; [|done].
      destruct (chat_node r ev n0 Hn0) as [_ Hcfg]. unfold resolve_model. by repeat case_match. }
    split; [done|]. intros sg s Hsg Hs. csimpl in Hsg. by destruct (expanded_child _ _ _ _ _ Hsg Hs) as [_ ->]. }
  destruct (default [] (cr_tools r)) as [|td tools] eqn:Ht.
  { pose proof (inject_node_no_tools _ (chat_context r) _ _ Ht Hi Hnone) as Hn1.
    by destruct (offers_none_runs_none executor n _ Hn1 Hflat Hok id name args). }
  destruct (cr_tools r) as [tools'|] eqn:Ht'; csimpl in Ht; [subst tools'|done].
  destruct Horigin as [(n0 & Hn0 & ->)|(n0 & ->)].
  - eapply (confined_allowlist messages_to_value executor (chat_context r) (td :: tools)); [done|done|exact Hi| |apply lower_node_flat|exact Hok].
    rewrite Hk, resolve_model_kind. by destruct (chat_node r ev n0 Hn0) as [-> _].
  - exfalso. revert Hi. unfold inject_node. rewrite decide_False by done. csimpl. intros [= <-].
    by destruct Hok as (_ & _ & _ & ? & _).
Qed.

(** C2. A client reaches only what it declared and the operator permits. Whatever
    a chat request asks for, whatever the evidence and the policies are and
    whatever models and tools answer, no node of the graph compiled for its
    plan, nor of the subgraphs strategies are expanded into, runs a tool unless
    the request declares it, it is on the operator's list for clients, it is
    registered, and automatic execution is enabled. A request that declares no
    tool runs none. *)
Theorem chat_tools_confined r ev m g n nctx t :
  chat_plan_of r ev = Ok (chat_ir r ev) ∧
  (compile_request json_to_string new_v5 uuid_display messages_to_value decode catalog registry
     (chat_context r) m (chat_ir r ev) = Ok g → n ∈ g_nodes g →
   ∃ evs, (host_execute_node provider_completion tool_execute elapsed_ms messages_from_value value_display
             values_to_string f64_display executor n nctx t).2 = t ++ evs ∧
     ∀ id name args, EvTool id name args ∈ evs →
       de_allow_auto_exec executor = true ∧ name ∈ default ∅ (de_tools executor) ∧
       (∃ td, td ∈ default [] (cr_tools r) ∧ td_name td = name) ∧ name ∈ permitted).
Proof.
  split; [apply chat_planned|]. intros Hc Hn.
  destruct (host_tool_events provider_completion tool_execute elapsed_ms messages_from_value value_display
    values_to_string f64_display executor n nctx t) as (evs & -> & Hev).
  exists evs. split; [done|]. intros id name args Hin.
  pose proof (proj1 (Forall_forall _ _) Hev _ Hin) as Hok.
  destruct (client_tools_permitted _ _ _ (chat_tool_declared r ev m g n id name args Hc Hn Hok)) as [Htd Hp].
  destruct Hok as (Ha & Hr & _). split_and!; [done|done|done|by apply Hp].
Qed.

(** The intent of a request does not shape its plan: without tools, every chat
    request is planned as a single stage, an exhaustive one too. *)
Theorem intent_not_planned r ev :
  default [] (cr_tools r) = [] → length (ir_nodes (chat_ir r ev)) = 1%nat.
Proof.
  intros Ht. pose proof (chat_ids r ev) as Hi. apply (f_equal length) in Hi. unfold ir_ids in Hi.
  rewrite !length_fmap, length_seq in Hi. rewrite Hi. clear Hi.
  destruct (chat_stages r ev) as [Hk _]. assert (length (stages_of (chat_planning r ev)) ≤ 1)%nat; [|lia]. clear Hk.
  unfold stages_of. rewrite chat_capabilities, decide_True by done.
  destruct (requested_strategy (chat_planning r ev)); csimpl; [lia|].
  rewrite length_imap, length_take. csimpl. lia.
Qed.
(** The client's options for a strategy have no effect: only its kind is
    passed to the planner. *)
Definition with_strategy (s : RequestStrategy) (r : ChatCompletionRequest) : ChatCompletionRequest :=
  mkCompletionRequest (cr_model r) (cr_messages r) (cr_stream r) (cr_temperature r) (cr_max_tokens r) (cr_tools r)
    (cr_files r) (cr_execution r) (cr_output r) (Some s).
Theorem strategy_options_ignored r ev kind count members rounds count' members' rounds' :
  chat_ir (with_strategy (mkRequestStrategy kind count members rounds) r) ev =
  chat_ir (with_strategy (mkRequestStrategy kind count' members' rounds') r) ev.
Proof. done. Qed.
End chat.

(** *** Planning is deterministic *)
Lemma planned_names uuid_v5_url json_to_string own i p m st cfg q ps ps' cc mc t :
  ps_version ps = ps_version ps' → decl_name <$> ps_policies ps = decl_name <$> ps_policies ps' →
  planned uuid_v5_url json_to_string own (Planner.mkRequest i p m st cfg q ps cc mc t) =
  planned uuid_v5_url json_to_string own (Planner.mkRequest i p m st cfg q ps' cc mc t).
Proof. intros Hv Hn. unfold planned, plan_metadata, identity. csimpl. rewrite Hv, Hn. reflexivity. Qed.
Lemma policy_names `{!HashIter string} decode registry :
  hp_name <$> chat_policies decode registry =
  omap (λ p, match decode (decl_rule p) with Ok d => Some (pd_name d) | Err _ => None end) (pr_policies registry).
Proof.
  unfold chat_policies. induction (pr_policies registry) as [|p l IH]; [done|].
  cbn [omap list_omap]. unfold policy_of at 1. destruct (decode (decl_rule p)); csimpl; by rewrite <- IH.
Qed.
(** Whatever order hash maps are iterated in, the same request, evidence and
    policies get the same plan, under the same identity, unless a success rate
    is NaN. *)
Theorem plan_order_independent to_lowercase uuid_v5_url json_to_string parse_uuid new_v5 actions_debug
    platform_error_debug decode assembler planner registry request_id r ev (I1 I2 : HashIter string) :
  (∀ k x, success_rates ev !! k = Some x → no_nan x) →
  let plan I := chat_plan_of (HashIter0 := I) to_lowercase uuid_v5_url json_to_string parse_uuid new_v5 actions_debug
    platform_error_debug decode assembler planner registry request_id r ev in
  plan I1 = plan I2.
Proof.
  intros Hn plan. unfold plan. rewrite !chat_planned. f_equal. unfold chat_ir.
  assert (chat_workflow (HashIter0 := I1) to_lowercase uuid_v5_url json_to_string actions_debug decode assembler planner registry r ev =
    chat_workflow (HashIter0 := I2) to_lowercase uuid_v5_url json_to_string actions_debug decode assembler planner registry r ev) as ->; [|done].
  unfold chat_workflow, chat_planning, planning_request. rewrite (telemetry_order_independent I1 I2 _ Hn).
  apply planned_names; csimpl; [done|]. rewrite <- !list_fmap_compose.
  transitivity (hp_name <$> chat_policies (HashIter0 := I1) decode registry); [done|]. by rewrite !policy_names.
Qed.

(** *** Example *)
#[local] Instance demo_string_iter : HashIter string := map_to_list_iter string.
#[local] Instance demo_id_iter : HashIter N := map_to_list_iter N.
Definition demo_name_v5 (u : Uuid) (s : string) : Uuid :=
  foldl (λ h c, (h * 257 + Ascii.N_of_ascii c) mod 2 ^ 128)%N u (String.list_ascii_of_string s).
Definition demo_evidence : EvidenceSnapshot :=
  mkEvidence 2 {["gpt-4o" := f64_one]} {["gpt-4o" := f64_of_int 120]} ∅ ["gpt-4o"].
Definition run_demo_chat (evidence : result string EvidenceSnapshot)
    : option (result RouterError ChatOutcome * DefaultResourceManager) :=
  process_chat id (λ _, 9%N) demo_json (λ _, None) demo_name_v5 demo_display (λ _, "") (λ _, "") (λ _, Ok JNull)
    (λ _, Err "none") (λ _, Err "none") assembler_new (planner_new demo_catalog) demo_catalog (registry_new 0)
    (host_scheduler_new 2) true None ["calculator"] 2 (metered_node false) [] 10 0 77%N 5%N 6%N
    (mkToken (λ _, false) (λ _, false)) true (demo_chat false) evidence demo_manager.
Example demo_chat_answered :
  match run_demo_chat (Ok demo_evidence) with
  | Some (Ok (Completed r), m) => (content ∘ ch_message <$> cp_choices r, used_cost m, used_tokens m) = (["text"], 5200000, 1000)
  | _ => False
  end.
Proof. vm_compute. reflexivity. Qed.
Lemma chat_settles_witness :
  ∃ out m', run_demo_chat (Ok demo_evidence) = Some (out, m') ∧
    let ctx := chat_context assembler_new ["calculator"] 2 77%N (demo_chat false) in
    let ir := chat_ir id (λ _, 9%N) demo_json (λ _, None) demo_name_v5 (λ _, "") (λ _, Err "none") assembler_new
      (planner_new demo_catalog) (registry_new 0) (demo_chat false) demo_evidence in
    chat_plan_of id (λ _, 9%N) demo_json (λ _, None) demo_name_v5 (λ _, "") (λ _, "") (λ _, Err "none") assembler_new
      (planner_new demo_catalog) (registry_new 0) 77%N (demo_chat false) demo_evidence = Ok ir ∧
    request_outcome demo_json demo_name_v5 demo_display (λ _, Ok JNull) (λ _, Err "none") demo_catalog (registry_new 0)
      (host_scheduler_new 2) true (metered_node false) [] 10 0 chat_fuel 5%N 6%N ctx
      (mkToken (λ _, false) (λ _, false)) demo_manager ir out m'.
Proof.
  apply (chat_settles id (λ _, 9%N) demo_json (λ _, None) demo_name_v5 demo_display (λ _, "") (λ _, "")
    (λ _, Ok JNull) (λ _, Err "none") (λ _, Err "none") assembler_new (planner_new demo_catalog) demo_catalog
    (registry_new 0) (host_scheduler_new 2) true None ["calculator"] 2 (metered_node false) [] 10 0 77%N 5%N 6%N
    (mkToken (λ _, false) (λ _, false)) true (demo_chat false) (Ok demo_evidence) demo_manager).
  - unfold manager_ok, valid_usd; vm_compute; intuition congruence.
  - vm_compute; congruence.
  - vm_compute; congruence.
  - vm_compute; lia.
  - intros k n c. unfold metered_node. by destruct (false && _).
  - unfold distinct_ids. apply (bool_decide_eq_true_1 _). vm_compute. reflexivity.
Defined.

(** A chat request that declares two tools, of which clients may use one, over a
    model that asks for both. *)
Definition demo_chat_graph : result RouterError ExecutionGraph :=
  compile_request demo_json demo_name_v5 demo_display (λ _, Ok JNull) (λ _, Err "none") demo_catalog (registry_new 0)
    (chat_context assembler_new ["calculator"] 2 77%N (demo_chat false)) demo_manager
    (chat_ir id (λ _, 9%N) demo_json (λ _, None) demo_name_v5 (λ _, "") (λ _, Err "none") assembler_new
      (planner_new demo_catalog) (registry_new 0) (demo_chat false) demo_evidence).
Definition run_demo_chat_node (n : ExecutionNode) : Trace :=
  (host_execute_node eager_provider (λ _ _ _, Ok JNull) (λ _ _, 0) (λ _, Ok [mkMessage "user" "hello"]) (λ _, "")
     (λ _, Ok "results") (λ _, "") demo_host n (mkCtx ∅ ∅) []).2.
Lemma chat_tools_confined_witness :
  ∃ g n, demo_chat_graph = Ok g ∧ head (g_nodes g) = Some n ∧
    length (shell_events (run_demo_chat_node n)) = 1%nat ∧
    ∃ evs, run_demo_chat_node n = [] ++ evs ∧
      ∀ id name args, EvTool id name args ∈ evs →
        de_allow_auto_exec demo_host = true ∧ name ∈ default ∅ (de_tools demo_host) ∧
        (∃ td, td ∈ demo_tools ∧ td_name td = name) ∧ name ∈ ["calculator"].
Proof.
  destruct demo_chat_graph as [g|e] eqn:Hc; [|by vm_compute in Hc].
  destruct (head (g_nodes g)) as [n|] eqn:Hn; [|by vm_compute in Hc; injection Hc as <-].
  exists g, n. split_and!; [reflexivity|done| |].
  - vm_compute in Hc. injection Hc as <-. vm_compute in Hn. injection Hn as <-. by vm_compute.
  - apply (chat_tools_confined id (λ _, 9%N) demo_json (λ _, None) demo_name_v5 demo_display (λ _, "") (λ _, "")
      (λ _, Ok JNull) (λ _, Ok [mkMessage "user" "hello"]) (λ _, Err "none") assembler_new (planner_new demo_catalog) demo_catalog
      (registry_new 0) ["calculator"] 2 77%N eager_provider (λ _ _ _, Ok JNull) (λ _ _, 0) (λ _, "")
      (λ _, Ok "results") (λ _, "") demo_host (demo_chat false) demo_evidence demo_manager g n (mkCtx ∅ ∅) []).
    + exact Hc.
    + by apply head_Some_elem_of.
Defined.
