(* ===== verification/Sessions.v ===== *)
(** * Execution sessions ([src/session], [src/lifecycle/manager.rs],
      [src/types/execution_context.rs])

    Sessions belong to an owner and collect checkpoints. The store is an
    interface with two implementations, maps in memory and two SQLite tables;
    checkpoints are taken and resumed through it. The tables are lists of
    rows, an SQL statement the list function it stands for; the order of rows
    a [SELECT] leaves open, the texts of SQLite's and the parsers' errors and
    [serde_json]'s texts are parameters. A poisoned lock and a blocking task
    that does not complete are left out. *)
From S2P Require Import Prelude Text Json Money Capability ExecTypes Runtime.
Open Scope stdpp_scope.
Open Scope Z_scope.

(** ** Execution contexts and traces *)
Inductive ExecutionState :=
| StPending | StResolved | StScheduled | StRunning | StSucceeded | StFailed | StCancelled | StTimedOut.
Inductive TraceEvent :=
| ConnectorBound (connector : string) (capability : CapabilityId)
| ExecutionStarted (timestamp_ms : Z)
| PluginInvoked (plugin : string)
| PluginCompleted (status : string)
| RetryScheduled (attempt : Z)
| ExecutionFinished (final_state : ExecutionState) (timestamp_ms : Z).
Record ExecutionTrace := mkTrace { trace_id : Uuid; trace_events : list TraceEvent }.
Definition trace_new (id : Uuid) : ExecutionTrace := mkTrace id [].
Definition trace_record (e : TraceEvent) (t : ExecutionTrace) : ExecutionTrace :=
  mkTrace (trace_id t) (trace_events t ++ [e]).
Record CapabilityInstance `{SemVer} := mkCapabilityInstance { ci_contract : CapabilityContract; runtime_params : json }.
Record ExecutionContext `{SemVer} := mkExecutionContext {
  execution_id : Uuid;
  capability_instance : CapabilityInstance;
  connector_name : string;
  ec_inputs : json;
  ec_metadata : gmap string string;
  deadline_ms : option Z;
  ec_state : ExecutionState;
  ec_trace : ExecutionTrace;
  config_generation : Z;
}.
Arguments mkExecutionContext {_}.
Arguments mkCapabilityInstance {_}.
Section context.
Context `{SemVer}.
(** [Uuid::new_v4] answers [id]. *)
Definition context_new (id : Uuid) (ci : CapabilityInstance) (connector : string) (inputs : json) : ExecutionContext :=
  mkExecutionContext id ci connector inputs ∅ None StPending
    (trace_record (ConnectorBound connector (c_id (ci_contract ci))) (trace_new id)) 0.
Definition set_state (s : ExecutionState) (c : ExecutionContext) : ExecutionContext :=
  mkExecutionContext (execution_id c) (capability_instance c) (connector_name c) (ec_inputs c) (ec_metadata c)
    (deadline_ms c) s (ec_trace c) (config_generation c).
End context.
(** [ReplayEngine::replay_inspection] *)
Definition replay_inspection (t : ExecutionTrace) : ExecutionState :=
  foldl (λ s e, match e with ExecutionFinished f _ => f | _ => s end) StPending (trace_events t).

(** ** Sessions *)
Notation SessionId := N (only parsing).
Record ExecutionSession := mkSession {
  session_id : SessionId;
  s_workflow_id : Uuid;
  created_at_ms : Z;
  s_owner : string;
  s_config : gmap string string;
}.
Record SessionSnapshot := mkSnapshot {
  sn_session_id : SessionId;
  snapshot_id : Uuid;
  current_node_id : option Uuid;
  sn_state : ExecutionState;
  execution_context_id : Uuid;
  sn_trace_id : Uuid;
  checkpoint_timestamp_ms : Z;
}.

Class SessionStore (S : Type) := {
  create_session : ExecutionSession → S → result string unit * S;
  load_session : SessionId → option string → S → result string (option ExecutionSession);
  save_snapshot : SessionSnapshot → option string → S → result string unit * S;
  list_checkpoints : SessionId → option string → S → result string (list SessionSnapshot);
  delete_session : SessionId → option string → S → result string unit * S;
}.
Definition not_found (id : SessionId) : string := "session not found: " +:+ uuid_to_string id.

(** *** In memory *)
Record InMemorySessionStore := mkMemory {
  sessions : gmap SessionId ExecutionSession; snapshots : gmap SessionId (list SessionSnapshot) }.
Definition memory_new : InMemorySessionStore := mkMemory ∅ ∅.
(** The check in front of every access that names an owner. *)
Definition memory_owned (id : SessionId) (owner : option string) (m : InMemorySessionStore) : bool :=
  match owner with
  | None => true
  | Some want => match sessions m !! id with Some s => bool_decide (s_owner s = want) | None => false end
  end.
Definition memory_create (s : ExecutionSession) (m : InMemorySessionStore) : result string unit * InMemorySessionStore :=
  (Ok tt, mkMemory (<[session_id s := s]> (sessions m)) (snapshots m)).
Definition memory_load (id : SessionId) (owner : option string) (m : InMemorySessionStore)
    : result string (option ExecutionSession) :=
  match sessions m !! id, owner with
  | Some s, Some want => if decide (s_owner s = want) then Ok (Some s) else Ok None
  | other, _ => Ok other
  end.
Definition memory_save (sn : SessionSnapshot) (owner : option string) (m : InMemorySessionStore)
    : result string unit * InMemorySessionStore :=
  if memory_owned (sn_session_id sn) owner m then
    (Ok tt, mkMemory (sessions m)
       (<[sn_session_id sn := default [] (snapshots m !! sn_session_id sn) ++ [sn]]> (snapshots m)))
  else (Err (not_found (sn_session_id sn)), m).
Definition memory_list (id : SessionId) (owner : option string) (m : InMemorySessionStore)
    : result string (list SessionSnapshot) :=
  if memory_owned id owner m then Ok (default [] (snapshots m !! id)) else Err (not_found id).
Definition memory_delete (id : SessionId) (owner : option string) (m : InMemorySessionStore)
    : result string unit * InMemorySessionStore :=
  if memory_owned id owner m then (Ok tt, mkMemory (delete id (sessions m)) (delete id (snapshots m)))
  else (Err (not_found id), m).
#[global] Instance memory_store : SessionStore InMemorySessionStore :=
  {| create_session := memory_create; load_session := memory_load; save_snapshot := memory_save;
     list_checkpoints := memory_list; delete_session := memory_delete |}.

(** *** In SQLite *)
Record SessionRow := mkSessionRow {
  sr_session_id : string; sr_workflow_id : string; sr_created_at_ms : Z; sr_owner : string; sr_config : string }.
Record SnapshotRow := mkSnapshotRow {
  nr_snapshot_id : string; nr_session_id : string; nr_current_node_id : option string; nr_state : string;
  nr_execution_context_id : string; nr_trace_id : string; nr_checkpoint_timestamp_ms : Z }.
Record SqliteSessionStore := mkSqlite { session_rows : list SessionRow; snapshot_rows : list SnapshotRow }.
Definition sqlite_new : SqliteSessionStore := mkSqlite [] [].
(** [as i64] of a [u64], and back *)
Definition as_i64 (x : Z) : Z := if x <? 2 ^ 63 then x else x - 2 ^ 64.
Definition as_u64 (x : Z) : Z := x `mod` 2 ^ 64.

Section sqlite.
(** [Uuid::parse_str], [serde_json] on configurations and states *)
Context (parse_uuid : string → result string Uuid).
Context (config_to_string : gmap string string → string) (config_from_str : string → result string (gmap string string)).
Context (state_to_string : ExecutionState → string) (state_from_str : string → result string ExecutionState).
(** The texts of a violated [PRIMARY KEY] and [FOREIGN KEY], and the order a
    [SELECT] returns its rows in. *)
Context (unique_failed foreign_key_failed : string) (order_by_timestamp : list SnapshotRow → list SnapshotRow).

(** [SELECT … FROM sessions WHERE session_id = ?1] *)
Definition select_session (sid : string) (db : SqliteSessionStore) : option SessionRow :=
  snd <$> list_find (λ r, sr_session_id r = sid) (session_rows db).
Definition sqlite_owned (sid : string) (owner : option string) (db : SqliteSessionStore) : bool :=
  match owner with
  | None => true
  | Some want => bool_decide (sr_owner <$> select_session sid db = Some want)
  end.
Definition sqlite_create (s : ExecutionSession) (db : SqliteSessionStore) : result string unit * SqliteSessionStore :=
  let sid := uuid_to_string (session_id s) in
  match select_session sid db with
  | Some _ => (Err ("failed to insert session: " +:+ unique_failed), db)
  | None =>
      (Ok tt, mkSqlite (session_rows db ++ [mkSessionRow sid (uuid_to_string (s_workflow_id s)) (as_i64 (created_at_ms s))
         (s_owner s) (config_to_string (s_config s))]) (snapshot_rows db))
  end.
Definition session_of_row (r : SessionRow) : result string ExecutionSession :=
  sid ← map_err (λ e, "bad session_id: " +:+ e) (parse_uuid (sr_session_id r));
  wf ← map_err (λ e, "bad workflow_id: " +:+ e) (parse_uuid (sr_workflow_id r));
  config ← map_err (λ e, "failed to deserialize config: " +:+ e) (config_from_str (sr_config r));
  Ok (mkSession sid wf (as_u64 (sr_created_at_ms r)) (sr_owner r) config).
Definition sqlite_load (id : SessionId) (owner : option string) (db : SqliteSessionStore)
    : result string (option ExecutionSession) :=
  match select_session (uuid_to_string id) db with
  | None => Ok None
  | Some r =>
      if match owner with Some want => bool_decide (sr_owner r ≠ want) | None => false end then Ok None
      else Some <$> session_of_row r
  end.
Definition row_of_snapshot (sn : SessionSnapshot) : SnapshotRow :=
  mkSnapshotRow (uuid_to_string (snapshot_id sn)) (uuid_to_string (sn_session_id sn))
    (uuid_to_string <$> current_node_id sn) (state_to_string (sn_state sn)) (uuid_to_string (execution_context_id sn))
    (uuid_to_string (sn_trace_id sn)) (as_i64 (checkpoint_timestamp_ms sn)).
Definition sqlite_save (sn : SessionSnapshot) (owner : option string) (db : SqliteSessionStore)
    : result string unit * SqliteSessionStore :=
  let sid := uuid_to_string (sn_session_id sn) in
  if sqlite_owned sid owner db then
    if decide (uuid_to_string (snapshot_id sn) ∈ nr_snapshot_id <$> snapshot_rows db)
    then (Err ("failed to insert snapshot: " +:+ unique_failed), db)
    else match select_session sid db with
         | None => (Err ("failed to insert snapshot: " +:+ foreign_key_failed), db)
         | Some _ => (Ok tt, mkSqlite (session_rows db) (snapshot_rows db ++ [row_of_snapshot sn]))
         end
  else (Err ("session not found: " +:+ sid), db).
(** The tuple of a row is destructured with its first two columns the other
    way around. *)
Definition snapshot_of_row (r : SnapshotRow) : result string SessionSnapshot :=
  let '(sid, ssid) := (nr_snapshot_id r, nr_session_id r) in
  snapshot ← map_err (λ e, "bad snapshot_id: " +:+ e) (parse_uuid ssid);
  session ← map_err (λ e, "bad session_id: " +:+ e) (parse_uuid sid);
  node ← match nr_current_node_id r with
         | Some s => map_err (λ e, "bad current_node_id: " +:+ e) (Some <$> parse_uuid s)
         | None => Ok None
         end;
  state ← map_err (λ e, "failed to deserialize state: " +:+ e) (state_from_str (nr_state r));
  ctx ← map_err (λ e, "bad execution_context_id: " +:+ e) (parse_uuid (nr_execution_context_id r));
  trace ← map_err (λ e, "bad trace_id: " +:+ e) (parse_uuid (nr_trace_id r));
  Ok (mkSnapshot session snapshot node state ctx trace (as_u64 (nr_checkpoint_timestamp_ms r))).
Definition select_snapshots (sid : string) (db : SqliteSessionStore) : list SnapshotRow :=
  order_by_timestamp (filter (λ r, nr_session_id r = sid) (snapshot_rows db)).
Definition sqlite_list (id : SessionId) (owner : option string) (db : SqliteSessionStore)
    : result string (list SessionSnapshot) :=
  let sid := uuid_to_string id in
  if sqlite_owned sid owner db then mapM snapshot_of_row (select_snapshots sid db)
  else Err ("session not found: " +:+ sid).
Definition sqlite_delete (id : SessionId) (owner : option string) (db : SqliteSessionStore)
    : result string unit * SqliteSessionStore :=
  let sid := uuid_to_string id in
  if sqlite_owned sid owner db then
    (Ok tt, mkSqlite (filter (λ r, sr_session_id r ≠ sid) (session_rows db))
              (filter (λ r, nr_session_id r ≠ sid) (snapshot_rows db)))
  else (Err ("session not found: " +:+ sid), db).
Definition sqlite_store : SessionStore SqliteSessionStore :=
  {| create_session := sqlite_create; load_session := sqlite_load; save_snapshot := sqlite_save;
     list_checkpoints := sqlite_list; delete_session := sqlite_delete |}.
End sqlite.

(** ** Checkpoints and the lifecycle *)
Section engine.
Context {S : Type} `{!SessionStore S}.
Definition create_checkpoint `{SemVer} (snapshot : Uuid) (now : Z) (id : SessionId) (ctx : ExecutionContext) (owner : option string)
    (s : S) : result string SessionSnapshot * S :=
  let sn := mkSnapshot id snapshot None (ec_state ctx) (execution_id ctx) (trace_id (ec_trace ctx)) now in
  let '(r, s) := save_snapshot sn owner s in ((λ _, sn) <$> r, s).
(** [semver::Version], its equality, [Version::new] and its text *)
Context {Ver : Type} `{!EqDecision Ver} (version_new : Z → Z → Z → Ver) (version_display : Ver → string).
Definition resume_session (id : SessionId) (expected : Ver) (owner : option string) (s : S)
    : result string SessionSnapshot :=
  found ← load_session id owner s;
  session ← ok_or ("Session not found: " +:+ uuid_to_string id) found;
  let current := version_new 0 1 0 in
  if decide (expected = current) then
    checkpoints ← list_checkpoints (session_id session) owner s;
    ok_or ("No checkpoints found for session: " +:+ uuid_to_string id) (last checkpoints)
  else Err ("Resume compatibility check failed: expected API version " +:+ version_display expected +:+ ", got "
              +:+ version_display current).
(** [LifecycleManager::create_session]; [id] and [now] are the fresh identity and the clock. *)
Definition lifecycle_create (id : SessionId) (now : Z) (owner : string) (workflow : Uuid) (s : S)
    : result string ExecutionSession * S :=
  let session := mkSession id workflow now owner ∅ in
  let '(r, s) := create_session session s in ((λ _, session) <$> r, s).
End engine.

(** ** Isolation of owners *)
Inductive SessionOp :=
| OpCreate (s : ExecutionSession)
| OpLoad (id : SessionId) (owner : option string)
| OpSave (sn : SessionSnapshot) (owner : option string)
| OpList (id : SessionId) (owner : option string)
| OpDelete (id : SessionId) (owner : option string).
Definition op_session (op : SessionOp) : SessionId :=
  match op with
  | OpCreate s => session_id s | OpSave sn _ => sn_session_id sn
  | OpLoad id _ | OpList id _ | OpDelete id _ => id
  end.
(** The owner an operation names; a creation names the owner of the new session. *)
Definition op_owner (op : SessionOp) : option string :=
  match op with OpCreate s => Some (s_owner s) | OpSave _ o | OpLoad _ o | OpList _ o | OpDelete _ o => o end.
Definition creates (op : SessionOp) : bool := match op with OpCreate _ => true | _ => false end.
(** What others do beside a session of [owner]: anything with sessions of other
    ids, creation included, and any access to this one under another name. The
    ids of sessions are drawn at random, so nobody creates this id again. *)
Definition foreign (id : SessionId) (owner : string) (op : SessionOp) : Prop :=
  op_session op ≠ id ∨ (creates op = false ∧ ∃ want, op_owner op = Some want ∧ want ≠ owner).

Section operations.
Context {S : Type} `{!SessionStore S}.
Definition op_step (s : S) (op : SessionOp) : S :=
  match op with
  | OpCreate x => (create_session x s).2
  | OpSave sn o => (save_snapshot sn o s).2
  | OpDelete id o => (delete_session id o s).2
  | OpLoad _ _ | OpList _ _ => s
  end.
Definition op_refused (op : SessionOp) (s : S) : Prop :=
  match op with
  | OpCreate x => ∃ e, (create_session x s).1 = Err e
  | OpLoad id o => load_session id o s = Ok None
  | OpSave sn o => ∃ e, (save_snapshot sn o s).1 = Err e
  | OpList id o => ∃ e, list_checkpoints id o s = Err e
  | OpDelete id o => ∃ e, (delete_session id o s).1 = Err e
  end.
(** What the store shows of a session *)
Definition same_session (id : SessionId) (s s' : S) : Prop :=
  ∀ o, load_session id o s' = load_session id o s ∧ list_checkpoints id o s' = list_checkpoints id o s.
End operations.

Class IsolatedStore (S : Type) `{!SessionStore S} := {
  access_refused : ∀ s id x op want,
    load_session id None s = Ok (Some x) → s_owner x ≠ want →
    op_session op = id → creates op = false → op_owner op = Some want → op_refused op s ∧ op_step s op = s;
  others_kept : ∀ s op id, op_session op ≠ id → same_session id s (op_step s op);
}.


#[global] Instance memory_isolated : IsolatedStore InMemorySessionStore.
Proof.
  split.
  - intros s id x op want Hx Hw Hid Hcr Ho.
    assert (sessions s !! id = Some x) as Hs by (revert Hx; cbn; unfold memory_load; destruct (sessions s !! id); congruence).
    assert (memory_owned id (Some want) s = false) as Hno by (cbn; by rewrite Hs, bool_decide_false).
    destruct op; cbn [op_session op_owner creates] in Hid, Ho, Hcr; simplify_eq;
      cbn [op_refused op_step create_session load_session save_snapshot list_checkpoints delete_session memory_store];
      unfold memory_load, memory_save, memory_list, memory_delete; rewrite ?Hno; eauto.
    by rewrite Hs, decide_False.
  - intros s op id Hne o. destruct op; csimpl in *; [|done| |done|];
      unfold memory_save, memory_delete; try case_match; csimpl; try done;
      unfold memory_load, memory_list, memory_owned; csimpl;
      by rewrite ?lookup_insert_ne, ?lookup_delete_ne.
Qed.

Section sqlite_laws.
Context (parse_uuid : string → result string Uuid).
Context (config_to_string : gmap string string → string) (config_from_str : string → result string (gmap string string)).
Context (state_to_string : ExecutionState → string) (state_from_str : string → result string ExecutionState).
Context (unique_failed foreign_key_failed : string) (order_by_timestamp : list SnapshotRow → list SnapshotRow).
Hypothesis uuid_parses : ∀ u, parse_uuid (uuid_to_string u) = Ok u.
Hypothesis config_parses : ∀ c, config_from_str (config_to_string c) = Ok c.
Hypothesis state_parses : ∀ st, state_from_str (state_to_string st) = Ok st.
Hypothesis ordered_rows : ∀ l, order_by_timestamp l ≡ₚ l.
#[local] Instance the_sqlite_store : SessionStore SqliteSessionStore :=
  sqlite_store parse_uuid config_to_string config_from_str state_to_string state_from_str unique_failed
    foreign_key_failed order_by_timestamp.

Lemma uuid_text_inj u v : uuid_to_string u = uuid_to_string v → u = v.
Proof using uuid_parses. intros H. pose proof (uuid_parses u) as Hu. rewrite H, uuid_parses in Hu. congruence. Qed.
(** The row a select finds depends only on the rows with that key. *)
Lemma select_session_filter sid db db' :
  filter (λ r, sr_session_id r = sid) (session_rows db) = filter (λ r, sr_session_id r = sid) (session_rows db') →
  select_session sid db = select_session sid db'.
Proof.
  unfold select_session. assert (∀ l, snd <$> list_find (λ r, sr_session_id r = sid) l =
    head (filter (λ r, sr_session_id r = sid) l)) as H; [|intros E; by rewrite !H, E].
  induction l as [|r l IH]; [done|]. rewrite filter_cons. cbn [list_find]. case_decide; [done|].
  rewrite <- IH. by destruct (list_find _ l) as [[]|].
Qed.
Lemma sqlite_kept id s s' :
  filter (λ r, sr_session_id r = uuid_to_string id) (session_rows s') = filter (λ r, sr_session_id r = uuid_to_string id) (session_rows s) →
  filter (λ r, nr_session_id r = uuid_to_string id) (snapshot_rows s') = filter (λ r, nr_session_id r = uuid_to_string id) (snapshot_rows s) →
  same_session id s s'.
Proof.
  intros H1 H2 o. cbn. unfold sqlite_load, sqlite_list, sqlite_owned, select_snapshots.
  by rewrite (select_session_filter _ s' s H1), H2.
Qed.
Lemma filter_snoc_ne {A} (P : A → Prop) `{!∀ a, Decision (P a)} l a : ¬ P a → filter P (l ++ [a]) = filter P l.
Proof. intros Ha. by rewrite filter_app, filter_cons_False, filter_nil, app_nil_r. Qed.
Lemma filter_key {A} (f : A → string) k k' (l : list A) :
  k ≠ k' → filter (λ r, f r = k) (filter (λ r, f r ≠ k') l) = filter (λ r, f r = k) l.
Proof. intros Hk. rewrite list_filter_filter. apply list_filter_iff. intros a. naive_solver. Qed.

#[export] Instance sqlite_isolated : IsolatedStore SqliteSessionStore.
Proof using uuid_parses.
  split.
  - intros s id x op want Hx Hw Hid Hcr Ho.
    assert (∃ r, select_session (uuid_to_string id) s = Some r ∧ sr_owner r = s_owner x) as (r & Hr & Hown).
    { revert Hx. cbn. unfold sqlite_load. destruct (select_session _ s) as [r|]; [|done]. intros Hx. exists r. split; [done|].
      unfold session_of_row in Hx. destruct (parse_uuid (sr_session_id r)); [|done].
      destruct (parse_uuid (sr_workflow_id r)); [|done]. destruct (config_from_str _); [|done]. by injection Hx as <-. }
    assert (sqlite_owned (uuid_to_string id) (Some want) s = false) as Hno
      by (cbn; rewrite Hr; apply bool_decide_false; csimpl; congruence).
    destruct op; cbn [op_session op_owner creates] in Hid, Ho, Hcr; simplify_eq; cbn;
      unfold sqlite_load, sqlite_save, sqlite_list, sqlite_delete; rewrite ?Hno; eauto.
    by rewrite Hr, bool_decide_true by congruence.
  - intros s op id Hne. assert (uuid_to_string (op_session op) ≠ uuid_to_string id) as Hs
      by (intros H; by apply uuid_text_inj in H).
    destruct op; cbn [op_session] in Hs; cbn; unfold sqlite_create, sqlite_save, sqlite_delete;
      repeat case_match; csimpl; try (by intros ?); apply sqlite_kept; csimpl; try done;
      try (by apply filter_snoc_ne); by apply filter_key.
Qed.

(** *** What is stored comes back, but for the identities of checkpoints *)
Lemma as_u64_i64 x : 0 ≤ x < 2 ^ 64 → as_u64 (as_i64 x) = x.
Proof.
  intros Hx. unfold as_u64, as_i64. case_match; [by apply Z.mod_small|].
  rewrite <- (Z.mod_add _ 1) by done. replace (x - 2 ^ 64 + 1 * 2 ^ 64) with x by ring. by apply Z.mod_small.
Qed.
Lemma sqlite_session_roundtrip db x :
  0 ≤ created_at_ms x < 2 ^ 64 → load_session (session_id x) None db = Ok None →
  ∃ db', create_session x db = (Ok tt, db') ∧ load_session (session_id x) None db' = Ok (Some x) ∧
    load_session (session_id x) (Some (s_owner x)) db' = Ok (Some x).
Proof using uuid_parses config_parses.
  intros Ht. cbn. unfold sqlite_load, sqlite_create.
  destruct (select_session (uuid_to_string (session_id x)) db) as [r|] eqn:Hr.
  { unfold session_of_row. destruct (parse_uuid (sr_session_id r)); [|done].
    destruct (parse_uuid (sr_workflow_id r)); [|done]. by destruct (config_from_str _). }
  intros _. eexists. split; [done|].
  assert (∀ r, sr_session_id r = uuid_to_string (session_id x) →
    select_session (uuid_to_string (session_id x)) (mkSqlite (session_rows db ++ [r]) (snapshot_rows db)) = Some r) as Hsel.
  { intros r Hid. revert Hr. unfold select_session. csimpl. induction (session_rows db) as [|r0 l IH]; csimpl.
    - intros _. by rewrite decide_True.
    - case_decide; [done|]. intros Hr.
      assert (snd <$> list_find (λ r, sr_session_id r = uuid_to_string (session_id x)) l = None) as Hn
        by (by destruct (list_find _ l) as [[]|]).
      specialize (IH Hn). by destruct (list_find _ (l ++ [r])) as [[]|]. }
  rewrite Hsel by done. unfold session_of_row. csimpl. rewrite !uuid_parses. csimpl. rewrite config_parses. csimpl.
  rewrite as_u64_i64 by done. rewrite bool_decide_false by auto. by destruct x.
Qed.
(** A checkpoint is listed with the identity of its session in place of its
    own and the other way around. *)
Theorem sqlite_checkpoint_ids_swapped db sn :
  0 ≤ checkpoint_timestamp_ms sn < 2 ^ 64 →
  list_checkpoints (sn_session_id sn) None db = Ok [] →
  ∀ db', save_snapshot sn None db = (Ok tt, db') →
  list_checkpoints (sn_session_id sn) None db' =
    Ok [mkSnapshot (snapshot_id sn) (sn_session_id sn) (current_node_id sn) (sn_state sn) (execution_context_id sn)
          (sn_trace_id sn) (checkpoint_timestamp_ms sn)].
Proof using uuid_parses state_parses ordered_rows.
  intros Ht Hl db'. cbn in *. unfold sqlite_save, sqlite_list in *. cbn [sqlite_owned] in *.
  case_decide; [done|]. destruct (select_session _ db); [|done]. intros [= <-].
  assert (filter (λ r, nr_session_id r = uuid_to_string (sn_session_id sn)) (snapshot_rows db) = []) as Hnil.
  { unfold select_snapshots in Hl. pose proof (ordered_rows (filter (λ r, nr_session_id r = uuid_to_string (sn_session_id sn)) (snapshot_rows db))) as Hp.
    destruct (order_by_timestamp _) as [|r l]; [by apply Permutation_nil in Hp|].
    csimpl in Hl. destruct (snapshot_of_row _ _ r); [|done]. csimpl in Hl. by destruct (mapM _ l). }
  unfold select_snapshots. csimpl. rewrite filter_app, Hnil, filter_cons_True, filter_nil by done. csimpl.
  pose proof (ordered_rows [row_of_snapshot state_to_string sn]) as Hp. apply Permutation_singleton_r in Hp. rewrite Hp.
  cbn [mapM mbind result_bind]. unfold snapshot_of_row. csimpl. rewrite !uuid_parses. csimpl.
  destruct (current_node_id sn) as [u|]; csimpl; rewrite ?uuid_parses; csimpl; rewrite state_parses; csimpl;
    rewrite ?uuid_parses; csimpl; by rewrite as_u64_i64.
Qed.
End sqlite_laws.

(** ** Resuming *)
Section resume.
Context {Ver : Type} `{!EqDecision Ver} (version_new : Z → Z → Z → Ver) (version_display : Ver → string).
(** Checkpoints saved for a session under its owner's name or without one *)
Definition own_save (id : SessionId) (owner : string) (op : SessionOp) : option SessionSnapshot :=
  match op with
  | OpSave sn o => if decide (sn_session_id sn = id ∧ (o = None ∨ o = Some owner)) then Some sn else None
  | _ => None
  end.
Lemma own_step m id x op :
  sessions m !! id = Some x → foreign id (s_owner x) op ∨ is_Some (own_save id (s_owner x) op) →
  sessions (op_step m op) !! id = Some x ∧
  default [] (snapshots (op_step m op) !! id) =
    default [] (snapshots m !! id) ++ option_list (own_save id (s_owner x) op).
Proof.
  intros Hm Hop. destruct (decide (op_session op = id)) as [Hid|Hne].
  - destruct (own_save id (s_owner x) op) as [sn|] eqn:Hs.
    + destruct op; try done. cbn in Hs. case_decide as Hd; [|done]. destruct Hd as [Hsn Ho]. injection Hs as ->.
      cbn. unfold memory_save. rewrite Hsn.
      assert (memory_owned id owner m = true) as -> by (destruct Ho as [->| ->]; cbn; [done|by rewrite Hm, bool_decide_true]).
      csimpl. by rewrite lookup_insert_eq.
    + destruct Hop as [[|(Hcr & want & Ho & Hw)]|[? [=]]]; [done|].
      destruct (access_refused m id x op want) as [_ ->]; try done; [cbn; unfold memory_load; by rewrite Hm|].
      by rewrite app_nil_r.
  - assert (own_save id (s_owner x) op = None) as -> by (destruct op; cbn in *; try done; rewrite decide_False; naive_solver).
    cbn [option_list]. rewrite app_nil_r.
    destruct op as [y| |sn o| |i o]; cbn [op_session] in Hne;
      cbn [op_step create_session save_snapshot delete_session memory_store]; try done;
      unfold memory_create, memory_save, memory_delete; try (destruct (memory_owned _ o m); [|done]);
      cbn [snd sessions snapshots]; by rewrite ?lookup_insert_ne, ?lookup_delete_ne.
Qed.
(** While nobody creates the session again or deletes it with its owner's
    rights, its owner resumes it at the last checkpoint that was saved with
    them, whatever else happens in the store. *)
Theorem resume_latest (m : InMemorySessionStore) id x ops :
  load_session id None m = Ok (Some x) → session_id x = id →
  Forall (λ op, foreign id (s_owner x) op ∨ is_Some (own_save id (s_owner x) op)) ops →
  let saved := default [] (snapshots m !! id) ++ omap (own_save id (s_owner x)) ops in
  resume_session version_new version_display id (version_new 0 1 0) (Some (s_owner x)) (foldl op_step m ops) =
    ok_or ("No checkpoints found for session: " +:+ uuid_to_string id) (last saved).
Proof.
  intros Hx Hid Hops saved.
  assert (sessions m !! id = Some x) as Hm by (revert Hx; cbn; unfold memory_load; destruct (sessions m !! id); congruence).
  assert (sessions (foldl op_step m ops) !! id = Some x ∧
    default [] (snapshots (foldl op_step m ops) !! id) = saved) as [H1 H2].
  { clear Hx. subst saved. revert m Hm. induction Hops as [|op ops Hop _ IH]; intros m Hm; cbn [foldl]; [by rewrite app_nil_r|].
    destruct (own_step m id x op Hm Hop) as [Hs Hl]. destruct (IH _ Hs) as [H1 H2]. split; [done|]. rewrite H2, Hl, <- app_assoc.
    f_equal. cbn [omap list_omap]. by destruct (own_save id (s_owner x) op). }
  unfold resume_session. cbn. unfold memory_load. rewrite H1, decide_True by done. csimpl. rewrite decide_True by done.
  rewrite Hid. unfold memory_list. cbn [memory_owned]. rewrite H1, bool_decide_true by done. csimpl. by rewrite H2.
Qed.
End resume.

(** Creating a session under an id that is in use replaces it in memory: it
    changes hands, with the checkpoints of its former owner. *)
Theorem memory_create_takes_over (m : InMemorySessionStore) x y :
  load_session (session_id x) None m = Ok (Some x) → session_id y = session_id x →
  let m' := op_step m (OpCreate y) in
  load_session (session_id x) (Some (s_owner y)) m' = Ok (Some y) ∧
  list_checkpoints (session_id x) (Some (s_owner y)) m' = list_checkpoints (session_id x) None m.
Proof.
  intros _ Hid. cbn. unfold memory_load, memory_list, memory_owned, memory_create. csimpl.
  rewrite Hid, lookup_insert_eq, decide_True, bool_decide_true by done. done.
Qed.

(** *** Example *)
Definition demo_session : ExecutionSession := mkSession 7%N 1%N 1000 "alice" ∅.
Definition demo_checkpoint (n : N) : SessionSnapshot := mkSnapshot 7%N n None StRunning 2%N 2%N 1005.
Definition demo_ops : list SessionOp :=
  [OpDelete 7%N (Some "mallory"); OpSave (demo_checkpoint 11) (Some "alice"); OpSave (demo_checkpoint 12) (Some "mallory");
   OpLoad 7%N (Some "mallory"); OpCreate (mkSession 8%N 1%N 1001 "mallory" ∅); OpList 7%N (Some "mallory")].
Definition demo_sessions : InMemorySessionStore := (memory_create demo_session memory_new).2.
Definition demo_attack : list SessionOp :=
  filter (λ op, op_owner op ≠ Some "alice") demo_ops.
