(* ===== verification/ExecutionApi.v ===== *)
(** * The execution API ([src/server/execution.rs], [src/events/payload.rs])

    [POST /v1/executions] runs a workflow the client wrote: a session is
    opened, the workflow compiled under the live policies and run by the
    host's scheduler without reservation or budget, and the outcome replayed
    on the event bus, node by node in topological order. The log of events is
    what was handed to the bus; whether somebody listens does not change the
    run. Fresh identities, the clock and [Debug] texts are parameters. *)
From S2P Require Import Prelude Text Json Money Graphs Kahn Budget ExecTypes Policy Strategy Compiler CompilerProps WorkQueue Scheduler DagQueue SchedulerProps SchedulerCases Runtime RuntimeProps HostResource HostTypes HostPolicy HostExecutor RequestPipeline HostPlanner Sessions.
From Stdlib Require Import Floats.SpecFloat.
Open Scope stdpp_scope.
Open Scope Z_scope.

(** ** Errors *)
Inductive ExecutionErrorKind := KindValidation | KindPolicy | KindCompilation | KindScheduling | KindUpstream | KindInternal.
Record ExecutionError := mkExecutionError { ee_kind : ExecutionErrorKind; ee_detail : string }.
Definition status_code (e : ExecutionError) : Z :=
  match ee_kind e with
  | KindValidation => 400
  | KindPolicy => 403
  | KindUpstream => 502
  | KindCompilation | KindScheduling | KindInternal => 500
  end.
Definition public_message (e : ExecutionError) : string :=
  match ee_kind e with
  | KindValidation => "invalid workflow specification"
  | KindPolicy => "workflow rejected by policy configuration"
  | KindCompilation => "workflow failed to compile"
  | KindScheduling => "workflow could not be scheduled"
  | KindUpstream => "upstream node execution failed"
  | KindInternal => "internal execution engine error"
  end.

(** ** Events *)
Inductive ExecutionEvent :=
| WorkflowStarted (intent : string) (input_tokens : Z)
| WorkflowCompleted (total_duration_ms : Z) (total_cost : NanoUSD)
| WorkflowFailed (error : string) (failed_node_id : option string)
| WorkflowCompiled (node_count edge_count : nat) (primitive_graph_hash : Z)
| NodeScheduled (node_id node_kind : string) (dependencies : list string)
| NodeStarted (node_id : string) (target_model : option string)
| NodeFinished (node_id : string) (duration_ms prompt_tokens completion_tokens : Z)
| NodeFailed (node_id error : string) (attempt : Z)
| RetryStarted (node_id : string) (attempt backoff_ms : Z)
| RetrySucceeded (node_id : string) (attempt : Z)
| ProviderCalled (provider model : string) (prompt_bytes : Z)
| ProviderResponded (provider model : string) (duration_ms : Z) (cost : NanoUSD)
| ToolInvoked (tool_name node_id : string)
| ToolCompleted (tool_name node_id : string) (duration_ms : Z) (success : bool)
| ContextMaterialized (node_id : string) (context_size_bytes : Z)
| ResourceAllocated (resource_type : string) (amount : spec_float)
| ResourceReleased (resource_type : string) (amount : spec_float)
| SemaphoreAcquired (resource_name : string) (permits : Z)
| SemaphoreReleased (resource_name : string) (permits : Z)
| BudgetExceeded (resource_type : string) (limit actual : spec_float).
Definition EVENT_SCHEMA_VERSION : string := "fusion.router.event.v1".
Record ExecutionEventEnvelope := mkEnvelope {
  schema_version : string;
  event_id : string;
  ev_workflow_id : string;
  ev_execution_id : string;
  correlation_id : option string;
  sequence_number : Z;
  timestamp : Z;
  parent_event_id : option string;
  payload : ExecutionEvent;
}.
(** [ExecutionEventEnvelope::new] at time [now]; the identity is a hash. *)
Definition envelope_of (event_hash : string → string → Z → Z → string) (now : Z) (wf ex : string)
    (correlation : option string) (seq : Z) (parent : option string) (e : ExecutionEvent) : ExecutionEventEnvelope :=
  mkEnvelope EVENT_SCHEMA_VERSION (event_hash wf ex seq now) wf ex correlation seq now parent e.

(** ** Topological order *)
Definition index_of (g : ExecutionGraph) : gmap Uuid nat :=
  list_to_map (reverse (imap (λ i n, (x_id n, i)) (g_nodes g))).
Definition index_edges (g : ExecutionGraph) : list (nat * nat) :=
  omap (λ e, match index_of g !! x_from e, index_of g !! x_to e with
             | Some from, Some to => Some (from, to)
             | _, _ => None
             end) (g_edges g).
(** One edge: [in_degree[to] += 1; adjacency.entry(from).or_default().push(to)]. *)
Definition add_index_edge (st : gmap nat nat * gmap nat (list nat)) (e : nat * nat) : gmap nat nat * gmap nat (list nat) :=
  (<[e.2 := S (default O (st.1 !! e.2))]> st.1, <[e.1 := default [] (st.2 !! e.1) ++ [e.2]]> st.2).
(** The vector of in-degrees is a map from its indices. *)
Definition topological_order (g : ExecutionGraph) : list nat :=
  let ns := seq 0 (length (g_nodes g)) in
  let '(deg, adj) := foldl add_index_edge (list_to_map ((λ i, (i, O)) <$> ns), ∅) (index_edges g) in
  let ready := filter (λ i, deg !! i = Some O) ns in
  let order := stack_loop adj (length ns) (reverse ready) [] deg in
  if decide (length order = length ns) then order else ns.
(** The nodes in that order; every index of it is one of the graph's. *)
Definition ordered_nodes (g : ExecutionGraph) : list ExecutionNode :=
  omap (λ i, g_nodes g !! i) (topological_order g).

Lemma index_edges_build es deg adj deg' adj' :
  foldl add_index_edge (deg, adj) es = (deg', adj') →
  (∀ e, e ∈ es → is_Some (deg !! e.2)) →
  (∀ v, deg' !! v = (λ d, d + length (filter (λ e, e.2 = v) es))%nat <$> deg !! v) ∧
  ∀ u, default [] (adj' !! u) = default [] (adj !! u) ++ (filter (λ e, e.1 = u) es).*2.
Proof.
  revert deg adj. induction es as [|[a b] es IH]; intros deg adj; csimpl.
  { intros [= <- <-] _. split; [intros v; destruct (deg !! v); csimpl; [f_equal; lia|done]|intros u; by rewrite app_nil_r]. }
  intros Hf Hd. destruct (Hd (a, b)) as [d Hb]; [by left|]. csimpl in Hb.
  destruct (IH _ _ Hf) as [H1 H2].
  { intros e He. csimpl. destruct (decide (b = e.2)) as [->|]; [by rewrite lookup_insert_eq|].
    rewrite lookup_insert_ne by done. apply Hd. by right. }
  split.
  - intros v. rewrite H1. csimpl. rewrite filter_cons; csimpl. destruct (decide (b = v)) as [<-|Hne]; csimpl.
    + rewrite lookup_insert_eq, Hb. csimpl. f_equal. lia.
    + by rewrite lookup_insert_ne.
  - intros u. rewrite H2. csimpl. rewrite filter_cons; csimpl. destruct (decide (a = u)) as [<-|Hne]; csimpl.
    + rewrite lookup_insert_eq. csimpl. by rewrite <- app_assoc.
    + by rewrite lookup_insert_ne.
Qed.

Section order.
Context (g : ExecutionGraph).
Let n := length (g_nodes g).

Lemma index_of_lookup id i : index_of g !! id = Some i → ∃ nd, g_nodes g !! i = Some nd ∧ x_id nd = id.
Proof.
  unfold index_of. intros Hi%elem_of_list_to_map_2. rewrite elem_of_reverse in Hi.
  apply elem_of_lookup_imap in Hi as (j & nd & [= -> ->] & Hj). eauto.
Qed.
Lemma index_of_node i nd : NoDup (node_ids g) → g_nodes g !! i = Some nd → index_of g !! x_id nd = Some i.
Proof.
  intros Hnd Hi. unfold index_of. apply elem_of_list_to_map_1.
  - rewrite fmap_reverse, reverse_Permutation. replace ((imap _ (g_nodes g)).*1) with (node_ids g); [done|].
    unfold node_ids. apply list_eq. intros j. rewrite !list_lookup_fmap, list_lookup_imap. by destruct (g_nodes g !! j).
  - rewrite elem_of_reverse. apply elem_of_lookup_imap. eauto.
Qed.
Lemma index_edges_range i j : (i, j) ∈ index_edges g → i ∈ seq 0 n ∧ j ∈ seq 0 n.
Proof.
  intros (e & He & Hij)%list_elem_of_omap. repeat case_match; simplify_eq.
  rewrite !elem_of_seq. unfold n.
  repeat match goal with H : index_of g !! _ = Some _ |- _ =>
    apply index_of_lookup in H as (? & ?%lookup_lt_Some & _) end. lia.
Qed.
Lemma index_edge_gedge i j a b :
  NoDup (node_ids g) → g_nodes g !! i = Some a → g_nodes g !! j = Some b →
  (i, j) ∈ index_edges g ↔ gedge g (x_id a) (x_id b).
Proof.
  intros Hnd Ha Hb. unfold index_edges. rewrite list_elem_of_omap. unfold gedge. split.
  - intros (e & He & Hij). repeat case_match; simplify_eq.
    repeat match goal with H : index_of g !! _ = Some _ |- _ =>
      apply index_of_lookup in H as (? & ? & ?) end. simplify_eq. eauto.
  - intros (e & He & Hf & Ht). exists e. split; [done|]. rewrite Hf, Ht.
    by rewrite (index_of_node i a), (index_of_node j b).
Qed.

(** What Kahn's loop is run on *)
Lemma topological_order_loop : ∃ order,
  topological_order g = (if decide (length order = n) then order else seq 0 n) ∧
  NoDup order ∧ (∀ u v, (u, v) ∈ index_edges g → v ∈ order → precedes u v order) ∧
  ∀ v, v ∈ order ↔ v ∈ seq 0 n ∧ ∀ u, (u, v) ∈ index_edges g → u ∈ order.
Proof.
  unfold topological_order. destruct (foldl add_index_edge _ _) as [deg adj] eqn:Hf.
  assert (∀ i : nat, (list_to_map ((λ i, (i, O)) <$> seq 0 (length (g_nodes g))) : gmap nat nat) !! i =
    if decide (i ∈ seq 0 n) then Some O else None) as Hzero.
  { intros i. case_decide as Hi.
    - apply elem_of_list_to_map_1; [|by apply (list_elem_of_fmap_2 (λ i, (i, O)))].
      rewrite <- list_fmap_compose. rewrite list_fmap_id. apply NoDup_seq.
    - apply not_elem_of_list_to_map_1. rewrite <- list_fmap_compose, list_fmap_id. done. }
  apply index_edges_build in Hf as [Hdeg Hadj].
  2:{ intros [i j] He%index_edges_range. csimpl. rewrite Hzero, decide_True by apply He. done. }
  assert (∀ v, v ∈ seq 0 n → deg !! v = Some (pending (index_edges g) [] v)) as Hdeg'.
  { intros v Hv. rewrite Hdeg, Hzero, decide_True by done. csimpl. f_equal. unfold pending.
    f_equal. apply list_filter_iff. intros e. set_solver. }
  exists (stack_loop adj (length (seq 0 n)) (reverse (filter (λ i, deg !! i = Some O) (seq 0 n))) [] deg).
  split; [unfold n; by rewrite length_seq|].
  eapply (stack_run adj (index_edges g) (seq 0 n) (NoDup_seq _ _) index_edges_range); [|exact Hdeg'| | |reflexivity].
  - intros u. rewrite Hadj. by rewrite lookup_empty.
  - rewrite reverse_Permutation. apply NoDup_filter, NoDup_seq.
  - intros v. rewrite elem_of_reverse, list_elem_of_filter. split.
    + intros [Hz Hv]. split; [done|]. rewrite Hdeg' in Hz by done. congruence.
    + intros [Hv Hz]. split; [|done]. by rewrite Hdeg', Hz.
Qed.
(** The indices of the graph, each once *)
Lemma topological_order_perm : topological_order g ≡ₚ seq 0 n.
Proof.
  destruct topological_order_loop as (order & -> & Hnd & _ & Hin). case_decide as Hl; [|done].
  apply submseteq_length_Permutation; [|by rewrite length_seq, Hl].
  apply NoDup_submseteq; [done|]. intros v Hv. by apply Hin.
Qed.
Lemma ordered_nodes_perm : ordered_nodes g ≡ₚ g_nodes g.
Proof.
  unfold ordered_nodes. rewrite topological_order_perm. subst n. generalize (g_nodes g). clear.
  intros l. assert (∀ pre, omap (λ i, (pre ++ l) !! i) (seq (length pre) (length l)) = l) as H; [|specialize (H []); csimpl in H; by rewrite H].
  induction l as [|x l IH]; intros pre; cbn [length seq omap list_omap]; [done|].
  rewrite lookup_app_r, Nat.sub_diag by done. csimpl. f_equal.
  specialize (IH (pre ++ [x])). rewrite length_app, <- app_assoc in IH. csimpl in IH. by rewrite Nat.add_comm in IH.
Qed.
Lemma precedes_omap {A B} (f : A → option B) u v a b l :
  f u = Some a → f v = Some b → precedes u v l → precedes a b (omap f l).
Proof.
  intros Hu Hv (l1 & l2 & -> & Hin). exists (omap f l1), (omap f l2).
  rewrite omap_app. cbn [omap list_omap]. rewrite Hv. split; [done|]. apply list_elem_of_omap. eauto.
Qed.
(** Without a cycle every node comes after its predecessors. *)
Lemma ordered_nodes_precede u v :
  plain_dag g → gedge g u v → precedes u v (x_id <$> ordered_nodes g).
Proof.
  intros Hg He. destruct (dag_closed g Hg u v He) as [Hu Hv].
  apply list_elem_of_fmap in Hu as (a & -> & [i Hi]%list_elem_of_lookup).
  apply list_elem_of_fmap in Hv as (b & -> & [j Hj]%list_elem_of_lookup).
  pose proof (dag_ids g Hg) as Hnd. pose proof (proj2 (index_edge_gedge i j a b Hnd Hi Hj) He) as Hij.
  destruct topological_order_loop as (order & Ho & Hnd' & Hpre & Hin).
  assert (∀ v, v ∈ seq 0 n → v ∈ order) as Hall.
  { apply (kahn_complete (index_edges g) (seq 0 n) index_edges_range); [done|]. intros w Hw.
    assert (∀ x y, tc (λ u v, (u, v) ∈ index_edges g) x y → ∃ c d, g_nodes g !! x = Some c ∧ g_nodes g !! y = Some d ∧
      tc (gedge g) (x_id c) (x_id d)) as Htc.
    { clear -Hnd n. intros x y Hxy. induction Hxy as [x y Hxy|x y z Hxy _ (c & d & Hc & Hd & IH)].
      - destruct (index_edges_range _ _ Hxy) as [Hx Hy]. rewrite elem_of_seq in Hx, Hy.
        destruct (lookup_lt_is_Some_2 (g_nodes g) x) as [c Hc]; [unfold n in *; lia|].
        destruct (lookup_lt_is_Some_2 (g_nodes g) y) as [d Hd]; [unfold n in *; lia|].
        exists c, d. split_and!; [done..|]. apply tc_once. by apply (index_edge_gedge x y).
      - destruct (index_edges_range _ _ Hxy) as [Hx _]. rewrite elem_of_seq in Hx.
        destruct (lookup_lt_is_Some_2 (g_nodes g) x) as [b Hb]; [unfold n in *; lia|].
        exists b, d. split_and!; [done..|]. eapply tc_l; [|done]. by apply (index_edge_gedge x y). }
    destruct (Htc w w Hw) as (c & d & Hc & Hd & Hcd). simplify_eq. by apply (dag_acyclic g Hg (x_id c)). }
  assert (length order = n) as Hl.
  { transitivity (length (seq 0 n)); [|apply length_seq].
    apply Nat.le_antisymm; apply submseteq_length, NoDup_submseteq; [done|intros w Hw; by apply Hin|apply NoDup_seq|done]. }
  unfold ordered_nodes. rewrite Ho, decide_True by done.
  assert (precedes a b (omap (λ i, g_nodes g !! i) order)) as (l1 & l2 & -> & Ha).
  { eapply precedes_omap; [done|done|]. apply Hpre; [done|]. apply Hall. by apply (index_edges_range _ _ Hij). }
  exists (x_id <$> l1), (x_id <$> l2). rewrite fmap_app, fmap_cons. split; [done|]. by apply list_elem_of_fmap_2.
Qed.
End order.

(** ** The execution plane *)
Record ExecuteWorkflowRequest := mkExecute {
  trigger_name : string; ew_kind : string; ew_intent : string; ew_payload : json; ew_workflow : WorkflowIR }.
Record EventLog := mkLog { el_seq : Z; el_events : list ExecutionEventEnvelope }.
Definition log_new : EventLog := mkLog 0 [].
Definition kind_text (k : ExecutionNodeKind) : string :=
  match k with
  | LLMGenerate => "LLMGenerate" | LLMReview => "LLMReview" | LLMJudge => "LLMJudge" | XTransform => "Transform"
  | XGate => "Gate" | XConditional => "Conditional" | XLoop => "Loop" | XSplit => "Split" | XJoin => "Join"
  | XBarrier => "Barrier"
  end.

Section plane.
Context `{!HashIter string} `{!HashIter N}.
Context (json_to_string : json → string).
Context (new_v5 : Uuid → string → Uuid) (uuid_display : Uuid → string).
Context (decode : string → result string PolicyDeclaration).
(** What the plane holds: the compiler's catalog and resource manager, the
    policies, the scheduler and the executor's answers in this run. *)
Context (catalog : ModelCatalog) {M : Type} `{!HostResourceManager M} (manager : M).
Context (registry : PolicyRegistry) (scheduler : HostScheduler).
Context (run_node : nat → ExecutionNode → NodeExecContext → NodeExecutionResult).
Context (completions : list (Uuid * NodeExecutionResult)) (elapsed : Z) (fuel : nat).
(** The hash of an event, the time each is made at, the total time, and the
    [Debug] of a node's state. *)
Context (event_hash : string → string → Z → Z → string) (clock : Z → Z) (total_ms : Z).
Context (state_debug : option NodeState → string).
(** The fresh identities of this execution. *)
Context (execution session reservation instance : Uuid) (now : Z).
Context {S : Type} `{!SessionStore S}.

Definition emit (wf : string) (e : ExecutionEvent) (l : EventLog) : EventLog :=
  let seq := el_seq l + 1 in
  mkLog seq (el_events l ++ [envelope_of event_hash (clock seq) wf (uuid_to_string execution) None seq None e]).

Definition scheduled_event (g : ExecutionGraph) (n : ExecutionNode) : ExecutionEvent :=
  NodeScheduled (uuid_to_string (x_id n)) (kind_text (x_kind n))
    ((λ e, uuid_to_string (x_from e)) <$> filter (λ e, x_to e = x_id n) (g_edges g)).
Definition started_event (n : ExecutionNode) : ExecutionEvent :=
  NodeStarted (uuid_to_string (x_id n)) (if decide (x_model n = "") then None else Some (x_model n)).
Definition finished_event (n : ExecutionNode) : ExecutionEvent := NodeFinished (uuid_to_string (x_id n)) 0 0 0.
Fixpoint report_nodes (wf : string) (g : ExecutionGraph) (i : ExecutionInstance) (ns : list ExecutionNode)
    (outputs : list (string * json)) (l : EventLog) : result ExecutionError (list (string * json)) * EventLog :=
  match ns with
  | [] => (Ok outputs, l)
  | n :: ns =>
      let id := uuid_to_string (x_id n) in
      let l := emit wf (started_event n) (emit wf (scheduled_event g n) l) in
      match in_node_states i !! x_id n with
      | Some Succeeded =>
          report_nodes wf g i ns (obj_insert id (default (JObject []) (in_outputs i !! x_id n)) outputs)
            (emit wf (finished_event n) l)
      | other =>
          let error := "node " +:+ id +:+ " ended in unexpected state " +:+ state_debug other in
          (Err (mkExecutionError KindUpstream error), emit wf (WorkflowFailed error (Some id)) l)
      end
  end.

(** The first node in topological order that failed *)
Definition failed_node (i : ExecutionInstance) (ns : list ExecutionNode) : string * string :=
  default ("unknown", "execution failed without a failed node")
    (head (omap (λ n, match in_node_states i !! x_id n with
                      | Some (Failed m) => Some (uuid_to_string (x_id n), m)
                      | _ => None
                      end) ns)).
Definition execution_response (wf : string) (l : EventLog) (outputs : list (string * json)) : json :=
  JObject (obj_of_list [("execution_id", JString (uuid_to_string execution)); ("session_id", JString (uuid_to_string session));
    ("workflow_id", JString wf); ("status", JString "completed"); ("events_emitted", JNumber (PosInt (el_seq l)));
    ("node_outputs", JObject outputs)]).
(** After the run *)
Definition report (wf : string) (g : ExecutionGraph) (res : ExecutionResult) (i : ExecutionInstance) (l : EventLog)
    : result ExecutionError json * EventLog :=
  let order := ordered_nodes g in
  if er_success res then
    match report_nodes wf g i order [] l with
    | (Ok outputs, l) =>
        let l := emit wf (WorkflowCompleted total_ms (er_total_cost res)) l in
        (Ok (execution_response wf l outputs), l)
    | (Err e, l) => (Err e, l)
    end
  else
    let '(id, error) := failed_node i order in
    (Err (mkExecutionError KindUpstream ("node " +:+ id +:+ " failed: " +:+ error)),
     emit wf (WorkflowFailed error (Some id)) (emit wf (NodeFailed id error 0) l)).
Definition plane_compile (ir : WorkflowIR) : result ExecutionError ExecutionGraph :=
  policy ← map_err (λ e, mkExecutionError KindPolicy ("policy configuration rejected: " +:+ e)) (policy_ir decode registry);
  map_err (λ e, match e with
    | ValidationError pass _ m =>
        mkExecutionError KindValidation ("workflow validation failed in pass '" +:+ pass +:+ "': " +:+ compiler_msg_display m)
    | _ => mkExecutionError KindCompilation ("compilation failed: " +:+ compiler_error_display e)
    end)
    (host_compile json_to_string new_v5 uuid_display
       (host_build_compiler json_to_string new_v5 catalog manager policy) ir).
(** [None]: still running after [fuel] turns of the scheduler. *)
Definition execute_typed_with_cancellation (r : ExecuteWorkflowRequest) (token : CancellationToken) (store : S)
    : option (result ExecutionError json * EventLog * S) :=
  let ir := ew_workflow r in
  let wf := uuid_to_string (plan_id ir) in
  match lifecycle_create session now (trigger_name r) (plan_id ir) store with
  | (Err e, store) => Some (Err (mkExecutionError KindInternal ("session creation failed: " +:+ e)), log_new, store)
  | (Ok _, store) =>
      let l := emit wf (WorkflowStarted (ew_intent r) 0) log_new in
      match plane_compile ir with
      | Err e => Some (Err e, l, store)
      | Ok g =>
          let l := emit wf (WorkflowCompiled (length (g_nodes g)) (length (g_edges g)) (primitive_graph_hash g)) l in
          run ← run_crates scheduler run_node elapsed fuel completions (schedule g reservation instance now) (Some token);
          Some match run with
               | Err e => (Err (mkExecutionError KindScheduling ("scheduling failed: " +:+ host_scheduler_error e)), l, store)
               | Ok (res, i) => (report wf g res i l, store)
               end
      end
  end.
End plane.
(** [build_execution_plane_with_optimization] runs the plane on a scheduler of
    its own, with at least one node at a time. *)
Definition plane_scheduler (max_concurrent_nodes : Z) : HostScheduler :=
  host_scheduler_new (Z.to_nat (Z.max max_concurrent_nodes 1)).
Definition DEFAULT_EXECUTION_CONCURRENCY : Z := 4.
(** [execute_workflow_handler]: the status and body of the answer. *)
Definition handler_answer (r : result ExecutionError json) : Z * json :=
  match r with
  | Ok v => (200, v)
  | Err e => (status_code e, JObject [("error", JString (public_message e))])
  end.

(** ** Runs without a budget *)
Section verdict.
Context `{!HashIter N} (scheduler : HostScheduler).
Context (run_node : nat → ExecutionNode → NodeExecContext → NodeExecutionResult).
Context (Hrun : ∀ k n c, r_state (run_node k n c) = Succeeded ∨ ∃ m, r_state (run_node k n c) = Failed m).
Context (Hmax : (0 < hs_max_concurrent scheduler)%nat).

Lemma future_decided cancel k n c :
  r_state (node_future run_node cancel k n c) = Succeeded ∨ ∃ m, r_state (node_future run_node cancel k n c) = Failed m.
Proof using Hrun.
  unfold node_future. destruct cancel as [t|]; [|apply Hrun]. destruct (cancelled_during t k); [|apply Hrun]. csimpl. eauto.
Qed.
(** Without a budget and with an executor that decides every node, a plain
    run succeeds exactly when all nodes do, and otherwise some node failed. *)
Lemma unmetered_run instance cancel elapsed fuel completions :
  plain_dag (in_graph instance) → in_budget_envelope instance = None →
  (length (g_nodes (in_graph instance)) < fuel)%nat →
  ∃ r, run_crates scheduler run_node elapsed fuel completions instance cancel = Some r ∧
    match r with
    | Err e => e = SchedulerInternal "Request cancelled by client" ∧ ∃ t k, cancel = Some t ∧ cancelled_at_wave t k = true
    | Ok (res, i) =>
        if er_success res then ∀ n, n ∈ g_nodes (in_graph instance) →
          in_node_states i !! x_id n = Some Succeeded ∧ produced (in_graph instance) run_node cancel (in_outputs i) (x_id n)
        else ∃ n m, n ∈ g_nodes (in_graph instance) ∧ in_node_states i !! x_id n = Some (Failed m)
    end.
Proof using Hrun Hmax.
  intros Hg Hb Hf. unfold run_crates.
  destruct (crates_run_inner scheduler run_node elapsed fuel instance cancel) as (c & ->). rewrite Hb.
  destruct (run_inner_dag (in_graph instance) (crates_scheduler scheduler) run_node cancel None elapsed fuel c)
    as (r & Hr & Ho); [done|by rewrite crates_max_concurrent| |done|].
  { intros k n ctx. by destruct (Hrun k n ctx) as [->|[m ->]]. }
  cbn [fmap option_fmap option_map]. rewrite Hr. csimpl. eexists. split; [done|].
  destruct Ho as [[-> Hc]|[(o & -> & _ & Hne)|(s & -> & Hinv & Hall)]];
    [split; [done|by eapply cancelled_by_token]|done|].
  pose proof (finish_ok _ run_node cancel elapsed s Hinv Hall) as [Hterm _].
  assert (∀ n, n ∈ g_nodes (in_graph instance) → ∀ i0 : gmap Uuid NodeState, (node_states s ∪ i0) !! x_id n = node_states s !! x_id n) as Hl.
  { intros n Hn i0. specialize (Hterm (x_id n) (list_elem_of_fmap_2 _ _ _ Hn)). csimpl in Hterm.
    destruct (node_states s !! x_id n) as [st|] eqn:E; [by apply lookup_union_Some_l|done]. }
  assert (∀ v, node_states s !! v ≠ Some Skipped) as Hskip.
  { intros v (k & n & ctx & Hk)%(ri_skipped _ _ _ _ _ Hinv). by destruct (future_decided cancel k n ctx) as [E|[m E]]; rewrite E in Hk. }
  unfold result_of, overlay. csimpl. destruct (forallb _ _) eqn:Hall2.
  - intros n Hn. rewrite (Hl n Hn). rewrite forallb_forall in Hall2. specialize (Hall2 n (proj1 (list_elem_of_In _ _) Hn)).
    specialize (Hskip (x_id n)). destruct (node_states s !! x_id n) as [[]|] eqn:E; try done.
    split; [done|]. by apply (ri_produced _ _ _ _ _ Hinv).
  - assert (¬ Forall (λ n, match node_states s !! x_id n with Some (Succeeded | Skipped) => true | _ => false end = true)
      (g_nodes (in_graph instance))) as Hex.
    { intros Hf'. rewrite Forall_forall in Hf'. assert (∀ b, b = true → b = false → False) as Hb' by congruence.
      eapply Hb'; [|exact Hall2]. apply forallb_forall. intros n Hn%list_elem_of_In. by apply Hf'. }
    apply not_Forall_Exists, Exists_exists in Hex as (n & Hn & Hno); [|apply _]. exists n.
    rewrite (Hl n Hn). specialize (Hterm (x_id n) (list_elem_of_fmap_2 _ _ _ Hn)). csimpl in *.
    destruct (node_states s !! x_id n) as [[]|]; try done. eauto.
Qed.
End verdict.

(** ** The answer and the events *)
Section reported.
Context `{!HashIter string} `{!HashIter N}.
Context (json_to_string : json → string).
Context (new_v5 : Uuid → string → Uuid) (uuid_display : Uuid → string).
Context (decode : string → result string PolicyDeclaration).
Context (catalog : ModelCatalog) {M : Type} `{!HostResourceManager M} (manager : M).
Context (registry : PolicyRegistry) (scheduler : HostScheduler).
Context (run_node : nat → ExecutionNode → NodeExecContext → NodeExecutionResult).
Context (completions : list (Uuid * NodeExecutionResult)) (elapsed : Z) (fuel : nat).
Context (event_hash : string → string → Z → Z → string) (clock : Z → Z) (total_ms : Z).
Context (state_debug : option NodeState → string).
Context (execution session reservation instance : Uuid) (now : Z).
Context {S : Type} `{!SessionStore S}.

Definition emit_all (wf : string) (es : list ExecutionEvent) (l : EventLog) : EventLog :=
  foldl (λ l e, emit event_hash clock execution wf e l) l es.
(** Events carry the identities of the execution and are numbered from one
    without gaps. *)
Definition numbered (wf : string) (l : EventLog) : Prop :=
  el_seq l = Z.of_nat (length (el_events l)) ∧
  ∀ k ev, el_events l !! k = Some ev →
    sequence_number ev = Z.of_nat k + 1 ∧ ev_workflow_id ev = wf ∧ ev_execution_id ev = uuid_to_string execution.
Lemma numbered_new wf : numbered wf log_new.
Proof. split; [done|]. by intros []. Qed.
Lemma emit_all_app wf es es' l : emit_all wf (es ++ es') l = emit_all wf es' (emit_all wf es l).
Proof. apply foldl_app. Qed.
Lemma emit_all_spec wf es l :
  numbered wf l → numbered wf (emit_all wf es l) ∧
    payload <$> el_events (emit_all wf es l) = (payload <$> el_events l) ++ es.
Proof.
  revert l. induction es as [|e es IH]; intros l [Hs Hn]; [by rewrite app_nil_r|].
  destruct (IH (emit event_hash clock execution wf e l)) as [H1 H2].
  { split; csimpl; [rewrite length_app; csimpl; lia|]. intros k ev [Hk|[Hk Hev]]%lookup_app_Some; [by apply Hn|].
    destruct (k - _)%nat as [|j] eqn:Hj; [|done]. injection Hev as <-. csimpl. split_and!; [lia|done..]. }
  split; [exact H1|]. etrans; [exact H2|]. csimpl. by rewrite fmap_app, <- app_assoc.
Qed.

Definition node_events (g : ExecutionGraph) (n : ExecutionNode) : list ExecutionEvent :=
  [scheduled_event g n; started_event n; finished_event n].
Lemma length_node_events g ns : length (ns ≫= node_events g) = (3 * length ns)%nat.
Proof. induction ns as [|n ns IH]; [done|]. rewrite bind_cons, length_app, IH. csimpl. lia. Qed.
Definition node_output (i : ExecutionInstance) (n : ExecutionNode) : string * json :=
  (uuid_to_string (x_id n), default (JObject []) (in_outputs i !! x_id n)).
Lemma report_nodes_all wf g i ns outs l :
  (∀ n, n ∈ ns → in_node_states i !! x_id n = Some Succeeded) →
  report_nodes event_hash clock state_debug execution wf g i ns outs l =
    (Ok (foldl (λ m kv, obj_insert kv.1 kv.2 m) outs (node_output i <$> ns)), emit_all wf (ns ≫= node_events g) l).
Proof.
  revert outs l. induction ns as [|n ns IH]; intros outs l Hs; [done|]. cbn [report_nodes]. rewrite Hs by left.
  rewrite IH by (intros m Hm; apply Hs; by right). done.
Qed.
Lemma failed_node_spec i ns n m :
  n ∈ ns → in_node_states i !! x_id n = Some (Failed m) →
  ∃ n' m', n' ∈ ns ∧ in_node_states i !! x_id n' = Some (Failed m') ∧ failed_node i ns = (uuid_to_string (x_id n'), m').
Proof.
  intros Hn Hm. unfold failed_node. destruct (omap _ ns) as [|[id m'] l] eqn:Ho.
  - exfalso. assert ((uuid_to_string (x_id n), m) ∈ ([] : list (string * string))) as Hin; [|by apply elem_of_nil in Hin].
    rewrite <- Ho. apply list_elem_of_omap. exists n. split; [done|]. by rewrite Hm.
  - assert ((id, m') ∈ (id, m') :: l) as Hin by left. rewrite <- Ho in Hin. apply list_elem_of_omap in Hin as (n' & Hn' & Hs).
    repeat case_match; simplify_eq. eauto 6.
Qed.

(** What a run that ends promises: the answer and the events after compilation *)
Inductive run_outcome (wf : string) (token : CancellationToken) (g : ExecutionGraph) :
    result ExecutionError json → list ExecutionEvent → Prop :=
| ro_cancelled k :
    cancelled_at_wave token k = true →
    run_outcome wf token g (Err (mkExecutionError KindScheduling
      "scheduling failed: Internal error: Request cancelled by client")) []
| ro_failed n m :
    n ∈ g_nodes g →
    run_outcome wf token g
      (Err (mkExecutionError KindUpstream ("node " +:+ uuid_to_string (x_id n) +:+ " failed: " +:+ m)))
      [NodeFailed (uuid_to_string (x_id n)) m 0; WorkflowFailed m (Some (uuid_to_string (x_id n)))]
| ro_completed ns outs cost l :
    ns ≡ₚ g_nodes g → (∀ u v, gedge g u v → precedes u v (x_id <$> ns)) →
    (∀ n, n ∈ ns → produced g run_node (Some token) outs (x_id n)) →
    el_seq l = 3 * Z.of_nat (length ns) + 3 →
    run_outcome wf token g
      (Ok (execution_response execution session wf l
         (obj_of_list ((λ n, (uuid_to_string (x_id n), default (JObject []) (outs !! x_id n))) <$> ns))))
      ((ns ≫= node_events g) ++ [WorkflowCompleted total_ms cost]).

(** What the API promises about a request: answer, events in order, session. *)
Inductive execution_outcome (r : ExecuteWorkflowRequest) (token : CancellationToken) (store : S) :
    result ExecutionError json → list ExecutionEvent → S → Prop :=
| eo_no_session e store' :
    lifecycle_create session now (trigger_name r) (plan_id (ew_workflow r)) store = (Err e, store') →
    execution_outcome r token store (Err (mkExecutionError KindInternal ("session creation failed: " +:+ e))) [] store'
| eo_rejected e s store' :
    lifecycle_create session now (trigger_name r) (plan_id (ew_workflow r)) store = (Ok s, store') →
    plane_compile json_to_string new_v5 uuid_display decode catalog manager registry (ew_workflow r) = Err e →
    execution_outcome r token store (Err e) [WorkflowStarted (ew_intent r) 0] store'
| eo_compiled g s store' answer tail :
    lifecycle_create session now (trigger_name r) (plan_id (ew_workflow r)) store = (Ok s, store') →
    plane_compile json_to_string new_v5 uuid_display decode catalog manager registry (ew_workflow r) = Ok g →
    run_outcome (uuid_to_string (plan_id (ew_workflow r))) token g answer tail →
    execution_outcome r token store answer
      (WorkflowStarted (ew_intent r) 0 ::
       WorkflowCompiled (length (g_nodes g)) (length (g_edges g)) (primitive_graph_hash g) :: tail) store'.

Lemma plane_compile_plain ir g :
  plain_plan new_v5 ir →
  plane_compile json_to_string new_v5 uuid_display decode catalog manager registry ir = Ok g →
  plain_dag g ∧ (length (g_nodes g) ≤ 2 * length (ir_nodes ir))%nat.
Proof.
  intros Hir. unfold plane_compile. destruct (policy_ir decode registry) as [policy|e]; csimpl; [|done].
  destruct (host_compile _ _ _ _ ir) as [g'|e] eqn:Hc; csimpl; [|done]. intros [= ->].
  by eapply plain_plan_lowers.
Qed.
Lemma execution_runs r token g :
  plane_compile json_to_string new_v5 uuid_display decode catalog manager registry (ew_workflow r) = Ok g →
  plain_dag g → (length (g_nodes g) < fuel)%nat → (0 < hs_max_concurrent scheduler)%nat →
  (∀ k n c, r_state (run_node k n c) = Succeeded ∨ ∃ m, r_state (run_node k n c) = Failed m) →
  let wf := uuid_to_string (plan_id (ew_workflow r)) in
  let head := [WorkflowStarted (ew_intent r) 0; WorkflowCompiled (length (g_nodes g)) (length (g_edges g)) (primitive_graph_hash g)] in
  ∃ run, run_crates scheduler run_node elapsed fuel completions (schedule g reservation instance now) (Some token) = Some run ∧
    ∃ answer tail,
      match run with
      | Err e => (Err (mkExecutionError KindScheduling ("scheduling failed: " +:+ host_scheduler_error e)), emit_all wf head log_new)
      | Ok (res, i) => report event_hash clock total_ms state_debug execution session wf g res i (emit_all wf head log_new)
      end = (answer, emit_all wf (head ++ tail) log_new) ∧ run_outcome wf token g answer tail.
Proof.
  intros Hc Hg Hfuel Hmax Hrun wf head.
  destruct (unmetered_run scheduler run_node Hrun Hmax (schedule g reservation instance now) (Some token) elapsed fuel completions)
    as (run & Hr & Ho); [done..|].
  exists run. split; [done|].
  destruct run as [[res i]|e].
  - unfold report. destruct (er_success res).
    + rewrite report_nodes_all by (intros n Hn; apply Ho; by rewrite <- ordered_nodes_perm).
      eexists _, ((ordered_nodes g ≫= node_events g) ++ [_]). split; [rewrite !emit_all_app; reflexivity|].
      apply ro_completed.
      * apply ordered_nodes_perm.
      * intros u v. by apply ordered_nodes_precede.
      * intros n Hn. apply Ho. by rewrite <- ordered_nodes_perm.
      * set (es := (head ++ (ordered_nodes g ≫= node_events g)) ++ [WorkflowCompleted total_ms (er_total_cost res)]).
        transitivity (el_seq (emit_all wf es log_new)); [unfold es; by rewrite !emit_all_app|].
        destruct (emit_all_spec wf es log_new (numbered_new wf)) as [[-> _] Hp].
        apply (f_equal length) in Hp. rewrite length_fmap in Hp. rewrite Hp. unfold es.
        csimpl. rewrite !length_app. csimpl. rewrite length_node_events. lia.
    + destruct Ho as (n & m & Hn & Hm). rewrite <- ordered_nodes_perm in Hn.
      destruct (failed_node_spec i (ordered_nodes g) n m Hn Hm) as (n' & m' & Hn' & _ & ->).
      eexists _, [_; _]. split; [rewrite emit_all_app; reflexivity|]. apply ro_failed. by rewrite <- ordered_nodes_perm.
  - destruct Ho as [-> (t & k & [= <-] & Hk)]. eexists _, []. split; [by rewrite app_nil_r|]. by eapply ro_cancelled.
Qed.

(** C4. Every execution of a workflow without loops, branches and parallel edges
    is answered and reported: the events are numbered from one
    without gaps under the execution's identities, and answer, events and
    session are as [execution_outcome] says: a run that completes reports every
    node of the compiled graph once, after all its predecessors, and answers
    with what the executor produced; a run that fails names a node that
    failed; only the client's token cancels. *)
Theorem execution_reported r token store :
  plain_plan new_v5 (ew_workflow r) → (2 * length (ir_nodes (ew_workflow r)) < fuel)%nat →
  (0 < hs_max_concurrent scheduler)%nat →
  (∀ k n c, r_state (run_node k n c) = Succeeded ∨ ∃ m, r_state (run_node k n c) = Failed m) →
  ∃ answer l store',
    execute_typed_with_cancellation json_to_string new_v5 uuid_display decode catalog manager registry scheduler run_node
      completions elapsed fuel event_hash clock total_ms state_debug execution session reservation instance now r token store =
      Some (answer, l, store') ∧
    numbered (uuid_to_string (plan_id (ew_workflow r))) l ∧
    execution_outcome r token store answer (payload <$> el_events l) store'.
Proof.
  intros Hplain Hfuel Hmax Hrun. unfold execute_typed_with_cancellation.
  set (wf := uuid_to_string (plan_id (ew_workflow r))).
 
  destruct (lifecycle_create _ _ _ _ store) as [[s|e] store'] eqn:Hl.
  2:{ eexists _, _, _. split; [done|]. split; [apply numbered_new|]. by apply eo_no_session. }
  destruct (plane_compile _ _ _ _ _ _ _ (ew_workflow r)) as [g|e] eqn:Hc.
  2:{ eexists _, _, _. split; [done|]. split; [|by eapply eo_rejected].
      by apply (emit_all_spec wf [WorkflowStarted (ew_intent r) 0] log_new (numbered_new wf)). }
  destruct (plane_compile_plain (ew_workflow r) g Hplain Hc) as [Hg Hf].
  destruct (execution_runs r token g Hc Hg ltac:(lia) Hmax Hrun) as (run & Hr & answer & tail & Hrep & Ho). rewrite Hr.
  destruct (emit_all_spec wf ([WorkflowStarted (ew_intent r) 0; WorkflowCompiled (length (g_nodes g)) (length (g_edges g))
    (primitive_graph_hash g)] ++ tail) log_new (numbered_new wf)) as [Hnum Hpay].
  exists answer, (emit_all wf ([WorkflowStarted (ew_intent r) 0; WorkflowCompiled (length (g_nodes g)) (length (g_edges g))
    (primitive_graph_hash g)] ++ tail) log_new), store'.
  split; [|split; [done|]].
  - cbn [mbind option_bind]. f_equal. destruct run as [[res i]|e]; exact (f_equal (λ p, (p, store')) Hrep).
  - rewrite Hpay. by eapply eo_compiled.
Qed.
End reported.

(** ** Where the API departs from what it means *)
(** A workflow rejected by a policy rule is answered as malformed, with 400:
    the policy pass reports a validation error like every other pass. *)
Theorem policy_denial_reported_as_malformed `{!HashIter string} `{!HashIter N} json_to_string new_v5 uuid_display decode catalog
    {M} `{!HostResourceManager M} (manager : M) registry ir p n m :
  policy_ir decode registry = Ok p →
  host_compile json_to_string new_v5 uuid_display (host_build_compiler json_to_string new_v5 catalog manager p) ir =
    Err (ValidationError "policy" n m) →
  ∃ e, plane_compile json_to_string new_v5 uuid_display decode catalog manager registry ir = Err e ∧
    handler_answer (Err e) = (400, JObject [("error", JString "invalid workflow specification")]).
Proof.
  intros Hp Hc. unfold plane_compile. rewrite Hp. csimpl. rewrite Hc. csimpl. by eexists.
Qed.

(** *** Examples *)
#[local] Instance api_iter_string : HashIter string := map_to_list_iter string.
#[local] Instance api_iter_N : HashIter N := map_to_list_iter N.
Definition api_node (k : nat) (n : ExecutionNode) (c : NodeExecContext) : NodeExecutionResult :=
  mkResult Succeeded None 0 (Some (JString "true")).
Definition api_request (ir : WorkflowIR) : ExecuteWorkflowRequest := mkExecute "cron" "timer" "report" JNull ir.
Definition api_token : CancellationToken := mkToken (λ _, false) (λ _, false).
Definition run_api (ir : WorkflowIR) : option (result ExecutionError json * EventLog * InMemorySessionStore) :=
  execute_typed_with_cancellation demo_json demo_name_v5 demo_display (λ _, Err "none") demo_catalog demo_manager
    (registry_new 0) (plane_scheduler 4) api_node [] 10 9 (λ _ _ _ _, "evt") (λ k, k) 10 (λ _, "") 50%N 51%N 52%N 53%N 0
    (api_request ir) api_token memory_new.
Definition api_plan (es : list IREdge) (k : IRNodeKind) : WorkflowIR :=
  mkIR 9 [mkIRNode 1 k Single (Some "m") ∅; mkIRNode 2 KGenerate Single (Some "m") ∅; mkIRNode 3 KGenerate Single (Some "m") ∅]
    es (mkIRMetadata [] 0 (from_nanos 0) 0).
(** A workflow with a branch cannot complete: the branch that was not taken has
    no state, so the run counts as failed although every node that ran
    succeeded, and the failure is reported for a node "unknown". *)
Theorem branch_fails_execution :
  match run_api (api_plan [mkIREdge 1 2 (Some "true"); mkIREdge 1 3 (Some "false")] KConditional) with
  | Some (answer, l, _) =>
      answer = Err (mkExecutionError KindUpstream "node unknown failed: execution failed without a failed node") ∧
      NodeFailed "unknown" "execution failed without a failed node" 0 ∈ payload <$> el_events l
  | None => False
  end.
Proof. vm_compute. split; [done|]. repeat (first [apply list_elem_of_here|apply list_elem_of_further]). Qed.
Definition api_chain : WorkflowIR := api_plan [mkIREdge 3 1 None; mkIREdge 1 2 None] KGenerate.
Lemma execution_reported_witness :
  ∃ answer l store', run_api api_chain = Some (answer, l, store') ∧
    numbered 50%N "00000000-0000-0000-0000-000000000009" l ∧
    execution_outcome demo_json demo_name_v5 demo_display (λ _, Err "none") demo_catalog demo_manager (registry_new 0)
      api_node 10 50%N 51%N 0 (api_request api_chain) api_token memory_new answer (payload <$> el_events l) store'.
Proof.
  apply (execution_reported demo_json demo_name_v5 demo_display (λ _, Err "none") demo_catalog demo_manager (registry_new 0)
    (plane_scheduler 4) api_node [] 10 9 (λ _ _ _ _, "evt") (λ k, k) 10 (λ _, "") 50%N 51%N 52%N 53%N 0
    (api_request api_chain) api_token memory_new).
  - split.
    + apply (bool_decide_eq_true_1 _). vm_compute. reflexivity.
    + apply (bool_decide_eq_true_1 _). vm_compute. reflexivity.
    + intros e [->|[->|[]%elem_of_nil]%elem_of_cons]%elem_of_cons; reflexivity.
    + intros n [->|[->|[->|[]%elem_of_nil]%elem_of_cons]%elem_of_cons]%elem_of_cons; done.
  - vm_compute. lia.
  - vm_compute. lia.
  - intros k n c. by left.
Defined.
