(* ===== verification/Sandbox.v ===== *)
(** * The sandbox of WebAssembly capabilities ([src/runtime])

    What a sandboxed guest can do to the world outside: the five host
    functions of the linker over the host services, the permission checks of
    the caller, the address checks of its HTTP requests, the limits on memory,
    fuel and output, and the life of an instance. A guest is any program over
    its memory, its globals and the imports; the engine that compiles bytes to
    such a program is a parameter, as are the environment, the name lookups,
    the servers and the event bus. Whatever guests and inputs are run, nothing
    happens outside that the caller's permissions do not allow, and memory,
    fuel and output stay within the limits ([guests_confined]). *)
From S2P Require Import Prelude Text Money Json ExecTypes Capability ShellTool HttpTool Utf8 Transport ProviderRouting ExecutionApi.
From Stdlib Require Import Ascii.
From Stdlib Require Import Floats.SpecFloat.
Open Scope stdpp_scope.
Open Scope Z_scope.

(** ** Errors *)
Inductive GateError := GateExecutionFailed (m : string) | ToolNotAvailable (m : string) | PermissionDenied (m : string).
Inductive RuntimeError :=
| CompilationFailed (m : string)
| OutOfMemory
| FuelExhausted
| ExecutionTrap (m : string)
| HostServiceError (service inner : string)
| NotSupported (m : string).

(** ** Permission checks ([policy.rs]) *)
Definition glob_match (pattern candidate : string) : bool :=
  if decide (pattern = candidate) then true else
  match strip_suffix_char "*"%char pattern with
  | Some prefix => starts_with prefix candidate
  | None => false
  end.
Fixpoint check_secret_access (permissions : list Permission) (secret_name : string) : result GateError unit :=
  match permissions with
  | [] => Err (PermissionDenied ("secret '" +:+ secret_name +:+ "' is not in the declared permission set"))
  | Secrets pattern :: rest => if glob_match pattern secret_name then Ok tt else check_secret_access rest secret_name
  | _ :: rest => check_secret_access rest secret_name
  end.
Fixpoint check_http_access (permissions : list Permission) (url : string) : result GateError unit :=
  match permissions with
  | [] => Err (PermissionDenied ("URL '" +:+ url +:+ "' is not in the declared permission set"))
  | Http pattern :: rest => if glob_match pattern url then Ok tt else check_http_access rest url
  | _ :: rest => check_http_access rest url
  end.

(** ** What happens outside a guest *)
Inductive LogLevel := LevelError | LevelWarn | LevelInfo | LevelDebug | LevelTrace.
Inductive Effect :=
| Published (e : ExecutionEventEnvelope)
| Logged (level : LogLevel) (message : string)
| Counted (requests : Z)
| SecretRead (name value : string)
| Requested (url : string) (addrs : list IpAddr).

(** [reqwest::Response]: the Location header when it is text, and the body. *)
Record Response := mkResponse { resp_location : option string; resp_body : result string (list ascii) }.

(** ** The host's interface ([host_services.rs]). A call is told how much has
    happened before it, so that bus, names and servers may answer differently
    each time. *)
Class CapabilityHostServices (H : Type) := {
  emit_event : H → nat → ExecutionEvent → result GateError unit * list Effect;
  host_log : H → LogLevel → string → list Effect;
  fetch_secret : H → string → result GateError string * list Effect;
  http_request : H → nat → Url → result GateError Response * list Effect;
  record_metric : H → string → f64 → list Effect;
}.

(** What a guest's host must promise: whatever it is asked, only permitted
    things happen. *)
Class ConfinedServices (H : Type) `{!CapabilityHostServices H} (permitted : H → Effect → Prop) := {
  emit_event_confined h n e : Forall (permitted h) (emit_event h n e).2;
  host_log_confined h l m : Forall (permitted h) (host_log h l m);
  fetch_secret_confined h s : Forall (permitted h) (fetch_secret h s).2;
  http_request_confined h n u : Forall (permitted h) (http_request h n u).2;
  record_metric_confined h s v : Forall (permitted h) (record_metric h s v);
}.

(** ** The host of capabilities ([wasmtime_host.rs]) *)
Record WasmtimeCapabilityHost := mkCapabilityHost {
  wh_execution_id : string;
  wh_workflow_id : string;
  wh_correlation_id : option string;
  caller_permissions : option (list Permission);
  caller_id : option CapabilityId;
}.
Definition host_new (execution workflow : string) (correlation : option string) : WasmtimeCapabilityHost :=
  mkCapabilityHost execution workflow correlation None None.
Definition with_caller `{SemVer} (execution workflow : string) (correlation : option string)
    (contract : CapabilityContract) : WasmtimeCapabilityHost :=
  mkCapabilityHost execution workflow correlation (Some (c_permissions contract)) (Some (c_id contract)).
Definition with_caller_permissions (self : WasmtimeCapabilityHost) (perms : list Permission) : WasmtimeCapabilityHost :=
  mkCapabilityHost (wh_execution_id self) (wh_workflow_id self) (wh_correlation_id self) (Some perms) (caller_id self).
Definition effective_permissions (self : WasmtimeCapabilityHost) : result GateError (list Permission) :=
  match caller_permissions self with
  | Some perms => Ok perms
  | None => Err (PermissionDenied "no caller identity bound to host — call denied (ADR-036)")
  end.

(** [Url::host_str]: IPv6 literals come in brackets, and so are no addresses
    to [parse::<IpAddr>]. *)
Definition host_str (h : Host) : string :=
  match h with
  | Domain d => d
  | Ip (V4 _ _ _ _ as ip) => ip_to_string ip
  | Ip ip => "[" +:+ ip_to_string ip +:+ "]"
  end.

Section host.
(** [std::env::var]; the [i]-th name lookup of a call; the exchange with a
    server; parsing and printing of URLs; the event bus, and the hash and clock
    of envelopes. *)
Context (env_var : string → option string).
Context (lookup : nat → nat → string → result string (list IpAddr)).
Context (execute : nat → list IpAddr → Url → result string Response).
Context (parse_url : string → result string Url) (url_to_string : Url → string).
Context (publish : nat → ExecutionEventEnvelope → result GateError unit).
Context (event_hash : string → string → Z → Z → string) (clock : nat → Z).

Definition by_name (n i : nat) (host : string) : result string unit :=
  addrs ← map_err (λ e, "DNS resolution failed for '" +:+ host +:+ "': " +:+ e) (lookup n i host);
  if decide (addrs = []) then Err ("URL host '" +:+ host +:+ "' resolved to no addresses")
  else try_for_each (λ ip, if is_blocked_ip ip
         then Err ("URL host '" +:+ host +:+ "' resolves to blocked address " +:+ ip_to_string ip)
         else Ok tt) addrs.
Definition validate_ssrf (n i : nat) (url : Url) : result string unit :=
  if negb (bool_decide (to_ascii_lowercase (url_scheme url) = "https")) then
    Err ("URL scheme '" +:+ url_scheme url +:+ "' is not allowed (https only)")
  else
  host ← ok_or "URL must have a host" (url_host url);
  match host with
  | Ip (V4 _ _ _ _ as ip) =>
      if is_blocked_ip ip then Err ("URL host '" +:+ host_str host +:+ "' resolves to a blocked address") else Ok tt
  | _ => by_name n i (host_str host)
  end.

Definition host_emit_event (self : WasmtimeCapabilityHost) (n : nat) (e : ExecutionEvent)
    : result GateError unit * list Effect :=
  let envelope := envelope_of event_hash (clock n) (wh_workflow_id self) (wh_execution_id self)
    (wh_correlation_id self) 0 None e in
  (publish n envelope, [Published envelope]).
Definition host_fetch_secret (self : WasmtimeCapabilityHost) (secret_name : string)
    : result GateError string * list Effect :=
  if decide (secret_name = "" ∨ secret_name = "*") then
    (Err (PermissionDenied "secret name must not be empty or '*'"), [])
  else
  match perms ← effective_permissions self; check_secret_access perms secret_name with
  | Err e => (Err e, [])
  | Ok _ =>
      match env_var secret_name with
      | Some value => (Ok value, [SecretRead secret_name value])
      | None => (Err (PermissionDenied ("secret '" +:+ secret_name +:+ "' not found in environment")), [])
      end
  end.

(** The checks after the response; redirects are off, so its URL is the one
    requested. *)
Definition check_response (n : nat) (url : Url) (response : Response) : result GateError Response :=
  _ ← map_err (λ m, PermissionDenied ("SSRF guard (final): " +:+ m)) (validate_ssrf n 2 url);
  match resp_location response with
  | Some location =>
      match parse_url location with
      | Ok loc_url =>
          _ ← map_err (λ m, PermissionDenied ("SSRF guard (redirect): " +:+ m)) (validate_ssrf n 3 loc_url);
          Ok response
      | Err _ => Ok response
      end
  | None => Ok response
  end.
Definition host_http_request (self : WasmtimeCapabilityHost) (n : nat) (url : Url)
    : result GateError Response * list Effect :=
  match perms ← effective_permissions self;
        _ ← check_http_access perms (url_to_string url);
        map_err (λ m, PermissionDenied ("SSRF guard: " +:+ m)) (validate_ssrf n 0 url) with
  | Err e => (Err e, [])
  | Ok _ =>
      match client_dial (lookup n) 1 url with
      | Err e => (Err (GateExecutionFailed ("HTTP request failed: " +:+ e)), [])
      | Ok addrs =>
          (response ← map_err (λ e, GateExecutionFailed ("HTTP request failed: " +:+ e)) (execute n addrs url);
           check_response n url response, [Requested (url_to_string url) addrs])
      end
  end.

(** [f64::max] against 0 on a finite value, then the cast. *)
Definition metric_increment (value : f64) : Z :=
  f64_as_u64 (if is_finite value then (if SFltb value f64_zero then f64_zero else value) else f64_zero).

#[local] Instance wasmtime_services : CapabilityHostServices WasmtimeCapabilityHost := {|
  emit_event := host_emit_event;
  host_log _ level message := [Logged level ("capability: " +:+ message)];
  fetch_secret := host_fetch_secret;
  http_request := host_http_request;
  record_metric _ _ value := [Counted (metric_increment value)];
|}.
End host.

(** ** Guests *)
Inductive HostCall :=
| CallEmitEvent (event_ptr event_len : Z)
| CallLog (level msg_ptr msg_len : Z)
| CallRecordMetric (name_ptr name_len : Z) (value : f64)
| CallFetchSecret (name_ptr name_len out_ptr out_len : Z)
| CallHttpRequest (req_ptr req_len resp_ptr resp_len : Z).

Inductive Trap := OutOfFuel | Interrupt | MemoryOutOfBounds | OtherTrap (code : nat).

(** What a function of a guest does next: it returns, traps (an interruption
    by the deadline is a trap too), computes, reads or writes a byte of one of
    its memories or its globals, grows a memory or a table, or calls the host. *)
Inductive Guest :=
| GReturn (first second : Z)
| GTrap (t : Trap)
| GTick (k : Guest)
| GLoad (i : nat) (addr : Z) (k : ascii → Guest)
| GStore (i : nat) (addr : Z) (b : ascii) (k : Guest)
| GGlobals (k : nat → Guest)
| GSetGlobals (g : nat) (k : Guest)
| GGrow (i : nat) (pages : Z) (k : Z → Guest)
| GGrowTable (i : nat) (elements : Z) (k : Z → Guest)
| GHost (c : HostCall) (k : Z → Guest).

(** A memory of a module: its pages, their maximum, and the bytes its data
    segments put at its start; and a table. *)
Record MemoryType := mkMemoryType { mt_pages : Z; mt_max_pages : Z; mt_data : list ascii }.
Record TableType := mkTableType { tt_elements : Z; tt_max_elements : Z }.
(** A function exported as [allocate]: of type [i32 → i32], from an [i32] to one
    result of another type, or of any other type. *)
Inductive AllocateExport :=
| AllocTyped (f : Z → Guest)
| AllocOtherResult (f : Z → Guest)
| AllocOtherType.
(** A module: its imports, memories, tables, exports and start function. The
    memory exported under the name of [memory] is given by its index. *)
Record Module := mkModule {
  md_imports : list (string * string);
  md_memories : list MemoryType;
  md_tables : list TableType;
  md_memory_exported : option nat;
  md_allocate : option AllocateExport;
  md_invoke : option (Z → Z → Guest);
  md_start : option Guest;
}.

(** ** Memory *)
Definition i32_as_usize (z : Z) : Z := z mod 2 ^ 64.
Definition as_i32 (z : Z) : Z := (z + 2 ^ 31) mod 2 ^ 32 - 2 ^ 31.
Definition to_le_bytes (z : Z) : list ascii :=
  (λ i, ascii_of_N (Z.to_N (Z.land (Z.shiftr z (8 * i)) 255))) <$> [0; 1; 2; 3].
Definition PAGE : Z := 65536.

Definition mem_read (mem : list ascii) (ptr len : Z) : option (list ascii) :=
  if ptr + len <=? Z.of_nat (length mem) then Some (take (Z.to_nat len) (drop (Z.to_nat ptr) mem)) else None.
Definition mem_write (mem : list ascii) (ptr : Z) (data : list ascii) : option (list ascii) :=
  if ptr + Z.of_nat (length data) <=? Z.of_nat (length mem)
  then Some (take (Z.to_nat ptr) mem ++ data ++ drop (Z.to_nat ptr + length data) mem) else None.

Record GuestState := mkGuestState {
  gs_memories : list (list ascii);
  gs_globals : nat;
  gs_tables : list Z;
  gs_growth_rejected : bool;
  gs_effects : list Effect;
}.
Definition set_memory (i : nat) (mem : list ascii) (s : GuestState) : GuestState :=
  mkGuestState (<[i := mem]> (gs_memories s)) (gs_globals s) (gs_tables s) (gs_growth_rejected s) (gs_effects s).
Definition set_globals (g : nat) (s : GuestState) : GuestState :=
  mkGuestState (gs_memories s) g (gs_tables s) (gs_growth_rejected s) (gs_effects s).
Definition set_rejected (b : bool) (s : GuestState) : GuestState :=
  mkGuestState (gs_memories s) (gs_globals s) (gs_tables s) b (gs_effects s).
Definition set_table (i : nat) (n : Z) (s : GuestState) : GuestState :=
  mkGuestState (gs_memories s) (gs_globals s) (<[i := n]> (gs_tables s)) (gs_growth_rejected s) (gs_effects s).
Definition happen (es : list Effect) (s : GuestState) : GuestState :=
  mkGuestState (gs_memories s) (gs_globals s) (gs_tables s) (gs_growth_rejected s) (gs_effects s ++ es).
Definition moment (s : GuestState) : nat := length (gs_effects s).

(** [ResourceLimiter for StoreData] *)
Definition memory_growing (memory_limit desired : Z) (s : GuestState) : bool * GuestState :=
  if memory_limit <? desired then (false, set_rejected true s) else (true, s).
Definition MAX_TABLE_ELEMENTS : Z := 10000.
Definition table_growing (desired : Z) : bool := desired <=? MAX_TABLE_ELEMENTS.
(** [table.grow] and [memory.grow] of one table or memory, which ask the
    limiter and keep to the maximum of its type. *)
Definition grow_table (m : Module) (i : nat) (elements : Z) (s : GuestState) : Z * GuestState :=
  match gs_tables s !! i, md_tables m !! i with
  | Some current, Some ty =>
      let wanted := current + elements mod 2 ^ 32 in
      if table_growing wanted && (wanted <=? tt_max_elements ty) then (current, set_table i wanted s) else (-1, s)
  | _, _ => (-1, s)
  end.
Definition grow (memory_limit : Z) (m : Module) (i : nat) (pages : Z) (s : GuestState) : Z * GuestState :=
  match gs_memories s !! i, md_memories m !! i with
  | Some mem, Some ty =>
      let current := Z.of_nat (length mem) / PAGE in
      let wanted := current + pages mod 2 ^ 32 in
      let '(ok, s) := memory_growing memory_limit (wanted * PAGE) s in
      if ok && (wanted <=? mt_max_pages ty)
      then (current, set_memory i (mem ++ replicate (Z.to_nat ((pages mod 2 ^ 32) * PAGE)) Ascii.zero) s)
      else (-1, s)
  | _, _ => (-1, s)
  end.

(** ** The linker ([linker.rs]) *)

(** A call of [http_request] that waits for the guest's [allocate], which
    answers an [i32] or not. *)
Record Frame := mkFrame { fr_body : list ascii; fr_i32 : bool; fr_resp_ptr : Z; fr_resp_len : Z; fr_resume : Z → Guest }.
Record Config := mkConfig { cf_guest : Guest; cf_frames : list Frame; cf_state : GuestState }.
Inductive Finish := Finished (first second : Z) | Trapped (t : Trap).

Section machine.
Context {H : Type} `{!CapabilityHostServices H} (host : H).
(** [serde_json::from_slice] of an event and [reqwest::Url::parse]. *)
Context (decode_event : list ascii → option ExecutionEvent) (parse_url : string → result string Url).
Context (memory_limit : Z) (m : Module).

(** [get_export("memory")] *)
Definition exported (s : GuestState) : option (nat * list ascii) :=
  i ← md_memory_exported m; mem ← gs_memories s !! i; Some (i, mem).
Definition read_memory (ptr len : Z) (s : GuestState) : option (list ascii) :=
  if (ptr <? 0) || (len <? 0) || (2 ^ 20 <? len) then None
  else '(_, mem) ← exported s; mem_read mem ptr len.
Definition lossy_string (bytes : list ascii) : string := String.string_of_list_ascii (from_utf8_lossy bytes).
Definition level_of (level : Z) : LogLevel :=
  match level with 0 => LevelError | 1 => LevelWarn | 2 => LevelInfo | 3 => LevelDebug | 4 => LevelTrace | _ => LevelInfo end.
(** A write to the exported memory, and whether it is within it. *)
Definition write_memory (ptr : Z) (data : list ascii) (s : GuestState) : bool * GuestState :=
  match exported s with
  | None => (false, s)
  | Some (i, mem) =>
      match mem_write mem (i32_as_usize ptr) data with
      | Some mem => (true, set_memory i mem s)
      | None => (false, s)
      end
  end.

Definition call_emit_event (event_ptr event_len : Z) (s : GuestState) : Z * GuestState :=
  match read_memory event_ptr event_len s ≫= decode_event with
  | None => (-1, s)
  | Some event =>
      let '(r, es) := emit_event host (moment s) event in
      (if is_ok r then 0 else -1, happen es s)
  end.
Definition call_log (level msg_ptr msg_len : Z) (s : GuestState) : GuestState :=
  match read_memory msg_ptr msg_len s with
  | None => s
  | Some bytes => happen (host_log host (level_of level) (lossy_string bytes)) s
  end.
Definition call_record_metric (name_ptr name_len : Z) (value : f64) (s : GuestState) : GuestState :=
  match read_memory name_ptr name_len s with
  | None => s
  | Some bytes => happen (record_metric host (lossy_string bytes) value) s
  end.
Definition call_fetch_secret (name_ptr name_len out_ptr out_len : Z) (s : GuestState) : Z * GuestState :=
  match read_memory name_ptr name_len s with
  | None => (-1, s)
  | Some bytes =>
      let '(r, es) := fetch_secret host (lossy_string bytes) in
      let s := happen es s in
      match r with
      | Err _ => (-1, s)
      | Ok value =>
          let data := String.list_ascii_of_string value in
          if i32_as_usize out_len <? Z.of_nat (length data) then (-1, s)
          else let '(ok, s) := write_memory out_ptr data s in (if ok then 0 else -1, s)
      end
  end.

(** [http_request] up to the call of [allocate]: an answer, or the body to
    return through the allocator, which is called with whatever type it has:
    the call of one that does not take an [i32] to one result fails, and a
    result that is not an [i32] counts as [-1]. *)
Definition call_http_request (req_ptr req_len : Z) (s : GuestState) : (Z + list ascii * bool * (Z → Guest)) * GuestState :=
  match read_memory req_ptr req_len s with
  | None => (inl (-1), s)
  | Some bytes =>
      match from_utf8 bytes with
      | Err _ => (inl (-1), s)
      | Ok text =>
          match parse_url (String.string_of_list_ascii text) with
          | Err _ => (inl (-1), s)
          | Ok url =>
              let '(r, es) := http_request host (moment s) url in
              let s := happen es s in
              match r with
              | Err _ => (inl (-1), s)
              | Ok response =>
                  match resp_body response with
                  | Err _ => (inl (-1), s)
                  | Ok body =>
                      match exported s, md_allocate m with
                      | None, _ => (inl (-1), s)
                      | Some _, Some (AllocTyped allocate) => (inr (body, true, allocate), s)
                      | Some _, Some (AllocOtherResult allocate) => (inr (body, false, allocate), s)
                      | Some _, Some AllocOtherType => (inl (-1), s)
                      | Some _, None => (inl 0, s)
                      end
                  end
              end
          end
      end
  end.
(** The rest of [http_request], with the buffer the guest allocated. *)
Definition return_body (body : list ascii) (resp_ptr resp_len buf_ptr : Z) (s : GuestState) : Z * GuestState :=
  if buf_ptr <? 0 then (0, s) else
  let '(ok, s) := write_memory buf_ptr body s in
  if negb ok then (-1, s) else
  let '(ok, s) := write_memory resp_ptr (to_le_bytes buf_ptr) s in
  if negb ok then (-1, s) else
  let '(ok, s) := write_memory resp_len (to_le_bytes (as_i32 (Z.of_nat (length body)))) s in
  if negb ok then (-1, s) else (0, s).

(** ** Running a guest *)
Definition byte_at (mem : list ascii) (addr : Z) : option ascii := if 0 <=? addr then mem !! Z.to_nat addr else None.
Definition out_of_bounds : Guest := GTrap MemoryOutOfBounds.

Definition host_step (c : HostCall) (k : Z → Guest) (frames : list Frame) (s : GuestState) : Config :=
  match c with
  | CallEmitEvent ptr len => let '(r, s) := call_emit_event ptr len s in mkConfig (k r) frames s
  | CallLog level ptr len => mkConfig (k 0) frames (call_log level ptr len s)
  | CallRecordMetric ptr len value => mkConfig (k 0) frames (call_record_metric ptr len value s)
  | CallFetchSecret ptr len out_ptr out_len =>
      let '(r, s) := call_fetch_secret ptr len out_ptr out_len s in mkConfig (k r) frames s
  | CallHttpRequest ptr len resp_ptr resp_len =>
      match call_http_request ptr len s with
      | (inl r, s) => mkConfig (k r) frames s
      | (inr (body, is_i32, allocate), s) =>
          mkConfig (allocate (as_i32 (Z.of_nat (length body)))) (mkFrame body is_i32 resp_ptr resp_len k :: frames) s
      end
  end.
Definition step (c : Config) : Finish + Config :=
  let '(mkConfig g frames s) := c in
  match g with
  | GReturn first second =>
      match frames with
      | [] => inl (Finished first second)
      | f :: frames =>
          let buf_ptr := if fr_i32 f then first else -1 in
          let '(r, s) := return_body (fr_body f) (fr_resp_ptr f) (fr_resp_len f) buf_ptr s in
          inr (mkConfig (fr_resume f r) frames s)
      end
  | GTrap t =>
      match frames with
      | [] => inl (Trapped t)
      | f :: frames => inr (mkConfig (fr_resume f (-1)) frames s)
      end
  | GTick k => inr (mkConfig k frames s)
  | GLoad i addr k =>
      inr (mkConfig (match gs_memories s !! i ≫= λ mem, byte_at mem addr with Some b => k b | None => out_of_bounds end) frames s)
  | GStore i addr b k =>
      inr (match gs_memories s !! i ≫= λ mem, mem_write mem (i32_as_usize addr) [b] with
           | Some mem => mkConfig k frames (set_memory i mem s)
           | None => mkConfig out_of_bounds frames s
           end)
  | GGlobals k => inr (mkConfig (k (gs_globals s)) frames s)
  | GSetGlobals n k => inr (mkConfig k frames (set_globals n s))
  | GGrow i pages k => let '(r, s) := grow memory_limit m i pages s in inr (mkConfig (k r) frames s)
  | GGrowTable i elements k => let '(r, s) := grow_table m i elements s in inr (mkConfig (k r) frames s)
  | GHost call k => inr (host_step call k frames s)
  end.
(** Every step costs fuel; a guest without fuel traps. *)
Fixpoint run (fuel : nat) (c : Config) : Finish * GuestState * nat :=
  match fuel with
  | O => (Trapped OutOfFuel, cf_state c, O)
  | S fuel =>
      match step c with
      | inl r => (r, cf_state c, fuel)
      | inr c => run fuel c
      end
  end.
Definition call (fuel : nat) (g : Guest) (s : GuestState) : Finish * GuestState * nat := run fuel (mkConfig g [] s).
End machine.

(** ** Instances ([wasmtime_runtime.rs]) *)
(** Which imports a guest may have ([permissions.rs]). *)
Record WasmPermissions := mkWasmPermissions { allowed : gset string; allow_all_host : bool }.
Definition deny_all : WasmPermissions := mkWasmPermissions ∅ false.
Definition allow_all : WasmPermissions := mkWasmPermissions ∅ true.
Definition host_import (p : string) : string :=
  if decide (p = "shell.exec") then "host.shell_exec" else
  if decide (p = "http.request") then "host.http_request" else
  if decide (p = "file.read") then "host.file_read" else
  if decide (p = "log.write") then "host.log" else p.
Definition from_permissions (perms : list string) : WasmPermissions :=
  mkWasmPermissions ({["log"]} ∪ ({["host.log"]} ∪ foldl (λ a p, {[p]} ∪ ({[host_import p]} ∪ a)) ∅ perms)) false.
Definition is_allowed (self : WasmPermissions) (import : string) : bool :=
  if allow_all_host self then true else bool_decide (import ∈ allowed self).
(** [set_debug] is [Debug] of the set. *)
Definition check_import (set_debug : gset string → string) (self : WasmPermissions) (module field : string) : result string unit :=
  let fq := module +:+ "." +:+ field in
  if is_allowed self fq || is_allowed self field then Ok tt
  else Err ("WASM import '" +:+ fq +:+ "' denied by fine-grained permission policy; allowed: " +:+ set_debug (allowed self)).

Record SandboxConfig := mkSandboxConfig {
  memory_limit_bytes : Z;
  fuel_amount : nat;
  timeout_ms : option Z;
  max_response_bytes : Z;
  permissions : WasmPermissions;
}.
Record WasmInner := mkWasmInner {
  wi_module : Module;
  wi_memories : list (list ascii);
  wi_globals : nat;
  wi_tables : list Z;
  wi_fuel : nat;
  wi_fuel_initial : nat;
  wi_deadline : option Z;
}.
(** [WasmtimeSandboxInstance] is the inner state, absent during a call. *)
Definition WasmtimeSandboxInstance := option WasmInner.

(** The imports the linker defines. *)
Definition linked : list (string * string) :=
  pair "host" <$> ["emit_event"; "log"; "record_metric"; "fetch_secret"; "http_request"].

Definition effective_deadline (deadline : option Z) (config : SandboxConfig) (now : Z) : option Z :=
  match deadline, timeout_ms config with
  | Some d, _ => Some d
  | None, Some ms => Some (now + ms)
  | None, None => None
  end.

Section instances.
Context {H : Type} `{!CapabilityHostServices H} (host : H).
Context (decode_event : list ascii → option ExecutionEvent) (parse_url : string → result string Url).
(** The engine's compiler, and the texts of its errors: an import that is not
    linked, a memory above the limit, a trap. *)
Context (compile : list ascii → result string Module).
Context (link_error limit_error : Module → string) (trap_text : Trap → string).
Context (config : SandboxConfig).

Definition map_trap_error (t : Trap) : RuntimeError :=
  match t with
  | OutOfFuel => FuelExhausted
  | Interrupt => ExecutionTrap "wasm exceeded its wall-clock epoch deadline"
  | _ => ExecutionTrap (trap_text t)
  end.
Definition initial_memory (t : MemoryType) : list ascii :=
  mt_data t ++ replicate (Z.to_nat (mt_pages t * PAGE) - length (mt_data t)) Ascii.zero.
Definition initial_state (m : Module) (world : list Effect) : GuestState :=
  mkGuestState (initial_memory <$> md_memories m) 0 (tt_elements <$> md_tables m) false world.
(** Instantiation asks the limiter for every memory and table, and then puts
    the data segments into the memories. *)
Definition within_limits (m : Module) : bool :=
  forallb (λ t, mt_pages t * PAGE <=? memory_limit_bytes config) (md_memories m) &&
  forallb (λ t, table_growing (tt_elements t)) (md_tables m).
Definition data_fits (m : Module) : bool :=
  forallb (λ t, Z.of_nat (length (mt_data t)) <=? mt_pages t * PAGE) (md_memories m).

Definition build_instance (module_bytes : list ascii) (deadline : option Z) (world : list Effect)
    : result RuntimeError WasmInner * list Effect :=
  match compile module_bytes with
  | Err e => (Err (CompilationFailed e), world)
  | Ok m =>
      let fuel := fuel_amount config in
      if negb (forallb (λ i, bool_decide (i ∈ linked)) (md_imports m)) then
        (Err (CompilationFailed (link_error m)), world)
      else if negb (within_limits m) then (Err (CompilationFailed (limit_error m)), world)
      else if negb (data_fits m) then (Err (CompilationFailed (trap_text MemoryOutOfBounds)), world)
      else
      let s := initial_state m world in
      let '(started, s, fuel) := match md_start m with
        | Some g => call host decode_event parse_url (memory_limit_bytes config) m fuel g s
        | None => (Finished 0 0, s, fuel)
        end in
      match started with
      | Trapped t => (Err (CompilationFailed (trap_text t)), gs_effects s)
      | Finished _ _ =>
          if bool_decide (exported m s = None) then (Err (CompilationFailed "memory export not found"), gs_effects s)
          else match md_invoke m with
            | None => (Err (CompilationFailed "capability_invoke export not found"), gs_effects s)
            | Some _ => (Ok (mkWasmInner m (gs_memories s) (gs_globals s) (gs_tables s) fuel fuel deadline), gs_effects s)
            end
      end
  end.

(** [instantiate], at time [now]; [late] when the deadline passes first. *)
Definition instantiate (module_bytes : list ascii) (deadline : option Z) (now : Z) (late : bool) (world : list Effect)
    : result RuntimeError WasmtimeSandboxInstance * list Effect :=
  let deadline := effective_deadline deadline config now in
  let '(built, world) := build_instance module_bytes deadline world in
  if bool_decide (is_Some deadline) && late then
    (Err (ExecutionTrap "wasm instantiation exceeded the runtime deadline"), world)
  else (inner ← built; Ok (Some inner), world).

(** The blocking task of [invoke]. *)
Definition exec (inner : WasmInner) (input : list ascii) (world : list Effect)
    : result RuntimeError (WasmInner * list ascii) * list Effect :=
  let m := wi_module inner in
  let run := call host decode_event parse_url (memory_limit_bytes config) m in
  let s := mkGuestState (wi_memories inner) (wi_globals inner) (wi_tables inner) false world in
  let len := as_i32 (Z.of_nat (length input)) in
  let '(allocated, s, fuel) := match md_allocate m with
    | Some (AllocTyped allocate) => run (wi_fuel inner) (allocate len) s
    | _ => (Finished 0 0, s, wi_fuel inner)
    end in
  match allocated with
  | Trapped t => (Err (map_trap_error t), gs_effects s)
  | Finished ptr _ =>
      match write_memory m ptr input s with
      | (false, s) => (Err OutOfMemory, gs_effects s)
      | (true, s) =>
          let invoke := default (λ _ _, GTrap (OtherTrap 0)) (md_invoke m) in
          let '(returned, s, fuel) := run fuel (invoke ptr len) s in
          match returned with
          | Trapped t => (Err (map_trap_error t), gs_effects s)
          | Finished out_ptr out_len =>
              if gs_growth_rejected s then (Err OutOfMemory, gs_effects s)
              else if max_response_bytes config <? i32_as_usize out_len then (Err OutOfMemory, gs_effects s)
              else
              match '(_, mem) ← exported m s; mem_read mem (i32_as_usize out_ptr) (i32_as_usize out_len) with
              | None => (Err OutOfMemory, gs_effects s)
              | Some output =>
                  (Ok (mkWasmInner m (gs_memories s) (gs_globals s) (gs_tables s) fuel (wi_fuel_initial inner) (wi_deadline inner), output),
                   gs_effects s)
              end
          end
      end
  end.
Definition invoke (self : WasmtimeSandboxInstance) (input : list ascii) (late : bool) (world : list Effect)
    : result RuntimeError (list ascii) * WasmtimeSandboxInstance * list Effect :=
  match self with
  | None => (Err (NotSupported "invoke already in flight"), None, world)
  | Some inner =>
      let '(completed, world) := exec inner input world in
      if bool_decide (is_Some (wi_deadline inner)) && late then
        (Err (ExecutionTrap "wasm invocation exceeded the runtime deadline"), None, world)
      else match completed with
        | Ok (returned, output) => (Ok output, Some returned, world)
        | Err e => (Err e, None, world)
        end
  end.
Definition reset : result RuntimeError unit := Err (NotSupported "reset not supported").
(** [None] is the panic of [inner]. *)
Definition memory_usage (self : WasmtimeSandboxInstance) : option Z :=
  inner ← self; i ← md_memory_exported (wi_module inner); mem ← wi_memories inner !! i; Some (Z.of_nat (length mem)).
Definition fuel_consumed (self : WasmtimeSandboxInstance) : option Z :=
  inner ← self; Some (u64_saturating_sub (Z.of_nat (wi_fuel_initial inner)) (Z.of_nat (wi_fuel inner))).

(** A life of an instance: its calls one after the other. *)
Fixpoint invoke_all (self : WasmtimeSandboxInstance) (inputs : list (list ascii * bool)) (world : list Effect)
    : list (result RuntimeError (list ascii)) * WasmtimeSandboxInstance * list Effect :=
  match inputs with
  | [] => ([], self, world)
  | (input, late) :: inputs =>
      let '(r, self, world) := invoke self input late world in
      let '(rs, self, world) := invoke_all self inputs world in
      (r :: rs, self, world)
  end.
End instances.

(** ** Permissions, declaratively *)
Definition glob_matches (pattern candidate : string) : Prop :=
  pattern = candidate ∨ ∃ prefix rest, pattern = prefix +:+ "*" ∧ candidate = prefix +:+ rest.
Lemma glob_match_sound pattern candidate : glob_match pattern candidate = true → glob_matches pattern candidate.
Proof.
  unfold glob_match, glob_matches. case_decide; [by left|].
  destruct (strip_suffix_char "*" pattern) as [prefix|] eqn:Hs; [|done].
  intros [rest ->]%starts_with_spec. right. exists prefix, rest. split; [|done].
  pose proof (strip_suffix_char_spec "*" pattern) as Hp. by rewrite Hs in Hp.
Qed.
Lemma check_secret_access_ok perms name :
  check_secret_access perms name = Ok tt → ∃ p, Secrets p ∈ perms ∧ glob_matches p name.
Proof.
  induction perms as [|[| | |p|] perms IH]; csimpl; try done.
  4: destruct (glob_match p name) eqn:Hg; [intros _; exists p; split; [left|by apply glob_match_sound]|].
  all: intros (q & Hq & Hm)%IH; exists q; split; [by right|done].
Qed.
Lemma check_http_access_ok perms url :
  check_http_access perms url = Ok tt → ∃ p, Http p ∈ perms ∧ glob_matches p url.
Proof.
  induction perms as [|[| |p| |] perms IH]; csimpl; try done.
  3: destruct (glob_match p url) eqn:Hg; [intros _; exists p; split; [left|by apply glob_match_sound]|].
  all: intros (q & Hq & Hm)%IH; exists q; split; [by right|done].
Qed.

(** What the permissions of a host's caller allow: a secret or a URL needs a
    grant whose pattern it matches, and no request reaches an internal
    address. *)
Definition granted (h : WasmtimeCapabilityHost) (e : Effect) : Prop :=
  match e with
  | SecretRead name _ =>
      name ≠ "" ∧ name ≠ "*" ∧
      ∃ perms p, caller_permissions h = Some perms ∧ Secrets p ∈ perms ∧ glob_matches p name
  | Requested url addrs =>
      (∃ perms p, caller_permissions h = Some perms ∧ Http p ∈ perms ∧ glob_matches p url) ∧
      ∀ ip, ip ∈ addrs → ip_wf ip → ¬ internal_address ip
  | _ => True
  end.

Section confined_host.
Context (env_var : string → option string).
Context (lookup : nat → nat → string → result string (list IpAddr)).
Context (execute : nat → list IpAddr → Url → result string Response).
Context (parse_url : string → result string Url) (url_to_string : Url → string).
Context (publish : nat → ExecutionEventEnvelope → result GateError unit).
Context (event_hash : string → string → Z → Z → string) (clock : nat → Z).
(** A text in brackets is not the name of a host. *)
Context (brackets : ∀ n i text, ∃ e, lookup n i ("[" +:+ text) = Err e).

Lemma effective_permissions_ok h perms : effective_permissions h = Ok perms → caller_permissions h = Some perms.
Proof. unfold effective_permissions. destruct (caller_permissions h); [|done]. by intros [= ->]. Qed.

Lemma fetch_secret_granted h name : Forall (granted h) (host_fetch_secret env_var h name).2.
Proof.
  unfold host_fetch_secret. case_decide as Hn; [constructor|].
  destruct (effective_permissions h) as [perms|e] eqn:Hp; csimpl; [|constructor].
  destruct (check_secret_access perms name) as [[]|e] eqn:Hc; csimpl; [|constructor].
  destruct (env_var name); csimpl; [|constructor]. constructor; [|constructor]. csimpl.
  apply effective_permissions_ok in Hp. apply check_secret_access_ok in Hc as (p & Hin & Hm).
  split_and!; [by intros ->; apply Hn; left|by intros ->; apply Hn; right|by exists perms, p].
Qed.
(** What passes the checks of a URL and is dialled is public. *)
Lemma validated_dial n url addrs ip :
  validate_ssrf lookup n 0 url = Ok tt → client_dial (lookup n) 1 url = Ok addrs → ip ∈ addrs →
  is_blocked_ip ip = false.
Proof using brackets.
  unfold validate_ssrf, client_dial. case_match; [done|].
  destruct (url_host url) as [[d|[a b c d|s0 s1 s2 s3 s4 s5 s6 s7]]|]; csimpl; [| | |done].
  - intros _ Hd%dns_resolve_public Hip. unfold public in Hd. rewrite Forall_forall in Hd. by apply Hd.
  - destruct (is_blocked_ip (V4 a b c d)) eqn:Hb; [done|]. intros _ [= <-] ->%list_elem_of_singleton. done.
  - set (ip6 := V6 s0 s1 s2 s3 s4 s5 s6 s7).
    destruct (brackets n 0 (ip_to_string ip6 +:+ "]")) as [e He]. intros Hv. exfalso.
    assert (by_name lookup n 0 ("[" +:+ (ip_to_string ip6 +:+ "]")) = Ok tt) as Hb by exact Hv.
    unfold by_name in Hb. by rewrite He in Hb.
Qed.
Lemma http_request_granted h n url :
  Forall (granted h) (host_http_request lookup execute parse_url url_to_string h n url).2.
Proof using brackets.
  unfold host_http_request. destruct (effective_permissions h) as [perms|e] eqn:Hp; csimpl; [|constructor].
  destruct (check_http_access perms (url_to_string url)) as [[]|e] eqn:Hc; csimpl; [|constructor].
  destruct (validate_ssrf lookup n 0 url) as [[]|e] eqn:Hv; csimpl; [|constructor].
  destruct (client_dial (lookup n) 1 url) as [addrs|e] eqn:Hd; csimpl; [|constructor].
  constructor; [|constructor]. csimpl. apply effective_permissions_ok in Hp.
  apply check_http_access_ok in Hc as (p & Hin & Hm). split; [by exists perms, p|].
  intros ip Hip Hwf. rewrite <- is_blocked_ip_spec by done. by rewrite (validated_dial n url addrs ip).
Qed.

#[local] Instance wasmtime_confined :
  @ConfinedServices WasmtimeCapabilityHost
    (wasmtime_services env_var lookup execute parse_url url_to_string publish event_hash clock) granted.
Proof using brackets.
  split; intros; csimpl; [by repeat constructor|by repeat constructor|apply fetch_secret_granted|
    apply http_request_granted|by repeat constructor].
Qed.
End confined_host.

(** ** Confinement *)
Lemma length_mem_write mem ptr data mem' :
  0 ≤ ptr → mem_write mem ptr data = Some mem' → length mem' = length mem.
Proof.
  unfold mem_write. intros Hp. case_match eqn:Hb; [|done]. apply Z.leb_le in Hb. intros [= <-].
  rewrite !length_app, length_take, length_drop. lia.
Qed.
Lemma usize_nonneg z : 0 ≤ i32_as_usize z.
Proof. unfold i32_as_usize. apply Z.mod_pos_bound. lia. Qed.
Lemma mem_read_length mem ptr len out :
  0 ≤ len → mem_read mem ptr len = Some out → Z.of_nat (length out) ≤ len.
Proof. unfold mem_read. intros Hl. case_match; [|done]. intros [= <-]. rewrite length_take. lia. Qed.

Section confinement.
Context {H : Type} `{!CapabilityHostServices H} (permitted : H → Effect → Prop) `{!ConfinedServices H permitted} (host : H).
Context (decode_event : list ascii → option ExecutionEvent) (parse_url : string → result string Url).

(** [world] and then only what is permitted. *)
Definition adds_permitted (world world' : list Effect) : Prop :=
  ∃ es, world' = world ++ es ∧ Forall (permitted host) es.
#[global] Instance adds_permitted_refl : Reflexive adds_permitted.
Proof. intros w. exists []. by rewrite (right_id_L [] (++)). Qed.
#[global] Instance adds_permitted_trans : Transitive adds_permitted.
Proof.
  intros w1 w2 w3 (es & -> & H1) (es' & -> & H2). exists (es ++ es'). rewrite (assoc_L (++)). split; [done|].
  by apply Forall_app.
Qed.

(** A memory within the limit, of whole pages. *)
Definition memory_ok (limit : Z) (mem : list ascii) : Prop :=
  Z.of_nat (length mem) ≤ limit ∧ (PAGE | Z.of_nat (length mem)).
Definition table_ok (n : Z) : Prop := n ≤ MAX_TABLE_ELEMENTS.
Lemma memory_ok_write limit mem ptr data mem' :
  mem_write mem (i32_as_usize ptr) data = Some mem' → memory_ok limit mem → memory_ok limit mem'.
Proof. unfold memory_ok. intros Hw. by rewrite (length_mem_write _ _ _ _ (usize_nonneg ptr) Hw). Qed.

(** The invariant of a run that began in [world]. *)
Record confined (limit : Z) (world : list Effect) (s : GuestState) : Prop := mkConfined {
  confined_effects : adds_permitted world (gs_effects s);
  confined_memories : Forall (memory_ok limit) (gs_memories s);
  confined_tables : Forall table_ok (gs_tables s);
}.

Lemma confined_happen limit world s es :
  Forall (permitted host) es → confined limit world s → confined limit world (happen es s).
Proof.
  intros Hes [He Hm Ht]. split; [|done..]. etrans; [done|]. by exists es.
Qed.
Lemma confined_set_memory limit world s i mem :
  memory_ok limit mem → confined limit world s → confined limit world (set_memory i mem s).
Proof. intros Hm [He Hms Ht]. split; [done| |done]. by apply Forall_insert. Qed.
Lemma confined_lookup limit world s i mem :
  confined limit world s → gs_memories s !! i = Some mem → memory_ok limit mem.
Proof. intros [_ Hms _] Hi. by eapply Forall_lookup_1. Qed.
Lemma confined_write limit world m s ptr data ok s' :
  write_memory m ptr data s = (ok, s') → confined limit world s → confined limit world s'.
Proof.
  unfold write_memory, exported. destruct (md_memory_exported m) as [i|]; csimpl; [|by intros [= <- <-]].
  destruct (gs_memories s !! i) as [mem|] eqn:Hi; csimpl; [|by intros [= <- <-]].
  destruct (mem_write _ _ _) as [mem'|] eqn:Hw; intros [= <- <-]; [|done]. intros Hs.
  apply confined_set_memory; [|done]. eapply memory_ok_write; [done|]. by eapply confined_lookup.
Qed.

Lemma confined_return_body limit world m s body p l buf r s' :
  return_body m body p l buf s = (r, s') → confined limit world s → confined limit world s'.
Proof.
  unfold return_body. case_match; [by intros [= _ <-]|].
  destruct (write_memory m buf body s) as [ok1 s1] eqn:H1. intros Hr Hs. pose proof (confined_write _ _ _ _ _ _ _ _ H1 Hs) as Hs1.
  destruct ok1; csimpl in Hr; [|by injection Hr as _ <-].
  destruct (write_memory m p _ s1) as [ok2 s2] eqn:H2. pose proof (confined_write _ _ _ _ _ _ _ _ H2 Hs1) as Hs2.
  destruct ok2; csimpl in Hr; [|by injection Hr as _ <-].
  destruct (write_memory m l _ s2) as [ok3 s3] eqn:H3. pose proof (confined_write _ _ _ _ _ _ _ _ H3 Hs2) as Hs3.
  destruct ok3; csimpl in Hr; by injection Hr as _ <-.
Qed.
(** Growing whole pages within the limit. *)
Lemma memory_ok_grow limit mem n :
  0 ≤ n → memory_ok limit mem → (Z.of_nat (length mem) / PAGE + n) * PAGE ≤ limit →
  memory_ok limit (mem ++ replicate (Z.to_nat (n * PAGE)) Ascii.zero).
Proof.
  unfold memory_ok. set (size := Z.of_nat (length mem)). intros Hn [Hm Hp] Hl.
  assert (size / PAGE * PAGE = size) as Hsize by (destruct Hp as [q ->]; unfold PAGE; by rewrite Z.div_mul).
  assert (Z.of_nat (length (mem ++ replicate (Z.to_nat (n * PAGE)) Ascii.zero)) = size + n * PAGE) as ->.
  { rewrite length_app, length_replicate. unfold size, PAGE. lia. }
  split; [rewrite Z.mul_add_distr_r in Hl; lia|]. apply Z.divide_add_r; [done|]. by exists n.
Qed.
Lemma confined_grow limit world m s i pages r s' :
  grow limit m i pages s = (r, s') → confined limit world s → confined limit world s'.
Proof.
  unfold grow, memory_growing. destruct (gs_memories s !! i) as [mem|] eqn:Hi; [|by intros [= _ <-]].
  destruct (md_memories m !! i); [|by intros [= _ <-]].
  pose proof (Z.mod_pos_bound pages (2 ^ 32) ltac:(lia)) as Hn. revert Hn. generalize (pages mod 2 ^ 32) as n. intros n Hn.
  destruct (limit <? _) eqn:Hl; csimpl; [intros [= _ <-] [He Hm Ht]; by split|].
  apply Z.ltb_ge in Hl. case_match; intros [= _ <-]; [|done]. intros Hs. apply confined_set_memory; [|done].
  apply memory_ok_grow; [lia| |done]. by eapply confined_lookup.
Qed.

Lemma confined_grow_table limit world m s i n r s' :
  grow_table m i n s = (r, s') → confined limit world s → confined limit world s'.
Proof.
  unfold grow_table, table_growing. destruct (gs_tables s !! i); [|by intros [= _ <-]].
  destruct (md_tables m !! i); [|by intros [= _ <-]]. destruct (_ <=? MAX_TABLE_ELEMENTS) eqn:Hl; [|by intros [= _ <-]].
  apply Z.leb_le in Hl. csimpl. case_match; intros [= _ <-]; [|done]. intros [He Hm Ht].
  split; [done..|]. by apply Forall_insert.
Qed.

Context (limit : Z) (m : Module).
Local Notation call_guest := (call host decode_event parse_url limit m).
Local Notation run_guest := (run host decode_event parse_url limit m).

Lemma confined_http_call world s ptr len r s' :
  call_http_request host parse_url m ptr len s = (r, s') → confined limit world s → confined limit world s'.
Proof using Type*.
  unfold call_http_request. destruct (read_memory m ptr len s); [|by intros [= _ <-]].
  destruct (from_utf8 _); [|by intros [= _ <-]]. destruct (parse_url _) as [url|]; [|by intros [= _ <-]].
  pose proof (http_request_confined host (moment s) url) as Hc.
  destruct (http_request host (moment s) url) as [[resp|e] es]; csimpl in Hc.
  - destruct (resp_body resp); [destruct (exported m _); [destruct (md_allocate m) as [[]|]|]|];
      intros [= _ <-]; by apply confined_happen.
  - intros [= _ <-]. by apply confined_happen.
Qed.
Lemma confined_host_step world c k frames s :
  confined limit world s → confined limit world (cf_state (host_step host decode_event parse_url m c k frames s)).
Proof using Type*.
  intros Hs. destruct c as [p l|lv p l|p l v|p l op ol|p l rp rl]; cbn [host_step].
  - unfold call_emit_event. destruct (_ ≫= _) as [e|]; [|done].
    pose proof (emit_event_confined host (moment s) e) as Hc. destruct (emit_event host (moment s) e) as [r es].
    by apply confined_happen.
  - unfold call_log. destruct (read_memory m p l s); [|done]. apply confined_happen; [apply host_log_confined|done].
  - unfold call_record_metric. destruct (read_memory m p l s); [|done].
    apply confined_happen; [apply record_metric_confined|done].
  - unfold call_fetch_secret. destruct (read_memory m p l s) as [b|]; [|done].
    pose proof (fetch_secret_confined host (lossy_string b)) as Hc.
    destruct (fetch_secret host (lossy_string b)) as [[v|e] es]; csimpl in Hc; [|by apply confined_happen].
    destruct (i32_as_usize ol <? _); [by apply confined_happen|]. destruct (write_memory m op _ (happen es s)) as [ok s'] eqn:Hw.
    eapply confined_write; [done|]. by apply confined_happen.
  - destruct (call_http_request host parse_url m p l s) as [[r|[[body i32] alloc]] s'] eqn:Hc; by eapply confined_http_call.
Qed.
Lemma confined_step world c c' :
  step host decode_event parse_url limit m c = inr c' →
  confined limit world (cf_state c) → confined limit world (cf_state c').
Proof using Type*.
  destruct c as [g frames s]. cbn [step cf_state].
  destruct g as [a b|t|k|i addr k|i addr b k|k|n k|i pages k|i n k|call k].
  - destruct frames as [|f frames]; [done|]. destruct (return_body _ _ _ _ _ s) as [r s'] eqn:Hr. intros [= <-] Hs.
    by eapply confined_return_body.
  - destruct frames; [done|]. by intros [= <-].
  - by intros [= <-].
  - by intros [= <-].
  - destruct (gs_memories s !! i) as [mem|] eqn:Hi; csimpl; [|by intros [= <-]].
    destruct (mem_write _ _ _) as [mem'|] eqn:Hw; intros [= <-]; [|done]. intros Hs.
    apply confined_set_memory; [|done]. eapply memory_ok_write; [done|]. by eapply confined_lookup.
  - by intros [= <-].
  - intros [= <-] [He Hm Ht]. by split.
  - destruct (grow limit m i pages s) as [r s'] eqn:Hg. intros [= <-] Hs. by eapply confined_grow.
  - destruct (grow_table m i n s) as [r s'] eqn:Hg. intros [= <-] Hs. by eapply confined_grow_table.
  - intros [= <-] Hs. by apply confined_host_step.
Qed.
Lemma confined_run world fuel c r s left :
  run_guest fuel c = (r, s, left) → confined limit world (cf_state c) → confined limit world s ∧ (left ≤ fuel)%nat.
Proof using Type*.
  revert c. induction fuel as [|fuel IH]; intros c; cbn [run]; [by intros [= _ <- <-]|].
  destruct (step _ _ _ _ _ c) as [f|c'] eqn:Hs; [intros [= _ <- <-]; split; [done|lia]|].
  intros Hr Hc. destruct (IH c' Hr); [by eapply confined_step|]. split; [done|lia].
Qed.
Lemma confined_call world fuel g s r s' left :
  call_guest fuel g s = (r, s', left) → confined limit world s → confined limit world s' ∧ (left ≤ fuel)%nat.
Proof using Type*. apply confined_run. Qed.
End confinement.

Section lives.
Context {H : Type} `{!CapabilityHostServices H} (permitted : H → Effect → Prop) `{!ConfinedServices H permitted} (host : H).
Context (decode_event : list ascii → option ExecutionEvent) (parse_url : string → result string Url).
Context (compile : list ascii → result string Module).
Context (link_error limit_error : Module → string) (trap_text : Trap → string).
Context (config : SandboxConfig).
Local Notation adds := (adds_permitted permitted host).

Record instance_ok (inner : WasmInner) : Prop := mkInstanceOk {
  io_memories : Forall (memory_ok (memory_limit_bytes config)) (wi_memories inner);
  io_tables : Forall table_ok (wi_tables inner);
  io_fuel : (wi_fuel inner ≤ wi_fuel_initial inner ≤ fuel_amount config)%nat;
}.

Lemma initial_memory_ok t :
  mt_pages t * PAGE ≤ memory_limit_bytes config → Z.of_nat (length (mt_data t)) ≤ mt_pages t * PAGE →
  memory_ok (memory_limit_bytes config) (initial_memory t).
Proof.
  intros Hl Hd. unfold memory_ok, initial_memory. rewrite length_app, length_replicate.
  rewrite Nat2Z.inj_add, Nat2Z.inj_sub, Z2Nat.id by lia. rewrite Zplus_minus. split; [done|]. by exists (mt_pages t).
Qed.
Lemma initial_confined m world :
  within_limits config m = true → data_fits m = true →
  confined permitted host (memory_limit_bytes config) world (initial_state m world).
Proof.
  unfold data_fits. intros [Hm Ht]%andb_true_iff Hd. rewrite forallb_forall in Hm, Ht, Hd. split; [done|..]; csimpl; apply Forall_fmap, Forall_forall.
  - intros t Hin%list_elem_of_In. apply initial_memory_ok; apply Z.leb_le; auto.
  - intros t Hin%list_elem_of_In. apply Z.leb_le, Ht, Hin.
Qed.

Lemma build_confined bytes deadline world r world' :
  build_instance host decode_event parse_url compile link_error limit_error trap_text config bytes deadline world = (r, world') →
  adds world world' ∧ ∀ inner, r = Ok inner → instance_ok inner.
Proof using Type*.
  unfold build_instance. destruct (compile bytes) as [m|e]; [|by intros [= <- <-]].
  destruct (negb (forallb _ _)); [by intros [= <- <-]|]. destruct (within_limits config m) eqn:Hl; [|by intros [= <- <-]].
  destruct (data_fits m) eqn:Hd; [|by intros [= <- <-]]. cbn [negb].
  pose proof (initial_confined m world Hl Hd) as Hs. set (s := initial_state m world) in *. intros Hb.
  assert (∃ started s' fuel, match md_start m with
      | Some g => call host decode_event parse_url (memory_limit_bytes config) m (fuel_amount config) g s
      | None => (Finished 0 0, s, fuel_amount config) end = (started, s', fuel) ∧
    confined permitted host (memory_limit_bytes config) world s' ∧ (fuel ≤ fuel_amount config)%nat)
    as (started & s' & fuel & Hst & Hc & Hf).
  { destruct (md_start m) as [g|]; [|by eexists _, _, _].
    destruct (call _ _ _ _ _ _ g s) as [[st s'] fuel] eqn:Hcall. eapply confined_call in Hcall; [|done|done].
    by eexists _, _, _. }
  rewrite Hst in Hb. destruct Hc as [He Hm Ht].
  destruct started; [destruct (bool_decide _); [|destruct (md_invoke m)]|]; csimpl in Hb;
    injection Hb as <- <-; (split; [done|]); try done.
  intros inner [= <-]. by split.
Qed.

Lemma exec_confined inner input world r world' :
  exec host decode_event parse_url trap_text config inner input world = (r, world') → instance_ok inner →
  adds world world' ∧
  ∀ inner' out, r = Ok (inner', out) → instance_ok inner' ∧ Z.of_nat (length out) ≤ max_response_bytes config.
Proof using Type*.
  unfold exec. set (m := wi_module inner). set (s := mkGuestState _ _ _ _ _). intros Hx [Hm Ht Hf].
  assert (confined permitted host (memory_limit_bytes config) world s) as Hs by (by split).
  destruct (match md_allocate m with Some (AllocTyped _) => _ | _ => _ end) as [[a s1] fuel1] eqn:Ha.
  assert (confined permitted host (memory_limit_bytes config) world s1 ∧ (fuel1 ≤ wi_fuel inner)%nat) as [Hs1 Hf1].
  { destruct (md_allocate m) as [[alloc| |]|]; [by eapply confined_call|by simplify_eq..]. }
  clear Ha. destruct a as [ptr x|t]; [|by injection Hx as <- <-; split; [apply Hs1|]].
  destruct (write_memory m ptr input s1) as [ok s2] eqn:Hw.
  assert (confined permitted host (memory_limit_bytes config) world s2) as Hs2 by (by eapply confined_write).
  destruct ok; [|by injection Hx as <- <-; split; [apply Hs2|]].
  destruct (call _ _ _ _ _ fuel1 _ s2) as [[ret s3] fuel3] eqn:Hc.
  eapply confined_call in Hc as [Hs3 Hf3]; [|done|done]. destruct Hs3 as [He3 Hm3 Ht3].
  destruct ret as [op ol|t]; [|by injection Hx as <- <-].
  destruct (gs_growth_rejected s3); [by injection Hx as <- <-|].
  destruct (max_response_bytes config <? i32_as_usize ol) eqn:Ho; [by injection Hx as <- <-|]. apply Z.ltb_ge in Ho.
  destruct (exported m s3) as [[i mem]|]; csimpl in Hx; [|by injection Hx as <- <-].
  destruct (mem_read mem _ _) as [out|] eqn:Hr; injection Hx as <- <-; [|done]. split; [done|].
  intros inner' out' [= <- <-]. split; [split; csimpl; (done || lia)|].
  apply mem_read_length in Hr; [lia|apply usize_nonneg].
Qed.

Lemma invoke_confined self input late world r self' world' :
  invoke host decode_event parse_url trap_text config self input late world = (r, self', world') →
  (∀ inner, self = Some inner → instance_ok inner) →
  adds world world' ∧ (∀ inner, self' = Some inner → instance_ok inner) ∧
  ∀ out, r = Ok out → Z.of_nat (length out) ≤ max_response_bytes config.
Proof using Type*.
  unfold invoke. destruct self as [inner|]; [|by intros [= <- <- <-]]. intros Hi Hok.
  destruct (exec _ _ _ _ _ inner input world) as [c w] eqn:Hx.
  apply exec_confined in Hx as [Hadd Hc]; [|by apply Hok].
  destruct (bool_decide _ && late); [by injection Hi as <- <- <-|].
  destruct c as [[inner' out]|e]; injection Hi as <- <- <-; [|done].
  destruct (Hc inner' out eq_refl). split_and!; [done|by intros ? [= <-]|by intros ? [= <-]].
Qed.
Lemma invoke_all_confined inputs self world rs self' world' :
  invoke_all host decode_event parse_url trap_text config self inputs world = (rs, self', world') →
  (∀ inner, self = Some inner → instance_ok inner) →
  adds world world' ∧ (∀ inner, self' = Some inner → instance_ok inner) ∧
  Forall (λ r, ∀ out, r = Ok out → Z.of_nat (length out) ≤ max_response_bytes config) rs.
Proof using Type*.
  revert self world rs. induction inputs as [|[input late] inputs IH]; intros self world rs; cbn [invoke_all];
    [intros [= <- <- <-] Hok; by split_and!|].
  destruct (invoke _ _ _ _ _ self input late world) as [[r self1] w1] eqn:Hi.
  destruct (invoke_all _ _ _ _ _ self1 inputs w1) as [[rs1 self2] w2] eqn:Hr. intros [= <- <- <-] Hok.
  apply invoke_confined in Hi as (Ha1 & Hok1 & Ho1); [|done]. apply IH in Hr as (Ha2 & Hok2 & Ho2); [|done].
  split_and!; [by etrans|done|by constructor].
Qed.

(** What a sandbox over services that keep to [permitted] keeps to. *)
Definition kept_in (bytes : list ascii) (deadline : option Z) (now : Z) (late : bool)
    (inputs : list (list ascii * bool)) (world : list Effect) : Prop :=
  let '(r, world1) :=
    instantiate host decode_event parse_url compile link_error limit_error trap_text config bytes deadline now late world in
  adds world world1 ∧
  ∀ self, r = Ok self →
    let '(answers, self', world2) := invoke_all host decode_event parse_url trap_text config self inputs world1 in
    adds world1 world2 ∧
    Forall (λ a, ∀ out, a = Ok out → Z.of_nat (length out) ≤ max_response_bytes config) answers ∧
    (∀ n, memory_usage self' = Some n → n ≤ memory_limit_bytes config) ∧
    (∀ inner, self' = Some inner →
       Forall (λ mem, Z.of_nat (length mem) ≤ memory_limit_bytes config) (wi_memories inner) ∧
       Forall (λ n, n ≤ MAX_TABLE_ELEMENTS) (wi_tables inner)) ∧
    (∀ n, fuel_consumed self' = Some n → 0 ≤ n ≤ Z.of_nat (fuel_amount config)).

Lemma sandbox_keeps bytes deadline now late inputs world : kept_in bytes deadline now late inputs world.
Proof using Type*.
  unfold kept_in, instantiate.
  destruct (build_instance _ _ _ _ _ _ _ _ _ _ world) as [built w1] eqn:Hb. apply build_confined in Hb as [Ha Hok].
  assert (∀ self : WasmtimeSandboxInstance, (inner ← built; Ok (Some inner)) = @Ok RuntimeError _ self →
    ∀ inner, self = Some inner → instance_ok inner) as Hself.
  { intros self Hs inner ->. destruct built as [i|]; csimpl in Hs; simplify_eq. by apply Hok. }
  destruct (_ && late); (split; [done|]); [done|]. intros self Hs.
  destruct (invoke_all _ _ _ _ _ self inputs w1) as [[rs self'] w2] eqn:Hi.
  apply invoke_all_confined in Hi as (Ha2 & Hok2 & Ho); [|by eapply Hself]. split_and!; [done..| | |].
  - intros n. destruct self' as [inner|]; csimpl; [|done]. destruct (md_memory_exported _) as [i|]; csimpl; [|done].
    destruct (wi_memories inner !! i) as [mem|] eqn:Hmem; csimpl; [|done]. intros [= <-].
    by eapply (Forall_lookup_1 _ _ _ _ (io_memories inner (Hok2 inner eq_refl))).
  - intros inner Hi2. destruct (Hok2 inner Hi2) as [Hm Ht _]. split; [|done].
    eapply Forall_impl; [done|]. by intros mem [].
  - intros n. destruct self' as [inner|]; csimpl; [|done]. intros [= <-].
    destruct (io_fuel inner (Hok2 inner eq_refl)). unfold u64_saturating_sub. lia.
Qed.
End lives.

(** C20. Whatever bytes are compiled and run, on whatever inputs and with whatever
    answers from the environment, the bus, the servers and the name lookups,
    which only have to fail for a text that starts with a bracket, as no host
    name does: a guest reads only secrets and requests only URLs that the
    permissions of its caller name, dials no internal address, its output and
    fuel stay within their limits, and so does each of its memories and
    tables. Without a caller it reads and requests nothing. *)
Theorem guests_confined env_var lookup execute parse_url url_to_string publish event_hash clock
    (brackets : ∀ n i text, ∃ e, lookup n i ("[" +:+ text) = Err e)
    h decode_event compile link_error limit_error trap_text config bytes deadline now late inputs world :
  let H := wasmtime_services env_var lookup execute parse_url url_to_string publish event_hash clock in
  kept_in granted h decode_event parse_url compile link_error limit_error trap_text config bytes deadline now late inputs world.
Proof. intros H. apply sandbox_keeps. by apply wasmtime_confined. Qed.

(** ** Where the code departs from its comments *)

(** [check_environment] is said to be the single gate of every read of the
    environment, any plugin path included, and to deny the router's own secrets;
    [fetch_secret] reads the environment without it, so a grant by a pattern
    reaches them. *)
Theorem infrastructure_secret_readable env_var v :
  env_var "FUSION_MASTER_KEY" = Some v →
  is_ok (permission_validate (Secrets "FUSION_*")) = true ∧
  is_ok (check_environment "FUSION_MASTER_KEY") = false ∧
  (host_fetch_secret env_var (with_caller_permissions (host_new "e" "w" None) [Secrets "FUSION_*"]) "FUSION_MASTER_KEY").1 = Ok v.
Proof.
  intros Hv. split_and!; [by vm_compute..|]. unfold host_fetch_secret.
  rewrite decide_False by (by intros [?|?]). csimpl. by rewrite Hv.
Qed.

(** A call that fails, for a trap of the guest as for an output that is too
    long, does not put the instance back: every later call is refused as
    already in flight, and [memory_usage] panics although its message says the
    state is only absent inside [invoke]. *)
Theorem failed_invoke_loses_instance {H} `{!CapabilityHostServices H} (host : H) decode_event parse_url trap_text config
    self input late world e self' world' inputs :
  invoke host decode_event parse_url trap_text config self input late world = (Err e, self', world') →
  memory_usage self' = None ∧
  (invoke_all host decode_event parse_url trap_text config self' inputs world').1.1 =
    ((λ _, Err (NotSupported "invoke already in flight")) <$> inputs).
Proof.
  intros Hi. assert (self' = None) as ->.
  { revert Hi. unfold invoke. destruct self as [inner|]; [|by intros [= _ <- _]].
    destruct (exec _ _ _ _ _ inner input world) as [[[]|] w]; destruct (_ && late); by intros [= ? <- ?]. }
  split; [done|]. clear Hi. induction inputs as [|[i l] inputs IH]; [done|]. cbn [invoke_all invoke].
  destruct (invoke_all _ _ _ _ _ None inputs world') as [[rs s] w]. csimpl in *. by rewrite IH.
Qed.

(** The host of an IPv6 literal comes in brackets, which [parse::<IpAddr>] does
    not read: it is looked up as a name, and a public address is refused too. *)
Theorem ipv6_literals_refused lookup n i s0 s1 s2 s3 s4 s5 s6 s7 port :
  (∀ n i text, ∃ e, lookup n i ("[" +:+ text) = Err e) →
  is_ok (validate_ssrf lookup n i (mkUrl "https" (Some (Ip (V6 s0 s1 s2 s3 s4 s5 s6 s7))) port "" None)) = false.
Proof.
  intros Hb. set (ip := V6 s0 s1 s2 s3 s4 s5 s6 s7). destruct (Hb n i (ip_to_string ip +:+ "]")) as [e He].
  assert (validate_ssrf lookup n i (mkUrl "https" (Some (Ip ip)) port "" None) =
    by_name lookup n i ("[" +:+ (ip_to_string ip +:+ "]"))) as -> by done.
  unfold by_name. by rewrite He.
Qed.

(** ** A concrete guest: it reads a secret into its memory, giving the length
    of the buffer as [-1], which passes for a long one, and returns it. *)
Definition demo_module : Module :=
  mkModule [("host", "fetch_secret")] [mkMemoryType 1 1 (String.list_ascii_of_string "API_KEY")] [] (Some 0%nat) None
    (Some (λ _ _, GHost (CallFetchSecret 0 7 100 (-1)) (λ r, if r =? 0 then GReturn 100 5 else GReturn 0 0))) None.
Definition demo_config : SandboxConfig := mkSandboxConfig (64 * 1024 * 1024) 1000 None 1024 deny_all.
Definition demo_host : WasmtimeCapabilityHost := with_caller_permissions (host_new "e" "w" None) [Secrets "API_*"].
Definition demo_services : CapabilityHostServices WasmtimeCapabilityHost :=
  wasmtime_services (λ n, if decide (n = "API_KEY") then Some "s3cr3" else None) (λ _ _ _, Err "unknown host")
    (λ _ _ _, Err "refused") (λ _, Err "bad URL") (λ _, "") (λ _ _, Ok tt) (λ _ _ _ _, "id") (λ _, 0).

Example negative_buffer_length_accepted :
  let H := demo_services in
  let inst := instantiate demo_host (λ _, None) (λ _, Err "bad URL") (λ _, Ok demo_module) (λ _, "") (λ _, "") (λ _, "")
    demo_config [] None 0 false [] in
  match inst with
  | (Ok self, world) =>
      (invoke_all demo_host (λ _, None) (λ _, Err "bad URL") (λ _, "") demo_config self [([], false)] world).1.1
        = [Ok (String.list_ascii_of_string "s3cr3")] ∧
      (invoke_all demo_host (λ _, None) (λ _, Err "bad URL") (λ _, "") demo_config self [([], false)] world).2
        = [SecretRead "API_KEY" "s3cr3"]
  | _ => False
  end.
Proof. vm_compute. split; reflexivity. Qed.

(** The imports a configuration denies are said to be what a guest cannot
    call; nothing consults the configuration when a guest is linked. *)
Theorem denied_import_linked set_debug :
  is_ok (check_import set_debug (permissions demo_config) "host" "fetch_secret") = false ∧
  ("host", "fetch_secret") ∈ md_imports demo_module ∧
  let H := demo_services in
  is_ok (instantiate demo_host (λ _, None) (λ _, Err "bad URL") (λ _, Ok demo_module) (λ _, "") (λ _, "") (λ _, "")
    demo_config [] None 0 false []).1 = true.
Proof. split_and!; [done|by left|by vm_compute]. Qed.

(** The limiter looks at each memory alone: a guest with several of them has the
    whole limit for each. *)
Definition many_memories (k : nat) : Module :=
  mkModule [] (replicate k (mkMemoryType 1024 1024 [])) [] (Some 0%nat) None (Some (λ _ _, GReturn 0 0)) None.
Theorem limit_is_per_memory k :
  memory_limit_bytes demo_config = 1024 * PAGE ∧ within_limits demo_config (many_memories k) = true ∧
  (∀ t, t ∈ md_memories (many_memories k) → mt_pages t * PAGE = memory_limit_bytes demo_config).
Proof.
  split; [done|]. split; [|by intros t [-> _]%elem_of_replicate].
  unfold within_limits. apply andb_true_iff. split; [|done]. apply forallb_forall. intros t Hin%list_elem_of_In.
  by apply elem_of_replicate in Hin as [-> _].
Qed.

(** A guest with two memories that requests a URL and reads a secret, both
    granted; the answer comes back through its allocator. *)
Definition fetching_module : Module :=
  mkModule [("host", "fetch_secret"); ("host", "http_request")]
    [mkMemoryType 1 2 (String.list_ascii_of_string "API_KEYhttps://api.example/"); mkMemoryType 1 1 []] [mkTableType 1 10]
    (Some 0%nat) (Some (AllocTyped (λ _, GReturn 200 0)))
    (Some (λ _ _, GHost (CallHttpRequest 7 20 100 104) (λ _,
       GGrow 0 1 (λ _, GHost (CallFetchSecret 0 7 300 5) (λ _, GReturn 200 2))))) None.
Definition fetching_host : WasmtimeCapabilityHost :=
  with_caller_permissions (host_new "e" "w" None) [Secrets "API_*"; Http "https://api.example/*"].
Definition fetching_parse (text : string) : result string Url :=
  if decide (text = "https://api.example/") then Ok (mkUrl "https" (Some (Domain "api.example")) None "" None) else Err "bad URL".
Definition fetching_lookup (n i : nat) (host : string) : result string (list IpAddr) :=
  if decide (host = "api.example") then Ok [V4 93 184 216 34] else Err "unknown host".
Definition fetching_execute (n : nat) (addrs : list IpAddr) (url : Url) : result string Response :=
  Ok (mkResponse None (Ok (String.list_ascii_of_string "ok"))).

Lemma guests_confined_witness :
  let H := wasmtime_services (λ n, if decide (n = "API_KEY") then Some "s3cr3" else None) fetching_lookup fetching_execute
    fetching_parse (λ _, "https://api.example/") (λ _ _, Ok tt) (λ _ _ _ _, "id") (λ _, 0) in
  (match instantiate fetching_host (λ _, None) fetching_parse (λ _, Ok fetching_module) (λ _, "") (λ _, "") (λ _, "")
     demo_config [] None 0 false [] with
   | (Ok self, world) =>
       let '(answers, _, world) := invoke_all fetching_host (λ _, None) fetching_parse (λ _, "") demo_config self [([], false)] world in
       answers = [Ok (String.list_ascii_of_string "ok")] ∧
       world = [Requested "https://api.example/" [V4 93 184 216 34]; SecretRead "API_KEY" "s3cr3"]
   | _ => False
   end) ∧
  kept_in granted fetching_host (λ _, None) fetching_parse (λ _, Ok fetching_module) (λ _, "") (λ _, "") (λ _, "")
    demo_config [] None 0 false [([], false); ([], true)] [].
Proof.
  split.
  - vm_compute. split; reflexivity.
  - apply (guests_confined (λ n, if decide (n = "API_KEY") then Some "s3cr3" else None) fetching_lookup fetching_execute
      fetching_parse (λ _, "https://api.example/") (λ _ _, Ok tt) (λ _ _ _ _, "id") (λ _, 0)).
    intros n i text. exists "unknown host". reflexivity.
Defined.
