(* ===== verification/SemanticCache.v ===== *)
(** * The semantic cache ([src/cache], and its use in [src/executor/fusion_bridge.rs])

    Responses kept under the embedding of a key, found again by the nearest
    neighbour of another key's embedding. The methods take no lock for their
    whole length: each is a thread that advances from one lock or await to the
    next, over the shared entries, index and label counter, and threads
    interleave as a schedule says. The embedder and the vector index are
    parameters without laws. Every hit was put, by a thread of the schedule less
    than the time to live before, under a key whose embedding is similar enough
    ([cache_hits_sound]). *)
From S2P Require Import Prelude Text Money Json ExecTypes Scheduler Runtime HostTypes HostExecutor.
From Stdlib Require Import Floats.SpecFloat.
Open Scope stdpp_scope.
Open Scope Z_scope.

(** ** Similarity ([embeddings.rs]) *)
Definition Embedding := list spec_float.
Definition f32_zero : spec_float := S754_zero false.
Definition f32_sum (l : list spec_float) : spec_float := foldl (SFadd 24 128) f32_zero l.
Definition norm (a : Embedding) : spec_float := SFsqrt 24 128 (f32_sum ((λ x, SFmul 24 128 x x) <$> a)).
Definition cosine_similarity (a b : Embedding) : spec_float :=
  if negb (length a =? length b)%nat then f32_zero else
  let dot := f32_sum (zip_with (SFmul 24 128) a b) in
  let norm_a := norm a in
  let norm_b := norm b in
  if SFeqb norm_a f32_zero || SFeqb norm_b f32_zero then f32_zero
  else SFdiv 24 128 dot (SFmul 24 128 norm_a norm_b).

(** The one embedder there is: [i / 384] for every text. *)
Definition mock_embed (text : string) : result string Embedding :=
  Ok ((λ i, SFdiv 24 128 (binary_normalize 24 128 (Z.of_nat i) 0 false) (binary_normalize 24 128 384 0 false)) <$> seq 0 384).

(** ** The cache ([semantic_cache.rs]) *)
Definition Label := N.
Record CacheEntry := mkCacheEntry {
  ce_embedding : Embedding;
  ce_response : json;
  ce_usage : option json;
  ce_key : string;
  ce_inserted_at : Z;
}.
Record CacheHit := mkCacheHit { ch_response : json; ch_usage : option json }.

(** [usearch::Index], new in the preferred or the minimal configuration, with
    capacity reserved; a search is for one neighbour. *)
Class VectorIndex (I : Type) := {
  index_new : bool → nat → result string I;
  index_reserve : nat → I → result string I;
  index_add : Label → Embedding → I → result string I;
  index_remove : Label → I → I;
  index_search : Embedding → I → result string (list Label);
}.

Record SemanticCache (I : Type) := mkCache {
  sc_entries : gmap Label CacheEntry;
  sc_index : I;
  sc_similarity_threshold : spec_float;
  sc_max_entries : nat;
  sc_next_label : Label;
  sc_dimensions : nat;
  sc_ttl : Z;
}.
Arguments mkCache {_}. Arguments sc_entries {_}. Arguments sc_index {_}. Arguments sc_similarity_threshold {_}.
Arguments sc_max_entries {_}. Arguments sc_next_label {_}. Arguments sc_dimensions {_}. Arguments sc_ttl {_}.
Definition DEFAULT_TTL_SECS : Z := 3600.

Section cache.
Context {I : Type} `{!VectorIndex I}.
Local Notation Cache := (SemanticCache I).

Definition set_entries (es : gmap Label CacheEntry) (c : Cache) : Cache :=
  mkCache es (sc_index c) (sc_similarity_threshold c) (sc_max_entries c) (sc_next_label c) (sc_dimensions c) (sc_ttl c).
Definition set_index (i : I) (c : Cache) : Cache :=
  mkCache (sc_entries c) i (sc_similarity_threshold c) (sc_max_entries c) (sc_next_label c) (sc_dimensions c) (sc_ttl c).
Definition set_next_label (l : Label) (c : Cache) : Cache :=
  mkCache (sc_entries c) (sc_index c) (sc_similarity_threshold c) (sc_max_entries c) l (sc_dimensions c) (sc_ttl c).

Definition open_index (preferred : bool) (dimensions : nat) : result string I :=
  map_err (λ e, "Failed to create HNSW index: " +:+ e) (index_new preferred dimensions).
Definition cache_with (index : I) (similarity_threshold : spec_float) (max_entries dimensions : nat) : Cache :=
  mkCache ∅ index similarity_threshold max_entries 0%N dimensions (DEFAULT_TTL_SECS * 1000).
Definition try_new (similarity_threshold : spec_float) (max_entries dimensions : nat) : result string Cache :=
  index ← open_index true dimensions;
  index ← map_err (λ e, "Failed to reserve index capacity: " +:+ e) (index_reserve max_entries index);
  Ok (cache_with index similarity_threshold max_entries dimensions).
Definition cache_new (similarity_threshold : spec_float) (max_entries dimensions : nat) : result string Cache :=
  match try_new similarity_threshold max_entries dimensions with
  | Ok c => Ok c
  | Err primary_err =>
      index ← open_index false dimensions;
      index ← map_err (λ e, "SemanticCache init failed (primary: " +:+ primary_err
        +:+ "); minimal fallback reserve failed: " +:+ e) (index_reserve max_entries index);
      Ok (cache_with index similarity_threshold max_entries dimensions)
  end.
Definition with_ttl (c : Cache) (ttl : Z) : Cache :=
  mkCache (sc_entries c) (sc_index c) (sc_similarity_threshold c) (sc_max_entries c) (sc_next_label c) (sc_dimensions c) ttl.
Definition set_capacity (c : Cache) (new_capacity : nat) : Cache :=
  mkCache (sc_entries c) (sc_index c) (sc_similarity_threshold c) new_capacity (sc_next_label c) (sc_dimensions c) (sc_ttl c).

(** The calls, and where a call stands. *)
Inductive CacheOp := Lookup (query : string) | Put (key : string) (response : json) (usage : option json) | Clear.
Record Pending := mkPending { pe_key : string; pe_response : json; pe_usage : option json; pe_embedding : Embedding; pe_label : Label }.
Inductive Pc :=
| Start (op : CacheOp)
| LookSearch (query : Embedding)
| LookRead (query : Embedding) (label : Label)
| LookEvict (label : Label)
| LookUnindex (label : Label)
| PutIndex (p : Pending)
| PutChoose (p : Pending)
| PutUnindex (p : Pending) (oldest : Label)
| PutStore (p : Pending) (oldest : option Label)
| ClearEntries (new_index : I)
| ClearIndex (new_index : I)
| ClearLabels
| Answered (hit : option CacheHit)
| Returned.

Section threads.
Context (embed : string → result string Embedding).

(** [entries.keys().min()] *)
Definition oldest_label (es : gmap Label CacheEntry) : option Label :=
  match (map_to_list es).*1 with
  | [] => None
  | l :: ls => Some (foldl N.min l ls)
  end.

(** One step of a call at time [now]. *)
Definition advance (now : Z) (pc : Pc) (c : Cache) : Pc * Cache :=
  match pc with
  | Start (Lookup query) =>
      match embed query with
      | Err _ => (Answered None, c)
      | Ok emb => if decide (sc_entries c = ∅) then (Answered None, c) else (LookSearch emb, c)
      end
  | LookSearch query =>
      match index_search query (sc_index c) with
      | Ok (label :: _) => (LookRead query label, c)
      | _ => (Answered None, c)
      end
  | LookRead query label =>
      match sc_entries c !! label with
      | None => (Answered None, c)
      | Some entry =>
          if sc_ttl c <=? now - ce_inserted_at entry then (LookEvict label, c)
          else if SFleb (sc_similarity_threshold c) (cosine_similarity query (ce_embedding entry))
          then (Answered (Some (mkCacheHit (ce_response entry) (ce_usage entry))), c)
          else (Answered None, c)
      end
  | LookEvict label =>
      match sc_entries c !! label with
      | Some _ => (LookUnindex label, set_entries (delete label (sc_entries c)) c)
      | None => (Answered None, c)
      end
  | LookUnindex label => (Answered None, set_index (index_remove label (sc_index c)) c)
  | Start (Put key response usage) =>
      match embed key with
      | Err _ => (Returned, c)
      | Ok emb =>
          let label := sc_next_label c in
          (PutIndex (mkPending key response usage emb label), set_next_label ((label + 1) `mod` 2 ^ 64)%N c)
      end
  | PutIndex p =>
      match index_add (pe_label p) (pe_embedding p) (sc_index c) with
      | Ok i => (PutChoose p, set_index i c)
      | Err _ => (Returned, c)
      end
  | PutChoose p =>
      if (sc_max_entries c <=? size (sc_entries c))%nat then
        match oldest_label (sc_entries c) with
        | Some oldest => (PutUnindex p oldest, c)
        | None => (PutStore p None, c)
        end
      else (PutStore p None, c)
  | PutUnindex p oldest => (PutStore p (Some oldest), set_index (index_remove oldest (sc_index c)) c)
  | PutStore p oldest =>
      let es := match oldest with Some l => delete l (sc_entries c) | None => sc_entries c end in
      (Returned, set_entries (<[pe_label p := mkCacheEntry (pe_embedding p) (pe_response p) (pe_usage p) (pe_key p) now]> es) c)
  | Start Clear =>
      match open_index true (sc_dimensions c) ≫= index_reserve (sc_max_entries c) with
      | Ok i => (ClearEntries i, c)
      | Err _ => (Returned, c)
      end
  | ClearEntries i => (ClearIndex i, set_entries ∅ c)
  | ClearIndex i => (ClearLabels, set_index i c)
  | ClearLabels => (Returned, set_next_label 0%N c)
  | Answered _ | Returned => (pc, c)
  end.

(** ** Calls that run alone: no call takes more than six steps. *)
Fixpoint complete (steps : nat) (now : Z) (pc : Pc) (c : Cache) : Pc * Cache :=
  match steps with
  | O => (pc, c)
  | S steps => let '(pc, c) := advance now pc c in complete steps now pc c
  end.
Definition lookup (now : Z) (query : string) (c : Cache) : option CacheHit * Cache :=
  match complete 6 now (Start (Lookup query)) c with
  | (Answered hit, c) => (hit, c)
  | (_, c) => (None, c)
  end.
Definition put_with_usage (now : Z) (key : string) (response : json) (usage : option json) (c : Cache) : Cache :=
  (complete 6 now (Start (Put key response usage)) c).2.
Definition clear (c : Cache) : Cache := (complete 6 0 (Start Clear) c).2.

(** ** Calls that interleave: each step of the schedule advances one thread. *)
Definition System : Type := list Pc * Cache.
Definition schedule_step (s : System) (step : nat * Z) : System :=
  match s.1 !! step.1 with
  | Some pc => let '(pc, c) := advance step.2 pc s.2 in (<[step.1 := pc]> s.1, c)
  | None => s
  end.
Definition run_schedule (ops : list CacheOp) (sched : list (nat * Z)) (c : Cache) : System :=
  foldl schedule_step (Start <$> ops, c) sched.
End threads.
End cache.

(** ** The bridge with a cache ([FusionChatProvider::chat_completion]) *)
Section bridge.
Context {I : Type} `{!VectorIndex I} (embed : string → result string Embedding).
(** [serde_json::to_vec], SHA-256 in hexadecimal, and the JSON of numbers and
    of usage. *)
Context (to_vec : json → string) (sha256_hex : string → string).
Context (f32_to_value : spec_float → json) (u32_to_value : Z → json).
Context (usage_to_value : Usage → json) (usage_from_value : json → option Usage).
Context (provider_completion : ChatCompletionRequest → result string ChatCompletionResponse).

Definition cache_key (namespace : string) (r : ChatRequest) : string :=
  sha256_hex (to_vec (JObject
    [("namespace", JString namespace); ("model", JString (rq_model r));
     ("messages", JArray ((λ m, JObject [("role", JString (role m)); ("content", JString (content m))]) <$> rq_messages r));
     ("temperature", from_option f32_to_value JNull (rq_temperature r));
     ("max_tokens", from_option u32_to_value JNull (rq_max_tokens r))])).

Definition chat_completion (namespace : string) (now : Z) (r : ChatRequest) (cache : option (SemanticCache I))
    : result string ChatResponse * option (SemanticCache I) :=
  let '(hit, cache) := match cache with
    | Some c => let '(hit, c) := lookup embed now (cache_key namespace r) c in (hit, Some c)
    | None => (None, None)
    end in
  match (h ← hit; text ← json_get "content" (ch_response h) ≫= as_str; Some (text, ch_usage h ≫= usage_from_value)) with
  | Some (text, usage) => (Ok (mkChatResponse text usage [] []), cache)
  | None =>
      match provider_completion (to_src_request r) with
      | Err e => (Err ("Provider error: " +:+ e), cache)
      | Ok response =>
          let text := match cp_choices response with ch :: _ => content (ch_message ch) | [] => "" end in
          let cache := match cache with
            | Some c =>
                if decide (trim text = "") then Some c
                else Some (put_with_usage embed now (cache_key namespace r) (JObject [("content", JString text)])
                       (usage_to_value <$> cp_usage response) c)
            | None => None
            end in
          (Ok (to_runtime_response response), cache)
      end
  end.
End bridge.

(** ** Hits are sound *)
Section soundness.
Context {I : Type} `{!VectorIndex I} (embed : string → result string Embedding).
Context (ops : list CacheOp).

(** [e] was stored by a thread of the schedule, at its time. *)
Definition stored_by (sched : list (nat * Z)) (e : CacheEntry) : Prop :=
  embed (ce_key e) = Ok (ce_embedding e) ∧
  ∃ j, ops !! j = Some (Put (ce_key e) (ce_response e) (ce_usage e)) ∧ (j, ce_inserted_at e) ∈ sched.

Definition pc_ok (op : CacheOp) (pc : @Pc I) : Prop :=
  match pc with
  | Start op' => op' = op
  | LookSearch q | LookRead q _ => ∃ query, op = Lookup query ∧ embed query = Ok q
  | PutIndex p | PutChoose p | PutUnindex p _ | PutStore p _ =>
      op = Put (pe_key p) (pe_response p) (pe_usage p) ∧ embed (pe_key p) = Ok (pe_embedding p)
  | _ => True
  end.

Record system_ok (ttl : Z) (threshold : spec_float) (sched : list (nat * Z)) (s : list Pc * SemanticCache I) : Prop := mkSystemOk {
  so_threads : Forall2 pc_ok ops s.1;
  so_entries : ∀ l e, sc_entries s.2 !! l = Some e → stored_by sched e;
  so_ttl : sc_ttl s.2 = ttl;
  so_threshold : sc_similarity_threshold s.2 = threshold;
}.

Lemma stored_by_later sched step e : stored_by sched e → stored_by (sched ++ [step]) e.
Proof. intros (He & j & Hj & Hin). split; [done|]. exists j. split; [done|]. apply elem_of_app. by left. Qed.

(** A step keeps what it is in the middle of, and stores only what its call
    puts. *)
Lemma advance_ok op now pc (c : SemanticCache I) pc' c' :
  pc_ok op pc → advance embed now pc c = (pc', c') →
  pc_ok op pc' ∧ sc_ttl c' = sc_ttl c ∧ sc_similarity_threshold c' = sc_similarity_threshold c ∧
  ∀ l e, sc_entries c' !! l = Some e →
    sc_entries c !! l = Some e ∨
    op = Put (ce_key e) (ce_response e) (ce_usage e) ∧ embed (ce_key e) = Ok (ce_embedding e) ∧ ce_inserted_at e = now.
Proof.
  intros Hpc. destruct pc as [[query|key response usage|]|q|q l|l|l|p|p|p o|p o|i|i| |h|]; cbn [advance]; intros Ha.
  - csimpl in Hpc. subst op. destruct (embed query) as [emb|] eqn:He; [case_decide|]; simplify_eq; (split_and!; csimpl; eauto).
  - csimpl in Hpc. subst op. destruct (embed key) as [emb|] eqn:He; simplify_eq; (split_and!; csimpl; eauto).
  - destruct (_ ≫= _); simplify_eq; (split_and!; csimpl; eauto).
  - destruct (index_search q (sc_index c)) as [[|l ls]|]; simplify_eq; (split_and!; csimpl; eauto).
  - destruct (sc_entries c !! l) as [e|]; [|simplify_eq; split_and!; csimpl; eauto].
    destruct (sc_ttl c <=? _); [|destruct (SFleb _ _)]; simplify_eq; (split_and!; csimpl; eauto).
  - destruct (sc_entries c !! l) as [e|]; simplify_eq; (split_and!; csimpl; eauto).
    intros l' e' [_ He']%lookup_delete_Some. by left.
  - simplify_eq. split_and!; csimpl; eauto.
  - destruct (index_add _ _ _); simplify_eq; (split_and!; csimpl; eauto).
  - destruct (_ <=? _)%nat; [destruct (oldest_label _)|]; simplify_eq; (split_and!; csimpl; eauto).
  - simplify_eq. split_and!; csimpl; eauto.
  - csimpl in Hpc. destruct Hpc as [-> He]. simplify_eq. split_and!; csimpl; [done..|].
    intros l e. rewrite lookup_insert_Some. intros [[<- <-]|[_ Hl]]; [by right|]. left.
    destruct o; [by apply lookup_delete_Some in Hl as [_ ?]|done].
  - simplify_eq. split_and!; csimpl; [done..|]. intros l e. by rewrite lookup_empty.
  - simplify_eq. split_and!; csimpl; eauto.
  - simplify_eq. split_and!; csimpl; eauto.
  - simplify_eq. split_and!; csimpl; eauto.
  - simplify_eq. split_and!; csimpl; eauto.
Qed.

Lemma schedule_step_ok ttl threshold sched s step :
  system_ok ttl threshold sched s → system_ok ttl threshold (sched ++ [step]) (schedule_step embed s step).
Proof.
  intros [Ht He Httl Hth]. unfold schedule_step. destruct step as [i now]. csimpl.
  destruct (s.1 !! i) as [pc|] eqn:Hi.
  - destruct (Forall2_lookup_r _ _ _ _ _ Ht Hi) as (op & Hop & Hpc).
    destruct (advance embed now pc s.2) as [pc' c'] eqn:Ha.
    destruct (advance_ok op now pc s.2 pc' c' Hpc Ha) as (Hpc' & Httl' & Hth' & He'). split; csimpl.
    + rewrite <- (list_insert_id ops i op Hop). by apply Forall2_insert.
    + intros l e [Hl|(-> & Hemb & Hnow)]%He'; [by eapply stored_by_later, He|].
      split; [done|]. exists i. rewrite Hnow. split; [done|]. apply elem_of_app. right. by left.
    + by rewrite Httl'.
    + by rewrite Hth'.
  - split; [done| |done..]. intros l e Hl. by eapply stored_by_later, He.
Qed.
Lemma run_schedule_ok sched (c : SemanticCache I) :
  sc_entries c = ∅ →
  system_ok (sc_ttl c) (sc_similarity_threshold c) sched (run_schedule embed ops sched c).
Proof.
  intros Hc. unfold run_schedule. induction sched as [|step sched IH] using rev_ind.
  - csimpl. split; csimpl; [|intros l e; by rewrite Hc, lookup_empty|done..].
    apply Forall2_fmap_r, Forall_Forall2_diag, Forall_forall. done.
  - rewrite foldl_app. by apply schedule_step_ok.
Qed.

(** C35. However calls interleave: when a lookup answers with a hit, a put of the
    same schedule stored that response with its usage less than the time to
    live before, and the embeddings of the two keys are as similar as the
    threshold asks. *)
Theorem cache_hits_sound sched (c : SemanticCache I) i now pc hit :
  sc_entries c = ∅ →
  (run_schedule embed ops sched c).1 !! i = Some pc → (∀ h, pc ≠ Answered h) →
  (advance embed now pc (run_schedule embed ops sched c).2).1 = Answered (Some hit) →
  ∃ query key j t eq ek,
    ops !! i = Some (Lookup query) ∧ ops !! j = Some (Put key (ch_response hit) (ch_usage hit)) ∧
    (j, t) ∈ sched ∧ now - t < sc_ttl c ∧
    embed query = Ok eq ∧ embed key = Ok ek ∧ SFleb (sc_similarity_threshold c) (cosine_similarity eq ek) = true.
Proof.
  intros Hc Hi Hpc Ha. destruct (run_schedule_ok sched c Hc) as [Ht He Httl Hth].
  destruct (Forall2_lookup_r _ _ _ _ _ Ht Hi) as (op & Hop & Hok). revert Ha.
  destruct (run_schedule embed ops sched c) as [pcs s]. csimpl in *.
  destruct pc as [[query|key response usage|]|q|q l|l|l|p|p|p o|p o|x|x| |h|]; cbn [advance].
  all: repeat (case_match; csimpl; try done). all: try done.
  - match goal with H : sc_entries s !! l = Some ?e |- _ => rename e into entry; apply He in H as (Hemb & j & Hj & Hin) end.
    intros [= <-]. csimpl. destruct Hok as (query & -> & Hq).
    exists query, (ce_key entry), j, (ce_inserted_at entry), q, (ce_embedding entry). split_and!; try done.
    + match goal with H : (_ <=? _) = false |- _ => apply Z.leb_gt in H; lia end.
    + by rewrite <- Hth.
  - by destruct (Hpc h).
Qed.
End soundness.

(** ** Capacity *)
Section capacity.
Context {I : Type} `{!VectorIndex I} (embed : string → result string Embedding).

Lemma oldest_label_in (es : gmap Label CacheEntry) l : oldest_label es = Some l → is_Some (es !! l).
Proof.
  unfold oldest_label. destruct ((map_to_list es).*1) as [|x xs] eqn:Hk; [done|]. intros [= <-].
  assert (∀ ys y, foldl N.min y ys ∈ y :: ys) as Hmin.
  { clear. induction ys as [|z ys IH]; intros y; [by left|]. csimpl.
    destruct (N.min_spec y z) as [[_ ->]|[_ ->]].
    - destruct (proj1 (elem_of_cons _ _ _) (IH y)) as [->|H]; [by left|]. right. by right.
    - right. apply IH. }
  specialize (Hmin xs x). rewrite <- Hk in Hmin. apply list_elem_of_fmap in Hmin as ([l e] & -> & Hin).
  apply elem_of_map_to_list in Hin. by eexists.
Qed.

Lemma oldest_label_none (es : gmap Label CacheEntry) : oldest_label es = None → size es = 0%nat.
Proof.
  unfold oldest_label. destruct ((map_to_list es).*1) as [|x xs] eqn:Hk; [|done]. intros _.
  apply (f_equal length) in Hk. rewrite length_fmap, length_map_to_list in Hk. done.
Qed.
Lemma cache_insert_size (es : gmap Label CacheEntry) l e : (size (<[l := e]> es) ≤ S (size es))%nat.
Proof. rewrite map_size_insert. case_match; csimpl; lia. Qed.

(** A cache used by one caller at a time never holds more than it may. *)
Theorem put_bounded now key response usage (c : SemanticCache I) :
  (0 < sc_max_entries c)%nat → (size (sc_entries c) ≤ sc_max_entries c)%nat →
  (size (sc_entries (put_with_usage embed now key response usage c)) ≤ sc_max_entries c)%nat.
Proof.
  intros Hpos Hsize. unfold put_with_usage. cbn [complete advance].
  destruct (embed key) as [emb|]; [|done]. cbn [complete advance pe_label pe_embedding].
  destruct (index_add _ _ _) as [i|]; [|done]. cbn [complete advance sc_max_entries sc_entries set_index set_next_label].
  destruct (_ <=? _)%nat eqn:Hfull; [apply Nat.leb_le in Hfull|apply Nat.leb_gt in Hfull].
  - destruct (oldest_label (sc_entries c)) as [o|] eqn:Ho; [|apply oldest_label_none in Ho; lia].
    cbn [complete advance sc_entries set_index set_entries snd]. etrans; [apply cache_insert_size|].
    rewrite map_size_delete_Some by (by apply oldest_label_in). cbn [sc_entries set_next_label]. lia.
  - cbn [complete advance sc_entries set_index set_entries snd]. etrans; [apply cache_insert_size|].
    cbn [sc_entries set_next_label] in *. lia.
Qed.
End capacity.

(** ** A concrete index: the vectors in the order they were added. *)
#[global] Instance list_index : VectorIndex (list (Label * Embedding)) := {|
  index_new _ _ := Ok [];
  index_reserve _ i := Ok i;
  index_add l e i := Ok (i ++ [(l, e)]);
  index_remove l i := filter (λ p, p.1 ≠ l) i;
  index_search _ i := Ok i.*1;
|}.
Definition f32_0_9 : spec_float := S754_finite false 15099494 (-24).
Definition demo_cache (max_entries : nat) : SemanticCache (list (Label * Embedding)) :=
  mkCache ∅ [] f32_0_9 max_entries 0%N 384 3600000.

Lemma cache_hits_sound_witness :
  let ops := [Put "a" (JString "answer") None; Lookup "b"] in
  let sched := [(0, 5); (0, 6); (0, 7); (0, 8); (1, 9); (1, 10)]%nat in
  let sched := (λ s, (s.1, Z.of_nat s.2)) <$> sched in
  (run_schedule mock_embed ops sched (demo_cache 2)).1 !! 1%nat = Some (LookRead (default [] (match mock_embed "" with Ok e => Some e | _ => None end)) 0%N) ∧
  ∃ query key j t eq ek,
    ops !! 1%nat = Some (Lookup query) ∧ ops !! j = Some (Put key (JString "answer") None) ∧
    (j, t) ∈ sched ∧ 20 - t < 3600000 ∧
    mock_embed query = Ok eq ∧ mock_embed key = Ok ek ∧ SFleb f32_0_9 (cosine_similarity eq ek) = true.
Proof.
  intros ops sched0 sched.
  assert ((run_schedule mock_embed ops sched (demo_cache 2)).1 !! 1%nat =
    Some (LookRead (default [] (match mock_embed "" with Ok e => Some e | _ => None end)) 0%N)) as Hpc
    by (vm_compute; reflexivity).
  split; [exact Hpc|].
  apply (cache_hits_sound mock_embed ops sched (demo_cache 2) 1 20 _ (mkCacheHit (JString "answer") None) eq_refl Hpc).
  - discriminate.
  - vm_compute. reflexivity.
Defined.

(** ** Where the code departs from its comments *)

(** Two puts that both find the cache full choose the same entry to evict and
    then both store: the cache holds more than [max_entries]. *)
Theorem concurrent_puts_exceed_capacity :
  let ops := [Put "a" JNull None; Put "b" JNull None; Put "c" JNull None] in
  let sched := (λ i : nat, (i, 0)) <$> [0; 0; 0; 0; 1; 1; 1; 2; 2; 2; 1; 1; 2; 2]%nat in
  let final := run_schedule mock_embed ops sched (demo_cache 1) in
  final.1 = [Returned; Returned; Returned] ∧ sc_max_entries final.2 = 1%nat ∧ size (sc_entries final.2) = 2%nat.
Proof. vm_compute. auto. Qed.

(** A cache of capacity zero stores an entry. *)
Theorem zero_capacity_stores :
  size (sc_entries (put_with_usage mock_embed 0 "a" JNull None (demo_cache 0))) = 1%nat.
Proof. vm_compute. reflexivity. Qed.

(** The namespace, the model and the sampling parameters are hashed into the
    key so that they separate entries; a lookup compares embeddings and never
    keys, and the one embedder there is gives every key the same. *)
Theorem keys_not_compared key1 key2 response usage :
  (lookup mock_embed 1 key2 (put_with_usage mock_embed 0 key1 response usage (demo_cache 8))).1 =
    Some (mkCacheHit response usage).
Proof. vm_compute. reflexivity. Qed.

Theorem namespaces_not_isolated to_vec sha256_hex f32_to_value u32_to_value usage_to_value usage_from_value
    provider other namespace1 namespace2 r1 r2 response text rest :
  provider (to_src_request r1) = Ok response → cp_usage response = None →
  cp_choices response = mkChoice 0 (mkMessage "assistant" text) "stop" :: rest → trim text ≠ "" →
  let '(_, cache) := chat_completion mock_embed to_vec sha256_hex f32_to_value u32_to_value usage_to_value usage_from_value
    provider namespace1 0 r1 (Some (demo_cache 8)) in
  (chat_completion mock_embed to_vec sha256_hex f32_to_value u32_to_value usage_to_value usage_from_value
    other namespace2 1 r2 cache).1 = Ok (mkChatResponse text None [] []).
Proof.
  intros Hp Hu Hc Ht. unfold chat_completion.
  set (k1 := cache_key _ _ _ _ namespace1 r1). set (k2 := cache_key _ _ _ _ namespace2 r2).
  assert (lookup mock_embed 0 k1 (demo_cache 8) = (None, demo_cache 8)) as -> by (vm_compute; reflexivity).
  cbn [mbind option_bind]. rewrite Hp, Hc. cbn [content ch_message]. rewrite decide_False by done. rewrite Hu. cbn [fmap option_fmap option_map].
  pose proof (keys_not_compared k1 k2 (JObject [("content", JString text)]) None) as Hk.
  destruct (lookup mock_embed 1 k2 _) as [hit c]. cbn [fst] in Hk. subst hit. done.
Qed.
