(* ===== verification/AgentPersistence.v ===== *)
(** * Persistent agent state ([crates/fusion-agent-state/src/persistence.rs])

    The SQLite store of an agent's state: one row that holds the state as JSON.
    A database is that row; every SQL statement may fail, as the fault of a
    call says. JSON text is a parameter. The store behaves like the store in
    memory, with a failed statement changing nothing, and what it holds is
    there when it is opened again ([sqlite_store_refines]). *)
From S2P Require Import Prelude Text Money Json AgentState AgentRunner.
From Stdlib Require Import Floats.SpecFloat Ascii.
Open Scope stdpp_scope.
Open Scope Z_scope.

(** The value of the row with [id = 1]. *)
Definition Database := option string.

(** The statements of a call, and which of them fail with what error. *)
Inductive Statement :=
| OpenConnection | SetPragmas | CreateTable | CountRow | InsertRow | SelectRow | BeginTx | ReplaceRow | CommitTx.
Definition Faults := Statement → option string.
Definition no_faults : Faults := λ _, None.

Record SqliteStateStore := mkSqliteStore { sq_skill : SkillSpec; sq_db : Database }.

Section sqlite.
(** JSON text, and the text of the error for a row that is not there. *)
Context (to_string : json → string) (from_str : string → result string json) (no_rows : string).

Definition sql (f : Faults) (st : Statement) (what : string) : result StateError unit :=
  match f st with Some e => Err (PatchValidation (what +:+ ": " +:+ e)) | None => Ok tt end.

Definition load_inner (f : Faults) (db : Database) : result StateError ExecutionState :=
  _ ← sql f SelectRow "load";
  text ← ok_or (PatchValidation ("load: " +:+ no_rows)) db;
  value ← map_err (λ e, PatchValidation ("json parse: " +:+ e)) (from_str text);
  state_new value.

(** [open]: the store, and the database it leaves. *)
Definition sqlite_open (f : Faults) (skill : SkillSpec) (db : Database) (initial : ExecutionState)
    : result StateError SqliteStateStore * Database :=
  match (_ ← sql f OpenConnection "sqlite open"; _ ← sql f SetPragmas "pragma"; _ ← sql f CreateTable "create table";
         _ ← skill_validate skill; _ ← validate_against_schema (state_value initial) (schema skill);
         sql f CountRow "count") with
  | Err e => (Err e, db)
  | Ok _ =>
      match db with
      | None =>
          match sql f InsertRow "insert" with
          | Err e => (Err e, db)
          | Ok _ => let db := Some (to_string (state_value initial)) in (Ok (mkSqliteStore skill db), db)
          end
      | Some _ =>
          (existing ← load_inner f db;
           _ ← map_err (λ e, SchemaViolation ("existing state violates new schema: " +:+ state_error_display e))
                 (validate_against_schema (state_value existing) (schema skill));
           Ok (mkSqliteStore skill db), db)
      end
  end.

(** [load]; [None] is its panic. *)
Definition sqlite_load (f : Faults) (s : SqliteStateStore) : option ExecutionState :=
  match load_inner f (sq_db s) with Ok st => Some st | Err _ => None end.
Definition sqlite_validate_patch (f : Faults) (s : SqliteStateStore) (p : StatePatch) : option (result StateError unit) :=
  cur ← sqlite_load f s;
  Some (merged ← merge_state (state_value cur) (patch_value p); validate_against_schema merged (schema (sq_skill s))).

(** [commit]: what is returned before the transaction commits rolls it back. *)
Definition sqlite_commit (f : Faults) (p : StatePatch) (s : SqliteStateStore)
    : result StateError ExecutionState * SqliteStateStore :=
  match (_ ← sql f BeginTx "begin tx"; cur ← load_inner f (sq_db s);
         merged ← merge_state (state_value cur) (patch_value p);
         _ ← validate_against_schema merged (schema (sq_skill s));
         _ ← sql f ReplaceRow "commit"; _ ← sql f CommitTx "commit tx"; Ok merged) with
  | Err e => (Err e, s)
  | Ok merged => (state_new merged, mkSqliteStore (sq_skill s) (Some (to_string merged)))
  end.

(** Commits one after the other, each with its faults. *)
Fixpoint sqlite_commits (ps : list (StatePatch * Faults)) (s : SqliteStateStore)
    : list (result StateError ExecutionState) * SqliteStateStore :=
  match ps with
  | [] => ([], s)
  | (p, f) :: ps =>
      let '(r, s) := sqlite_commit f p s in
      let '(rs, s) := sqlite_commits ps s in (r :: rs, s)
  end.

(** ** The store in memory as its specification *)

(** A commit of the specification: what the store in memory answers, or a
    database error with nothing changed. *)
Inductive commit_spec (f : Faults) (p : StatePatch) (m : InMemoryStateStore)
    : result StateError ExecutionState → InMemoryStateStore → Prop :=
| commit_answered r m' : mem_commit p m = (r, m') → commit_spec f p m r m'
| commit_faulted st e e' : f st = Some e → commit_spec f p m (Err (PatchValidation e')) m.
Inductive commits_spec : list (StatePatch * Faults) → InMemoryStateStore →
    list (result StateError ExecutionState) → InMemoryStateStore → Prop :=
| commits_done m : commits_spec [] m [] m
| commits_next p f ps m r m1 rs m2 :
    commit_spec f p m r m1 → commits_spec ps m1 rs m2 → commits_spec ((p, f) :: ps) m (r :: rs) m2.

(** The database holds the state of the store in memory. *)
Record holds (m : InMemoryStateStore) (s : SqliteStateStore) : Prop := mkHolds {
  holds_skill : sq_skill s = store_skill m;
  holds_row : sq_db s = Some (to_string (state_value (store_state m)));
  holds_object : is_object (state_value (store_state m)) = true;
  holds_valid : validate_against_schema (state_value (store_state m)) (schema (store_skill m)) = Ok tt;
}.

Context (parses : ∀ v, from_str (to_string v) = Ok v).

Lemma sql_ok f st what : f st = None → sql f st what = Ok tt.
Proof. unfold sql. by intros ->. Qed.
Lemma sql_err f st what e : f st = Some e → sql f st what = Err (PatchValidation (what +:+ ": " +:+ e)).
Proof. unfold sql. by intros ->. Qed.
Lemma load_holds m s f : holds m s → f SelectRow = None → load_inner f (sq_db s) = Ok (store_state m).
Proof using parses.
  intros [_ Hrow Hobj _] Hf. unfold load_inner. rewrite sql_ok, Hrow by done. csimpl. rewrite parses. csimpl.
  unfold state_new. rewrite Hobj. by destruct (store_state m).
Qed.

Lemma commit_simulates f p m s r s' :
  is_object (patch_value p) = true → holds m s → sqlite_commit f p s = (r, s') →
  ∃ m', commit_spec f p m r m' ∧ holds m' s'.
Proof using parses.
  intros Hp Hh. unfold sqlite_commit.
  destruct (f BeginTx) as [e|] eqn:Hb.
  { rewrite (sql_err f BeginTx _ e) by done. csimpl. intros [= <- <-]. exists m. split; [by econstructor 2|done]. }
  rewrite (sql_ok f BeginTx) by done. csimpl. destruct (f SelectRow) as [e|] eqn:Hl.
  { unfold load_inner. rewrite (sql_err f SelectRow _ e) by done. csimpl. intros [= <- <-]. exists m. split; [by econstructor 2|done]. }
  rewrite (load_holds m s f Hh Hl). csimpl. destruct Hh as [Hskill Hrow Hobj Hval]. rewrite Hskill.
  destruct (merge_state _ _) as [merged|e] eqn:Hm; csimpl.
  2: { intros [= <- <-]. exists m. split; [|by split]. constructor. unfold mem_commit. by rewrite Hm. }
  destruct (validate_against_schema merged (schema (store_skill m))) as [[]|e] eqn:Hv; csimpl.
  2: { intros [= <- <-]. exists m. split; [|by split]. constructor. unfold mem_commit. by rewrite Hm, Hv. }
  destruct (f ReplaceRow) as [e|] eqn:Hr.
  { rewrite (sql_err f ReplaceRow _ e) by done. csimpl. intros [= <- <-]. exists m. split; [by econstructor 2|by split]. }
  rewrite (sql_ok f ReplaceRow) by done. csimpl. destruct (f CommitTx) as [e|] eqn:Ht.
  { rewrite (sql_err f CommitTx _ e) by done. csimpl. intros [= <- <-]. exists m. split; [by econstructor 2|by split]. }
  rewrite (sql_ok f CommitTx) by done. csimpl. intros [= <- <-].
  pose proof (merge_object _ _ _ Hobj Hp Hm) as Hmo. unfold state_new. rewrite Hmo.
  exists (mkStore (store_skill m) (mkState merged)). split; [|by split].
  constructor. unfold mem_commit. by rewrite Hm, Hv.
Qed.

Lemma commits_simulate ps m s rs s' :
  Forall (λ pf, is_object (patch_value pf.1) = true) ps → holds m s → sqlite_commits ps s = (rs, s') →
  ∃ m', commits_spec ps m rs m' ∧ holds m' s'.
Proof using parses.
  intros Hps. revert m s rs. induction Hps as [|[p f] ps Hp _ IH]; intros m s rs Hh; cbn [sqlite_commits].
  { intros [= <- <-]. exists m. split; [constructor|done]. }
  destruct (sqlite_commit f p s) as [r s1] eqn:Hc. destruct (sqlite_commits ps s1) as [rs1 s2] eqn:Hcs. intros [= <- <-].
  destruct (commit_simulates f p m s r s1 Hp Hh Hc) as (m1 & H1 & Hh1).
  destruct (IH m1 s1 rs1 Hh1 Hcs) as (m2 & H2 & Hh2). exists m2. split; [by econstructor|done].
Qed.

Lemma open_new skill initial s db' f :
  is_object (state_value initial) = true → sqlite_open f skill None initial = (Ok s, db') →
  store_new skill initial = Ok (mkStore skill initial) ∧ db' = sq_db s ∧ holds (mkStore skill initial) s.
Proof.
  intros Hobj. unfold sqlite_open, store_new.
  destruct (sql f OpenConnection _) as [[]|]; csimpl; [|done]. destruct (sql f SetPragmas _) as [[]|]; csimpl; [|done].
  destruct (sql f CreateTable _) as [[]|]; csimpl; [|done]. destruct (skill_validate skill) as [[]|]; csimpl; [|done].
  destruct (validate_against_schema _ _) as [[]|] eqn:Hv; csimpl; [|done]. destruct (sql f CountRow _) as [[]|]; csimpl; [|done].
  destruct (sql f InsertRow _) as [[]|]; csimpl; [|done]. intros [= <- <-]. split_and!; [done..|]. by split.
Qed.
Lemma open_existing m s initial :
  holds m s → skill_validate (sq_skill s) = Ok tt →
  validate_against_schema (state_value initial) (schema (sq_skill s)) = Ok tt →
  sqlite_open no_faults (sq_skill s) (sq_db s) initial = (Ok s, sq_db s).
Proof using parses.
  intros Hh Hs Hi. unfold sqlite_open. rewrite !(sql_ok no_faults) by done. csimpl. rewrite Hs. csimpl. rewrite Hi. csimpl.
  pose proof (load_holds m s no_faults Hh eq_refl) as Hl. destruct Hh as [Hskill Hrow Hobj Hval].
  destruct (sq_db s) as [text|] eqn:Hdb; [|done]. rewrite Hl. csimpl. rewrite Hskill, Hval. csimpl.
  destruct s. csimpl in *. by subst.
Qed.

Lemma commits_spec_skill ps m rs m' : commits_spec ps m rs m' → store_skill m' = store_skill m.
Proof.
  induction 1 as [|p f ps m r m1 rs m2 Hc _ ->]; [done|]. destruct Hc as [r m1 Hc|]; [|done].
  revert Hc. unfold mem_commit. destruct (merge_state _ _); [|by intros [= _ <-]].
  destruct (validate_against_schema _ _); by intros [= _ <-].
Qed.

End sqlite.

(** ** Concrete text for JSON: values are countable, and a count is a string
    of bits. *)
#[global] Instance spec_float_countable : Countable spec_float.
Proof.
  refine (inj_countable'
    (λ f, match f with
          | S754_zero b => inl (inl b) | S754_infinity b => inl (inr b)
          | S754_nan => inr (inl tt) | S754_finite b m e => inr (inr (b, m, e)) end)
    (λ x, match x with
          | inl (inl b) => S754_zero b | inl (inr b) => S754_infinity b
          | inr (inl _) => S754_nan | inr (inr (b, m, e)) => S754_finite b m e end) _).
  by intros [].
Qed.
#[global] Instance jnum_countable : Countable jnum.
Proof.
  refine (inj_countable'
    (λ n, match n with PosInt z => inl (inl z) | NegInt z => inl (inr z) | Float f => inr f end)
    (λ x, match x with inl (inl z) => PosInt z | inl (inr z) => NegInt z | inr f => Float f end) _).
  by intros [].
Qed.

Definition JsonLeaf : Type := bool + jnum + string.
Fixpoint json_tree (j : json) : gen_tree JsonLeaf :=
  match j with
  | JNull => GenNode 0 []
  | JBool b => GenLeaf (inl (inl b))
  | JNumber n => GenLeaf (inl (inr n))
  | JString s => GenLeaf (inr s)
  | JArray l => GenNode 1 (json_tree <$> l)
  | JObject m => GenNode 2 ((λ kv : string * json, GenNode 3 [GenLeaf (inr kv.1); json_tree kv.2]) <$> m)
  end.
Fixpoint tree_json (t : gen_tree JsonLeaf) : json :=
  match t with
  | GenLeaf (inl (inl b)) => JBool b
  | GenLeaf (inl (inr n)) => JNumber n
  | GenLeaf (inr s) => JString s
  | GenNode 1 l => JArray (tree_json <$> l)
  | GenNode 2 l => JObject ((λ t, match t with GenNode _ [GenLeaf (inr k); v] => (k, tree_json v) | _ => ("", JNull) end) <$> l)
  | GenNode _ _ => JNull
  end.
Lemma tree_json_tree j : tree_json (json_tree j) = j.
Proof.
  induction j as [| | | |l IH|m IH] using json_ind'; cbn [json_tree tree_json]; try done.
  - f_equal. induction IH as [|j l Hj _ IH]; [done|]. csimpl. by rewrite Hj, IH.
  - f_equal. induction IH as [|[k j] m Hj _ IH]; [done|]. csimpl in *. by rewrite Hj, IH.
Qed.

Fixpoint bits (p : positive) : string :=
  match p with xH => "" | xO p => String "0"%char (bits p) | xI p => String "1"%char (bits p) end.
Fixpoint of_bits (s : string) : positive :=
  match s with "" => xH | String c s => if decide (c = "0"%char) then xO (of_bits s) else xI (of_bits s) end.
Lemma of_bits_bits p : of_bits (bits p) = p.
Proof. induction p as [p IH|p IH|]; csimpl; [by rewrite IH..|done]. Qed.

Definition bits_of_json (v : json) : string := bits (encode (json_tree v)).
Definition json_of_bits (s : string) : result string json :=
  match decode (of_bits s) with Some t => Ok (tree_json t) | None => Err "bad bits" end.
Lemma bits_parse v : json_of_bits (bits_of_json v) = Ok v.
Proof. unfold json_of_bits, bits_of_json. by rewrite of_bits_bits, decode_encode, tree_json_tree. Qed.

Definition demo_skill : SkillSpec := mkSkill JNull "count" "1".
Definition demo_commits : list (StatePatch * Faults) :=
  [(mkPatch (JObject [("a", JString "1")]), no_faults);
   (mkPatch (JObject [("b", JString "2")]), λ st, match st with CommitTx => Some "disk I/O error" | _ => None end)].


(** A state of the wrong shape is refused only after the transaction committed:
    a patch that is not an object, which deserialization lets through, answers
    with an error, replaces the row and makes every later [load] panic. *)
Theorem non_object_patch_wedges_store to_string from_str no_rows v s :
  (∀ v, from_str (to_string v) = Ok v) → sq_skill s = demo_skill → sq_db s = Some (to_string (JObject [])) →
  let '(r, s') := sqlite_commit to_string from_str no_rows no_faults (mkPatch (JString v)) s in
  is_ok r = false ∧ sq_db s' = Some (to_string (JString v)) ∧ sqlite_load from_str no_rows no_faults s' = None.
Proof.
  intros Hparse Hskill Hrow. unfold sqlite_commit, load_inner. rewrite Hrow, Hskill. csimpl. rewrite Hparse. csimpl.
  split_and!; [done..|]. unfold sqlite_load, load_inner. csimpl. by rewrite Hparse.
Qed.
