(* ===== verification/ProviderStream.v ===== *)
(** * Providers over a transport ([src/providers/mod.rs])

    How a provider turns a chat request into a request of the transport and
    the answer back: the model's formats are a record of functions, headers of
    the configuration are added, and a streamed answer is cut into server-sent
    events. Together with the transport: the chunks a provider delivers are
    those of the text of the whole body, wherever the network cut it
    ([provider_stream_exact]). *)
From S2P Require Import Prelude Text Money Json ExecTypes Scheduler Runtime MeteredStream HostTypes ShellTool HttpTool Utf8 Transport.
From Stdlib Require Import Ascii.
Open Scope stdpp_scope.
Open Scope nat_scope.

Fixpoint str_take (n : nat) (s : string) : string :=
  match n, s with
  | S n, String c s => String c (str_take n s)
  | _, _ => ""
  end.

(** ** Framing *)
Definition LF : string := String (ascii_of_nat 10) "".
Definition CR : string := String (ascii_of_nat 13) "".
Definition LFLF : string := LF +:+ LF.
Definition CRLFCRLF : string := CR +:+ LF +:+ CR +:+ LF.

Definition find_sse_boundary (buf : string) : option (nat * nat) :=
  let lf := (λ p, (p, 2)) <$> str_find LFLF buf in
  let crlf := (λ p, (p, 4)) <$> str_find CRLFCRLF buf in
  match lf, crlf with
  | Some a, None => Some a
  | None, Some b => Some b
  | Some a, Some b => if (a.1 <=? b.1)%nat then Some a else Some b
  | None, None => None
  end.

(** [str::lines]: split at line feeds, without a carriage return before one
    and without an empty last line. *)
Definition strip_cr (l : string) : string := default l (strip_suffix_char (ascii_of_nat 13) l).
Fixpoint lines_of (ls : list string) : list string :=
  match ls with
  | [] => []
  | [l] => if decide (l = "") then [] else [l]
  | l :: ls => strip_cr l :: lines_of ls
  end.
Definition str_lines (s : string) : list string := lines_of (split_on (ascii_of_nat 10) s).

Definition payload_of_line (line : string) : option string :=
  rest ← strip_prefix "data:" line;
  let data := default rest (strip_prefix " " rest) in
  if decide (trim data = "" ∨ data = "[DONE]") then None else Some data.
Definition parse_event_payloads (raw : string) : list string := omap payload_of_line (str_lines raw).

Definition MAX_SSE_SCAN_BUFFER_BYTES : Z := 1048576.

Section sse.
Context (from_str : string → result string json).

Definition payload_chunk (data : string) : option (result string ChatStreamChunk) :=
  match from_sse_data from_str data with
  | Ok (Some chunk) => Some (Ok chunk)
  | Ok None => None
  | Err e => Some (Err e)
  end.
Definition frame_chunks (frame : string) : list (result string ChatStreamChunk) :=
  omap payload_chunk (parse_event_payloads (trim frame)).

(** The loop; every turn takes a delimiter off the buffer. *)
Fixpoint drain_loop (fuel : nat) (buf : string) : list (result string ChatStreamChunk) * string :=
  match fuel with
  | O => ([], buf)
  | S fuel =>
      match find_sse_boundary buf with
      | Some (pos, delim_len) =>
          let '(chunks, rest) := drain_loop fuel (str_drop (pos + delim_len) buf) in
          (frame_chunks (str_take pos buf) ++ chunks, rest)
      | None =>
          if (MAX_SSE_SCAN_BUFFER_BYTES <? Z.of_nat (String.length buf))%Z
          then ([Err "streamed SSE frame exceeded maximum buffered size"], "") else ([], buf)
      end
  end.
Definition drain_sse_events (buf : string) : list (result string ChatStreamChunk) * string :=
  drain_loop (S (String.length buf)) buf.

(** ** The provider *)
Definition transport_error_display (fmt_status : Z → string) (e : TransportError) : string :=
  match e with
  | TNetwork m => "Network error: " +:+ m
  | TTimeout m => "Timeout error: " +:+ m
  | THttp status body => "HTTP error status " +:+ fmt_status status +:+ ": " +:+ String.string_of_list_ascii body
  | TSerialization m => "Serialization error: " +:+ m
  end.

(** [stream.scan] over the buffer, flattened. *)
Fixpoint framed (display : TransportError → string) (buf : string) (events : list (result TransportError TransportEvent))
    : list (result string ChatStreamChunk) :=
  match events with
  | [] => []
  | Ok event :: events =>
      let '(chunks, buf) := drain_sse_events (buf +:+ String.string_of_list_ascii (te_data event)) in
      chunks ++ framed display buf events
  | Err e :: events => Err ("Transport error: " +:+ display e) :: framed display buf events
  end.

(** The [Model] trait, as far as a provider uses it. *)
Record Model := mkModel {
  format_request : ChatCompletionRequest → string → result string TransportRequest;
  normalize_response : TransportResponse → result string ChatCompletionResponse;
}.
Record Provider := mkProvider { pv_model : Model; pv_api_key : string; extra_headers : gmap string string }.
Definition set_extra_headers (headers : gmap string string) (p : Provider) : Provider :=
  mkProvider (pv_model p) (pv_api_key p) headers.
Definition apply_extra_headers (p : Provider) (req : TransportRequest) : TransportRequest :=
  mkTransportRequest (treq_url req) (treq_method req) (extra_headers p ∪ treq_headers req) (treq_body req).

(** [body["stream"] = true]; [None] is the panic on a body that is neither an
    object nor null. *)
Definition set_stream (body : json) : option json :=
  match body with
  | JObject m => Some (JObject (obj_insert "stream" (JBool true) m))
  | JNull => Some (JObject [("stream", JBool true)])
  | _ => None
  end.

Section provider.
Context (parse_url : string → result string Url).
Context (lookup : nat → string → result string (list IpAddr)).
Context (exchange : nat → list IpAddr → TransportRequest → Exchange).
Context (from_slice : list ascii → result string json).
Context (random : nat → Z).
Context (transport : HttpTransport) (fmt_status : Z → string).

Definition provider_completion (p : Provider) (request : ChatCompletionRequest)
    : result string ChatCompletionResponse * list TransportStep :=
  match format_request (pv_model p) request (pv_api_key p) with
  | Err e => (Err e, [])
  | Ok req =>
      let '(r, t) := send parse_url lookup exchange from_slice random transport (apply_extra_headers p req) in
      (resp ← map_err (λ e, "Transport error: " +:+ transport_error_display fmt_status e) r;
       normalize_response (pv_model p) resp, t)
  end.
Definition provider_stream (p : Provider) (request : ChatCompletionRequest)
    : option (result string (list (result string ChatStreamChunk)) * list TransportStep) :=
  match format_request (pv_model p) request (pv_api_key p) with
  | Err e => Some (Err e, [])
  | Ok req =>
      let req := apply_extra_headers p req in
      body ← set_stream (treq_body req);
      let '(r, t) := stream parse_url lookup exchange (mkTransportRequest (treq_url req) (treq_method req) (treq_headers req) body) in
      Some (events ← map_err (λ e, "Transport error: " +:+ transport_error_display fmt_status e) r;
            Ok (framed (transport_error_display fmt_status) "" events), t)
  end.
End provider.
End sse.

(** ** Frames of a text *)
Lemma str_take_app n s m : n ≤ String.length s → str_take n (s +:+ m) = str_take n s.
Proof.
  revert s. induction n as [|n IH]; intros s Hn; [by destruct (s +:+ m), s|]. destruct s as [|c s]; cbn [String.length] in *; [lia|].
  rewrite str_app_cons. cbn [str_take str_drop]. f_equal. apply IH. lia.
Qed.
Lemma str_drop_app_le n s m : n ≤ String.length s → str_drop n (s +:+ m) = str_drop n s +:+ m.
Proof.
  revert s. induction n as [|n IH]; intros s Hn; [by destruct s|]. destruct s as [|c s]; cbn [String.length] in *; [lia|].
  rewrite str_app_cons. cbn [str_take str_drop]. apply IH. lia.
Qed.
Lemma str_take_drop n s : str_take n s +:+ str_drop n s = s.
Proof.
  revert s. induction n as [|n IH]; intros s; [by destruct s|]. destruct s as [|c s]; [done|]. cbn [str_take str_drop].
  rewrite str_app_cons. by rewrite IH.
Qed.
Lemma length_str_drop n s : String.length (str_drop n s) = String.length s - n.
Proof. revert s. induction n as [|n IH]; intros [|c s]; csimpl; [done..|]. apply IH. Qed.

(** The boundary, one character at a time. *)
Lemma find_sse_boundary_cons c s :
  find_sse_boundary (String c s) =
    if starts_with LFLF (String c s) then Some (0, 2)
    else if starts_with CRLFCRLF (String c s) then Some (0, 4)
    else (λ pd, (S pd.1, pd.2)) <$> find_sse_boundary s.
Proof.
  unfold find_sse_boundary. cbn [str_find].
  destruct (starts_with LFLF (String c s)) eqn:Hl; destruct (starts_with CRLFCRLF (String c s)) eqn:Hc.
  - cbn. reflexivity.
  - cbn. by destruct (str_find CRLFCRLF s).
  - cbn. by destruct (str_find LFLF s).
  - destruct (str_find LFLF s) as [a|], (str_find CRLFCRLF s) as [b|]; cbn; try done.
    destruct (a <=? b)%nat; done.
Qed.
Lemma find_sse_boundary_bound s p d : find_sse_boundary s = Some (p, d) → (d = 2 ∨ d = 4) ∧ p + d ≤ String.length s.
Proof.
  revert p. induction s as [|c s IH]; intros p; [done|]. rewrite find_sse_boundary_cons.
  destruct (starts_with LFLF (String c s)) eqn:Hl.
  { intros [= <- <-]. apply starts_with_spec in Hl as [r ->]. rewrite str_length_app. csimpl. lia. }
  destruct (starts_with CRLFCRLF (String c s)) eqn:Hc.
  { intros [= <- <-]. apply starts_with_spec in Hc as [r ->]. rewrite str_length_app. csimpl. lia. }
  destruct (find_sse_boundary s) as [[q e]|] eqn:Hf; [|done]. intros [= <- <-]. specialize (IH q eq_refl). csimpl. lia.
Qed.
Lemma starts_with_longer p s m : String.length p ≤ String.length s → starts_with p (s +:+ m) = starts_with p s.
Proof.
  revert s. induction p as [|a p IH]; intros s Hl; [by destruct s|]. destruct s as [|b s]; cbn [String.length] in *; [lia|].
  rewrite str_app_cons. cbn [starts_with]. by rewrite IH by lia.
Qed.
Lemma two_characters c1 c2 b : find_sse_boundary (String c1 (String c2 "")) = Some b → c2 = ascii_of_nat 10.
Proof.
  destruct (decide (c2 = ascii_of_nat 10)) as [|H2]; [done|]. rewrite !find_sse_boundary_cons.
  assert (starts_with LFLF (String c1 (String c2 "")) = false) as ->.
  { apply not_true_iff_false. intros [r Hr]%starts_with_spec. by injection Hr as _ ? _. }
  assert (∀ a a', starts_with CRLFCRLF (String a (String a' "")) = false ∧ starts_with CRLFCRLF (String a "") = false ∧
    starts_with LFLF (String a "") = false) as Hshort.
  { intros a a'. split_and!; apply not_true_iff_false; intros [r Hr%(f_equal String.length)]%starts_with_spec;
      rewrite str_length_app in Hr; csimpl in Hr; lia. }
  destruct (Hshort c1 c2) as (-> & _ & _). destruct (Hshort c2 c2) as (_ & -> & ->). done.
Qed.
(** A boundary that is found stays where it is when more text arrives. *)
Lemma find_sse_boundary_app s m b : find_sse_boundary s = Some b → find_sse_boundary (s +:+ m) = Some b.
Proof.
  revert b. induction s as [|c s IH]; intros b; [done|]. rewrite str_app_cons, !find_sse_boundary_cons, <- !str_app_cons.
  destruct (starts_with LFLF (String c s)) eqn:Hl.
  { intros [= <-]. apply starts_with_spec in Hl as [r ->]. by rewrite str_app_assoc, starts_with_app. }
  destruct (starts_with CRLFCRLF (String c s)) eqn:Hc.
  { intros [= <-]. apply starts_with_spec in Hc as [r ->]. rewrite str_app_assoc, starts_with_app. done. }
  destruct (find_sse_boundary s) as [[p d]|] eqn:Hf; [|done]. intros [= <-]. rewrite (IH _ eq_refl).
  destruct (find_sse_boundary_bound s p d Hf) as [Hd Hlen].
  rewrite (starts_with_longer LFLF), Hl by (csimpl; lia).
  assert (starts_with CRLFCRLF (String c s +:+ m) = false) as ->; [|done].
  destruct (decide (4 ≤ String.length (String c s))) as [|Hshort]; [by rewrite starts_with_longer|].
  destruct s as [|c1 [|c2 [|c3 s]]]; cbn [String.length] in *; try lia.
  rewrite (two_characters c1 c2 (p, d) Hf). apply not_true_iff_false. by intros [r Hr]%starts_with_spec.
Qed.

(** The frames of a text and what follows the last of them. *)
Fixpoint frames_from (fuel : nat) (s : string) : list string * string :=
  match fuel with
  | O => ([], s)
  | S fuel =>
      match find_sse_boundary s with
      | Some (p, d) => let '(fs, rest) := frames_from fuel (str_drop (p + d) s) in (str_take p s :: fs, rest)
      | None => ([], s)
      end
  end.
Definition frames (s : string) : list string * string := frames_from (S (String.length s)) s.

Lemma frames_from_fuel fuel s : String.length s < fuel → frames_from fuel s = frames s.
Proof.
  unfold frames. remember (String.length s) as k eqn:Hk. revert fuel s Hk.
  induction k as [k IH] using lt_wf_ind. intros fuel s -> Hf. destruct fuel as [|fuel]; [lia|]. cbn [frames_from].
  destruct (find_sse_boundary s) as [[p d]|] eqn:Hb; [|done]. apply find_sse_boundary_bound in Hb.
  pose proof (length_str_drop (p + d) s) as Hl.
  rewrite (IH (String.length (str_drop (p + d) s))) by (done || lia).
  by rewrite <- (IH (String.length (str_drop (p + d) s)) ltac:(lia) (String.length s)) by (done || lia).
Qed.
Lemma frames_step s :
  frames s = match find_sse_boundary s with
             | Some (p, d) => let '(fs, rest) := frames (str_drop (p + d) s) in (str_take p s :: fs, rest)
             | None => ([], s)
             end.
Proof.
  unfold frames at 1. cbn [frames_from]. destruct (find_sse_boundary s) as [[p d]|] eqn:Hb; [|done].
  apply find_sse_boundary_bound in Hb. rewrite frames_from_fuel; [done|]. rewrite length_str_drop. lia.
Qed.
(** Frames that are complete do not change when more text arrives. *)
Lemma frames_app s m : frames (s +:+ m) = ((frames s).1 ++ (frames ((frames s).2 +:+ m)).1, (frames ((frames s).2 +:+ m)).2).
Proof.
  remember (String.length s) as k eqn:Hk. revert s Hk. induction k as [k IH] using lt_wf_ind. intros s ->.
  rewrite (frames_step s). destruct (find_sse_boundary s) as [[p d]|] eqn:Hb; [|csimpl; by destruct (frames (s +:+ m))].
  rewrite (frames_step (s +:+ m)), (find_sse_boundary_app s m (p, d) Hb). apply find_sse_boundary_bound in Hb.
  rewrite str_drop_app_le, str_take_app by lia.
  rewrite (IH (String.length (str_drop (p + d) s)) ltac:(rewrite length_str_drop; lia) (str_drop (p + d) s) eq_refl).
  by destruct (frames (str_drop (p + d) s)) as [fs rest].
Qed.

Lemma string_of_list_app x y :
  String.string_of_list_ascii (x ++ y) = String.string_of_list_ascii x +:+ String.string_of_list_ascii y.
Proof. induction x as [|c x IH]; [done|]. simpl. by rewrite IH. Qed.

Section exact.
Context (from_str : string → result string json).

(** The chunks of a text: those of its frames, in order. *)
Definition sse_chunks (text : string) : list (result string ChatStreamChunk) := (frames text).1 ≫= frame_chunks from_str.

(** No part of a text that is still without an end is too long to keep. *)
Definition frames_fit (text : string) : Prop :=
  ∀ p q, text = p +:+ q → (Z.of_nat (String.length (frames p).2) ≤ MAX_SSE_SCAN_BUFFER_BYTES)%Z.

Lemma drain_loop_spec fuel s :
  String.length s < fuel → (Z.of_nat (String.length (frames s).2) ≤ MAX_SSE_SCAN_BUFFER_BYTES)%Z →
  drain_loop from_str fuel s = (sse_chunks s, (frames s).2).
Proof.
  revert s. induction fuel as [|fuel IH]; intros s Hf Hfit; [lia|]. cbn [drain_loop]. unfold sse_chunks.
  rewrite (frames_step s) in Hfit |- *. destruct (find_sse_boundary s) as [[p d]|] eqn:Hb.
  - apply find_sse_boundary_bound in Hb. destruct (frames (str_drop (p + d) s)) as [fs rest] eqn:Hfr. cbn [fst snd] in *.
    rewrite IH; [|rewrite length_str_drop; lia|by rewrite Hfr]. unfold sse_chunks. by rewrite Hfr.
  - cbn [fst snd] in *. by rewrite (proj2 (Z.ltb_ge _ _)).
Qed.

Lemma frames_fit_prefix p q : frames_fit (p +:+ q) → frames_fit p.
Proof. intros Hfit a b ->. apply (Hfit a (b +:+ q)). by rewrite str_app_assoc. Qed.

(** Framing a stream event by event gives the chunks of its whole text. *)
Lemma framed_exact display before events :
  errors events = [] →
  frames_fit (before +:+ String.string_of_list_ascii (concat (event_text <$> events))) →
  sse_chunks before ++ framed from_str display (frames before).2 events =
    sse_chunks (before +:+ String.string_of_list_ascii (concat (event_text <$> events))).
Proof.
  revert before. induction events as [|[e|e] events IH]; intros before He Hfit; csimpl in He; [| |done].
  - cbn. by rewrite str_app_nil_r, (right_id_L [] (++)).
  - cbn [framed]. change (event_text <$> Ok e :: events) with (te_data e :: (event_text <$> events)) in *.
    cbn [concat] in *. set (d := String.string_of_list_ascii (te_data e)).
    assert (String.string_of_list_ascii (te_data e ++ concat (event_text <$> events)) =
      d +:+ String.string_of_list_ascii (concat (event_text <$> events))) as Hs by apply string_of_list_app.
    rewrite Hs, <- str_app_assoc in *. pose proof (frames_app before d) as Happ.
    unfold drain_sse_events. rewrite drain_loop_spec; [|lia|].
    + rewrite <- (IH (before +:+ d) He Hfit).
      assert (sse_chunks (before +:+ d) = sse_chunks before ++ sse_chunks ((frames before).2 +:+ d)) as ->
        by (unfold sse_chunks; rewrite Happ; apply bind_app).
      rewrite Happ. cbn [snd]. by rewrite (assoc_L (++)).
    + pose proof (frames_fit_prefix _ _ Hfit (before +:+ d) "") as Hf. rewrite str_app_nil_r, Happ in Hf. by apply Hf.
Qed.

(** A text that is short enough as a whole fits. *)
Lemma frames_rest_le s : String.length (frames s).2 ≤ String.length s.
Proof.
  remember (String.length s) as k eqn:Hk. revert s Hk. induction k as [k IH] using lt_wf_ind. intros s ->.
  rewrite frames_step. destruct (find_sse_boundary s) as [[p d]|] eqn:Hb; [|done]. apply find_sse_boundary_bound in Hb.
  pose proof (length_str_drop (p + d) s) as Hl. specialize (IH (String.length (str_drop (p + d) s)) ltac:(lia) _ eq_refl).
  destruct (frames (str_drop (p + d) s)) as [fs rest]. cbn [snd] in *. lia.
Qed.
Lemma short_text_fits text : (Z.of_nat (String.length text) ≤ MAX_SSE_SCAN_BUFFER_BYTES)%Z → frames_fit text.
Proof.
  intros Hl p q ->. rewrite str_length_app in Hl. pose proof (frames_rest_le p). lia.
Qed.

Context (parse_url : string → result string Url).
Context (lookup : nat → string → result string (list IpAddr)).
Context (exchange : nat → list IpAddr → TransportRequest → Exchange).
Context (fmt_status : Z → string).

(** C24. A stream that a provider opens, that the network carries to its end, and
    in whose text no unfinished event is longer than the buffer (a mebibyte),
    delivers the chunks of the events in the text of the body, in their order:
    they depend on its bytes alone and not on where they were cut, be it inside
    a character, a line or a delimiter. No internal address is dialled. *)
Theorem provider_stream_exact p request chunks_out t :
  provider_stream from_str parse_url lookup exchange fmt_status p request = Some (Ok chunks_out, t) →
  ∃ req addrs status body,
    t = [Dialed addrs] ∧ reaches_public t ∧ exchange 0 addrs req = Responded status body ∧
    let text := String.string_of_list_ascii (from_utf8_lossy (concat (chunk_bytes <$> body))) in
    (errors body = [] → frames_fit text → chunks_out = sse_chunks text).
Proof.
  unfold provider_stream. destruct (format_request _ _ _) as [req|e]; [|done].
  destruct (set_stream _) as [jb|]; cbn; [|done]. set (r := mkTransportRequest _ _ _ jb).
  pose proof (stream_text_exact parse_url lookup exchange r) as Hst.
  destruct (stream parse_url lookup exchange r) as [[events|e] t'] eqn:Hs; cbn; [|done]. intros [= <- <-].
  destruct Hst as [Hpub Hst]. destruct (Hst events eq_refl) as (addrs & status & body & -> & Hx & _ & Htext & _ & Herr).
  exists r, addrs, status, body. split_and!; [done..|]. intros He Hfit. rewrite <- Htext in *.
  rewrite He in Herr. apply (framed_exact (transport_error_display fmt_status) "" events Herr Hfit).
Qed.
End exact.

(** ** A concrete stream, cut inside a character and inside a delimiter *)
Definition demo_from_str (s : string) : result string json :=
  Ok (JObject [("choices", JArray [JObject [("delta", JObject [("content", JString s)])]])]).
Definition demo_provider : Provider :=
  mkProvider (mkModel (λ _ key, Ok (mkTransportRequest "https://api.example/v1" "POST" ∅ JNull)) (λ _, Err "unused")) "key" ∅.
Definition demo_body : Chunks :=
  let text := "data: a" +:+ Text.bytes [226; 130; 172] +:+ LF +:+ LF +:+ ": ping" +:+ LF +:+ LF +:+
              "data: b" +:+ CR +:+ LF +:+ CR +:+ LF +:+ "data: [DONE]" +:+ LF +:+ LF in
  let l := String.list_ascii_of_string text in [Ok (take 8 l); Ok (take 3 (drop 8 l)); Ok (take 18 (drop 11 l)); Ok (drop 29 l)].
Definition demo_chat : ChatCompletionRequest := mkCompletionRequest "m" [] true None None None None None None None.

Lemma provider_stream_exact_witness :
  let out := [Ok (mkChunk (Some ("a" +:+ Text.bytes [226; 130; 172])) None None); Ok (mkChunk (Some "b") None None)] in
  let text := String.string_of_list_ascii (from_utf8_lossy (concat (chunk_bytes <$> demo_body))) in
  provider_stream demo_from_str demo_parse demo_lookup (λ _ _ _, Responded 200 demo_body) (λ _, "") demo_provider demo_chat =
    Some (Ok out, [Dialed [V4 93 184 216 34]]) ∧
  out = sse_chunks demo_from_str text.
Proof.
  assert (provider_stream demo_from_str demo_parse demo_lookup (λ _ _ _, Responded 200 demo_body) (λ _, "") demo_provider demo_chat =
    Some (Ok [Ok (mkChunk (Some ("a" +:+ Text.bytes [226; 130; 172])) None None); Ok (mkChunk (Some "b") None None)],
      [Dialed [V4 93 184 216 34]])) as Hp by (vm_compute; reflexivity).
  split; [exact Hp|].
  destruct (provider_stream_exact demo_from_str demo_parse demo_lookup (λ _ _ _, Responded 200 demo_body) (λ _, "")
    demo_provider demo_chat _ _ Hp) as (req & addrs & status & body & _ & _ & Hx & Hout).
  injection Hx as <- <-. apply Hout; [reflexivity|]. apply short_text_fits. vm_compute. discriminate.
Defined.

(** The doc of [parse_event_payloads] refers to the SSE specification, which
    joins the [data] lines of an event with line feeds; here each line is a
    payload of its own. *)
Theorem data_lines_not_joined :
  parse_event_payloads ("data: {" +:+ LF +:+ "data: }") = ["{"; "}"].
Proof. vm_compute. reflexivity. Qed.
